(* ===== verification/_CoqProject ===== *)
-Q . S2P
Prelude.v
Errors.v
Bytes.v
External.v
Identity.v
Net.v
Samples.v
Bucket.v
Table.v
TableBounds.v
Lookup.v
Erasure.v
Chunks.v
Metadata.v
Message.v
RateLimit.v
Race.v
Actor.v
Context.v
Handler.v
Retrieve.v
Store.v
Progress.v
Availability.v
Network.v
Providers.v
Maintenance.v
Token.v
Stun.v
Discovery.v
Quic.v
Memory.v
Startup.v
Node.v
System.v
Service.v
Journey.v
Cli.v
