(* ===== verification/Prelude.v ===== *)
(** * tesseras-dht: a verification library

    [tesseras-dht] is a Kademlia distributed hash table that keeps erasure-coded data ("tesseras")
    on the peers of a network.  This library models the crate in Rocq, file by file, and proves the
    properties that make its parts, and their composition, correct.  Paths below are relative to
    [src/] of the crate.

    ** The program

    A node has an identity ([identity/]: an Ed25519 key, whose hash with a proof of work is its id), a
    routing table of 256 k-buckets ([routing/]), a chunk store on disk ([storage/chunks.rs]) and a
    metadata store in SQLite ([storage/sqlite.rs]).  It speaks signed request and response messages
    ([protocol/message.rs]) over a transport ([transport/quic.rs], or [transport/mod.rs] in tests).
    [node.rs] holds the actor: one loop takes commands of the handle, inbound messages and timer ticks, and
    spawns a task for each inbound message, bootstrap and response.  All tasks share the routing
    table, the stores, the limiters and the per-peer chunk counts under locks.  Storing splits data
    into blocks ([erasure/mod.rs]), gives each shard to the peers closest to its hash, and stores a
    manifest; retrieving reads the manifest, fetches enough shards of every block, and decodes.

    ** The files

    Foundations.
    - this file: outcomes of fallible code, generic lemmas, tactics and hint databases.
    - [Errors]: [error.rs].  [Bytes]: bytes, encodings, machine integers.  [Net]: [std::net] addresses.
    - [External]: classes for the third-party crates (sha2, ed25519-dalek, reed-solomon-erasure,
      rmp-serde, serde_json, base64, hex), operations with their documented laws.
    - [Samples]: instances of these classes, on which the witnesses evaluate the model.

    Components of their own.
    - [Identity]: [identity/]: ids, XOR distance, proof of work, keys.
    - [Bucket], [Table], [TableBounds]: [routing/bucket.rs], [routing/table.rs], and what of a table's
      invariant survives interleaved tasks.
    - [Lookup]: [lookup/mod.rs], against an arbitrary network.
    - [Erasure]: [erasure/mod.rs].
    - [Chunks], [Metadata]: [storage/].
    - [Message]: [protocol/message.rs].
    - [RateLimit]: [transport/rate_limit.rs].  [Quic]: [transport/quic.rs].  [Memory]: [transport/mod.rs].
      [Stun]: [transport/nat.rs] and the server of [bin/nat-test-helper.rs].
    - [Race]: [send_request_any] of [node.rs].

    The node ([node.rs]).
    - [Actor]: configuration, shared state [NodeState], and the language [prog] of asynchronous bodies.
    - [Context] ([HandlerContext]), [Handler] (inbound messages), [Retrieve], [Store], [Providers],
      [Maintenance]: the bodies, each a [prog] named as its function is.
    - [Progress]: bodies with and without progress reports.  [Availability]: retrieval when chunks are lost.
      [Network]: retrieval from peers that are nodes themselves.  These three only state and prove.
    - [Token]: the text of a stored tessera.
    - [Discovery]: mDNS and DNS bootstrap.  [Startup]: [NodeBuilder] and [spawn_node].
    - [Node]: commands, the actor's reaction to each, the bodies of all tasks, the handle.
    - [System]: the actor and its tasks as one interleaving transition system.
    - [Service]: what running nodes answer; any number of nodes against one ideal store.
    - [Journey]: a tessera stored on one node, kept by hosts, retrieved on another.
    - [Cli]: [bin/tessera-node.rs].

    ** How code becomes definitions

    State is a record and every operation a function that gives the new state; [Result] is [outcome],
    whose third case [Panic] is a panic of the code (index out of range, overflow, [unwrap]).  Integers
    are [Z] with their wrap-around written out; where a build's overflow checks matter, the argument
    [oc] says whether it has them.  [f64] is IEEE-754 binary64 of the standard library.  Maps whose
    order does not matter are [gmap]; others are lists.

    Asynchronous bodies are trees of type [Actor.prog]: one action on the shared state under a lock, a
    request, a raced request, a response, a spawned task or a progress report, and then the rest.  They are read in two ways.
    [Actor.run] executes one body against an [Oracle] that answers everything (clock, disk, network) and
    changes the shared state between any two actions as other tasks may; [safely] and [leads] are the
    program logic for it (a body, whatever the oracle, keeps the invariant [node_ok] and sends only
    messages of a given kind).  [System] runs all bodies at once: a state of the system holds the shared
    state and what is left of every task, and [internal] takes one action of any of them, in
    surroundings that answer as its argument [R] expects.  The lemmas about single bodies, proved for every
    oracle, are the obligations of [System]'s invariant; what is safe for a command's body is true of the answers
    of the interleaved node, and every run of a body is an execution of it ([Service.command_served]).

    ** What is shown

    - Integrity: what was stored is what is retrieved, whatever the peers answer; what a
      retrieval returns matches the hashes it was given ([Store.store_retrieve_integrity],
      [Retrieve.retrieve_integrity]); the token of a stored tessera leads back to the data ([Token.token_journey]);
      a file stored by one command and fetched by another comes out as it was ([Cli.stored_file_fetched],
      [Cli.get_reads_store], which also show where it cannot be fetched).  All answers of any number of nodes, each
      with its tasks interleaved, agree with one map from manifest hashes to data ([Service.nodes_refine_ideal]).
    - Availability: enough chunks on the disk or with peers that serve them give the data
      ([Availability.retrieve_survives_losses]); peers that run this code and have acknowledged a chunk are
      such peers ([Network.acknowledged_chunks_retrieved]); a store sends every chunk to the peers it picks, so what one
      node stored another retrieves from the hosts that took the uploads, given the result of the store or only the
      manifest hash ([Journey.stored_data_retrieved], [Journey.manifest_hash_suffices]).
    - Progress reports change no result and no message, and come in order ([Progress.progress_changes_nothing],
      [Progress.reports_in_order], [Startup.spawn_announces]).
    - Starting: every failure before the node runs, and what becomes of its identity ([Cli.start_node_outcome],
      [Startup.node_identity_faults]).
    - The node as a whole: every reachable state of the interleaved system keeps the invariant, runs no more handlers than
      configured, and panics nowhere but in the actor while it serves a retrieval ([System.node_stays_sound]); left to itself it comes to rest with
      every command taken up answered ([System.commands_settle]); it starts in such a state whatever the
      database holds ([Startup.spawn_node_ok]) and resumes from what it saved ([Startup.restart_resumes]).
    - Inbound messages: the verification gate, exactly one answer, eviction, quotas and their roll-back
      ([Handler]); what a node sends its peers accept ([Handler.outgoing_accepted]).
    - Kademlia: buckets, the table's invariant, [closest_nodes] sorted and complete, lookups that end, ask
      nobody twice and return the closest, the node's lookup a refinement of [lookup/mod.rs].
    - Storage: the quota under concurrent calls, the effect of each operation under every fault, record
      lifetimes, a cleanup no query can see, batches that are atomic.
    - Encodings: erasure coding with missing shards, framing, signatures, STUN, identities, peers.
    - Transports: a bounded LRU pool, at most two attempts, one response per stream, requests delivered
      once and in order.
    - Limits: token buckets in floating point, racing with staggered starts.
    Statements that show a defect or a divergence from the documentation are theorems as well
    ([Table.evict_and_insert_duplicates], [Chunks.concurrent_puts_count_twice], [Memory.cancelled_request_leaks] and others).

    ** Bounds and fuel

    - [Identity.pow_search] takes fuel for the search of a nonce, which has no bound known in advance;
      [pow_generate_spec] says it succeeds exactly when a sufficient nonce lies below the fuel.  The
      callers ([Startup], [Cli]) pass it on.
    - [Retrieve.chunks_of], [Cli.trim_start] and the STUN attribute loop take the length of
      their input as fuel, and each step consumes some of it.
    - [Race.race_clock] takes one step per attempt or expiry, [2 * n] for [n] addresses.
    - [Lookup] counts rounds; the code's own limits end the loop.
    - [System] needs none: termination is well-foundedness of [internal] ([Acc]), by a measure on the
      commands, messages and trees that are left.

    ** What is not modelled

    - Code outside the repository: the classes of [External]; quinn, rustls, tokio's channels and timers,
      rusqlite, the mDNS daemon and the resolver appear as arguments and oracles.
    - Configuration of sockets and TLS ([QuicTransport::new] before its tasks, [SkipVerification],
      [create_udp_socket]), argument parsing of the binaries and what they print besides their results,
      metrics and log output.
    - The encoder thread of a store may run, and report, up to two blocks ahead of the distribution; its
      blocks are encoded and reported here where they are received.
    - A caller that neither takes its progress reports nor drops their receiver: a report is an action that
      ends, so [System.commands_settle] is about callers that do either.
    - Zero intervals and queue sizes, on which tokio panics when the node starts.
    - Tasks that one body spawns and itself awaits (uploads of a store, fetches of a chunk, queries of a round) run one after
      the other where they are awaited; their completion order is the oracle's where the code depends on it.
      Tasks that nobody awaits are tasks of [System].
    - [NodeActor]'s one-line wrappers around [HandlerContext] ([best_addr], [new_message], [do_bootstrap],
      [do_iterative_find_node]) are identified with what they call. *)
From stdpp Require Export prelude gmap sorting strings.
From Stdlib Require Export ZArith Lia.

#[global] Open Scope Z_scope.

(** ** Outcomes of fallible code

    [Ok] and [Err] are the two constructors of Rust's [Result]; [Panic] is an
    unwinding panic (an index out of range, [unwrap] on [None], an arithmetic
    overflow in a build with overflow checks). *)
Inductive outcome (E A : Type) : Type :=
  | Ok (a : A)
  | Err (e : E)
  | Panic.
Arguments Ok {E A} a.
Arguments Err {E A} e.
Arguments Panic {E A}.

#[export] Instance outcome_mret E : MRet (outcome E) := λ A a, Ok a.
#[export] Instance outcome_mbind E : MBind (outcome E) := λ A B f m,
  match m with Ok a => f a | Err e => Err e | Panic => Panic end.
#[export] Instance outcome_fmap E : FMap (outcome E) := λ A B f m,
  match m with Ok a => Ok (f a) | Err e => Err e | Panic => Panic end.

Definition is_ok {E A} (m : outcome E A) : bool :=
  match m with Ok _ => true | _ => false end.

(** Iterator [collect::<Result<Vec<_>, _>>]: the first error wins. *)
Fixpoint mapM_outcome {E A B} (f : A → outcome E B) (l : list A) : outcome E (list B) :=
  match l with
  | [] => Ok []
  | x :: l' => y ← f x; ys ← mapM_outcome f l'; Ok (y :: ys)
  end.

Lemma outcome_bind_Ok {E A B} (m : outcome E A) (f : A → outcome E B) b :
  (m ≫= f) = Ok b ↔ ∃ a, m = Ok a ∧ f a = Ok b.
Proof.
  destruct m as [a|e|]; simpl; split; intros H; try done; eauto.
  - by destruct H as (? & [= ->] & ?).
  - by destruct H as (? & ? & ?).
  - by destruct H as (? & ? & ?).
Qed.

Lemma mapM_outcome_Ok {E A B} (f : A → outcome E B) l k :
  mapM_outcome f l = Ok k ↔ Forall2 (λ x y, f x = Ok y) l k.
Proof.
  revert k. induction l as [|x l IH]; intros k; simpl.
  - split; [intros [= <-]; constructor | by inversion 1].
  - rewrite outcome_bind_Ok. setoid_rewrite outcome_bind_Ok. split.
    + intros (y & Hy & ys & Hys & [= <-]). constructor; [done|]. by apply IH.
    + inversion 1 as [|? y ? ys Hy Hys]; subst.
      exists y; split; [done|]. exists ys. by rewrite IH.
Qed.

Lemma mapM_outcome_total {E A B} (f : A → outcome E B) l :
  (∀ x, x ∈ l → ∃ y, f x = Ok y) → ∃ k, mapM_outcome f l = Ok k.
Proof.
  induction l as [|x l IH]; intros Hf; [by eexists|]. simpl.
  destruct (Hf x) as [y ->]; [by left|]. destruct IH as [k ->]; [intros z Hz; apply Hf; by right|].
  simpl. eauto.
Qed.

Lemma mapM_outcome_id {E A} (f : A → outcome E A) l : Forall (λ x, f x = Ok x) l → mapM_outcome f l = Ok l.
Proof. induction 1 as [|x l Hx _ IH]; [done|]. simpl. by rewrite Hx, IH. Qed.

(** Each element succeeds as expected or fails in one of the ways of [Q]. *)
Lemma mapM_outcome_either {E A B} (f : A → outcome E B) (Q : E → Prop) l k :
  Forall2 (λ x y, f x = Ok y ∨ ∃ e, f x = Err e ∧ Q e) l k →
  mapM_outcome f l = Ok k ∨ ∃ e, mapM_outcome f l = Err e ∧ Q e.
Proof.
  induction 1 as [|x y l k Hx _ IH]; [by left|]. simpl.
  destruct Hx as [->|(e & -> & He)]; [|right; by exists e]. simpl.
  destruct IH as [->|(e & -> & He)]; [by left|right; by exists e].
Qed.

Lemma mapM_outcome_fmap {E A B C} (f : B → outcome E C) (g : A → B) (h : A → C) l :
  (∀ x, x ∈ l → f (g x) = Ok (h x)) → mapM_outcome f (g <$> l) = Ok (h <$> l).
Proof.
  induction l as [|x l IH]; intros Hf; [done|]. cbn.
  rewrite (Hf x) by left. cbn. rewrite IH; [done|].
  intros y Hy. apply Hf. by right.
Qed.

(** ** Stable sorting

    [slice::sort_by] is a stable sort; a stable sort by a total preorder is
    determined by its input, so insertion sort computes the same list. *)
Section sort_by.
Context {A : Type} (le : A → A → bool).

Fixpoint insert_by (x : A) (l : list A) : list A :=
  match l with
  | [] => [x]
  | y :: l' => if le x y then x :: y :: l' else y :: insert_by x l'
  end.

Definition sort_by (l : list A) : list A := foldr insert_by [] l.

Lemma insert_by_perm x l : insert_by x l ≡ₚ x :: l.
Proof.
  induction l as [|y l IH]; simpl; [done|].
  case_match; [done|]. rewrite IH. constructor.
Qed.

Lemma sort_by_perm l : sort_by l ≡ₚ l.
Proof. induction l as [|x l IH]; simpl; [done|]. by rewrite insert_by_perm, IH. Qed.

Lemma length_sort_by l : length (sort_by l) = length l.
Proof. by rewrite sort_by_perm. Qed.

Lemma elem_of_sort_by x l : x ∈ sort_by l ↔ x ∈ l.
Proof. by rewrite sort_by_perm. Qed.

Context (le_total : ∀ x y, le x y = true ∨ le y x = true).
Context (le_trans : ∀ x y z, le x y = true → le y z = true → le x z = true).

Lemma insert_by_sorted x l :
  StronglySorted (λ a b, le a b = true) l →
  StronglySorted (λ a b, le a b = true) (insert_by x l).
Proof.
  induction 1 as [|y l Hl IH Hy]; simpl; [repeat constructor|].
  destruct (le x y) eqn:Hxy.
  - constructor; [by constructor|]. constructor; [done|].
    eapply Forall_impl; [exact Hy|]. eauto.
  - constructor; [done|]. rewrite insert_by_perm. constructor; [|done].
    destruct (le_total x y); congruence.
Qed.

Lemma sort_by_sorted l : StronglySorted (λ a b, le a b = true) (sort_by l).
Proof. induction l; simpl; [constructor|]. by apply insert_by_sorted. Qed.

(** The first [n] elements of the sorted list are below all the others. *)
Lemma take_sort_by_least n l x y :
  x ∈ take n (sort_by l) → y ∈ drop n (sort_by l) → le x y = true.
Proof.
  pose proof (sort_by_sorted l) as Hs. rewrite <-(take_drop n (sort_by l)) in Hs.
  apply StronglySorted_app in Hs as (Hc & _ & _). eauto.
Qed.
End sort_by.

Lemma StronglySorted_impl {A} (R S : relation A) l : (∀ a b, R a b → S a b) → StronglySorted R l → StronglySorted S l.
Proof. intros Hi. induction 1 as [|x l Hs IH Hx]; constructor; [done|]. eapply Forall_impl; [exact Hx|]. intros y. apply Hi. Qed.

(** Elements that compare equal keep their order. *)
Lemma sort_by_stable {A} (le : A → A → bool) (P : A → Prop) `{!∀ x, Decision (P x)} l :
  (∀ x y, P x → P y → le x y = true) → filter P (sort_by le l) = filter P l.
Proof.
  intros Hp. induction l as [|x l IH]; [done|]. cbn [sort_by foldr]. fold (sort_by le l).
  assert (∀ k, filter P (insert_by le x k) = filter P (x :: k)) as ->.
  { induction k as [|y k IHk]; [done|]. cbn [insert_by]. destruct (le x y) eqn:E; [done|].
    rewrite filter_cons, IHk, !filter_cons. repeat case_decide; try done. rewrite Hp in E by done. done. }
  by rewrite !filter_cons, IH.
Qed.

(** Sorting an already sorted list changes nothing (adaptive case). *)
Lemma sort_by_id {A} (le : A → A → bool) l :
  StronglySorted (λ a b, le a b = true) l → sort_by le l = l.
Proof.
  induction 1 as [|x l Hl IH Hx]; simpl; [done|]. rewrite IH.
  destruct Hx as [|y l Hxy _]; simpl; [done|]. by rewrite Hxy.
Qed.

(** ** Generic list facts *)

(** [Vec::iter().position]: the first index satisfying a test. *)
Definition position {A} (f : A → bool) (l : list A) : option nat :=
  fst <$> list_find (λ x, f x = true) l.

(** [Vec::remove]. *)
Definition vec_remove {A} (i : nat) (l : list A) : list A := delete i l.

(** [Vec::pop], the removed element with the rest. *)
Definition vec_pop {A} (l : list A) : option (A * list A) :=
  match last l with Some x => Some (x, take (length l - 1) l) | None => None end.

Lemma vec_pop_Some {A} (l : list A) x l' : vec_pop l = Some (x, l') ↔ l = l' ++ [x].
Proof.
  unfold vec_pop. destruct (last l) as [y|] eqn:Hl.
  - apply last_Some in Hl as [k ->]. rewrite length_app; simpl.
    replace (length k + 1 - 1)%nat with (length k) by lia. rewrite take_app_length.
    split; [by intros [= <- <-]|]. intros [-> [= ->]]%app_inj_2; done.
  - apply last_None in Hl as ->. split; [done|]. by destruct l'.
Qed.

Lemma vec_pop_None {A} (l : list A) : vec_pop l = None ↔ l = [].
Proof.
  unfold vec_pop. destruct (last l) as [y|] eqn:Hl; [|by apply last_None in Hl].
  split; [done|]. intros ->. done.
Qed.

(** [iter_mut().find(p)] followed by an update of the element found. *)
Fixpoint update_first {A} (p : A → bool) (f : A → A) (l : list A) : option (list A) :=
  match l with
  | [] => None
  | x :: l => if p x then Some (f x :: l) else (x ::.) <$> update_first p f l
  end.

Lemma update_first_Some {A} (p : A → bool) f l l' :
  update_first p f l = Some l' ↔
  ∃ l1 x l2, l = l1 ++ x :: l2 ∧ p x = true ∧ Forall (λ y, p y = false) l1 ∧ l' = l1 ++ f x :: l2.
Proof.
  revert l'. induction l as [|y l IH]; intros l'; simpl.
  - split; [done|]. intros (l1 & x & l2 & Hl & _). by destruct l1.
  - destruct (p y) eqn:Hy.
    + split.
      * intros [= <-]. exists [], y, l. eauto.
      * intros ([|z l1] & x & l2 & [= -> ->] & Hx & Hl1 & ->); [done|].
        apply Forall_cons in Hl1 as []. congruence.
    + rewrite fmap_Some. setoid_rewrite IH. split.
      * intros (? & (l1 & x & l2 & -> & Hx & Hl1 & ->) & ->).
        exists (y :: l1), x, l2. eauto.
      * intros ([|z l1] & x & l2 & [= -> ->] & Hx & Hl1 & ->); [congruence|].
        apply Forall_cons in Hl1 as []. eauto 10.
Qed.

Lemma update_first_None {A} (p : A → bool) f l :
  update_first p f l = None ↔ Forall (λ y, p y = false) l.
Proof.
  induction l as [|y l IH]; simpl; [by split|]. rewrite Forall_cons, <-IH.
  destruct (p y); [split; [done|by intros [? _]]|]. rewrite fmap_None.
  split; [by split|by intros [_ ?]].
Qed.

Lemma position_Some {A} (f : A → bool) l i :
  position f l = Some i ↔
  ∃ x, l !! i = Some x ∧ f x = true ∧ ∀ j y, l !! j = Some y → (j < i)%nat → f y ≠ true.
Proof.
  unfold position. rewrite fmap_Some. split.
  - intros ([i' x] & Hf%list_find_Some & ->). eauto.
  - intros (x & H). exists (i, x). split; [|done]. by apply list_find_Some.
Qed.

Lemma position_None {A} (f : A → bool) l : position f l = None ↔ Forall (λ x, f x = false) l.
Proof.
  unfold position. rewrite fmap_None, list_find_None.
  split; intros H; (eapply Forall_impl; [exact H|]); intros x Hx; cbn beta in *.
  - by apply not_true_is_false.
  - by rewrite Hx.
Qed.

Lemma filter_all {A} (P : A → Prop) `{!∀ x, Decision (P x)} l :
  Forall P l → filter P l = l.
Proof. induction 1; [done|]. rewrite filter_cons_True; congruence. Qed.

Lemma delete_perm {A} (l : list A) i x : l !! i = Some x → l ≡ₚ x :: delete i l.
Proof. intros. by apply delete_Permutation. Qed.

Lemma elem_of_concat {A} (x : A) ls : x ∈ concat ls ↔ ∃ l, x ∈ l ∧ l ∈ ls.
Proof.
  induction ls as [|l ls IH]; simpl; [set_solver|]. rewrite elem_of_app, IH. set_solver.
Qed.

Lemma take_elem {A} (x : A) n l : x ∈ take n l → x ∈ l.
Proof. intros H. rewrite <-(take_drop n l). apply elem_of_app. by left. Qed.

Lemma drop_elem {A} (x : A) n l : x ∈ drop n l → x ∈ l.
Proof. intros H. rewrite <-(take_drop n l). apply elem_of_app. by right. Qed.

(** ** The development's automation *)
Create HintDb tess discriminated.
Create Rewrite HintDb tess_rw.
#[export] Hint Constants Opaque : tess.
#[export] Hint Variables Opaque : tess.
#[export] Hint Resolve take_elem drop_elem : tess.
#[export] Hint Resolve Forall_nil_2 Forall_cons_2 Forall_app_2 Forall_take Forall_drop : tess.

(** Split the scrutinee of every [match] in goal and hypotheses, keep the
    equations, and close the trivial cases. *)
Ltac cases :=
  repeat (case_match; simplify_eq/=; try done).

(** Case on a boolean test and turn it into the proposition it decides. *)
Ltac bool_prop :=
  repeat match goal with
  | H : (_ && _) = true |- _ => apply andb_true_iff in H as [? ?]
  | H : (_ || _) = false |- _ => apply orb_false_iff in H as [? ?]
  | H : negb _ = true |- _ => apply negb_true_iff in H
  | H : negb _ = false |- _ => apply negb_false_iff in H
  | H : bool_decide _ = true |- _ => apply bool_decide_eq_true_1 in H
  | H : bool_decide _ = false |- _ => apply bool_decide_eq_false_1 in H
  | H : (_ <=? _) = true |- _ => apply Z.leb_le in H
  | H : (_ <=? _) = false |- _ => apply Z.leb_gt in H
  | H : (_ <? _) = true |- _ => apply Z.ltb_lt in H
  | H : (_ <? _) = false |- _ => apply Z.ltb_ge in H
  | H : (_ =? _) = true |- _ => apply Z.eqb_eq in H
  | H : (_ =? _) = false |- _ => apply Z.eqb_neq in H
  end.

(** Prove a decidable proposition on concrete data by evaluating its decision. *)
Ltac decide_compute :=
  match goal with |- ?P => refine (bool_decide_eq_true_1 P _); vm_compute; reflexivity end.
