(* ===== verification/Errors.v ===== *)
(** * The error type of the crate ([src/error.rs])

    One constructor per variant of [TesseraError].  The payload strings are kept
    because the run loop inspects one of them ([is_channel_closed]).  The
    [rusqlite::Error] and [std::io::Error] payloads are the texts those types
    display. *)
From stdpp Require Import pretty.
From S2P Require Import Prelude.

Inductive TesseraError : Type :=
  | Network (msg : string)
  | Timeout
  | NoProviders
  | InsufficientChunks (needed got : Z)
  | StorageFull (available : Z)
  | InvalidIdentity (reason : string)
  | Storage (msg : string)
  | ErasureCoding (msg : string)
  | Serialization (msg : string)
  | Io (msg : string).

#[export] Instance TesseraError_eq_dec : EqDecision TesseraError.
Proof. solve_decision. Defined.

(** Results of the crate: [Result<A, TesseraError>], or a panic. *)
Abbreviation res A := (outcome TesseraError A).

(** [str::contains], by trying every start position. *)
Fixpoint str_contains (pat s : string) : bool :=
  String.prefix pat s ||
  match s with
  | EmptyString => false
  | String _ s' => str_contains pat s'
  end.

Definition is_channel_closed (e : TesseraError) : bool :=
  match e with
  | Network msg => str_contains "closed" msg
  | _ => false
  end.

(** [Display], the [#[error(...)]] attributes. *)
Definition error_to_string (e : TesseraError) : string :=
  match e with
  | Network s => "network: " +:+ s
  | Timeout => "request timed out"
  | NoProviders => "no providers found for key"
  | InsufficientChunks needed got => "insufficient chunks: need " +:+ pretty needed +:+ ", got " +:+ pretty got
  | StorageFull available => "storage full: " +:+ pretty available +:+ " bytes remaining"
  | InvalidIdentity reason => "invalid identity: " +:+ reason
  | Storage s => "storage: " +:+ s
  | ErasureCoding s => "erasure coding: " +:+ s
  | Serialization s => "serialization: " +:+ s
  | Io s => "io: " +:+ s
  end.
