(* ===== verification/Bytes.v ===== *)
(** * Bytes, byte arrays and machine integers

    A [u8] is a [Z] in [0, 256); a [[u8; n]] is a list of [n] of them
    ([array_ok n]).  The file defines the big- and little-endian encodings, the
    leading-zero count and the lexicographic comparison the crate uses, and
    relates each to the integer a byte string denotes. *)
From S2P Require Import Prelude.

Definition u8_ok (b : Z) : Prop := 0 ≤ b < 256.
Definition bytes_ok (l : list Z) : Prop := Forall u8_ok l.
Definition array_ok (n : nat) (l : list Z) : Prop := length l = n ∧ bytes_ok l.

#[export] Instance u8_ok_dec b : Decision (u8_ok b).
Proof. unfold u8_ok. apply _. Defined.
#[export] Instance bytes_ok_dec l : Decision (bytes_ok l).
Proof. unfold bytes_ok. apply _. Defined.
#[export] Instance array_ok_dec n l : Decision (array_ok n l).
Proof. unfold array_ok. apply _. Defined.

(** Widths of the unsigned machine integers; [usize] is 64 bits wide. *)
Definition wrap (w x : Z) : Z := x mod 2 ^ w.
Definition u16_max : Z := 65535.
Definition u64_max : Z := 2 ^ 64 - 1.
Definition saturating_sub (a b : Z) : Z := Z.max 0 (a - b).

(** Checked [usize] arithmetic: out of range it panics in a build with overflow checks
    ([oc]) and wraps in one without. *)
Definition usize_max : Z := 2 ^ 64 - 1.
Definition isize_max : Z := 2 ^ 63 - 1.
Definition usize_arith {E} (oc : bool) (x : Z) : outcome E Z :=
  if (0 <=? x) && (x <=? usize_max) then Ok x else if oc then Panic else Ok (wrap 64 x).

Lemma usize_arith_ok {E} oc x : 0 ≤ x ≤ usize_max → usize_arith (E := E) oc x = Ok x.
Proof. intros ?. unfold usize_arith. by rewrite (proj2 (Z.leb_le 0 x)), (proj2 (Z.leb_le x usize_max)) by lia. Qed.

(** [Vec::<u8>::with_capacity] panics above [isize::MAX]. *)
Definition with_capacity {E} (n : Z) : outcome E () := if n <=? isize_max then Ok () else Panic.

(** [Vec::truncate]. *)
Definition vec_truncate {A} (n : Z) (l : list A) : list A :=
  if Z.of_nat (length l) <=? n then l else take (Z.to_nat n) l.

(** [usize::div_ceil] panics on a zero divisor. *)
Definition div_ceil {E} (n m : nat) : outcome E nat :=
  match m with O => Panic | _ => Ok ((n + m - 1) / m)%nat end.

(** Big-endian and little-endian encodings on [n] bytes. *)
Fixpoint to_le_bytes (n : nat) (x : Z) : list Z :=
  match n with O => [] | S n => x mod 256 :: to_le_bytes n (x / 256) end.
Definition to_be_bytes (n : nat) (x : Z) : list Z := reverse (to_le_bytes n x).

Fixpoint le_value (l : list Z) : Z :=
  match l with [] => 0 | b :: l => b + 256 * le_value l end.
Fixpoint be_value (l : list Z) : Z :=
  match l with
  | [] => 0
  | b :: l => Z.shiftl b (8 * Z.of_nat (length l)) + be_value l
  end.

(** [u8::leading_zeros]. *)
Definition leading_zeros_u8 (b : Z) : Z := if b =? 0 then 8 else 7 - Z.log2 b.

(** The lexicographic order of [[u8; n]]. *)
Fixpoint cmp_bytes (a b : list Z) : comparison :=
  match a, b with
  | [], [] => Eq
  | [], _ :: _ => Lt
  | _ :: _, [] => Gt
  | x :: a, y :: b => match x ?= y with Eq => cmp_bytes a b | c => c end
  end.

(** Number of significant bits. *)
Definition bit_size (x : Z) : Z := if x =? 0 then 0 else Z.log2 x + 1.

(** ** Facts *)

Lemma wrap_small w x : 0 ≤ x < 2 ^ w → wrap w x = x.
Proof. apply Z.mod_small. Qed.

Lemma pow256 n : 2 ^ (8 * Z.of_nat n) = 256 ^ Z.of_nat n.
Proof. rewrite Z.pow_mul_r by lia. done. Qed.

Lemma pow2_pos n : 0 ≤ n → 0 < 2 ^ n.
Proof. intros. by apply Z.pow_pos_nonneg. Qed.

Lemma length_to_le_bytes n x : length (to_le_bytes n x) = n.
Proof. revert x. induction n; intros; simpl; auto. Qed.

Lemma to_le_bytes_ok n x : array_ok n (to_le_bytes n x).
Proof.
  split; [apply length_to_le_bytes|]. revert x.
  induction n as [|n IH]; intros x; simpl; constructor; [|apply IH].
  unfold u8_ok. apply Z.mod_pos_bound. lia.
Qed.

Lemma to_be_bytes_ok n x : array_ok n (to_be_bytes n x).
Proof.
  unfold to_be_bytes. destruct (to_le_bytes_ok n x) as [Hl Ho].
  split; [by rewrite length_reverse|]. by apply Forall_reverse.
Qed.

Lemma le_value_to_le n x : 0 ≤ x < 256 ^ Z.of_nat n → le_value (to_le_bytes n x) = x.
Proof.
  revert x. induction n as [|n IH]; intros x Hx.
  - simpl in *. lia.
  - cbn [to_le_bytes le_value]. rewrite Nat2Z.inj_succ, Z.pow_succ_r in Hx by lia.
    rewrite IH.
    + pose proof (Z.div_mod x 256). lia.
    + split; [apply Z.div_pos; lia|]. apply Z.div_lt_upper_bound; lia.
Qed.

Lemma be_value_bound l : bytes_ok l → 0 ≤ be_value l < 2 ^ (8 * Z.of_nat (length l)).
Proof.
  induction 1 as [|b l Hb Hl IH]; [simpl; lia|].
  cbn [be_value length]. unfold u8_ok in Hb. rewrite Z.shiftl_mul_pow2 by lia.
  replace (8 * Z.of_nat (S (length l))) with (8 + 8 * Z.of_nat (length l)) by lia.
  rewrite Z.pow_add_r by lia. change (2 ^ 8) with 256. nia.
Qed.

Lemma be_value_app l k :
  be_value (l ++ k) = be_value l * 2 ^ (8 * Z.of_nat (length k)) + be_value k.
Proof.
  induction l as [|b l IH]; [simpl; lia|]. cbn [be_value app]. rewrite IH.
  rewrite !Z.shiftl_mul_pow2 by lia. rewrite length_app.
  replace (8 * Z.of_nat (length l + length k))
    with (8 * Z.of_nat (length l) + 8 * Z.of_nat (length k)) by lia.
  rewrite Z.pow_add_r by lia. ring.
Qed.

Lemma be_value_reverse l : be_value (reverse l) = le_value l.
Proof.
  induction l as [|b l IH]; [done|]. rewrite reverse_cons, be_value_app, IH.
  cbn [be_value length le_value]. rewrite Z.shiftl_0_r. change (2 ^ (8 * Z.of_nat 1)) with 256. lia.
Qed.

Lemma be_value_to_be n x : 0 ≤ x < 256 ^ Z.of_nat n → be_value (to_be_bytes n x) = x.
Proof. intros. unfold to_be_bytes. rewrite be_value_reverse. by apply le_value_to_le. Qed.

(** The shifted high byte and the tail have no bit in common. *)
Lemma be_value_cons_lxor b l :
  bytes_ok l → be_value (b :: l) = Z.lxor (Z.shiftl b (8 * Z.of_nat (length l))) (be_value l).
Proof.
  intros Hl. cbn [be_value]. apply Z.add_nocarry_lxor.
  pose proof (be_value_bound l Hl) as Hb.
  apply Z.bits_inj'. intros i Hi. rewrite Z.land_spec, Z.bits_0.
  destruct (decide (i < 8 * Z.of_nat (length l))).
  - by rewrite Z.shiftl_spec_low.
  - assert (Z.testbit (be_value l) i = false) as ->; [|by rewrite andb_false_r].
    destruct (decide (be_value l = 0)) as [->|]; [apply Z.bits_0|].
    apply Z.bits_above_log2; [lia|]. apply Z.log2_lt_pow2; [lia|].
    eapply Z.lt_le_trans; [apply Hb|]. apply Z.pow_le_mono_r; lia.
Qed.

Lemma u8_lxor a b : u8_ok a → u8_ok b → u8_ok (Z.lxor a b).
Proof.
  unfold u8_ok. intros Ha Hb. split; [apply Z.lxor_nonneg; lia|].
  destruct (decide (Z.lxor a b = 0)) as [->|]; [lia|].
  change 256 with (2 ^ 8). apply Z.log2_lt_pow2.
  - assert (0 ≤ Z.lxor a b) by (apply Z.lxor_nonneg; lia). lia.
  - eapply Z.le_lt_trans; [apply Z.log2_lxor; lia|].
    assert (∀ x, 0 ≤ x < 256 → Z.log2 x < 8) as Hlog.
    { intros x Hx. destruct (decide (x = 0)) as [->|]; [done|].
      apply Z.log2_lt_pow2; [lia|]. simpl. lia. }
    apply Z.max_lub_lt; apply Hlog; lia.
Qed.

Lemma zip_lxor_ok a b : bytes_ok a → bytes_ok b → bytes_ok (zip_with Z.lxor a b).
Proof.
  intros Ha. revert b. induction Ha as [|x a Hx Ha IH]; intros b Hb; [constructor|].
  destruct Hb as [|y b Hy Hb]; [constructor|]. constructor; [by apply u8_lxor|]. by apply IH.
Qed.

Lemma be_value_lxor a b :
  bytes_ok a → bytes_ok b → length a = length b →
  be_value (zip_with Z.lxor a b) = Z.lxor (be_value a) (be_value b).
Proof.
  intros Ha. revert b. induction Ha as [|x a Hx Ha IH]; intros [|y b] Hb Hl; try done.
  apply Forall_cons in Hb as [Hy Hb]. injection Hl as Hl. cbn [zip_with].
  rewrite !be_value_cons_lxor by (done || by apply zip_lxor_ok). rewrite IH by done.
  rewrite length_zip_with_l_eq by done. rewrite <-Hl.
  rewrite Z.shiftl_lxor. rewrite !Z.lxor_assoc. f_equal.
  rewrite <-!Z.lxor_assoc. f_equal. apply Z.lxor_comm.
Qed.

(** The lexicographic order is the order of the denoted integers. *)
Lemma cmp_bytes_value a b :
  bytes_ok a → bytes_ok b → length a = length b →
  cmp_bytes a b = (be_value a ?= be_value b).
Proof.
  intros Ha. revert b. induction Ha as [|x a Hx Ha IH]; intros [|y b] Hb Hl; try done.
  apply Forall_cons in Hb as [Hy Hb]. injection Hl as Hl.
  cbn [cmp_bytes be_value]. rewrite <-Hl, !Z.shiftl_mul_pow2 by lia.
  pose proof (be_value_bound a Ha) as Ba. pose proof (be_value_bound b Hb) as Bb.
  rewrite <-Hl in Bb. set (p := 2 ^ (8 * Z.of_nat (length a))) in *.
  destruct (Z.compare_spec x y) as [->|Hlt|Hgt].
  - rewrite IH by done. symmetry. apply Zcompare_plus_compat.
  - symmetry. apply Z.compare_lt_iff. nia.
  - symmetry. apply Z.compare_gt_iff. nia.
Qed.

Lemma cmp_bytes_eq a b : cmp_bytes a b = Eq ↔ a = b.
Proof.
  revert b. induction a as [|x a IH]; intros [|y b]; simpl; try done.
  destruct (Z.compare_spec x y) as [->|Hlt|Hgt].
  - rewrite IH. split; [by intros ->|by intros [= ->]].
  - split; [done|]. intros [= -> ->]. lia.
  - split; [done|]. intros [= -> ->]. lia.
Qed.

Lemma cmp_bytes_antisym a b : cmp_bytes a b = CompOpp (cmp_bytes b a).
Proof.
  revert b. induction a as [|x a IH]; intros [|y b]; simpl; try done.
  rewrite (Z.compare_antisym y x). destruct (y ?= x); simpl; auto.
Qed.

Lemma cmp_bytes_trans a b c :
  cmp_bytes a b ≠ Gt → cmp_bytes b c ≠ Gt → cmp_bytes a c ≠ Gt.
Proof.
  revert b c. induction a as [|x a IH]; intros [|y b] [|z c]; simpl; try done.
  destruct (Z.compare_spec x y), (Z.compare_spec y z), (Z.compare_spec x z);
    subst; try done; try lia; eauto.
Qed.

Lemma bit_size_nonneg x : 0 ≤ bit_size x.
Proof. unfold bit_size. case_match; [done|]. pose proof (Z.log2_nonneg x). lia. Qed.

Lemma bit_size_le x n : 0 ≤ n → 0 ≤ x < 2 ^ n → bit_size x ≤ n.
Proof.
  intros Hn Hx. unfold bit_size. destruct (x =? 0) eqn:E; bool_prop; [done|].
  assert (Z.log2 x < n) by (apply Z.log2_lt_pow2; lia). lia.
Qed.

Lemma bit_size_0 x : 0 ≤ x → bit_size x = 0 ↔ x = 0.
Proof.
  intros Hx. unfold bit_size. case_match; bool_prop; [by subst|].
  pose proof (Z.log2_nonneg x). lia.
Qed.

(** [bit_size x ≤ n] in terms of bits, in both directions. *)
Lemma bit_size_le_bits x n :
  0 ≤ x → 0 ≤ n → (∀ i, n ≤ i → Z.testbit x i = false) → bit_size x ≤ n.
Proof.
  intros Hx Hn Hb. unfold bit_size. case_match; bool_prop; [done|].
  destruct (decide (n ≤ Z.log2 x)) as [Hl|]; [|lia].
  specialize (Hb _ Hl). rewrite Z.bit_log2 in Hb by lia. done.
Qed.

Lemma bit_size_above x i : 0 ≤ x → bit_size x ≤ i → Z.testbit x i = false.
Proof.
  intros Hx. unfold bit_size. case_match; bool_prop; [subst; intros; apply Z.bits_0|].
  intros Hi. apply Z.bits_above_log2; lia.
Qed.

Lemma bit_size_top x : 0 < bit_size x → 0 ≤ x → Z.testbit x (bit_size x - 1) = true.
Proof.
  unfold bit_size. case_match; bool_prop; [lia|]. intros _ Hx.
  replace (Z.log2 x + 1 - 1) with (Z.log2 x) by lia. apply Z.bit_log2. lia.
Qed.

Lemma bit_size_gt x i : 0 ≤ x → Z.testbit x i = true → i < bit_size x.
Proof.
  intros Hx Hi. destruct (decide (bit_size x ≤ i)); [|lia].
  rewrite bit_size_above in Hi by done. done.
Qed.

Lemma bit_size_lxor_same x y :
  0 ≤ x → 0 ≤ y → bit_size x = bit_size y → 0 < bit_size x → bit_size (Z.lxor x y) < bit_size x.
Proof.
  intros Hx Hy Hs Hp. enough (bit_size (Z.lxor x y) ≤ bit_size x - 1) by lia.
  apply bit_size_le_bits; [by apply Z.lxor_nonneg|lia|].
  intros i Hi. rewrite Z.lxor_spec.
  destruct (decide (i = bit_size x - 1)) as [->|].
  - rewrite bit_size_top by done. rewrite Hs, bit_size_top by lia. done.
  - by rewrite !bit_size_above by lia.
Qed.

Lemma bit_size_lxor_diff x y :
  0 ≤ x → 0 ≤ y → bit_size x < bit_size y → bit_size (Z.lxor x y) = bit_size y.
Proof.
  intros Hx Hy Hs. pose proof (bit_size_nonneg x). apply Z.le_antisymm.
  - apply bit_size_le_bits; [by apply Z.lxor_nonneg|lia|].
    intros i Hi. rewrite Z.lxor_spec, !bit_size_above by lia. done.
  - enough (bit_size y - 1 < bit_size (Z.lxor x y)) by lia.
    apply bit_size_gt; [by apply Z.lxor_nonneg|].
    rewrite Z.lxor_spec, bit_size_above, bit_size_top by lia. done.
Qed.

Lemma bit_size_lt x y : 0 ≤ x → 0 ≤ y → bit_size x < bit_size y → x < y.
Proof.
  unfold bit_size. intros Hx Hy. repeat case_match; bool_prop; subst; try lia.
  - pose proof (Z.log2_nonneg x). lia.
  - intros Hl. apply Z.log2_lt_cancel. lia.
Qed.

Lemma leading_zeros_u8_bound b : u8_ok b → 0 ≤ leading_zeros_u8 b ≤ 8.
Proof.
  unfold u8_ok, leading_zeros_u8. intros Hb. case_match; [lia|]. bool_prop.
  assert (Z.log2 b < 8) by (apply Z.log2_lt_pow2; simpl; lia).
  pose proof (Z.log2_nonneg b). lia.
Qed.

#[export] Hint Resolve to_le_bytes_ok to_be_bytes_ok u8_lxor zip_lxor_ok : tess.

(** ** Bits of a byte string, most significant first *)
Definition bytes_bit (l : list Z) (j : nat) : bool :=
  Z.testbit (l !!! (j / 8)%nat) (7 - Z.of_nat (j mod 8)).

Lemma u8_bit_size b : u8_ok b → 0 ≤ b ∧ bit_size b ≤ 8.
Proof. unfold u8_ok. intros. split; [lia|]. by apply bit_size_le. Qed.

Lemma u8_ok_bits b : 0 ≤ b → (∀ i, 8 ≤ i → Z.testbit b i = false) → u8_ok b.
Proof.
  intros Hb Hi. pose proof (bit_size_le_bits b 8 Hb ltac:(lia) Hi). split; [done|].
  change 256 with (2 ^ 8). unfold bit_size in *. case_match; bool_prop; [lia|].
  apply Z.log2_lt_pow2; lia.
Qed.

Lemma u8_testbit_high b i : u8_ok b → 8 ≤ i → Z.testbit b i = false.
Proof. intros [? ?]%u8_bit_size Hi. apply bit_size_above; lia. Qed.

Lemma u8_land a b : u8_ok a → u8_ok b → u8_ok (Z.land a b).
Proof.
  intros Ha Hb. apply u8_ok_bits; [apply Z.land_nonneg; left; apply Ha|].
  intros i Hi. by rewrite Z.land_spec, !u8_testbit_high.
Qed.
Lemma u8_lor a b : u8_ok a → u8_ok b → u8_ok (Z.lor a b).
Proof.
  intros Ha Hb. apply u8_ok_bits; [apply Z.lor_nonneg; split; [apply Ha|apply Hb]|].
  intros i Hi. by rewrite Z.lor_spec, !u8_testbit_high.
Qed.
#[export] Hint Resolve u8_land u8_lor : tess.

Lemma be_value_bit l j :
  bytes_ok l → (j < 8 * length l)%nat →
  Z.testbit (be_value l) (8 * Z.of_nat (length l) - 1 - Z.of_nat j) = bytes_bit l j.
Proof.
  intros Hl. revert j. induction Hl as [|b l Hb Hl IH]; intros j Hj; [simpl in Hj; lia|].
  rewrite be_value_cons_lxor, Z.lxor_spec by done. cbn [length] in *.
  pose proof (be_value_bound l Hl) as Hv.
  pose proof (bit_size_le _ (8 * Z.of_nat (length l)) ltac:(lia) Hv) as Hs. unfold bytes_bit.
  destruct (decide (j < 8)%nat) as [Hj8|Hj8].
  - rewrite Z.shiftl_spec, (bit_size_above (be_value l)), xorb_false_r by lia.
    rewrite Nat.div_small, Nat.mod_small by done. simpl. f_equal. lia.
  - rewrite Z.shiftl_spec_low, xorb_false_l by lia.
    destruct j as [|[|[|[|[|[|[|[|j]]]]]]]]; try lia.
    replace (S (S (S (S (S (S (S (S j)))))))) with (j + 1 * 8)%nat by lia.
    rewrite Nat.div_add, Nat.Div0.mod_add by done.
    replace (j / 8 + 1)%nat with (S (j / 8)) by lia.
    change ((b :: l) !!! S (j / 8)%nat) with (l !!! (j / 8)%nat).
    unfold bytes_bit in IH. rewrite <-IH by lia. f_equal. lia.
Qed.
