(* ===== verification/External.v ===== *)
(** * Interfaces of the third-party crates

    What the crate relies on of code outside [src/], each as a class of
    operations with the laws its documentation gives: [sha2], [ed25519-dalek],
    [reed-solomon-erasure], [rmp-serde] and [base64].  The theorems of the other
    files are proved against these classes; [Samples.v] has small concrete
    instances, used to evaluate the model. *)
From S2P Require Import Prelude.
From S2P Require Import Bytes.

(** [sha2]: a total digest of 32 bytes. *)
Class Sha256 := {
  sha256 : list Z → list Z;
  sha256_ok : ∀ m, array_ok 32 (sha256 m);
}.

(** [ed25519-dalek].  A [VerifyingKey] is kept as its 32 compressed bytes;
    [ed_vk_valid] says that [VerifyingKey::from_bytes] accepts them. *)
Class Ed25519 := {
  ed_public : list Z → list Z;
  ed_vk_valid : list Z → bool;
  ed_sign : list Z → list Z → list Z;
  ed_verify : list Z → list Z → list Z → bool;
  ed_public_ok : ∀ sk, array_ok 32 (ed_public sk);
  ed_public_valid : ∀ sk, ed_vk_valid (ed_public sk) = true;
  ed_sign_ok : ∀ sk m, array_ok 64 (ed_sign sk m);
  ed_verify_sign : ∀ sk m, ed_verify (ed_public sk) m (ed_sign sk m) = true;
}.

(** [rmp-serde] at one type: the MessagePack text of a value and its parser.
    [inl] of an encoder or decoder is the text of the error. *)
Class Serde (A : Type) := {
  rmp_to_vec : A → string + list Z;
  rmp_from_slice : list Z → string + A;
}.
(** The documented round trip, on the values satisfying [P]. *)
Class SerdeLaws (A : Type) `{Serde A} (P : A → Prop) :=
  serde_roundtrip : ∀ a b, P a → rmp_to_vec a = inr b → rmp_from_slice b = inr a.

(** [serde_json] at one type. *)
Class Json (A : Type) := {
  json_to_string : A → string + string;
  json_from_str : string → string + A;
}.
Class JsonLaws (A : Type) `{Json A} (P : A → Prop) :=
  json_roundtrip : ∀ a s, P a → json_to_string a = inr s → json_from_str s = inr a.

(** [base64::engine::general_purpose::URL_SAFE_NO_PAD]. *)
Class Base64 := {
  b64_encode : list Z → string;
  b64_decode : string → string + list Z;
  b64_roundtrip : ∀ l, bytes_ok l → b64_decode (b64_encode l) = inr l;
}.

(** [hex::encode]: two digits per byte, one-to-one. *)
Class Hex := {
  hex_encode : list Z → string;
  hex_length l : String.length (hex_encode l) = (2 * length l)%nat;
  hex_inj l l' : bytes_ok l → bytes_ok l' → hex_encode l = hex_encode l' → l = l';
}.

(** [hex::decode]; the digits of [hex::encode] are [0-9a-f]. *)
Definition is_hex_digit (c : Ascii.ascii) : bool :=
  let n := Ascii.nat_of_ascii c in ((48 <=? n) && (n <=? 57) || (97 <=? n) && (n <=? 102))%nat.
Class HexDecode `{Hex} := {
  hex_decode : string → string + list Z;
  hex_decode_encode l : bytes_ok l → hex_decode (hex_encode l) = inr l;
  hex_encode_digits l : bytes_ok l → Forall (λ c, is_hex_digit c = true) (String.list_ascii_of_string (hex_encode l));
}.

(** [reed_solomon_erasure::galois_8::ReedSolomon] for [d] data and [p] parity
    shards: [rs_new] is [ReedSolomon::new] ([Some msg] is its error), [rs_encode]
    fills the parity shards, [rs_reconstruct] the missing ones. *)
Class ReedSolomon := {
  rs_new : Z → Z → option string;
  rs_encode : Z → Z → list (list Z) → string + list (list Z);
  rs_reconstruct : Z → Z → list (option (list Z)) → string + list (option (list Z));
}.

(** What remains of a codeword after the loss of some shards. *)
Definition survives (word : list (list Z)) (shards : list (option (list Z))) : Prop :=
  Forall2 (λ c s, s = None ∨ s = Some c) word shards.
Definition present {A} (shards : list (option A)) : nat := length (omap id shards).

(** The documented behaviour for one configuration: encoding keeps the data shards and
    refuses shards of length zero ([EmptyShard]); any [d] shards of a codeword determine it. *)
Class ReedSolomonLaws `{ReedSolomon} (d p : nat) := {
  rs_new_ok : rs_new (Z.of_nat d) (Z.of_nat p) = None;
  rs_encode_ok n shards :
    length shards = (d + p)%nat → (0 < n)%nat → Forall (λ s, length s = n) shards →
    ∃ word, rs_encode (Z.of_nat d) (Z.of_nat p) shards = inr word ∧ length word = (d + p)%nat ∧
      Forall (λ s, length s = n) word ∧ take d word = take d shards;
  rs_encode_empty shards :
    length shards = (d + p)%nat → Forall (λ s, s = []) shards →
    ∃ msg, rs_encode (Z.of_nat d) (Z.of_nat p) shards = inl msg;
  rs_reconstruct_ok shards word lost :
    rs_encode (Z.of_nat d) (Z.of_nat p) shards = inr word →
    survives word lost → (d ≤ present lost)%nat →
    rs_reconstruct (Z.of_nat d) (Z.of_nat p) lost = inr (Some <$> word);
}.
