(* ===== verification/Identity.v ===== *)
(** * Identity ([src/identity/]): node ids, XOR distance, proof of work, keys

    [NodeId] and [Distance] wrap byte arrays as in the source.  The theorems
    relate the byte-wise operations to the 256-bit integers they denote, show
    that the distance is the XOR metric of Kademlia, and that a proof of work is
    generated (for the least sufficient nonce) and verified consistently. *)
From S2P Require Import Prelude.
From S2P Require Import Bytes.
From S2P Require Import External.

Record NodeId := from_bytes { as_bytes : list Z }.
Record Distance := mkDistance { dist_bytes : list Z }.

#[export] Instance NodeId_eq_dec : EqDecision NodeId.
Proof. solve_decision. Defined.
#[export] Instance Distance_eq_dec : EqDecision Distance.
Proof. solve_decision. Defined.
#[export] Program Instance NodeId_countable : Countable NodeId :=
  inj_countable' as_bytes from_bytes _.
Next Obligation. by intros []. Qed.

(** The type invariant of [NodeId([u8; 32])]. *)
Definition id_ok (n : NodeId) : Prop := array_ok 32 (as_bytes n).
(** The 256-bit integer of an id and of a distance. *)
Definition id_value (n : NodeId) : Z := be_value (as_bytes n).
Definition dist_value (d : Distance) : Z := be_value (dist_bytes d).

(** [NodeId::distance]: [result[i] = self.0[i] ^ other.0[i]] for each index. *)
Definition distance (self other : NodeId) : Distance :=
  mkDistance ((λ i, Z.lxor (as_bytes self !!! i) (as_bytes other !!! i)) <$> seq 0 32).

(** The scanning loop shared by [Distance::leading_zeros] and [leading_zero_bits]:
    the first non-zero byte at index [i] decides. *)
Fixpoint scan_leading_zeros (i : Z) (l : list Z) : option Z :=
  match l with
  | [] => None
  | b :: l => if b =? 0 then scan_leading_zeros (i + 1) l
              else Some (i * 8 + leading_zeros_u8 b)
  end.

Definition leading_zeros (d : Distance) : Z := default 256 (scan_leading_zeros 0 (dist_bytes d)).
Definition is_zero (d : Distance) : bool := forallb (λ b, b =? 0) (dist_bytes d).
Definition dist_cmp (a b : Distance) : comparison := cmp_bytes (dist_bytes a) (dist_bytes b).
(** [a <= b] and [a < b] through [Ord]. *)
Definition dist_leb (a b : Distance) : bool := match dist_cmp a b with Gt => false | _ => true end.
Definition dist_ltb (a b : Distance) : bool := match dist_cmp a b with Lt => true | _ => false end.

Definition common_prefix_length (self other : NodeId) : Z := leading_zeros (distance self other).

(** ** Proof of work *)
Record PowProof := mkPow { nonce : Z; difficulty : Z }.
#[export] Instance PowProof_eq_dec : EqDecision PowProof.
Proof. solve_decision. Defined.

Definition leading_zero_bits (data : list Z) : Z :=
  default (Z.of_nat (length data) * 8) (scan_leading_zeros 0 data).

Section pow.
Context `{Sha256}.

Definition verify_pow_hash (public_key : list Z) (nonce difficulty : Z) : bool :=
  difficulty <=? leading_zero_bits (sha256 (public_key ++ to_le_bytes 8 nonce)).

Definition pow_verify (p : PowProof) (public_key : list Z) : bool :=
  verify_pow_hash public_key (nonce p) (difficulty p).

Definition verify_with_min_difficulty (p : PowProof) (public_key : list Z) (min_difficulty : Z) : bool :=
  (min_difficulty <=? difficulty p) && verify_pow_hash public_key (nonce p) (difficulty p).

(** The search loop from [nonce]; [None] when the fuel does not reach a
    sufficient nonce. *)
Fixpoint pow_search (fuel : nat) (public_key : list Z) (difficulty nonce : Z) : option PowProof :=
  match fuel with
  | O => None
  | S fuel =>
    if verify_pow_hash public_key nonce difficulty then Some (mkPow nonce difficulty)
    else pow_search fuel public_key difficulty (nonce + 1)
  end.
Definition pow_generate (fuel : nat) (public_key : list Z) (difficulty : Z) : option PowProof :=
  pow_search fuel public_key difficulty 0.
End pow.

(** ** Keys *)
Record Keypair := mkKeypair { signing_key : list Z }.

Section keypair.
Context `{Sha256} `{Ed25519}.

Definition from_secret_bytes (bytes : list Z) : Keypair := mkKeypair bytes.
Definition secret_bytes (kp : Keypair) : list Z := signing_key kp.
Definition public_key_bytes (kp : Keypair) : list Z := ed_public (signing_key kp).
Definition derive_node_id (public_key : list Z) : NodeId := from_bytes (sha256 public_key).
Definition verify_node_id (node_id : NodeId) (public_key : list Z) : bool :=
  bool_decide (node_id = derive_node_id public_key).
Definition keypair_node_id (kp : Keypair) : NodeId := derive_node_id (public_key_bytes kp).
Definition key_sign (kp : Keypair) (message : list Z) : list Z := ed_sign (signing_key kp) message.
End keypair.

(** ** Facts on distances *)

Lemma distance_length a b : length (dist_bytes (distance a b)) = 32%nat.
Proof. reflexivity. Qed.

Lemma distance_zip a b :
  id_ok a → id_ok b → dist_bytes (distance a b) = zip_with Z.lxor (as_bytes a) (as_bytes b).
Proof.
  intros [La _] [Lb _]. unfold distance. cbn [dist_bytes].
  apply list_eq. intros i. destruct (decide (i < 32)%nat) as [Hi|Hi].
  - rewrite list_lookup_fmap, lookup_seq_lt by lia. simpl.
    destruct (lookup_lt_is_Some_2 (as_bytes a) i) as [x Hx]; [lia|].
    destruct (lookup_lt_is_Some_2 (as_bytes b) i) as [y Hy]; [lia|].
    rewrite lookup_zip_with, Hx, Hy. simpl.
    by rewrite (list_lookup_total_correct _ _ _ Hx), (list_lookup_total_correct _ _ _ Hy).
  - rewrite !lookup_ge_None_2; [done| |].
    + rewrite length_zip_with. lia.
    + rewrite length_fmap, length_seq. lia.
Qed.

Lemma distance_bytes_ok a b : id_ok a → id_ok b → array_ok 32 (dist_bytes (distance a b)).
Proof.
  intros Ha Hb. split; [done|]. rewrite distance_zip by done.
  destruct Ha, Hb. by apply zip_lxor_ok.
Qed.

Lemma dist_value_distance a b :
  id_ok a → id_ok b → dist_value (distance a b) = Z.lxor (id_value a) (id_value b).
Proof.
  intros Ha Hb. unfold dist_value. rewrite distance_zip by done.
  destruct Ha as [La ?], Hb as [Lb ?]. apply be_value_lxor; [done..|]. by rewrite La, Lb.
Qed.

Lemma id_value_bound a : id_ok a → 0 ≤ id_value a < 2 ^ 256.
Proof. intros [Hl Ho]. unfold id_value. pose proof (be_value_bound _ Ho). by rewrite Hl in *. Qed.

Lemma be_value_inj a b :
  bytes_ok a → bytes_ok b → length a = length b → be_value a = be_value b → a = b.
Proof.
  intros Ha Hb Hl Hv. apply cmp_bytes_eq. rewrite cmp_bytes_value by done.
  rewrite Hv. apply Z.compare_refl.
Qed.

Lemma id_value_inj a b : id_ok a → id_ok b → id_value a = id_value b → a = b.
Proof.
  destruct a as [a], b as [b]. intros [La ?] [Lb ?] Hv. f_equal. apply be_value_inj; [done..| |done]. simpl in *. congruence.
Qed.

Lemma dist_cmp_value a b c d :
  id_ok a → id_ok b → id_ok c → id_ok d →
  dist_cmp (distance a b) (distance c d)
  = (Z.lxor (id_value a) (id_value b) ?= Z.lxor (id_value c) (id_value d)).
Proof.
  intros. unfold dist_cmp. rewrite cmp_bytes_value.
  - fold (dist_value (distance a b)) (dist_value (distance c d)).
    by rewrite !dist_value_distance.
  - by apply distance_bytes_ok.
  - by apply distance_bytes_ok.
  - done.
Qed.

Lemma dist_leb_total a b : dist_leb a b = true ∨ dist_leb b a = true.
Proof.
  unfold dist_leb, dist_cmp. rewrite (cmp_bytes_antisym (dist_bytes b)).
  destruct (cmp_bytes _ _); simpl; auto.
Qed.

Lemma dist_leb_trans a b c : dist_leb a b = true → dist_leb b c = true → dist_leb a c = true.
Proof.
  unfold dist_leb, dist_cmp. pose proof (cmp_bytes_trans (dist_bytes a) (dist_bytes b) (dist_bytes c)).
  destruct (cmp_bytes (dist_bytes a) (dist_bytes b)), (cmp_bytes (dist_bytes b) (dist_bytes c)),
    (cmp_bytes (dist_bytes a) (dist_bytes c)); naive_solver.
Qed.

(** The scan computes the position of the highest set bit. *)
Lemma scan_leading_zeros_value l i :
  bytes_ok l →
  default (8 * (i + Z.of_nat (length l))) (scan_leading_zeros i l)
  = 8 * i + 8 * Z.of_nat (length l) - bit_size (be_value l).
Proof.
  intros Hl. revert i. induction Hl as [|b l Hb Hl IH]; intros i; [unfold bit_size; simpl; lia|].
  cbn [scan_leading_zeros length be_value]. destruct (b =? 0) eqn:E; bool_prop.
  - subst b. rewrite Z.shiftl_0_l, Z.add_0_l. specialize (IH (i + 1)).
    destruct (scan_leading_zeros (i + 1) l); simpl in *; lia.
  - simpl. unfold leading_zeros_u8. rewrite (proj2 (Z.eqb_neq b 0)) by done.
    pose proof (be_value_bound l Hl) as Hv. unfold u8_ok in Hb.
    set (n := 8 * Z.of_nat (length l)) in *.
    assert (0 < 2 ^ n) by (apply pow2_pos; lia).
    rewrite Z.shiftl_mul_pow2 by lia. unfold bit_size.
    rewrite (proj2 (Z.eqb_neq _ 0)) by nia.
    assert (Z.log2 (b * 2 ^ n + be_value l) = Z.log2 b + n) as ->; [|lia].
    pose proof (Z.log2_spec b ltac:(lia)) as [H1 H2].
    apply Z.log2_unique; [pose proof (Z.log2_nonneg b); lia|].
    rewrite Z.pow_succ_r, Z.pow_add_r by (pose proof (Z.log2_nonneg b); lia).
    rewrite Z.pow_succ_r in H2 by apply Z.log2_nonneg. nia.
Qed.

Lemma leading_zeros_value d :
  array_ok 32 (dist_bytes d) → leading_zeros d = 256 - bit_size (dist_value d).
Proof.
  intros [Hl Ho]. unfold leading_zeros. pose proof (scan_leading_zeros_value _ 0 Ho) as Hs.
  rewrite Hl in Hs. exact Hs.
Qed.

Lemma common_prefix_length_value a b :
  id_ok a → id_ok b →
  common_prefix_length a b = 256 - bit_size (Z.lxor (id_value a) (id_value b)).
Proof.
  intros Ha Hb. unfold common_prefix_length.
  rewrite leading_zeros_value by (by apply distance_bytes_ok). by rewrite dist_value_distance.
Qed.

Lemma lxor_bound256 a b : id_ok a → id_ok b → 0 ≤ Z.lxor (id_value a) (id_value b) < 2 ^ 256.
Proof.
  intros Ha Hb. rewrite <-dist_value_distance by done. unfold dist_value.
  destruct (distance_bytes_ok a b Ha Hb) as [Hl Ho].
  pose proof (be_value_bound _ Ho). by rewrite Hl in *.
Qed.

Lemma cpl_range a b : id_ok a → id_ok b → 0 ≤ common_prefix_length a b ≤ 256.
Proof.
  intros Ha Hb. rewrite common_prefix_length_value by done.
  pose proof (bit_size_nonneg (Z.lxor (id_value a) (id_value b))).
  pose proof (bit_size_le _ 256 ltac:(lia) (lxor_bound256 a b Ha Hb)). lia.
Qed.

Lemma cpl_256 a b : id_ok a → id_ok b → common_prefix_length a b = 256 ↔ a = b.
Proof.
  intros Ha Hb. rewrite common_prefix_length_value by done.
  pose proof (lxor_bound256 a b Ha Hb) as Hx.
  pose proof (bit_size_0 (Z.lxor (id_value a) (id_value b)) ltac:(lia)) as Hz.
  rewrite Z.lxor_eq_0_iff in Hz. split; intros Hc.
  - apply id_value_inj; [done..|]. apply Hz. lia.
  - subst. apply Z.sub_move_r. rewrite (proj2 Hz) by done. lia.
Qed.

(** Bit [j] of an id, most significant first. *)
Definition id_bit (n : NodeId) (j : nat) : bool := bytes_bit (as_bytes n) j.

Lemma id_value_bit n j : id_ok n → (j < 256)%nat → Z.testbit (id_value n) (255 - Z.of_nat j) = id_bit n j.
Proof.
  intros [Hl Ho] Hj. unfold id_value, id_bit. rewrite <-be_value_bit; [|done|lia].
  f_equal. rewrite Hl. lia.
Qed.

Lemma lxor_le_add x y : 0 ≤ x → 0 ≤ y → Z.lxor x y ≤ x + y.
Proof.
  intros. pose proof (Z.add_lxor_2land x y). assert (0 ≤ Z.land x y) by (apply Z.land_nonneg; lia). lia.
Qed.

Lemma is_zero_value d : array_ok 32 (dist_bytes d) → is_zero d = true ↔ dist_value d = 0.
Proof.
  intros [_ Ho]. unfold is_zero, dist_value. induction Ho as [|b l Hb Hl IH]; [done|].
  cbn [forallb be_value]. rewrite andb_true_iff, IH, Z.eqb_eq, Z.shiftl_mul_pow2 by lia.
  pose proof (be_value_bound l Hl). unfold u8_ok in Hb.
  assert (0 < 2 ^ (8 * Z.of_nat (length l))) by (apply pow2_pos; lia). nia.
Qed.

Lemma xorb_false_iff_eq x y : x = y → xorb x y = false.
Proof. intros ->. apply xorb_nilpotent. Qed.

(** Bits fix the common prefix length. *)
Lemma cpl_from_bits a b (i : nat) :
  id_ok a → id_ok b → (i < 256)%nat →
  (∀ j, (j < i)%nat → id_bit a j = id_bit b j) → id_bit a i ≠ id_bit b i →
  common_prefix_length a b = Z.of_nat i.
Proof.
  intros Ha Hb Hi Hbelow Hat. rewrite common_prefix_length_value by done.
  pose proof (lxor_bound256 a b Ha Hb) as Hx.
  pose proof (bit_size_le _ 256 ltac:(lia) Hx) as Hs.
  enough (bit_size (Z.lxor (id_value a) (id_value b)) ≤ 256 - Z.of_nat i ∧
    255 - Z.of_nat i < bit_size (Z.lxor (id_value a) (id_value b))) by lia. split.
    + apply bit_size_le_bits; [lia|lia|]. intros t Ht. destruct (decide (256 ≤ t)).
      * apply bit_size_above; lia.
      * rewrite Z.lxor_spec. apply xorb_false_iff_eq.
        specialize (Hbelow (Z.to_nat (255 - t)) ltac:(lia)). rewrite <-!id_value_bit in Hbelow by (done || lia).
        by replace (255 - Z.of_nat (Z.to_nat (255 - t))) with t in Hbelow by lia.
    + apply bit_size_gt; [lia|]. rewrite Z.lxor_spec, !id_value_bit by (done || lia).
      by apply not_false_is_true; intros E%xorb_eq.
Qed.

(** ** Properties *)

(** the byte-wise distance is the XOR metric of the 256-bit ids: it denotes
    [a xor b], is symmetric, zero exactly for equal ids, satisfies the triangle
    inequality, its [Ord] is the order of the integers, and two ids at the same
    distance of a third are equal. *)
Theorem distance_xor_metric a b c :
  id_ok a → id_ok b → id_ok c →
  dist_value (distance a b) = Z.lxor (id_value a) (id_value b) ∧
  distance a b = distance b a ∧
  (is_zero (distance a b) = true ↔ a = b) ∧
  dist_value (distance a c) ≤ dist_value (distance a b) + dist_value (distance b c) ∧
  dist_cmp (distance a b) (distance a c) = (dist_value (distance a b) ?= dist_value (distance a c)) ∧
  (distance a b = distance a c → b = c).
Proof.
  intros Ha Hb Hc. rewrite !dist_value_distance by done. split_and!; [done| | | |by apply dist_cmp_value|].
  - unfold distance. f_equal. apply list_fmap_ext. intros ? i _. apply Z.lxor_comm.
  - rewrite is_zero_value by (by apply distance_bytes_ok). rewrite dist_value_distance, Z.lxor_eq_0_iff by done.
    split; [by apply id_value_inj|by intros ->].
  - pose proof (lxor_bound256 a b Ha Hb). pose proof (lxor_bound256 b c Hb Hc).
    replace (Z.lxor (id_value a) (id_value c))
      with (Z.lxor (Z.lxor (id_value a) (id_value b)) (Z.lxor (id_value b) (id_value c))).
    + apply lxor_le_add; lia.
    + apply Z.bits_inj'. intros i _. rewrite !Z.lxor_spec.
      by destruct (Z.testbit (id_value a) i), (Z.testbit (id_value b) i), (Z.testbit (id_value c) i).
  - intros E. apply (f_equal dist_value) in E. rewrite !dist_value_distance in E by done.
    apply id_value_inj; [done..|]. apply (f_equal (Z.lxor (id_value a))) in E.
    by rewrite <-!Z.lxor_assoc, !Z.lxor_nilpotent, !Z.lxor_0_l in E.
Qed.

(** [common_prefix_length] is the length of the longest common bit prefix: it
    is [i < 256] exactly when the ids agree on the first [i] bits and differ on the
    next one, and 256 exactly when they are equal. *)
Theorem common_prefix_length_spec a b (i : nat) :
  id_ok a → id_ok b → (i < 256)%nat →
  (common_prefix_length a b = Z.of_nat i ↔
   (∀ j, (j < i)%nat → id_bit a j = id_bit b j) ∧ id_bit a i ≠ id_bit b i) ∧
  (common_prefix_length a b = 256 ↔ a = b).
Proof.
  intros Ha Hb Hi. split; [|by apply cpl_256]. split.
  - rewrite common_prefix_length_value by done. pose proof (lxor_bound256 a b Ha Hb).
    intros Hc. split.
    + intros j Hj. rewrite <-!id_value_bit by (done || lia). apply xorb_eq. rewrite <-Z.lxor_spec.
      apply bit_size_above; lia.
    + rewrite <-!id_value_bit by (done || lia). intros E. apply xorb_false_iff_eq in E.
      rewrite <-Z.lxor_spec in E. pose proof (bit_size_top (Z.lxor (id_value a) (id_value b))) as Ht.
      replace (bit_size (Z.lxor (id_value a) (id_value b)) - 1) with (255 - Z.of_nat i) in Ht by lia.
      rewrite Ht in E by lia. done.
  - intros [Hbelow Hat]. by apply cpl_from_bits.
Qed.

Lemma common_prefix_length_spec_witness :
  common_prefix_length (from_bytes (1 :: replicate 31 0)) (from_bytes (3 :: replicate 31 0)) = 6.
Proof.
  apply (common_prefix_length_spec (from_bytes (1 :: replicate 31 0)) (from_bytes (3 :: replicate 31 0)) 6).
  - vm_compute. split; [done|]. repeat constructor; done.
  - vm_compute. split; [done|]. repeat constructor; done.
  - lia.
  - split; [|done]. intros j Hj. do 6 (destruct j as [|j]; [done|]). lia.
Defined.

Lemma distance_xor_metric_witness :
  dist_value (distance (from_bytes (1 :: replicate 31 0)) (from_bytes (3 :: replicate 31 0))) = 2 * 2 ^ 248.
Proof.
  assert (∀ b, u8_ok b → id_ok (from_bytes (b :: replicate 31 0))) as Hok.
  { intros b Hb. split; [done|]. constructor; [done|].
    apply Forall_replicate with (n := 31%nat). by unfold u8_ok. }
  destruct (distance_xor_metric (from_bytes (1 :: replicate 31 0)) (from_bytes (3 :: replicate 31 0))
    (from_bytes (0 :: replicate 31 0))) as [E _]; [apply Hok; unfold u8_ok; lia..|].
  rewrite E. vm_compute. reflexivity.
Defined.

Section pow_properties.
Context `{Sha256}.

Lemma leading_zero_bits_value l :
  bytes_ok l → leading_zero_bits l = 8 * Z.of_nat (length l) - bit_size (be_value l).
Proof.
  intros Hl. unfold leading_zero_bits. pose proof (scan_leading_zeros_value l 0 Hl) as Hs.
  rewrite Z.add_0_l in Hs. replace (Z.of_nat (length l) * 8) with (8 * Z.of_nat (length l)) by lia. lia.
Qed.

Lemma pow_search_spec fuel pk d n p :
  pow_search fuel pk d n = Some p ↔
  difficulty p = d ∧ n ≤ nonce p < n + Z.of_nat fuel ∧ pow_verify p pk = true ∧
  ∀ m, n ≤ m < nonce p → verify_pow_hash pk m d = false.
Proof.
  unfold pow_verify. revert n. induction fuel as [|fuel IH]; intros n.
  { simpl. split; [done|]. intros (_ & ? & _). lia. }
  cbn [pow_search]. destruct (verify_pow_hash pk n d) eqn:Hn.
  - split.
    + intros [= <-]. simpl. split_and!; [done|lia..|done|]. intros m Hm. lia.
    + intros (<- & Hr & Hv & Hm). destruct p as [np dp]. simpl in *.
      destruct (decide (np = n)) as [->|]; [done|]. rewrite (Hm n) in Hn by lia. done.
  - rewrite IH. split; intros (<- & Hr & Hv & Hm); (split_and!; [done| | |done|]); try lia.
    + intros m Hmn. destruct (decide (m = n)) as [->|]; [done|]. apply Hm. lia.
    + destruct (decide (nonce p = n)) as [E|]; [rewrite E in Hv; congruence|lia].
    + intros m Hmn. apply Hm. lia.
Qed.

(** [PowProof::generate] returns the least sufficient nonce: with fuel [f] it
    ends with [p] exactly when [p] is the proof of the requested difficulty with
    the least nonce that verifies and that nonce is below [f] (so it ends as soon
    as some nonce suffices); the proof then passes [verify_with_min_difficulty]
    exactly for the thresholds up to its difficulty. *)
Theorem pow_generate_spec fuel pk d p :
  (pow_generate fuel pk d = Some p ↔
    difficulty p = d ∧ 0 ≤ nonce p < Z.of_nat fuel ∧ pow_verify p pk = true ∧
    ∀ m, 0 ≤ m < nonce p → verify_pow_hash pk m d = false) ∧
  (pow_verify p pk = true ↔ ∀ min, verify_with_min_difficulty p pk min = true ↔ min ≤ difficulty p).
Proof.
  split; [apply pow_search_spec|]. unfold pow_verify, verify_with_min_difficulty. split.
  - intros -> min. by rewrite andb_true_r, Z.leb_le.
  - intros Hm. specialize (proj2 (Hm (difficulty p)) ltac:(lia)). by intros [_ ?]%andb_true_iff.
Qed.

(** a proof is accepted exactly when the digest of [public_key || nonce], read
    as a big-endian integer, is below [2 ^ (256 - difficulty)]. *)
Theorem verify_pow_hash_value pk n d :
  0 ≤ d ≤ 256 →
  verify_pow_hash pk n d = true ↔ be_value (sha256 (pk ++ to_le_bytes 8 n)) < 2 ^ (256 - d).
Proof.
  intros Hd. unfold verify_pow_hash. destruct (sha256_ok (pk ++ to_le_bytes 8 n)) as [Hl Ho].
  rewrite Z.leb_le, leading_zero_bits_value, Hl by done.
  set (v := be_value (sha256 (pk ++ to_le_bytes 8 n))).
  assert (0 ≤ v) by apply (be_value_bound _ Ho). split.
  - intros Hv. unfold bit_size in Hv. case_match; bool_prop.
    + assert (0 < 2 ^ (256 - d)) by (apply pow2_pos; lia). lia.
    + apply Z.log2_lt_cancel. rewrite Z.log2_pow2 by lia. lia.
  - intros Hv. pose proof (bit_size_le v (256 - d)). lia.
Qed.
End pow_properties.
