(* ===== verification/Net.v ===== *)
(** * Addresses: what the crate uses of [std::net]

    [SocketAddr] as an IP address and a port; the [flowinfo] and [scope_id] of an
    IPv6 socket address are always zero here ([SocketAddr::new]). *)
From S2P Require Import Prelude.
From S2P Require Import Bytes.

Inductive IpAddr : Type :=
  | V4 (a b c d : Z)
  | V6 (octets : list Z).
Record SocketAddr := mkAddr { ip : IpAddr; port : Z }.

#[export] Instance IpAddr_eq_dec : EqDecision IpAddr.
Proof. solve_decision. Defined.
#[export] Instance SocketAddr_eq_dec : EqDecision SocketAddr.
Proof. solve_decision. Defined.
#[export] Program Instance IpAddr_countable : Countable IpAddr :=
  inj_countable' (λ x, match x with V4 a b c d => inl (a, b, c, d) | V6 o => inr o end)
    (λ y, match y with inl (a, b, c, d) => V4 a b c d | inr o => V6 o end) _.
Next Obligation. by intros []. Qed.
#[export] Program Instance SocketAddr_countable : Countable SocketAddr :=
  inj_countable' (λ x, (ip x, port x)) (λ y, mkAddr y.1 y.2) _.
Next Obligation. by intros []. Qed.

(** The type invariant: octets are bytes, 16 of them for IPv6, a 16-bit port. *)
Definition ip_ok (x : IpAddr) : Prop :=
  match x with V4 a b c d => bytes_ok [a; b; c; d] | V6 o => array_ok 16 o end.
Definition addr_ok (x : SocketAddr) : Prop := ip_ok (ip x) ∧ 0 ≤ port x ≤ u16_max.
#[export] Instance ip_ok_dec x : Decision (ip_ok x).
Proof. destruct x; apply _. Defined.
#[export] Instance addr_ok_dec x : Decision (addr_ok x).
Proof. unfold addr_ok. apply _. Defined.

Definition is_ipv4 (x : SocketAddr) : bool := match ip x with V4 _ _ _ _ => true | _ => false end.
Definition is_ipv6 (x : SocketAddr) : bool := negb (is_ipv4 x).

Definition v4_is_private (a b : Z) : bool :=
  (a =? 10) || ((a =? 172) && (16 <=? b) && (b <=? 31)) || ((a =? 192) && (b =? 168)).
Definition v6_loopback : list Z := replicate 15 0 ++ [1].
(** [fe80::/10]. *)
Definition v6_is_unicast_link_local (o : list Z) : bool :=
  match o with a :: b :: _ => (a =? 254) && (Z.land b 192 =? 128) | _ => false end.

Definition ip_is_loopback (x : IpAddr) : bool :=
  match x with V4 a _ _ _ => a =? 127 | V6 o => bool_decide (o = v6_loopback) end.
Definition ip_is_unspecified (x : IpAddr) : bool :=
  match x with V4 a b c d => bool_decide ([a; b; c; d] = [0; 0; 0; 0])
             | V6 o => bool_decide (o = replicate 16 0) end.

(** [is_lan_addr] of [src/routing/bucket.rs]. *)
Definition is_lan_addr (addr : SocketAddr) : bool :=
  match ip addr with
  | V4 a b _ _ => v4_is_private a b || (a =? 127) || ((a =? 169) && (b =? 254))
  | V6 o => bool_decide (o = v6_loopback)
  end.
