(* ===== verification/Samples.v ===== *)
(** * Concrete instances, for evaluating the model

    Small stand-ins for the third-party crates that satisfy the laws of
    [External.v], and sample ids and addresses.  The witnesses of the
    theorems evaluate the model with them; no theorem depends on their choice. *)
From S2P Require Import Prelude.
From S2P Require Import Bytes.
From S2P Require Import External.
From S2P Require Import Identity.
From S2P Require Import Net.

(** The first [n] bytes, zero-padded. *)
Definition fit (n : nat) (m : list Z) : list Z := take n (((λ b, b mod 256) <$> m) ++ replicate n 0).

Lemma fit_ok n m : array_ok n (fit n m).
Proof.
  unfold fit. split.
  - rewrite length_take, length_app, length_replicate. lia.
  - apply Forall_take, Forall_app. split.
    + apply Forall_fmap, Forall_forall. intros b _. simpl. unfold u8_ok. apply Z.mod_pos_bound. lia.
    + apply Forall_replicate. unfold u8_ok. lia.
Qed.

#[export] Instance toy_sha : Sha256 := {| sha256 := fit 32; sha256_ok := fit_ok 32 |}.

Definition toy_sign (pk m : list Z) : list Z := fit 64 (pk ++ m).
#[export] Program Instance toy_ed : Ed25519 := {|
  ed_public := fit 32;
  ed_vk_valid pk := bool_decide (length pk = 32%nat);
  ed_sign sk m := toy_sign (fit 32 sk) m;
  ed_verify pk m s := bool_decide (s = toy_sign pk m);
|}.
Next Obligation. apply fit_ok. Qed.
Next Obligation. intros sk. apply bool_decide_eq_true, fit_ok. Qed.
Next Obligation. intros. apply fit_ok. Qed.
Next Obligation. intros. by apply bool_decide_eq_true. Qed.

(** Ids with a given first byte, and sample addresses. *)
Definition sample_id (b : Z) : NodeId := from_bytes (b :: replicate 31 0).
Definition sample_id2 (b c : Z) : NodeId := from_bytes (b :: c :: replicate 30 0).
Definition sample_addr (p : Z) : SocketAddr := mkAddr (V4 203 0 113 7) p.
Definition lan_addr (p : Z) : SocketAddr := mkAddr (V4 192 168 1 7) p.

Lemma sample_id_ok b : u8_ok b → id_ok (sample_id b).
Proof. intros Hb. split; [done|].
  constructor; [done|]. apply Forall_replicate with (n := 31%nat). by unfold u8_ok. Qed.

Lemma verify_pow_hash_value_witness :
  verify_pow_hash (replicate 32 0) 5 8 = true ↔
    be_value (sha256 (replicate 32 0 ++ to_le_bytes 8 5)) < 2 ^ (256 - 8).
Proof. apply (verify_pow_hash_value (replicate 32 0) 5 8). lia. Defined.

(** Lower-case hexadecimal digits. *)
Definition hex_digits : list Ascii.ascii := String.list_ascii_of_string "0123456789abcdef".
Definition hex_digit (n : Z) : Ascii.ascii := nth (Z.to_nat n) hex_digits Ascii.zero.
Fixpoint toy_hex_encode (l : list Z) : string :=
  match l with
  | [] => ""
  | b :: l => String (hex_digit (b / 16)) (String (hex_digit (b mod 16)) (toy_hex_encode l))
  end.

Lemma hex_digit_inj a b : 0 ≤ a < 16 → 0 ≤ b < 16 → hex_digit a = hex_digit b → a = b.
Proof.
  intros Ha Hb E. unfold hex_digit in E. apply (NoDup_nth hex_digits Ascii.zero) in E.
  - lia.
  - apply NoDup_ListNoDup. by decide_compute.
  - simpl. lia.
  - simpl. lia.
Qed.

#[export] Program Instance toy_hex : Hex := {| hex_encode := toy_hex_encode |}.
Next Obligation. induction l as [|b l IH]; simpl; [done|]. rewrite IH. lia. Qed.
Next Obligation.
  intros l. induction l as [|b l IH]; intros [|b' l'] Hl Hl' E; try done. simpl in E. injection E as E1 E2 E3.
  inversion Hl as [|? ? Hb Hl1]; inversion Hl' as [|? ? Hb' Hl1']; subst. unfold u8_ok in *.
  pose proof (Z.div_mod b 16). pose proof (Z.div_mod b' 16).
  pose proof (Z.mod_pos_bound b 16). pose proof (Z.mod_pos_bound b' 16).
  apply hex_digit_inj in E1; [|lia..]. apply hex_digit_inj in E2; [|lia..].
  f_equal; [|by apply IH]. lia.
Qed.

(** Two digits at a time. *)
Definition digit_value (c : Ascii.ascii) : option Z :=
  (λ x, Z.of_nat x.1) <$> list_find (c =.) hex_digits.
Fixpoint toy_hex_decode (s : string) : string + list Z :=
  match s with
  | "" => inr []
  | String a (String b s) =>
    match digit_value a, digit_value b, toy_hex_decode s with
    | Some x, Some y, inr l => inr ((16 * x + y) :: l)
    | _, _, _ => inl "invalid digit"
    end
  | _ => inl "odd number of digits"
  end%string.
Lemma sixteen (P : Z → Prop) a : Forall P (Z.of_nat <$> seq 0 16) → 0 ≤ a < 16 → P a.
Proof.
  intros Hall Ha. rewrite Forall_forall in Hall. apply Hall. rewrite <-(Z2Nat.id a) by lia.
  apply list_elem_of_fmap_2, elem_of_seq. lia.
Qed.
Lemma digit_value_digit a : 0 ≤ a < 16 → digit_value (hex_digit a) = Some a.
Proof. apply (sixteen (λ a, digit_value (hex_digit a) = Some a)). repeat constructor. Qed.
Lemma hex_digit_digit a : 0 ≤ a < 16 → is_hex_digit (hex_digit a) = true.
Proof. apply (sixteen (λ a, is_hex_digit (hex_digit a) = true)). repeat constructor. Qed.

Lemma nibbles b : u8_ok b → 0 ≤ b / 16 < 16 ∧ 0 ≤ b mod 16 < 16 ∧ 16 * (b / 16) + b mod 16 = b.
Proof. unfold u8_ok. intros Hb. pose proof (Z.div_mod b 16). pose proof (Z.mod_pos_bound b 16). lia. Qed.
#[export] Program Instance toy_hex_decoder : HexDecode := {| hex_decode := toy_hex_decode |}.
Next Obligation.
  induction 1 as [|b l Hb _ IH]; [done|]. destruct (nibbles b Hb) as (H1 & H2 & E). cbn [hex_encode toy_hex toy_hex_encode toy_hex_decode].
  rewrite (digit_value_digit (b / 16)), (digit_value_digit (b mod 16)) by done. cbn in IH. by rewrite IH, E.
Qed.
Next Obligation.
  induction 1 as [|b l Hb _ IH]; [constructor|]. destruct (nibbles b Hb) as (H1 & H2 & _). cbn in *. repeat constructor; by try apply hex_digit_digit.
Qed.

(** Codecs for any countable type: the bits of its code. *)
Fixpoint bits_to_string (p : positive) : string :=
  match p with xH => "" | xO p => String Ascii.zero (bits_to_string p) | xI p => String Ascii.one (bits_to_string p) end.
Fixpoint bits_of_string (s : string) : positive :=
  match s with
  | "" => xH
  | String c s => if bool_decide (c = Ascii.one) then xI (bits_of_string s) else xO (bits_of_string s)
  end%string.
Lemma bits_roundtrip p : bits_of_string (bits_to_string p) = p.
Proof. induction p as [p IH|p IH|]; simpl; by rewrite ?IH. Qed.

Section toy_codecs.
Context (A : Type) `{Countable A}.

Definition toy_decode (p : positive) : string + A :=
  match decode p with Some a => inr a | None => inl "invalid input" end.
Definition toy_json : Json A := {|
  json_to_string a := inr (bits_to_string (encode a));
  json_from_str s := toy_decode (bits_of_string s) |}.
Definition toy_serde : Serde A := {|
  rmp_to_vec a := inr ((λ c, Z.of_N (Ascii.N_of_ascii c)) <$> String.list_ascii_of_string (bits_to_string (encode a)));
  rmp_from_slice l := toy_decode (bits_of_string (String.string_of_list_ascii ((λ b, Ascii.ascii_of_N (Z.to_N b)) <$> l))) |}.

Lemma toy_json_laws P : @JsonLaws A toy_json P.
Proof. intros a s _ [= <-]. simpl. unfold toy_decode. by rewrite bits_roundtrip, decode_encode. Qed.

Lemma toy_serde_laws P : @SerdeLaws A toy_serde P.
Proof.
  intros a b _ [= <-]. simpl. unfold toy_decode.
  assert (((λ b, Ascii.ascii_of_N (Z.to_N b)) <$> ((λ c, Z.of_N (Ascii.N_of_ascii c)) <$>
    String.list_ascii_of_string (bits_to_string (encode a)))) = String.list_ascii_of_string (bits_to_string (encode a))) as ->.
  { induction (String.list_ascii_of_string _) as [|c l IH]; [done|]. cbn. rewrite N2Z.id, Ascii.ascii_N_embedding.
    by f_equal. }
  by rewrite String.string_of_list_ascii_of_string, bits_roundtrip, decode_encode.
Qed.
End toy_codecs.
