(* ===== verification/Bucket.v ===== *)
(** * K-buckets ([src/routing/bucket.rs])

    [NodeInfo], [KBucket] and its operations.  [Instant::now()] is the argument
    [now]; the several readings of one call are one instant.  [bucket_wf] is the
    invariant of a bucket; every operation keeps it, [evict_and_insert] under the
    precondition that the new node is not already in the bucket, which the code
    does not check ([evict_and_insert_duplicates] shows how that can fail). *)
From S2P Require Import Prelude.
From S2P Require Import Errors.
From S2P Require Import Bytes.
From S2P Require Import External.
From S2P Require Import Identity.
From S2P Require Import Net.
From S2P Require Import Samples.

Definition MAX_PEER_ADDRS : nat := 8.

Record NodeInfo := mkNodeInfo {
  ni_node_id : NodeId;
  ni_public_key : list Z;
  ni_addresses : list SocketAddr;
  ni_last_seen : Z;
  ni_fail_count : Z;
}.
#[export] Instance NodeInfo_eq_dec : EqDecision NodeInfo.
Proof. solve_decision. Defined.

Record NodeInfoSerde := mkNodeInfoSerde {
  ns_node_id : list Z;
  ns_public_key : list Z;
  ns_addresses : list SocketAddr;
}.
#[export] Instance NodeInfoSerde_eq_dec : EqDecision NodeInfoSerde.
Proof. solve_decision. Defined.

Definition NodeInfo_new (now : Z) (node_id : NodeId) (public_key : list Z)
    (addresses : list SocketAddr) : NodeInfo :=
  mkNodeInfo node_id public_key addresses now 0.

Definition mark_seen (now : Z) (n : NodeInfo) : NodeInfo :=
  mkNodeInfo (ni_node_id n) (ni_public_key n) (ni_addresses n) now 0.

(** [fail_count.saturating_add(1)] on a [u8]. *)
Definition node_record_failure (n : NodeInfo) : NodeInfo :=
  mkNodeInfo (ni_node_id n) (ni_public_key n) (ni_addresses n) (ni_last_seen n)
    (Z.min 255 (ni_fail_count n + 1)).

Record KBucket := mkBucket {
  b_k : nat;
  b_nodes : list NodeInfo;
  b_replacement_cache : list NodeInfo;
  b_max_cache_size : nat;
  b_last_updated : Z;
}.

Inductive InsertResult : Type :=
  | Inserted
  | BucketFull (lrs_node_id : NodeId)
  | Updated.
#[export] Instance InsertResult_eq_dec : EqDecision InsertResult.
Proof. solve_decision. Defined.

Definition KBucket_new (now : Z) (k : nat) : KBucket := mkBucket k [] [] k now.
Definition bucket_len (b : KBucket) : nat := length (b_nodes b).
Definition bucket_is_empty (b : KBucket) : bool := bool_decide (b_nodes b = []).
Definition is_full (b : KBucket) : bool := (b_k b <=? length (b_nodes b))%nat.

Definition has_id (i : NodeId) (n : NodeInfo) : bool := bool_decide (ni_node_id n = i).
Definition retain_not (i : NodeId) (l : list NodeInfo) : list NodeInfo :=
  filter (λ n, ni_node_id n ≠ i) l.

(** The address merge of [insert]: push the new ones, LAN addresses first
    ([sort_by_key] on [!is_lan_addr], stable), at most [MAX_PEER_ADDRS]. *)
Definition push_new (acc : list SocketAddr) (addr : SocketAddr) : list SocketAddr :=
  if bool_decide (addr ∈ acc) then acc else acc ++ [addr].
Definition lan_first (a b : SocketAddr) : bool := implb (is_lan_addr b) (is_lan_addr a).
Definition merge_addresses (old new : list SocketAddr) : list SocketAddr :=
  take MAX_PEER_ADDRS (sort_by lan_first (foldl push_new old new)).

Definition merge_node (now : Z) (node existing : NodeInfo) : NodeInfo :=
  let seen := mark_seen now existing in
  mkNodeInfo (ni_node_id seen) (ni_public_key seen)
    (merge_addresses (ni_addresses seen) (ni_addresses node)) (ni_last_seen seen) (ni_fail_count seen).

(** The [while] loop of [add_to_cache]: drop the oldest until the size fits. *)
Fixpoint trim_front (max : nat) (l : list NodeInfo) : list NodeInfo :=
  match l with
  | [] => []
  | n :: l' => if (max <? length l)%nat then trim_front max l' else l
  end.

Definition add_to_cache (node : NodeInfo) (b : KBucket) : KBucket :=
  mkBucket (b_k b) (b_nodes b)
    (trim_front (b_max_cache_size b) (retain_not (ni_node_id node) (b_replacement_cache b) ++ [node]))
    (b_max_cache_size b) (b_last_updated b).

Definition bucket_insert (now : Z) (node : NodeInfo) (b : KBucket) : res (KBucket * InsertResult) :=
  match update_first (has_id (ni_node_id node)) (merge_node now node) (b_nodes b) with
  | Some nodes => Ok (mkBucket (b_k b) nodes (b_replacement_cache b) (b_max_cache_size b) now, Updated)
  | None =>
    if negb (is_full b) then
      Ok (mkBucket (b_k b) (b_nodes b ++ [node]) (b_replacement_cache b) (b_max_cache_size b) now,
          Inserted)
    else
      match b_nodes b with
      | [] => Panic (* self.nodes[0] *)
      | lrs :: _ => Ok (add_to_cache node b, BucketFull (ni_node_id lrs))
      end
  end.

Definition bucket_evict_and_insert (now : Z) (failed_id : NodeId) (new_node : NodeInfo) (b : KBucket)
    : KBucket * bool :=
  match position (has_id failed_id) (b_nodes b) with
  | Some pos =>
    (mkBucket (b_k b) (vec_remove pos (b_nodes b) ++ [new_node])
       (retain_not (ni_node_id new_node) (b_replacement_cache b)) (b_max_cache_size b) now, true)
  | None => (b, false)
  end.

Definition bucket_remove (node_id : NodeId) (b : KBucket) : KBucket * bool :=
  match position (has_id node_id) (b_nodes b) with
  | Some pos =>
    let nodes := vec_remove pos (b_nodes b) in
    match vec_pop (b_replacement_cache b) with
    | Some (replacement, cache) =>
      (mkBucket (b_k b) (nodes ++ [replacement]) cache (b_max_cache_size b) (b_last_updated b), true)
    | None => (mkBucket (b_k b) nodes (b_replacement_cache b) (b_max_cache_size b) (b_last_updated b), true)
    end
  | None => (b, false)
  end.

Definition set_nodes (b : KBucket) (nodes : list NodeInfo) : KBucket :=
  mkBucket (b_k b) nodes (b_replacement_cache b) (b_max_cache_size b) (b_last_updated b).

Definition bucket_record_failure (node_id : NodeId) (max_failures : Z) (b : KBucket) : KBucket :=
  match list_find (λ n, has_id node_id n = true) (b_nodes b) with
  | Some (_, node) =>
    let b' := set_nodes b (default (b_nodes b)
                (update_first (has_id node_id) node_record_failure (b_nodes b))) in
    if max_failures <=? ni_fail_count (node_record_failure node) then (bucket_remove node_id b').1
    else b'
  | None => b
  end.

(** The part of [RoutingTable::mark_seen] that runs on the bucket. *)
Definition bucket_mark_seen (now : Z) (node_id : NodeId) (b : KBucket) : KBucket :=
  set_nodes b (default (b_nodes b) (update_first (has_id node_id) (mark_seen now) (b_nodes b))).

(** ** The invariant *)
Definition ids (l : list NodeInfo) : list NodeId := ni_node_id <$> l.

Record bucket_wf (b : KBucket) : Prop := {
  wf_k_pos : (0 < b_k b)%nat;
  wf_max_cache : b_max_cache_size b = b_k b;
  wf_capacity : (length (b_nodes b) ≤ b_k b)%nat;
  wf_cache_capacity : (length (b_replacement_cache b) ≤ b_k b)%nat;
  wf_unique : NoDup (ids (b_nodes b) ++ ids (b_replacement_cache b));
  wf_cache_full : b_replacement_cache b ≠ [] → length (b_nodes b) = b_k b;
}.

#[export] Instance bucket_wf_dec b : Decision (bucket_wf b).
Proof.
  refine (cast_if (decide ((0 < b_k b)%nat ∧ b_max_cache_size b = b_k b ∧
    (length (b_nodes b) ≤ b_k b)%nat ∧ (length (b_replacement_cache b) ≤ b_k b)%nat ∧
    NoDup (ids (b_nodes b) ++ ids (b_replacement_cache b)) ∧
    (b_replacement_cache b ≠ [] → length (b_nodes b) = b_k b)))).
  - abstract (destruct_and!; by constructor).
  - abstract (intros []; tauto).
Defined.

(** All the ids a bucket holds, cached ones included. *)
Definition bucket_ids (b : KBucket) : list NodeId := ids (b_nodes b) ++ ids (b_replacement_cache b).

(** ** Shared lemmas *)
Lemma has_id_true i n : has_id i n = true ↔ ni_node_id n = i.
Proof. unfold has_id. by rewrite bool_decide_eq_true. Qed.

Lemma ids_has_id_false i l : Forall (λ n, has_id i n = false) l ↔ i ∉ ids l.
Proof.
  unfold ids, has_id. rewrite list_elem_of_fmap, Forall_forall. split.
  - intros Hl (n & -> & Hn). specialize (Hl n Hn). by bool_prop.
  - intros Hi n Hn. apply bool_decide_eq_false. intros <-. eauto.
Qed.

Lemma ids_update_first p f l l' :
  (∀ n, ni_node_id (f n) = ni_node_id n) → update_first p f l = Some l' → ids l' = ids l.
Proof.
  intros Hf (l1 & x & l2 & -> & _ & _ & ->)%update_first_Some.
  unfold ids. by rewrite !fmap_app, !fmap_cons, Hf.
Qed.

Lemma ids_default_update_first p f l :
  (∀ n, ni_node_id (f n) = ni_node_id n) → ids (default l (update_first p f l)) = ids l.
Proof.
  intros Hf. destruct (update_first p f l) eqn:E; simpl; [|done]. by eapply ids_update_first.
Qed.

Lemma ids_app l k : ids (l ++ k) = ids l ++ ids k.
Proof. apply fmap_app. Qed.

Lemma length_ids l : length (ids l) = length l.
Proof. apply length_fmap. Qed.

Lemma position_has_id i l pos :
  position (has_id i) l = Some pos → ∃ n, ni_node_id n = i ∧ l ≡ₚ n :: vec_remove pos l.
Proof.
  intros (n & Hn & Hi & _)%position_Some. exists n. split; [by apply has_id_true|].
  by apply delete_perm.
Qed.

Lemma position_has_id_None i l : position (has_id i) l = None ↔ i ∉ ids l.
Proof. by rewrite position_None, ids_has_id_false. Qed.

Lemma ids_perm l k : l ≡ₚ k → ids l ≡ₚ ids k.
Proof. intros H. unfold ids. by rewrite H. Qed.

Lemma elem_of_ids_retain_not i j l : j ∈ ids (retain_not i l) ↔ j ∈ ids l ∧ j ≠ i.
Proof.
  unfold ids, retain_not. rewrite !list_elem_of_fmap. setoid_rewrite list_elem_of_filter.
  split.
  - intros (n & -> & ? & ?). eauto.
  - intros ((n & -> & ?) & ?). eauto.
Qed.

Lemma NoDup_ids_retain_not i l : NoDup (ids l) → NoDup (ids (retain_not i l)).
Proof.
  unfold retain_not, ids. induction l as [|n l IH]; [done|]. rewrite fmap_cons, NoDup_cons.
  intros [Hn Hl]. rewrite filter_cons. case_decide; [|auto].
  rewrite fmap_cons, NoDup_cons. split; [|auto].
  intros Hin. apply Hn. by apply (elem_of_ids_retain_not i (ni_node_id n) l) in Hin as [].
Qed.

Lemma trim_front_suffix max l : ∃ k, l = k ++ trim_front max l.
Proof.
  induction l as [|n l [k IH]]; [by exists []|]. cbn [trim_front]. case_match; [|by exists []].
  exists (n :: k). simpl. by f_equal.
Qed.

Lemma trim_front_length max l : (length (trim_front max l) ≤ max)%nat.
Proof.
  induction l as [|n l IH]; [simpl; lia|]. cbn [trim_front]. case_match; [done|].
  apply Nat.ltb_ge in H. done.
Qed.

Lemma trim_front_id max l : (length l ≤ max)%nat → trim_front max l = l.
Proof. intros Hl. destruct l; [done|]. cbn [trim_front]. by rewrite (proj2 (Nat.ltb_ge _ _) Hl). Qed.

(** The newest entry survives the trimming. *)
Lemma trim_front_last max l n :
  (0 < max)%nat → ∃ k, trim_front max (l ++ [n]) = k ++ [n] ∧ ∃ k', l = k' ++ k.
Proof.
  intros Hm. induction l as [|m l (k & IH & k' & ->)].
  - exists []. rewrite trim_front_id by (simpl; lia). split; [done|by exists []].
  - rewrite <-app_comm_cons. cbn [trim_front]. case_match.
    + exists k. split; [exact IH|by exists (m :: k')].
    + exists (m :: k' ++ k). split; [done|by exists []].
Qed.

#[export] Hint Rewrite length_ids : tess_rw.

Lemma bucket_full_length b : bucket_wf b → is_full b = true → length (b_nodes b) = b_k b.
Proof.
  intros Hw Hf. apply Nat.leb_le in Hf. pose proof (wf_capacity _ Hw). lia.
Qed.

(** An id found in neither part is the only way to reach the second half of [insert]. *)
Lemma bucket_not_full_cache b : bucket_wf b → is_full b = false → b_replacement_cache b = [].
Proof.
  intros Hw Hf. destruct (decide (b_replacement_cache b = [])) as [|Hc]; [done|].
  apply (wf_cache_full _ Hw) in Hc. apply Nat.leb_gt in Hf. lia.
Qed.

Lemma KBucket_new_wf now k : (0 < k)%nat → bucket_wf (KBucket_new now k).
Proof. intros Hk. constructor; simpl; try done; try lia. constructor. Qed.

Lemma set_nodes_wf b l : ids l = ids (b_nodes b) → bucket_wf b → bucket_wf (set_nodes b l).
Proof.
  intros Hl Hw. assert (length l = length (b_nodes b)) as Hlen by (by rewrite <-!length_ids, Hl).
  destruct Hw. constructor; simpl; rewrite ?Hl, ?Hlen; done.
Qed.

Lemma add_to_cache_wf node b :
  bucket_wf b → length (b_nodes b) = b_k b → ni_node_id node ∉ ids (b_nodes b) →
  bucket_wf (add_to_cache node b).
Proof.
  intros Hw Hfull Hnew. pose proof (wf_unique _ Hw) as Hu.
  apply NoDup_app in Hu as (Hn & Hdisj & Hc).
  set (l := retain_not (ni_node_id node) (b_replacement_cache b) ++ [node]).
  destruct (trim_front_suffix (b_max_cache_size b) l) as [pre Hpre].
  assert (NoDup (ids (b_nodes b) ++ ids l)) as Hl.
  { unfold l, ids. rewrite fmap_app. fold (ids (retain_not (ni_node_id node) (b_replacement_cache b))).
    apply NoDup_app. split; [done|]. split.
    - intros i Hi. rewrite elem_of_app. simpl. rewrite list_elem_of_singleton.
      intros [Hr%elem_of_ids_retain_not| ->]; [|done]. destruct Hr. by eapply Hdisj.
    - apply NoDup_app. split; [by apply NoDup_ids_retain_not|]. split; [|apply NoDup_singleton].
      intros i Hi Hi'. simpl in Hi'. apply list_elem_of_singleton in Hi' as ->.
      by apply elem_of_ids_retain_not in Hi as [_ []]. }
  constructor; simpl; [apply (wf_k_pos _ Hw)|apply (wf_max_cache _ Hw)|lia| | |done].
  - rewrite <-(wf_max_cache _ Hw). apply trim_front_length.
  - fold l. rewrite Hpre in Hl. unfold ids in Hl. rewrite fmap_app in Hl.
    fold (ids (b_nodes b)) (ids pre) (ids (trim_front (b_max_cache_size b) l)) in Hl.
    apply NoDup_app in Hl as (? & Hd & Hl). apply NoDup_app in Hl as (_ & _ & ?).
    apply NoDup_app. split; [done|]. split; [|done]. intros i Hi Hi'. apply (Hd i Hi), elem_of_app. by right.
Qed.

Lemma bucket_insert_wf now node b b' r :
  bucket_wf b → bucket_insert now node b = Ok (b', r) → bucket_wf b'.
Proof.
  intros Hw. unfold bucket_insert. destruct (update_first _ _ _) as [l|] eqn:Hup.
  - intros [= <- <-]. apply ids_update_first in Hup as Hl; [|done].
    destruct (set_nodes_wf b l Hl Hw). by constructor.
  - apply update_first_None, ids_has_id_false in Hup. destruct (is_full b) eqn:Hf; simpl.
    + destruct (b_nodes b) as [|lrs l] eqn:Hn; [done|]. intros [= <- <-]. rewrite <-Hn in Hup.
      apply add_to_cache_wf; [done|by apply bucket_full_length|done].
    + intros [= <- <-]. pose proof (bucket_not_full_cache _ Hw Hf) as Hc.
      apply Nat.leb_gt in Hf. destruct Hw. rewrite Hc, app_nil_r in *.
      constructor; simpl; [done|done|rewrite length_app; simpl; lia|lia| |done].
      rewrite app_nil_r. unfold ids. rewrite fmap_app. apply NoDup_app.
      split; [done|]. split; [|apply NoDup_singleton].
      intros i Hi Hi'. apply list_elem_of_singleton in Hi' as ->. done.
Qed.

Lemma bucket_remove_wf i b : bucket_wf b → bucket_wf (bucket_remove i b).1.
Proof.
  intros Hw. unfold bucket_remove. destruct (position _ _) as [pos|] eqn:Hp; [|done].
  apply position_has_id in Hp as (n & <- & Hperm).
  pose proof (Permutation_length Hperm) as Hlen. simpl in Hlen.
  apply ids_perm in Hperm. pose proof (wf_unique _ Hw) as Hu. rewrite Hperm in Hu.
  destruct Hw. destruct (vec_pop _) as [[r c]|] eqn:Hpop.
  - apply vec_pop_Some in Hpop. rewrite Hpop in *. 
    assert (c ++ [r] ≠ []) as Hne by (by destruct c). specialize (wf_cache_full0 Hne).
    rewrite length_app in *. simpl in *.
    constructor; simpl; [done|done|rewrite length_app; simpl; lia|lia| |rewrite length_app; simpl; lia].
    unfold ids in *. rewrite !fmap_app in *. simpl in *. apply NoDup_cons in Hu as [_ Hu].
    by rewrite <-app_assoc, (Permutation_app_comm [_] (ni_node_id <$> c)).
  - apply vec_pop_None in Hpop. rewrite Hpop in *.
    constructor; simpl; [done|done|lia|lia| |done].
    simpl in Hu. by apply NoDup_cons in Hu as [_ Hu].
Qed.

Lemma bucket_mark_seen_wf now i b : bucket_wf b → bucket_wf (bucket_mark_seen now i b).
Proof. apply set_nodes_wf. by apply ids_default_update_first. Qed.

Lemma bucket_record_failure_wf i m b : bucket_wf b → bucket_wf (bucket_record_failure i m b).
Proof.
  intros Hw. unfold bucket_record_failure. destruct (list_find _ _) as [[? n]|]; [|done].
  assert (bucket_wf (set_nodes b (default (b_nodes b)
    (update_first (has_id i) node_record_failure (b_nodes b))))) as Hw'.
  { apply set_nodes_wf; [|done]. by apply ids_default_update_first. }
  case_match; [by apply bucket_remove_wf|done].
Qed.

Lemma bucket_evict_wf now i n b :
  bucket_wf b → ni_node_id n ∉ ids (b_nodes b) → bucket_wf (bucket_evict_and_insert now i n b).1.
Proof.
  intros Hw Hnew. unfold bucket_evict_and_insert. destruct (position _ _) as [pos|] eqn:Hp; [|done].
  apply position_has_id in Hp as (m & <- & Hperm). pose proof (Permutation_length Hperm) as Hlen.
  apply ids_perm in Hperm. pose proof (wf_unique _ Hw) as Hu. rewrite Hperm in Hu, Hnew.
  simpl in Hlen, Hnew, Hu. apply NoDup_cons in Hu as [_ Hu].
  apply NoDup_app in Hu as (Hu1 & Hd & Hu2). destruct Hw.
  assert (length (retain_not (ni_node_id n) (b_replacement_cache b)) ≤ length (b_replacement_cache b))%nat
    by apply length_filter.
  constructor; simpl; [done|done|rewrite length_app; simpl; lia|lia| |].
  - unfold ids. rewrite fmap_app. apply NoDup_app. split; [|split].
    + apply NoDup_app. split; [done|]. split; [|apply NoDup_singleton].
      intros j Hj Hj'. apply list_elem_of_singleton in Hj' as ->. apply Hnew. by right.
    + intros j Hj Hj'. apply elem_of_ids_retain_not in Hj' as [Hj' Hne].
      apply elem_of_app in Hj as [Hj|Hj%list_elem_of_singleton]; [by eapply Hd|done].
    + by apply NoDup_ids_retain_not.
  - rewrite length_app. simpl. intros Hr. rewrite <-wf_cache_full0; [lia|].
    by intros Hc; rewrite Hc in Hr.
Qed.

(** ** The ids an operation can leave in the bucket *)
Lemma retain_not_ids i l : ids (retain_not i l) ⊆ ids l.
Proof. intros j Hj. by apply elem_of_ids_retain_not in Hj as []. Qed.

Lemma bucket_remove_ids i b : bucket_ids (bucket_remove i b).1 ⊆ bucket_ids b.
Proof.
  unfold bucket_remove, bucket_ids. destruct (position _ _) as [pos|] eqn:Hp; [|done].
  apply position_has_id in Hp as (n & <- & Hperm%ids_perm).
  intros j. rewrite Hperm. destruct (vec_pop _) as [[r c]|] eqn:Hpop.
  - apply vec_pop_Some in Hpop as ->. simpl. rewrite !ids_app. simpl.
    rewrite elem_of_cons, !elem_of_app, list_elem_of_singleton. tauto.
  - simpl. rewrite elem_of_cons, !elem_of_app. tauto.
Qed.

Lemma bucket_record_failure_ids i m b : bucket_ids (bucket_record_failure i m b) ⊆ bucket_ids b.
Proof.
  unfold bucket_record_failure. destruct (list_find _ _) as [[? n]|]; [|done].
  set (b' := set_nodes b _).
  assert (bucket_ids b' = bucket_ids b) as <-.
  { unfold bucket_ids, b'. simpl. by rewrite ids_default_update_first. }
  case_match; [apply bucket_remove_ids|done].
Qed.

Lemma bucket_mark_seen_ids now i b : bucket_ids (bucket_mark_seen now i b) = bucket_ids b.
Proof. unfold bucket_ids. simpl. by rewrite ids_default_update_first. Qed.

Lemma bucket_insert_ids now node b b' r :
  bucket_insert now node b = Ok (b', r) → bucket_ids b' ⊆ ni_node_id node :: bucket_ids b.
Proof.
  unfold bucket_insert, bucket_ids. destruct (update_first _ _ _) as [l|] eqn:Hup.
  - intros [= <- <-]. apply ids_update_first in Hup; [|done]. simpl. rewrite Hup.
    intros j Hj. by right.
  - destruct (is_full b); simpl.
    + destruct (b_nodes b) as [|lrs l] eqn:Hn; [done|]. intros [= <- <-]. simpl.
      intros j. rewrite !elem_of_cons, !elem_of_app. rewrite Hn. simpl. rewrite elem_of_cons.
      destruct (trim_front_suffix (b_max_cache_size b)
        (retain_not (ni_node_id node) (b_replacement_cache b) ++ [node])) as [pre Hpre].
      intros [[?|?]|Hj]; [tauto..|].
      assert (j ∈ ids (retain_not (ni_node_id node) (b_replacement_cache b) ++ [node])) as Hj'.
      { rewrite Hpre, ids_app. apply elem_of_app. by right. }
      rewrite ids_app in Hj'. apply elem_of_app in Hj' as [Hj'|Hj'].
      * apply retain_not_ids in Hj'. tauto.
      * apply list_elem_of_singleton in Hj'. tauto.
    + intros [= <- <-]. simpl. rewrite ids_app. intros j. simpl.
      rewrite elem_of_cons, !elem_of_app, list_elem_of_singleton. tauto.
Qed.

Lemma bucket_evict_ids now i n b :
  bucket_ids (bucket_evict_and_insert now i n b).1 ⊆ ni_node_id n :: bucket_ids b.
Proof.
  unfold bucket_evict_and_insert, bucket_ids. destruct (position _ _) as [pos|] eqn:Hp.
  - apply position_has_id in Hp as (m & <- & Hperm%ids_perm). intros j. rewrite Hperm. simpl.
    rewrite ids_app. simpl.
    rewrite !elem_of_app, list_elem_of_singleton, !elem_of_cons, elem_of_app.
    intros [[?|?]|?%retain_not_ids]; tauto.
  - simpl. intros j Hj. by right.
Qed.

(** The result of [insert] never panics on a bucket of positive capacity. *)
Lemma bucket_insert_total now node b :
  bucket_wf b → ∃ b' r, bucket_insert now node b = Ok (b', r).
Proof.
  intros Hw. unfold bucket_insert. destruct (update_first _ _ _); [eauto|].
  destruct (is_full b) eqn:Hf; simpl; [|eauto].
  apply bucket_full_length in Hf; [|done]. pose proof (wf_k_pos _ Hw).
  destruct (b_nodes b); [simpl in *; lia|eauto].
Qed.

(** ** The address merge *)
Lemma lan_first_total a b : lan_first a b = true ∨ lan_first b a = true.
Proof. unfold lan_first. destruct (is_lan_addr a), (is_lan_addr b); auto. Qed.
Lemma lan_first_trans a b c : lan_first a b = true → lan_first b c = true → lan_first a c = true.
Proof. unfold lan_first. destruct (is_lan_addr a), (is_lan_addr b), (is_lan_addr c); auto. Qed.

Lemma push_new_elem a acc new : a ∈ foldl push_new acc new ↔ a ∈ acc ∨ a ∈ new.
Proof.
  revert acc. induction new as [|x new IH]; intros acc; simpl; [set_solver|].
  rewrite IH, elem_of_cons. unfold push_new. case_bool_decide; [naive_solver|].
  rewrite elem_of_app, list_elem_of_singleton. tauto.
Qed.

Lemma push_new_NoDup acc new : NoDup acc → NoDup (foldl push_new acc new).
Proof.
  revert acc. induction new as [|x new IH]; intros acc Ha; simpl; [done|]. apply IH.
  unfold push_new. case_bool_decide; [done|]. apply NoDup_app. split; [done|].
  split; [|apply NoDup_singleton]. intros y Hy Hy'. by apply list_elem_of_singleton in Hy' as ->.
Qed.

Lemma StronglySorted_take {A} (R : relation A) n l : StronglySorted R l → StronglySorted R (take n l).
Proof.
  intros Hs. rewrite <-(take_drop n l) in Hs. by apply StronglySorted_app in Hs as (_ & ? & _).
Qed.

Lemma list_find_has_id_id i l j n :
  list_find (λ n, has_id i n = true) l = Some (j, n) → ni_node_id n = i ∧ n ∈ l.
Proof.
  intros (Hj & Hn & _)%list_find_Some. split; [by apply has_id_true|]. by eapply list_elem_of_lookup_2.
Qed.

(** A present peer splits the bucket at its entry. *)
Lemma bucket_split i b :
  i ∈ ids (b_nodes b) →
  ∃ l1 n l2, b_nodes b = l1 ++ n :: l2 ∧ ni_node_id n = i ∧ i ∉ ids l1.
Proof.
  intros Hi. destruct (update_first (has_id i) id (b_nodes b)) as [l|] eqn:E.
  - apply update_first_Some in E as (l1 & n & l2 & -> & Hn%has_id_true & Hl1%ids_has_id_false & _). eauto 10.
  - by apply update_first_None, ids_has_id_false in E.
Qed.

Lemma update_first_split f i l1 n l2 :
  ni_node_id n = i → i ∉ ids l1 → update_first (has_id i) f (l1 ++ n :: l2) = Some (l1 ++ f n :: l2).
Proof.
  intros Hn Hl1. apply update_first_Some. exists l1, n, l2.
  split_and!; [done|by apply has_id_true|by apply ids_has_id_false|done].
Qed.

Lemma list_find_split i l1 n l2 :
  ni_node_id n = i → i ∉ ids l1 →
  list_find (λ m, has_id i m = true) (l1 ++ n :: l2) = Some (length l1, n).
Proof.
  intros Hn Hl1. apply list_find_Some. split_and!.
  - by rewrite lookup_app_r, Nat.sub_diag by lia.
  - by apply has_id_true.
  - intros j y Hj Hlt. rewrite lookup_app_l in Hj by done. rewrite has_id_true. intros <-. apply Hl1.
    apply list_elem_of_fmap. exists y. split; [done|]. by eapply list_elem_of_lookup_2.
Qed.

Lemma vec_remove_split {A} (l1 l2 : list A) x : vec_remove (length l1) (l1 ++ x :: l2) = l1 ++ l2.
Proof. unfold vec_remove. induction l1; simpl; [done|]. by f_equal. Qed.

Lemma bucket_remove_split i b l1 n l2 :
  b_nodes b = l1 ++ n :: l2 → ni_node_id n = i → i ∉ ids l1 →
  b_nodes (bucket_remove i b).1 = l1 ++ l2 ++ option_list (last (b_replacement_cache b)) ∧
  (bucket_remove i b).2 = true.
Proof.
  intros Hb Hn Hl1. unfold bucket_remove, position. rewrite Hb, list_find_split by done. simpl.
  rewrite vec_remove_split. unfold vec_pop.
  destruct (last _); simpl; split; try done; by rewrite ?app_nil_r, <-?app_assoc.
Qed.

Lemma push_new_length acc new : (length (foldl push_new acc new) ≤ length acc + length new)%nat.
Proof.
  revert acc. induction new as [|x new IH]; intros acc; simpl; [lia|]. etrans; [apply IH|].
  unfold push_new. case_bool_decide; rewrite ?length_app; simpl; lia.
Qed.

Lemma iter_record_failure_id j n : ni_node_id (Nat.iter j node_record_failure n) = ni_node_id n.
Proof. induction j; [done|]. simpl. done. Qed.

Lemma iter_record_failure_count j n :
  ni_fail_count n = 0 → (j ≤ 255)%nat → ni_fail_count (Nat.iter j node_record_failure n) = Z.of_nat j.
Proof. intros H0. induction j as [|j IH]; intros Hj; [done|]. simpl. rewrite IH by lia. lia. Qed.

Lemma not_elem_ids i l : i ∉ ids l → Forall (λ x, ni_node_id x ≠ i) l.
Proof.
  intros Hi. apply Forall_forall. intros x Hx <-. apply Hi, list_elem_of_fmap. eauto.
Qed.

Lemma record_failure_keep i m b l1 n l2 :
  i ∉ ids l1 → ni_node_id n = i → ni_fail_count (node_record_failure n) < m →
  bucket_record_failure i m (set_nodes b (l1 ++ n :: l2)) = set_nodes b (l1 ++ node_record_failure n :: l2).
Proof.
  intros Hl1 Hn Hm. unfold bucket_record_failure. cbn [set_nodes b_nodes].
  rewrite list_find_split by done. rewrite update_first_split by done.
  rewrite (proj2 (Z.leb_gt _ _) Hm). done.
Qed.

Lemma record_failure_evicts i m b l1 n l2 :
  i ∉ ids l1 → ni_node_id n = i → m ≤ ni_fail_count (node_record_failure n) →
  b_nodes (bucket_record_failure i m (set_nodes b (l1 ++ n :: l2)))
  = l1 ++ l2 ++ option_list (last (b_replacement_cache b)).
Proof.
  intros Hl1 Hn Hm. unfold bucket_record_failure. cbn [set_nodes b_nodes].
  rewrite list_find_split by done. rewrite update_first_split by done.
  rewrite (proj2 (Z.leb_le _ _) Hm). simpl.
  by apply (bucket_remove_split i (set_nodes (set_nodes b (l1 ++ n :: l2))
    (l1 ++ node_record_failure n :: l2)) l1 (node_record_failure n) l2).
Qed.

(** ** Properties *)
Definition sample_peer (id : NodeId) : NodeInfo := NodeInfo_new 0 id (replicate 32 0) [sample_addr 4000].
Definition sample_bucket (k : nat) (bs : list Z) : KBucket :=
  mkBucket k ((λ b, sample_peer (sample_id b)) <$> bs) [] k 0.



(** the addresses kept by a refresh are at most [MAX_PEER_ADDRS], all known
    before or announced now, without repetition, LAN addresses before the others;
    and none is lost while they fit. *)
Theorem merge_addresses_spec old new :
  NoDup old →
  let r := merge_addresses old new in
  (length r ≤ MAX_PEER_ADDRS)%nat ∧ NoDup r ∧
  (∀ a, a ∈ r → a ∈ old ∨ a ∈ new) ∧
  StronglySorted (λ a b, lan_first a b = true) r ∧
  ((length old + length new ≤ MAX_PEER_ADDRS)%nat → ∀ a, a ∈ old ∨ a ∈ new → a ∈ r).
Proof.
  intros Hold r. unfold r, merge_addresses. split_and!.
  - rewrite length_take. lia.
  - assert (NoDup (sort_by lan_first (foldl push_new old new))) as Hnd.
    { rewrite sort_by_perm. by apply push_new_NoDup. }
    rewrite <-(take_drop MAX_PEER_ADDRS (sort_by _ _)) in Hnd. by apply NoDup_app in Hnd as [? _].
  - intros a Ha%take_elem%elem_of_sort_by. by apply push_new_elem.
  - apply StronglySorted_take, sort_by_sorted; [apply lan_first_total|apply lan_first_trans].
  - intros Hlen a Ha. rewrite take_ge; [by apply elem_of_sort_by, push_new_elem|].
    rewrite length_sort_by. etrans; [apply push_new_length|done].
Qed.

Lemma merge_addresses_spec_witness :
  merge_addresses [sample_addr 1; sample_addr 2] [lan_addr 5; sample_addr 1]
    = [lan_addr 5; sample_addr 1; sample_addr 2] ∧
  (length (merge_addresses [sample_addr 1; sample_addr 2] [lan_addr 5; sample_addr 1]) ≤ 8)%nat.
Proof.
  split; [vm_compute; reflexivity|].
  apply (merge_addresses_spec [sample_addr 1; sample_addr 2] [lan_addr 5; sample_addr 1]). decide_compute.
Defined.

(** a peer survives [max_failures - 1] consecutive failure records and is
    removed from the bucket by the [max_failures]-th, the newest cached peer taking
    its place. *)
Theorem failures_evict b i n (m : nat) :
  bucket_wf b → n ∈ b_nodes b → ni_node_id n = i → ni_fail_count n = 0 → (0 < m ≤ 255)%nat →
  (∀ j, (j < m)%nat →
    ids (b_nodes (Nat.iter j (bucket_record_failure i (Z.of_nat m)) b)) = ids (b_nodes b)) ∧
  ids (b_nodes (Nat.iter m (bucket_record_failure i (Z.of_nat m)) b))
    ≡ₚ ids (filter (λ x, ni_node_id x ≠ i) (b_nodes b) ++ option_list (last (b_replacement_cache b))).
Proof.
  intros Hw Hn Hi H0 Hm.
  destruct (bucket_split i b) as (l1 & e & l2 & Hb & He & Hl1); [apply list_elem_of_fmap; eauto|].
  pose proof (wf_unique _ Hw) as Hu. apply NoDup_app in Hu as [Hu _]. rewrite Hb, ids_app in Hu.
  apply NoDup_app in Hu as (_ & Hd & Hu). simpl in Hu. apply NoDup_cons in Hu as [Hl2 _]. rewrite He in Hl2.
  assert (e = n) as ->.
  { rewrite Hb in Hn. apply elem_of_app in Hn as [Hn|[->|Hn]%elem_of_cons]; [|done|].
    - destruct Hl1. rewrite <-Hi. apply list_elem_of_fmap. eauto.
    - destruct Hl2. rewrite <-Hi. apply list_elem_of_fmap. eauto. }
  assert (∀ j, (j < m)%nat → Nat.iter j (bucket_record_failure i (Z.of_nat m)) b =
    set_nodes b (l1 ++ Nat.iter j node_record_failure n :: l2)) as Hiter.
  { induction j as [|j IH]; intros Hj; [destruct b; simpl in *; by rewrite <-Hb|].
    simpl. rewrite IH by lia. apply record_failure_keep; [done| |].
    - by rewrite iter_record_failure_id.
    - rewrite <-Nat.iter_succ, iter_record_failure_count by (lia || done). lia. }
  split.
  - intros j Hj. rewrite Hiter by done. simpl. rewrite Hb, !ids_app. simpl. by rewrite iter_record_failure_id.
  - destruct m as [|m]; [lia|]. rewrite Nat.iter_succ, (Hiter m) by lia.
    rewrite (record_failure_evicts i (Z.of_nat (S m)) b l1 (Nat.iter m node_record_failure n) l2); try done.
    + rewrite Hb, filter_app, filter_cons_False by (rewrite Hi; naive_solver).
      rewrite !filter_all; [|apply not_elem_ids; done..]. by rewrite <-app_assoc.
    + by rewrite iter_record_failure_id.
    + rewrite <-Nat.iter_succ, iter_record_failure_count by (lia || done). lia.
Qed.

Lemma failures_evict_witness :
  let b := sample_bucket 2 [1; 2] in
  ids (b_nodes (Nat.iter 3 (bucket_record_failure (sample_id 1) 3) b)) ≡ₚ [sample_id 2].
Proof.
  apply (failures_evict (sample_bucket 2 [1; 2]) (sample_id 1) (sample_peer (sample_id 1)) 3).
  - decide_compute.
  - decide_compute.
  - reflexivity.
  - reflexivity.
  - lia.
Defined.
