(* ===== verification/Table.v ===== *)
(** * The routing table ([src/routing/table.rs])

    256 k-buckets indexed by the common prefix length with the local id.
    [self.buckets[i]] is written with [bucket_at] and [alter]; every index the
    code uses is below 256 ([bucket_index_lt]), and [table_wf] keeps 256 buckets,
    so no access is out of range.  [table_step] collects the public mutating
    operations; [table_reachable_wf] is the invariant of the states they reach. *)
From S2P Require Import Prelude.
From S2P Require Import Errors.
From S2P Require Import Bytes.
From S2P Require Import External.
From S2P Require Import Identity.
From S2P Require Import Net.
From S2P Require Import Bucket.
From S2P Require Import Samples.

Record RoutingTable := mkTable {
  local_id : NodeId;
  rt_k : nat;
  buckets : list KBucket;
}.

Definition RoutingTable_new (now : Z) (local_id : NodeId) (k : nat) : RoutingTable :=
  mkTable local_id k (replicate 256 (KBucket_new now k)).

(** [bucket_index]: the common prefix length, clamped to 255. *)
Definition bucket_index (rt : RoutingTable) (node_id : NodeId) : nat :=
  Z.to_nat (Z.min (common_prefix_length (local_id rt) node_id) 255).

Definition bucket_nodes (rt : RoutingTable) (i : nat) : list NodeInfo :=
  match buckets rt !! i with Some b => b_nodes b | None => [] end.

Definition set_bucket (rt : RoutingTable) (i : nat) (b : KBucket) : RoutingTable :=
  mkTable (local_id rt) (rt_k rt) (<[i := b]> (buckets rt)).
Definition on_bucket (f : KBucket → KBucket) (i : nat) (rt : RoutingTable) : RoutingTable :=
  mkTable (local_id rt) (rt_k rt) (alter f i (buckets rt)).

Definition table_insert (now : Z) (node : NodeInfo) (rt : RoutingTable) : res (RoutingTable * InsertResult) :=
  if bool_decide (ni_node_id node = local_id rt) then Ok (rt, Updated)
  else
    let i := bucket_index rt (ni_node_id node) in
    match buckets rt !! i with
    | None => Panic
    | Some b => '(b', r) ← bucket_insert now node b; Ok (set_bucket rt i b', r)
    end.

Definition table_evict_and_insert (now : Z) (failed_id : NodeId) (new_node : NodeInfo)
    (rt : RoutingTable) : RoutingTable * bool :=
  let i := bucket_index rt failed_id in
  (on_bucket (λ b, (bucket_evict_and_insert now failed_id new_node b).1) i rt,
   match buckets rt !! i with
   | Some b => (bucket_evict_and_insert now failed_id new_node b).2
   | None => false
   end).

Definition table_remove (node_id : NodeId) (rt : RoutingTable) : RoutingTable * bool :=
  let i := bucket_index rt node_id in
  (on_bucket (λ b, (bucket_remove node_id b).1) i rt,
   match buckets rt !! i with Some b => (bucket_remove node_id b).2 | None => false end).

Definition table_record_failure (node_id : NodeId) (max_failures : Z) (rt : RoutingTable) : RoutingTable :=
  on_bucket (bucket_record_failure node_id max_failures) (bucket_index rt node_id) rt.

(** The scan of [record_failure_by_addr]: the first bucket with a node at that
    address is updated and the scan stops. *)
Fixpoint record_failure_by_addr_in (addr : SocketAddr) (max_failures : Z) (bs : list KBucket) : list KBucket :=
  match bs with
  | [] => []
  | b :: bs' =>
    match list_find (λ n, addr ∈ ni_addresses n) (b_nodes b) with
    | Some (_, n) => bucket_record_failure (ni_node_id n) max_failures b :: bs'
    | None => b :: record_failure_by_addr_in addr max_failures bs'
    end
  end.
Definition record_failure_by_addr (addr : SocketAddr) (max_failures : Z) (rt : RoutingTable) : RoutingTable :=
  mkTable (local_id rt) (rt_k rt) (record_failure_by_addr_in addr max_failures (buckets rt)).

Definition table_mark_seen (now : Z) (node_id : NodeId) (rt : RoutingTable) : RoutingTable :=
  on_bucket (bucket_mark_seen now node_id) (bucket_index rt node_id) rt.

(** ** Closest nodes *)
(** The outward walk: bucket [lo] going down, bucket [hi] going up, while fewer
    than [count] candidates are collected.  256 iterations reach both ends
    ([walk_finished]). *)
Fixpoint walk (fuel : nat) (rt : RoutingTable) (count : nat) (lo hi : Z) (candidates : list NodeInfo)
    : Z * Z * list NodeInfo :=
  match fuel with
  | O => (lo, hi, candidates)
  | S fuel =>
    if (length candidates <? count)%nat && ((0 <=? lo) || (hi <? 256)) then
      let '(lo', c1) := if 0 <=? lo then (lo - 1, candidates ++ bucket_nodes rt (Z.to_nat lo))
                        else (lo, candidates) in
      let '(hi', c2) := if hi <? 256 then (hi + 1, c1 ++ bucket_nodes rt (Z.to_nat hi))
                        else (hi, c1) in
      walk fuel rt count lo' hi' c2
    else (lo, hi, candidates)
  end.

(** [sort_by(|a, b| target.distance(a).cmp(&target.distance(b)))]. *)
Definition closer (target : NodeId) (a b : NodeInfo) : bool :=
  dist_leb (distance target (ni_node_id a)) (distance target (ni_node_id b)).

Definition closest_nodes (rt : RoutingTable) (target : NodeId) (count : nat) : list NodeInfo :=
  let center := Z.of_nat (bucket_index rt target) in
  let '(_, _, candidates) := walk 256 rt count center (center + 1) [] in
  take count (sort_by (closer target) candidates).

Definition all_nodes (rt : RoutingTable) : list NodeInfo := concat (b_nodes <$> buckets rt).
Definition table_len (rt : RoutingTable) : nat := sum_list (bucket_len <$> buckets rt).
Definition to_serde (n : NodeInfo) : NodeInfoSerde :=
  mkNodeInfoSerde (as_bytes (ni_node_id n)) (ni_public_key n) (ni_addresses n).
Definition all_nodes_serde (rt : RoutingTable) : list NodeInfoSerde := to_serde <$> all_nodes rt.

(** Non-empty buckets last updated before [now - max_age]. *)
Definition stale_bucket_indices (now max_age : Z) (rt : RoutingTable) : list nat :=
  fst <$> filter (λ '(_, b), bucket_is_empty b = false ∧ b_last_updated b < now - max_age)
    (imap pair (buckets rt)).

(** [random_id_for_bucket], [random] being the value of [rand::random()]. *)
Definition bit_mask (bit : nat) : Z := Z.shiftr 128 (Z.of_nat (bit mod 8)).
Definition u8_not (b : Z) : Z := 255 - b.
Definition copy_bit (local bytes : list Z) (bit : nat) : list Z :=
  let i := (bit / 8)%nat in
  <[i := Z.lor (Z.land (bytes !!! i) (u8_not (bit_mask bit))) (Z.land (local !!! i) (bit_mask bit))]> bytes.
Definition random_id_for_bucket (random : list Z) (rt : RoutingTable) (bucket_index : nat) : NodeId :=
  let local := as_bytes (local_id rt) in
  let bytes := foldl (copy_bit local) random (seq 0 (bucket_index `min` 256)) in
  if (bucket_index <? 256)%nat then
    let i := (bucket_index / 8)%nat in
    let mask := bit_mask bucket_index in
    if Z.land (bytes !!! i) mask =? Z.land (local !!! i) mask
    then from_bytes (<[i := Z.lxor (bytes !!! i) mask]> bytes)
    else from_bytes bytes
  else from_bytes bytes.

(** ** The invariant *)
Record table_wf (rt : RoutingTable) : Prop := {
  wf_local : id_ok (local_id rt);
  wf_rt_k : (0 < rt_k rt)%nat;
  wf_buckets : length (buckets rt) = 256%nat;
  wf_each : ∀ i b, buckets rt !! i = Some b → bucket_wf b ∧ b_k b = rt_k rt;
  wf_placed : ∀ i b id, buckets rt !! i = Some b → id ∈ bucket_ids b →
              id_ok id ∧ id ≠ local_id rt ∧ bucket_index rt id = i;
}.

(** The mutating calls the node makes.  [node_ok]: ids come from 32-byte arrays. *)
Inductive table_step (rt : RoutingTable) : RoutingTable → Prop :=
  | step_insert now node rt' r :
      id_ok (ni_node_id node) → table_insert now node rt = Ok (rt', r) → table_step rt rt'
  | step_evict now failed node :
      (* the call follows a [BucketFull] answer for [node] whose LRS id is [failed] *)
      id_ok (ni_node_id node) → ni_node_id node ≠ local_id rt →
      bucket_index rt (ni_node_id node) = bucket_index rt failed →
      ni_node_id node ∉ ids (bucket_nodes rt (bucket_index rt failed)) →
      table_step rt (table_evict_and_insert now failed node rt).1
  | step_remove id : table_step rt (table_remove id rt).1
  | step_failure id m : table_step rt (table_record_failure id m rt)
  | step_failure_addr a m : table_step rt (record_failure_by_addr a m rt)
  | step_seen now id : table_step rt (table_mark_seen now id rt).

(** ** Lemmas *)
Lemma bucket_index_lt rt id : (bucket_index rt id < 256)%nat.
Proof. unfold bucket_index. lia. Qed.

Lemma bucket_nodes_some rt i b : buckets rt !! i = Some b → bucket_nodes rt i = b_nodes b.
Proof. unfold bucket_nodes. by intros ->. Qed.

Lemma table_bucket_some rt i : table_wf rt → (i < 256)%nat → ∃ b, buckets rt !! i = Some b.
Proof. intros Hw Hi. apply lookup_lt_is_Some_2. by rewrite (wf_buckets _ Hw). Qed.

Lemma on_bucket_wf f i rt :
  table_wf rt →
  (∀ b, buckets rt !! i = Some b → bucket_wf (f b) ∧ b_k (f b) = b_k b) →
  (∀ b id, buckets rt !! i = Some b → id ∈ bucket_ids (f b) →
    id ∈ bucket_ids b ∨ (id_ok id ∧ id ≠ local_id rt ∧ bucket_index rt id = i)) →
  table_wf (on_bucket f i rt).
Proof.
  intros Hw Hf Hids. split; simpl; [apply Hw|apply Hw|by rewrite length_alter; apply Hw| |].
  - intros j b. destruct (decide (i = j)) as [->|Hne].
    + rewrite list_lookup_alter_eq, fmap_Some. intros (b0 & Hb & ->).
      destruct (Hf b0 Hb) as [? ->]. split; [done|]. exact (proj2 (wf_each rt Hw j b0 Hb)).
    + rewrite list_lookup_alter_ne by done. apply (wf_each _ Hw).
  - intros j b id. destruct (decide (i = j)) as [->|Hne].
    + rewrite list_lookup_alter_eq, fmap_Some. intros (b0 & Hb & ->) Hid.
      destruct (Hids b0 id Hb Hid) as [Hin|]; [|done]. exact (wf_placed rt Hw j b0 id Hb Hin).
    + rewrite list_lookup_alter_ne by done. apply (wf_placed _ Hw).
Qed.

Lemma set_bucket_on rt i b b' :
  buckets rt !! i = Some b → set_bucket rt i b' = on_bucket (λ _, b') i rt.
Proof.
  intros Hb. unfold set_bucket, on_bucket. f_equal. apply list_eq. intros j.
  destruct (decide (i = j)) as [->|Hne].
  - rewrite list_lookup_alter_eq, Hb. apply list_lookup_insert_eq. by eapply lookup_lt_Some.
  - by rewrite list_lookup_alter_ne, list_lookup_insert_ne.
Qed.

Lemma bucket_insert_k now n b b' r : bucket_insert now n b = Ok (b', r) → b_k b' = b_k b.
Proof. unfold bucket_insert. intros. repeat case_match; simplify_eq/=; done. Qed.
Lemma bucket_remove_k i b : b_k (bucket_remove i b).1 = b_k b.
Proof. unfold bucket_remove. repeat case_match; done. Qed.
Lemma bucket_evict_k now i n b : b_k (bucket_evict_and_insert now i n b).1 = b_k b.
Proof. unfold bucket_evict_and_insert. by case_match. Qed.
Lemma bucket_record_failure_k i m b : b_k (bucket_record_failure i m b) = b_k b.
Proof.
  unfold bucket_record_failure. repeat case_match; try done. by rewrite bucket_remove_k.
Qed.

Lemma table_insert_wf now node rt rt' r :
  table_wf rt → id_ok (ni_node_id node) → table_insert now node rt = Ok (rt', r) → table_wf rt'.
Proof.
  intros Hw Hid. unfold table_insert. case_bool_decide as Hl; [by intros [= <- <-]|].
  destruct (buckets rt !! _) as [b|] eqn:Hb; [|done].
  intros ([b' r'] & Hi & [= <- <-])%outcome_bind_Ok. destruct (wf_each _ Hw _ _ Hb) as [Hbw _].
  rewrite (set_bucket_on _ _ _ _ Hb). apply on_bucket_wf; [done| |].
  - intros b0 [= <-]%(eq_trans (eq_sym Hb)). split; [by eapply bucket_insert_wf|by eapply bucket_insert_k].
  - intros b0 id [= <-]%(eq_trans (eq_sym Hb)) Hin. eapply bucket_insert_ids in Hin; [|done].
    apply elem_of_cons in Hin as [->|]; auto.
Qed.

Lemma table_evict_wf now failed node rt :
  table_wf rt → id_ok (ni_node_id node) → ni_node_id node ≠ local_id rt →
  bucket_index rt (ni_node_id node) = bucket_index rt failed →
  ni_node_id node ∉ ids (bucket_nodes rt (bucket_index rt failed)) →
  table_wf (table_evict_and_insert now failed node rt).1.
Proof.
  intros Hw Hid Hloc Hidx Hnew. simpl. apply on_bucket_wf; [done| |].
  - intros b Hb. rewrite bucket_evict_k. split; [|done]. apply bucket_evict_wf.
    + by eapply wf_each.
    + by rewrite <-(bucket_nodes_some _ _ _ Hb).
  - intros b id Hb Hin%bucket_evict_ids. apply elem_of_cons in Hin as [->|]; auto.
Qed.

Lemma table_remove_wf id rt : table_wf rt → table_wf (table_remove id rt).1.
Proof.
  intros Hw. apply on_bucket_wf; [done| |].
  - intros b Hb. rewrite bucket_remove_k. split; [|done]. apply bucket_remove_wf. by eapply wf_each.
  - intros b j Hb Hin%bucket_remove_ids. by left.
Qed.

Lemma table_record_failure_wf id m rt : table_wf rt → table_wf (table_record_failure id m rt).
Proof.
  intros Hw. apply on_bucket_wf; [done| |].
  - intros b Hb. rewrite bucket_record_failure_k. split; [|done].
    apply bucket_record_failure_wf. by eapply wf_each.
  - intros b j Hb Hin%bucket_record_failure_ids. by left.
Qed.

Lemma table_mark_seen_wf now id rt : table_wf rt → table_wf (table_mark_seen now id rt).
Proof.
  intros Hw. apply on_bucket_wf; [done| |].
  - intros b Hb. split; [|done]. apply bucket_mark_seen_wf. by eapply wf_each.
  - intros b j Hb. rewrite bucket_mark_seen_ids. by left.
Qed.

(** The scan by address is one [record_failure] on one bucket, or nothing. *)
Lemma record_failure_by_addr_in_cases a m bs :
  record_failure_by_addr_in a m bs = bs ∨
  ∃ i id, record_failure_by_addr_in a m bs = alter (bucket_record_failure id m) i bs.
Proof.
  induction bs as [|b bs IH]; [by left|]. simpl. destruct (list_find _ _) as [[? n]|].
  - right. by exists 0%nat, (ni_node_id n).
  - destruct IH as [->|(i & id & ->)]; [by left|]. right. by exists (S i), id.
Qed.

Lemma record_failure_by_addr_wf a m rt : table_wf rt → table_wf (record_failure_by_addr a m rt).
Proof.
  intros Hw. unfold record_failure_by_addr.
  destruct (record_failure_by_addr_in_cases a m (buckets rt)) as [->|(i & id & ->)].
  { by destruct rt. }
  apply (on_bucket_wf (bucket_record_failure id m) i rt Hw).
  - intros b Hb. rewrite bucket_record_failure_k. split; [|done].
    apply bucket_record_failure_wf. by eapply wf_each.
  - intros b j Hb Hin%bucket_record_failure_ids. by left.
Qed.

Lemma RoutingTable_new_wf now id k : id_ok id → (0 < k)%nat → table_wf (RoutingTable_new now id k).
Proof.
  intros Hid Hk.
  split; cbn [RoutingTable_new buckets local_id rt_k]; [done|done|by rewrite length_replicate| |].
  - intros i b [-> _]%lookup_replicate. split; [by apply KBucket_new_wf|done].
  - intros i b j [-> _]%lookup_replicate Hj. by apply elem_of_nil in Hj.
Qed.

#[export] Hint Resolve table_insert_wf table_remove_wf table_record_failure_wf table_mark_seen_wf
  record_failure_by_addr_wf table_evict_wf RoutingTable_new_wf : tess.

Lemma table_step_wf rt rt' : table_step rt rt' → table_wf rt → table_wf rt'.
Proof. destruct 1; eauto with tess. Qed.

Lemma table_insert_total now node rt :
  table_wf rt → ∃ rt' r, table_insert now node rt = Ok (rt', r).
Proof.
  intros Hw. unfold table_insert. case_bool_decide; [eauto|].
  destruct (table_bucket_some rt (bucket_index rt (ni_node_id node)) Hw (bucket_index_lt _ _)) as [b Hb].
  rewrite Hb. destruct (wf_each _ Hw _ _ Hb) as [Hbw _].
  destruct (bucket_insert_total now node b Hbw) as (b' & r & ->). simpl. eauto.
Qed.

(** ** The outward walk *)
(** The peers of buckets [a] .. [a + n - 1]. *)
Definition range_nodes (rt : RoutingTable) (a n : nat) : list NodeInfo :=
  concat (bucket_nodes rt <$> seq a n).

Lemma range_nodes_S_end rt a n :
  range_nodes rt a (S n) = range_nodes rt a n ++ bucket_nodes rt (a + n).
Proof.
  unfold range_nodes. rewrite seq_S, fmap_app, concat_app. simpl. by rewrite app_nil_r.
Qed.

Lemma range_nodes_S_start rt a n :
  range_nodes rt a (S n) = bucket_nodes rt a ++ range_nodes rt (S a) n.
Proof. done. Qed.

Lemma elem_of_range_nodes rt a n x :
  x ∈ range_nodes rt a n ↔ ∃ i, (a ≤ i < a + n)%nat ∧ x ∈ bucket_nodes rt i.
Proof.
  unfold range_nodes. rewrite elem_of_concat. split.
  - intros (l & Hx & (i & -> & Hi)%list_elem_of_fmap). apply elem_of_seq in Hi. eauto.
  - intros (i & Hi & Hx). exists (bucket_nodes rt i). split; [done|].
    apply list_elem_of_fmap. exists i. split; [done|]. by apply elem_of_seq.
Qed.

Lemma all_nodes_range rt : length (buckets rt) = 256%nat → all_nodes rt = range_nodes rt 0 256.
Proof.
  intros Hl. unfold all_nodes, range_nodes. f_equal. apply list_eq. intros i.
  rewrite !list_lookup_fmap. destruct (decide (i < 256)%nat) as [Hi|Hi].
  - rewrite lookup_seq_lt by done. simpl. destruct (lookup_lt_is_Some_2 (buckets rt) i) as [b Hb]; [lia|].
    by rewrite Hb, (bucket_nodes_some _ _ _ Hb).
  - rewrite (lookup_ge_None_2 (buckets rt)) by lia.
    rewrite (lookup_ge_None_2 (seq 0 256)); [done|]. rewrite length_seq. lia.
Qed.

Lemma walk_spec fuel rt count lo hi cands :
  -1 ≤ lo → lo < hi → hi ≤ 256 → (0 ≤ hi) →
  lo + 1 ≤ Z.of_nat fuel → 256 - hi ≤ Z.of_nat fuel →
  cands ≡ₚ range_nodes rt (Z.to_nat (lo + 1)) (Z.to_nat (hi - lo - 1)) →
  let '(lo', hi', c) := walk fuel rt count lo hi cands in
  -1 ≤ lo' ≤ lo ∧ hi ≤ hi' ≤ 256 ∧
  c ≡ₚ range_nodes rt (Z.to_nat (lo' + 1)) (Z.to_nat (hi' - lo' - 1)) ∧
  ((count ≤ length c)%nat ∨ (lo' = -1 ∧ hi' = 256)) ∧
  ((length cands < count)%nat → 0 ≤ lo → lo' < lo).
Proof.
  revert lo hi cands. induction fuel as [|fuel IH]; intros lo hi cands H1 H2 H3 H0 H4 H5 Hc.
  { simpl. split_and!; try lia; done. }
  cbn [walk]. destruct ((length cands <? count)%nat && ((0 <=? lo) || (hi <? 256))) eqn:Hcond.
  2: { apply andb_false_iff in Hcond as [Hl|Hl].
       - apply Nat.ltb_ge in Hl. split_and!; try lia; done.
       - bool_prop. split_and!; try lia; done. }
  apply andb_true_iff in Hcond as [Hlen _].
  set (lo' := if 0 <=? lo then lo - 1 else lo). set (hi' := if hi <? 256 then hi + 1 else hi).
  assert (∃ c2, c2 ≡ₚ range_nodes rt (Z.to_nat (lo' + 1)) (Z.to_nat (hi' - lo' - 1)) ∧
    (let '(lo'0, c1) := if 0 <=? lo then (lo - 1, cands ++ bucket_nodes rt (Z.to_nat lo)) else (lo, cands) in
     let '(hi'0, c2) := if hi <? 256 then (hi + 1, c1 ++ bucket_nodes rt (Z.to_nat hi)) else (hi, c1) in
     walk fuel rt count lo'0 hi'0 c2) = walk fuel rt count lo' hi' c2) as (c2 & Hc2 & ->).
  { unfold lo', hi'. destruct (0 <=? lo) eqn:Hlo, (hi <? 256) eqn:Hhi; bool_prop;
      (eexists; split; [|reflexivity]); rewrite Hc.
    - replace (Z.to_nat (hi + 1 - (lo - 1) - 1)) with (S (S (Z.to_nat (hi - lo - 1)))) by lia.
      replace (Z.to_nat (lo - 1 + 1)) with (Z.to_nat lo) by lia.
      rewrite range_nodes_S_start, range_nodes_S_end.
      replace (S (Z.to_nat lo)) with (Z.to_nat (lo + 1)) by lia.
      replace (Z.to_nat (lo + 1) + Z.to_nat (hi - lo - 1))%nat with (Z.to_nat hi) by lia.
      rewrite (app_assoc (bucket_nodes rt (Z.to_nat lo))). apply Permutation_app_tail, Permutation_app_comm.
    - replace (Z.to_nat (hi - (lo - 1) - 1)) with (S (Z.to_nat (hi - lo - 1))) by lia.
      replace (Z.to_nat (lo - 1 + 1)) with (Z.to_nat lo) by lia.
      rewrite range_nodes_S_start. replace (S (Z.to_nat lo)) with (Z.to_nat (lo + 1)) by lia.
      apply Permutation_app_comm.
    - replace (Z.to_nat (hi + 1 - lo - 1)) with (S (Z.to_nat (hi - lo - 1))) by lia.
      rewrite range_nodes_S_end.
      by replace (Z.to_nat (lo + 1) + Z.to_nat (hi - lo - 1))%nat with (Z.to_nat hi) by lia.
    - done. }
  specialize (IH lo' hi' c2).
  destruct (walk fuel rt count lo' hi' c2) as [[lo2 hi2] c].
  assert (-1 ≤ lo' ≤ lo ∧ hi ≤ hi' ≤ 256 ∧ lo' + 1 ≤ Z.of_nat fuel ∧ 256 - hi' ≤ Z.of_nat fuel)
    as (? & ? & ? & ?).
  { unfold lo', hi'. destruct (0 <=? lo) eqn:?, (hi <? 256) eqn:?; bool_prop; lia. }
  destruct IH as (? & ? & ? & ? & _); [lia..|done|]. split_and!; try lia; try done.
  intros _ Hlo. assert (lo' = lo - 1); [|lia]. unfold lo'. by rewrite (proj2 (Z.leb_le 0 lo) Hlo).
Qed.

(** The walk of [closest_nodes] ends with enough candidates or with every bucket visited. *)
Lemma walk_finished rt target count :
  let center := Z.of_nat (bucket_index rt target) in
  let '(lo, hi, c) := walk 256 rt count center (center + 1) [] in
  -1 ≤ lo ≤ center ∧ center + 1 ≤ hi ≤ 256 ∧
  c ≡ₚ range_nodes rt (Z.to_nat (lo + 1)) (Z.to_nat (hi - lo - 1)) ∧
  ((count ≤ length c)%nat ∨ (lo = -1 ∧ hi = 256)) ∧
  ((0 < count)%nat → lo < center).
Proof.
  cbv zeta. pose proof (bucket_index_lt rt target) as Hb.
  assert (0 ≤ Z.of_nat (bucket_index rt target) ≤ 255) as Hc by lia. clear Hb.
  set (center := Z.of_nat (bucket_index rt target)) in *. clearbody center.
  pose proof (walk_spec 256 rt count center (center + 1) []) as Hs.
  destruct (walk _ _ _ _ _ _) as [[lo hi] c].
  destruct Hs as (? & ? & ? & ? & Hlt); try lia.
  { replace (center + 1 - center - 1) with 0 by lia. done. }
  split_and!; try lia; try done. intros. apply Hlt; [done|lia].
Qed.


(** ** Distances across buckets *)
Lemma bucket_index_bit_size rt id :
  id_ok (local_id rt) → id_ok id →
  Z.of_nat (bucket_index rt id) = Z.min (256 - bit_size (Z.lxor (id_value (local_id rt)) (id_value id))) 255.
Proof.
  intros Hl Hid. pose proof (cpl_range _ _ Hl Hid). unfold bucket_index.
  rewrite Z2Nat.id by lia. by rewrite common_prefix_length_value.
Qed.

(** A peer in the target's bucket is strictly closer to it than a peer of another bucket. *)
Lemma own_bucket_closer rt target n m :
  id_ok (local_id rt) → id_ok target → id_ok n → id_ok m → n ≠ local_id rt → m ≠ local_id rt →
  bucket_index rt n = bucket_index rt target → bucket_index rt m ≠ bucket_index rt target →
  dist_ltb (distance target n) (distance target m) = true.
Proof.
  intros Hl Ht Hn Hm Hnl Hml Hbn Hbm. unfold dist_ltb. rewrite dist_cmp_value by done.
  rewrite (proj2 (Z.compare_lt_iff _ _)); [done|].
  pose proof (bucket_index_bit_size rt target Hl Ht) as It.
  pose proof (bucket_index_bit_size rt n Hl Hn) as In.
  pose proof (bucket_index_bit_size rt m Hl Hm) as Im.
  assert (∀ x, id_ok x → x ≠ local_id rt → 0 < bit_size (Z.lxor (id_value (local_id rt)) (id_value x))) as Hpos.
  { intros x Hx Hxl. pose proof (bit_size_nonneg (Z.lxor (id_value (local_id rt)) (id_value x))) as Hnn.
    pose proof (bit_size_0 _ (proj1 (lxor_bound256 _ _ Hl Hx))) as Hz. rewrite Z.lxor_eq_0_iff in Hz.
    destruct (decide (bit_size (Z.lxor (id_value (local_id rt)) (id_value x)) = 0)) as [E|]; [|lia].
    destruct Hxl. apply id_value_inj; [done..|]. symmetry. by apply Hz. }
  pose proof (Hpos n Hn Hnl) as Pn. pose proof (Hpos m Hm Hml) as Pm. clear Hpos.
  pose proof (lxor_bound256 _ _ Hl Ht) as Bt. pose proof (lxor_bound256 _ _ Hl Hn) as Bn.
  pose proof (lxor_bound256 _ _ Hl Hm) as Bm.
  assert (∀ x, Z.lxor (id_value target) x =
    Z.lxor (Z.lxor (id_value (local_id rt)) (id_value target)) (Z.lxor (id_value (local_id rt)) x)) as Hx.
  { intros x. apply Z.bits_inj'. intros i _. rewrite !Z.lxor_spec.
    by destruct (Z.testbit (id_value (local_id rt)) i), (Z.testbit (id_value target) i), (Z.testbit x i). }
  rewrite (Hx (id_value n)), (Hx (id_value m)). clear Hx.
  set (t := Z.lxor (id_value (local_id rt)) (id_value target)) in *.
  set (a := Z.lxor (id_value (local_id rt)) (id_value n)) in *.
  set (b := Z.lxor (id_value (local_id rt)) (id_value m)) in *.
  pose proof (bit_size_nonneg t). rewrite Hbn in In.
  apply bit_size_lt; [apply Z.lxor_nonneg; lia..|].
  destruct (decide (bit_size t = 0)) as [E|E].
  - assert (t = 0) as Et by (apply bit_size_0; lia). rewrite Et, !Z.lxor_0_l. lia.
  - assert (bit_size t = bit_size a) as Ea by lia.
    pose proof (bit_size_lxor_same t a ltac:(lia) ltac:(lia) Ea ltac:(lia)).
    destruct (decide (bit_size t < bit_size b)).
    + rewrite (bit_size_lxor_diff t b) by lia. lia.
    + rewrite (Z.lxor_comm t b), (bit_size_lxor_diff b t) by lia. lia.
Qed.

Lemma dist_ltb_leb a b : dist_ltb a b = true → dist_leb a b = true.
Proof. unfold dist_ltb, dist_leb. by destruct (dist_cmp a b). Qed.

Lemma closer_total target a b : closer target a b = true ∨ closer target b a = true.
Proof. apply dist_leb_total. Qed.
Lemma closer_trans target a b c :
  closer target a b = true → closer target b c = true → closer target a c = true.
Proof. apply dist_leb_trans. Qed.

(** Membership in the table, by bucket. *)
Lemma bucket_nodes_placed rt i n :
  table_wf rt → n ∈ bucket_nodes rt i →
  id_ok (ni_node_id n) ∧ ni_node_id n ≠ local_id rt ∧ bucket_index rt (ni_node_id n) = i.
Proof.
  intros Hw. unfold bucket_nodes. destruct (buckets rt !! i) as [b|] eqn:Hb; [|by intros ?%elem_of_nil].
  intros Hn. eapply wf_placed; [done..|]. unfold bucket_ids. apply elem_of_app. left.
  apply list_elem_of_fmap. eauto.
Qed.

Lemma all_nodes_bucket rt n :
  table_wf rt → n ∈ all_nodes rt ↔ n ∈ bucket_nodes rt (bucket_index rt (ni_node_id n)).
Proof.
  intros Hw. rewrite all_nodes_range, elem_of_range_nodes by apply Hw. split.
  - intros (i & _ & Hn). by destruct (bucket_nodes_placed rt i n Hw Hn) as (_ & _ & ->).
  - intros Hn. exists (bucket_index rt (ni_node_id n)). split; [|done].
    pose proof (bucket_index_lt rt (ni_node_id n)). lia.
Qed.

Lemma bucket_nodes_NoDup rt i : table_wf rt → NoDup (ids (bucket_nodes rt i)).
Proof.
  intros Hw. unfold bucket_nodes. destruct (buckets rt !! i) as [b|] eqn:Hb; [|constructor].
  destruct (wf_each _ Hw _ _ Hb) as [Hbw _]. by apply wf_unique, NoDup_app in Hbw as [? _].
Qed.

Lemma range_nodes_NoDup rt a n : table_wf rt → NoDup (ids (range_nodes rt a n)).
Proof.
  intros Hw. induction n as [|n IH]; [constructor|]. rewrite range_nodes_S_end, ids_app.
  apply NoDup_app. split; [done|]. split; [|by apply bucket_nodes_NoDup].
  intros j (x & -> & Hx)%list_elem_of_fmap (y & Hxy & Hy)%list_elem_of_fmap.
  apply elem_of_range_nodes in Hx as (i & Hi & Hx).
  destruct (bucket_nodes_placed _ _ _ Hw Hx) as (_ & _ & Ex).
  destruct (bucket_nodes_placed _ _ _ Hw Hy) as (_ & _ & Ey). rewrite Hxy, Ey in Ex. lia.
Qed.

Lemma all_nodes_unique rt n m :
  table_wf rt → n ∈ all_nodes rt → m ∈ all_nodes rt → ni_node_id n = ni_node_id m → n = m.
Proof.
  intros Hw. rewrite all_nodes_range by apply Hw. intros Hn Hm Heq.
  pose proof (range_nodes_NoDup rt 0 256 Hw) as Hnd.
  apply list_elem_of_lookup in Hn as [i Hi]. apply list_elem_of_lookup in Hm as [j Hj].
  assert (i = j) as ->; [|congruence].
  eapply (NoDup_lookup _ _ _ (ni_node_id n) Hnd); unfold ids; rewrite list_lookup_fmap.
  - by rewrite Hi.
  - rewrite Hj. simpl. by rewrite Heq.
Qed.

Lemma sub_range_length rt a n :
  (a + n ≤ 256)%nat → (length (range_nodes rt a n) ≤ length (range_nodes rt 0 256))%nat.
Proof.
  intros Hn. unfold range_nodes.
  assert (∃ r, 256 = a + (n + r))%nat as [r ->] by (exists (256 - a - n)%nat; lia).
  rewrite !seq_app, !fmap_app, !concat_app, !length_app, Nat.add_0_l. lia.
Qed.

Lemma table_len_all rt : table_len rt = length (all_nodes rt).
Proof.
  unfold table_len, all_nodes, bucket_len. induction (buckets rt) as [|b l IH]; [done|].
  rewrite !fmap_cons. cbn [sum_list concat]. rewrite length_app, <-IH. done.
Qed.

(** Everything the proofs below need of one call of [closest_nodes]. *)
Lemma closest_nodes_walk rt target count :
  ∃ lo hi c,
    let center := Z.of_nat (bucket_index rt target) in
    closest_nodes rt target count = take count (sort_by (closer target) c) ∧
    -1 ≤ lo ≤ center ∧ center + 1 ≤ hi ≤ 256 ∧
    c ≡ₚ range_nodes rt (Z.to_nat (lo + 1)) (Z.to_nat (hi - lo - 1)) ∧
    ((count ≤ length c)%nat ∨ (lo = -1 ∧ hi = 256)) ∧
    ((0 < count)%nat → lo < center).
Proof.
  pose proof (walk_finished rt target count) as Hf. cbv zeta in Hf |- *. unfold closest_nodes. cbv zeta.
  destruct (walk _ _ _ _ _ _) as [[lo hi] c]. exists lo, hi, c. by split.
Qed.

Lemma closest_nodes_elem rt target count n :
  table_wf rt → n ∈ closest_nodes rt target count → n ∈ all_nodes rt.
Proof.
  intros Hw. destruct (closest_nodes_walk rt target count) as (lo & hi & c & -> & Hlo & Hhi & Hc & _).
  intros Hn%take_elem%elem_of_sort_by. rewrite Hc in Hn. rewrite all_nodes_range by apply Hw.
  apply elem_of_range_nodes in Hn as (i & Hi & Hn). apply elem_of_range_nodes. exists i. split; [lia|done].
Qed.

Lemma closest_nodes_length rt target count :
  table_wf rt → length (closest_nodes rt target count) = (count `min` table_len rt)%nat.
Proof.
  intros Hw. destruct (closest_nodes_walk rt target count) as (lo & hi & c & -> & Hlo & Hhi & Hc & Hd & _).
  pose proof (bucket_index_lt rt target). rewrite length_take, length_sort_by, table_len_all.
  rewrite all_nodes_range by apply Hw.
  pose proof (sub_range_length rt (Z.to_nat (lo + 1)) (Z.to_nat (hi - lo - 1)) ltac:(lia)) as Hs.
  destruct Hd as [Hd|[-> ->]]; [rewrite Hc in Hd; rewrite Hc; lia|by rewrite Hc].
Qed.

Lemma closest_nodes_NoDup rt target count : table_wf rt → NoDup (ids (closest_nodes rt target count)).
Proof.
  intros Hw. destruct (closest_nodes_walk rt target count) as (lo & hi & c & -> & Hlo & Hhi & Hc & Hd & _).
  assert (NoDup (ids (sort_by (closer target) c))) as Hnd.
  { unfold ids. rewrite sort_by_perm, Hc. by apply range_nodes_NoDup. }
  rewrite <-(take_drop count (sort_by _ c)), ids_app in Hnd. by apply NoDup_app in Hnd as [? _].
Qed.

Lemma closest_nodes_visited rt target count n m :
  table_wf rt → n ∈ closest_nodes rt target count →
  m ∈ bucket_nodes rt (bucket_index rt target) → m ∉ closest_nodes rt target count →
  closer target n m = true.
Proof.
  intros Hw Hn Hm Hnm.
  destruct (closest_nodes_walk rt target count) as (lo & hi & c & Heq & Hlo & Hhi & Hc & _ & Hcen).
  cbv zeta in *. rewrite Heq in *.
  assert (0 < count)%nat as Hpos by (destruct count; [by apply elem_of_nil in Hn|lia]).
  specialize (Hcen Hpos).
  assert (m ∈ sort_by (closer target) c) as Hmc.
  { apply elem_of_sort_by. rewrite Hc, elem_of_range_nodes. exists (bucket_index rt target). split; [lia|done]. }
  eapply take_sort_by_least; [apply closer_total|apply closer_trans|exact Hn|].
  rewrite <-(take_drop count (sort_by _ c)) in Hmc. by apply elem_of_app in Hmc as [|].
Qed.

Lemma own_closer rt target n m :
  table_wf rt → id_ok target → n ∈ bucket_nodes rt (bucket_index rt target) → m ∈ all_nodes rt →
  m ∉ bucket_nodes rt (bucket_index rt target) →
  dist_ltb (distance target (ni_node_id n)) (distance target (ni_node_id m)) = true.
Proof.
  intros Hw Ht Hn Hm Hnm. apply all_nodes_bucket in Hm; [|done].
  destruct (bucket_nodes_placed _ _ _ Hw Hn) as (? & ? & En).
  destruct (bucket_nodes_placed _ _ _ Hw Hm) as (? & ? & Em).
  apply (own_bucket_closer rt); try done; [apply Hw|]. intros E. by rewrite E in Hm.
Qed.

Lemma dist_ltb_not_leb a b : dist_ltb a b = true → dist_leb b a = false.
Proof.
  unfold dist_ltb, dist_leb, dist_cmp. rewrite (cmp_bytes_antisym (dist_bytes b)).
  by destruct (cmp_bytes (dist_bytes a) (dist_bytes b)).
Qed.

Lemma NoDup_ids_NoDup l : NoDup (ids l) → NoDup l.
Proof. apply NoDup_fmap_1. Qed.

(** A full own bucket provides all the results. *)
Lemma closest_nodes_own rt target count n :
  table_wf rt → id_ok target →
  (count ≤ length (bucket_nodes rt (bucket_index rt target)))%nat →
  n ∈ closest_nodes rt target count → n ∈ bucket_nodes rt (bucket_index rt target).
Proof.
  intros Hw Ht Hlen Hn. destruct (decide (n ∈ bucket_nodes rt (bucket_index rt target))) as [|Hno]; [done|].
  exfalso. set (own := bucket_nodes rt (bucket_index rt target)) in *.
  pose proof (closest_nodes_elem _ _ _ _ Hw Hn) as Hall.
  assert (∀ x, x ∈ own → x ∈ closest_nodes rt target count) as Hin.
  { intros x Hx. destruct (decide (x ∈ closest_nodes rt target count)) as [|Hx']; [done|].
    pose proof (closest_nodes_visited rt target count n x Hw Hn Hx Hx') as Hc.
    pose proof (own_closer rt target x n Hw Ht Hx Hall Hno) as Hd. apply dist_ltb_not_leb in Hd.
    unfold closer in Hc. congruence. }
  assert (length (n :: own) ≤ length (closest_nodes rt target count))%nat as Hl.
  { apply submseteq_length, NoDup_submseteq.
    - apply NoDup_cons. split; [done|]. apply NoDup_ids_NoDup. by apply bucket_nodes_NoDup.
    - intros x [->|Hx]%elem_of_cons; auto. }
  destruct (closest_nodes_walk rt target count) as (lo & hi & c & Heq & _).
  rewrite Heq in Hl. rewrite length_take in Hl. simpl in Hl. lia.
Qed.

(** A small table is returned whole. *)
Lemma closest_nodes_all rt target count m :
  table_wf rt → (table_len rt ≤ count)%nat → m ∈ all_nodes rt → m ∈ closest_nodes rt target count.
Proof.
  intros Hw Hall Hm. rewrite table_len_all in Hall.
  pose proof (closest_nodes_length rt target count Hw) as Hl. rewrite table_len_all in Hl.
  pose proof (closest_nodes_NoDup rt target count Hw) as Hnd%NoDup_ids_NoDup.
  assert (closest_nodes rt target count ⊆+ all_nodes rt) as Hs.
  { apply NoDup_submseteq; [done|]. intros x. by apply closest_nodes_elem. }
  apply submseteq_length_Permutation in Hs; [|lia]. by rewrite Hs.
Qed.

(** ** Properties *)



(** when the target's own bucket holds [count] peers, or the whole table holds
    at most [count], the result is exactly the [count] closest peers of the table:
    no peer left out is closer to the target than a peer returned. *)
Theorem closest_nodes_exact rt target count :
  table_wf rt → id_ok target →
  (count ≤ length (bucket_nodes rt (bucket_index rt target)))%nat ∨ (table_len rt ≤ count)%nat →
  ∀ n m, n ∈ closest_nodes rt target count → m ∈ all_nodes rt → m ∉ closest_nodes rt target count →
    closer target n m = true.
Proof.
  intros Hw Ht Hcase n m Hn Hm Hnm.
  destruct (decide (m ∈ bucket_nodes rt (bucket_index rt target))) as [Hown|Hother].
  - by eapply closest_nodes_visited.
  - destruct Hcase as [Hown|Hall].
    + apply dist_ltb_leb. eapply own_closer; [done..| |done|done]. by eapply closest_nodes_own.
    + destruct Hnm. by apply closest_nodes_all.
Qed.


Lemma closest_nodes_head rt n count :
  table_wf rt → n ∈ all_nodes rt → (0 < count)%nat →
  head (closest_nodes rt (ni_node_id n) count) = Some n.
Proof.
  intros Hw Hn Hc. set (r := closest_nodes rt (ni_node_id n) count).
  pose proof (closest_nodes_length rt (ni_node_id n) count Hw) as Hl. fold r in Hl.
  assert (0 < table_len rt)%nat as Hpos.
  { rewrite table_len_all. destruct (all_nodes rt); [by apply elem_of_nil in Hn|simpl; lia]. }
  destruct (closest_nodes_walk rt (ni_node_id n) count) as (lo & hi & c & Heq & _).
  assert (StronglySorted (λ a b, closer (ni_node_id n) a b = true) r) as Hs.
  { unfold r. rewrite Heq. apply StronglySorted_take, sort_by_sorted; [apply closer_total|apply closer_trans]. }
  destruct r as [|x r'] eqn:Er; [simpl in Hl; lia|]. simpl. f_equal.
  pose proof (proj1 (all_nodes_bucket rt n Hw) Hn) as Hb.
  destruct (bucket_nodes_placed _ _ _ Hw Hb) as (Hnok & _ & _).
  assert (x ∈ all_nodes rt) as Hx.
  { apply (closest_nodes_elem rt (ni_node_id n) count); [done|]. fold r. rewrite Er. left. }
  apply all_nodes_unique with rt; [done..|].
  pose proof (proj1 (all_nodes_bucket rt x Hw) Hx) as Hxb.
  destruct (bucket_nodes_placed _ _ _ Hw Hxb) as (Hxok & _ & _).
  assert (closer (ni_node_id n) x n = true) as Hcl.
  { destruct (decide (n ∈ r)) as [Hin|Hin].
    - rewrite Er in Hin. apply elem_of_cons in Hin as [<-|Hin].
      + destruct (closer_total (ni_node_id n) n n); done.
      + apply StronglySorted_inv in Hs as [_ Hall]. rewrite Forall_forall in Hall. by apply Hall.
    - apply (closest_nodes_visited rt (ni_node_id n) count); try done. fold r. rewrite Er. left. }
  unfold closer, dist_leb in Hcl. rewrite dist_cmp_value, Z.lxor_nilpotent in Hcl by done.
  pose proof (lxor_bound256 _ _ Hnok Hxok) as Hbd. symmetry. apply id_value_inj; [done..|].
  apply Z.lxor_eq_0_iff. destruct (Z.compare_spec (Z.lxor (id_value (ni_node_id n)) (id_value (ni_node_id x))) 0);
    [done|lia|done].
Qed.

(** a peer of the table is found by its own id: [closest_nodes(id, n)] with
    [n >= 1] starts with it.  This is how the LRS peer and the relay target are
    looked up. *)
Theorem closest_nodes_finds rt n count :
  table_wf rt → n ∈ all_nodes rt → (0 < count)%nat →
  head (closest_nodes rt (ni_node_id n) count) = Some n.
Proof. apply closest_nodes_head. Qed.

(** ** Sample tables *)
Definition insert_all (l : list NodeInfo) (rt : RoutingTable) : RoutingTable :=
  foldl (λ rt n, match table_insert 0 n rt with Ok (rt', _) => rt' | _ => rt end) rt l.

Lemma insert_all_wf l rt :
  Forall (λ n, id_ok (ni_node_id n)) l → table_wf rt → table_wf (insert_all l rt).
Proof.
  intros Hl. revert rt. induction Hl as [|n l Hn Hl IH]; intros rt Hw; [done|]. simpl. apply IH.
  destruct (table_insert_total 0 n rt Hw) as (rt' & r & E). rewrite E. by eapply table_insert_wf.
Qed.

Definition sample_table (k : nat) (bs : list Z) : RoutingTable :=
  insert_all ((λ b, sample_peer (sample_id b)) <$> bs) (RoutingTable_new 0 (sample_id 0) k).

Lemma sample_table_wf k bs : (0 < k)%nat → bytes_ok bs → table_wf (sample_table k bs).
Proof.
  intros Hk Hbs. apply insert_all_wf.
  - apply Forall_fmap. eapply Forall_impl; [exact Hbs|]. intros b Hb. by apply sample_id_ok.
  - apply RoutingTable_new_wf; [|done]. by apply sample_id_ok.
Qed.

Lemma sample_table_reach k bs :
  bytes_ok bs → rtc table_step (RoutingTable_new 0 (sample_id 0) k) (sample_table k bs).
Proof.
  intros Hbs. unfold sample_table. generalize (RoutingTable_new 0 (sample_id 0) k).
  induction Hbs as [|b bs Hb Hbs IH]; intros rt; [done|]. simpl.
  destruct (table_insert 0 (sample_peer (sample_id b)) rt) as [[rt' r]|e|] eqn:E; [|apply IH..].
  eapply rtc_l; [|apply IH]. eapply step_insert; [|done]. by apply sample_id_ok.
Qed.



Lemma closest_nodes_exact_witness :
  let rt := sample_table 2 [128; 129; 64] in
  closer (sample_id 65) (sample_peer (sample_id 64)) (sample_peer (sample_id 128)) = true.
Proof.
  apply (closest_nodes_exact (sample_table 2 [128; 129; 64]) (sample_id 65) 1).
  - apply sample_table_wf; [lia|]. repeat constructor; done.
  - by apply sample_id_ok.
  - left. apply Nat.leb_le. vm_compute. reflexivity.
  - decide_compute.
  - decide_compute.
  - decide_compute.
Defined.

Lemma closest_nodes_finds_witness :
  head (closest_nodes (sample_table 2 [128; 129; 64]) (sample_id 129) 1) = Some (sample_peer (sample_id 129)).
Proof.
  apply (closest_nodes_finds (sample_table 2 [128; 129; 64]) (sample_peer (sample_id 129)) 1).
  - apply sample_table_wf; [lia|]. repeat constructor; done.
  - decide_compute.
  - lia.
Defined.

(** [closest_nodes] does not always return the closest peers: the walk looks
    into farther buckets on the low side before it has seen all the nearer buckets
    on the high side.  In a reachable table of two peers, asking for one returns
    the peer that is strictly farther from the target. *)
Theorem closest_nodes_not_closest :
  let rt := sample_table 20 [64; 4] in
  rtc table_step (RoutingTable_new 0 (sample_id 0) 20) rt ∧
  closest_nodes rt (sample_id 32) 1 = [sample_peer (sample_id 64)] ∧
  sample_peer (sample_id 4) ∈ all_nodes rt ∧
  dist_ltb (distance (sample_id 32) (sample_id 4)) (distance (sample_id 32) (sample_id 64)) = true.
Proof.
  intros rt. split_and!.
  - apply sample_table_reach. repeat constructor; done.
  - vm_compute. reflexivity.
  - decide_compute.
  - vm_compute. reflexivity.
Qed.

(** [evict_and_insert] can put a peer in the table twice.  A new peer answered
    [BucketFull] waits in the replacement cache while the LRS peer is pinged; if
    another peer of the bucket is evicted for its failures meanwhile, the new peer
    is promoted from the cache, and the eviction of the LRS peer inserts it again. *)
Theorem evict_and_insert_duplicates :
  let rt0 := sample_table 2 [128; 129] in
  let new := sample_peer (sample_id 130) in
  ∃ rt1, table_insert 0 new rt0 = Ok (rt1, BucketFull (sample_id 128)) ∧
  let rt2 := Nat.iter 3 (table_record_failure (sample_id 129) 3) rt1 in
  let rt3 := (table_evict_and_insert 0 (sample_id 128) new rt2).1 in
  ids (all_nodes rt2) = [sample_id 128; sample_id 130] ∧
  ids (all_nodes rt3) = [sample_id 130; sample_id 130].
Proof. eexists. split; [vm_compute; reflexivity|]. split; vm_compute; reflexivity. Qed.

(** ** Random ids for a bucket *)
Lemma bit_mask_pow j : bit_mask j = 2 ^ (7 - Z.of_nat (j mod 8)).
Proof.
  unfold bit_mask. assert (j mod 8 < 8)%nat as H by (apply Nat.mod_upper_bound; lia).
  set (r := (j mod 8)%nat) in *. clearbody r. do 8 (destruct r as [|r]; [done|]). lia.
Qed.

Lemma bit_mask_u8 j : u8_ok (bit_mask j).
Proof.
  rewrite bit_mask_pow. assert (j mod 8 < 8)%nat as H by (apply Nat.mod_upper_bound; lia).
  set (r := (j mod 8)%nat) in *. clearbody r. unfold u8_ok.
  do 8 (destruct r as [|r]; [by vm_compute|]). lia.
Qed.

Lemma bit_mask_testbit j r :
  (r < 8)%nat → Z.testbit (bit_mask j) (7 - Z.of_nat r) = bool_decide (r = (j mod 8)%nat).
Proof.
  intros Hr. rewrite bit_mask_pow. assert (j mod 8 < 8)%nat as H by (apply Nat.mod_upper_bound; lia).
  rewrite Z.pow2_bits_eqb by lia. case_bool_decide as E; [subst; by rewrite Z.eqb_refl|].
  apply Z.eqb_neq. lia.
Qed.

Lemma u8_not_ok b : u8_ok b → u8_ok (u8_not b).
Proof. unfold u8_ok, u8_not. lia. Qed.

Lemma u8_not_testbit b r :
  u8_ok b → (r < 8)%nat → Z.testbit (u8_not b) (7 - Z.of_nat r) = negb (Z.testbit b (7 - Z.of_nat r)).
Proof.
  intros Hb Hr. assert (u8_not b = Z.lxor 255 b) as ->.
  { unfold u8_not. assert (Z.land 255 b = b) as Hl.
    { rewrite Z.land_comm. change 255 with (Z.ones 8). rewrite Z.land_ones by lia.
      apply Z.mod_small. unfold u8_ok in Hb. lia. }
    pose proof (Z.add_lxor_2land 255 b). lia. }
  rewrite Z.lxor_spec. change 255 with (Z.ones 8).
  rewrite Z.ones_spec_low by lia. by destruct (Z.testbit b _).
Qed.

Lemma bytes_bit_insert l i v j :
  (i < length l)%nat →
  bytes_bit (<[i := v]> l) j = if decide (i = (j / 8)%nat) then Z.testbit v (7 - Z.of_nat (j mod 8)) else bytes_bit l j.
Proof.
  intros Hi. unfold bytes_bit. case_decide as E.
  - subst i. by rewrite list_lookup_total_insert_eq.
  - by rewrite list_lookup_total_insert_ne.
Qed.

Lemma lookup_total_u8 l i : array_ok 32 l → (i < 32)%nat → u8_ok (l !!! i).
Proof.
  intros [Hl Ho] Hi. destruct (lookup_lt_is_Some_2 l i) as [x Hx]; [lia|].
  rewrite (list_lookup_total_correct _ _ _ Hx). by eapply Forall_lookup_1.
Qed.

Lemma insert_array_ok l i v : array_ok 32 l → u8_ok v → array_ok 32 (<[i := v]> l).
Proof.
  intros [Hl Ho] Hv. split; [by rewrite length_insert|]. by apply Forall_insert.
Qed.

Lemma div8_lt j : (j < 256 → j / 8 < 32)%nat.
Proof. intros. apply Nat.Div0.div_lt_upper_bound. lia. Qed.

Lemma div_mod8_eq i j : (i / 8 = j / 8)%nat → (i mod 8 = j mod 8)%nat → i = j.
Proof. intros H1 H2. rewrite (Nat.div_mod_eq i 8), (Nat.div_mod_eq j 8). lia. Qed.

Lemma mod8_lt j : (j mod 8 < 8)%nat.
Proof. apply Nat.mod_upper_bound. lia. Qed.

Lemma copy_bit_ok local l j :
  array_ok 32 local → array_ok 32 l → (j < 256)%nat → array_ok 32 (copy_bit local l j).
Proof.
  intros Hlo Hl Hj. pose proof (div8_lt j Hj). apply insert_array_ok; [done|].
  apply u8_lor; apply u8_land; auto using lookup_total_u8, u8_not_ok, bit_mask_u8.
Qed.

Lemma copy_bit_bit local l j j' :
  array_ok 32 local → array_ok 32 l → (j < 256)%nat →
  bytes_bit (copy_bit local l j) j' = if decide (j' = j) then bytes_bit local j' else bytes_bit l j'.
Proof.
  intros Hlo Hl Hj. pose proof (div8_lt j Hj). unfold copy_bit. cbv zeta.
  rewrite bytes_bit_insert by (destruct Hl; lia). pose proof (mod8_lt j').
  destruct (decide (j / 8 = j' / 8)%nat) as [E|E].
  - rewrite Z.lor_spec, !Z.land_spec, u8_not_testbit, !bit_mask_testbit by (done || apply bit_mask_u8).
    unfold bytes_bit. rewrite <-E. case_bool_decide as Em; case_decide as Ej; subst.
    + by rewrite andb_false_r, andb_true_r.
    + destruct Ej. by apply div_mod8_eq.
    + done.
    + by rewrite andb_true_r, andb_false_r, orb_false_r.
  - rewrite decide_False; [done|]. intros ->. done.
Qed.

Lemma copy_bits local l n :
  array_ok 32 local → array_ok 32 l → (n ≤ 256)%nat →
  array_ok 32 (foldl (copy_bit local) l (seq 0 n)) ∧
  ∀ j, bytes_bit (foldl (copy_bit local) l (seq 0 n)) j
       = if decide (j < n)%nat then bytes_bit local j else bytes_bit l j.
Proof.
  intros Hlo Hl. induction n as [|n IH]; intros Hn; [done|]. destruct IH as [IHok IH]; [lia|].
  rewrite seq_S, foldl_snoc. split; [apply copy_bit_ok; (done || lia)|].
  intros j. rewrite copy_bit_bit, IH by (done || lia). simpl.
  repeat case_decide; subst; try done; lia.
Qed.

Lemma land_bit_mask_eq x y i :
  u8_ok x → u8_ok y →
  (Z.land x (bit_mask i) =? Z.land y (bit_mask i)) =
  Bool.eqb (Z.testbit x (7 - Z.of_nat (i mod 8))) (Z.testbit y (7 - Z.of_nat (i mod 8))).
Proof.
  intros Hx Hy. apply eq_true_iff_eq. rewrite Z.eqb_eq, eqb_true_iff. pose proof (mod8_lt i).
  split; intros E.
  - apply (f_equal (λ v, Z.testbit v (7 - Z.of_nat (i mod 8)))) in E.
    rewrite !Z.land_spec, bit_mask_testbit, bool_decide_true, !andb_true_r in E by done. done.
  - apply Z.bits_inj'. intros t Ht. rewrite !Z.land_spec, bit_mask_pow, Z.pow2_bits_eqb by lia.
    destruct (Z.eqb_spec (7 - Z.of_nat (i mod 8)) t) as [<-|]; [by rewrite E|]. by rewrite !andb_false_r.
Qed.

(** the id [random_id_for_bucket] makes falls into the requested bucket,
    whatever the random bytes: it shares exactly the first [i] bits with the local
    id, so the lookup of a bucket refresh is aimed at that bucket. *)
Theorem random_id_in_bucket rt random (i : nat) :
  id_ok (local_id rt) → array_ok 32 random → (i < 256)%nat →
  let r := random_id_for_bucket random rt i in
  id_ok r ∧ common_prefix_length (local_id rt) r = Z.of_nat i ∧ bucket_index rt r = i.
Proof.
  intros Hl Hr Hi. cbv zeta.
  enough (id_ok (random_id_for_bucket random rt i) ∧
    (∀ j, (j < i)%nat → id_bit (local_id rt) j = id_bit (random_id_for_bucket random rt i) j) ∧
    id_bit (local_id rt) i ≠ id_bit (random_id_for_bucket random rt i) i) as (Hok & Hlow & Hbit).
  { pose proof (cpl_from_bits _ _ i Hl Hok Hi Hlow Hbit) as Hc. split_and!; [done..|].
    unfold bucket_index. rewrite Hc. lia. }
  unfold random_id_for_bucket. rewrite (proj2 (Nat.ltb_lt i 256) Hi), Nat.min_l by lia.
  destruct (copy_bits (as_bytes (local_id rt)) random i Hl Hr) as [Hok Hbits]; [lia|].
  set (bytes := foldl _ _ _) in *. clearbody bytes. pose proof (div8_lt i Hi) as Hd. pose proof (mod8_lt i).
  rewrite land_bit_mask_eq by (by apply lookup_total_u8). fold (bytes_bit bytes i).
  change (Z.testbit (as_bytes (local_id rt) !!! (i / 8)%nat) (7 - Z.of_nat (i mod 8))) with (id_bit (local_id rt) i).
  destruct (Bool.eqb _ _) eqn:E; unfold id_bit in *; cbn [as_bytes].
  - apply eqb_prop in E. split; [|split].
    + apply insert_array_ok; [done|]. apply u8_lxor; [by apply lookup_total_u8|apply bit_mask_u8].
    + intros j Hj. rewrite bytes_bit_insert by (destruct Hok; lia). case_decide as Ej.
      * rewrite Z.lxor_spec, bit_mask_testbit by apply mod8_lt.
        rewrite bool_decide_false, xorb_false_r by (intros Em; symmetry in Ej; pose proof (div_mod8_eq j i Ej Em); lia).
        specialize (Hbits j). rewrite decide_True in Hbits by done. unfold bytes_bit in Hbits at 1.
        by rewrite <-Ej in Hbits.
      * specialize (Hbits j). by rewrite decide_True in Hbits.
    + rewrite bytes_bit_insert by (destruct Hok; lia). rewrite decide_True by reflexivity.
      rewrite Z.lxor_spec, bit_mask_testbit by apply mod8_lt. rewrite bool_decide_eq_true_2 by reflexivity.
      fold (bytes_bit bytes i). rewrite E. destruct (bytes_bit (as_bytes (local_id rt)) i); discriminate.
  - split; [done|]. split.
    + intros j Hj. specialize (Hbits j). by rewrite decide_True in Hbits.
    + intros Ec. rewrite Ec, eqb_reflx in E. done.
Qed.

Lemma random_id_in_bucket_witness :
  bucket_index (sample_table 2 [128]) (random_id_for_bucket (replicate 32 77) (sample_table 2 [128]) 11) = 11%nat.
Proof. apply random_id_in_bucket; [decide_compute|decide_compute|lia]. Defined.
