(* ===== verification/TableBounds.v ===== *)
(** * What holds of a table shared by concurrent tasks

    [Table.table_wf] is kept by every sequence of calls in which an eviction follows its
    [BucketFull] answer at once; when other tasks run in between it can lose the
    uniqueness of ids ([Table.evict_and_insert_duplicates]).  [table_bounded] is the part
    no interleaving can break: the shape of the table, the capacities, and that the
    node never stores itself. *)
From S2P Require Import Prelude.
From S2P Require Import Errors.
From S2P Require Import Bytes.
From S2P Require Import External.
From S2P Require Import Identity.
From S2P Require Import Net.
From S2P Require Import Samples.
From S2P Require Import Bucket.
From S2P Require Import Table.

Record bucket_bounded (self : NodeId) (k : nat) (b : KBucket) : Prop := {
  bb_k : b_k b = k;
  bb_max : b_max_cache_size b = k;
  bb_nodes : (length (b_nodes b) ≤ k)%nat;
  bb_cache : (length (b_replacement_cache b) ≤ k)%nat;
  bb_self : self ∉ bucket_ids b;
}.

Record table_bounded (rt : RoutingTable) : Prop := {
  tb_k : (0 < rt_k rt)%nat;
  tb_buckets : length (buckets rt) = 256%nat;
  tb_each : ∀ i b, buckets rt !! i = Some b → bucket_bounded (local_id rt) (rt_k rt) b;
}.

Section buckets.
Context (self : NodeId) (k : nat) (Hk : (0 < k)%nat).
Local Notation bounded := (bucket_bounded self k).

Lemma not_elem_subseteq (l l' : list NodeId) i : l ⊆ l' → i ∉ l' → i ∉ l.
Proof. intros Hs Hi Hin. by apply Hi, Hs. Qed.

Lemma position_vec_remove {A} (f : A → bool) l pos :
  position f l = Some pos → S (length (vec_remove pos l)) = length l.
Proof.
  intros ([i x] & (Hi & _)%list_find_Some & ->)%fmap_Some. simpl. unfold vec_remove.
  by rewrite (Permutation_length (delete_Permutation _ _ _ Hi)).
Qed.

Lemma length_update_first (f : NodeInfo → bool) g l l' : update_first f g l = Some l' → length l' = length l.
Proof.
  intros (l1 & x & l2 & -> & _ & _ & ->)%update_first_Some. by rewrite !length_app.
Qed.

Lemma bucket_insert_bounded now node b :
  ni_node_id node ≠ self → bounded b →
  ∃ b' r, bucket_insert now node b = Ok (b', r) ∧ bounded b'.
Proof.
  intros Hne [Hbk Hm Hn Hc Hs].
  assert (∃ b' r, bucket_insert now node b = Ok (b', r)) as (b' & r & E).
  { unfold bucket_insert. destruct (update_first _ _ _); [eauto|]. unfold is_full.
    destruct (b_k b <=? length (b_nodes b))%nat eqn:Ef; simpl; [|eauto].
    apply Nat.leb_le in Ef. destruct (b_nodes b); [simpl in Ef; lia|eauto]. }
  exists b', r. split; [done|].
  assert (self ∉ bucket_ids b') as Hs'.
  { intros Hin%(bucket_insert_ids _ _ _ _ _ E). apply elem_of_cons in Hin as [->|]; done. }
  revert E. unfold bucket_insert. destruct (update_first _ _ _) as [l|] eqn:Hu.
  - intros [= <- <-]. apply length_update_first in Hu. split; simpl; try done; lia.
  - destruct (is_full b) eqn:Hf; simpl.
    + destruct (b_nodes b) as [|lrs l] eqn:Hnodes; [done|]. intros [= <- <-]. split; simpl; try done.
      * by rewrite Hnodes.
      * rewrite <-Hm. apply trim_front_length.
    + intros [= <- <-]. apply Nat.leb_gt in Hf. split; simpl; try done. rewrite length_app. simpl. lia.
Qed.

Lemma bucket_remove_bounded i b : bounded b → bounded (bucket_remove i b).1.
Proof.
  intros [Hbk Hm Hn Hc Hs]. pose proof (not_elem_subseteq _ _ self (bucket_remove_ids i b) Hs) as Hs'.
  revert Hs'. unfold bucket_remove. destruct (position _ _) as [pos|] eqn:Hp; [|done].
  apply position_vec_remove in Hp. destruct (vec_pop _) as [[r c]|] eqn:Hpop; simpl; intros Hs'; split; simpl; try done; try lia.
  - rewrite length_app. simpl. lia.
  - apply vec_pop_Some in Hpop. rewrite Hpop, length_app in Hc. simpl in Hc. lia.
Qed.

Lemma bucket_record_failure_bounded i m b : bounded b → bounded (bucket_record_failure i m b).
Proof.
  intros Hb. unfold bucket_record_failure. destruct (list_find _ _) as [[? n]|]; [|done].
  set (b' := set_nodes b _).
  assert (bounded b') as Hb'.
  { destruct Hb as [Hbk Hm Hn Hc Hs]. split; simpl; try done.
    - destruct (update_first _ _ _) eqn:Hu; [|done]. simpl. by rewrite (length_update_first _ _ _ _ Hu).
    - unfold bucket_ids, b'. simpl. by rewrite ids_default_update_first. }
  case_match; [by apply bucket_remove_bounded|done].
Qed.

Lemma bucket_evict_bounded now i n b :
  ni_node_id n ≠ self → bounded b → bounded (bucket_evict_and_insert now i n b).1.
Proof.
  intros Hne [Hbk Hm Hn Hc Hs].
  assert (self ∉ bucket_ids (bucket_evict_and_insert now i n b).1) as Hs'.
  { intros Hin%bucket_evict_ids. apply elem_of_cons in Hin as [->|]; done. }
  revert Hs'. unfold bucket_evict_and_insert. destruct (position _ _) as [pos|] eqn:Hp; [|done].
  apply position_vec_remove in Hp. simpl. intros Hs'. split; simpl; try done.
  - rewrite length_app. simpl. lia.
  - etrans; [|exact Hc]. apply length_filter.
Qed.
End buckets.

Lemma on_bucket_bounded f i rt :
  table_bounded rt →
  (∀ b, bucket_bounded (local_id rt) (rt_k rt) b → bucket_bounded (local_id rt) (rt_k rt) (f b)) →
  table_bounded (on_bucket f i rt).
Proof.
  intros [Hk Hl He] Hf. split; simpl; [done|by rewrite length_alter|]. intros j b.
  destruct (decide (i = j)) as [->|Hne].
  - rewrite list_lookup_alter_eq, fmap_Some. intros (b0 & Hb & ->). by apply Hf, (He j).
  - rewrite list_lookup_alter_ne by done. apply He.
Qed.

(** An insertion never panics; a [BucketFull] answer is about another node's bucket slot. *)
Lemma table_insert_bounded now node rt :
  table_bounded rt → ∃ rt' r, table_insert now node rt = Ok (rt', r) ∧ table_bounded rt' ∧ local_id rt' = local_id rt ∧
    rt_k rt' = rt_k rt ∧ (r ≠ Updated → ni_node_id node ≠ local_id rt).
Proof.
  intros Hb. unfold table_insert. case_bool_decide as Hl; [by exists rt, Updated|].
  destruct (lookup_lt_is_Some_2 (buckets rt) (bucket_index rt (ni_node_id node))) as [b Hbk].
  { rewrite (tb_buckets _ Hb). apply bucket_index_lt. }
  rewrite Hbk. destruct (bucket_insert_bounded (local_id rt) (rt_k rt) (tb_k _ Hb) now node b Hl (tb_each _ Hb _ _ Hbk))
    as (b' & r & E & Hb'). rewrite E. simpl. exists (set_bucket rt (bucket_index rt (ni_node_id node)) b'), r.
  split_and!; try done. rewrite (set_bucket_on _ _ _ _ Hbk). apply on_bucket_bounded; [done|]. done.
Qed.

Lemma table_evict_bounded now failed node rt :
  table_bounded rt → ni_node_id node ≠ local_id rt → table_bounded (table_evict_and_insert now failed node rt).1.
Proof.
  intros Hb Hne. apply on_bucket_bounded; [done|]. intros b Hbb.
  exact (bucket_evict_bounded (local_id rt) (rt_k rt) (tb_k _ Hb) now failed node b Hne Hbb).
Qed.

Lemma table_remove_bounded id rt : table_bounded rt → table_bounded (table_remove id rt).1.
Proof. intros Hb. apply on_bucket_bounded; [done|]. intros b. apply bucket_remove_bounded. apply Hb. Qed.

Lemma table_record_failure_bounded id m rt : table_bounded rt → table_bounded (table_record_failure id m rt).
Proof. intros Hb. apply on_bucket_bounded; [done|]. intros b. apply bucket_record_failure_bounded. apply Hb. Qed.

Lemma record_failure_by_addr_bounded a m rt : table_bounded rt → table_bounded (record_failure_by_addr a m rt).
Proof.
  intros Hb. unfold record_failure_by_addr.
  destruct (record_failure_by_addr_in_cases a m (buckets rt)) as [->|(i & id & ->)]; [by destruct rt|].
  apply (on_bucket_bounded (bucket_record_failure id m) i rt Hb). intros b. apply bucket_record_failure_bounded. apply Hb.
Qed.

Lemma RoutingTable_new_bounded now local k : (0 < k)%nat → table_bounded (RoutingTable_new now local k).
Proof.
  intros Hk. split; cbn [RoutingTable_new buckets local_id rt_k]; [done|by rewrite length_replicate|].
  intros i b (-> & _)%lookup_replicate. split; simpl; try done; try lia. by intros ?%elem_of_nil.
Qed.

Lemma closest_nodes_bounded rt target count :
  table_bounded rt →
  (length (closest_nodes rt target count) ≤ count)%nat ∧
  StronglySorted (λ a b, closer target a b = true) (closest_nodes rt target count) ∧
  local_id rt ∉ ids (closest_nodes rt target count).
Proof.
  intros Hb. destruct (closest_nodes_walk rt target count) as (lo & hi & c & -> & Hlo & Hhi & Hc & _).
  split_and!.
  - rewrite length_take. lia.
  - apply StronglySorted_take, sort_by_sorted; [apply closer_total|apply closer_trans].
  - intros (n & E & Hn%take_elem%elem_of_sort_by)%list_elem_of_fmap. rewrite Hc in Hn.
    apply elem_of_range_nodes in Hn as (i & _ & Hn). unfold bucket_nodes in Hn.
    destruct (buckets rt !! i) as [b|] eqn:Hi; [|by apply elem_of_nil in Hn].
    apply (bb_self _ _ _ (tb_each _ Hb _ _ Hi)). rewrite E. apply elem_of_app. left. apply list_elem_of_fmap. eauto.
Qed.
