(* ===== verification/Lookup.v ===== *)
(** * The iterative lookup ([src/lookup/mod.rs])

    [iterative_find_node] for an arbitrary network.  One round spawns the queries
    of up to [alpha] peers and awaits their answers in the order they were spawned;
    the parallel part is the parameter [run_batch], which takes the state of the
    world and the queries of the round and gives, in that order, what each query
    ends with ([None]: the task failed or the peer did not answer).  The theorems
    hold for every [run_batch], so for every interleaving of a round. *)
From S2P Require Import Prelude.
From S2P Require Import Errors.
From S2P Require Import Bytes.
From S2P Require Import External.
From S2P Require Import Identity.
From S2P Require Import Net.
From S2P Require Import Samples.
From S2P Require Import Bucket.
From S2P Require Import Table.

Definition MAX_ROUNDS : nat := 10.

(** A query: the peer and its addresses.  An answer: the responder, its address
    and the nodes it returned. *)
Definition query : Type := NodeId * list SocketAddr.
Definition answer : Type := option (NodeId * SocketAddr * list NodeInfo).

Section lookup.
Context {W : Type} (run_batch : W → list query → W * list answer).
Context (target self_id : NodeId) (k alpha : nat).

Definition pick (queried : list NodeId) (closest : list NodeInfo) : list query :=
  (λ n, (ni_node_id n, ni_addresses n)) <$>
    take alpha (filter (λ n, ni_node_id n ∉ queried ∧ ni_addresses n ≠ []) closest).

(** One returned node: [closest.last().unwrap()] panics on an empty list. *)
Definition merge_one (acc : list NodeInfo * bool) (node : NodeInfo) : res (list NodeInfo * bool) :=
  let '(closest, improved) := acc in
  if bool_decide (ni_node_id node = self_id) then Ok acc
  else
    wanted ← (if (length closest <? k)%nat then Ok true
              else match last closest with
                   | Some l => Ok (dist_ltb (distance target (ni_node_id node)) (distance target (ni_node_id l)))
                   | None => Panic
                   end);
    if wanted && negb (existsb (has_id (ni_node_id node)) closest)
    then Ok (closest ++ [node], true) else Ok acc.

Fixpoint merge_nodes (acc : list NodeInfo * bool) (nodes : list NodeInfo) : res (list NodeInfo * bool) :=
  match nodes with
  | [] => Ok acc
  | n :: nodes => acc' ← merge_one acc n; merge_nodes acc' nodes
  end.

Fixpoint merge_answers (acc : list NodeInfo * bool) (answers : list answer) : res (list NodeInfo * bool) :=
  match answers with
  | [] => Ok acc
  | None :: answers => merge_answers acc answers
  | Some (_, _, nodes) :: answers => acc' ← merge_nodes acc nodes; merge_answers acc' answers
  end.

Fixpoint rounds (n : nat) (w : W) (queried : list NodeId) (closest : list NodeInfo)
    : res (W * list NodeInfo) :=
  match n with
  | O => Ok (w, closest)
  | S n =>
    let to_query := pick queried closest in
    match to_query with
    | [] => Ok (w, closest)
    | _ =>
      let queried := queried ++ to_query.*1 in
      let '(w, answers) := run_batch w to_query in
      '(closest, improved) ← merge_answers (closest, false) answers;
      let closest := take k (sort_by (closer target) closest) in
      if improved : bool then rounds n w queried closest else Ok (w, closest)
    end
  end.

Definition iterative_find_node (w : W) (seed_nodes : list NodeInfo) : res (W * list NodeInfo) :=
  rounds MAX_ROUNDS w [self_id] seed_nodes.

(** ** Merging *)
Lemma existsb_has_id i l : existsb (has_id i) l = true ↔ i ∈ ids l.
Proof.
  rewrite existsb_exists. unfold ids. rewrite list_elem_of_fmap. split.
  - intros (n & Hn%list_elem_of_In & Hi%has_id_true). eauto.
  - intros (n & -> & Hn). exists n. split; [by apply list_elem_of_In|]. by apply has_id_true.
Qed.

(** What merging keeps: the list only grows at its end, with new ids that are not
    the node's own, and [improved] says whether it grew. *)
Definition grown (acc acc' : list NodeInfo * bool) : Prop :=
  ∃ new, acc'.1 = acc.1 ++ new ∧ self_id ∉ ids new ∧
    (NoDup (ids acc.1) → NoDup (ids acc'.1)) ∧ (acc'.2 = true ↔ acc.2 = true ∨ new ≠ []).

Lemma grown_refl acc : grown acc acc.
Proof. exists []. rewrite app_nil_r. split_and!; try done; [by intros ?%elem_of_nil|]. tauto. Qed.

Lemma grown_trans a b c : grown a b → grown b c → grown a c.
Proof.
  intros (n1 & H1 & S1 & D1 & I1) (n2 & H2 & S2 & D2 & I2). exists (n1 ++ n2).
  rewrite H2, H1, <-app_assoc. split_and!; [done| | |].
  - rewrite ids_app, elem_of_app. tauto.
  - rewrite H1 in D2. rewrite H2, H1, <-app_assoc in D2. rewrite H1 in D1. auto.
  - rewrite I2, I1. destruct n1; simpl; [tauto|]. split; [right; done|intros; left; right; done].
Qed.

Lemma merge_one_grown acc n : acc.1 ≠ [] → ∃ acc', merge_one acc n = Ok acc' ∧ grown acc acc'.
Proof.
  destruct acc as [closest improved]. simpl. intros Hne. unfold merge_one.
  case_bool_decide as Hself; [eexists; split; [done|apply grown_refl]|].
  assert (∃ w, (if (length closest <? k)%nat then Ok true
              else match last closest with
                   | Some l => Ok (dist_ltb (distance target (ni_node_id n)) (distance target (ni_node_id l)))
                   | None => Panic
                   end) = Ok w :> res bool) as [w ->].
  { case_match; [eauto|]. destruct (last closest) eqn:E; [eauto|]. by apply last_None in E. }
  simpl. destruct (w && _) eqn:Hw; [|eexists; split; [done|apply grown_refl]].
  apply andb_true_iff in Hw as [_ Hnew%negb_true_iff].
  eexists. split; [done|]. exists [n]. split_and!; [done| | |by split; [right|]].
  - by intros ->%list_elem_of_singleton.
  - simpl. intros Hnd. rewrite ids_app. apply NoDup_app. split; [done|]. split; [|apply NoDup_singleton].
    intros i Hi Hi'. apply list_elem_of_singleton in Hi' as ->. apply existsb_has_id in Hi. congruence.
Qed.

Lemma grown_nonempty a b : grown a b → a.1 ≠ [] → b.1 ≠ [].
Proof. intros (n & -> & _). by destruct a.1. Qed.

Lemma merge_nodes_grown acc nodes : acc.1 ≠ [] → ∃ acc', merge_nodes acc nodes = Ok acc' ∧ grown acc acc'.
Proof.
  revert acc. induction nodes as [|n nodes IH]; intros acc Hne.
  { exists acc. split; [done|apply grown_refl]. }
  destruct (merge_one_grown acc n Hne) as (a1 & E1 & G1). simpl. rewrite E1. simpl.
  destruct (IH a1) as (a2 & E2 & G2); [by eapply grown_nonempty|]. exists a2. split; [done|].
  by eapply grown_trans.
Qed.

Lemma merge_answers_grown acc answers :
  acc.1 ≠ [] → ∃ acc', merge_answers acc answers = Ok acc' ∧ grown acc acc'.
Proof.
  revert acc. induction answers as [|[[[r a] nodes]|] answers IH]; intros acc Hne; simpl.
  - exists acc. split; [done|apply grown_refl].
  - destruct (merge_nodes_grown acc nodes Hne) as (a1 & E1 & G1). rewrite E1. simpl.
    destruct (IH a1) as (a2 & E2 & G2); [by eapply grown_nonempty|]. exists a2. split; [done|].
    by eapply grown_trans.
  - by apply IH.
Qed.

Lemma pick_nonempty queried closest q l : pick queried closest = q :: l → closest ≠ [].
Proof. intros H ->. unfold pick in H. rewrite filter_nil, take_nil in H. discriminate H. Qed.

Lemma elem_of_pick queried closest i addrs :
  (i, addrs) ∈ pick queried closest → i ∉ queried ∧ addrs ≠ [] ∧ i ∈ ids closest.
Proof.
  unfold pick. intros (n & [= -> ->] & Hn%take_elem)%list_elem_of_fmap.
  apply list_elem_of_filter in Hn as [[] Hn]. split_and!; try done. apply list_elem_of_fmap. eauto.
Qed.

(** ** The state of a round *)
(** Sorted, without repetition, without the node itself, at most [k]. *)
Definition lookup_wf (closest : list NodeInfo) : Prop :=
  (length closest ≤ k)%nat ∧ NoDup (ids closest) ∧ self_id ∉ ids closest ∧
  StronglySorted (λ a b, closer target a b = true) closest.

(** [l'] is no worse than [l]: a peer of [l] is kept or [k] peers at least as close replace it. *)
Definition no_worse (l l' : list NodeInfo) : Prop :=
  ∀ n, n ∈ l → n ∈ l' ∨ (length l' = k ∧ ∀ m, m ∈ l' → closer target m n = true).

Lemma ids_sort_take l : ids (take k (sort_by (closer target) l)) ⊆ ids l.
Proof.
  intros i (n & -> & Hn%take_elem%elem_of_sort_by)%list_elem_of_fmap. apply list_elem_of_fmap. eauto.
Qed.

Lemma NoDup_ids_sort_take l : NoDup (ids l) → NoDup (ids (take k (sort_by (closer target) l))).
Proof.
  intros Hl. assert (NoDup (ids (sort_by (closer target) l))) as Hnd by (unfold ids; by rewrite sort_by_perm).
  rewrite <-(take_drop k (sort_by _ l)), ids_app in Hnd. by apply NoDup_app in Hnd as [? _].
Qed.

Lemma sort_take_wf l : NoDup (ids l) → self_id ∉ ids l → lookup_wf (take k (sort_by (closer target) l)).
Proof.
  intros Hnd Hs. split_and!.
  - rewrite length_take. lia.
  - by apply NoDup_ids_sort_take.
  - intros Hi%ids_sort_take. done.
  - apply StronglySorted_take, sort_by_sorted; [apply closer_total|apply closer_trans].
Qed.

Lemma sort_take_no_worse l l' : l ⊆ l' → no_worse l (take k (sort_by (closer target) l')).
Proof.
  intros Hsub n Hn%Hsub. apply (elem_of_sort_by (closer target)) in Hn.
  rewrite <-(take_drop k (sort_by _ l')) in Hn. apply elem_of_app in Hn as [|Hn]; [by left|]. right. split.
  - rewrite length_take. destruct (decide (k ≤ length (sort_by (closer target) l'))%nat); [lia|].
    rewrite drop_ge in Hn by lia. by apply elem_of_nil in Hn.
  - intros m Hm. eapply take_sort_by_least; [apply closer_total|apply closer_trans|done..].
Qed.

Lemma no_worse_refl l : no_worse l l.
Proof. intros n Hn. by left. Qed.

Lemma no_worse_trans a b c :
  no_worse a b → no_worse b c → (length c ≤ k)%nat → NoDup (ids b) → no_worse a c.
Proof.
  intros Hab Hbc Hc Hb n Hn. destruct (Hab n Hn) as [Hin|[Hlen Hall]]; [by apply Hbc|].
  destruct (decide (Forall (λ x, x ∈ c) b)) as [Hsub|Hsub].
  - rewrite Forall_forall in Hsub. right.
    assert (b ⊆+ c) as Hs by (apply NoDup_submseteq; [by apply NoDup_ids_NoDup|done]).
    apply submseteq_length_Permutation in Hs; [|lia]. rewrite <-Hs. split; [done|].
    intros m. rewrite <-Hs. apply Hall.
  - apply not_Forall_Exists in Hsub; [|apply _]. apply Exists_exists in Hsub as (x & Hx & Hxc).
    destruct (Hbc x Hx) as [?|[Hl Hm]]; [done|]. right. split; [done|]. intros m Hmc.
    eapply closer_trans; [by apply Hm|by apply Hall].
Qed.

(** The part of [lookup_wf] that needs no uniqueness, for a table shared with other tasks. *)
Definition lookup_ok (closest : list NodeInfo) : Prop :=
  (length closest ≤ k)%nat ∧ self_id ∉ ids closest ∧ StronglySorted (λ a b, closer target a b = true) closest.

Lemma merge_round_ok closest answers :
  lookup_ok closest → closest ≠ [] →
  ∃ c1 improved, merge_answers (closest, false) answers = Ok (c1, improved) ∧
    lookup_ok (take k (sort_by (closer target) c1)).
Proof.
  intros (_ & Hs & _) Hne.
  destruct (merge_answers_grown (closest, false) answers Hne) as ([c1 improved] & E & new & Hc1 & Hself & _).
  exists c1, improved. split; [done|]. simpl in Hc1. subst c1. split_and!.
  - rewrite length_take. lia.
  - intros Hi%ids_sort_take. rewrite ids_app in Hi. apply elem_of_app in Hi as [|]; done.
  - apply StronglySorted_take, sort_by_sorted; [apply closer_total|apply closer_trans].
Qed.

Lemma rounds_spec n w queried closest :
  lookup_wf closest →
  ∃ w' r, rounds n w queried closest = Ok (w', r) ∧ lookup_wf r ∧ no_worse closest r.
Proof.
  revert w queried closest. induction n as [|n IH]; intros w queried closest Hwf.
  { exists w, closest. split_and!; [done|done|apply no_worse_refl]. }
  cbn [rounds]. destruct (pick queried closest) as [|q l] eqn:Hp.
  { exists w, closest. split_and!; [done|done|apply no_worse_refl]. }
  destruct (run_batch w (q :: l)) as [w1 answers].
  destruct (merge_answers_grown (closest, false) answers) as ([c1 improved] & -> & new & Hc1 & Hself & Hnd & _).
  { by eapply pick_nonempty. }
  simpl in *. subst c1. destruct Hwf as (Hlen & Hndc & Hs & Hsorted).
  assert (lookup_wf (take k (sort_by (closer target) (closest ++ new)))) as Hwf1.
  { apply sort_take_wf; [by apply Hnd|]. rewrite ids_app, elem_of_app. tauto. }
  assert (no_worse closest (take k (sort_by (closer target) (closest ++ new)))) as Hnw.
  { apply sort_take_no_worse. intros x Hx. apply elem_of_app. by left. }
  destruct improved; [|eauto 10].
  destruct (IH w1 (queried ++ (q :: l).*1) _ Hwf1) as (w' & r & E & Hr & Hnw'). simpl in E. rewrite E.
  exists w', r. split_and!; [done|done|]. eapply no_worse_trans; [done..| |]; [apply Hr|apply Hwf1].
Qed.
End lookup.

(** A network that records the batches it was asked. *)
Definition logged {W} (run : W → list query → W * list answer) (w : list (list query) * W) (b : list query)
    : (list (list query) * W) * list answer :=
  let '(w', r) := run w.2 b in ((w.1 ++ [b], w'), r).

(** What the log of a lookup satisfies with respect to the set of queried peers. *)
Definition batch_ok (alpha : nat) (b : list query) : Prop :=
  b ≠ [] ∧ (length b ≤ alpha)%nat ∧ Forall (λ q, q.2 ≠ []) b.

Definition log_ok (alpha : nat) (self_id : NodeId) (queried : list NodeId) (log : list (list query)) : Prop :=
  Forall (batch_ok alpha) log ∧ NoDup (concat log).*1 ∧ self_id ∉ (concat log).*1 ∧
  (∀ i, i ∈ (concat log).*1 → i ∈ queried).

Lemma pick_ids_sub alpha queried closest : NoDup (ids closest) → NoDup (pick alpha queried closest).*1.
Proof.
  intros Hnd. unfold pick. rewrite <-list_fmap_compose.
  change (fst ∘ _) with ni_node_id. eapply sublist_NoDup; [exact Hnd|].
  apply fmap_sublist. etrans; [apply sublist_take|apply sublist_filter].
Qed.

Lemma log_ok_pick alpha self_id queried closest log :
  self_id ∈ queried → NoDup (ids closest) → log_ok alpha self_id queried log →
  pick alpha queried closest ≠ [] →
  log_ok alpha self_id (queried ++ (pick alpha queried closest).*1) (log ++ [pick alpha queried closest]).
Proof.
  intros Hself Hnd (Hb & Hl & Hs & Hq) Hne.
  assert (∀ i, i ∈ (pick alpha queried closest).*1 → i ∉ queried) as Hnew.
  { intros i ([j addrs] & -> & Hi)%list_elem_of_fmap. by apply elem_of_pick in Hi as (? & _). }
  split_and!.
  - apply Forall_app. split; [done|]. apply Forall_singleton. split_and!; [done| |].
    + unfold pick. rewrite length_fmap, length_take. lia.
    + apply Forall_forall. intros [i addrs] Hi. by apply elem_of_pick in Hi as (_ & ? & _).
  - rewrite concat_app, fmap_app. simpl. rewrite app_nil_r. apply NoDup_app. split_and!; [done| |by apply pick_ids_sub].
    intros i Hi%Hq Hi'%Hnew. done.
  - rewrite concat_app, fmap_app. simpl. rewrite app_nil_r, elem_of_app. intros [?|?%Hnew]; done.
  - intros i. rewrite concat_app, fmap_app. simpl. rewrite app_nil_r, !elem_of_app. intros [?%Hq|?]; auto.
Qed.

Lemma rounds_queries {W} (run : W → list query → W * list answer) target self_id k alpha n w log queried closest w' log' r :
  self_id ∈ queried → lookup_wf target self_id k closest → log_ok alpha self_id queried log →
  rounds (logged run) target self_id k alpha n (log, w) queried closest = Ok ((log', w'), r) →
  (length log' ≤ length log + n)%nat ∧ ∃ queried', log_ok alpha self_id queried' log'.
Proof.
  revert w log queried closest. induction n as [|n IH]; intros w log queried closest Hself Hwf Hlog.
  { intros [= -> -> ->]. split; [lia|eauto]. }
  cbn [rounds]. pose proof (log_ok_pick alpha self_id queried closest log Hself (proj1 (proj2 Hwf)) Hlog) as Hstep.
  pose proof (pick_nonempty alpha queried closest) as Hpn.
  destruct (pick alpha queried closest) as [|q l].
  { intros [= -> -> ->]. split; [lia|eauto]. }
  specialize (Hstep ltac:(done)). unfold logged at 1. simpl fst; simpl snd.
  destruct (run w (q :: l)) as [w1 answers].
  destruct (merge_answers_grown target self_id k (closest, false) answers)
    as ([c1 improved] & -> & new & Hc1 & Hs1 & Hnd & _); [by eapply Hpn|].
  cbn [mbind outcome_mbind]. simpl in Hc1, Hnd. subst c1. destruct improved; cbn zeta beta iota.
  - intros H. apply IH in H as [Hl Hq]; [|by apply elem_of_app; left| |exact Hstep].
    + split; [|done]. rewrite length_app in Hl. simpl in Hl. lia.
    + apply sort_take_wf; [apply Hnd, Hwf|]. rewrite ids_app, elem_of_app. destruct Hwf as (_ & _ & ? & _). tauto.
  - intros [= <- <- <-]. rewrite length_app. simpl. split; [lia|eauto].
Qed.

(** C37: A lookup that starts from at most [k] distinct peers sorted by distance, as the
    routing table gives them, returns for every network: never panics, and its result is again
    at most [k] distinct peers in order of distance, without the node itself, and no worse than
    the seeds (a seed is still there, or [k] peers at least as close took its place). *)
Theorem iterative_find_node_result {W} (run : W → list query → W * list answer) target self_id k alpha w seeds :
  lookup_wf target self_id k seeds →
  ∃ w' r, iterative_find_node run target self_id k alpha w seeds = Ok (w', r) ∧
    lookup_wf target self_id k r ∧ no_worse target k seeds r.
Proof. apply rounds_spec. Qed.


(** The bound a returned node must beat is the distance of the element [closest.last()], which
    after a push is the node pushed last and not the farthest: with [k] = 2, a second peer that is
    closer than a member of the result is rejected because the first, closer, peer was pushed
    before it. *)
Theorem lookup_rejects_closer_node :
  let self := sample_id 200 in
  let target := sample_id 0 in
  let peer b := sample_peer (sample_id b) in
  let run (first : bool) (b : list query) :=
    (false, [if first then Some (sample_id 10, sample_addr 1, [peer 5; peer 7]) else None]) in
  iterative_find_node run target self 2 3 true [peer 10; peer 20] = Ok (false, [peer 5; peer 10]) ∧
  closer target (peer 7) (peer 10) = true ∧ closer target (peer 10) (peer 7) = false.
Proof. vm_compute. done. Qed.

Definition sample_network (w : unit) (b : list query) : unit * list answer :=
  (w, (λ q, Some (q.1, sample_addr 1, [sample_peer (sample_id 4); sample_peer (sample_id 9)])) <$> b).

Lemma sample_seeds_wf : lookup_wf (sample_id 0) (sample_id 200) 3 [sample_peer (sample_id 10); sample_peer (sample_id 20)].
Proof.
  split_and!; [simpl; lia|by decide_compute|by decide_compute|].
  repeat constructor.
Qed.

Lemma iterative_find_node_result_witness :
  ∃ w' r, iterative_find_node sample_network (sample_id 0) (sample_id 200) 3 2 tt [sample_peer (sample_id 10); sample_peer (sample_id 20)]
    = Ok (w', r) ∧ length r = 3%nat.
Proof.
  destruct (iterative_find_node_result sample_network (sample_id 0) (sample_id 200) 3 2 tt
    [sample_peer (sample_id 10); sample_peer (sample_id 20)] sample_seeds_wf) as (w' & r & E & _).
  exists w', r. split; [exact E|]. revert E. vm_compute. by intros [= <- <-].
Defined.

