(* ===== verification/Erasure.v ===== *)
(** * Erasure coding ([src/erasure/mod.rs])

    Splitting data into padded shards and blocks around the Reed-Solomon codec,
    which is the class [ReedSolomon]; its maximum-distance property is
    [ReedSolomonLaws].  [oc] says whether the build has overflow checks (the
    profiles of [Cargo.toml] set none, so debug builds have them and release
    builds wrap).  The index products of [encode] and [encode_blocks] are below
    the data length plus one block and are kept in [nat]. *)
From stdpp Require Import pretty.
From S2P Require Import Prelude.
From S2P Require Import Errors.
From S2P Require Import Bytes.
From S2P Require Import External.
From S2P Require Import Samples.

Definition DEFAULT_BLOCK_SIZE : nat := Z.to_nat (256 * 1024).

Record ErasureConfig := mkConfig { data_shards : Z; parity_shards : Z }.
#[export] Instance ErasureConfig_eq_dec : EqDecision ErasureConfig.
Proof. solve_decision. Defined.

Record EncodedTessera := mkEncoded {
  et_chunks : list (list Z);
  et_chunk_hashes : list (list Z);
  et_config : ErasureConfig;
  et_original_len : nat;
}.
Record EncodedBlocks := mkBlocks {
  eb_blocks : list EncodedTessera;
  eb_block_size : nat;
  eb_original_len : nat;
}.

Definition ErasureConfig_default : ErasureConfig := mkConfig 10 4.

Definition total_shards (oc : bool) (c : ErasureConfig) : res Z :=
  usize_arith oc (data_shards c + parity_shards c).

Definition ErasureConfig_new (oc : bool) (d p : Z) : res ErasureConfig :=
  if d =? 0 then Err (ErasureCoding "data_shards must be >= 1")
  else if p =? 0 then Err (ErasureCoding "parity_shards must be >= 1")
  else
    total ← usize_arith oc (d + p);
    if 256 <? total then
      Err (ErasureCoding ("total shards " +:+ pretty total +:+ " exceeds GF(2^8) limit of 256"))
    else Ok (mkConfig d p).

(** [&data[start..end]] copied and [resize]d to the shard size. *)
Definition slice (data : list Z) (size i : nat) : list Z :=
  let start := (i * size)%nat in
  let end_ := Nat.min ((i + 1) * size) (length data) in
  if (start <? length data)%nat then take (end_ - start) (drop start data) else [].
Definition data_shard (data : list Z) (shard_size i : nat) : list Z :=
  resize shard_size 0 (slice data shard_size i).

Definition rs_error (what msg : string) : TesseraError := ErasureCoding (what +:+ ": " +:+ msg).
Definition rs_result {A} (what : string) (r : string + A) : res A :=
  match r with inl msg => Err (rs_error what msg) | inr a => Ok a end.

Section erasure.
Context `{Sha256} `{ReedSolomon} (oc : bool).

Definition encode (data : list Z) (c : ErasureConfig) : res EncodedTessera :=
  match rs_new (data_shards c) (parity_shards c) with
  | Some msg => Err (rs_error "init" msg)
  | None =>
    shard_size ← div_ceil (length data) (Z.to_nat (data_shards c));
    _ ← total_shards oc c;
    let shards :=
      (data_shard data shard_size <$> seq 0 (Z.to_nat (data_shards c))) ++
      replicate (Z.to_nat (parity_shards c)) (replicate shard_size 0) in
    shards ← rs_result "encode" (rs_encode (data_shards c) (parity_shards c) shards);
    Ok (mkEncoded shards (sha256 <$> shards) c (length data))
  end.

Definition decode (shards : list (option (list Z))) (c : ErasureConfig) (original_len : Z) : res (list Z) :=
  total ← total_shards oc c;
  if negb (Z.of_nat (length shards) =? total) then
    Err (ErasureCoding ("expected " +:+ pretty total +:+ " shards, got " +:+ pretty (length shards)))
  else
  let present := length (filter is_Some shards) in
  if Z.of_nat present <? data_shards c then Err (InsufficientChunks (data_shards c) (Z.of_nat present))
  else
  match rs_new (data_shards c) (parity_shards c) with
  | Some msg => Err (rs_error "init" msg)
  | None =>
    shards ← rs_result "reconstruct" (rs_reconstruct (data_shards c) (parity_shards c) shards);
    _ ← with_capacity original_len;
    Ok (vec_truncate original_len (concat (omap id (take (Z.to_nat (data_shards c)) shards))))
  end.

Definition encode_blocks (data : list Z) (c : ErasureConfig) (block_size : nat) : res EncodedBlocks :=
  num_blocks ← (if (length data =? 0)%nat then Ok 1%nat else div_ceil (length data) block_size);
  blocks ← mapM_outcome (λ i, encode (slice data block_size i) c) (seq 0 num_blocks);
  Ok (mkBlocks blocks block_size (length data)).

Definition decode_block (c : ErasureConfig) (block_size original_len : Z) (num_blocks : nat)
    (i : nat) (shards : list (option (list Z))) : res (list Z) :=
  block_original_len ←
    (if (i =? num_blocks - 1)%nat then
       before ← usize_arith oc ((Z.of_nat num_blocks - 1) * block_size);
       usize_arith oc (original_len - before)
     else Ok block_size);
  decode shards c block_original_len.

Definition decode_blocks (block_shards : list (list (option (list Z)))) (c : ErasureConfig)
    (block_size original_len : Z) : res (list Z) :=
  _ ← with_capacity original_len;
  parts ← mapM_outcome (λ '(i, shards), decode_block c block_size original_len (length block_shards) i shards)
    (zip (seq 0 (length block_shards)) block_shards);
  Ok (concat parts).
End erasure.

(** ** Splitting and joining *)
Lemma div_ceil_bounds n m s : div_ceil (E := TesseraError) n m = Ok s → (n ≤ m * s)%nat ∧ (m * s < n + m)%nat.
Proof.
  unfold div_ceil. destruct m as [|m]; [done|].
  pose proof (Nat.div_mod_eq (n + S m - 1) (S m)).
  pose proof (Nat.mod_upper_bound (n + S m - 1) (S m) ltac:(lia)).
  set (q := ((n + S m - 1) / S m)%nat) in *. intros [= <-]. lia.
Qed.

Lemma slice_take_drop data size i : slice data size i = take size (drop (i * size) data).
Proof.
  unfold slice. case_match eqn:E.
  - apply Nat.ltb_lt in E. destruct (decide ((i + 1) * size ≤ length data)%nat).
    + f_equal. lia.
    + rewrite !take_ge; [done| |]; rewrite length_drop; lia.
  - apply Nat.ltb_ge in E. rewrite drop_ge by done. by rewrite take_nil.
Qed.

Lemma concat_slices data size n :
  concat (slice data size <$> seq 0 n) = take (n * size) data.
Proof.
  induction n as [|n IH]; [done|].
  rewrite seq_S, fmap_app, concat_app, IH, Nat.add_0_l. simpl. rewrite app_nil_r, slice_take_drop.
  rewrite take_take_drop. f_equal. lia.
Qed.

Lemma data_shard_slice data m size i :
  (length data ≤ m * size)%nat → (i < m)%nat →
  data_shard data size i = slice (data ++ replicate (m * size) 0) size i.
Proof.
  intros Hlen Hi. unfold data_shard. rewrite !slice_take_drop.
  assert ((i + 1) * size ≤ m * size)%nat by (apply Nat.mul_le_mono_r; lia).
  rewrite resize_spec, drop_app, take_app. f_equal.
  - by rewrite take_take, Nat.min_id.
  - rewrite length_take, length_drop, drop_replicate, take_replicate. f_equal. lia.
Qed.

Lemma length_data_shard data size i : length (data_shard data size i) = size.
Proof. apply length_resize. Qed.

Lemma concat_data_shards data m size :
  (length data ≤ m * size)%nat →
  concat (data_shard data size <$> seq 0 m) = take (m * size) (data ++ replicate (m * size) 0).
Proof.
  intros Hlen. rewrite <-concat_slices. f_equal. apply list_fmap_ext. intros j i Hi.
  apply lookup_seq in Hi as [-> ?]. by apply data_shard_slice.
Qed.

Lemma vec_truncate_pad data k n :
  (length data ≤ k)%nat → vec_truncate (Z.of_nat (length data)) (take k (data ++ replicate n 0)) = data.
Proof.
  intros Hk. unfold vec_truncate. case_match; bool_prop.
  - rewrite length_take, length_app, length_replicate in *. rewrite take_app_ge by lia.
    destruct (decide (n = 0)%nat) as [->|]; [simpl; by rewrite take_nil, app_nil_r|].
    assert (k - length data = 0)%nat as -> by lia. by rewrite take_0, app_nil_r.
  - rewrite Nat2Z.id, take_take. rewrite (Nat.min_l (length data) k) by lia. by rewrite take_app_length.
Qed.

(** ** Round trips *)
Lemma omap_fmap_Some {A} (l : list A) : omap id (Some <$> l) = l.
Proof. induction l; simpl; by f_equal. Qed.

Lemma present_filter {A} (l : list (option A)) : length (filter is_Some l) = present l.
Proof.
  induction l as [|[a|] l IH]; [done| |].
  - rewrite filter_cons_True by eauto. unfold present in *. simpl. by rewrite IH.
  - rewrite filter_cons_False by (by intros []). exact IH.
Qed.

(** What [ErasureConfig::new] lets through when [d + p] does not overflow. *)
Definition config_ok (d p : nat) : Prop := (0 < d)%nat ∧ (0 < p)%nat ∧ (d + p ≤ 256)%nat.

Lemma total_shards_ok oc d p :
  config_ok d p → total_shards oc (mkConfig (Z.of_nat d) (Z.of_nat p)) = Ok (Z.of_nat (d + p)).
Proof.
  intros (? & ? & ?). unfold total_shards. simpl.
  rewrite usize_arith_ok by (unfold usize_max; lia). f_equal. lia.
Qed.

Section roundtrip.
Context `{Sha256} `{RS : ReedSolomon} (oc : bool) (d p : nat) `{!ReedSolomonLaws d p}.
Context (Hc : config_ok d p).
Notation c := (mkConfig (Z.of_nat d) (Z.of_nat p)).

Lemma encode_ok data :
  data ≠ [] →
  ∃ input word size, encode oc data c = Ok (mkEncoded word (sha256 <$> word) c (length data)) ∧
    rs_encode (Z.of_nat d) (Z.of_nat p) input = inr word ∧ length word = (d + p)%nat ∧
    (length data ≤ d * size)%nat ∧ take d word = data_shard data size <$> seq 0 d ∧ Forall (λ x, x ≠ []) word.
Proof.
  intros Hne. destruct Hc as (Hd & Hp & _). unfold encode. simpl data_shards. simpl parity_shards.
  rewrite rs_new_ok, !Nat2Z.id.
  destruct (div_ceil (E := TesseraError) (length data) d) as [size|e|] eqn:Es;
    [|unfold div_ceil in Es; by destruct d|unfold div_ceil in Es; destruct d; [lia|done]].
  pose proof (div_ceil_bounds _ _ _ Es) as [Hle Hlt].
  cbn [mbind outcome_mbind]. rewrite (total_shards_ok oc d p Hc). cbn [mbind outcome_mbind].
  set (input := _ ++ _).
  assert (length (data_shard data size <$> seq 0 d) = d) as Hl by by rewrite length_fmap, length_seq.
  assert (0 < length data)%nat by (destruct data; [done|simpl; lia]).
  destruct (rs_encode_ok (d := d) (p := p) size input) as (word & Hw & Hlen & Hsize & Ht).
  - unfold input. by rewrite length_app, Hl, length_replicate.
  - destruct size; lia.
  - unfold input. apply Forall_app. split; [|apply Forall_replicate, length_replicate].
    apply Forall_fmap, Forall_forall. intros i _. apply length_data_shard.
  - exists input, word, size. rewrite Hw. split_and!; [done|done|done|done| |].
    2:{ eapply Forall_impl; [exact Hsize|]. intros x Hx ->. cbn in Hx. destruct size; lia. }
    rewrite Ht. unfold input. by rewrite take_app_length' by done.
Qed.

Lemma decode_ok input word lost data size :
  rs_encode (Z.of_nat d) (Z.of_nat p) input = inr word → length word = (d + p)%nat →
  (length data ≤ d * size)%nat → take d word = data_shard data size <$> seq 0 d →
  Z.of_nat (length data) ≤ isize_max →
  survives word lost → (d ≤ present lost)%nat →
  decode oc lost c (Z.of_nat (length data)) = Ok data.
Proof.
  intros Hw Hlen Hsize Ht Hmax Hs Hp. unfold decode. rewrite total_shards_ok by done. cbn [mbind outcome_mbind].
  rewrite (proj2 (Z.eqb_eq _ _)) by (by rewrite <-(Forall2_length _ _ _ Hs), Hlen). cbn [negb].
  rewrite present_filter. simpl data_shards. simpl parity_shards. rewrite (proj2 (Z.ltb_ge _ _)) by lia.
  rewrite rs_new_ok, (rs_reconstruct_ok (d := d) (p := p) _ _ _ Hw Hs Hp). simpl.
  unfold with_capacity. rewrite (proj2 (Z.leb_le _ _)) by done. simpl.
  rewrite Nat2Z.id, <-fmap_take, omap_fmap_Some, Ht, concat_data_shards by done. by rewrite vec_truncate_pad.
Qed.
End roundtrip.

(** Encoding non-empty data under a valid configuration always succeeds, with [d + p] shards and
    their digests, and from any [d] of the shards, whichever the lost ones are, [decode] gives
    the data back byte for byte (padding stripped). *)
Theorem decode_encode `{Sha256} `{ReedSolomon} oc d p `{!ReedSolomonLaws d p} data :
  config_ok d p → data ≠ [] → Z.of_nat (length data) ≤ isize_max →
  ∃ e, encode oc data (mkConfig (Z.of_nat d) (Z.of_nat p)) = Ok e ∧
    length (et_chunks e) = (d + p)%nat ∧ et_chunk_hashes e = sha256 <$> et_chunks e ∧
    ∀ lost, survives (et_chunks e) lost → (d ≤ present lost)%nat →
      decode oc lost (mkConfig (Z.of_nat d) (Z.of_nat p)) (Z.of_nat (et_original_len e)) = Ok data.
Proof.
  intros Hc Hne Hmax. destruct (encode_ok oc d p Hc data Hne) as (input & word & size & E & Hw & Hl & Hs & Ht & _).
  eexists. split; [exact E|]. simpl. split_and!; [done|done|]. intros lost ? ?. by eapply decode_ok.
Qed.

Section block_roundtrip.
Context `{Sha256} `{RS : ReedSolomon} (oc : bool) (d p : nat) `{!ReedSolomonLaws d p}.
Context (Hc : config_ok d p).
Notation c := (mkConfig (Z.of_nat d) (Z.of_nat p)).

Lemma decode_encoded data e lost :
  data ≠ [] → Z.of_nat (length data) ≤ isize_max → encode oc data c = Ok e →
  survives (et_chunks e) lost → (d ≤ present lost)%nat →
  decode oc lost c (Z.of_nat (length data)) = Ok data.
Proof.
  intros Hne Hmax He. destruct (encode_ok oc d p Hc data Hne) as (input & word & size & E & Hw & Hl & Hs & Ht & _).
  rewrite E in He. injection He as <-. simpl. intros ? ?. by eapply decode_ok.
Qed.

(** Whatever remains: the data, or the number of shards left. *)
Lemma decode_survive data e lost :
  data ≠ [] → Z.of_nat (length data) ≤ isize_max → encode oc data c = Ok e → survives (et_chunks e) lost →
  decode oc lost c (Z.of_nat (length data)) =
    if decide (d ≤ present lost)%nat then Ok data else Err (InsufficientChunks (Z.of_nat d) (Z.of_nat (present lost))).
Proof.
  intros Hne Hmax He Hs. destruct (decide _) as [Hp|Hp]; [by eapply decode_encoded|].
  destruct (encode_ok oc d p Hc _ Hne) as (input & word & size & E & _ & Hw & _). rewrite E in He. injection He as <-.
  unfold decode. rewrite total_shards_ok by done. cbn [mbind outcome_mbind].
  rewrite (proj2 (Z.eqb_eq _ _)) by (by rewrite <-(Forall2_length _ _ _ Hs); simpl; rewrite Hw). cbn [negb].
  rewrite present_filter. simpl data_shards. by rewrite (proj2 (Z.ltb_lt _ _)) by lia.
Qed.

(** The blocks of the data: all of [bs] bytes but the last one. *)
Lemma slice_length data bs nb i :
  div_ceil (E := TesseraError) (length data) bs = Ok nb → (i < nb)%nat →
  length (slice data bs i) = (if (i =? nb - 1)%nat then length data - (nb - 1) * bs else bs)%nat ∧
  slice data bs i ≠ [].
Proof.
  intros [Hle Hlt]%div_ceil_bounds Hi.
  assert (i * bs ≤ (nb - 1) * bs)%nat by (apply Nat.mul_le_mono_r; lia).
  assert ((nb - 1) * bs < length data)%nat by (destruct nb; lia).
  assert (length (slice data bs i) = (if (i =? nb - 1)%nat then length data - (nb - 1) * bs else bs)%nat) as Hl.
  { rewrite slice_take_drop, length_take, length_drop. case_match eqn:E.
    - apply Nat.eqb_eq in E as ->. destruct nb; lia.
    - apply Nat.eqb_neq in E. assert ((i + 1) * bs ≤ (nb - 1) * bs)%nat by (apply Nat.mul_le_mono_r; lia). lia. }
  split; [done|]. intros Hnil. rewrite Hnil in Hl. simpl in Hl. destruct (i =? nb - 1)%nat; [lia|].
  subst bs. lia.
Qed.

Lemma encode_blocks_ok data bs :
  (0 < bs)%nat → data ≠ [] →
  ∃ nb bl, div_ceil (E := TesseraError) (length data) bs = Ok nb ∧
    encode_blocks oc data c bs = Ok (mkBlocks bl bs (length data)) ∧
    Forall2 (λ i e, encode oc (slice data bs i) c = Ok e) (seq 0 nb) bl.
Proof.
  intros Hbs Hne. unfold encode_blocks. rewrite (proj2 (Nat.eqb_neq (length data) 0)) by (by destruct data).
  destruct (div_ceil (E := TesseraError) (length data) bs) as [nb|e|] eqn:En;
    [|unfold div_ceil in En; by destruct bs|unfold div_ceil in En; destruct bs; [lia|done]].
  destruct (mapM_outcome_total (λ i, encode oc (slice data bs i) c) (seq 0 nb)) as [bl Hbl].
  { intros i Hi%elem_of_seq. destruct (slice_length data bs nb i En) as [_ Hs]; [lia|].
    destruct (encode_ok oc d p Hc _ Hs) as (? & ? & ? & ? & _). eauto. }
  exists nb, bl. split; [done|]. simpl. rewrite Hbl. split; [done|]. by apply mapM_outcome_Ok.
Qed.

(** The outcome for one block whose intact shards are [lost]. *)
Lemma decode_block_survive data bs nb i e lost :
  div_ceil (length data) bs = Ok nb :> res nat → (i < nb)%nat → Z.of_nat (length data) ≤ isize_max →
  encode oc (slice data bs i) c = Ok e → survives (et_chunks e) lost →
  decode_block oc c (Z.of_nat bs) (Z.of_nat (length data)) nb i lost =
    if decide (d ≤ present lost)%nat then Ok (slice data bs i)
    else Err (InsufficientChunks (Z.of_nat d) (Z.of_nat (present lost))).
Proof.
  intros Hnb Hi Hmax He Hs. destruct (slice_length data bs nb i Hnb Hi) as [Hl Hne].
  assert ((nb - 1) * bs < length data)%nat by (apply div_ceil_bounds in Hnb as []; destruct nb; lia).
  assert (length (slice data bs i) ≤ length data)%nat by (rewrite slice_take_drop, length_take, length_drop; lia).
  assert ((if (i =? nb - 1)%nat then
       before ← usize_arith oc ((Z.of_nat nb - 1) * Z.of_nat bs);
       usize_arith oc (Z.of_nat (length data) - before)
     else Ok (Z.of_nat bs)) = Ok (Z.of_nat (length (slice data bs i))) :> res Z) as Hlen.
  { rewrite Hl. destruct (i =? nb - 1)%nat; [|done].
    assert ((Z.of_nat nb - 1) * Z.of_nat bs = Z.of_nat ((nb - 1) * bs)) as -> by nia.
    rewrite usize_arith_ok by (unfold isize_max, usize_max in *; lia). simpl.
    rewrite usize_arith_ok by (unfold isize_max, usize_max in *; lia). f_equal. lia. }
  unfold decode_block. rewrite Hlen. cbn [mbind outcome_mbind]. eapply decode_survive; [done|lia|done..].
Qed.

(** The outcome for all blocks: the data, or the shortage of some block. *)
Lemma decode_blocks_survive data bs nb bl lost :
  (0 < bs)%nat → Z.of_nat (length data) ≤ isize_max → div_ceil (length data) bs = Ok nb :> res nat →
  Forall2 (λ i e, encode oc (slice data bs i) c = Ok e) (seq 0 nb) bl →
  Forall2 (λ e l, survives (et_chunks e) l) bl lost →
  decode_blocks oc lost c (Z.of_nat bs) (Z.of_nat (length data)) = Ok data ∨
  ∃ e, decode_blocks oc lost c (Z.of_nat bs) (Z.of_nat (length data)) = Err e ∧
    ∃ l, l ∈ lost ∧ (present l < d)%nat ∧ e = InsufficientChunks (Z.of_nat d) (Z.of_nat (present l)).
Proof.
  intros Hbs Hmax Hnb Hall Hlost. unfold decode_blocks, with_capacity.
  rewrite (proj2 (Z.leb_le _ _)) by done. cbn [mbind outcome_mbind].
  pose proof (Forall2_length _ _ _ Hall) as L1. pose proof (Forall2_length _ _ _ Hlost) as L2. rewrite length_seq in L1.
  destruct (mapM_outcome_either (λ '(i, shards), decode_block oc c (Z.of_nat bs) (Z.of_nat (length data)) (length lost) i shards)
    (λ e, ∃ l, l ∈ lost ∧ (present l < d)%nat ∧ e = InsufficientChunks (Z.of_nat d) (Z.of_nat (present l)))
    (zip (seq 0 (length lost)) lost) (slice data bs <$> seq 0 nb)) as [->|(e & -> & He)].
  - rewrite <-L2, <-L1. apply Forall2_fmap_r, Forall2_same_length_lookup.
    split; [rewrite length_zip_with, !length_seq; lia|].
    intros i [j l] j' Hz Hj'. apply lookup_zip_with_Some in Hz as (j1 & l1 & [= <- <-] & Hj & Hl).
    rewrite Hj in Hj'. injection Hj' as <-. apply lookup_seq in Hj as [-> Hi]. simpl in *.
    assert (seq 0 nb !! i = Some i) as Hsq by (apply lookup_seq; lia).
    destruct (Forall2_lookup_l _ _ _ _ _ Hall Hsq) as (e & He & Henc).
    destruct (Forall2_lookup_l _ _ _ _ _ Hlost He) as (l' & Hl' & Hs). rewrite Hl in Hl'. injection Hl' as <-.
    rewrite (decode_block_survive data bs nb i e l) by done. destruct (decide _); [by left|right].
    eexists. split; [done|]. exists l. split_and!; [by eapply list_elem_of_lookup_2|lia|done].
  - left. simpl. rewrite concat_slices, take_ge; [done|]. apply div_ceil_bounds in Hnb as []. lia.
  - right. exists e. done.
Qed.
End block_roundtrip.

(** C39: Data of any positive length split into blocks, each encoded on its own, is given back by
    [decode_blocks] from any [d] shards of every block, also when the last block is shorter than
    the others; neither direction panics. *)
Theorem decode_blocks_encode_blocks `{Sha256} `{ReedSolomon} oc d p `{!ReedSolomonLaws d p} data bs :
  config_ok d p → data ≠ [] → (0 < bs)%nat → Z.of_nat (length data) ≤ isize_max →
  ∃ e, encode_blocks oc data (mkConfig (Z.of_nat d) (Z.of_nat p)) bs = Ok e ∧
    ∀ lost, Forall2 (λ e l, survives (et_chunks e) l ∧ (d ≤ present l)%nat) (eb_blocks e) lost →
      decode_blocks oc lost (mkConfig (Z.of_nat d) (Z.of_nat p)) (Z.of_nat (eb_block_size e))
        (Z.of_nat (eb_original_len e)) = Ok data.
Proof.
  intros Hc Hne Hbs Hmax. destruct (encode_blocks_ok oc d p Hc data bs Hbs Hne) as (nb & bl & Hnb & E & Hall).
  eexists. split; [exact E|]. cbn [eb_blocks eb_block_size eb_original_len]. intros lost Hlost.
  destruct (decode_blocks_survive oc d p Hc data bs nb bl lost) as [|(e & _ & l & Hl & Hp & _)]; try done.
  - eapply Forall2_impl; [exact Hlost|]. naive_solver.
  - apply list_elem_of_lookup in Hl as [i Hl]. destruct (Forall2_lookup_r _ _ _ _ _ Hlost Hl) as (? & _ & _ & ?). lia.
Qed.

(** Empty data cannot be stored: although [encode_blocks] plans one (empty) block for it, the
    codec refuses shards of length zero, so both encoders end with an erasure-coding error. *)
Theorem encode_empty_fails `{Sha256} `{ReedSolomon} oc d p `{!ReedSolomonLaws d p} bs :
  config_ok d p →
  ∃ msg, encode oc [] (mkConfig (Z.of_nat d) (Z.of_nat p)) = Err (rs_error "encode" msg) ∧
    encode_blocks oc [] (mkConfig (Z.of_nat d) (Z.of_nat p)) bs = Err (rs_error "encode" msg).
Proof.
  intros Hc. assert (∃ msg, encode oc [] (mkConfig (Z.of_nat d) (Z.of_nat p)) = Err (rs_error "encode" msg)) as [msg E].
  { unfold encode. simpl data_shards. simpl parity_shards. rewrite rs_new_ok, !Nat2Z.id.
    assert (div_ceil (length (@nil Z)) d = Ok 0%nat :> res nat) as ->.
    { destruct Hc as [Hd _]. unfold div_ceil. destruct d; [lia|]. f_equal. apply Nat.div_small. simpl. lia. }
    cbn [mbind outcome_mbind]. rewrite total_shards_ok by done. cbn [mbind outcome_mbind].
    destruct (rs_encode_empty (d := d) (p := p)
      ((data_shard [] 0 <$> seq 0 d) ++ replicate p (replicate 0 0))) as [msg ->]; [| |by exists msg].
    - by rewrite length_app, length_fmap, length_seq, length_replicate.
    - apply Forall_app. split; [|by apply Forall_replicate]. apply Forall_fmap, Forall_forall.
      intros i _. by apply length_zero_iff_nil, length_data_shard. }
  exists msg. split; [done|]. unfold encode_blocks. cbn [length Nat.eqb mbind outcome_mbind seq mapM_outcome].
  by rewrite slice_take_drop, drop_nil, take_nil, E.
Qed.

(** As long as [data_shards + parity_shards] is in range of [usize], [ErasureConfig::new] accepts
    exactly the configurations of the GF(2^8) codec and never panics. *)
Theorem ErasureConfig_new_spec oc d p :
  0 ≤ d → 0 ≤ p → d + p ≤ usize_max →
  (∀ c, ErasureConfig_new oc d p = Ok c ↔ c = mkConfig d p ∧ 1 ≤ d ∧ 1 ≤ p ∧ d + p ≤ 256) ∧
  ErasureConfig_new oc d p ≠ Panic.
Proof.
  intros Hd Hp Hs. unfold ErasureConfig_new. rewrite usize_arith_ok by lia. simpl.
  destruct (d =? 0) eqn:E1; bool_prop; [split; [split; [done|intros (_ & ? & _); lia]|done]|].
  destruct (p =? 0) eqn:E2; bool_prop; [split; [split; [done|intros (_ & _ & ? & _); lia]|done]|].
  destruct (256 <? d + p) eqn:E3; bool_prop.
  - split; [|done]. split; [done|intros (_ & _ & _ & ?); lia].
  - split; [|done]. split; [intros [= <-]; split_and!; [done|lia..]|by intros (-> & _)].
Qed.

(** The check of [ErasureConfig::new] adds the two counts before it compares: counts near
    [usize::MAX], which a fetched manifest can carry, panic in a build with overflow checks and
    wrap past the limit in one without, where the accepted configuration has no shards at all. *)
Theorem ErasureConfig_new_overflow :
  ErasureConfig_new true (2 ^ 64 - 2) 2 = Panic ∧
  ErasureConfig_new false (2 ^ 64 - 2) 2 = Ok (mkConfig (2 ^ 64 - 2) 2) ∧
  total_shards false (mkConfig (2 ^ 64 - 2) 2) = Ok 0.
Proof. by vm_compute. Qed.

Lemma decode_capacity_panics `{Sha256} `{ReedSolomon} oc d p `{!ReedSolomonLaws d p} data e lost len :
  config_ok d p → data ≠ [] → encode oc data (mkConfig (Z.of_nat d) (Z.of_nat p)) = Ok e →
  survives (et_chunks e) lost → (d ≤ present lost)%nat → isize_max < len →
  decode oc lost (mkConfig (Z.of_nat d) (Z.of_nat p)) len = Panic.
Proof.
  intros Hc Hne He Hs Hp Hlen. destruct (encode_ok oc d p Hc data Hne) as (input & word & size & E & Hw & Hl & _ & _).
  rewrite E in He. injection He as <-. simpl in Hs. unfold decode. rewrite total_shards_ok by done.
  cbn [mbind outcome_mbind]. rewrite (proj2 (Z.eqb_eq _ _)) by (by rewrite <-(Forall2_length _ _ _ Hs), Hl).
  cbn [negb]. rewrite present_filter. simpl data_shards. simpl parity_shards.
  rewrite (proj2 (Z.ltb_ge _ _)) by lia. rewrite rs_new_ok, (rs_reconstruct_ok (d := d) (p := p) _ _ _ Hw Hs Hp).
  simpl. unfold with_capacity. by rewrite (proj2 (Z.leb_gt _ _)).
Qed.

(** [decode_blocks] trusts the length it is given: with two decodable blocks of [block_size]
    bytes and a claimed length below [block_size], as a fetched manifest can carry, it panics in
    every build: the subtraction overflows when checked, and when it wraps the reservation of
    nearly [2^64] bytes exceeds the capacity limit. *)
Theorem decode_blocks_short_length_panics `{Sha256} `{ReedSolomon} oc d p `{!ReedSolomonLaws d p}
    data0 data1 e0 e1 lost0 lost1 claimed :
  config_ok d p → data0 ≠ [] → data1 ≠ [] → Z.of_nat (length data0) ≤ isize_max →
  encode oc data0 (mkConfig (Z.of_nat d) (Z.of_nat p)) = Ok e0 →
  encode oc data1 (mkConfig (Z.of_nat d) (Z.of_nat p)) = Ok e1 →
  survives (et_chunks e0) lost0 → (d ≤ present lost0)%nat →
  survives (et_chunks e1) lost1 → (d ≤ present lost1)%nat →
  0 ≤ claimed < Z.of_nat (length data0) →
  decode_blocks oc [lost0; lost1] (mkConfig (Z.of_nat d) (Z.of_nat p)) (Z.of_nat (length data0)) claimed = Panic.
Proof.
  intros Hc Hn0 Hn1 Hmax E0 E1 S0 P0 S1 P1 Hcl. unfold decode_blocks, with_capacity.
  rewrite (proj2 (Z.leb_le _ _)) by lia. cbn [mbind outcome_mbind length seq zip zip_with mapM_outcome].
  assert (decode_block oc (mkConfig (Z.of_nat d) (Z.of_nat p)) (Z.of_nat (length data0)) claimed 2 0 lost0 = Ok data0) as ->.
  { unfold decode_block. cbn -[decode]. by eapply decode_encoded. }
  assert (decode_block oc (mkConfig (Z.of_nat d) (Z.of_nat p)) (Z.of_nat (length data0)) claimed 2 1 lost1 = Panic) as ->; [|done].
  unfold decode_block. change (1 =? 2 - 1)%nat with true. cbv iota. change (Z.of_nat 2 - 1) with 1. rewrite Z.mul_1_l.
  rewrite usize_arith_ok by (unfold isize_max, usize_max in *; lia). cbn [mbind outcome_mbind].
  unfold usize_arith. rewrite (proj2 (Z.leb_gt 0 _)) by lia. cbn [andb]. destruct oc; [done|]. cbn [mbind outcome_mbind].
  eapply decode_capacity_panics; [done..|]. unfold wrap, isize_max in *.
  rewrite <-(Z.mod_unique_pos (claimed - Z.of_nat (length data0)) (2 ^ 64) (-1) (2 ^ 64 + claimed - Z.of_nat (length data0))); lia.
Qed.

(** ** A concrete code: two data shards and their XOR *)
Definition xor_shards (a b : list Z) : list Z := zip_with Z.lxor a b.

#[export] Instance toy_rs : ReedSolomon := {|
  rs_new d p := if bool_decide (1 ≤ d ∧ 1 ≤ p ∧ d + p ≤ 256) then None else Some "invalid shard counts";
  rs_encode d p shards :=
    match shards with
    | [a; b; _] => if bool_decide (length a = 0%nat ∨ length a ≠ length b) then inl "empty shard" else inr [a; b; xor_shards a b]
    | _ => inl "unsupported"
    end;
  rs_reconstruct d p shards :=
    match shards with
    | [Some a; Some b; _] => inr [Some a; Some b; Some (xor_shards a b)]
    | [Some a; None; Some c] => inr [Some a; Some (xor_shards a c); Some c]
    | [None; Some b; Some c] => inr [Some (xor_shards b c); Some b; Some c]
    | _ => inl "too few shards"
    end |}.

Lemma xor_shards_l a b : length a = length b → xor_shards a (xor_shards a b) = b.
Proof.
  revert b. induction a as [|x a IH]; intros [|y b] H; try done. unfold xor_shards in *. simpl in *.
  f_equal; [|apply IH; lia]. by rewrite <-Z.lxor_assoc, Z.lxor_nilpotent, Z.lxor_0_l.
Qed.
Lemma xor_shards_comm a b : xor_shards a b = xor_shards b a.
Proof. revert b. induction a; intros [|y b]; try done. unfold xor_shards in *. simpl. f_equal; [apply Z.lxor_comm|done]. Qed.
#[export] Instance toy_rs_laws : ReedSolomonLaws 2 1.
Proof.
  split.
  - done.
  - intros n shards Hl Hn Hall. destruct shards as [|a [|b [|c [|]]]]; try done.
    inversion Hall as [|? ? Ha Hall1]; subst. inversion Hall1 as [|? ? Hb _]; subst. simpl.
    rewrite bool_decide_eq_false_2 by lia. eexists. split_and!; [done|done| |done].
    repeat constructor; [done|]. unfold xor_shards. rewrite length_zip_with. lia.
  - intros shards Hl Hall. destruct shards as [|a [|b [|c [|]]]]; try done.
    inversion Hall; subst. simpl. by eexists.
  - intros shards word lost Hw Hs Hp. destruct shards as [|a [|b [|c [|]]]]; try done. simpl in Hw.
    case_bool_decide as Hab; [done|]. injection Hw as <-. unfold survives in Hs.
    inversion Hs as [|? s0 ? l0 H0 Hs0]; subst. inversion Hs0 as [|? s1 ? l1 H1 Hs1]; subst.
    inversion Hs1 as [|? s2 ? l2 H2 Hs2]; subst. inversion Hs2; subst.
    assert (length b = length a) as Hl by (destruct (decide (length b = length a)); [done|exfalso; apply Hab; right; congruence]).
    destruct H0 as [->| ->], H1 as [->| ->], H2 as [->| ->]; try (cbv in Hp; lia); simpl; try done.
    + by rewrite (xor_shards_comm a b), xor_shards_l.
    + by rewrite xor_shards_l.
Qed.

(** Proves that the listed shards survive. *)
Ltac survive := unfold survives; repeat (constructor; [solve [auto]|]); constructor.

Lemma decode_encode_witness :
  decode true [None; Some [4; 0]; Some [5; 2]] (mkConfig 2 1) 3 = Ok [1; 2; 4].
Proof.
  destruct (decode_encode true 2 1 [1; 2; 4]) as (e & E & _ & _ & H).
  { split_and!; lia. }
  { done. }
  { vm_compute. done. }
  vm_compute in E. injection E as <-. apply (H [None; Some [4; 0]; Some [5; 2]]).
  - survive.
  - unfold present. simpl. lia.
Defined.

Lemma decode_blocks_encode_blocks_witness :
  decode_blocks true [[None; Some [2]; Some [3]]; [Some [4]; None; Some [4]]] (mkConfig 2 1) 2 3 = Ok [1; 2; 4].
Proof.
  destruct (decode_blocks_encode_blocks true 2 1 [1; 2; 4] 2) as (e & E & H).
  { split_and!; lia. }
  { done. }
  { lia. }
  { vm_compute. done. }
  vm_compute in E. injection E as <-. apply (H [[None; Some [2]; Some [3]]; [Some [4]; None; Some [4]]]).
  constructor; [split; [survive|unfold present; simpl; lia]|]. constructor; [split; [survive|unfold present; simpl; lia]|]. constructor.
Defined.

Lemma encode_empty_fails_witness : is_ok (encode true [] (mkConfig 2 1)) = false.
Proof. destruct (encode_empty_fails true 2 1 1) as (msg & E & _); [split_and!; lia|]. change (mkConfig 2 1) with (mkConfig (Z.of_nat 2) (Z.of_nat 1)). by rewrite E. Defined.

Lemma ErasureConfig_new_spec_witness : ErasureConfig_new true 10 4 = Ok ErasureConfig_default.
Proof. apply (ErasureConfig_new_spec true 10 4); try split_and!; try lia; [unfold usize_max; lia|done]. Defined.

Lemma decode_blocks_short_length_panics_witness :
  decode_blocks false [[Some [1]; Some [2]; Some [3]]; [Some [4]; Some [0]; None]] (mkConfig 2 1) 2 1 = Panic.
Proof.
  apply (decode_blocks_short_length_panics false 2 1 [1; 2] [4] (mkEncoded [[1]; [2]; [3]] [fit 32 [1]; fit 32 [2]; fit 32 [3]] (mkConfig 2 1) 2)
    (mkEncoded [[4]; [0]; [4]] [fit 32 [4]; fit 32 [0]; fit 32 [4]] (mkConfig 2 1) 1)); try done.
  - split_and!; lia.
  - survive.
  - unfold present. simpl. lia.
  - survive.
Defined.
