(* ===== verification/Chunks.v ===== *)
(** * The chunk store ([src/storage/chunks.rs])

    The files under [base_path] are a finite map from path to content; [storage_used]
    is the atomic counter.  Each file-system call may fail: a [Faults] record says
    which ones do.  [put_sync], [get_sync] and [delete_sync] are the bodies that run
    on the blocking threads.  The second half splits the same bodies at their shared
    actions (file-system calls and atomic operations) into a step relation over any
    number of threads, for the properties that depend on interleaving.  A write that
    succeeds is one action, as are the two directory listings at start-up. *)
From S2P Require Import Prelude.
From S2P Require Import Errors.
From S2P Require Import Bytes.
From S2P Require Import External.
From S2P Require Import Samples.

Definition MAX_CHUNK_SIZE : Z := 4 * 1024 * 1024.

Definition path : Set := list string.
Record ChunkStore := mkStore {
  base_path : path;
  max_storage : Z;
  storage_used : Z;
  disk : gmap path (list Z);
}.

(** What the operating system answers; [f_left] is what a failed write leaves behind. *)
Record Faults := mkFaults {
  f_mkdir : option string;
  f_write : option string;
  f_left : option (list Z);
  f_read : option string;
  f_meta : bool;
  f_remove : option string;
}.
Definition no_faults : Faults := mkFaults None None None None false None.

Definition set_used (s : ChunkStore) (u : Z) : ChunkStore :=
  mkStore (base_path s) (max_storage s) u (disk s).
Definition set_disk (s : ChunkStore) (d : gmap path (list Z)) : ChunkStore :=
  mkStore (base_path s) (max_storage s) (storage_used s) d.

(** [AtomicU64::fetch_add] and [fetch_sub] wrap. *)
Definition fetch_add (s : ChunkStore) (n : Z) : ChunkStore := set_used s (wrap 64 (storage_used s + n)).
Definition fetch_sub (s : ChunkStore) (n : Z) : ChunkStore := set_used s (wrap 64 (storage_used s - n)).
Definition write_file (s : ChunkStore) (p : path) (d : list Z) : ChunkStore := set_disk s (<[p := d]> (disk s)).
Definition remove_file (s : ChunkStore) (p : path) : ChunkStore := set_disk s (delete p (disk s)).
Definition left_over (f : Faults) (s : ChunkStore) (p : path) : ChunkStore :=
  match f_left f with Some d => write_file s p d | None => s end.

Definition size_of (d : list Z) : Z := Z.of_nat (length d).
Definition disk_total (d : gmap path (list Z)) : Z := map_fold (λ _ c acc, size_of c + acc) 0 d.

Section chunks.
Context `{Sha256} `{Hex} (oc : bool).

Definition chunk_path (base : path) (hash : list Z) : path :=
  let hex := hex_encode hash in
  base ++ [String.substring 0 2 hex; String.substring 2 2 hex; hex +:+ ".chunk"].

Definition put_sync (f : Faults) (s : ChunkStore) (expected_hash data : list Z) : ChunkStore * res () :=
  if MAX_CHUNK_SIZE <? size_of data then (s, Err (Io "chunk too large"))
  else if negb (bool_decide (sha256 data = expected_hash)) then (s, Err (InvalidIdentity "chunk hash mismatch"))
  else
    let p := chunk_path (base_path s) expected_hash in
    match disk s !! p with
    | Some _ => (s, Ok ())
    | None =>
      let size := size_of data in
      let prev := storage_used s in
      let s := fetch_add s size in
      match usize_arith (E := TesseraError) oc (prev + size) with
      | Ok sum =>
        if max_storage s <? sum then (fetch_sub s size, Err (StorageFull (saturating_sub (max_storage s) prev)))
        else
          match f_mkdir f, f_write f with
          | Some e, _ => (fetch_sub s size, Err (Io e))
          | None, Some e => (fetch_sub (left_over f s p) size, Err (Io e))
          | None, None => (write_file s p data, Ok ())
          end
      | _ => (s, Panic)
      end
    end.

Definition get_sync (f : Faults) (s : ChunkStore) (hash : list Z) : ChunkStore * res (option (list Z)) :=
  let p := chunk_path (base_path s) hash in
  match disk s !! p with
  | None => (s, Ok None)
  | Some data =>
    match f_read f with
    | Some e => (s, Err (Io e))
    | None =>
      if negb (bool_decide (sha256 data = hash)) then
        (match f_remove f with None => remove_file s p | Some _ => s end, Ok None)
      else (s, Ok (Some data))
    end
  end.

Definition delete_sync (f : Faults) (s : ChunkStore) (hash : list Z) : ChunkStore * res bool :=
  let p := chunk_path (base_path s) hash in
  match disk s !! p with
  | Some data =>
    let len := if f_meta f then 0 else size_of data in
    match f_remove f with
    | Some e => (s, Err (Io e))
    | None => (fetch_sub (remove_file s p) len, Ok true)
    end
  | None => (s, Ok false)
  end.

Definition chunk_has (s : ChunkStore) (hash : list Z) : bool :=
  bool_decide (is_Some (disk s !! chunk_path (base_path s) hash)).

(** [ChunkStore::new] counts every file three levels below [base_path]. *)
Definition compute_storage_used (base : path) (d : gmap path (list Z)) : Z :=
  disk_total (filter (λ '(p, _), take (length base) p = base ∧ length p = (length base + 3)%nat) d).
Definition ChunkStore_new (f : Faults) (base : path) (max : Z) (d : gmap path (list Z)) : res ChunkStore :=
  match f_mkdir f with
  | Some e => Err (Io e)
  | None => Ok (mkStore base max (compute_storage_used base d) d)
  end.
End chunks.

(** The asynchronous wrappers run the bodies on a blocking thread: a panic there
    comes back as a join error. *)
Definition joined {A} (r : res A) : res A :=
  match r with Panic => Err (Io "task panicked") | _ => r end.
Definition chunk_put `{Sha256} `{Hex} oc f s h d : ChunkStore * res () :=
  let '(s, r) := put_sync oc f s h d in (s, joined r).
Definition chunk_get `{Sha256} `{Hex} f s h : ChunkStore * res (option (list Z)) :=
  let '(s, r) := get_sync f s h in (s, joined r).
Definition chunk_delete `{Sha256} `{Hex} f s h : ChunkStore * res bool :=
  let '(s, r) := delete_sync f s h in (s, joined r).

(** ** The same bodies, one shared action at a time *)
Inductive op_result : Type :=
  | PutRes (r : res ())
  | GetRes (r : res (option (list Z)))
  | DelRes (r : res bool).

Inductive pc : Type :=
  | PutStart (h d : list Z)            (* up to path.exists() *)
  | PutReserve (h d : list Z)          (* fetch_add *)
  | PutCompare (h d : list Z) (prev : Z)
  | PutMkdir (h d : list Z)
  | PutWrite (h d : list Z)
  | PutRollback (size : Z) (e : TesseraError) (* fetch_sub *)
  | GetStart (h : list Z)              (* path.exists() *)
  | GetRead (h : list Z)
  | GetRemove (h : list Z)
  | DelStart (h : list Z)              (* path.exists() *)
  | DelMeta (h : list Z)
  | DelRemove (h : list Z) (len : Z)
  | DelSub (len : Z)
  | Done (r : op_result).

Section steps.
Context `{Sha256} `{Hex} (oc : bool).

Definition thread_step (f : Faults) (s : ChunkStore) (c : pc) : ChunkStore * pc :=
  match c with
  | PutStart h d =>
    if MAX_CHUNK_SIZE <? size_of d then (s, Done (PutRes (Err (Io "chunk too large"))))
    else if negb (bool_decide (sha256 d = h)) then (s, Done (PutRes (Err (InvalidIdentity "chunk hash mismatch"))))
    else match disk s !! chunk_path (base_path s) h with
         | Some _ => (s, Done (PutRes (Ok ())))
         | None => (s, PutReserve h d)
         end
  | PutReserve h d => (fetch_add s (size_of d), PutCompare h d (storage_used s))
  | PutCompare h d prev =>
    match usize_arith (E := TesseraError) oc (prev + size_of d) with
    | Ok sum =>
      if max_storage s <? sum
      then (s, PutRollback (size_of d) (StorageFull (saturating_sub (max_storage s) prev)))
      else (s, PutMkdir h d)
    | _ => (s, Done (PutRes Panic))
    end
  | PutMkdir h d =>
    match f_mkdir f with Some e => (s, PutRollback (size_of d) (Io e)) | None => (s, PutWrite h d) end
  | PutWrite h d =>
    match f_write f with
    | Some e => (left_over f s (chunk_path (base_path s) h), PutRollback (size_of d) (Io e))
    | None => (write_file s (chunk_path (base_path s) h) d, Done (PutRes (Ok ())))
    end
  | PutRollback size e => (fetch_sub s size, Done (PutRes (Err e)))
  | GetStart h =>
    match disk s !! chunk_path (base_path s) h with
    | None => (s, Done (GetRes (Ok None)))
    | Some _ => (s, GetRead h)
    end
  | GetRead h =>
    match disk s !! chunk_path (base_path s) h, f_read f with
    | None, _ => (s, Done (GetRes (Err (Io "not found"))))
    | _, Some e => (s, Done (GetRes (Err (Io e))))
    | Some d, None =>
      if negb (bool_decide (sha256 d = h)) then (s, GetRemove h) else (s, Done (GetRes (Ok (Some d))))
    end
  | GetRemove h =>
    (match f_remove f with None => remove_file s (chunk_path (base_path s) h) | Some _ => s end,
     Done (GetRes (Ok None)))
  | DelStart h =>
    match disk s !! chunk_path (base_path s) h with
    | None => (s, Done (DelRes (Ok false)))
    | Some _ => (s, DelMeta h)
    end
  | DelMeta h =>
    match disk s !! chunk_path (base_path s) h with
    | Some d => (s, DelRemove h (if f_meta f then 0 else size_of d))
    | None => (s, DelRemove h 0)
    end
  | DelRemove h len =>
    match disk s !! chunk_path (base_path s) h, f_remove f with
    | None, _ => (s, Done (DelRes (Err (Io "not found"))))
    | _, Some e => (s, Done (DelRes (Err (Io e))))
    | Some _, None => (remove_file s (chunk_path (base_path s) h), DelSub len)
    end
  | DelSub len => (fetch_sub s len, Done (DelRes (Ok true)))
  | Done r => (s, Done r)
  end.

Fixpoint run_thread (n : nat) (f : Faults) (s : ChunkStore) (c : pc) : ChunkStore * pc :=
  match n with
  | O => (s, c)
  | S n => let '(s, c) := thread_step f s c in run_thread n f s c
  end.

(** Any thread of a pool may take its next action; a failing write leaves nothing
    behind ([f_left f = None]). *)
Inductive pool_step : ChunkStore * list pc → ChunkStore * list pc → Prop :=
  | Pool_step s cs i c f s' c' :
      cs !! i = Some c → f_left f = None → thread_step f s c = (s', c') →
      pool_step (s, cs) (s', <[i := c']> cs).
End steps.

(** ** Paths and sizes *)
Section lemmas.
Context `{Sha256} `{Hex} (oc : bool).

Lemma string_app_inj_r a b c : (a +:+ c = b +:+ c → String.length a = String.length b → a = b)%string.
Proof.
  revert b. induction a as [|x a IH]; intros [|y b] H1 Hl; try done. simpl in *.
  injection H1 as -> H1. f_equal. apply IH; [done|lia].
Qed.

Lemma chunk_path_inj base h h' :
  array_ok 32 h → array_ok 32 h' → chunk_path base h = chunk_path base h' → h = h'.
Proof.
  intros [Hl Hb] [Hl' Hb'] Hp. unfold chunk_path in Hp. apply app_inv_head in Hp.
  injection Hp as _ _ Hp. apply hex_inj; [done..|]. eapply string_app_inj_r; [exact Hp|].
  by rewrite !hex_length, Hl, Hl'.
Qed.

Lemma size_of_nonneg d : 0 ≤ size_of d.
Proof. unfold size_of. lia. Qed.

Lemma disk_total_insert p c d : d !! p = None → disk_total (<[p := c]> d) = size_of c + disk_total d.
Proof. intros Hp. unfold disk_total. rewrite map_fold_insert_L; [done|intros; lia|done]. Qed.

Lemma disk_total_delete p c d : d !! p = Some c → disk_total (delete p d) = disk_total d - size_of c.
Proof.
  intros Hp. pose proof (disk_total_insert p c (delete p d) (lookup_delete_eq d p)) as Hi.
  rewrite insert_delete_id in Hi by done. lia.
Qed.

Lemma disk_total_overwrite p c c' d :
  d !! p = Some c → disk_total (<[p := c']> d) = disk_total d - size_of c + size_of c'.
Proof.
  intros Hp. rewrite <-insert_delete_eq, disk_total_insert by apply lookup_delete_eq.
  rewrite (disk_total_delete _ _ _ Hp). lia.
Qed.

Lemma disk_total_nonneg d : 0 ≤ disk_total d.
Proof.
  induction d as [|p c d Hp IH] using map_ind; [done|].
  rewrite disk_total_insert by done. pose proof (size_of_nonneg c). lia.
Qed.

(** A body that runs without interruption is the sequence of its actions. *)
Lemma put_sync_run f s h d :
  run_thread oc 6 f s (PutStart h d) = (let '(s', r) := put_sync oc f s h d in (s', Done (PutRes r))).
Proof.
  cbn [run_thread thread_step]. unfold put_sync.
  repeat (case_match; simplify_eq; cbn [run_thread thread_step] in *; try done).
Qed.

Lemma get_sync_run f s h :
  run_thread oc 3 f s (GetStart h) = (let '(s', r) := get_sync f s h in (s', Done (GetRes r))).
Proof.
  cbn [run_thread thread_step]. unfold get_sync.
  repeat (case_match; simplify_eq; cbn [run_thread thread_step] in *; simplify_map_eq; try done).
Qed.

Lemma delete_sync_run f s h :
  run_thread oc 4 f s (DelStart h) = (let '(s', r) := delete_sync f s h in (s', Done (DelRes r))).
Proof.
  cbn [run_thread thread_step]. unfold delete_sync.
  repeat (case_match; simplify_eq; cbn [run_thread thread_step] in *; simplify_map_eq; try done).
Qed.

(** A sum of claims over a pool changes only by the thread that moved. *)
Definition claims {A} (f : A → Z) (l : list A) : Z := foldr (λ c acc, f c + acc) 0 l.

Lemma claims_insert {A} (f : A → Z) l i c c' :
  l !! i = Some c → claims f (<[i := c']> l) = claims f l - f c + f c'.
Proof.
  revert i. induction l as [|x l IH]; intros [|i] Hi; try done; simpl in *.
  - injection Hi as ->. lia.
  - rewrite (IH i Hi). lia.
Qed.

Lemma claims_le {A} (f : A → Z) l hi :
  Forall (λ c, f c ≤ hi) l → claims f l ≤ hi * Z.of_nat (length l).
Proof. unfold claims. induction 1; cbn -[Z.mul Z.of_nat]; [lia|]. rewrite Nat2Z.inj_succ, Z.mul_succ_r. lia. Qed.

Lemma claims_mono {A} (f g : A → Z) l : Forall (λ c, f c ≤ g c) l → claims f l ≤ claims g l.
Proof. unfold claims. induction 1; simpl; lia. Qed.

Lemma claims_nonneg {A} (f : A → Z) l : Forall (λ c, 0 ≤ f c) l → 0 ≤ claims f l.
Proof. induction 1; simpl; lia. Qed.

Lemma claims_elem {A} (f : A → Z) l i c : Forall (λ c, 0 ≤ f c) l → l !! i = Some c → f c ≤ claims f l.
Proof.
  intros Hall. revert i. induction Hall as [|x l Hx Hall IH]; intros [|i] Hi; try done; simpl in *.
  - injection Hi as ->. pose proof (claims_nonneg f l Hall). unfold claims in *. lia.
  - specialize (IH i Hi). unfold claims in *. lia.
Qed.
End lemmas.

(** ** Interleaved threads *)
Section pool.
Context `{Sha256} `{Hex} (oc : bool) (base : path) (max : Z) (P : list Z → Prop).
(** The data in play have no two members with one digest. *)
Context (Hcf : ∀ d d', P d → P d' → sha256 d = sha256 d' → d = d').

(** What a thread still has to give back or to write. *)
Definition held (c : pc) : Z :=
  match c with
  | PutCompare _ d _ | PutMkdir _ d | PutWrite _ d => size_of d
  | PutRollback n _ | DelSub n => n
  | _ => 0
  end.
(** The part of it that passed the quota. *)
Definition passed (c : pc) : Z :=
  match c with
  | PutCompare _ d prev => if prev + size_of d <=? max then size_of d else 0
  | PutMkdir _ d | PutWrite _ d => size_of d
  | _ => 0
  end.
(** The part that only inflates the counter. *)
Definition unpassed (c : pc) : Z :=
  match c with
  | PutCompare _ d prev => if prev + size_of d <=? max then 0 else size_of d
  | PutRollback n _ => n
  | _ => 0
  end.

Definition put_args_ok (h d : list Z) : Prop := sha256 d = h ∧ P d ∧ size_of d ≤ MAX_CHUNK_SIZE.
Definition pc_ok (c : pc) : Prop :=
  match c with
  | PutStart h d => P d
  | PutReserve h d | PutMkdir h d | PutWrite h d => put_args_ok h d
  | PutCompare h d prev => put_args_ok h d ∧ 0 ≤ prev ∧ prev + size_of d ≤ u64_max
  | PutRollback n _ => 0 ≤ n ≤ MAX_CHUNK_SIZE
  | GetStart h | GetRead h | DelStart h | DelMeta h => array_ok 32 h
  | GetRemove _ => False
  | DelRemove h len => array_ok 32 h ∧ (len = 0 ∨ ∃ d, P d ∧ sha256 d = h ∧ 0 ≤ len ≤ size_of d)
  | DelSub n => 0 ≤ n
  | Done _ => True
  end.

(** Every stored file is named by its digest. *)
Definition disk_clean (d : gmap path (list Z)) : Prop :=
  ∀ p c, d !! p = Some c → P c ∧ p = chunk_path base (sha256 c).

Record pool_ok (st : ChunkStore * list pc) : Prop := {
  po_base : base_path st.1 = base;
  po_max : max_storage st.1 = max;
  po_clean : disk_clean (disk st.1);
  po_pcs : Forall pc_ok st.2;
  po_held : disk_total (disk st.1) + claims held st.2 ≤ storage_used st.1;
  po_quota : disk_total (disk st.1) + claims passed st.2 ≤ max;
  po_used : storage_used st.1 ≤ max + claims unpassed st.2;
  po_room : max + (Z.of_nat (length st.2) + 1) * MAX_CHUNK_SIZE ≤ u64_max;
}.

Lemma disk_clean_hash d h c : disk_clean d → array_ok 32 h → d !! chunk_path base h = Some c → sha256 c = h ∧ P c.
Proof.
  intros Hd Hh Hc. destruct (Hd _ _ Hc) as [HP Hp]. split; [|done].
  symmetry. apply (chunk_path_inj base); [done|apply sha256_ok|done].
Qed.

Lemma disk_clean_delete d p : disk_clean d → disk_clean (delete p d).
Proof. intros Hd q c [_ Hq]%lookup_delete_Some. by apply Hd. Qed.

Lemma disk_clean_insert d c : disk_clean d → P c → disk_clean (<[chunk_path base (sha256 c) := c]> d).
Proof. intros Hd Hc q c' [[<- <-]|[_ Hq]]%lookup_insert_Some; [done|]. by apply Hd. Qed.

Lemma pc_ok_bounds c : pc_ok c → 0 ≤ passed c ≤ held c ∧ 0 ≤ unpassed c ≤ MAX_CHUNK_SIZE.
Proof.
  assert (0 ≤ MAX_CHUNK_SIZE) by (by unfold MAX_CHUNK_SIZE).
  destruct c as [h d|h d|h d prev|h d|h d|n e|h|h|h|h|h|h len|n|r]; simpl; intros Hc;
    try (pose proof (size_of_nonneg d)); try lia.
  destruct Hc as [(_ & _ & ?) _]. destruct (prev + size_of d <=? max); lia.
Qed.
End pool.

Section pool_invariant.
Context `{Sha256} `{Hex} (oc : bool) (base : path) (max : Z) (P : list Z → Prop).
Context (Hcf : ∀ d d', P d → P d' → sha256 d = sha256 d' → d = d').

(** The invariant seen from one thread: [Rh], [Rp] and [Ru] are the claims of the others. *)
Record local_ok (Rh Rp Ru : Z) (s : ChunkStore) (c : pc) : Prop := {
  lo_base : base_path s = base;
  lo_max : max_storage s = max;
  lo_clean : disk_clean base P (disk s);
  lo_pc : pc_ok P c;
  lo_held : disk_total (disk s) + Rh + held c ≤ storage_used s;
  lo_quota : disk_total (disk s) + Rp + passed max c ≤ max;
  lo_used : storage_used s ≤ max + Ru + unpassed max c;
}.

Context (Rh Rp Ru : Z) (HRp : 0 ≤ Rp ≤ Rh) (HRu : 0 ≤ Ru) (Hroom : max + Ru + MAX_CHUNK_SIZE ≤ u64_max).
Local Notation lok := (local_ok Rh Rp Ru).

Lemma lok_pc s c c' :
  lok s c → pc_ok P c' → held c' ≤ held c → passed max c' ≤ passed max c →
  unpassed max c ≤ unpassed max c' → lok s c'.
Proof. intros [] ? ? ? ?. split; try done; lia. Qed.

Lemma lok_add s h d : lok s (PutReserve h d) → lok (fetch_add s (size_of d)) (PutCompare h d (storage_used s)).
Proof.
  intros [Hb Hm Hc Hp Hh Hq Hu]. simpl in *. pose proof (disk_total_nonneg (disk s)).
  destruct Hp as (Hsha & HP & Hsz). pose proof (size_of_nonneg d).
  assert (storage_used (fetch_add s (size_of d)) = storage_used s + size_of d) as Eu.
  { simpl. apply wrap_small. unfold u64_max, MAX_CHUNK_SIZE in *. lia. }
  split; rewrite ?Eu; simpl; try done; try lia.
  - split_and!; try done; unfold MAX_CHUNK_SIZE in *; lia.
  - destruct (_ <=? max) eqn:E; bool_prop; lia.
  - destruct (_ <=? max) eqn:E; bool_prop; lia.
Qed.

Lemma lok_sub s n c r :
  lok s c → held c = n → (unpassed max c = n ∨ unpassed max c = 0) → 0 ≤ n → passed max c = 0 →
  lok (fetch_sub s n) (Done r).
Proof.
  intros [Hb Hm Hc Hp Hh Hq Hu] Hn Hun Hn0 Hpn. simpl in *. pose proof (disk_total_nonneg (disk s)).
  pose proof (pc_ok_bounds max P c Hp) as (_ & Hub).
  assert (storage_used (fetch_sub s n) = storage_used s - n) as Eu.
  { simpl. apply wrap_small. unfold u64_max, MAX_CHUNK_SIZE in *. lia. }
  split; rewrite ?Eu; simpl; try done; lia.
Qed.

Lemma lok_write s h d :
  lok s (PutWrite h d) → lok (write_file s (chunk_path (base_path s) h) d) (Done (PutRes (Ok ()))).
Proof.
  intros [Hb Hm Hc Hp Hh Hq Hu]. simpl in *. destruct Hp as (<- & HP & Hsz). rewrite Hb.
  pose proof (size_of_nonneg d).
  assert (disk_total (<[chunk_path base (sha256 d):=d]> (disk s)) ≤ disk_total (disk s) + size_of d).
  { destruct (disk s !! chunk_path base (sha256 d)) as [c|] eqn:E.
    - rewrite (disk_total_overwrite _ _ _ _ E). pose proof (size_of_nonneg c). lia.
    - rewrite disk_total_insert by done. lia. }
  split; simpl; try done; try lia. by apply disk_clean_insert.
Qed.

Lemma lok_remove s h len d :
  lok s (DelRemove h len) → disk s !! chunk_path base h = Some d →
  lok (remove_file s (chunk_path base h)) (DelSub len).
Proof.
  intros [Hb Hm Hc Hp Hh Hq Hu] Hd. simpl in *. destruct Hp as (Hh32 & Hlen).
  destruct (disk_clean_hash base P _ _ _ Hc Hh32 Hd) as [Hsha HP]. pose proof (size_of_nonneg d).
  assert (0 ≤ len ≤ size_of d).
  { destruct Hlen as [->|(d' & HP' & Hsha' & Hlen)]; [lia|].
    assert (d' = d) as -> by (apply Hcf; congruence). done. }
  pose proof (disk_total_delete _ _ _ Hd).
  split; simpl; try done; try lia. by apply disk_clean_delete.
Qed.

Lemma lok_step f s c s' c' :
  f_left f = None → lok s c → thread_step oc f s c = (s', c') → lok s' c'.
Proof.
  intros Hf Hl E. pose proof (lo_base _ _ _ _ _ Hl) as Hb. pose proof (lo_max _ _ _ _ _ Hl) as Hm.
  pose proof (lo_pc _ _ _ _ _ Hl) as Hp. pose proof (lo_clean _ _ _ _ _ Hl) as Hc.
  destruct c as [h d|h d|h d prev|h d|h d|n e|h|h|h|h|h|h len|n|r]; cbn [thread_step] in E; rewrite ?Hb, ?Hm in E;
    cbn [pc_ok] in Hp.
  - repeat case_match; simplify_eq; bool_prop; (eapply lok_pc; [done|simpl..]); done.
  - simplify_eq. by apply lok_add.
  - destruct Hp as [Hp Hprev]. pose proof (size_of_nonneg d).
    rewrite usize_arith_ok in E by (unfold usize_max, u64_max in *; lia).
    destruct (max <? prev + size_of d) eqn:Ec; simplify_eq; bool_prop; (eapply lok_pc; [done|simpl..]); try done;
      try (destruct (_ <=? max) eqn:Ec'; bool_prop; lia).
    destruct Hp as (_ & _ & ?). done.
  - pose proof (size_of_nonneg d). destruct (f_mkdir f); simplify_eq; (eapply lok_pc; [done|simpl..]); try done; try lia.
    destruct Hp as (_ & _ & ?). done.
  - pose proof (size_of_nonneg d). destruct (f_write f); simplify_eq.
    + unfold left_over. rewrite Hf. (eapply lok_pc; [done|simpl..]); try done; try lia.
      destruct Hp as (_ & _ & ?). done.
    + rewrite <-Hb. by apply lok_write.
  - simplify_eq. eapply lok_sub; [done|done|by left|lia|done].
  - repeat case_match; simplify_eq; (eapply lok_pc; [done|simpl..]); done.
  - repeat case_match; simplify_eq; bool_prop; (eapply lok_pc; [done|simpl..]); try done.
    match goal with Hd : disk _ !! _ = Some _ |- _ => by destruct (disk_clean_hash base P _ _ _ Hc Hp Hd) end.
  - done.
  - repeat case_match; simplify_eq; (eapply lok_pc; [done|simpl..]); done.
  - destruct (disk s !! chunk_path base h) as [d|] eqn:Hd; simplify_eq; (eapply lok_pc; [done|simpl..]); try done.
    + destruct (disk_clean_hash base P _ _ _ Hc Hp Hd). split; [done|]. right. exists d. pose proof (size_of_nonneg d).
      split_and!; [done|done|destruct (f_meta f); lia..].
    + split; [done|by left].
  - destruct (disk s !! chunk_path base h) as [d|] eqn:Hd; [destruct (f_remove f)|]; simplify_eq;
      try ((eapply lok_pc; [done|simpl..]); done).
    by eapply lok_remove.
  - simplify_eq. eapply lok_sub; [done|done|by right|done|done].
  - simplify_eq. done.
Qed.
End pool_invariant.

Section pool_theorem.
Context `{Sha256} `{Hex} (oc : bool) (base : path) (max : Z) (P : list Z → Prop).
Context (Hcf : ∀ d d', P d → P d' → sha256 d = sha256 d' → d = d').

Lemma Forall_others {A} (Q : A → Prop) l i (x : A) : Forall Q l → Q x → Forall Q (<[i := x]> l).
Proof. apply Forall_insert. Qed.

Lemma pool_step_ok st st' : pool_ok base max P st → pool_step oc st st' → pool_ok base max P st'.
Proof.
  intros Hok Hstep. inversion Hstep as [s cs i c f s' c' Hi Hf E]; subst st st'. destruct Hok as [Hb Hm Hc Hp Hh Hq Hu Hroom]. simpl in *.
  set (rest := <[i := Done (PutRes (Ok ()))]> cs).
  assert (Forall (pc_ok P) rest) as Hrest by (apply (Forall_others (pc_ok P)); [exact Hp|exact I]).
  assert (Forall (λ c, 0 ≤ passed max c ≤ held c ∧ 0 ≤ unpassed max c ≤ MAX_CHUNK_SIZE) rest) as Hbs
    by (eapply Forall_impl; [exact Hrest|]; apply pc_ok_bounds).
  assert (0 ≤ claims (passed max) rest ≤ claims held rest).
  { split; [apply claims_nonneg|apply claims_mono]; (eapply Forall_impl; [exact Hbs|]); simpl; intros; lia. }
  assert (0 ≤ claims (unpassed max) rest ≤ MAX_CHUNK_SIZE * Z.of_nat (length rest)).
  { split; [apply claims_nonneg|apply claims_le]; (eapply Forall_impl; [exact Hbs|]); simpl; intros; lia. }
  unfold rest in *. rewrite length_insert in *. rewrite !(claims_insert _ _ _ _ _ Hi) in *. simpl in *.
  destruct (lok_step oc base max P Hcf (claims held cs - held c) (claims (passed max) cs - passed max c)
    (claims (unpassed max) cs - unpassed max c) ltac:(lia) ltac:(lia) ltac:(lia) f s c s' c' Hf) as [].
  { split; try done; try lia. exact (Forall_lookup_1 _ _ _ _ Hp Hi). }
  { done. }
  split; simpl; rewrite ?length_insert, ?(claims_insert _ _ _ _ _ Hi); try done; try lia.
  by apply Forall_others.
Qed.

Lemma pool_steps_ok st st' : rtc (pool_step oc) st st' → pool_ok base max P st → pool_ok base max P st'.
Proof. induction 1; eauto using pool_step_ok. Qed.

(** A pool of threads that have not started. *)
Definition starting (c : pc) : Prop :=
  match c with PutStart h d => P d | GetStart h | DelStart h => array_ok 32 h | _ => False end.

Lemma starting_claims cs : Forall starting cs →
  claims held cs = 0 ∧ claims (passed max) cs = 0 ∧ claims (unpassed max) cs = 0 ∧ Forall (pc_ok P) cs.
Proof. unfold claims. induction 1 as [|c cs Hc _ IH]; simpl; [done|]. destruct c; try done; simpl in *; intuition. Qed.

End pool_theorem.

(** ** One call at a time *)
Section sequential.
Context `{Sha256} `{Hex} (oc : bool).

(** [put] on each branch, for a counter with room for one more chunk.  [Ok] means the data
    has the expected digest and either something was already stored under it and nothing changes,
    or the quota allows it, the file now holds the data and the counter grew by its length.  An
    error leaves the counter as it was and every file but the target of a failed write.
    The call never panics. *)
Theorem put_sync_spec f s h d :
  0 ≤ storage_used s → storage_used s + MAX_CHUNK_SIZE ≤ u64_max →
  let p := chunk_path (base_path s) h in
  let '(s', r) := put_sync oc f s h d in
  match r with
  | Ok _ =>
      sha256 d = h ∧ size_of d ≤ MAX_CHUNK_SIZE ∧
      (is_Some (disk s !! p) ∧ s' = s ∨
       disk s !! p = None ∧ storage_used s + size_of d ≤ max_storage s ∧
       storage_used s' = storage_used s + size_of d ∧ disk s' = <[p := d]> (disk s))
  | Err e =>
      storage_used s' = storage_used s ∧ (disk s' = disk s ∨ is_Some (f_write f) ∧ ∃ c, disk s' = <[p := c]> (disk s)) ∧
      (∀ a, e = StorageFull a → max_storage s < storage_used s + size_of d ∧ a = Z.max 0 (max_storage s - storage_used s))
  | Panic => False
  end.
Proof.
  intros Hu Hroom. cbv zeta. unfold put_sync. pose proof (size_of_nonneg d).
  destruct (MAX_CHUNK_SIZE <? size_of d) eqn:E1; bool_prop; [split_and!; [done|by left|done]|].
  case_bool_decide as E2; simpl; [|split_and!; [done|by left|done]].
  destruct (disk s !! _) as [c|] eqn:E3; [split_and!; [done|done|left; eauto]|].
  rewrite usize_arith_ok by (unfold usize_max, u64_max, MAX_CHUNK_SIZE in *; lia).
  assert (wrap 64 (storage_used s + size_of d) = storage_used s + size_of d) as Ew
    by (apply wrap_small; unfold u64_max, MAX_CHUNK_SIZE in *; lia).
  assert (wrap 64 (wrap 64 (storage_used s + size_of d) - size_of d) = storage_used s) as Ew2
    by (rewrite Ew, Z.add_simpl_r; apply wrap_small; unfold u64_max, MAX_CHUNK_SIZE in *; lia).
  destruct (max_storage s <? _) eqn:E4; bool_prop; simpl in E4 |- *.
  { split_and!; [done|by left|]. intros a [= <-]. split; [lia|]. unfold saturating_sub. by rewrite Z.max_comm. }
  destruct (f_mkdir f); simpl; [split_and!; [done|by left|done]|].
  destruct (f_write f) eqn:E5; simpl.
  - unfold left_over. destruct (f_left f); simpl; split_and!; try done; [right|by left]. split; [done|]. by eexists.
  - split_and!; [done|done|right]. rewrite Ew. by split_and!.
Qed.

(** [get] returns only data with the requested digest, whatever is on disk, and what an
    accepted [put] of a new chunk has stored is what [get] returns next, reads not failing;
    storing the chunk again changes nothing. *)
Theorem put_get f s h d s' :
  0 ≤ storage_used s → storage_used s + MAX_CHUNK_SIZE ≤ u64_max →
  put_sync oc f s h d = (s', Ok ()) →
  (disk s !! chunk_path (base_path s) h = None → get_sync no_faults s' h = (s', Ok (Some d))) ∧
  (∀ f', put_sync oc f' s' h d = (s', Ok ())) ∧
  ∀ f' d', (get_sync f' s' h).2 = Ok (Some d') → sha256 d' = h ∧ disk s' !! chunk_path (base_path s') h = Some d'.
Proof.
  intros Hu Hr E.
  assert (base_path s' = base_path s) as Hb.
  { revert E. unfold put_sync, left_over. repeat case_match; simplify_eq; by intros [= <-]. }
  pose proof (put_sync_spec f s h d Hu Hr) as Hs. rewrite E in Hs.
  destruct Hs as (Hsha & Hsz & Hcase). split_and!.
  - intros Hn. destruct Hcase as [[[c Hc] _]|(_ & _ & _ & Hd)]; [congruence|].
    unfold get_sync. rewrite Hb, Hd, lookup_insert_eq. simpl. by rewrite bool_decide_eq_true_2.
  - intros f'. assert (is_Some (disk s' !! chunk_path (base_path s') h)) as [c Hc].
    { destruct Hcase as [[Hc ->]|(_ & _ & _ & Hd)]; [done|]. rewrite Hb, Hd, lookup_insert_eq. eauto. }
    unfold put_sync. rewrite (proj2 (Z.ltb_ge _ _)), bool_decide_eq_true_2 by done. simpl. by rewrite Hc.
  - intros f' d'. unfold get_sync. destruct (disk s' !! _) as [c|]; [|done]. destruct (f_read f'); [done|].
    case_bool_decide; simpl; [|done]. by intros [= ->].
Qed.
End sequential.

(** ** Concrete runs *)
Definition sample_store (max : Z) : ChunkStore := mkStore ["chunks"] max 0 ∅.
Definition sample_chunk (b : Z) : list Z := [b; 1; 2].
Definition sample_hash (b : Z) : list Z := sha256 (sample_chunk b).

Definition run_schedule (s : ChunkStore) (cs : list pc) (schedule : list nat) : ChunkStore * list pc :=
  foldl (λ st i, match st.2 !! i with
                 | Some c => let '(s', c') := thread_step true no_faults st.1 c in (s', <[i := c']> st.2)
                 | None => st
                 end) (s, cs) schedule.

Lemma run_schedule_steps s cs schedule : rtc (pool_step true) (s, cs) (run_schedule s cs schedule).
Proof.
  unfold run_schedule. revert s cs. induction schedule as [|i l IH]; intros s cs; [apply rtc_refl|]. cbn [foldl fst snd].
  destruct (cs !! i) as [c|] eqn:E; [|apply IH].
  destruct (thread_step true no_faults s c) as [s' c'] eqn:E'.
  eapply rtc_l; [|apply IH]. by eapply (Pool_step true s cs i c no_faults).
Qed.

(** Two concurrent [put] calls of the same new chunk, both past the existence check before
    either writes, count it twice: the counter ends at twice the bytes on disk. *)
Theorem concurrent_puts_count_twice :
  let put := PutStart (sample_hash 7) (sample_chunk 7) in
  ∃ s', rtc (pool_step true) (sample_store 100, [put; put])
          (s', [Done (PutRes (Ok ())); Done (PutRes (Ok ()))]) ∧
    disk_total (disk s') = 3 ∧ storage_used s' = 6.
Proof.
  intros put. eexists. split.
  - change [Done (PutRes (Ok ())); Done (PutRes (Ok ()))] with
      (snd (run_schedule (sample_store 100) [put; put] [0; 1; 0; 1; 0; 1; 0; 1; 0; 1]%nat)).
    rewrite <-surjective_pairing. apply run_schedule_steps.
  - by vm_compute.
Qed.

(** [get] deletes a corrupted file without giving its bytes back to the counter, so the
    space it took is lost to the quota until the store is opened again. *)
Theorem corrupted_get_keeps_counter :
  let p := chunk_path ["chunks"] (sample_hash 7) in
  let s := mkStore ["chunks"] 100 3 {[ p := [9; 9; 9] ]} in
  get_sync no_faults s (sample_hash 7) = (mkStore ["chunks"] 100 3 ∅, Ok None).
Proof. by vm_compute. Qed.

(** A write that fails half-way leaves a file that [put] takes for the stored chunk: the next
    [put] answers [Ok] and the [get] that follows finds nothing. *)
Theorem failed_write_accepted_later :
  let f := mkFaults None (Some "disk full") (Some [7]) None false None in
  let '(s1, r1) := put_sync true f (sample_store 100) (sample_hash 7) (sample_chunk 7) in
  let '(s2, r2) := put_sync true no_faults s1 (sample_hash 7) (sample_chunk 7) in
  r1 = Err (Io "disk full") ∧ r2 = Ok () ∧ (get_sync no_faults s2 (sample_hash 7)).2 = Ok None.
Proof. by vm_compute. Qed.

Definition stored : ChunkStore :=
  (put_sync true no_faults (sample_store 100) (sample_hash 7) (sample_chunk 7)).1.
Lemma stored_ok : put_sync true no_faults (sample_store 100) (sample_hash 7) (sample_chunk 7) = (stored, Ok ()).
Proof.
  assert ((put_sync true no_faults (sample_store 100) (sample_hash 7) (sample_chunk 7)).2 = Ok ()) as <- by by vm_compute.
  apply surjective_pairing.
Qed.
Lemma sample_room : storage_used (sample_store 100) + MAX_CHUNK_SIZE ≤ u64_max.
Proof. by vm_compute. Qed.

Lemma put_sync_spec_witness : storage_used stored = 3.
Proof.
  pose proof (put_sync_spec true no_faults (sample_store 100) (sample_hash 7) (sample_chunk 7)
    (Z.le_refl 0) sample_room) as Hs.
  rewrite stored_ok in Hs. destruct Hs as (_ & _ & [[[c Hc] _]|(_ & _ & Hu & _)]); [discriminate Hc|exact Hu].
Defined.

Lemma put_get_witness : get_sync no_faults stored (sample_hash 7) = (stored, Ok (Some (sample_chunk 7))).
Proof.
  destruct (put_get true no_faults (sample_store 100) (sample_hash 7) (sample_chunk 7) stored
    (Z.le_refl 0) sample_room stored_ok) as [Hget _]. apply Hget, lookup_empty.
Defined.

Definition sample_pool : list pc :=
  [PutStart (sample_hash 7) (sample_chunk 7); PutStart (sample_hash 8) (sample_chunk 8); DelStart (sample_hash 7)].
Definition sample_final : ChunkStore * list pc :=
  run_schedule (sample_store 4) sample_pool [0; 1; 0; 1; 1; 0; 1; 0; 0; 2; 2; 2; 2]%nat.
Definition in_play (d : list Z) : Prop := d = sample_chunk 7 ∨ d = sample_chunk 8.

Lemma in_play_inj d d' : in_play d → in_play d' → sha256 d = sha256 d' → d = d'.
Proof. intros [-> | ->] [-> | ->]; vm_compute; by intros ?. Qed.
Lemma sample_pool_starting : Forall (starting in_play) sample_pool.
Proof.
  constructor; [by left|]. constructor; [by right|]. constructor; [|constructor]. apply (sha256_ok (sample_chunk 7)).
Qed.
Lemma sample_final_steps : rtc (pool_step true) (sample_store 4, sample_pool) (sample_final.1, sample_final.2).
Proof. rewrite <-surjective_pairing. apply run_schedule_steps. Qed.
Lemma sample_clean : disk_clean ["chunks"] in_play ∅.
Proof. by intros p c ?%lookup_empty_Some. Qed.

