(* ===== verification/Metadata.v ===== *)
(** * The metadata store ([src/storage/sqlite.rs])

    The SQLite tables the node uses, as finite maps from primary key to row:
    [INSERT OR REPLACE] is insertion, [DELETE ... WHERE] is filtering, and the
    order in which a [SELECT] without [ORDER BY] lists its rows, which SQL leaves
    open, is the order of the map.  A [fault] is the error a database call ends
    with.  The [local_tesseras] table is created but never used by the crate. *)
From S2P Require Import Prelude.
From S2P Require Import Errors.
From S2P Require Import Bytes.
From S2P Require Import External.
From S2P Require Import Identity.
From S2P Require Import Net.
From S2P Require Import Samples.
From S2P Require Import Bucket.

(** Rows, without the key columns. *)
Record PeerRow := mkPeerRow { pr_public_key : list Z; pr_addresses : string; pr_last_seen : Z }.
Record ProviderRow := mkProviderRow { vr_public_key : list Z; vr_addresses : string; vr_expires_at : Z }.
Record IdentityRow := mkIdentityRow { ir_secret_key : list Z; ir_pow_nonce : Z; ir_pow_difficulty : Z }.

Record MetadataStore := mkMeta {
  identity : option IdentityRow;
  routing_table : gmap (list Z) PeerRow;
  providers : gmap (list Z * list Z) ProviderRow;
}.
(** [init_tables] on a new database. *)
Definition init_tables : MetadataStore := mkMeta None ∅ ∅.

Definition set_identity (m : MetadataStore) (i : IdentityRow) : MetadataStore :=
  mkMeta (Some i) (routing_table m) (providers m).
Definition set_routing (m : MetadataStore) (t : gmap (list Z) PeerRow) : MetadataStore :=
  mkMeta (identity m) t (providers m).
Definition set_providers (m : MetadataStore) (t : gmap (list Z * list Z) ProviderRow) : MetadataStore :=
  mkMeta (identity m) (routing_table m) t.

(** The casts between [u64] and [i64], [u8] and [i32]. *)
Definition as_i64 (x : Z) : Z := if x <? 2 ^ 63 then x else x - 2 ^ 64.
Definition as_u64 (x : Z) : Z := x mod 2 ^ 64.
Definition as_u8 (x : Z) : Z := x mod 2 ^ 8.

Definition db (fault : option string) : res () :=
  match fault with Some e => Err (Storage e) | None => Ok () end.

Definition blob_to_array (blob : list Z) : option (list Z) :=
  if bool_decide (length blob = 32%nat) then Some blob else None.

(** A call that changes the store or leaves it as it is with an error. *)
Definition commit (m : MetadataStore) (r : res MetadataStore) : MetadataStore * res () :=
  match r with Ok m' => (m', Ok ()) | Err e => (m, Err e) | Panic => (m, Panic) end.

Definition save_identity (fault : option string) (m : MetadataStore) (secret_key : list Z) (pow_nonce pow_difficulty : Z)
    : MetadataStore * res () :=
  commit m (_ ← db fault; Ok (set_identity m (mkIdentityRow secret_key (as_i64 pow_nonce) pow_difficulty))).

(** [copy_from_slice] panics on a blob that is not 32 bytes. *)
Definition load_identity (fault : option string) (m : MetadataStore) : res (option (list Z * Z * Z)) :=
  _ ← db fault;
  match identity m with
  | None => Ok None
  | Some r =>
    match blob_to_array (ir_secret_key r) with
    | Some sk => Ok (Some (sk, as_u64 (ir_pow_nonce r), as_u8 (ir_pow_difficulty r)))
    | None => Panic
    end
  end.

Section metadata.
Context `{Json (list SocketAddr)} (oc : bool).

Definition addresses_json (l : list SocketAddr) : res string :=
  match json_to_string l with inl e => Err (Serialization e) | inr s => Ok s end.

Definition insert_peer (fault : option string) (now : Z) (t : gmap (list Z) PeerRow) (peer : NodeInfoSerde)
    : res (gmap (list Z) PeerRow) :=
  addresses ← addresses_json (ns_addresses peer);
  _ ← db fault;
  Ok (<[ns_node_id peer := mkPeerRow (ns_public_key peer) addresses now]> t).

Definition save_peer (fault : option string) (now : Z) (m : MetadataStore) (peer : NodeInfoSerde)
    : MetadataStore * res () :=
  commit m (t ← insert_peer fault now (routing_table m) peer; Ok (set_routing m t)).

(** The statements of the transaction, call [i] ending with [faults i]. *)
Fixpoint insert_peers (faults : nat → option string) (i : nat) (now : Z) (t : gmap (list Z) PeerRow)
    (peers : list NodeInfoSerde) : res (gmap (list Z) PeerRow) :=
  match peers with
  | [] => Ok t
  | peer :: peers => t ← insert_peer (faults i) now t peer; insert_peers faults (S i) now t peers
  end.

(** [DELETE FROM routing_table WHERE node_id NOT IN (...)], or of every row. *)
Definition keep_only (peers : list NodeInfoSerde) (t : gmap (list Z) PeerRow) : gmap (list Z) PeerRow :=
  filter (λ '(k, _), k ∈ ns_node_id <$> peers) t.

(** A transaction that is not committed is rolled back when it is dropped. *)
Definition save_peers_batch (faults : nat → option string) (now : Z) (m : MetadataStore) (peers : list NodeInfoSerde)
    : MetadataStore * res () :=
  commit m (
    _ ← db (faults 0%nat);
    t ← insert_peers faults 1 now (routing_table m) peers;
    _ ← db (faults (S (length peers)));
    let t := if bool_decide (peers = []) then ∅ else keep_only peers t in
    _ ← db (faults (S (S (length peers))));
    Ok (set_routing m t)).

(** One row read back; rows with a blob of the wrong length or unreadable addresses are skipped. *)
Definition read_row (node_id public_key : list Z) (addresses : string) : option NodeInfoSerde :=
  node_id ← blob_to_array node_id;
  public_key ← blob_to_array public_key;
  match json_from_str addresses with
  | inr addrs => Some (mkNodeInfoSerde node_id public_key addrs)
  | inl _ => None
  end.

Definition load_peers (fault : option string) (m : MetadataStore) : res (list NodeInfoSerde) :=
  _ ← db fault;
  Ok (omap (λ '(id, r), read_row id (pr_public_key r) (pr_addresses r)) (map_to_list (routing_table m))).

Definition clear_routing_table (fault : option string) (m : MetadataStore) : MetadataStore * res () :=
  commit m (_ ← db fault; Ok (set_routing m ∅)).

Definition add_provider (fault : option string) (now : Z) (m : MetadataStore) (content_key node_id public_key : list Z)
    (addresses : list SocketAddr) (ttl : Z) : MetadataStore * res () :=
  commit m (
    addr_str ← addresses_json addresses;
    expires_at ← usize_arith oc (now + ttl);
    _ ← db fault;
    Ok (set_providers m (<[(content_key, node_id) := mkProviderRow public_key addr_str (as_i64 expires_at)]> (providers m)))).

(** [expires_at > now]. *)
Definition live (now : Z) (r : ProviderRow) : bool := as_i64 now <? vr_expires_at r.

Definition get_providers (fault : option string) (now : Z) (m : MetadataStore) (content_key : list Z)
    : res (list NodeInfoSerde) :=
  _ ← db fault;
  Ok (omap (λ '((key, id), r),
        if bool_decide (key = content_key) && live now r
        then read_row id (vr_public_key r) (vr_addresses r) else None) (map_to_list (providers m))).

Definition get_own_providers (fault : option string) (now : Z) (m : MetadataStore) (node_id : list Z)
    : res (list (list Z)) :=
  _ ← db fault;
  Ok (omap blob_to_array (remove_dups (omap (λ '((key, id), r),
        if bool_decide (id = node_id) && live now r then Some key else None) (map_to_list (providers m))))).

(** [DELETE ... WHERE expires_at <= now]: the answer is the number of rows. *)
Definition cleanup_expired_providers (fault : option string) (now : Z) (m : MetadataStore)
    : MetadataStore * res Z :=
  match db fault with
  | Ok _ =>
    (set_providers m (filter (λ '(_, r), live now r) (providers m)),
     Ok (Z.of_nat (size (filter (λ '(_, r), negb (live now r)) (providers m)))))
  | Err e => (m, Err e)
  | Panic => (m, Panic)
  end.
End metadata.

(** ** Identity *)
Lemma as_i64_u64 x : 0 ≤ x ≤ u64_max → as_u64 (as_i64 x) = x.
Proof.
  intros Hx. unfold as_u64, as_i64, u64_max in *. destruct (x <? 2 ^ 63); [apply Z.mod_small; lia|].
  rewrite <-(Z.mod_add _ 1) by lia. rewrite Z.mod_small; lia.
Qed.

(** What [save_identity] stored is what [load_identity] gives, bit for bit although the nonce
    passes through a signed column, and it replaces any earlier identity; the other tables are
    untouched, and a failing call changes nothing. *)
Theorem identity_roundtrip fault m sk nonce difficulty m' r :
  length sk = 32%nat → 0 ≤ nonce ≤ u64_max → u8_ok difficulty →
  save_identity fault m sk nonce difficulty = (m', r) →
  routing_table m' = routing_table m ∧ providers m' = providers m ∧
  (r = Ok () → load_identity None m' = Ok (Some (sk, nonce, difficulty))) ∧
  (r ≠ Ok () → m' = m).
Proof.
  intros Hsk Hn Hd. unfold save_identity. destruct fault as [e|]; simpl; intros [= <- <-]; [done|].
  split_and!; [done|done| |done]. intros _. unfold load_identity. simpl.
  unfold blob_to_array. rewrite bool_decide_eq_true_2 by done. rewrite as_i64_u64 by done.
  unfold as_u8, u8_ok in *. by rewrite Z.mod_small by lia.
Qed.

(** ** Peers *)
Section peers.
Context `{JL : JsonLaws (list SocketAddr) (Forall addr_ok)}.

(** What a peer of 32-byte arrays and real addresses is. *)
Definition peer_ok (p : NodeInfoSerde) : Prop :=
  length (ns_node_id p) = 32%nat ∧ length (ns_public_key p) = 32%nat ∧ Forall addr_ok (ns_addresses p).

Definition row_of (p : NodeInfoSerde) (kv : list Z * PeerRow) : Prop :=
  kv.1 = ns_node_id p ∧ pr_public_key kv.2 = ns_public_key p ∧ json_to_string (ns_addresses p) = inr (pr_addresses kv.2).

Lemma insert_peers_rows faults i now t peers t' :
  NoDup (ns_node_id <$> peers) → insert_peers faults i now t peers = Ok t' →
  ∃ kvs, Forall2 row_of peers kvs ∧ t' = list_to_map kvs ∪ t.
Proof.
  revert i t. induction peers as [|p peers IH]; intros i t Hnd.
  { intros [= <-]. exists []. split; [done|]. symmetry. apply (left_id_L ∅ (∪)). }
  simpl. intros (t1 & Ht1 & Hrest)%outcome_bind_Ok. inversion Hnd as [|? ? Hp Hnd']; subst.
  unfold insert_peer, addresses_json in Ht1. destruct (json_to_string (ns_addresses p)) as [e|s] eqn:Ej; [done|].
  simpl in Ht1. destruct (faults i); [done|]. injection Ht1 as <-.
  destruct (IH _ _ Hnd' Hrest) as (kvs & Hall & ->).
  exists ((ns_node_id p, mkPeerRow (ns_public_key p) s now) :: kvs). split; [by constructor|]. simpl.
  rewrite <-insert_union_r; [by rewrite insert_union_l|]. apply not_elem_of_list_to_map_1.
  intros Hin. apply Hp. apply list_elem_of_fmap in Hin as (kv & -> & Hkv).
  apply list_elem_of_lookup in Hkv as [j Hj]. destruct (Forall2_lookup_r _ _ _ _ _ Hall Hj) as (q & Hq & -> & _).
  apply list_elem_of_fmap. exists q. split; [done|]. by eapply list_elem_of_lookup_2.
Qed.

Lemma rows_keys peers kvs : Forall2 row_of peers kvs → kvs.*1 = ns_node_id <$> peers.
Proof. induction 1 as [|p kv ps kvs [Hk _] _ IH]; simpl; [done|]. by f_equal. Qed.

Lemma keep_only_rows peers kvs t : Forall2 row_of peers kvs → keep_only peers (list_to_map kvs ∪ t) = list_to_map kvs.
Proof.
  intros Hall. pose proof (rows_keys _ _ Hall) as Hk. apply map_eq. intros k. apply option_eq. intros r.
  unfold keep_only. rewrite map_lookup_filter_Some, lookup_union_Some_raw, <-Hk. split.
  - intros [[Hr|[Hn _]] Hin]; [done|]. by apply not_elem_of_list_to_map_2 in Hn.
  - intros Hr. split; [by left|]. apply elem_of_list_to_map_2 in Hr. apply list_elem_of_fmap. by exists (k, r).
Qed.

Lemma read_rows peers kvs :
  Forall peer_ok peers → Forall2 row_of peers kvs →
  omap (λ '(id, r), read_row id (pr_public_key r) (pr_addresses r)) kvs = peers.
Proof.
  intros Hok Hall. induction Hall as [|p [k r] ps kvs (Hk & Hpk & Hj) _ IH]; [done|].
  inversion Hok as [|? ? (Hl & Hlp & Ha) Hok']; subst. simpl in Hk, Hpk, Hj. subst k.
  assert (read_row (ns_node_id p) (pr_public_key r) (pr_addresses r) = Some p) as Hr.
  { unfold read_row, blob_to_array. rewrite Hpk, !bool_decide_eq_true_2 by done. simpl.
    rewrite (json_roundtrip _ _ Ha Hj). by destruct p. }
  cbn [omap list_omap] in IH |- *. by rewrite Hr, IH.
Qed.

Lemma save_peers_batch_spec faults now m peers m' r :
  NoDup (ns_node_id <$> peers) → Forall peer_ok peers →
  save_peers_batch faults now m peers = (m', r) →
  identity m' = identity m ∧ providers m' = providers m ∧
  (r = Ok () → ∃ l, load_peers None m' = Ok l ∧ l ≡ₚ peers) ∧
  (r ≠ Ok () → m' = m).
Proof.
  intros Hnd Hok. unfold save_peers_batch, commit.
  destruct (_ ≫= _) as [m1|e|] eqn:E; intros [= <- <-]; [|done..].
  apply outcome_bind_Ok in E as (_ & _ & E). apply outcome_bind_Ok in E as (t & Ht & E).
  apply outcome_bind_Ok in E as (_ & _ & E). apply outcome_bind_Ok in E as (_ & _ & [= <-]).
  split_and!; [done|done| |done]. intros _. eexists. split; [done|]. simpl.
  destruct (insert_peers_rows _ _ _ _ _ _ Hnd Ht) as (kvs & Hall & ->).
  assert ((if bool_decide (peers = []) then ∅ else keep_only peers (list_to_map kvs ∪ routing_table m)) =
    list_to_map kvs) as ->.
  { case_bool_decide as Hp; [|by apply keep_only_rows]. subst peers. by inversion Hall. }
  rewrite map_to_list_to_map by by rewrite (rows_keys _ _ Hall). by rewrite (read_rows _ _ Hok Hall).
Qed.

(** A committed batch replaces the saved peers by exactly the given ones, those of earlier
    batches being gone, and [load_peers] reads every one of them back with its key and addresses
    (rows come in no particular order).  A batch that fails at any statement, or on a peer it
    cannot serialize, leaves the store unchanged. *)
Theorem save_peers_batch_exact faults now m peers m' r :
  NoDup (ns_node_id <$> peers) → Forall peer_ok peers →
  save_peers_batch faults now m peers = (m', r) →
  identity m' = identity m ∧ providers m' = providers m ∧
  (r = Ok () → ∃ l, load_peers None m' = Ok l ∧ l ≡ₚ peers) ∧
  (r ≠ Ok () → m' = m).
Proof. apply save_peers_batch_spec. Qed.
End peers.

(** ** Providers *)
Section provider_records.
Context `{JL : JsonLaws (list SocketAddr) (Forall addr_ok)} (oc : bool).

Lemma elem_of_get_providers now m key l n :
  get_providers None now m key = Ok l →
  n ∈ l ↔ ∃ id r, providers m !! (key, id) = Some r ∧ live now r = true ∧
    read_row id (vr_public_key r) (vr_addresses r) = Some n.
Proof.
  intros [= <-]. rewrite list_elem_of_omap. split.
  - intros ([[k id] r] & Hin%elem_of_map_to_list & Hn). destruct (_ && _) eqn:Hb; [|done]. bool_prop. subst k. eauto.
  - intros (id & r & Hr & Hl & Hn). exists ((key, id), r). split; [by apply elem_of_map_to_list|].
    by rewrite bool_decide_eq_true_2, Hl.
Qed.

Lemma blob_to_array_Some b a : blob_to_array b = Some a → a = b.
Proof. unfold blob_to_array. case_bool_decide; [by intros [= <-]|done]. Qed.

Lemma read_row_id id pk s n : read_row id pk s = Some n → ns_node_id n = id.
Proof.
  unfold read_row. intros (i & ->%blob_to_array_Some & (k & _ & Hn)%bind_Some)%bind_Some.
  destruct (json_from_str s); [done|]. by injection Hn as <-.
Qed.

(** A provider record is visible under its content key exactly until its time to live has passed,
    with the announced key and addresses, and there is one record per provider: announcing again
    replaces it.  The records of the other providers, and of other keys, stay as they were. *)
Theorem provider_lifetime now m key id pk addrs ttl m' :
  length id = 32%nat → length pk = 32%nat → Forall addr_ok addrs → 0 ≤ now → 0 ≤ ttl → now + ttl < 2 ^ 63 →
  add_provider oc None now m key id pk addrs ttl = (m', Ok ()) →
  ∀ now' key' l l', 0 ≤ now' < 2 ^ 63 →
    get_providers None now' m key' = Ok l → get_providers None now' m' key' = Ok l' →
    ∀ n, n ∈ l' ↔ if bool_decide (key' = key ∧ ns_node_id n = id)
                  then n = mkNodeInfoSerde id pk addrs ∧ now' < now + ttl else n ∈ l.
Proof.
  intros Hid Hpk Haddrs Hn0 Ht0 Hexp Hadd now' key' l l' Hnow' Hl Hl' n.
  unfold add_provider, commit, addresses_json in Hadd. destruct (json_to_string addrs) as [e|s] eqn:Ej; [done|].
  simpl in Hadd. rewrite usize_arith_ok in Hadd by (unfold usize_max; lia). simpl in Hadd. injection Hadd as <-.
  rewrite (elem_of_get_providers _ _ _ _ _ Hl'). cbn [providers set_providers].
  assert (∀ r, live now' (mkProviderRow pk r (as_i64 (now + ttl))) = true ↔ now' < now + ttl) as Hlive.
  { intros r. unfold live, as_i64. simpl. rewrite !(proj2 (Z.ltb_lt _ (2 ^ 63))) by lia. apply Z.ltb_lt. }
  assert (read_row id pk s = Some (mkNodeInfoSerde id pk addrs)) as Hread.
  { unfold read_row, blob_to_array. rewrite !bool_decide_eq_true_2 by done. simpl.
    by rewrite (json_roundtrip _ _ Haddrs Ej). }
  case_bool_decide as Hc.
  - destruct Hc as [-> Hni]. split.
    + intros (id' & r & Hr & Hlv & Hrd). pose proof (read_row_id _ _ _ _ Hrd). assert (id' = id) as -> by congruence.
      rewrite lookup_insert_eq in Hr. injection Hr as <-. simpl in *. rewrite Hread in Hrd. injection Hrd as <-.
      split; [done|]. by eapply Hlive.
    + intros [-> Hlt]. exists id. eexists. rewrite lookup_insert_eq. split_and!; [done|by apply Hlive|done].
  - rewrite (elem_of_get_providers _ _ _ _ _ Hl).
    split; intros (id' & r & Hr & Hlv & Hrd); exists id', r; (split; [|done]);
      pose proof (read_row_id _ _ _ _ Hrd);
      assert ((key, id) ≠ (key', id')) by (intros [= -> ->]; by apply Hc).
    + by rewrite lookup_insert_ne in Hr.
    + by rewrite lookup_insert_ne.
Qed.

(** Cleaning up at time [t] removes exactly the expired records, answers how many they were,
    and is invisible: a query at any later time gives the same providers as without it. *)
Theorem cleanup_invisible t m m' c :
  0 ≤ t < 2 ^ 63 → cleanup_expired_providers None t m = (m', Ok c) →
  identity m' = identity m ∧ routing_table m' = routing_table m ∧
  c = Z.of_nat (size (providers m)) - Z.of_nat (size (providers m')) ∧
  (∀ k r, providers m' !! k = Some r ↔ providers m !! k = Some r ∧ t < vr_expires_at r) ∧
  ∀ t' key l l', t ≤ t' < 2 ^ 63 → get_providers None t' m key = Ok l → get_providers None t' m' key = Ok l' →
    ∀ n, n ∈ l' ↔ n ∈ l.
Proof.
  intros Ht [= <- <-]. simpl.
  assert (∀ t' r, 0 ≤ t' < 2 ^ 63 → live t' r = true ↔ t' < vr_expires_at r) as Hlive.
  { intros t' r ?. unfold live, as_i64. rewrite (proj2 (Z.ltb_lt _ (2 ^ 63))) by lia. apply Z.ltb_lt. }
  assert (∀ k r, filter (λ '(_, r), live t r) (providers m) !! k = Some r ↔
    providers m !! k = Some r ∧ t < vr_expires_at r) as Hf.
  { intros k r. rewrite map_lookup_filter_Some. rewrite <-(Hlive t r Ht), Is_true_true. done. }
  split_and!; [done|done| |exact Hf|].
  - rewrite <-(map_filter_union_complement (λ '(_, r), live t r) (providers m)) at 2.
    rewrite map_size_disj_union by apply map_disjoint_filter_complement.
    assert (∀ m1 : gmap (list Z * list Z) ProviderRow, filter (λ '(_, r), negb (live t r)) m1 =
      filter (λ kr, ¬ (let '(_, r) := kr in live t r)) m1) as E.
    { intros m1. apply map_filter_ext. intros k r _. destruct (live t r); simpl; tauto. }
    rewrite E. lia.
  - intros t' key l l' Ht' Hl Hl' n. rewrite (elem_of_get_providers _ _ _ _ _ Hl), (elem_of_get_providers _ _ _ _ _ Hl').
    simpl. split; intros (id & r & Hr & Hlv & Hrd); exists id, r; (split; [|done]).
    + by apply Hf in Hr as [? _].
    + apply Hf. split; [done|]. apply Hlive in Hlv; lia.
Qed.
End provider_records.

(** ** Concrete runs *)
#[export] Instance addr_json : Json (list SocketAddr) := toy_json (list SocketAddr).
#[export] Instance addr_json_laws : JsonLaws (list SocketAddr) (Forall addr_ok) := toy_json_laws _ _.

Definition sample_serde (b : Z) : NodeInfoSerde :=
  mkNodeInfoSerde (as_bytes (sample_id b)) (replicate 32 b) [sample_addr 4000].

Lemma identity_roundtrip_witness :
  load_identity None (save_identity None init_tables (replicate 32 7) u64_max 16).1 =
    Ok (Some (replicate 32 7, u64_max, 16)).
Proof.
  destruct (identity_roundtrip None init_tables (replicate 32 7) u64_max 16 _ (Ok ())
    eq_refl ltac:(by vm_compute) ltac:(by vm_compute) eq_refl) as (_ & _ & Hl & _). by apply Hl.
Defined.

Lemma sample_peers_ok : Forall peer_ok [sample_serde 1; sample_serde 2].
Proof. repeat constructor; by vm_compute. Qed.
Lemma sample_peers_NoDup : NoDup (ns_node_id <$> [sample_serde 1; sample_serde 2]).
Proof. by decide_compute. Qed.

Definition saved : MetadataStore * res () :=
  save_peers_batch (λ _, None) 5 init_tables [sample_serde 1; sample_serde 2].

Lemma save_peers_batch_exact_witness :
  ∃ l, load_peers None saved.1 = Ok l ∧ l ≡ₚ [sample_serde 1; sample_serde 2].
Proof.
  assert (saved.2 = Ok ()) as Hr by by vm_compute.
  destruct (save_peers_batch_exact (λ _, None) 5 init_tables [sample_serde 1; sample_serde 2] saved.1 saved.2
    sample_peers_NoDup sample_peers_ok (surjective_pairing saved)) as (_ & _ & Hl & _). exact (Hl Hr).
Defined.

Definition provided : MetadataStore * res () :=
  add_provider true None 100 init_tables (replicate 32 9) (as_bytes (sample_id 1)) (replicate 32 1) [sample_addr 4000] 50.
Lemma provided_ok : provided = (provided.1, Ok ()).
Proof. assert (provided.2 = Ok ()) as <- by by vm_compute. apply surjective_pairing. Qed.

Lemma provider_lifetime_witness :
  ∃ l', get_providers None 149 provided.1 (replicate 32 9) = Ok l' ∧ sample_serde 1 ∈ l'.
Proof.
  eexists. split; [reflexivity|].
  apply (provider_lifetime true 100 init_tables (replicate 32 9) (as_bytes (sample_id 1)) (replicate 32 1)
    [sample_addr 4000] 50 provided.1 eq_refl eq_refl ltac:(repeat constructor; by vm_compute)
    ltac:(lia) ltac:(lia) ltac:(lia) provided_ok 149 (replicate 32 9) [] _ ltac:(lia) eq_refl eq_refl).
  rewrite bool_decide_eq_true_2 by done. split; [done|lia].
Defined.

Definition cleaned : MetadataStore * res Z := cleanup_expired_providers None 150 provided.1.

Lemma cleanup_invisible_witness :
  1 = Z.of_nat (size (providers provided.1)) - Z.of_nat (size (providers cleaned.1)).
Proof.
  assert (cleaned.2 = Ok 1) as Hc by by vm_compute.
  apply (cleanup_invisible 150 provided.1 cleaned.1 1); [lia|]. rewrite <-Hc. apply surjective_pairing.
Defined.
