(* ===== verification/Message.v ===== *)
(** * Wire messages ([src/protocol/message.rs], and their labels in [src/metrics.rs])

    The envelope, the payloads, and signing.  MessagePack is the [Serde] class; the
    random [msg_id] of [Message::new] is an argument. *)
From S2P Require Import Prelude.
From S2P Require Import Errors.
From S2P Require Import Bytes.
From S2P Require Import External.
From S2P Require Import Identity.
From S2P Require Import Net.
From S2P Require Import Samples.
From S2P Require Import Bucket.

Definition PROTOCOL_VERSION : Z := 1.

Inductive Payload : Type :=
  | PingRequest
  | FindNodeRequest (target : list Z)
  | GetProvidersRequest (key : list Z)
  | AddProviderRequest (key : list Z) (addresses : list SocketAddr)
  | GetChunkRequest (chunk_hash : list Z)
  | PutChunkRequest (chunk_hash data : list Z)
  | RelayRequest (target_id payload : list Z) (relay_hops : Z)
  | ConnectRequest (requester_addrs : list SocketAddr) (requester_id requester_key : list Z)
  | PingResponse (observed_addr : option SocketAddr)
  | FindNodeResponse (nodes : list NodeInfoSerde)
  | GetProvidersResponse (providers closer_nodes : list NodeInfoSerde)
  | AddProviderResponse (ok : bool)
  | GetChunkResponse (data : list Z)
  | PutChunkResponse (ok : bool)
  | RelayResponse (ok : bool) (payload : list Z)
  | ConnectResponse (ok : bool)
  | Error (code : Z) (message : string).
#[export] Instance Payload_eq_dec : EqDecision Payload.
Proof. solve_decision. Defined.

Record Message := mkMessage {
  m_msg_id : Z;
  m_sender_id : list Z;
  m_sender_key : list Z;
  m_pow_proof : PowProof;
  m_payload : Payload;
  m_signature : list Z;
  m_client_mode : bool;
  m_protocol_version : Z;
}.
#[export] Instance Message_eq_dec : EqDecision Message.
Proof. solve_decision. Defined.

Definition Message_new (msg_id : Z) (sender_id sender_key : list Z) (pow_proof : PowProof) (payload : Payload) : Message :=
  mkMessage msg_id sender_id sender_key pow_proof payload [] false PROTOCOL_VERSION.

Definition response (m : Message) (sender_id sender_key : list Z) (pow_proof : PowProof) (payload : Payload) : Message :=
  mkMessage (m_msg_id m) sender_id sender_key pow_proof payload [] false PROTOCOL_VERSION.

Definition set_signature (m : Message) (s : list Z) : Message :=
  mkMessage (m_msg_id m) (m_sender_id m) (m_sender_key m) (m_pow_proof m) (m_payload m) s (m_client_mode m)
    (m_protocol_version m).
Definition set_client_mode (m : Message) (c : bool) : Message :=
  mkMessage (m_msg_id m) (m_sender_id m) (m_sender_key m) (m_pow_proof m) (m_payload m) (m_signature m) c
    (m_protocol_version m).

Section signing.
Context `{Ed25519} `{Serde Payload}.

Definition signing_bytes (m : Message) : option (list Z) :=
  match rmp_to_vec (m_payload m) with
  | inl _ => None
  | inr payload_bytes => Some (to_be_bytes 8 (m_msg_id m) ++ m_sender_id m ++ payload_bytes)
  end.

Definition sign (kp : Keypair) (m : Message) : Message :=
  match signing_bytes m with
  | Some bytes => set_signature m (key_sign kp bytes)
  | None => m
  end.

Definition verify_signature (m : Message) : bool :=
  if negb (length (m_signature m) =? 64)%nat then false
  else if negb (ed_vk_valid (m_sender_key m)) then false
  else
    match signing_bytes m with
    | None => false
    | Some bytes => ed_verify (m_sender_key m) bytes (m_signature m)
    end.
End signing.

Definition message_to_bytes `{Serde Message} (m : Message) : string + list Z := rmp_to_vec m.
Definition message_from_bytes `{Serde Message} (b : list Z) : string + Message := rmp_from_slice b.

Definition is_request (m : Message) : bool :=
  match m_payload m with
  | PingRequest | FindNodeRequest _ | GetProvidersRequest _ | AddProviderRequest _ _ | GetChunkRequest _
  | PutChunkRequest _ _ | RelayRequest _ _ _ | ConnectRequest _ _ _ => true
  | _ => false
  end.

Definition payload_type_label (p : Payload) : string :=
  match p with
  | PingRequest => "ping"
  | FindNodeRequest _ => "find_node"
  | GetProvidersRequest _ => "get_providers"
  | AddProviderRequest _ _ => "add_provider"
  | GetChunkRequest _ => "get_chunk"
  | PutChunkRequest _ _ => "put_chunk"
  | RelayRequest _ _ _ => "relay"
  | PingResponse _ => "ping_resp"
  | FindNodeResponse _ => "find_node_resp"
  | GetProvidersResponse _ _ => "get_providers_resp"
  | AddProviderResponse _ => "add_provider_resp"
  | GetChunkResponse _ => "get_chunk_resp"
  | PutChunkResponse _ => "put_chunk_resp"
  | RelayResponse _ _ => "relay_resp"
  | ConnectRequest _ _ _ => "connect"
  | ConnectResponse _ => "connect_resp"
  | Error _ _ => "error"
  end.

(** A message of a node: arrays and integers of their widths. *)
Definition message_ok (m : Message) : Prop :=
  0 ≤ m_msg_id m ≤ u64_max ∧ length (m_sender_id m) = 32%nat.

Section signing_properties.
Context `{Ed25519} `{SL : SerdeLaws Payload P}.

Lemma signing_bytes_inj m m' b :
  message_ok m → message_ok m' → P (m_payload m) → P (m_payload m') →
  signing_bytes m = Some b → signing_bytes m' = Some b →
  m_msg_id m = m_msg_id m' ∧ m_sender_id m = m_sender_id m' ∧ m_payload m = m_payload m'.
Proof.
  intros [Hi Hl] [Hi' Hl'] HP HP' Hb Hb'. unfold signing_bytes in *.
  destruct (rmp_to_vec (m_payload m)) as [|pb] eqn:Ep; [done|].
  destruct (rmp_to_vec (m_payload m')) as [|pb'] eqn:Ep'; [done|].
  assert (to_be_bytes 8 (m_msg_id m) ++ m_sender_id m ++ pb = to_be_bytes 8 (m_msg_id m') ++ m_sender_id m' ++ pb') as E
    by congruence.
  apply app_inj_1 in E as [E1 E]; [|unfold to_be_bytes; by rewrite !length_reverse, !length_to_le_bytes].
  apply app_inj_1 in E as [E2 E3]; [|congruence]. split_and!; [|done|].
  - unfold u64_max in *. rewrite <-(be_value_to_be 8 (m_msg_id m)), E1 by (simpl; lia). apply be_value_to_be. simpl; lia.
  - apply (serde_roundtrip _ _ HP) in Ep. apply (serde_roundtrip _ _ HP') in Ep'. congruence.
Qed.

Lemma verify_sign kp m :
  m_sender_key m = public_key_bytes kp → m_signature m = [] →
  verify_signature (sign kp m) = true ↔ is_Some (signing_bytes m).
Proof.
  intros Hk Hs. unfold sign. destruct (signing_bytes m) as [b|] eqn:Eb.
  - split; [by eexists|]. intros _. unfold verify_signature, key_sign. simpl. rewrite Hk.
    rewrite (proj1 (ed_sign_ok (signing_key kp) b)). unfold public_key_bytes. simpl. rewrite ed_public_valid. simpl.
    change (signing_bytes (set_signature m _)) with (signing_bytes m). rewrite Eb. apply ed_verify_sign.
  - split; [|by intros []]. unfold verify_signature. by rewrite Hs.
Qed.

(** C31: A message signed with a key verifies under it, whatever the payload, exactly when the
    payload can be serialized.  An accepted signature is one over the identifier, the sender
    and the payload and nothing else: two messages with the same signed bytes agree on these
    three, and the proof of work, the client flag and the version can be changed without
    invalidating it. *)
Theorem signature_covers kp m pow cm ver :
  message_ok m → P (m_payload m) → m_sender_key m = public_key_bytes kp → m_signature m = [] →
  (verify_signature (sign kp m) = true ↔ is_Some (signing_bytes m)) ∧
  (∀ m', message_ok m' → P (m_payload m') → signing_bytes m' = signing_bytes m → is_Some (signing_bytes m) →
     m_msg_id m' = m_msg_id m ∧ m_sender_id m' = m_sender_id m ∧ m_payload m' = m_payload m) ∧
  let m' := sign kp m in
  verify_signature (mkMessage (m_msg_id m') (m_sender_id m') (m_sender_key m') pow (m_payload m') (m_signature m') cm ver)
    = verify_signature m'.
Proof.
  intros Hm HP Hk Hs. split_and!; [by apply verify_sign| |done].
  intros m' Hm' HP' E [b Hb]. rewrite Hb in E. destruct (signing_bytes_inj _ _ _ Hm' Hm HP' HP E Hb) as (-> & -> & ->). done.
Qed.
End signing_properties.

(** ** Countable payloads, for the concrete codecs *)
#[export] Program Instance NodeInfoSerde_countable : Countable NodeInfoSerde :=
  inj_countable' (λ n, (ns_node_id n, ns_public_key n, ns_addresses n)) (λ y, mkNodeInfoSerde y.1.1 y.1.2 y.2) _.
Next Obligation. by intros []. Qed.
#[export] Program Instance PowProof_countable : Countable PowProof :=
  inj_countable' (λ p, (nonce p, difficulty p)) (λ y, mkPow y.1 y.2) _.
Next Obligation. by intros []. Qed.

#[local] Notation payload_code := (
  () + (list Z + (list Z + (list Z * list SocketAddr + (list Z + (list Z * list Z + (list Z * list Z * Z +
  (list SocketAddr * list Z * list Z + (option SocketAddr + (list NodeInfoSerde + (list NodeInfoSerde * list NodeInfoSerde +
  (bool + (list Z + (bool + (bool * list Z + (bool + Z * string))))))))))))))))%type.
Definition payload_to_code (p : Payload) : payload_code :=
  match p with
  | PingRequest => inl (())
  | FindNodeRequest x => inr (inl (x))
  | GetProvidersRequest x => inr (inr (inl (x)))
  | AddProviderRequest x y => inr (inr (inr (inl (x, y))))
  | GetChunkRequest x => inr (inr (inr (inr (inl (x)))))
  | PutChunkRequest x y => inr (inr (inr (inr (inr (inl (x, y))))))
  | RelayRequest x y z => inr (inr (inr (inr (inr (inr (inl (x, y, z)))))))
  | ConnectRequest x y z => inr (inr (inr (inr (inr (inr (inr (inl (x, y, z))))))))
  | PingResponse x => inr (inr (inr (inr (inr (inr (inr (inr (inl (x)))))))))
  | FindNodeResponse x => inr (inr (inr (inr (inr (inr (inr (inr (inr (inl (x))))))))))
  | GetProvidersResponse x y => inr (inr (inr (inr (inr (inr (inr (inr (inr (inr (inl (x, y)))))))))))
  | AddProviderResponse x => inr (inr (inr (inr (inr (inr (inr (inr (inr (inr (inr (inl (x))))))))))))
  | GetChunkResponse x => inr (inr (inr (inr (inr (inr (inr (inr (inr (inr (inr (inr (inl (x)))))))))))))
  | PutChunkResponse x => inr (inr (inr (inr (inr (inr (inr (inr (inr (inr (inr (inr (inr (inl (x))))))))))))))
  | RelayResponse x y => inr (inr (inr (inr (inr (inr (inr (inr (inr (inr (inr (inr (inr (inr (inl (x, y)))))))))))))))
  | ConnectResponse x => inr (inr (inr (inr (inr (inr (inr (inr (inr (inr (inr (inr (inr (inr (inr (inl (x))))))))))))))))
  | Error x y => inr (inr (inr (inr (inr (inr (inr (inr (inr (inr (inr (inr (inr (inr (inr (inr (x, y))))))))))))))))
  end.
Definition payload_of_code (c : payload_code) : Payload :=
  match c with
  | inl (()) => PingRequest
  | inr (inl (x)) => FindNodeRequest x
  | inr (inr (inl (x))) => GetProvidersRequest x
  | inr (inr (inr (inl ((x, y))))) => AddProviderRequest x y
  | inr (inr (inr (inr (inl (x))))) => GetChunkRequest x
  | inr (inr (inr (inr (inr (inl ((x, y))))))) => PutChunkRequest x y
  | inr (inr (inr (inr (inr (inr (inl ((x, y, z)))))))) => RelayRequest x y z
  | inr (inr (inr (inr (inr (inr (inr (inl ((x, y, z))))))))) => ConnectRequest x y z
  | inr (inr (inr (inr (inr (inr (inr (inr (inl (x))))))))) => PingResponse x
  | inr (inr (inr (inr (inr (inr (inr (inr (inr (inl (x)))))))))) => FindNodeResponse x
  | inr (inr (inr (inr (inr (inr (inr (inr (inr (inr (inl ((x, y)))))))))))) => GetProvidersResponse x y
  | inr (inr (inr (inr (inr (inr (inr (inr (inr (inr (inr (inl (x)))))))))))) => AddProviderResponse x
  | inr (inr (inr (inr (inr (inr (inr (inr (inr (inr (inr (inr (inl (x))))))))))))) => GetChunkResponse x
  | inr (inr (inr (inr (inr (inr (inr (inr (inr (inr (inr (inr (inr (inl (x)))))))))))))) => PutChunkResponse x
  | inr (inr (inr (inr (inr (inr (inr (inr (inr (inr (inr (inr (inr (inr (inl ((x, y)))))))))))))))) => RelayResponse x y
  | inr (inr (inr (inr (inr (inr (inr (inr (inr (inr (inr (inr (inr (inr (inr (inl (x)))))))))))))))) => ConnectResponse x
  | inr (inr (inr (inr (inr (inr (inr (inr (inr (inr (inr (inr (inr (inr (inr (inr ((x, y))))))))))))))))) => Error x y
  end.
#[export] Program Instance Payload_countable : Countable Payload :=
  inj_countable' (A := payload_code) payload_to_code payload_of_code _.
Next Obligation. by intros []. Qed.
#[export] Program Instance Message_countable : Countable Message :=
  inj_countable' (λ m, (m_msg_id m, m_sender_id m, m_sender_key m, m_pow_proof m, m_payload m, m_signature m,
                        m_client_mode m, m_protocol_version m))
    (λ '(i, s, k, p, q, g, c, v), mkMessage i s k p q g c v) _.
Next Obligation. by intros []. Qed.

#[export] Instance payload_serde : Serde Payload := toy_serde Payload.
#[export] Instance payload_serde_laws : SerdeLaws Payload (λ _, True) := toy_serde_laws _ _.
#[export] Instance message_serde : Serde Message := toy_serde Message.
#[export] Instance message_serde_laws : SerdeLaws Message (λ _, True) := toy_serde_laws _ _.

Definition sample_kp : Keypair := from_secret_bytes (replicate 32 5).
Definition sample_message : Message :=
  Message_new 77 (as_bytes (keypair_node_id sample_kp)) (public_key_bytes sample_kp) (mkPow 0 0) (GetChunkRequest (replicate 32 1)).

Lemma signature_covers_witness : verify_signature (sign sample_kp sample_message) = true.
Proof.
  apply (signature_covers (P := λ _, True) sample_kp sample_message (mkPow 0 0) false 1).
  - split; [vm_compute; split; discriminate|reflexivity].
  - exact I.
  - reflexivity.
  - reflexivity.
  - by eexists.
Defined.
