(* ===== verification/RateLimit.v ===== *)
(** * Rate limiting ([src/transport/rate_limit.rs])

    A token bucket per IP address.  The tokens are [f64] in the code and IEEE-754
    binary64 numbers here (the [SpecFloat] operations of the standard library, in
    round-to-nearest-even); instants and durations are nanoseconds. *)
From Stdlib Require Import SpecFloat.
From S2P Require Import Prelude.
From S2P Require Import Errors.
From S2P Require Import Bytes.
From S2P Require Import Net.

Definition f64 : Set := spec_float.
Definition f64_of_Z (z : Z) : f64 := binary_normalize 53 1024 z 0 false.
Definition f64_add : f64 → f64 → f64 := SFadd 53 1024.
Definition f64_sub : f64 → f64 → f64 := SFsub 53 1024.
Definition f64_mul : f64 → f64 → f64 := SFmul 53 1024.
Definition f64_div : f64 → f64 → f64 := SFdiv 53 1024.
(** [f64::min]: a NaN loses. *)
Definition f64_min (x y : f64) : f64 :=
  match x, y with
  | S754_nan, _ => y
  | _, S754_nan => x
  | _, _ => if SFltb y x then y else x
  end.
(** [Duration::as_secs_f64]. *)
Definition as_secs_f64 (nanos : Z) : f64 :=
  f64_add (f64_of_Z (nanos / 10 ^ 9)) (f64_div (f64_of_Z (nanos mod 10 ^ 9)) (f64_of_Z (10 ^ 9))).
(** [Instant::duration_since] saturates at zero. *)
Definition duration_since (now earlier : Z) : Z := Z.max 0 (now - earlier).

Record TokenBucket := mkTokens { tokens : f64; last_refill : Z; last_used : Z }.
Record RateLimiter := mkLimiter {
  tb_buckets : gmap IpAddr TokenBucket;
  rate_per_second : Z;
  burst : Z;
}.

Definition RateLimiter_new (rate_per_second burst : Z) : RateLimiter := mkLimiter ∅ rate_per_second burst.

Definition limiter_check (now : Z) (ip : IpAddr) (l : RateLimiter) : RateLimiter * bool :=
  let bucket := default (mkTokens (f64_of_Z (burst l)) now now) (tb_buckets l !! ip) in
  let elapsed := as_secs_f64 (duration_since now (last_refill bucket)) in
  let filled := f64_min (f64_add (tokens bucket) (f64_mul elapsed (f64_of_Z (rate_per_second l)))) (f64_of_Z (burst l)) in
  let allowed := SFleb (f64_of_Z 1) filled in
  let left := if allowed then f64_sub filled (f64_of_Z 1) else filled in
  (mkLimiter (<[ip := mkTokens left now now]> (tb_buckets l)) (rate_per_second l) (burst l), allowed).

Definition limiter_cleanup (now max_idle : Z) (l : RateLimiter) : RateLimiter :=
  mkLimiter (filter (λ '(_, b), duration_since now (last_used b) < max_idle) (tb_buckets l)) (rate_per_second l) (burst l).

(** Several requests from one address at one instant. *)
Fixpoint checks (n : nat) (now : Z) (ip : IpAddr) (l : RateLimiter) : RateLimiter * list bool :=
  match n with
  | O => (l, [])
  | S n => let '(l1, b) := limiter_check now ip l in let '(l2, bs) := checks n now ip l1 in (l2, b :: bs)
  end.

(** ** Exact numbers *)
Lemma digits2_pos_size p : digits2_pos p = Pos.size p.
Proof. induction p; simpl; congruence. Qed.

Lemma size_bounds p : 2 ^ (Z.pos (Pos.size p) - 1) ≤ Z.pos p < 2 ^ Z.pos (Pos.size p).
Proof.
  pose proof (Pos.size_le p) as H1. pose proof (Pos.size_gt p) as H2.
  split.
  - assert (Z.pos (2 ^ Pos.size p) ≤ Z.pos (p~0)) as H3 by lia. rewrite Pos2Z.inj_pow in H3.
    replace (Z.pos (Pos.size p)) with (Z.succ (Z.pos (Pos.size p) - 1)) in H3 by lia.
    rewrite Z.pow_succ_r in H3 by lia. lia.
  - assert (Z.pos p < Z.pos (2 ^ Pos.size p)) as H3 by lia. by rewrite Pos2Z.inj_pow in H3.
Qed.

Lemma size_unique p d : 2 ^ (d - 1) ≤ Z.pos p < 2 ^ d → Z.pos (Pos.size p) = d.
Proof.
  intros [H1 H2]. pose proof (size_bounds p) as [H3 H4].
  assert (0 ≤ d) by (destruct (decide (0 ≤ d)); [done|]; rewrite Z.pow_neg_r in H2 by lia; lia).
  assert (d - 1 < Z.pos (Pos.size p)) by (destruct (decide (d = 0)); [lia|]; apply (Z.pow_lt_mono_r_iff 2); lia).
  assert (Z.pos (Pos.size p) - 1 < d) by (apply (Z.pow_lt_mono_r_iff 2); lia). lia.
Qed.

Lemma size_shift p k : 0 ≤ k → Z.pos (Pos.size (Z.to_pos (Z.pos p * 2 ^ k))) = Z.pos (Pos.size p) + k.
Proof.
  intros Hk. assert (0 < 2 ^ k) by (apply Z.pow_pos_nonneg; lia). apply size_unique. rewrite Z2Pos.id by lia.
  pose proof (size_bounds p) as [H1 H2].
  replace (Z.pos (Pos.size p) + k - 1) with (Z.pos (Pos.size p) - 1 + k) by lia.
  rewrite !Z.pow_add_r by lia. split; [apply Z.mul_le_mono_nonneg_r; lia|apply Z.mul_lt_mono_pos_r; lia].
Qed.

Lemma iter_xO p k : Pos.iter xO p k = Z.to_pos (Z.pos p * 2 ^ Z.pos k).
Proof.
  apply Pos2Z.inj. rewrite Z2Pos.id by (apply Z.mul_pos_pos; [done|apply Z.pow_pos_nonneg; lia]).
  induction k using Pos.peano_ind; [cbn; lia|]. rewrite Pos.iter_succ, Pos2Z.inj_succ, Z.pow_succ_r by lia.
  rewrite Pos2Z.inj_xO, IHk. lia.
Qed.

Lemma iter_pos_nat {A} (f : A → A) n x : SpecFloat.iter_pos f n x = Nat.iter (Pos.to_nat n) f x.
Proof.
  revert x. induction n as [n IH|n IH|]; intros x; cbn [SpecFloat.iter_pos]; [| |done].
  - rewrite !IH, Pos2Nat.inj_xI, Nat.iter_succ_r, <-Nat.iter_add. f_equal. lia.
  - rewrite !IH, Pos2Nat.inj_xO, <-Nat.iter_add. f_equal. lia.
Qed.

Lemma shr_exact n z : 0 < z → Nat.iter n shr_1 (Build_shr_record (z * 2 ^ Z.of_nat n) false false) = Build_shr_record z false false.
Proof.
  intros Hz. revert z Hz. induction n as [|n IH]; intros z Hz; [by rewrite Z.mul_1_r|].
  rewrite Nat.iter_succ_r, Nat2Z.inj_succ, Z.pow_succ_r by lia. rewrite <-(IH z Hz). f_equal.
  assert (0 < z * 2 ^ Z.of_nat n) by (apply Z.mul_pos_pos; [done|apply Z.pow_pos_nonneg; lia]).
  replace (z * (2 * 2 ^ Z.of_nat n)) with (2 * (z * 2 ^ Z.of_nat n)) by lia.
  by destruct (z * 2 ^ Z.of_nat n).
Qed.

(** The binary64 number of a positive integer of at most 53 digits. *)
Definition norm (p : positive) : f64 :=
  S754_finite false (Z.to_pos (Z.pos p * 2 ^ (53 - Z.pos (Pos.size p)))) (Z.pos (Pos.size p) - 53).
Definition f64_nat (n : Z) : f64 := match n with Z.pos p => norm p | _ => S754_zero false end.

Lemma shl_align_to m e e' : e' ≤ e → shl_align m e e' = (Z.to_pos (Z.pos m * 2 ^ (e - e')), e').
Proof.
  intros He. unfold shl_align. destruct (e' - e) as [|q|q] eqn:E; [|lia|].
  - assert (e - e' = 0) as -> by lia. rewrite Z.mul_1_r, Pos2Z.id. f_equal. lia.
  - rewrite iter_xO. by assert (e - e' = Z.pos q) as -> by lia.
Qed.

(** A mantissa of 53 digits is left alone, and trailing zeros are dropped. *)
Lemma round_aux_exact p j e :
  0 ≤ j → Z.pos (Pos.size p) = 53 → -1074 ≤ e + j ≤ 971 →
  binary_round_aux 53 1024 false (Z.pos (Z.to_pos (Z.pos p * 2 ^ j))) e loc_Exact = S754_finite false p (e + j).
Proof.
  intros Hj Hs He. unfold binary_round_aux, shr_fexp, Zdigits2, fexp, emin. rewrite digits2_pos_size, size_shift, Hs by lia.
  assert (Z.max (53 + j + e - 53) (3 - 1024 - 53) - e = j) as -> by lia.
  assert (0 < Z.pos p * 2 ^ j) by (apply Z.mul_pos_pos; [done|apply Z.pow_pos_nonneg; lia]).
  assert (shr (shr_record_of_loc (Z.pos (Z.to_pos (Z.pos p * 2 ^ j))) loc_Exact) e j =
    (Build_shr_record (Z.pos p) false false, e + j)) as ->.
  { rewrite Z2Pos.id by done. unfold shr, shr_record_of_loc. destruct j as [|q|q]; [|  |lia].
    - by rewrite Z.mul_1_r, Z.add_0_r.
    - rewrite iter_pos_nat. f_equal. rewrite <-(positive_nat_Z q). by apply shr_exact. }
  cbn [shr_m loc_of_shr_record round_nearest_even]. rewrite digits2_pos_size, Hs.
  assert (Z.max (53 + (e + j) - 53) (3 - 1024 - 53) - (e + j) = 0) as -> by lia. cbn [shr shr_record_of_loc shr_m].
  by rewrite (proj2 (Z.leb_le _ _)) by lia.
Qed.

Lemma round_exact p k :
  Z.pos (Pos.size p) ≤ 53 → 0 ≤ k ≤ 500 →
  binary_round 53 1024 false (Z.to_pos (Z.pos p * 2 ^ k)) (- k) = norm p.
Proof.
  intros Hp Hk. unfold binary_round. rewrite digits2_pos_size, size_shift by lia. unfold fexp, emin.
  assert (Z.max (Z.pos (Pos.size p) + k + - k - 53) (3 - 1024 - 53) = Z.pos (Pos.size p) - 53) as -> by lia.
  set (d := Z.pos (Pos.size p)) in *. assert (1 ≤ d) by (unfold d; lia).
  assert (0 < 2 ^ k) by (apply Z.pow_pos_nonneg; lia).
  assert (0 < 2 ^ (53 - d)) by (apply Z.pow_pos_nonneg; lia).
  set (q := Z.to_pos (Z.pos p * 2 ^ (53 - d))).
  assert (Z.pos (Pos.size q) = 53) as Hq by (unfold q; rewrite size_shift; unfold d in *; lia).
  destruct (decide (d - 53 ≤ - k)) as [Hle|Hgt].
  - rewrite shl_align_to by done.
    assert (Z.to_pos (Z.pos (Z.to_pos (Z.pos p * 2 ^ k)) * 2 ^ (- k - (d - 53))) = Z.to_pos (Z.pos q * 2 ^ 0)) as ->.
    { unfold q. rewrite !Z2Pos.id by lia. rewrite <-Z.mul_assoc, <-Z.pow_add_r by lia. f_equal.
      rewrite Z.mul_1_r. do 2 f_equal. lia. }
    rewrite round_aux_exact by lia. unfold norm. fold d. by rewrite Z.add_0_r.
  - unfold shl_align. destruct (d - 53 - - k) as [|r|r] eqn:E; [lia| |lia].
    assert (Z.to_pos (Z.pos p * 2 ^ k) = Z.to_pos (Z.pos q * 2 ^ (d - 53 + k))) as ->.
    { unfold q. rewrite Z2Pos.id by lia. rewrite <-Z.mul_assoc, <-Z.pow_add_r by lia. do 2 f_equal. f_equal. lia. }
    rewrite round_aux_exact by lia. unfold norm. fold d. f_equal. lia.
Qed.

Lemma size_le_53 p : Z.pos p < 2 ^ 53 → Z.pos (Pos.size p) ≤ 53.
Proof.
  intros Hp. pose proof (size_bounds p) as [H1 _]. assert (Z.pos (Pos.size p) - 1 < 53); [|lia].
  apply (Z.pow_lt_mono_r_iff 2); lia.
Qed.

Lemma f64_of_nat n : 0 ≤ n < 2 ^ 53 → f64_of_Z n = f64_nat n.
Proof.
  intros Hn. destruct n as [|p|p]; [done| |lia]. unfold f64_of_Z. cbn [binary_normalize f64_nat].
  rewrite <-(round_exact p 0) by first [lia | apply size_le_53; lia]. by rewrite Z.mul_1_r, Pos2Z.id.
Qed.

Lemma f64_nat_pred n : 1 ≤ n < 2 ^ 53 → f64_sub (f64_nat n) (f64_nat 1) = f64_nat (n - 1).
Proof.
  intros Hn. destruct n as [|p|p]; [lia| |lia]. pose proof (size_le_53 p ltac:(lia)).
  set (d := Z.pos (Pos.size p)) in *. assert (1 ≤ d) by (unfold d; lia).
  unfold f64_sub, f64_nat, norm. fold d. cbn [SFsub cond_Zopp].
  change (Z.pos (Pos.size 1)) with 1. assert (Z.min (d - 53) (1 - 53) = -52) as -> by lia.
  rewrite !shl_align_to by lia. cbn [fst].
  assert (0 < 2 ^ (53 - d)) by (apply Z.pow_pos_nonneg; lia).
  assert (0 < 2 ^ (d - 53 - -52)) by (apply Z.pow_pos_nonneg; lia).
  rewrite !Z2Pos.id by (try lia; apply Z.mul_pos_pos; lia).
  rewrite <-Z.mul_assoc, <-Z.pow_add_r by lia.
  assert (53 - d + (d - 53 - -52) = 52) as -> by lia.
  change (1 * 2 ^ (53 - 1) * 2 ^ (1 - 53 - -52)) with (2 ^ 52).
  assert (Z.pos p * 2 ^ 52 - 2 ^ 52 = (Z.pos p - 1) * 2 ^ 52) as -> by lia.
  destruct (Z.pos p - 1) as [|q|q] eqn:Eq; [done| |lia].
  exact (round_exact q 52 ltac:(apply size_le_53; lia) ltac:(lia)).
Qed.

Lemma norm_lt p q : Z.pos p ≤ Z.pos q → SFltb (norm q) (norm p) = false.
Proof.
  intros Hpq. pose proof (size_bounds p) as [H1 H2]. pose proof (size_bounds q) as [H3 H4].
  assert (Z.pos (Pos.size p) ≤ Z.pos (Pos.size q)) as Hs.
  { destruct (decide (Z.pos (Pos.size p) ≤ Z.pos (Pos.size q))); [done|].
    assert (2 ^ Z.pos (Pos.size q) ≤ 2 ^ (Z.pos (Pos.size p) - 1)) by (apply Z.pow_le_mono_r; lia). lia. }
  unfold SFltb, norm. cbn [SFcompare].
  destruct (Z.compare_spec (Z.pos (Pos.size q) - 53) (Z.pos (Pos.size p) - 53)) as [E|E|E]; [|lia|done].
  assert (Z.pos (Pos.size q) = Z.pos (Pos.size p)) as -> by lia.
  set (k := 2 ^ (53 - Z.pos (Pos.size p))). change (Pos.compare_cont Eq ?a ?b) with (Pos.compare a b).
  destruct (Pos.compare_spec (Z.to_pos (Z.pos q * k)) (Z.to_pos (Z.pos p * k))) as [C|C|C]; try done.
  exfalso. assert (0 ≤ k) by (apply Z.pow_nonneg; lia). 
  assert (Z.pos p * k ≤ Z.pos q * k) by (apply Z.mul_le_mono_nonneg_r; lia).
  apply Pos2Z.pos_lt_pos in C. lia.
Qed.

Lemma f64_one_le n : 0 ≤ n → SFleb (f64_nat 1) (f64_nat n) = bool_decide (1 ≤ n).
Proof.
  intros Hn. destruct n as [|p|p]; [done| |lia]. rewrite bool_decide_eq_true_2 by lia.
  pose proof (norm_lt 1 p ltac:(lia)) as H. unfold SFleb, SFltb in *. cbn [f64_nat].
  unfold norm in *. cbn [SFcompare] in *.
  change (Z.pos (Pos.size 1) - 53) with (-52) in *.
  destruct (Z.compare_spec (Z.pos (Pos.size p) - 53) (-52)) as [E|E|E]; [|lia|].
  - assert (Z.pos (Pos.size p) = 1) as E1 by lia. pose proof (size_bounds p) as [_ Hb]. rewrite E1 in *.
    assert (p = 1%positive) as -> by lia. done.
  - by rewrite (proj2 (Z.compare_lt_iff _ _)) by lia.
Qed.

Lemma f64_min_nat n b : 0 ≤ n ≤ b → f64_min (f64_nat n) (f64_nat b) = f64_nat n.
Proof.
  intros Hn. unfold f64_min. assert (SFltb (f64_nat b) (f64_nat n) = false) as ->.
  { destruct n as [|p|p], b as [|q|q]; try done; try lia. apply norm_lt. lia. }
  by destruct n as [|p|p], b as [|q|q]; try done.
Qed.

Lemma f64_idle n rate : 0 ≤ rate < 2 ^ 53 → f64_add (f64_nat n) (f64_mul (as_secs_f64 0) (f64_of_Z rate)) = f64_nat n.
Proof.
  intros Hr. change (as_secs_f64 0) with (S754_zero false). rewrite f64_of_nat by done.
  by destruct rate as [|r|r], n as [|p|p]; try done.
Qed.

(** One check of a bucket that holds [n] tokens, at the instant of its last refill. *)
Lemma check_same_instant now ip l n used :
  0 ≤ rate_per_second l < 2 ^ 32 → 0 ≤ n ≤ burst l → burst l < 2 ^ 32 →
  tb_buckets l !! ip = Some (mkTokens (f64_nat n) now used) ∨ tb_buckets l !! ip = None ∧ n = burst l →
  limiter_check now ip l =
    (mkLimiter (<[ip := mkTokens (f64_nat (Z.max 0 (n - 1))) now now]> (tb_buckets l)) (rate_per_second l) (burst l),
     bool_decide (1 ≤ n)).
Proof.
  intros Hr Hn Hb Hl. unfold limiter_check.
  assert (default (mkTokens (f64_of_Z (burst l)) now now) (tb_buckets l !! ip) =
    mkTokens (f64_nat n) now (match tb_buckets l !! ip with Some _ => used | None => now end)) as ->.
  { destruct Hl as [->|[-> ->]]; [done|]. simpl. by rewrite f64_of_nat by lia. }
  cbn [tokens last_refill]. unfold duration_since. rewrite Z.sub_diag. cbn [Z.max Z.compare].
  rewrite f64_idle by lia. rewrite !f64_of_nat by lia. rewrite f64_min_nat by lia.
  rewrite f64_one_le by lia. case_bool_decide.
  - rewrite f64_nat_pred by lia. by rewrite Z.max_r by lia.
  - assert (n = 0) as -> by lia. done.
Qed.

Lemma checks_same_instant k now ip l n used :
  0 ≤ rate_per_second l < 2 ^ 32 → 0 ≤ n ≤ burst l → burst l < 2 ^ 32 →
  tb_buckets l !! ip = Some (mkTokens (f64_nat n) now used) ∨ tb_buckets l !! ip = None ∧ n = burst l →
  (checks k now ip l).2 = replicate (Nat.min k (Z.to_nat n)) true ++ replicate (k - Z.to_nat n) false.
Proof.
  revert l n used. induction k as [|k IH]; intros l n used Hr Hn Hb Hl; [done|].
  cbn [checks]. rewrite (check_same_instant now ip l n used) by done.
  specialize (IH (mkLimiter (<[ip := mkTokens (f64_nat (Z.max 0 (n - 1))) now now]> (tb_buckets l)) (rate_per_second l) (burst l))
    (Z.max 0 (n - 1)) now Hr ltac:(simpl; lia) Hb (or_introl (lookup_insert_eq _ _ _))).
  destruct (checks k now ip _) as [l2 bs]. simpl in IH |- *. rewrite IH.
  case_bool_decide.
  - assert (Z.to_nat n = S (Z.to_nat (Z.max 0 (n - 1)))) as -> by lia. done.
  - assert (n = 0) as -> by lia. simpl. rewrite Nat.min_0_r, Nat.sub_0_r. done.
Qed.

(** C40: At one instant a limiter admits exactly [burst] requests of an address it has not seen and
    refuses the others, whatever the rate, in IEEE-754 arithmetic without any rounding; the
    requests of one address change no other address's bucket. *)
Theorem limiter_burst k now ip rate burst :
  0 ≤ rate < 2 ^ 32 → 0 ≤ burst < 2 ^ 32 →
  let l := RateLimiter_new rate burst in
  (checks k now ip l).2 = replicate (Nat.min k (Z.to_nat burst)) true ++ replicate (k - Z.to_nat burst) false ∧
  ∀ l' ip', ip' ≠ ip → tb_buckets (limiter_check now ip l').1 !! ip' = tb_buckets l' !! ip'.
Proof.
  intros Hr Hb. cbv zeta. split.
  - apply (checks_same_instant k now ip _ burst now); simpl; [lia|lia|lia|]. by right.
  - intros l' ip' Hne. simpl. by rewrite lookup_insert_ne.
Qed.

Lemma limiter_burst_witness :
  (checks 5 0 (V4 10 0 0 1) (RateLimiter_new 50 3)).2 = [true; true; true; false; false].
Proof. apply (limiter_burst 5 0 (V4 10 0 0 1) 50 3); lia. Defined.
