(* ===== verification/Race.v ===== *)
(** * Racing the addresses of a peer ([send_request_any] of [src/node.rs])

    The staggered race as a machine driven by two kinds of events: an attempt in
    flight ends with a result, or the stagger delay elapses and the next address
    is tried.  [tokio::select!] may take either when both are ready, so the
    machine is nondeterministic in the order of its events. *)
From S2P Require Import Prelude.
From S2P Require Import Errors.
From S2P Require Import Net.
From S2P Require Import Samples.

Definition ADDR_STAGGER : Z := 300.

Section race.
Context {R : Type}.

Inductive race : Type :=
  | Racing (in_flight pending : list SocketAddr) (last_err : TesseraError)
  | Finished (r : res R).

Inductive race_event : Type :=
  | Completed (i : nat) (r : res R)  (* the [i]-th attempt in flight ends *)
  | Stagger.                         (* the delay elapses *)

Definition no_addresses : TesseraError := Network "no addresses to try".

(** The head of the loop. *)
Definition race_loop (in_flight pending : list SocketAddr) (last_err : TesseraError) : race :=
  match in_flight, pending with
  | [], [] => Finished (Err last_err)
  | _, _ => Racing in_flight pending last_err
  end.

Definition race_start (addrs : list SocketAddr) : race :=
  match addrs with
  | [] => Finished (Err no_addresses)
  | first :: rest => Racing [first] rest no_addresses
  end.

Definition race_step (s : race) (ev : race_event) : option race :=
  match s with
  | Finished _ => None
  | Racing in_flight pending last_err =>
    match ev with
    | Completed i r =>
      match in_flight !! i with
      | None => None
      | Some _ =>
        match r with
        | Err e => Some (race_loop (delete i in_flight) pending e)
        | _ => Some (Finished r)
        end
      end
    | Stagger =>
      match pending with
      | [] => None
      | addr :: pending => Some (race_loop (in_flight ++ [addr]) pending last_err)
      end
    end
  end.

Fixpoint race_run (s : race) (evs : list race_event) : option race :=
  match evs with
  | [] => Some s
  | ev :: evs => s' ← race_step s ev; race_run s' evs
  end.

(** What an execution that ends gives; an execution cut short is a timeout. *)
Definition race_result (addrs : list SocketAddr) (evs : list race_event) : res R :=
  match race_run (race_start addrs) evs with
  | Some (Finished r) => r
  | _ => Err Timeout
  end.

(** The errors of the attempts that ended, oldest first, and the number of launches. *)
Definition failures (evs : list race_event) : list TesseraError :=
  omap (λ ev, match ev with Completed _ (Err e) => Some e | _ => None end) evs.
Definition is_stagger (ev : race_event) : bool := match ev with Stagger => true | _ => false end.
Definition staggers (evs : list race_event) : nat := length (filter is_stagger evs).

(** After [evs], a race in progress has launched a prefix of the addresses; each launched
    attempt is in flight or has failed. *)
Record racing_ok (addrs : list SocketAddr) (evs : list race_event) (F P : list SocketAddr) (e : TesseraError) : Prop := {
  ro_launched : ∃ failed, F ++ failed ++ P ≡ₚ addrs ∧ length failed = length (failures evs);
  ro_prefix : ∃ launched, addrs = launched ++ P ∧ length launched = S (staggers evs);
  ro_err : e = default no_addresses (last (failures evs));
  ro_events : length evs = (staggers evs + length (failures evs))%nat;
  ro_going : F ≠ [] ∨ P ≠ [];
}.

Lemma failures_snoc evs ev :
  failures (evs ++ [ev]) = failures evs ++ match ev with Completed _ (Err e) => [e] | _ => [] end.
Proof. unfold failures. rewrite omap_app. f_equal. by destruct ev as [i [a|e|]|]. Qed.

Lemma staggers_snoc evs ev : staggers (evs ++ [ev]) = (staggers evs + if is_stagger ev then 1 else 0)%nat.
Proof. unfold staggers. rewrite filter_app, length_app. f_equal. by destruct ev. Qed.

Lemma race_run_snoc s evs ev : race_run s (evs ++ [ev]) = (s' ← race_run s evs; race_step s' ev).
Proof.
  revert s. induction evs as [|ev' evs IH]; intros s; simpl; [by destruct (race_step s ev)|].
  destruct (race_step s ev'); simpl; [apply IH|done].
Qed.

Lemma race_start_ok a rest : racing_ok (a :: rest) [] [a] rest no_addresses.
Proof. split; [by exists []|by exists [a]|done|done|by left]. Qed.

(** One event of a race in progress. *)
Lemma race_step_ok addrs evs F P e ev s :
  racing_ok addrs evs F P e → race_step (Racing F P e) ev = Some s →
  (∃ F' P' e', s = Racing F' P' e' ∧ racing_ok addrs (evs ++ [ev]) F' P' e') ∨
  (∃ i a, ev = Completed i (Ok a) ∧ s = Finished (Ok a)) ∨ (∃ i, ev = Completed i Panic ∧ s = Finished Panic) ∨
  (∃ i e', ev = Completed i (Err e') ∧ s = Finished (Err e') ∧
     length (failures (evs ++ [ev])) = length addrs ∧ S (staggers evs) = length addrs).
Proof.
  intros [(failed & Hperm & Hlen) (launched & Hpre & Hll) He Hevs Hgo] Hstep.
  destruct ev as [i r|].
  - simpl in Hstep. destruct (F !! i) as [a|] eqn:Hi; [|done].
    pose proof (delete_Permutation F i a Hi) as HF.
    destruct r as [x|e'|]; injection Hstep as <-; [by eauto 6| |by eauto 6].
    destruct (decide (delete i F = [] ∧ P = [])) as [[HF0 HP0]|Hgo'].
    + right. right. right. exists i, e'.
      apply Permutation_length in Hperm. apply Permutation_length in HF. apply (f_equal length) in Hpre.
      rewrite HF0, HP0 in *. rewrite !length_app in *. rewrite failures_snoc, length_app. simpl in *.
      split_and!; [done|done|lia|lia].
    + left. exists (delete i F), P, e'. split; [destruct (delete i F), P; try done; by destruct Hgo'|].
      split.
      * exists (a :: failed). split; [|rewrite failures_snoc, length_app; simpl; lia].
        etrans; [|exact Hperm]. transitivity ((a :: delete i F) ++ failed ++ P).
        { simpl. by rewrite <-Permutation_middle. }
        apply Permutation_app_tail. by symmetry.
      * exists launched. split; [done|]. rewrite staggers_snoc. simpl. lia.
      * by rewrite failures_snoc, last_snoc.
      * rewrite failures_snoc, staggers_snoc, !length_app. simpl. lia.
      * destruct (decide (delete i F = [])); [right|by left]. intros HP. by apply Hgo'.
  - destruct P as [|a P]; [done|]. simpl in Hstep. injection Hstep as <-. left.
    exists (F ++ [a]), P, e. split; [by destruct F|]. split.
    + exists failed. split; [|by rewrite failures_snoc, app_nil_r].
      etrans; [|exact Hperm]. rewrite <-!app_assoc. apply Permutation_app_head. simpl. by rewrite Permutation_middle.
    + exists (launched ++ [a]). rewrite <-app_assoc, length_app, staggers_snoc. simpl. split; [done|lia].
    + by rewrite failures_snoc, app_nil_r.
    + rewrite failures_snoc, staggers_snoc, !length_app. simpl. lia.
    + left. by destruct F.
Qed.

Lemma race_run_ok addrs evs s :
  race_run (race_start addrs) evs = Some s →
  match s with
  | Racing F P e => racing_ok addrs evs F P e
  | Finished (Err e) =>
      addrs = [] ∧ evs = [] ∧ e = no_addresses ∨
      last (failures evs) = Some e ∧ length (failures evs) = length addrs ∧ S (staggers evs) = length addrs ∧
        (length evs < 2 * length addrs)%nat
  | Finished r => ∃ evs' i, evs = evs' ++ [Completed i r] ∧ length evs' = (staggers evs' + length (failures evs'))%nat ∧
      (length evs ≤ 2 * length addrs)%nat
  end.
Proof.
  revert s. induction evs as [|ev evs IH] using rev_ind; intros s.
  { intros [= <-]. destruct addrs; simpl; [by left|apply race_start_ok]. }
  rewrite race_run_snoc. intros (s1 & Hs1 & Hstep)%bind_Some. specialize (IH _ Hs1).
  destruct s1 as [F P e|r]; [|by destruct ev].
  destruct (race_step_ok addrs evs F P e ev s IH Hstep)
    as [(F' & P' & e' & -> & Hok)|[(i & a & -> & ->)|[(i & -> & ->)|(i & e' & -> & -> & Hf & Hst)]]].
  - done.
  - exists evs, i. split; [done|]. destruct IH as [(fl & Hp & Hl) (la & Hpr & Hll) _ He _]. split; [done|].
    apply Permutation_length in Hp. rewrite !length_app in Hp. rewrite Hpr, !length_app in *. simpl. 
    simpl in Hstep. destruct (F !! i) eqn:HF; [|done]. apply lookup_lt_Some in HF. lia.
  - exists evs, i. split; [done|]. destruct IH as [(fl & Hp & Hl) (la & Hpr & Hll) _ He _]. split; [done|].
    apply Permutation_length in Hp. rewrite !length_app in Hp. rewrite Hpr, !length_app in *. simpl.
    simpl in Hstep. destruct (F !! i) eqn:HF; [|done]. apply lookup_lt_Some in HF. lia.
  - right. destruct IH as [_ _ _ He _]. rewrite failures_snoc, length_app in *. rewrite last_snoc. simpl in *.
    rewrite staggers_snoc, length_app. simpl. split_and!; [done|lia|lia|lia].
Qed.
End race.
Arguments race : clear implicits.
Arguments race_event : clear implicits.

(** C32: The race of any list of addresses ends within [2 * n] events and gives the first success, or,
    when every attempt has failed, the error of the attempt that failed last; all the addresses
    have then been tried.  As long as it goes on an attempt is in flight or the stagger timer
    is armed, so it cannot hang.  Without addresses it fails at once. *)
Theorem send_request_any_outcome {R} addrs (evs : list (race_event R)) :
  match race_run (race_start addrs) evs with
  | Some (Finished (Ok a)) => ∃ evs' i, evs = evs' ++ [Completed i (Ok a)] ∧
      (length evs' = staggers evs' + length (failures evs'))%nat
  | Some (Finished (Err e)) => addrs = [] ∧ e = Network "no addresses to try" ∨
      last (failures evs) = Some e ∧ length (failures evs) = length addrs ∧ S (staggers evs) = length addrs
  | Some (Finished Panic) => ∃ evs' i, evs = evs' ++ [Completed i Panic]
  | Some (Racing in_flight pending _) =>
      (in_flight ≠ [] ∧ (∀ r, is_Some (race_step (Racing in_flight pending no_addresses) (Completed 0 r : race_event R))) ∨
       pending ≠ [] ∧ is_Some (race_step (Racing in_flight pending no_addresses) (Stagger : race_event R)))
  | None => True
  end ∧ (is_Some (race_run (race_start addrs) evs) → (length evs ≤ 2 * length addrs)%nat).
Proof.
  destruct (race_run (race_start addrs) evs) as [s|] eqn:E; [|split; [done|by intros []]].
  pose proof (race_run_ok addrs evs s E) as Hs. destruct s as [F P e|[a|e|]].
  - destruct Hs as [(fl & Hp & Hl) (la & Hpr & Hll) _ He Hgo]. split.
    + destruct Hgo as [HF|HP]; [left|right].
      * split; [done|]. intros r. destruct F as [|f F]; [done|]. simpl. destruct r; eauto.
      * split; [done|]. destruct P; [done|]. simpl. eauto.
    + intros _. apply Permutation_length in Hp. rewrite !length_app in Hp. rewrite Hpr, length_app in *. lia.
  - destruct Hs as (evs' & i & -> & Hl & Hb). split; [eauto|done].
  - destruct Hs as [(-> & -> & ->)|(Hl & Hf & Hst & Hb)]; [split; [by left|simpl; lia]|]. split; [|lia]. by right.
  - destruct Hs as (evs' & i & -> & Hl & Hb). split; [eauto|done].
Qed.

(** ** With a clock

    [sleep(ADDR_STAGGER)] is created again each time round the loop.  [race_clock]
    runs the race against the milliseconds each attempt takes and gives when each
    address is tried. *)
Fixpoint race_clock (fuel : nat) (now : Z) (in_flight pending : list Z) : list Z :=
  match fuel with
  | O => []
  | S fuel =>
    let deadline := now + ADDR_STAGGER in
    let first := foldr Z.min (now + ADDR_STAGGER + 1) in_flight in
    match pending with
    | [] => []
    | d :: rest =>
      if first <=? deadline
      then race_clock fuel first (filter (λ t, t ≠ first) in_flight) pending
      else deadline :: race_clock fuel deadline (in_flight ++ [deadline + d]) rest
    end
  end.
(** The launch times when every attempt fails, the [i]-th after [durations !! i]. *)
Definition launch_times (durations : list Z) : list Z :=
  match durations with
  | [] => []
  | d :: rest => 0 :: race_clock (2 * length durations) 0 [d] rest
  end.

(** The comment in the code plans the [i]-th attempt for [i * 300] ms, but the timer starts again
    whenever an attempt fails: an address that is refused after 299 ms delays the next one to
    599 ms, and so on. *)
Theorem stagger_restarts :
  launch_times [1000; 1000; 1000] = [0; 300; 600] ∧ launch_times [299; 299; 299] = [0; 599; 1198].
Proof. by vm_compute. Qed.
