(* ===== verification/Actor.v ===== *)
(** * The node's state, and programs of asynchronous tasks ([src/node.rs])

    The configuration, the state the tasks of a node share, and a small language
    for their bodies.  A body is a [prog]: it ends, performs one action on the
    shared state under a lock ([Atomic]), awaits a request ([Send], or [SendAny] for
    the raced one), sends a response ([Reply]), spawns another task ([Spawn]) or reports
    its progress ([Report]).
    [run] executes a body against an [Oracle]: what the clock, the file system, the
    database and the network answer, and what the other tasks do to the shared
    state between any two actions ([interfere]). *)
From S2P Require Import Prelude.
From S2P Require Import Errors.
From S2P Require Import Bytes.
From S2P Require Import External.
From S2P Require Import Identity.
From S2P Require Import Net.
From S2P Require Import Samples.
From S2P Require Import Bucket.
From S2P Require Import Table.
From S2P Require Import Erasure.
From S2P Require Import Chunks.
From S2P Require Import Metadata.
From S2P Require Import RateLimit.
From S2P Require Import Message.
From S2P Require Import Race.

(** Durations are in seconds. *)
Record NodeConfig := mkNodeConfig {
  cfg_k : nat;
  cfg_alpha : nat;
  cfg_max_failures : Z;
  cfg_max_relay_hops : Z;
  cfg_max_relay_payload : Z;
  cfg_relay_rate_per_second : Z;
  cfg_relay_rate_burst : Z;
  cfg_provider_ttl : Z;
  cfg_rt_save_interval : Z;
  cfg_provider_republish_interval : Z;
  cfg_min_pow_difficulty : Z;
  cfg_command_channel_size : nat;
  cfg_bucket_refresh_interval : Z;
  cfg_max_chunks_per_peer : Z;
  cfg_write_rate_per_second : Z;
  cfg_write_rate_burst : Z;
  cfg_max_concurrent_handlers : nat;
  cfg_client_mode : bool;
  cfg_erasure_config : ErasureConfig;
  cfg_proactive_replication : bool;
  cfg_replication_concurrency : nat;
}.

Definition NodeConfig_default : NodeConfig := {|
  cfg_k := 20; cfg_alpha := 3; cfg_max_failures := 3; cfg_max_relay_hops := 1; cfg_max_relay_payload := 1048576;
  cfg_relay_rate_per_second := 5; cfg_relay_rate_burst := 3; cfg_provider_ttl := 48 * 3600; cfg_rt_save_interval := 300;
  cfg_provider_republish_interval := 3600; cfg_min_pow_difficulty := 16; cfg_command_channel_size := 64;
  cfg_bucket_refresh_interval := 3600; cfg_max_chunks_per_peer := 256; cfg_write_rate_per_second := 50; cfg_write_rate_burst := 20;
  cfg_max_concurrent_handlers := 256; cfg_client_mode := false; cfg_erasure_config := ErasureConfig_default;
  cfg_proactive_replication := true; cfg_replication_concurrency := 3 |}.

(** What a handler context shares with the actor ([Arc]s). *)
Record NodeState := mkNode {
  n_routing_table : RoutingTable;
  n_metadata : MetadataStore;
  n_chunks : ChunkStore;
  n_relay_limiter : RateLimiter;
  n_write_limiter : RateLimiter;
  n_peer_chunk_counts : gmap (list Z) Z;
  n_external_addr : option SocketAddr;
}.
Definition set_table (s : NodeState) (t : RoutingTable) : NodeState :=
  mkNode t (n_metadata s) (n_chunks s) (n_relay_limiter s) (n_write_limiter s) (n_peer_chunk_counts s) (n_external_addr s).
Definition set_metadata (s : NodeState) (m : MetadataStore) : NodeState :=
  mkNode (n_routing_table s) m (n_chunks s) (n_relay_limiter s) (n_write_limiter s) (n_peer_chunk_counts s) (n_external_addr s).
Definition set_chunks (s : NodeState) (c : ChunkStore) : NodeState :=
  mkNode (n_routing_table s) (n_metadata s) c (n_relay_limiter s) (n_write_limiter s) (n_peer_chunk_counts s) (n_external_addr s).
Definition set_relay_limiter (s : NodeState) (l : RateLimiter) : NodeState :=
  mkNode (n_routing_table s) (n_metadata s) (n_chunks s) l (n_write_limiter s) (n_peer_chunk_counts s) (n_external_addr s).
Definition set_write_limiter (s : NodeState) (l : RateLimiter) : NodeState :=
  mkNode (n_routing_table s) (n_metadata s) (n_chunks s) (n_relay_limiter s) l (n_peer_chunk_counts s) (n_external_addr s).
Definition set_counts (s : NodeState) (c : gmap (list Z) Z) : NodeState :=
  mkNode (n_routing_table s) (n_metadata s) (n_chunks s) (n_relay_limiter s) (n_write_limiter s) c (n_external_addr s).
Definition set_external_addr (s : NodeState) (a : option SocketAddr) : NodeState :=
  mkNode (n_routing_table s) (n_metadata s) (n_chunks s) (n_relay_limiter s) (n_write_limiter s) (n_peer_chunk_counts s) a.

(** The fields of [HandlerContext] that do not change. *)
Record HandlerContext := mkContext {
  c_keypair : Keypair;
  c_pow : PowProof;
  c_node_id : NodeId;
  c_local_addr : SocketAddr;
  c_config : NodeConfig;
}.

(** What the surroundings answer at one action: the monotonic clock, the wall
    clock in seconds, a random message id, random bytes, and the faults of the
    file system, of a database call and of the statements of a transaction; when each of
    several concurrent tasks finishes, and after how many actions a timeout fires, if it does. *)
Record Ambient := mkAmbient {
  am_now : Z;
  am_unix : Z;
  am_msg_id : Z;
  am_random : list Z;
  am_fs : Faults;
  am_db : option string;
  am_sql : nat → option string;
  am_finish : nat → Z;
  am_deadline : option nat;
}.

(** The tasks the node spawns; [reply] names the channel a bootstrap answers on. *)
Inductive Task : Type :=
  | TaskReplicate (new_node : NodeInfo)
  | TaskInbound (from_addr : SocketAddr) (msg : Message)
  | TaskBootstrap (addrs : list SocketAddr) (reply : nat)
  | TaskSend (addrs : list SocketAddr) (msg : Message).

(** ** Progress reports *)
Inductive StoreProgress : Type :=
  | Encoding (block total_blocks : nat)
  | Distributing (block total_blocks : nat)
  | BlockComplete (block total_blocks : nat).
Inductive RetrieveProgress : Type :=
  | Fetching (chunk total_chunks : nat)
  | ChunkComplete (chunk total_chunks : nat).
Inductive Progress : Type := OfStore (p : StoreProgress) | OfRetrieve (p : RetrieveProgress).

(** ** Bodies *)
Inductive prog (A : Type) : Type :=
  | Ret (a : A)
  | Atomic {B : Set} (f : Ambient → NodeState → NodeState * B) (k : B → prog A)
  | Send (addr : SocketAddr) (msg : Message) (k : res Message → prog A)
  | SendAny (addrs : list SocketAddr) (msg : Message) (k : res Message → prog A)
  | Reply (addr : SocketAddr) (msg : Message) (k : res () → prog A)
  | Spawn (t : Task) (k : prog A)
  | Report (tx : nat) (p : Progress) (k : prog A)
  | Abort_.
Arguments Ret {A} a.
Arguments Atomic {A B} f k.
Arguments Send {A} addr msg k.
Arguments SendAny {A} addrs msg k.
Arguments Reply {A} addr msg k.
Arguments Spawn {A} t k.
Arguments Report {A} tx p k.
Arguments Abort_ {A}.

#[export] Instance prog_ret : MRet prog := @Ret.
Fixpoint prog_bind {A B} (f : A → prog B) (p : prog A) : prog B :=
  match p with
  | Ret a => f a
  | Atomic g k => Atomic g (λ b, prog_bind f (k b))
  | Send a m k => Send a m (λ r, prog_bind f (k r))
  | SendAny l m k => SendAny l m (λ r, prog_bind f (k r))
  | Reply a m k => Reply a m (λ r, prog_bind f (k r))
  | Spawn t k => Spawn t (prog_bind f k)
  | Report tx p k => Report tx p (prog_bind f k)
  | Abort_ => Abort_
  end.
#[export] Instance prog_mbind : MBind prog := @prog_bind.

Definition atomic {B : Set} (f : Ambient → NodeState → NodeState * B) : prog B := Atomic f Ret.
(** Reading under the lock. *)
Definition get {B : Set} (f : NodeState → B) : prog B := atomic (λ _ s, (s, f s)).
Definition send_request (addr : SocketAddr) (msg : Message) : prog (res Message) := Send addr msg Ret.
Definition send_response (addr : SocketAddr) (msg : Message) : prog (res ()) := Reply addr msg Ret.
Definition spawn (t : Task) : prog () := Spawn t (Ret ()).
(** [let _ = ptx.send(..).await], if there is a channel: it ends when the report is taken or the receiver is gone. *)
Definition report (progress_tx : option nat) (p : Progress) : prog () :=
  match progress_tx with Some tx => Report tx p (Ret ()) | None => Ret () end.

(** [send_request_any]: one address is asked directly, several are raced. *)
Definition send_request_any (addrs : list SocketAddr) (msg : Message) : prog (res Message) :=
  match addrs with
  | [] => Ret (Err no_addresses)
  | [addr] => send_request addr msg
  | _ => SendAny addrs msg Ret
  end.

(** A spawned task that is awaited: a panic comes back as a [JoinError]. *)
Fixpoint catch {A} (p : prog A) : prog (option A) :=
  match p with
  | Ret a => Ret (Some a)
  | Atomic g k => Atomic g (λ b, catch (k b))
  | Send a m k => Send a m (λ r, catch (k r))
  | SendAny l m k => SendAny l m (λ r, catch (k r))
  | Reply a m k => Reply a m (λ r, catch (k r))
  | Spawn t k => Spawn t (catch k)
  | Report tx p k => Report tx p (catch k)
  | Abort_ => Ret None
  end.

(** A body under [tokio::time::timeout]: dropped after its first [n] actions ([None]). *)
Fixpoint within {A} (n : nat) (p : prog A) : prog (option A) :=
  match p, n with
  | Ret a, _ => Ret (Some a)
  | Abort_, _ => Abort_
  | _, O => Ret None
  | Atomic g k, S n => Atomic g (λ b, within n (k b))
  | Send a m k, S n => Send a m (λ r, within n (k r))
  | SendAny l m k, S n => SendAny l m (λ r, within n (k r))
  | Reply a m k, S n => Reply a m (λ r, within n (k r))
  | Spawn t k, S n => Spawn t (within n k)
  | Report tx p k, S n => Report tx p (within n k)
  end.

Definition timeout {A} (deadline : option nat) (p : prog A) : prog (option A) :=
  match deadline with Some n => within n p | None => r ← p; Ret (Some r) end.

Fixpoint for_each {A} (l : list A) (f : A → prog ()) : prog () :=
  match l with [] => Ret () | x :: l => _ ← f x; for_each l f end.
(** [join_all], or awaiting a list of tasks in order. *)
Fixpoint join_all {A B} (l : list A) (f : A → prog B) : prog (list B) :=
  match l with [] => Ret [] | x :: l => y ← f x; ys ← join_all l f; Ret (y :: ys) end.
(** The first result that is [Some]; the rest of the list is not tried. *)
Fixpoint first_some {A B} (l : list A) (f : A → prog (option B)) : prog (option B) :=
  match l with
  | [] => Ret None
  | x :: l => r ← f x; match r with Some b => Ret (Some b) | None => first_some l f end
  end.

(** ** Execution *)
Inductive effect : Type :=
  | ESent (addr : SocketAddr) (msg : Message)
  | ERaced (addrs : list SocketAddr) (msg : Message)
  | EReplied (addr : SocketAddr) (msg : Message)
  | ESpawned (t : Task)
  | EReported (tx : nat) (p : Progress).

Record Oracle := mkOracle {
  ambient : nat → Ambient;
  interfere : nat → NodeState → NodeState;
  net : nat → SocketAddr → Message → res Message;
  races : nat → list (race_event Message);
  replies : nat → res ();
}.

(** How far the oracle has been consulted, the shared state, and the effects so far. *)
Record world := mkWorld { w_next : nat; w_state : NodeState; w_log : list effect }.

(** One action: the others run, then the task, and the action is logged. *)
Definition tick (o : Oracle) (w : world) (f : NodeState → NodeState) (log : list effect) : world :=
  mkWorld (S (w_next w)) (f (interfere o (w_next w) (w_state w))) (w_log w ++ log).

(** The result ([None]: the task panicked) and the world it leaves. *)
Fixpoint run {A} (o : Oracle) (p : prog A) (w : world) : option A * world :=
  match p with
  | Ret a => (Some a, w)
  | Atomic f k =>
    let amb := ambient o (w_next w) in
    let b := (f amb (interfere o (w_next w) (w_state w))).2 in
    run o (k b) (tick o w (λ s, (f amb s).1) [])
  | Send a m k => run o (k (net o (w_next w) a m)) (tick o w id [ESent a m])
  | SendAny l m k => run o (k (race_result l (races o (w_next w)))) (tick o w id [ERaced l m])
  | Reply a m k => run o (k (replies o (w_next w))) (tick o w id [EReplied a m])
  | Spawn t k => run o k (tick o w id [ESpawned t])
  | Report tx p k => run o k (tick o w id [EReported tx p])
  | Abort_ => (None, w)
  end.

Lemma run_bind {A B} o (p : prog A) (f : A → prog B) w :
  run o (p ≫= f) w = (let '(r, w') := run o p w in match r with Some a => run o (f a) w' | None => (None, w') end).
Proof. revert w. induction p; intros w; simpl; auto. Qed.

Lemma run_catch {A} o (p : prog A) w :
  run o (catch p) w = (let '(r, w') := run o p w in (Some r, w')).
Proof. revert w. induction p; intros w; simpl; auto. Qed.

(** Executions without interference, action by action. *)
Definition quiet (o : Oracle) : Prop := ∀ n s, interfere o n s = s.
Definition after (w : world) (s : NodeState) (log : list effect) : world := mkWorld (S (w_next w)) s (w_log w ++ log).

Lemma tick_quiet o w f log : quiet o → tick o w f log = after w (f (w_state w)) log.
Proof. intros Hq. unfold tick. by rewrite Hq. Qed.

Lemma run_atomic {A : Set} {B} o (f : Ambient → NodeState → NodeState * A) (k : A → prog B) w :
  quiet o →
  run o (atomic f ≫= k) w =
    run o (k (f (ambient o (w_next w)) (w_state w)).2) (after w (f (ambient o (w_next w)) (w_state w)).1 []).
Proof. intros Hq. cbn. by rewrite (tick_quiet o) , Hq by done. Qed.

Lemma run_send {B} o a m (k : res Message → prog B) w :
  quiet o → run o (send_request a m ≫= k) w = run o (k (net o (w_next w) a m)) (after w (w_state w) [ESent a m]).
Proof. intros Hq. cbn. by rewrite tick_quiet. Qed.

(** ** Reasoning on all executions

    [safe_if R I G Q p]: from any state satisfying [I], whatever the oracle answers as
    long as it meets the expectations [R] and the other tasks preserve [I], the body
    preserves [I] at each action, each of its effects satisfies [G], it panics only if
    [R] allows it, and its result satisfies [Q].  [safe] expects nothing of the surroundings
    and allows no panic. *)
Record expectations := mkExpect { of_reply : res Message → Prop; of_ambient : Ambient → Prop; may_panic : Prop }.
Definition nothing : expectations := mkExpect (λ _, True) (λ _, True) False.

Fixpoint safe_if {A} (R : expectations) (I : NodeState → Prop) (G : effect → Prop) (Q : A → Prop) (p : prog A) : Prop :=
  match p with
  | Ret a => Q a
  | Atomic f k => ∀ amb s, of_ambient R amb → I s → I (f amb s).1 ∧ safe_if R I G Q (k (f amb s).2)
  | Send a m k => G (ESent a m) ∧ ∀ r, of_reply R r → safe_if R I G Q (k r)
  | SendAny l m k => G (ERaced l m) ∧ ∀ r, of_reply R r → safe_if R I G Q (k r)
  | Reply a m k => G (EReplied a m) ∧ ∀ r, safe_if R I G Q (k r)
  | Spawn t k => G (ESpawned t) ∧ safe_if R I G Q k
  | Report tx p k => G (EReported tx p) ∧ safe_if R I G Q k
  | Abort_ => may_panic R
  end.
Abbreviation safe := (safe_if nothing).

Definition preserves (I : NodeState → Prop) (o : Oracle) : Prop := ∀ n s, I s → I (interfere o n s).
Definition meets (R : expectations) (o : Oracle) : Prop :=
  (∀ n a m, of_reply R (net o n a m)) ∧ (∀ n l, of_reply R (race_result l (races o n))) ∧
  (∀ n, of_ambient R (ambient o n)).

Lemma safe_if_run {A} R I G (Q : A → Prop) o p w :
  ¬ may_panic R → meets R o → preserves I o → I (w_state w) → safe_if R I G Q p →
  ∃ a w' log, run o p w = (Some a, w') ∧ Q a ∧ I (w_state w') ∧ w_log w' = w_log w ++ log ∧ Forall G log.
Proof.
  intros Hnp (Hnet & Hraces & Hamb) Ho. revert w.
  assert (∀ (e : list effect) (p : prog A) w, Forall G e →
    (∀ w, I (w_state w) → ∃ a w' log, run o p w = (Some a, w') ∧ Q a ∧ I (w_state w') ∧ w_log w' = w_log w ++ log ∧ Forall G log) →
    I (w_state w) → ∃ a w' log, run o p (tick o w id e) = (Some a, w') ∧ Q a ∧ I (w_state w') ∧ w_log w' = w_log w ++ log ∧ Forall G log)
    as Hstep.
  { intros e q w He Hq Hs. destruct (Hq (tick o w id e)) as (a & w' & log & E & HQ & HI & Hl & HG); [by apply Ho|].
    exists a, w', (e ++ log). rewrite app_assoc. split_and!; try done. by apply Forall_app. }
  induction p as [a|B f k IH|a m k IH|l m k IH|a m k IH|t k IH|tx pr k IH|]; intros w Hs Hp; cbn [run safe_if] in *.
  - exists a, w, []. by rewrite app_nil_r.
  - destruct (Hp (ambient o (w_next w)) _ (Hamb _) (Ho (w_next w) _ Hs)) as [Hi Hk].
    destruct (IH _ (tick o w (λ s, (f (ambient o (w_next w)) s).1) []) Hi Hk) as (a & w' & log & E & HQ & HI & Hl & HG).
    exists a, w', log. split_and!; try done. rewrite Hl. simpl. by rewrite app_nil_r.
  - destruct Hp as [HG Hp]. apply Hstep; [by constructor| |done]. intros w' Hw'. apply IH; [done|]. by apply Hp.
  - destruct Hp as [HG Hp]. apply Hstep; [by constructor| |done]. intros w' Hw'. apply IH; [done|]. by apply Hp.
  - destruct Hp as [HG Hp]. apply Hstep; [by constructor| |done]. intros w' Hw'. by apply IH.
  - destruct Hp as [HG Hp]. apply Hstep; [by constructor| |done]. intros w' Hw'. by apply IH.
  - destruct Hp as [HG Hp]. apply Hstep; [by constructor| |done]. intros w' Hw'. by apply IH.
  - done.
Qed.

Lemma safe_run_log {A} I G (Q : A → Prop) o p w :
  preserves I o → I (w_state w) → safe I G Q p →
  ∃ a w' log, run o p w = (Some a, w') ∧ Q a ∧ I (w_state w') ∧ w_log w' = w_log w ++ log ∧ Forall G log.
Proof. apply safe_if_run; [by intros []|done]. Qed.

Lemma safe_run {A} I G (Q : A → Prop) o p w :
  preserves I o → I (w_state w) → Forall G (w_log w) → safe I G Q p →
  ∃ a w', run o p w = (Some a, w') ∧ Q a ∧ I (w_state w') ∧ Forall G (w_log w').
Proof.
  intros Ho Hs Hl Hp. destruct (safe_run_log I G Q o p w Ho Hs Hp) as (a & w' & log & E & HQ & HI & Hl' & HG).
  exists a, w'. split_and!; try done. rewrite Hl'. by apply Forall_app.
Qed.

Section safe_rules.
Context {R : expectations} (I : NodeState → Prop) (G : effect → Prop).
Notation safely := (safe_if R I G).

Lemma safe_catch {A} (Q : A → Prop) (p : prog A) : safely Q p → safely (λ r, ∀ a, r = Some a → Q a) (catch p).
Proof. induction p; simpl; naive_solver. Qed.

(** Where no panic can be. *)
Lemma safe_catch_some {A} (Q : A → Prop) (p : prog A) : ¬ may_panic R → safely Q p → safely (λ r, ∃ a, r = Some a ∧ Q a) (catch p).
Proof. intros Hno. induction p; simpl; naive_solver. Qed.

(** Cut short by a timeout. *)
Lemma safe_within {A} (Q : A → Prop) n (p : prog A) :
  safely Q p → safely (λ r, match r with Some a => Q a | None => True end) (within n p).
Proof.
  revert n. induction p as [a|C g k IH|a m k IH|l m k IH|a m k IH|t k IH|tx pr k IH|]; intros [|n]; simpl; try done.
  - intros Hp amb s Ha Hs. destruct (Hp amb s Ha Hs). split; [done|]. by apply IH.
  - intros [HG Hp]. split; [done|]. intros r Hr. by apply IH, Hp.
  - intros [HG Hp]. split; [done|]. intros r Hr. by apply IH, Hp.
  - intros [HG Hp]. split; [done|]. intros r. by apply IH.
  - intros [HG Hp]. split; [done|]. by apply IH.
  - intros [HG Hp]. split; [done|]. by apply IH.
Qed.

Lemma safe_bind {A B} (Q : B → Prop) (p : prog A) (f : A → prog B) :
  safely (λ a, safely Q (f a)) p → safely Q (p ≫= f).
Proof.
  induction p as [a|C g k IH|a m k IH|l m k IH|a m k IH|t k IH|tx pr k IH|]; simpl; intros Hp; try done.
  - intros amb s Ha Hs. destruct (Hp amb s Ha Hs). split; [done|]. by apply IH.
  - destruct Hp as [HG Hp]. split; [done|]. intros r Hr. by apply IH, Hp.
  - destruct Hp as [HG Hp]. split; [done|]. intros r Hr. by apply IH, Hp.
  - destruct Hp as [HG Hp]. split; [done|]. intros r. by apply IH.
  - destruct Hp as [HG Hp]. split; [done|]. by apply IH.
  - destruct Hp as [HG Hp]. split; [done|]. by apply IH.
Qed.

Lemma safe_timeout {A} (Q : A → Prop) n (p : prog A) :
  safely Q p → safely (λ r, (r = None → n ≠ None) ∧ ∀ a, r = Some a → Q a) (timeout n p).
Proof.
  intros Hp. destruct n as [n|]; cbn [timeout].
  - pose proof (safe_within Q n p Hp) as Hw. revert Hw. generalize (within n p). intros q.
    induction q as [r|C g k IH|a m k IH|l m k IH|a m k IH|t k IH|tx pr k IH|]; cbn [safe_if]; try naive_solver.
  - apply safe_bind. induction p as [r|C g k IH|a m k IH|l m k IH|a m k IH|t k IH|tx pr k IH|]; cbn [safe_if] in *; try naive_solver.
Qed.

Lemma safe_get {A : Set} {B} (Q : B → Prop) (f : NodeState → A) (k : A → prog B) :
  (∀ s, I s → safely Q (k (f s))) → safely Q (get f ≫= k).
Proof. intros Hk amb s _ Hs. split; [done|]. by apply Hk. Qed.

Lemma safe_atomic {A : Set} {B} (Q : B → Prop) (f : Ambient → NodeState → NodeState * A) (k : A → prog B) :
  (∀ amb s, of_ambient R amb → I s → I (f amb s).1 ∧ safely Q (k (f amb s).2)) → safely Q (atomic f ≫= k).
Proof. done. Qed.

Lemma safe_report {B} (Q : B → Prop) progress_tx p (k : () → prog B) :
  (∀ tx, G (EReported tx p)) → safely Q (k ()) → safely Q (report progress_tx p ≫= k).
Proof. intros HG Hk. by destruct progress_tx. Qed.

Lemma safe_send_any_if {B} (Q : B → Prop) addrs msg (k : res Message → prog B) :
  (∀ a, a ∈ addrs → G (ESent a msg)) → G (ERaced addrs msg) →
  (∀ e, safely Q (k (Err e))) → (∀ r, of_reply R r → safely Q (k r)) →
  safely Q (send_request_any addrs msg ≫= k).
Proof.
  intros Hs Hr He Hk. destruct addrs as [|a [|b l]]; simpl; [apply He|split; [apply Hs; by left|done]|done].
Qed.

Lemma safe_send_any {B} (Q : B → Prop) addrs msg (k : res Message → prog B) :
  (∀ a, a ∈ addrs → G (ESent a msg)) → G (ERaced addrs msg) → (∀ r, safely Q (k r)) →
  safely Q (send_request_any addrs msg ≫= k).
Proof. intros Hs Hr Hk. by apply safe_send_any_if. Qed.
End safe_rules.

Lemma safe_mono {A} {R} I (G G' : effect → Prop) (Q Q' : A → Prop) (p : prog A) :
  (∀ e, G e → G' e) → (∀ a, Q a → Q' a) → safe_if R I G Q p → safe_if R I G' Q' p.
Proof.
  intros HG HQ. induction p as [a|C g k IH|a m k IH|l m k IH|a m k IH|t k IH|tx pr k IH|]; simpl; intros Hp; naive_solver.
Qed.

Lemma safe_and {A} {R} (I I' : NodeState → Prop) (G G' : effect → Prop) (Q Q' : A → Prop) (p : prog A) :
  safe_if R I G Q p → safe_if R I' G' Q' p → safe_if R (λ s, I s ∧ I' s) (λ e, G e ∧ G' e) (λ a, Q a ∧ Q' a) p.
Proof.
  induction p as [a|C g k IH|a m k IH|l m k IH|a m k IH|t k IH|tx pr k IH|]; cbn [safe_if]; [done|..|done]; naive_solver.
Qed.

(** What holds for any surroundings holds for those that meet [R]. *)
Lemma safe_any {A} {R} I G (Q : A → Prop) (p : prog A) : safe I G Q p → safe_if R I G Q p.
Proof.
  induction p as [a|C g k IH|a m k IH|l m k IH|a m k IH|t k IH|tx pr k IH|]; simpl; intros Hp; try done.
  - intros amb s Ha Hs. destruct (Hp amb s Logic.I Hs). split; [done|]. by apply IH.
  - destruct Hp as [HG Hp]. split; [done|]. intros r _. apply IH. by apply Hp.
  - destruct Hp as [HG Hp]. split; [done|]. intros r _. apply IH. by apply Hp.
  - destruct Hp as [HG Hp]. split; [done|]. intros r. by apply IH.
  - destruct Hp as [HG Hp]. split; [done|]. by apply IH.
  - destruct Hp as [HG Hp]. split; [done|]. by apply IH.
Qed.

Section safe_lists.
Context {R : expectations} (I : NodeState → Prop) (G : effect → Prop).
Notation safely := (safe_if R I G).

Lemma safe_for_each {A} (l : list A) (f : A → prog ()) :
  (∀ x, x ∈ l → safely (λ _, True) (f x)) → safely (λ _, True) (for_each l f).
Proof.
  induction l as [|x l IH]; intros Hf; [done|]. simpl. apply safe_bind. eapply safe_mono; [done| |apply Hf; by left].
  intros _ _. apply IH. intros y Hy. apply Hf. by right.
Qed.

(** Results one by one, each related to its element. *)
Lemma safe_join_all2 {A B} (P : A → B → Prop) (l : list A) (f : A → prog B) :
  (∀ x, x ∈ l → safely (P x) (f x)) → safely (Forall2 P l) (join_all l f).
Proof.
  induction l as [|x l IH]; intros Hf; [constructor|]. simpl. apply safe_bind. eapply safe_mono; [done| |apply Hf; by left].
  intros y Hy. apply safe_bind. eapply safe_mono; [done| |apply IH; intros z Hz; apply Hf; by right].
  intros ys Hys. by constructor.
Qed.

Lemma safe_join_all {A B} (P : B → Prop) (l : list A) (f : A → prog B) :
  (∀ x, x ∈ l → safely P (f x)) → safely (Forall P) (join_all l f).
Proof.
  intros Hf. eapply safe_mono; [done| |apply (safe_join_all2 (λ _, P)), Hf]. clear Hf. intros ys. by induction 1; constructor.
Qed.

(** Results that are determined. *)
Lemma safe_join_all_fmap {A B C} (g : A → B) (h : A → C) (l : list A) (f : B → prog C) :
  (∀ x, x ∈ l → safely (λ r, r = h x) (f (g x))) → safely (λ rs, rs = h <$> l) (join_all (g <$> l) f).
Proof.
  induction l as [|x l IH]; intros Hf; [done|]. rewrite fmap_cons. cbn [join_all]. apply safe_bind.
  eapply safe_mono; [done| |apply Hf; by left]. intros y ->. apply safe_bind.
  eapply safe_mono; [done| |apply IH; intros z Hz; apply Hf; by right]. by intros ys ->.
Qed.

Lemma safe_first_some {A B} (P : B → Prop) (l : list A) (f : A → prog (option B)) :
  (∀ x, x ∈ l → safely (λ r, ∀ b, r = Some b → P b) (f x)) →
  safely (λ r, ∀ b, r = Some b → P b) (first_some l f).
Proof.
  induction l as [|x l IH]; intros Hf; [by intros b|]. simpl. apply safe_bind. eapply safe_mono; [done| |apply Hf; by left].
  intros [b|] Hb; [exact Hb|]. apply IH. intros y Hy. apply Hf. by right.
Qed.
End safe_lists.

(** ** From one state to another

    [leads o I p Q]: from a state satisfying [I] the body ends without a panic, with a
    result and a state satisfying [Q].  Unlike [safe], it can say what the body adds. *)
Definition leads {A} (o : Oracle) (I : NodeState → Prop) (p : prog A) (Q : A → NodeState → Prop) : Prop :=
  ∀ w, I (w_state w) → ∃ a w', run o p w = (Some a, w') ∧ Q a (w_state w').

Lemma leads_ret {A} o (I : NodeState → Prop) (a : A) (Q : A → NodeState → Prop) : (∀ s, I s → Q a s) → leads o I (Ret a) Q.
Proof. intros HQ w Hw. exists a, w. auto. Qed.

Lemma leads_bind {A B} o I (p : prog A) (f : A → prog B) Q Q' :
  leads o I p Q → (∀ a, leads o (Q a) (f a) Q') → leads o I (p ≫= f) Q'.
Proof.
  intros Hp Hf w Hw. destruct (Hp w Hw) as (a & w1 & E & HQ). destruct (Hf a w1 HQ) as (b & w2 & E' & HQ').
  exists b, w2. by rewrite run_bind, E.
Qed.

Lemma leads_mono {A} o (I : NodeState → Prop) (p : prog A) (Q Q' : A → NodeState → Prop) :
  (∀ a s, Q a s → Q' a s) → leads o I p Q → leads o I p Q'.
Proof. intros HQ Hp w Hw. destruct (Hp w Hw) as (a & w' & E & Ha). exists a, w'. auto. Qed.

Lemma leads_safe {A} R o (I : NodeState → Prop) G (Q : A → Prop) (p : prog A) :
  ¬ may_panic R → meets R o → preserves I o → safe_if R I G Q p → leads o I p (λ a s, Q a ∧ I s).
Proof.
  intros Hnp Hm Ho Hp w Hw. destruct (safe_if_run R I G Q o p w Hnp Hm Ho Hw Hp) as (a & w' & _ & E & HQ & HI & _). by exists a, w'.
Qed.

Lemma leads_report {A} o (I : NodeState → Prop) progress_tx p (k : () → prog A) Q :
  preserves I o → leads o I (k ()) Q → leads o I (report progress_tx p ≫= k) Q.
Proof.
  intros Ho Hk. destruct progress_tx as [tx|]; [|exact Hk]. intros w Hw.
  destruct (Hk (tick o w id [EReported tx p])) as (a & w' & E & HQ); [by apply Ho|]. by exists a, w'.
Qed.

Lemma leads_pre {A} o (I I' : NodeState → Prop) (p : prog A) Q :
  (∀ s, I s → I' s) → leads o I' p Q → leads o I p Q.
Proof. intros HI Hp w Hw. by apply Hp, HI. Qed.

(** An execution is determined by its oracle. *)
Lemma leads_and {A} o (I : NodeState → Prop) (p : prog A) Q Q' : leads o I p Q → leads o I p Q' → leads o I p (λ a s, Q a s ∧ Q' a s).
Proof.
  intros H1 H2 w Hw. destruct (H1 w Hw) as (a & w' & E & HQ), (H2 w Hw) as (a' & w'' & E' & HQ'). rewrite E in E'. simplify_eq. by exists a', w''.
Qed.

Lemma leads_atomic {A} {B : Set} o (I : NodeState → Prop) (f : Ambient → NodeState → NodeState * B) (k : B → prog A) Q :
  preserves I o → (∀ i s, I s → leads o (λ s', s' = (f (ambient o i) s).1) (k (f (ambient o i) s).2) Q) → leads o I (atomic f ≫= k) Q.
Proof.
  intros Ho Hk w Hw. pose proof (Ho (w_next w) _ Hw) as Hs.
  destruct (Hk (w_next w) _ Hs (tick o w (λ s, (f (ambient o (w_next w)) s).1) [])) as (a & w' & E & HQ); [done|]. by exists a, w'.
Qed.

Lemma leads_send {A} o (I : NodeState → Prop) addr msg (k : res Message → prog A) Q :
  preserves I o → (∀ i, leads o I (k (net o i addr msg)) Q) → leads o I (send_request addr msg ≫= k) Q.
Proof.
  intros Ho Hk w Hw. destruct (Hk (w_next w) (tick o w id [ESent addr msg])) as (a & w' & E & HQ); [by apply Ho|]. by exists a, w'.
Qed.

(** A premise on the start that does not depend on the state. *)
Lemma leads_pure {A} o (I : NodeState → Prop) (H : Prop) (p : prog A) Q :
  (H → leads o I p Q) → leads o (λ s, H ∧ I s) p Q.
Proof. intros Hp w [Hh Hw]. by apply Hp. Qed.

Lemma leads_join_all2 {A B} o (I : NodeState → Prop) (P : A → B → Prop) l (f : A → prog B) :
  (∀ x, x ∈ l → leads o I (f x) (λ y s, P x y ∧ I s)) → leads o I (join_all l f) (λ ys s, Forall2 P l ys ∧ I s).
Proof.
  induction l as [|x l IH]; intros Hf; [apply leads_ret; by split|]. cbn [join_all].
  eapply leads_bind; [apply Hf; left|]. intros y. apply leads_pure. intros Hy.
  eapply leads_bind; [apply IH; intros z Hz; apply Hf; by right|]. intros ys. apply leads_pure. intros Hys. apply leads_ret. intros s Hs.
  split; [by constructor|done].
Qed.

(** ** Executions without interference, with their effects

    [ends o p w Q]: the body ends without a panic, and its result, the state it leaves and
    the effects it adds satisfy [Q]. *)
Definition ends {A} (o : Oracle) (p : prog A) (w : world) (Q : A → NodeState → list effect → Prop) : Prop :=
  ∃ a w' log, run o p w = (Some a, w') ∧ w_log w' = w_log w ++ log ∧ Q a (w_state w') log.

Section ends_rules.
Context (o : Oracle) (Hq : quiet o).

Lemma ends_ret {A} (a : A) w (Q : A → NodeState → list effect → Prop) : Q a (w_state w) [] → ends o (Ret a) w Q.
Proof. intros HQ. exists a, w, []. by rewrite app_nil_r. Qed.

Lemma ends_mono {A} (p : prog A) w (Q Q' : A → NodeState → list effect → Prop) :
  (∀ a s log, Q a s log → Q' a s log) → ends o p w Q → ends o p w Q'.
Proof. intros HQ (a & w' & log & E & El & Ha). exists a, w', log. auto. Qed.

Lemma ends_bind {A B} (p : prog A) (f : A → prog B) w Q (Q' : B → NodeState → list effect → Prop) :
  ends o p w Q →
  (∀ a w' log, Q a (w_state w') log → ends o (f a) w' (λ b s log', Q' b s (log ++ log'))) →
  ends o (p ≫= f) w Q'.
Proof.
  intros (a & w1 & l1 & E1 & El1 & Ha) Hf. destruct (Hf a w1 l1 Ha) as (b & w2 & l2 & E2 & El2 & Hb).
  exists b, w2, (l1 ++ l2). rewrite run_bind, E1. split_and!; [done| |done]. by rewrite El2, El1, app_assoc.
Qed.

Lemma ends_atomic {A : Set} {B} (f : Ambient → NodeState → NodeState * A) (k : A → prog B) w Q :
  (∀ amb, amb = ambient o (w_next w) →
    ends o (k (f amb (w_state w)).2) (after w (f amb (w_state w)).1 []) Q) → ends o (atomic f ≫= k) w Q.
Proof.
  intros Hk. destruct (Hk _ eq_refl) as (a & w' & log & E & El & HQ). exists a, w', log.
  rewrite run_atomic by done. split_and!; [done| |done]. rewrite El. simpl. by rewrite app_nil_r.
Qed.

Lemma ends_spawn w t (Q : () → NodeState → list effect → Prop) : Q () (w_state w) [ESpawned t] → ends o (spawn t) w Q.
Proof.
  intros HQ. exists (), (tick o w id [ESpawned t]), [ESpawned t]. split; [done|]. split; [done|].
  by rewrite (tick_quiet o) by done.
Qed.

(** [Inv l s log] holds once the elements of [l] are done. *)
Lemma ends_for_each {A} (l : list A) (f : A → prog ()) (Inv : list A → NodeState → list effect → Prop) w :
  (∀ x done w log, x ∈ l → Inv done (w_state w) log →
    ends o (f x) w (λ _ s log', Inv (done ++ [x]) s (log ++ log'))) →
  Inv [] (w_state w) [] → ends o (for_each l f) w (λ _, Inv l).
Proof.
  intros Hf Hi. enough (∀ done rest log w, done ++ rest = l → Inv done (w_state w) log →
    ends o (for_each rest f) w (λ _ s log', Inv l s (log ++ log'))) as Hall by exact (Hall [] l [] w eq_refl Hi).
  intros done rest. revert done. induction rest as [|x rest IH]; intros done log w1 E Hd; cbn [for_each].
  - apply ends_ret. rewrite app_nil_r in *. by subst.
  - eapply ends_bind; [apply (Hf x done); [|exact Hd]|]. { rewrite <-E. apply elem_of_app. right. left. }
    intros [] w2 log2 Hd2. eapply ends_mono; [|apply (IH (done ++ [x]) (log ++ log2)); [by rewrite <-app_assoc|exact Hd2]].
    cbv beta. intros _ s l2. by rewrite app_assoc.
Qed.
End ends_rules.

(** ** Action by action *)
(** One action of a body in surroundings that answer as [R] expects: the state it leaves, its effect, the rest of the body. *)
Definition acts {A} (R : expectations) (p : prog A) (s s' : NodeState) (log : list effect) (p' : prog A) : Prop :=
  match p with
  | Ret _ | Abort_ => False
  | Atomic f k => ∃ amb, of_ambient R amb ∧ s' = (f amb s).1 ∧ log = [] ∧ p' = k (f amb s).2
  | Send a m k => ∃ r, of_reply R r ∧ s' = s ∧ log = [ESent a m] ∧ p' = k r
  | SendAny l m k => ∃ evs, of_reply R (race_result l evs) ∧ s' = s ∧ log = [ERaced l m] ∧ p' = k (race_result l evs)
  | Reply a m k => ∃ r, s' = s ∧ log = [EReplied a m] ∧ p' = k r
  | Spawn t k => s' = s ∧ log = [ESpawned t] ∧ p' = k
  | Report tx p k => s' = s ∧ log = [EReported tx p] ∧ p' = k
  end.
Definition can_act {A} (p : prog A) : Prop := match p with Ret _ | Abort_ => False | _ => True end.

Lemma decide_can {A} (p : prog A) : (∃ a, p = Ret a) ∨ p = Abort_ ∨ can_act p.
Proof. destruct p as [a| | | | | | |]; [by left; exists a|by right; right..|by right; left]. Qed.

Lemma acts_can {A} R (p : prog A) s s' log p' : acts R p s s' log p' → can_act p.
Proof. by destruct p. Qed.

Lemma acts_bind {A B} R (p : prog A) (f : A → prog B) s s' log q :
  can_act p → acts R (p ≫= f) s s' log q ↔ ∃ p', acts R p s s' log p' ∧ q = p' ≫= f.
Proof. intros Hp. destruct p; cbn in *; naive_solver. Qed.

Lemma acts_within {A} R n (p : prog A) s s' log q :
  can_act p → acts R (within (S n) p) s s' log q ↔ ∃ p', acts R p s s' log p' ∧ q = within n p'.
Proof. intros Hp. destruct p; cbn in *; naive_solver. Qed.

Lemma within_zero {A} (p : prog A) : can_act p → within 0 p = Ret None.
Proof. by destruct p. Qed.

(** ** The shared operations of the handlers *)
Definition insert_node (node : NodeInfo) : prog InsertResult :=
  r ← atomic (λ amb s, match table_insert (am_now amb) node (n_routing_table s) with
                       | Ok (t, r) => (set_table s t, Some r)
                       | _ => (s, None)
                       end);
  match r with Some r => Ret r | None => Abort_ end.
Definition closest (target : NodeId) (count : nat) : prog (list NodeInfo) :=
  get (λ s, closest_nodes (n_routing_table s) target count).
(** [NodeInfo::new] reads the clock. *)
Definition new_node_info (id : NodeId) (public_key : list Z) (addresses : list SocketAddr) : prog NodeInfo :=
  atomic (λ amb s, (s, NodeInfo_new (am_now amb) id public_key addresses)).
Definition from_serde (n : NodeInfoSerde) : prog NodeInfo :=
  new_node_info (from_bytes (ns_node_id n)) (ns_public_key n) (ns_addresses n).
Definition record_failure (id : NodeId) (max_failures : Z) : prog () :=
  atomic (λ _ s, (set_table s (table_record_failure id max_failures (n_routing_table s)), ())).
