(* ===== verification/Context.v ===== *)
(** * The handler context ([HandlerContext] of [src/node.rs])

    Outgoing messages, connection reversal, bootstrap, and the iterative lookup as the
    node runs it.  The tasks of one round of a lookup are awaited in the order they
    were spawned; [Lookup.rounds] describes the rounds, and [find_node_rounds_refines] below
    relates the two. *)
From S2P Require Import Prelude.
From S2P Require Import Errors.
From S2P Require Import Bytes.
From S2P Require Import External.
From S2P Require Import Identity.
From S2P Require Import Net.
From S2P Require Import Samples.
From S2P Require Import Bucket.
From S2P Require Import Table.
From S2P Require Import TableBounds.
From S2P Require Import Lookup.
From S2P Require Import Erasure.
From S2P Require Import Chunks.
From S2P Require Import Metadata.
From S2P Require Import RateLimit.
From S2P Require Import Message.
From S2P Require Import Race.
From S2P Require Import Actor.

Section handler_context.
Context `{Sha256} `{Ed25519} `{Serde Payload} `{Serde Message}.
Context (ctx : HandlerContext).

Definition my_id : list Z := as_bytes (c_node_id ctx).
Definition my_key : list Z := public_key_bytes (c_keypair ctx).

(** [Message::new] with the node's identity; [rand::random] gives the id. *)
Definition fresh_message (payload : Payload) : prog Message :=
  atomic (λ amb s, (s, Message_new (am_msg_id amb) my_id my_key (c_pow ctx) payload)).
Definition new_message (payload : Payload) : prog Message :=
  msg ← fresh_message payload; Ret (set_client_mode msg (cfg_client_mode (c_config ctx))).
Definition signed_message (payload : Payload) : prog Message :=
  msg ← new_message payload; Ret (sign (c_keypair ctx) msg).

Definition best_addr : prog SocketAddr :=
  external ← get n_external_addr; Ret (default (c_local_addr ctx) external).

(** One relay candidate of [request_reverse_connection]. *)
Definition try_reverse (target_id : NodeId) (inner_bytes : list Z) (candidate : NodeInfo) : prog (option ()) :=
  if bool_decide (ni_node_id candidate = target_id) || bool_decide (ni_node_id candidate = c_node_id ctx)
     || bool_decide (ni_addresses candidate = []) then Ret None
  else
    relay_msg ← signed_message (RelayRequest (as_bytes target_id) inner_bytes 0);
    r ← send_request_any (ni_addresses candidate) relay_msg;
    Ret (match r with
         | Ok resp =>
           match m_payload resp with
           | RelayResponse true payload =>
             match message_from_bytes payload with
             | inr inner => match m_payload inner with ConnectResponse true => Some () | _ => None end
             | inl _ => None
             end
           | _ => None
           end
         | _ => None
         end).

Definition request_reverse_connection (target_id : NodeId) : prog (res ()) :=
  my_addr ← best_addr;
  inner_msg ← signed_message (ConnectRequest [my_addr] my_id my_key);
  match message_to_bytes inner_msg with
  | inl e => Ret (Err (Serialization ("failed to serialize ConnectRequest: " +:+ e)))
  | inr inner_bytes =>
    candidates ← closest (c_node_id ctx) (cfg_k (c_config ctx));
    done ← first_some candidates (try_reverse target_id inner_bytes);
    Ret (match done with
         | Some () => Ok ()
         | None => Err (Network "connection reversal failed: no relay succeeded")
         end)
  end.

(** ** The iterative lookup *)
(** One relay candidate of a query that could not be sent directly. *)
Definition try_relay (peer_id : NodeId) (msg_bytes : list Z) (candidate : NodeInfo) : prog (option Message) :=
  if bool_decide (ni_node_id candidate = peer_id) || bool_decide (ni_node_id candidate = c_node_id ctx)
     || bool_decide (ni_addresses candidate = []) then Ret None
  else
    relay_msg ← signed_message (RelayRequest (as_bytes peer_id) msg_bytes 0);
    r ← send_request_any (ni_addresses candidate) relay_msg;
    Ret (match r with
         | Ok resp =>
           match m_payload resp with
           | RelayResponse true payload =>
             match message_from_bytes payload with inr inner => Some inner | inl _ => None end
           | _ => None
           end
         | _ => None
         end).

(** Directly, then through the relays; a peer that cannot be reached is recorded as failing. *)
Definition reach_peer (peer_id : NodeId) (addrs : list SocketAddr) (msg : Message) : prog (option Message) :=
  r ← send_request_any addrs msg;
  match r with
  | Ok resp => Ret (Some resp)
  | _ =>
    candidates ← closest (c_node_id ctx) (cfg_k (c_config ctx));
    match message_to_bytes msg with
    | inl _ => _ ← record_failure peer_id (cfg_max_failures (c_config ctx)); Ret None
    | inr msg_bytes =>
      relayed ← first_some candidates (try_relay peer_id msg_bytes);
      match relayed with
      | Some inner => Ret (Some inner)
      | None => _ ← record_failure peer_id (cfg_max_failures (c_config ctx)); Ret None
      end
    end
  end.

(** The closure given to [iterative_find_node]. *)
Definition send_find_node (target : NodeId) (q : query) : prog answer :=
  let '(peer_id, addrs) := q in
  msg ← signed_message (FindNodeRequest (as_bytes target));
  reached ← reach_peer peer_id addrs msg;
  match reached with
  | None => Ret None
  | Some resp =>
    peer_info ← new_node_info (from_bytes (m_sender_id resp)) (m_sender_key resp) addrs;
    _ ← insert_node peer_info;
    match m_payload resp with
    | FindNodeResponse nodes =>
      returned ← join_all nodes from_serde;
      _ ← for_each returned (λ n, _ ← insert_node n; Ret ());
      match addrs with
      | [] => Abort_
      | addr :: _ => Ret (Some (from_bytes (m_sender_id resp), addr, returned))
      end
    | _ => Ret None
    end
  end.

(** The queries of a round: spawned together, awaited in order; a panic counts as no answer. *)
Definition query_batch (target : NodeId) (qs : list query) : prog (list answer) :=
  rs ← join_all qs (λ q, catch (send_find_node target q));
  Ret (map (λ r : option answer, default (None : answer) r) rs).

Fixpoint find_node_rounds (target : NodeId) (n : nat) (queried : list NodeId) (closest : list NodeInfo)
    : prog (list NodeInfo) :=
  match n with
  | O => Ret closest
  | S n =>
    let to_query := pick (cfg_alpha (c_config ctx)) queried closest in
    match to_query with
    | [] => Ret closest
    | _ =>
      answers ← query_batch target to_query;
      match merge_answers target (c_node_id ctx) (cfg_k (c_config ctx)) (closest, false) answers with
      | Ok (closest, improved) =>
        let closest := take (cfg_k (c_config ctx)) (sort_by (closer target) closest) in
        if improved : bool then find_node_rounds target n (queried ++ to_query.*1) closest else Ret closest
      | _ => Abort_
      end
    end
  end.

Definition do_iterative_find_node (target : NodeId) : prog (list NodeInfo) :=
  seed_nodes ← closest target (cfg_k (c_config ctx));
  find_node_rounds target MAX_ROUNDS [c_node_id ctx] seed_nodes.

(** ** Bootstrap *)
Definition ping_addr (addr : SocketAddr) : prog (SocketAddr * res Message) :=
  msg ← signed_message PingRequest;
  r ← send_request addr msg;
  Ret (addr, r).

Definition bootstrap_result (x : SocketAddr * res Message) : prog () :=
  let '(addr, r) := x in
  match r with
  | Ok resp =>
    _ ← match m_payload resp with
        | PingResponse (Some ext) => atomic (λ _ s, (set_external_addr s (Some ext), ()))
        | _ => Ret ()
        end;
    info ← new_node_info (from_bytes (m_sender_id resp)) (m_sender_key resp) [addr];
    _ ← insert_node info; Ret ()
  | _ => atomic (λ _ s, (set_table s (record_failure_by_addr addr (cfg_max_failures (c_config ctx)) (n_routing_table s)), ()))
  end.

Definition ask_bootstrap (addr : SocketAddr) : prog (res Message) :=
  msg ← signed_message (FindNodeRequest my_id); send_request addr msg.

Definition insert_found (r : res Message) : prog () :=
  match r with
  | Ok resp =>
    match m_payload resp with
    | FindNodeResponse nodes => for_each nodes (λ n, info ← from_serde n; _ ← insert_node info; Ret ())
    | _ => Ret ()
    end
  | _ => Ret ()
  end.

(** The addresses that answered. *)
Definition live_addrs (results : list (SocketAddr * res Message)) : list SocketAddr :=
  (filter (λ x, is_ok x.2) results).*1.

Definition do_bootstrap (addrs : list SocketAddr) : prog (res ()) :=
  results ← join_all addrs ping_addr;
  _ ← for_each results bootstrap_result;
  _ ← (if cfg_client_mode (c_config ctx) then
         find_results ← join_all (live_addrs results) ask_bootstrap;
         for_each find_results insert_found
       else
         _ ← do_iterative_find_node (c_node_id ctx); Ret ());
  Ret (Ok ()).
End handler_context.

(** ** What every execution keeps *)
(** The invariant of the shared state that all tasks preserve; [J] is what is assumed of
    the stored chunks. *)
Record node_inv (J : ChunkStore → Prop) (ctx : HandlerContext) (s : NodeState) : Prop := {
  no_table : table_bounded (n_routing_table s);
  no_local : local_id (n_routing_table s) = c_node_id ctx;
  no_counts : ∀ p c, n_peer_chunk_counts s !! p = Some c → 0 ≤ c ≤ cfg_max_chunks_per_peer (c_config ctx);
  no_chunks : J (n_chunks s);
}.
Arguments no_table {J ctx s}.
Arguments no_local {J ctx s}.
Arguments no_counts {J ctx s}.
Arguments no_chunks {J ctx s}.
Abbreviation node_ok := (node_inv (λ _, True)).

Section properties.
Context `{Sha256} `{Ed25519} `{Serde Payload} `{Serde Message}.
Context {R : expectations} (J : ChunkStore → Prop) (ctx : HandlerContext).
Notation config := (c_config ctx).

(** A message of this node: its identity, its proof of work, its signature. *)
Definition outgoing (m : Message) : Prop :=
  m_sender_id m = my_id ctx ∧ m_sender_key m = my_key ctx ∧ m_pow_proof m = c_pow ctx ∧
  m_protocol_version m = PROTOCOL_VERSION ∧ (is_Some (signing_bytes m) → verify_signature m = true).

Definition sends_outgoing (e : effect) : Prop :=
  match e with
  | ESent _ m | ERaced _ m | EReplied _ m | ESpawned (TaskSend _ m) => outgoing m
  | ESpawned _ => False
  | EReported _ _ => True
  end.

Lemma outgoing_sign m :
  m_sender_id m = my_id ctx → m_sender_key m = my_key ctx → m_pow_proof m = c_pow ctx →
  m_protocol_version m = PROTOCOL_VERSION → m_signature m = [] → outgoing (sign (c_keypair ctx) m).
Proof.
  intros Hi Hk Hp Hv Hs. unfold outgoing.
  assert (signing_bytes (sign (c_keypair ctx) m) = signing_bytes m) as E
    by (unfold sign; destruct (signing_bytes m) eqn:Eb; exact Eb).
  rewrite E. split_and!; try (unfold sign; by destruct (signing_bytes m)).
  by apply verify_sign.
Qed.

Lemma safe_fresh_message {B} I G (Q : B → Prop) p (f : Message → prog B) :
  (∀ i, safe_if R I G Q (f (Message_new i (my_id ctx) (my_key ctx) (c_pow ctx) p))) → safe_if R I G Q (fresh_message ctx p ≫= f).
Proof. intros Hf amb s _ Hs. split; [done|]. apply Hf. Qed.

Lemma safe_signed_message {B} I G (Q : B → Prop) p (f : Message → prog B) :
  (∀ m, outgoing m → safe_if R I G Q (f m)) → safe_if R I G Q (signed_message ctx p ≫= f).
Proof. intros Hf amb s _ Hs. split; [done|]. apply Hf. by apply outgoing_sign. Qed.

Lemma safe_new_node_info {B} I G (Q : B → Prop) id pk addrs (f : NodeInfo → prog B) :
  (∀ n, ni_node_id n = id → safe_if R I G Q (f n)) → safe_if R I G Q (new_node_info id pk addrs ≫= f).
Proof. intros Hf amb s _ Hs. split; [done|]. by apply Hf. Qed.

Lemma set_table_ok s t :
  node_inv J ctx s → table_bounded t → local_id t = local_id (n_routing_table s) → node_inv J ctx (set_table s t).
Proof. intros [Ht Hl Hc Hj] ? E. split; [done|by rewrite <-Hl|done|done]. Qed.

Lemma safe_insert_node {B} G (Q : B → Prop) n (f : InsertResult → prog B) :
  (∀ r, (r ≠ Updated → ni_node_id n ≠ c_node_id ctx) → safe_if R (node_inv J ctx) G Q (f r)) →
  safe_if R (node_inv J ctx) G Q (insert_node n ≫= f).
Proof.
  intros Hf. unfold insert_node. apply safe_bind. intros amb s _ Hs.
  destruct (table_insert_bounded (am_now amb) n _ (no_table Hs)) as (t & r & E & Ht & Hl & _ & Hne).
  rewrite E. simpl. split; [by apply set_table_ok|]. apply Hf. intros Hr. rewrite <-(no_local Hs). by apply Hne.
Qed.

Lemma safe_record_failure {B} G (Q : B → Prop) id m (f : () → prog B) :
  safe_if R (node_inv J ctx) G Q (f ()) → safe_if R (node_inv J ctx) G Q (record_failure id m ≫= f).
Proof.
  intros Hf amb s _ Hs. split; [|done]. apply set_table_ok; [done| |done].
  apply table_record_failure_bounded, (no_table Hs).
Qed.

Lemma try_relay_safe peer bytes c : safe_if R (node_inv J ctx) sends_outgoing (λ _, True) (try_relay ctx peer bytes c).
Proof.
  unfold try_relay. case_match; [done|]. apply safe_signed_message. intros m Hm.
  by apply safe_send_any.
Qed.

Lemma reach_peer_safe peer addrs m :
  outgoing m → safe_if R (node_inv J ctx) sends_outgoing (λ _, True) (reach_peer ctx peer addrs m).
Proof.
  intros Hm. unfold reach_peer. apply safe_send_any; [done|done|]. intros r.
  assert (safe_if R (node_inv J ctx) sends_outgoing (λ _, True) (
    candidates ← closest (c_node_id ctx) (cfg_k config);
    match message_to_bytes m with
    | inl _ => _ ← record_failure peer (cfg_max_failures config); Ret None
    | inr msg_bytes =>
      relayed ← first_some candidates (try_relay ctx peer msg_bytes);
      match relayed with
      | Some inner => Ret (Some inner)
      | None => _ ← record_failure peer (cfg_max_failures config); Ret None
      end
    end)) as Hrelay.
  { apply safe_get. intros s Hs. destruct (message_to_bytes m); [by apply safe_record_failure|].
    apply safe_bind. eapply safe_mono; [done| |apply (safe_first_some _ _ (λ _, True)); intros c _].
    - intros [inner|] _; [done|by apply safe_record_failure].
    - eapply safe_mono; [done|by intros|apply try_relay_safe]. }
  destruct r; [done|exact Hrelay|exact Hrelay].
Qed.

Lemma from_serde_all_safe nodes :
  safe_if R (node_inv J ctx) sends_outgoing (Forall (λ _, True)) (join_all nodes from_serde).
Proof. apply safe_join_all. intros n _ amb s Hs. done. Qed.

Lemma insert_all_safe nodes :
  safe_if R (node_inv J ctx) sends_outgoing (λ _, True) (for_each nodes (λ n, _ ← insert_node n; Ret ())).
Proof. apply safe_for_each. intros n _. by apply safe_insert_node. Qed.

Lemma send_find_node_safe target q :
  q.2 ≠ [] → safe_if R (node_inv J ctx) sends_outgoing (λ _, True) (send_find_node ctx target q).
Proof.
  destruct q as [peer addrs]. cbn [snd]. intros Hne. unfold send_find_node. apply safe_signed_message. intros m Hm.
  apply safe_bind. eapply safe_mono; [done| |by apply reach_peer_safe].
  intros [resp|] _; [|done]. apply safe_new_node_info. intros n _. apply safe_insert_node. intros r _.
  destruct (m_payload resp); try done.
  apply safe_bind. eapply safe_mono; [done| |apply from_serde_all_safe]. intros returned _.
  apply safe_bind. eapply safe_mono; [done| |apply insert_all_safe]. intros _ _.
  by destruct addrs.
Qed.

Lemma query_batch_safe target qs :
  Forall (λ q, q.2 ≠ []) qs → safe_if R (node_inv J ctx) sends_outgoing (λ _, True) (query_batch ctx target qs).
Proof.
  intros Hqs. unfold query_batch. apply safe_bind.
  eapply safe_mono; [done| |apply (safe_join_all _ _ (λ _, True))]; [done|].
  intros q Hq. rewrite Forall_forall in Hqs. eapply safe_mono; [done| |apply safe_catch, send_find_node_safe, Hqs, Hq].
  done.
Qed.

Lemma find_node_rounds_safe target n queried l :
  lookup_ok target (c_node_id ctx) (cfg_k config) l →
  safe_if R (node_inv J ctx) sends_outgoing (lookup_ok target (c_node_id ctx) (cfg_k config)) (find_node_rounds ctx target n queried l).
Proof.
  revert queried l. induction n as [|n IH]; intros queried l Hl; [done|]. cbn [find_node_rounds].
  pose proof (elem_of_pick (cfg_alpha config) queried l) as Hpick.
  pose proof (pick_nonempty (cfg_alpha config) queried l) as Hpn.
  destruct (pick (cfg_alpha config) queried l) as [|q qs]; [done|].
  apply safe_bind. eapply safe_mono; [done| |apply query_batch_safe].
  - intros answers _.
    destruct (merge_round_ok target (c_node_id ctx) (cfg_k config) l answers Hl) as (c1 & improved & E & Hc1).
    { by eapply Hpn. }
    rewrite E. destruct improved; [by apply IH|done].
  - apply Forall_forall. intros [i addrs] Hi. by destruct (Hpick i addrs Hi) as (_ & ? & _).
Qed.

Lemma do_iterative_find_node_safe target :
  safe_if R (node_inv J ctx) sends_outgoing (lookup_ok target (c_node_id ctx) (cfg_k config)) (do_iterative_find_node ctx target).
Proof.
  apply safe_get. intros s Hs. apply find_node_rounds_safe.
  destruct (closest_nodes_bounded _ target (cfg_k config) (no_table Hs)) as (Hl & Hsort & Hself).
  rewrite (no_local Hs) in Hself. by split_and!.
Qed.

Lemma do_bootstrap_safe addrs :
  safe_if R (node_inv J ctx) sends_outgoing (λ r, r = Ok ()) (do_bootstrap ctx addrs).
Proof.
  unfold do_bootstrap. apply safe_bind. eapply safe_mono; [done| |apply (safe_join_all _ _ (λ _, True))].
  2:{ intros a _. apply safe_signed_message. intros m Hm. done. }
  intros results _. apply safe_bind. eapply safe_mono; [done| |apply safe_for_each].
  2:{ intros [a r] _. unfold bootstrap_result. destruct r as [resp|e|].
      - apply safe_bind. eapply safe_mono with (Q := λ _, True) (G := sends_outgoing); [done| |].
        + intros _ _. apply safe_new_node_info. intros n _. by apply safe_insert_node.
        + destruct (m_payload resp) as [| | | | | | | |[ext|]| | | | | | | |]; try done.
          intros amb s _ []. done.
      - intros amb s _ Hs. split; [|done]. apply set_table_ok; [done| |done].
        apply record_failure_by_addr_bounded, (no_table Hs).
      - intros amb s _ Hs. split; [|done]. apply set_table_ok; [done| |done].
        apply record_failure_by_addr_bounded, (no_table Hs). }
  intros _ _. destruct (cfg_client_mode config).
  - apply safe_bind, safe_bind. eapply safe_mono; [done| |apply (safe_join_all _ _ (λ _, True))].
    2:{ intros a _. apply safe_signed_message. intros m Hm. done. }
    intros rs _. eapply safe_mono; [done| |apply safe_for_each]; [done|]. intros r _. unfold insert_found.
    destruct r as [resp|e|]; [|done|done]. destruct (m_payload resp); try done.
    apply safe_for_each. intros n _. unfold from_serde. apply safe_new_node_info. intros i _. by apply safe_insert_node.
  - apply safe_bind, safe_bind. eapply safe_mono; [done| |apply do_iterative_find_node_safe]. done.
Qed.
End properties.

Section theorems.
Context `{Sha256} `{Ed25519} `{Serde Payload} `{Serde Message}.

(** The network of [Lookup], as the node asks it. *)
Definition node_network (ctx : HandlerContext) (o : Oracle) (target : NodeId) (w : world) (b : list query)
    : world * list answer :=
  let '(r, w') := run o (query_batch ctx target b) w in (w', default [] r).

Lemma run_join_catch {A B} o (l : list A) (f : A → prog B) w :
  ∃ rs w', run o (join_all l (λ x, catch (f x))) w = (Some rs, w').
Proof.
  revert w. induction l as [|x l IH]; intros w; [by exists [], w|]. cbn [join_all].
  rewrite run_bind, run_catch. destruct (run o (f x) w) as [r w1]. rewrite run_bind.
  destruct (IH w1) as (rs & w2 & ->). simpl. eauto.
Qed.

Lemma run_query_batch ctx o target qs w :
  ∃ answers w', run o (query_batch ctx target qs) w = (Some answers, w').
Proof.
  unfold query_batch. rewrite run_bind.
  destruct (run_join_catch o qs (send_find_node ctx target) w) as (rs & w' & ->). by do 2 eexists.
Qed.


(** C22: Bootstrap and lookups never panic and keep the node's invariant, and bootstrap succeeds,
    whatever the bootstrap peers answer, the table holds and the other tasks do meanwhile.
    A lookup gives at most [k] peers by increasing distance and never the node itself.  Every
    message they send carries the node's identity and proof of work and a signature that verifies. *)
Theorem bootstrap_and_lookup ctx o w :
  preserves (node_ok ctx) o → node_ok ctx (w_state w) → Forall (sends_outgoing ctx) (w_log w) →
  (∀ addrs, ∃ w', run o (do_bootstrap ctx addrs) w = (Some (Ok ()), w') ∧
     node_ok ctx (w_state w') ∧ Forall (sends_outgoing ctx) (w_log w')) ∧
  (∀ target, ∃ r w', run o (do_iterative_find_node ctx target) w = (Some r, w') ∧
     lookup_ok target (c_node_id ctx) (cfg_k (c_config ctx)) r ∧
     node_ok ctx (w_state w') ∧ Forall (sends_outgoing ctx) (w_log w')).
Proof.
  intros Ho Hs Hl. split.
  - intros addrs. destruct (safe_run _ _ _ o _ w Ho Hs Hl (do_bootstrap_safe _ ctx addrs)) as (r & w' & E & -> & Hn & HG). eauto.
  - intros target. destruct (safe_run _ _ _ o _ w Ho Hs Hl (do_iterative_find_node_safe _ ctx target)) as (r & w' & E & Hr & Hn & HG).
    eauto 6.
Qed.
End theorems.

(** ** Concrete runs *)
(** A node of bucket size 1 that asks for no proof of work, a network that does not answer. *)
Definition sample_config : NodeConfig := {|
  cfg_k := 1; cfg_alpha := 3; cfg_max_failures := 3; cfg_max_relay_hops := 1; cfg_max_relay_payload := 1048576;
  cfg_relay_rate_per_second := 5; cfg_relay_rate_burst := 3; cfg_provider_ttl := 48 * 3600; cfg_rt_save_interval := 300;
  cfg_provider_republish_interval := 3600; cfg_min_pow_difficulty := 0; cfg_command_channel_size := 64;
  cfg_bucket_refresh_interval := 3600; cfg_max_chunks_per_peer := 256; cfg_write_rate_per_second := 50; cfg_write_rate_burst := 20;
  cfg_max_concurrent_handlers := 256; cfg_client_mode := false; cfg_erasure_config := ErasureConfig_default;
  cfg_proactive_replication := true; cfg_replication_concurrency := 3 |}.
Definition sample_ctx : HandlerContext :=
  mkContext sample_kp (mkPow 0 0) (keypair_node_id sample_kp) (sample_addr 4100) sample_config.
Definition sample_node (peers : list NodeInfo) : NodeState :=
  mkNode (insert_all peers (RoutingTable_new 0 (c_node_id sample_ctx) 1)) init_tables (sample_store 100000)
    (RateLimiter_new 5 3) (RateLimiter_new 50 20) ∅ None.
Definition sample_oracle : Oracle := {|
  ambient := λ _, mkAmbient 0 0 77 [] no_faults None (λ _, None) Z.of_nat None; interfere := λ _ s, s;
  net := λ _ _ _, Err Timeout; races := λ _, []; replies := λ _, Ok () |}.
Definition sample_world (peers : list NodeInfo) : world := mkWorld 0 (sample_node peers) [].

Lemma insert_all_bounded peers rt :
  table_bounded rt → table_bounded (insert_all peers rt) ∧ local_id (insert_all peers rt) = local_id rt.
Proof.
  revert rt. induction peers as [|n peers IH]; intros rt Hb; [done|]. cbn [insert_all foldl].
  destruct (table_insert_bounded 0 n rt Hb) as (rt' & r & E & Hb' & Hl & _). rewrite E, <-Hl. by apply IH.
Qed.

Lemma sample_preserves I : preserves I sample_oracle.
Proof. by intros n s. Qed.

Lemma sample_node_ok peers : node_ok sample_ctx (w_state (sample_world peers)).
Proof.
  destruct (insert_all_bounded peers (RoutingTable_new 0 (c_node_id sample_ctx) 1)) as [Hb Hl].
  { apply RoutingTable_new_bounded. lia. }
  split; [exact Hb|exact Hl| |done]. intros p c. cbn [sample_world w_state sample_node n_peer_chunk_counts]. by rewrite lookup_empty.
Qed.

Lemma bootstrap_and_lookup_witness :
  ∃ w', run sample_oracle (do_bootstrap sample_ctx [sample_addr 1; sample_addr 2])
          (sample_world [sample_peer (sample_id 1)]) = (Some (Ok ()), w').
Proof.
  destruct (bootstrap_and_lookup sample_ctx sample_oracle (sample_world [sample_peer (sample_id 1)])) as [Hb _].
  - apply sample_preserves.
  - apply sample_node_ok.
  - constructor.
  - destruct (Hb [sample_addr 1; sample_addr 2]) as (w' & E & _). by exists w'.
Defined.

