(* ===== verification/Handler.v ===== *)
(** * Inbound messages ([handle_inbound_message] of [src/node.rs])

    The gate every inbound message passes, the update of the routing table with the
    least-recently-seen eviction, the response to each request, and the replication of
    chunks to a new peer.  The [match] on the payload is one definition per arm. *)
From S2P Require Import Prelude.
From S2P Require Import Errors.
From S2P Require Import Bytes.
From S2P Require Import External.
From S2P Require Import Identity.
From S2P Require Import Net.
From S2P Require Import Samples.
From S2P Require Import Bucket.
From S2P Require Import Table.
From S2P Require Import TableBounds.
From S2P Require Import Lookup.
From S2P Require Import Chunks.
From S2P Require Import Metadata.
From S2P Require Import RateLimit.
From S2P Require Import Message.
From S2P Require Import Race.
From S2P Require Import Actor.
From S2P Require Import Context.

Section handler.
Context `{Sha256} `{Ed25519} `{Serde Payload} `{Serde Message} `{Hex} `{Json (list SocketAddr)}.
Context (oc : bool) (ctx : HandlerContext).
Notation config := (c_config ctx).

(** ** The gate *)
Definition verify_inner_message (msg : Message) : bool :=
  ed_vk_valid (m_sender_key msg)
  && verify_node_id (from_bytes (m_sender_id msg)) (m_sender_key msg)
  && verify_with_min_difficulty (m_pow_proof msg) (m_sender_key msg) (cfg_min_pow_difficulty config)
  && verify_signature msg.

(** The early returns of [handle_inbound_message], in order. *)
Definition accepted (msg : Message) : bool :=
  if negb (ed_vk_valid (m_sender_key msg)) then false
  else if negb (verify_node_id (from_bytes (m_sender_id msg)) (m_sender_key msg)) then false
  else if negb (verify_with_min_difficulty (m_pow_proof msg) (m_sender_key msg) (cfg_min_pow_difficulty config)) then false
  else if negb (verify_signature msg) then false
  else if negb (m_protocol_version msg =? PROTOCOL_VERSION) then false
  else true.

(** ** Routing table update *)
(** The bucket is full: ping the least recently seen peer, evict it if it does not answer. *)
Definition try_evict (lrs_node_id : NodeId) (node_info : NodeInfo) : prog () :=
  found ← closest lrs_node_id 1;
  match head (filter (λ n, ni_node_id n = lrs_node_id) found) ≫= (λ n, head (ni_addresses n)) with
  | None => Ret ()
  | Some addr =>
    ping ← fresh_message ctx PingRequest;
    r ← send_request addr (sign (c_keypair ctx) ping);
    match r with
    | Ok _ => Ret ()
    | _ => atomic (λ amb s,
             (set_table s (table_evict_and_insert (am_now amb) lrs_node_id node_info (n_routing_table s)).1, ()))
    end
  end.

Definition update_table (from_addr : SocketAddr) (msg : Message) : prog () :=
  if m_client_mode msg then Ret ()
  else
    node_info ← new_node_info (from_bytes (m_sender_id msg)) (m_sender_key msg) [from_addr];
    insert_result ← insert_node node_info;
    match insert_result with
    | Inserted => if cfg_proactive_replication config then spawn (TaskReplicate node_info) else Ret ()
    | BucketFull lrs_node_id => try_evict lrs_node_id node_info
    | Updated => Ret ()
    end.

(** ** Responses *)
Definition closest_serde (target : list Z) : prog (list NodeInfoSerde) :=
  l ← closest (from_bytes target) (cfg_k config); Ret (map to_serde l).

Definition handle_get_providers (key : list Z) : prog Payload :=
  r ← atomic (λ amb s, (s, get_providers (am_db amb) (am_unix amb) (n_metadata s) key));
  closer_nodes ← closest_serde key;
  Ret (GetProvidersResponse (match r with Ok l => l | _ => [] end) closer_nodes).

Definition handle_add_provider (msg : Message) (key : list Z) (addresses : list SocketAddr) : prog Payload :=
  r ← atomic (λ amb s,
        let '(m, r) := add_provider oc (am_db amb) (am_unix amb) (n_metadata s) key (m_sender_id msg) (m_sender_key msg)
                         addresses (cfg_provider_ttl config) in
        (set_metadata s m, is_ok r));
  Ret (AddProviderResponse r).

Definition handle_get_chunk (chunk_hash : list Z) : prog Payload :=
  r ← atomic (λ amb s, let '(c, r) := chunk_get (am_fs amb) (n_chunks s) chunk_hash in (set_chunks s c, r));
  Ret (GetChunkResponse (match r with Ok (Some data) => data | _ => [] end)).

(** The speculative increment of the peer's chunk count, and its rollback. *)
Definition reserve_chunk (sender_id : list Z) (s : NodeState) : NodeState * bool :=
  let count := default 0 (n_peer_chunk_counts s !! sender_id) in
  if cfg_max_chunks_per_peer config <=? count
  then (set_counts s (<[sender_id := count]> (n_peer_chunk_counts s)), false)
  else (set_counts s (<[sender_id := count + 1]> (n_peer_chunk_counts s)), true).
Definition rollback_chunk (sender_id : list Z) (s : NodeState) : NodeState :=
  let count := default 1 (n_peer_chunk_counts s !! sender_id) in
  set_counts s (<[sender_id := saturating_sub count 1]> (n_peer_chunk_counts s)).

Definition handle_put_chunk (from_addr : SocketAddr) (sender_id chunk_hash data : list Z) : prog Payload :=
  allowed ← atomic (λ amb s, let '(l, b) := limiter_check (am_now amb) (ip from_addr) (n_write_limiter s) in
                             (set_write_limiter s l, b));
  if negb allowed then Ret (PutChunkResponse false)
  else
    reserved ← atomic (λ _, reserve_chunk sender_id);
    if negb reserved then Ret (PutChunkResponse false)
    else
      ok ← atomic (λ amb s, let '(c, r) := chunk_put oc (am_fs amb) (n_chunks s) chunk_hash data in
                            (set_chunks s c, is_ok r));
      _ ← (if negb ok then atomic (λ _ s, (rollback_chunk sender_id s, ())) else Ret ());
      Ret (PutChunkResponse ok).

Definition is_relay_request (p : Payload) : bool :=
  match p with RelayRequest _ _ _ => true | _ => false end.
Definition relay_failed : Payload := RelayResponse false [].

(** The forwarding of a checked inner message. *)
Definition forward (target_id : list Z) (inner_msg : Message) : prog Payload :=
  found ← closest (from_bytes target_id) 1;
  match head (filter (λ n, ni_node_id n = from_bytes target_id ∧ ni_addresses n ≠ []) found) with
  | None => Ret relay_failed
  | Some node =>
    r ← send_request_any (ni_addresses node) inner_msg;
    Ret (match r with
         | Ok resp =>
           match message_to_bytes resp with
           | inr resp_bytes => RelayResponse true resp_bytes
           | inl _ => relay_failed
           end
         | _ => relay_failed
         end)
  end.

Definition handle_relay (from_addr : SocketAddr) (target_id payload : list Z) (relay_hops : Z) : prog Payload :=
  if cfg_max_relay_hops config <=? relay_hops then Ret relay_failed
  else if cfg_max_relay_payload config <? Z.of_nat (length payload) then Ret relay_failed
  else
    allowed ← atomic (λ amb s, let '(l, b) := limiter_check (am_now amb) (ip from_addr) (n_relay_limiter s) in
                               (set_relay_limiter s l, b));
    if negb allowed then Ret relay_failed
    else
      match message_from_bytes payload with
      | inl _ => Ret relay_failed
      | inr inner_msg =>
        if is_relay_request (m_payload inner_msg) then Ret relay_failed
        else if negb (verify_inner_message inner_msg) then Ret relay_failed
        else forward target_id inner_msg
      end.

Definition handle_connect (requester_addrs : list SocketAddr) : prog Payload :=
  reached ← first_some requester_addrs (λ addr,
    ping ← signed_message ctx PingRequest;
    r ← send_request addr ping;
    Ret (if is_ok r then Some () else None));
  Ret (ConnectResponse (match reached with Some _ => true | None => false end)).

(** [None]: a response that arrived as a request is ignored. *)
Definition respond (from_addr : SocketAddr) (msg : Message) : prog (option Payload) :=
  match m_payload msg with
  | PingRequest => Ret (Some (PingResponse (Some from_addr)))
  | FindNodeRequest target => nodes ← closest_serde target; Ret (Some (FindNodeResponse nodes))
  | GetProvidersRequest key => p ← handle_get_providers key; Ret (Some p)
  | AddProviderRequest key addresses => p ← handle_add_provider msg key addresses; Ret (Some p)
  | GetChunkRequest chunk_hash => p ← handle_get_chunk chunk_hash; Ret (Some p)
  | PutChunkRequest chunk_hash data => p ← handle_put_chunk from_addr (m_sender_id msg) chunk_hash data; Ret (Some p)
  | RelayRequest target_id payload relay_hops => p ← handle_relay from_addr target_id payload relay_hops; Ret (Some p)
  | ConnectRequest requester_addrs _ _ => p ← handle_connect requester_addrs; Ret (Some p)
  | _ => Ret None
  end.

Definition handle_inbound_message (from_addr : SocketAddr) (msg : Message) : prog () :=
  if negb (accepted msg) then Ret ()
  else
    _ ← update_table from_addr msg;
    response_payload ← respond from_addr msg;
    match response_payload with
    | None => Ret ()
    | Some p =>
      let r := sign (c_keypair ctx) (response msg (my_id ctx) (my_key ctx) (c_pow ctx) p) in
      _ ← send_response from_addr r; Ret ()
    end.

(** ** Replication to a new peer *)
Definition replicate_chunk (new_node : NodeInfo) (key : list Z) : prog () :=
  r ← atomic (λ amb s, let '(c, r) := chunk_get (am_fs amb) (n_chunks s) key in (set_chunks s c, r));
  match r with
  | Ok (Some chunk_data) =>
    msg ← signed_message ctx (PutChunkRequest key chunk_data);
    spawn (TaskSend (ni_addresses new_node) msg)
  | _ => Ret ()
  end.

Definition replicate_chunks_to_node (new_node : NodeInfo) : prog () :=
  if bool_decide (ni_addresses new_node = []) || bool_decide (ni_node_id new_node = c_node_id ctx) then Ret ()
  else
    own ← atomic (λ amb s, (s, get_own_providers (am_db amb) (am_unix amb) (n_metadata s) (my_id ctx)));
    match own with
    | Ok own_keys =>
      keys_to_replicate ← get (λ s, filter (λ key,
        existsb (has_id (ni_node_id new_node))
          (closest_nodes (n_routing_table s) (from_bytes key) (cfg_k config)) = true) own_keys);
      for_each keys_to_replicate (replicate_chunk new_node)
    | _ => Ret ()
    end.

(** A spawned sender: its result is only counted. *)
Definition send_task (addrs : list SocketAddr) (msg : Message) : prog () :=
  _ ← send_request_any addrs msg; Ret ().
End handler.

(** ** What a handler does *)
Section specification.
Context `{Sha256} `{Ed25519} `{Serde Payload} `{Serde Message} `{Hex} `{Json (list SocketAddr)}.
Context (oc : bool) (ctx : HandlerContext).
Notation config := (c_config ctx).

(** [inner] may be forwarded for [msg]. *)
Definition relayable (msg inner : Message) : Prop :=
  ∃ target_id payload relay_hops, m_payload msg = RelayRequest target_id payload relay_hops ∧
    relay_hops < cfg_max_relay_hops config ∧ Z.of_nat (length payload) ≤ cfg_max_relay_payload config ∧
    message_from_bytes payload = inr inner ∧ is_relay_request (m_payload inner) = false ∧
    verify_inner_message ctx inner = true.

(** What a handler may do before it answers: send messages of this node or a relayed one, and
    start replicating to a sender that is not in client mode. *)
Definition handler_effect (msg : Message) (e : effect) : Prop :=
  match e with
  | ESent _ m | ERaced _ m => outgoing ctx m ∨ relayable msg m
  | EReplied _ _ | EReported _ _ => False
  | ESpawned t => ∃ n, t = TaskReplicate n ∧ ni_node_id n = from_bytes (m_sender_id msg) ∧ m_client_mode msg = false
  end.

(** The peers named in an answer. *)
Definition closest_answer (target : list Z) (nodes : list NodeInfoSerde) : Prop :=
  ∃ l, nodes = map to_serde l ∧ lookup_ok (from_bytes target) (c_node_id ctx) (cfg_k config) l.

(** What the payload of an answer says, by request. *)
Definition answers (from_addr : SocketAddr) (msg : Message) (p : Payload) : Prop :=
  match m_payload msg with
  | PingRequest => p = PingResponse (Some from_addr)
  | FindNodeRequest target => ∃ nodes, p = FindNodeResponse nodes ∧ closest_answer target nodes
  | GetProvidersRequest key => ∃ l nodes, p = GetProvidersResponse l nodes ∧ closest_answer key nodes
  | AddProviderRequest _ _ => ∃ ok, p = AddProviderResponse ok
  | GetChunkRequest h => ∃ d, p = GetChunkResponse d ∧ (d = [] ∨ sha256 d = h)
  | PutChunkRequest h d => ∃ ok, p = PutChunkResponse ok ∧ (ok = true → sha256 d = h ∧ size_of d ≤ MAX_CHUNK_SIZE)
  | RelayRequest _ _ _ => ∃ ok d, p = RelayResponse ok d ∧ (ok = true → ∃ inner, relayable msg inner)
  | ConnectRequest addrs _ _ => ∃ ok, p = ConnectResponse ok ∧ (ok = true → addrs ≠ [])
  | _ => False
  end.

Lemma chunk_get_sound f s h d s' : chunk_get f s h = (s', Ok (Some d)) → sha256 d = h.
Proof.
  unfold chunk_get. destruct (get_sync f s h) as [s1 r] eqn:E. revert E. unfold get_sync.
  case_match; [|by intros [= <- <-]]. case_match; [by intros [= <- <-]|].
  case_bool_decide as Hh; cbn [negb]; intros [= <- <-]; [|done]. by intros [= <- <-].
Qed.

Lemma chunk_put_sound f s h d s' : chunk_put oc f s h d = (s', Ok ()) → sha256 d = h ∧ size_of d ≤ MAX_CHUNK_SIZE.
Proof.
  unfold chunk_put. destruct (put_sync oc f s h d) as [s1 r] eqn:E. revert E. unfold put_sync.
  destruct (Z.ltb_spec MAX_CHUNK_SIZE (size_of d)) as [|Hle]; [by intros [= <- <-]|]. case_bool_decide as Hh; [|by intros [= <- <-]].
  done.
Qed.
End specification.

Section safety.
Context `{Sha256} `{Ed25519} `{Serde Payload} `{Serde Message} `{Hex} `{Json (list SocketAddr)}.
Context (oc : bool) (ctx : HandlerContext) (from_addr : SocketAddr) (msg : Message).
Notation config := (c_config ctx).
Notation ok := (node_ok ctx).
Notation handling := (handler_effect ctx msg).

Lemma handling_outgoing a m : outgoing ctx m → handling (ESent a m).
Proof. by left. Qed.

Lemma set_chunks_ok s c : ok s → ok (set_chunks s c).
Proof. by intros []. Qed.
Lemma set_metadata_ok s m : ok s → ok (set_metadata s m).
Proof. by intros []. Qed.
Lemma set_write_limiter_ok s l : ok s → ok (set_write_limiter s l).
Proof. by intros []. Qed.
Lemma set_relay_limiter_ok s l : ok s → ok (set_relay_limiter s l).
Proof. by intros []. Qed.

Lemma reserve_chunk_ok sender s : 0 ≤ cfg_max_chunks_per_peer config → ok s → ok (reserve_chunk ctx sender s).1.
Proof.
  intros Hm [Ht Hl Hc]. unfold reserve_chunk.
  assert (0 ≤ default 0 (n_peer_chunk_counts s !! sender) ≤ cfg_max_chunks_per_peer config) as Hr.
  { destruct (n_peer_chunk_counts s !! sender) eqn:E; [by apply Hc in E|]. simpl. lia. }
  destruct (Z.leb_spec (cfg_max_chunks_per_peer config) (default 0 (n_peer_chunk_counts s !! sender))); split; try done;
    intros p c; cbn [fst n_peer_chunk_counts set_counts]; rewrite lookup_insert_Some; intros [[_ <-]|[_ E]]; try (by apply Hc in E); lia.
Qed.

Lemma rollback_chunk_ok sender s : 0 < cfg_max_chunks_per_peer config → ok s → ok (rollback_chunk sender s).
Proof.
  intros Hm [Ht Hl Hc]. unfold rollback_chunk. split; try done.
  intros p c; cbn [n_peer_chunk_counts set_counts]; rewrite lookup_insert_Some; intros [[_ <-]|[_ E]]; [|by apply Hc in E].
  unfold saturating_sub. destruct (n_peer_chunk_counts s !! sender) eqn:E; simpl; [apply Hc in E|]; lia.
Qed.

Lemma closest_serde_safe target : safe ok handling (λ l, closest_answer ctx target l) (closest_serde ctx target).
Proof.
  apply safe_get. intros s Hs. eexists. split; [done|].
  destruct (closest_nodes_bounded _ (from_bytes target) (cfg_k config) (no_table Hs)) as (Hl & Hsort & Hself).
  rewrite (no_local Hs) in Hself. by split_and!.
Qed.

Lemma try_evict_safe lrs node : ni_node_id node ≠ c_node_id ctx → safe ok handling (λ _, True) (try_evict ctx lrs node).
Proof.
  intros Hne. apply safe_get. intros s Hs. case_match; [|done]. apply safe_fresh_message. intros i.
  split; [apply handling_outgoing, outgoing_sign; done|]. intros r.
  assert (safe ok handling (λ _ : (), True) (atomic (λ amb s,
    (set_table s (table_evict_and_insert (am_now amb) lrs node (n_routing_table s)).1, ())))) as Hevict.
  { intros amb s1 _ Hs1. split; [|done]. apply set_table_ok; [done| |done].
    apply table_evict_bounded; [apply Hs1|]. by rewrite (no_local Hs1). }
  by destruct r.
Qed.

Lemma update_table_safe : safe ok handling (λ _, True) (update_table ctx from_addr msg).
Proof.
  unfold update_table. destruct (m_client_mode msg) eqn:Hm; [done|]. apply safe_new_node_info. intros n Hn.
  apply safe_insert_node. intros r Hr. destruct r as [|lrs|]; [| |done].
  - case_match; [|done]. split; [|done]. exists n. by rewrite Hn.
  - apply try_evict_safe, Hr. done.
Qed.

Lemma handle_get_chunk_safe h :
  safe ok handling (λ p, ∃ d, p = GetChunkResponse d ∧ (d = [] ∨ sha256 d = h)) (handle_get_chunk h).
Proof.
  apply safe_atomic. intros amb s _ Hs. destruct (chunk_get (am_fs amb) (n_chunks s) h) as [c r] eqn:E.
  split; [by apply set_chunks_ok|]. simpl. eexists. split; [done|]. destruct r as [[d|]| |]; auto. right.
  by apply chunk_get_sound in E.
Qed.

Lemma handle_add_provider_safe key addrs :
  safe ok handling (λ p, ∃ b, p = AddProviderResponse b) (handle_add_provider oc ctx msg key addrs).
Proof. apply safe_atomic. intros amb s _ Hs. case_match. split; [by apply set_metadata_ok|]. by eexists. Qed.

Lemma handle_get_providers_safe key :
  safe ok handling (λ p, ∃ l nodes, p = GetProvidersResponse l nodes ∧ closest_answer ctx key nodes)
    (handle_get_providers ctx key).
Proof.
  apply safe_atomic. intros amb s _ Hs. split; [done|]. apply safe_bind. eapply safe_mono; [done| |apply closest_serde_safe].
  intros l Hl. do 2 eexists. by split.
Qed.

Lemma handle_put_chunk_safe sender h d :
  0 < cfg_max_chunks_per_peer config →
  safe ok handling (λ p, ∃ b, p = PutChunkResponse b ∧ (b = true → sha256 d = h ∧ size_of d ≤ MAX_CHUNK_SIZE))
    (handle_put_chunk oc ctx from_addr sender h d).
Proof.
  intros Hm. apply safe_atomic. intros amb s _ Hs. case_match. split; [by apply set_write_limiter_ok|]. simpl.
  case_match; [by eexists|]. apply safe_atomic. intros amb1 s1 _ Hs1.
  split; [apply reserve_chunk_ok; [lia|done]|]. case_match; [by eexists|]. apply safe_atomic. intros amb2 s2 _ Hs2.
  destruct (chunk_put oc (am_fs amb2) (n_chunks s2) h d) as [c pr] eqn:E. split; [by apply set_chunks_ok|]. cbn [snd].
  apply safe_bind. eapply (safe_mono _ handling _ (λ _, True)); [done| |].
  - intros _ _. eexists. split; [done|]. destruct pr as [[]| |]; try done. intros _. by apply chunk_put_sound in E.
  - destruct (is_ok pr); [done|]. intros amb3 s3 _ Hs3. split; [by apply rollback_chunk_ok|done].
Qed.

Lemma handle_connect_safe addrs :
  safe ok handling (λ p, ∃ b, p = ConnectResponse b ∧ (b = true → addrs ≠ [])) (handle_connect ctx addrs).
Proof.
  apply safe_bind. eapply safe_mono; [done| |apply (safe_first_some _ _ (λ _, addrs ≠ []))].
  - intros [[]|] Hr; simpl; eexists; split; try done. by intros _; eapply Hr.
  - intros a Ha. apply safe_signed_message. intros m Hm. split; [by apply handling_outgoing|]. intros r _ [] _ ->.
    by apply elem_of_nil in Ha.
Qed.

Lemma handle_relay_safe target payload hops :
  m_payload msg = RelayRequest target payload hops →
  safe ok handling (λ p, ∃ b d, p = RelayResponse b d ∧ (b = true → ∃ inner, relayable ctx msg inner))
    (handle_relay ctx from_addr target payload hops).
Proof.
  intros Hmsg. unfold handle_relay. case_match eqn:Hh; [by do 2 eexists|]. case_match eqn:Hl; [by do 2 eexists|].
  apply Z.leb_gt in Hh. apply Z.ltb_ge in Hl. apply safe_atomic. intros amb s _ Hs. case_match.
  split; [by apply set_relay_limiter_ok|]. cbn [snd]. case_match; [by do 2 eexists|].
  destruct (message_from_bytes payload) as [|inner] eqn:Hin; [by do 2 eexists|].
  destruct (is_relay_request (m_payload inner)) eqn:Hr; [by do 2 eexists|].
  destruct (verify_inner_message ctx inner) eqn:Hv; cbn [negb]; [|by do 2 eexists].
  assert (relayable ctx msg inner) as Hrel by (exists target, payload, hops; by split_and!).
  unfold forward. apply safe_get. intros s1 Hs1. case_match; [|by do 2 eexists].
  apply safe_send_any; [by right|by right|]. intros [resp| |]; try by do 2 eexists.
  destruct (message_to_bytes resp); do 2 eexists; (split; [done|]); eauto.
Qed.

Lemma respond_safe :
  0 < cfg_max_chunks_per_peer config →
  safe ok handling (λ r, match r with Some p => answers ctx from_addr msg p | None => is_request msg = false end)
    (respond oc ctx from_addr msg).
Proof.
  intros Hm. unfold respond, answers, is_request. destruct (m_payload msg) eqn:Hp; try done.
  - apply safe_bind. eapply safe_mono; [done| |apply closest_serde_safe]. intros l Hl. by exists l.
  - apply safe_bind. eapply safe_mono; [done| |apply handle_get_providers_safe]. auto.
  - apply safe_bind. eapply safe_mono; [done| |apply handle_add_provider_safe]. auto.
  - apply safe_bind. eapply safe_mono; [done| |apply handle_get_chunk_safe]. auto.
  - apply safe_bind. eapply safe_mono; [done| |by apply handle_put_chunk_safe]. auto.
  - apply safe_bind. eapply safe_mono; [done| |by apply handle_relay_safe]. auto.
  - apply safe_bind. eapply safe_mono; [done| |apply handle_connect_safe]. auto.
Qed.
End safety.

(** ** The theorems *)
Section theorems.
Context `{Sha256} `{Ed25519} `{Serde Payload} `{Serde Message} `{Hex} `{Json (list SocketAddr)}.
Context (oc : bool) (ctx : HandlerContext).
Notation config := (c_config ctx).

Lemma answers_request from_addr msg p : answers ctx from_addr msg p → is_request msg = true.
Proof. unfold answers, is_request. by destruct (m_payload msg). Qed.

(** The signed answer. *)
Definition signed_response (msg : Message) (p : Payload) : Message :=
  sign (c_keypair ctx) (response msg (my_id ctx) (my_key ctx) (c_pow ctx) p).

Lemma payload_signed msg p : m_payload (signed_response msg p) = p.
Proof. unfold signed_response, sign. by destruct (signing_bytes _). Qed.

(** An accepted message: the table, the payload, the answer. *)
Lemma inbound_run o w from_addr msg :
  0 < cfg_max_chunks_per_peer config → preserves (node_ok ctx) o → node_ok ctx (w_state w) → accepted ctx msg = true →
  ∃ w1 l1 r w2 l2,
    run o (update_table ctx from_addr msg) w = (Some (), w1) ∧ w_log w1 = w_log w ++ l1 ∧ Forall (handler_effect ctx msg) l1 ∧
    run o (respond oc ctx from_addr msg) w1 = (Some r, w2) ∧ w_log w2 = w_log w1 ++ l2 ∧ Forall (handler_effect ctx msg) l2 ∧
    node_ok ctx (w_state w2) ∧ match r with Some p => answers ctx from_addr msg p | None => is_request msg = false end ∧
    run o (handle_inbound_message oc ctx from_addr msg) w =
      (Some (), match r with Some p => tick o w2 id [EReplied from_addr (signed_response msg p)] | None => w2 end).
Proof.
  intros Hm Ho Hs Ha.
  destruct (safe_run_log _ _ _ o _ w Ho Hs (update_table_safe ctx from_addr msg)) as ([] & w1 & l1 & E1 & _ & Hs1 & El1 & G1).
  destruct (safe_run_log _ _ _ o _ w1 Ho Hs1 (respond_safe oc ctx from_addr msg Hm)) as (r & w2 & l2 & E2 & Hr & Hs2 & El2 & G2).
  exists w1, l1, r, w2, l2. split_and!; try done. unfold handle_inbound_message. rewrite Ha. cbn [negb].
  rewrite run_bind, E1, run_bind, E2. by destruct r.
Qed.

(** C12: A message that fails a check of the gate has no effect at all.  An accepted request gets
    exactly one answer, sent last, to its sender, under its message id, with the payload its kind
    calls for; an accepted response gets none.  Before that the handler sends only messages of
    the node and, for a relay request within the limits, the inner message it verified, and it
    only starts replicating to a sender not in client mode.  It never panics and keeps the
    node's invariant, under any interference and any failure of the disk, the database and the
    network. *)
Theorem inbound_message_handled o w from_addr msg :
  0 < cfg_max_chunks_per_peer config → preserves (node_ok ctx) o → node_ok ctx (w_state w) →
  ∃ w' log, run o (handle_inbound_message oc ctx from_addr msg) w = (Some (), w') ∧
    node_ok ctx (w_state w') ∧ w_log w' = w_log w ++ log ∧
    if accepted ctx msg then
      if is_request msg then
        ∃ before p, log = before ++ [EReplied from_addr (signed_response msg p)] ∧
          answers ctx from_addr msg p ∧ Forall (handler_effect ctx msg) before
      else Forall (handler_effect ctx msg) log
    else w' = w.
Proof.
  intros Hm Ho Hs. destruct (accepted ctx msg) eqn:Ha.
  2:{ exists w, []. unfold handle_inbound_message. rewrite Ha. by rewrite app_nil_r. }
  destruct (inbound_run o w from_addr msg Hm Ho Hs Ha) as (w1 & l1 & r & w2 & l2 & _ & El1 & G1 & _ & El2 & G2 & Hs2 & Hr & ->).
  destruct r as [p|].
  - rewrite (answers_request _ _ _ Hr). eexists _, (l1 ++ l2 ++ [_]). split; [reflexivity|].
    split; [by apply Ho|]. split; [simpl; by rewrite El2, El1, <-!app_assoc|].
    exists (l1 ++ l2), p. split; [by rewrite <-app_assoc|]. split; [done|]. by apply Forall_app.
  - rewrite Hr. exists w2, (l1 ++ l2). split_and!; [done|done|by rewrite El2, El1, <-app_assoc|by apply Forall_app].
Qed.

(** A node whose id and proof of work belong to its key. *)
Definition context_ok (min_difficulty : Z) : Prop :=
  c_node_id ctx = keypair_node_id (c_keypair ctx) ∧
  verify_with_min_difficulty (c_pow ctx) (my_key ctx) min_difficulty = true.

Lemma outgoing_accepted_by (peer : HandlerContext) msg :
  context_ok (cfg_min_pow_difficulty (c_config peer)) → outgoing ctx msg → is_Some (signing_bytes msg) →
  accepted peer msg = true ∧ verify_inner_message peer msg = true.
Proof.
  intros [Hid Hpow] (Hi & Hk & Hp & Hv & Hs) Hb. specialize (Hs Hb).
  assert (ed_vk_valid (m_sender_key msg) = true) as Hvk by (rewrite Hk; apply ed_public_valid).
  assert (verify_node_id (from_bytes (m_sender_id msg)) (m_sender_key msg) = true) as Hni.
  { rewrite Hi, Hk. apply bool_decide_eq_true. unfold my_id, my_key.
    change (keypair_node_id (c_keypair ctx)) with (derive_node_id (public_key_bytes (c_keypair ctx))) in Hid.
    rewrite <-Hid. by destruct (c_node_id ctx). }
  assert (verify_with_min_difficulty (m_pow_proof msg) (m_sender_key msg) (cfg_min_pow_difficulty (c_config peer)) = true) as Hpw
    by by rewrite Hp, Hk.
  split; [unfold accepted|unfold verify_inner_message]; by rewrite ?Hvk, ?Hni, ?Hpw, ?Hs, ?Hv.
Qed.

(** What a node sends is accepted by every peer whose difficulty its proof of work reaches:
    its requests and answers pass the gate, and its inner messages pass the relays' check,
    whenever their payload can be serialized. *)
Theorem outgoing_accepted (peer : HandlerContext) msg :
  context_ok (cfg_min_pow_difficulty (c_config peer)) → outgoing ctx msg → is_Some (signing_bytes msg) →
  accepted peer msg = true ∧ verify_inner_message peer msg = true.
Proof. apply outgoing_accepted_by. Qed.


Lemma table_insert_full now node rt b lrs rest :
  buckets rt !! bucket_index rt (ni_node_id node) = Some b → ni_node_id node ≠ local_id rt →
  ni_node_id node ∉ ids (b_nodes b) → is_full b = true → b_nodes b = lrs :: rest →
  table_insert now node rt =
    Ok (set_bucket rt (bucket_index rt (ni_node_id node)) (add_to_cache node b), BucketFull (ni_node_id lrs)).
Proof.
  intros Hb Hl Hid Hf Hn. unfold table_insert. rewrite bool_decide_eq_false_2, Hb by done.
  unfold bucket_insert. rewrite (proj2 (update_first_None _ _ _)) by by apply ids_has_id_false.
  by rewrite Hf, Hn.
Qed.

Lemma bucket_nodes_set rt i j b b' :
  buckets rt !! i = Some b → bucket_nodes (set_bucket rt i b') j = if decide (j = i) then b_nodes b' else bucket_nodes rt j.
Proof.
  intros Hb. unfold bucket_nodes, set_bucket. cbn [buckets]. destruct (decide (j = i)) as [->|Hj].
  - rewrite list_lookup_insert_eq; [done|]. by eapply lookup_lt_Some.
  - by rewrite list_lookup_insert_ne.
Qed.

Lemma bucket_nodes_evict now failed node rt j :
  bucket_nodes (table_evict_and_insert now failed node rt).1 j =
    if decide (j = bucket_index rt failed)
    then default [] ((λ b, b_nodes (bucket_evict_and_insert now failed node b).1) <$> buckets rt !! j)
    else bucket_nodes rt j.
Proof.
  unfold bucket_nodes, table_evict_and_insert, on_bucket. cbn [buckets fst]. destruct (decide (j = bucket_index rt failed)) as [->|Hj].
  - rewrite list_lookup_alter_eq. by destruct (_ !! _).
  - by rewrite list_lookup_alter_ne.
Qed.

(** The eviction that follows a full bucket. *)
Lemma evicted_buckets now n rt b lrs rest i :
  buckets rt !! i = Some b → b_nodes b = lrs :: rest →
  let rt1 := set_bucket rt i (add_to_cache n b) in
  bucket_index rt1 (ni_node_id lrs) = i →
  let rt2 := (table_evict_and_insert now (ni_node_id lrs) n rt1).1 in
  bucket_nodes rt2 i = rest ++ [n] ∧ ∀ j, j ≠ i → bucket_nodes rt2 j = bucket_nodes rt1 j.
Proof.
  intros Hb Hn rt1 Hbi rt2. unfold rt2. split.
  - rewrite bucket_nodes_evict, Hbi, decide_True by done. unfold rt1, set_bucket. cbn [buckets].
    rewrite list_lookup_insert_eq by (by eapply lookup_lt_Some). cbn [fmap option_fmap option_map default from_option].
    unfold bucket_evict_and_insert, add_to_cache. cbn [b_nodes]. rewrite Hn. unfold position. cbn [list_find].
    rewrite decide_True by by apply has_id_true. done.
  - intros j Hj. by rewrite bucket_nodes_evict, Hbi, decide_False.
Qed.


(** What replication to a new peer may do: start one upload to that peer's addresses. *)
Definition replicates (new_node : NodeInfo) (e : effect) : Prop :=
  match e with
  | ESpawned t => ∃ key data msg, t = TaskSend (ni_addresses new_node) msg ∧
      m_payload msg = PutChunkRequest key data ∧ sha256 data = key ∧ outgoing ctx msg ∧
      ni_addresses new_node ≠ [] ∧ ni_node_id new_node ≠ c_node_id ctx
  | _ => False
  end.

Lemma replicate_chunks_safe new_node :
  safe (node_ok ctx) (replicates new_node) (λ _, True) (replicate_chunks_to_node ctx new_node).
Proof.
  unfold replicate_chunks_to_node. case_bool_decide as Ha; [done|]. case_bool_decide as Hi; [done|]. cbn [orb].
  apply safe_atomic. intros amb s _ Hs1. split; [done|]. cbn [snd]. destruct (get_own_providers _ _ _ _) as [keys| |]; [|done|done].
  apply safe_get. intros s2 Hs2. apply safe_for_each. intros key _. apply safe_atomic. intros amb3 s3 _ Hs3.
  destruct (chunk_get _ _ key) as [c r] eqn:E. split; [by apply set_chunks_ok|]. cbn [snd].
  destruct r as [[d|]| |]; try done. apply chunk_get_sound in E. intros amb4 s4 _ Hs4. split; [done|].
  split; [|done]. exists key, d. eexists. split; [reflexivity|]. split_and!; try done; [|by apply outgoing_sign].
  unfold sign. by destruct (signing_bytes _).
Qed.

(** Replication to a new peer uploads only intact chunks, addressed by their hash, in messages
    of this node, to that peer's addresses, and nothing to itself or to a peer without addresses;
    damaged or missing chunks are skipped. *)
Theorem replication_uploads o w new_node :
  preserves (node_ok ctx) o → node_ok ctx (w_state w) →
  ∃ w' log, run o (replicate_chunks_to_node ctx new_node) w = (Some (), w') ∧ node_ok ctx (w_state w') ∧
    w_log w' = w_log w ++ log ∧ Forall (replicates new_node) log.
Proof.
  intros Ho Hs.
  destruct (safe_run_log _ _ _ o _ w Ho Hs (replicate_chunks_safe new_node)) as ([] & w' & log & E & _ & Hn & El & G). by exists w', log.
Qed.
End theorems.

(** ** Concrete runs *)
Definition peer_kp : Keypair := from_secret_bytes (replicate 32 6).
Definition sample_request (p : Payload) : Message :=
  sign peer_kp (Message_new 5 (as_bytes (keypair_node_id peer_kp)) (public_key_bytes peer_kp) (mkPow 0 0) p).

Lemma inbound_message_handled_witness :
  ∃ w' before, run sample_oracle (handle_inbound_message true sample_ctx (sample_addr 9) (sample_request PingRequest)) (sample_world [])
      = (Some (), w') ∧
    w_log w' = before ++ [EReplied (sample_addr 9)
      (signed_response sample_ctx (sample_request PingRequest) (PingResponse (Some (sample_addr 9))))].
Proof.
  destruct (inbound_message_handled true sample_ctx sample_oracle (sample_world []) (sample_addr 9) (sample_request PingRequest))
    as (w' & log & E & _ & El & Hl).
  - vm_compute. reflexivity.
  - apply sample_preserves.
  - apply sample_node_ok.
  - assert (accepted sample_ctx (sample_request PingRequest) = true) as Ha by (vm_compute; reflexivity).
    rewrite Ha in Hl. destruct Hl as (before & p & -> & -> & _). by exists w', before.
Defined.

Lemma outgoing_accepted_witness :
  accepted sample_ctx (sign sample_kp (Message_new 5 (my_id sample_ctx) (my_key sample_ctx) (mkPow 0 0) PingRequest)) = true.
Proof.
  apply (outgoing_accepted sample_ctx sample_ctx).
  - split; [reflexivity|vm_compute; reflexivity].
  - apply (outgoing_sign sample_ctx); reflexivity.
  - by eexists.
Defined.


(** Two peers that share a bucket of the sample node, the second one asking. *)
Definition first_peer : NodeInfo := sample_peer (from_bytes (replicate 32 7)).

Lemma replication_uploads_witness :
  ∃ w', run sample_oracle (replicate_chunks_to_node sample_ctx first_peer) (sample_world []) = (Some (), w').
Proof.
  destruct (replication_uploads sample_ctx sample_oracle (sample_world []) first_peer) as (w' & log & E & _).
  - apply sample_preserves.
  - apply sample_node_ok.
  - by exists w'.
Defined.
