(* ===== verification/Retrieve.v ===== *)
(** * Retrieving a tessera ([do_retrieve_tessera] of [src/node.rs])

    Resolving the manifest, fetching each chunk from the disk or from the peers closest to
    its hash, and decoding.  The fetches of one chunk are concurrent tasks: all of them ask
    their peer, and the first valid answer in completion order ([am_finish]) wins.  The
    global timeout cuts the body after a number of actions of the oracle's choosing
    ([am_deadline]). *)
From S2P Require Import Prelude.
From S2P Require Import Errors.
From S2P Require Import Bytes.
From S2P Require Import External.
From S2P Require Import Identity.
From S2P Require Import Net.
From S2P Require Import Samples.
From S2P Require Import Bucket.
From S2P Require Import Table.
From S2P Require Import TableBounds.
From S2P Require Import Lookup.
From S2P Require Import Erasure.
From S2P Require Import Chunks.
From S2P Require Import Metadata.
From S2P Require Import RateLimit.
From S2P Require Import Message.
From S2P Require Import Race.
From S2P Require Import Actor.
From S2P Require Import Context.

Record TesseraManifest := mkManifest {
  man_h : list (list Z);
  man_d : Z;
  man_p : Z;
  man_l : Z;
  man_b : Z;
}.

(** [slice::chunks] for a positive size. *)
Fixpoint chunks_of {A} (fuel n : nat) (l : list A) : list (list A) :=
  match fuel, l with
  | S fuel, _ :: _ => take n l :: chunks_of fuel n (drop n l)
  | _, _ => []
  end.
Definition slice_chunks {A} (n : Z) (l : list A) : res (list (list A)) :=
  if n =? 0 then Panic else Ok (chunks_of (length l) (Z.to_nat n) l).

(** The answers of concurrent tasks in the order the tasks finish. *)
Definition completion_order {A} (amb : Ambient) (l : list A) : list A :=
  (sort_by (λ a b, am_finish amb a.1 <=? am_finish amb b.1) (zip (seq 0 (length l)) l)).*2.

(** A panic of a computation ends the body. *)
Definition lift {A} (r : res A) : prog (res A) :=
  match r with Panic => Abort_ | _ => Ret r end.

Section retrieve.
Context `{Sha256} `{Ed25519} `{ReedSolomon} `{Hex} `{Serde Payload} `{Serde Message} `{Serde TesseraManifest}.
Context (oc : bool) (ctx : HandlerContext).
Notation config := (c_config ctx).

Definition has_addresses (n : NodeInfo) : bool :=
  negb (bool_decide (ni_addresses n = []) || bool_decide (ni_node_id n = c_node_id ctx)).

(** The spawned request for one chunk: only data with the expected hash counts. *)
Definition fetch_from (expected_hash : list Z) (node : NodeInfo) : prog (option (list Z)) :=
  msg ← signed_message ctx (GetChunkRequest expected_hash);
  r ← send_request_any (ni_addresses node) msg;
  Ret (match r with
       | Ok resp =>
         match m_payload resp with
         | GetChunkResponse data =>
           if negb (bool_decide (data = [])) && bool_decide (sha256 data = expected_hash) then Some data else None
         | _ => None
         end
       | _ => None
       end).

Definition fetch_remote (hash : list Z) : prog (option (list Z)) :=
  closest ← closest (from_bytes hash) (cfg_k config);
  answers ← join_all (filter (λ n, has_addresses n = true) (take (cfg_k config) closest)) (fetch_from hash);
  atomic (λ amb s, (s, head (omap id (completion_order amb answers)))).

Definition local_chunk (hash : list Z) : prog (option (list Z)) :=
  r ← atomic (λ amb s, let '(c, r) := chunk_get (am_fs amb) (n_chunks s) hash in (set_chunks s c, r));
  Ret (match r with Ok (Some data) => Some data | _ => None end).

Definition fetch_shard (hash : list Z) : prog (option (list Z)) :=
  local ← local_chunk hash;
  match local with
  | Some data => Ret (Some data)
  | None =>
    shard ← fetch_remote hash;
    match shard with
    | Some data =>
      _ ← atomic (λ amb s, let '(c, r) := chunk_put oc (am_fs amb) (n_chunks s) hash data in (set_chunks s c, r));
      Ret (Some data)
    | None => Ret None
    end
  end.

Definition decode_shards (shards : list (option (list Z))) (c : ErasureConfig) (original_len block_size : Z)
    : res (list Z) :=
  if block_size =? 0 then decode oc shards c original_len
  else
    spc ← total_shards oc c;
    block_shards ← slice_chunks spc shards;
    decode_blocks oc block_shards c block_size original_len.

(** One turn of the loop over the chunks. *)
Definition fetch_chunk (progress_tx : option nat) (total_chunks : nat) (x : nat * list Z) : prog (option (list Z)) :=
  let '(chunk_idx, hash) := x in
  _ ← report progress_tx (OfRetrieve (Fetching chunk_idx total_chunks));
  shard ← fetch_shard hash;
  _ ← report progress_tx (OfRetrieve (ChunkComplete chunk_idx total_chunks));
  Ret shard.

Definition do_retrieve_tessera_inner (chunk_hashes : list (list Z)) (c : ErasureConfig) (original_len block_size : Z)
    (progress_tx : option nat) : prog (res (list Z)) :=
  let total_chunks := length chunk_hashes in
  shards ← join_all (zip (seq 0 total_chunks) chunk_hashes) (fetch_chunk progress_tx total_chunks);
  lift (decode_shards shards c original_len block_size).

(** Length checks of the manifest's hashes, and its configuration. *)
Definition hash_array (v : list Z) : res (list Z) :=
  if negb (length v =? 32)%nat then Err (Serialization "chunk hash must be 32 bytes") else Ok v.
Definition read_manifest (manifest_data : list Z) : res (list (list Z) * ErasureConfig * Z * Z) :=
  match rmp_from_slice manifest_data with
  | inl e => Err (Serialization ("manifest: " +:+ e))
  | inr manifest =>
    hashes ← mapM_outcome hash_array (man_h manifest);
    c ← ErasureConfig_new oc (man_d manifest) (man_p manifest);
    Ok (hashes, c, man_l manifest, man_b manifest)
  end.

Definition fetch_manifest (mh : list Z) : prog (option (list Z)) :=
  local ← local_chunk mh;
  match local with
  | Some data => Ret (Some data)
  | None =>
    _ ← do_iterative_find_node ctx (from_bytes mh);
    fetch_remote mh
  end.

Definition resolve_manifest (mh : list Z) : prog (res (list (list Z) * ErasureConfig * Z * Z)) :=
  data ← fetch_manifest mh;
  match data with
  | None => Ret (Err (Network "manifest chunk not found"))
  | Some data => lift (read_manifest data)
  end.

Definition do_retrieve_tessera (chunk_hashes : list (list Z)) (c : ErasureConfig) (original_len block_size : Z)
    (manifest_hash : option (list Z)) (progress_tx : option nat) : prog (res (list Z)) :=
  resolved ← (match manifest_hash, chunk_hashes with
              | Some mh, [] => resolve_manifest mh
              | _, _ => Ret (Ok (chunk_hashes, c, original_len, block_size))
              end);
  match resolved with
  | Ok (chunk_hashes, c, original_len, block_size) =>
    deadline ← atomic (λ amb s, (s, am_deadline amb));
    r ← timeout deadline (do_retrieve_tessera_inner chunk_hashes c original_len block_size progress_tx);
    Ret (default (Err Timeout) r)
  | Err e => Ret (Err e)
  | Panic => Abort_
  end.
End retrieve.

(** ** Splitting into blocks *)
Lemma chunks_of_blocks {C S} (Q : C → S → Prop) n blocks shards fuel :
  (0 < n)%nat → Forall (λ b, length b = n) blocks → Forall2 Q (concat blocks) shards → (length shards ≤ fuel)%nat →
  Forall2 (Forall2 Q) blocks (chunks_of fuel n shards).
Proof.
  intros Hn Hb. revert shards fuel. induction Hb as [|b blocks Hl Hb IH]; intros shards fuel Hs Hf.
  - apply Forall2_nil_inv_l in Hs as ->. by destruct fuel.
  - apply Forall2_app_inv_l in Hs as (s1 & s2 & H1 & H2 & ->). pose proof (Forall2_length _ _ _ H1) as Hl1.
    rewrite length_app in Hf. destruct fuel as [|fuel]; [lia|].
    destruct (s1 ++ s2) as [|x l] eqn:E; [apply app_eq_nil in E as [-> ->]; simpl in *; lia|]. rewrite <-E. cbn [chunks_of].
    rewrite E. rewrite <-E, take_app_length', drop_app_length' by congruence. constructor; [done|]. apply IH; [done|lia].
Qed.

Lemma chunks_of_elem {A} fuel n (l b : list A) x : b ∈ chunks_of fuel n l → x ∈ b → x ∈ l.
Proof.
  revert l. induction fuel as [|fuel IH]; intros [|y l] Hb; cbn [chunks_of] in Hb; [by apply elem_of_nil in Hb..|].
  apply elem_of_cons in Hb as [->|Hb]; [apply take_elem|]. intros Hx. eapply drop_elem, IH; done.
Qed.

Lemma present_all {A} (l : list (option A)) : Forall is_Some l → present l = length l.
Proof. unfold present. induction 1 as [|x l [y ->] _ IH]; [done|]. simpl. by f_equal. Qed.

Lemma elem_of_completion_order {A} amb (l : list A) x : x ∈ completion_order amb l → x ∈ l.
Proof.
  unfold completion_order. rewrite list_elem_of_fmap. intros ([i y] & -> & Hy). rewrite elem_of_sort_by in Hy.
  by apply elem_of_zip_r in Hy.
Qed.

(** ** What a retrieval accepts *)
(** [P] holds of the bytes in play: the stored files, the chunks in answers, and what a
    failed write leaves behind. *)
Definition disk_in (P : list Z → Prop) (c : ChunkStore) : Prop := ∀ p d, disk c !! p = Some d → P d.
Definition answer_in (P : list Z → Prop) (r : res Message) : Prop :=
  match r with
  | Ok m => match m_payload m with GetChunkResponse d => P d | _ => True end
  | _ => True
  end.
Definition in_play (P : list Z → Prop) : expectations :=
  mkExpect (answer_in P) (λ amb, match f_left (am_fs amb) with Some d => P d | None => True end) False.

Section chunk_store.
Context `{Sha256} `{Hex} (P : list Z → Prop).

Lemma chunk_get_in f s h :
  disk_in P s → disk_in P (chunk_get f s h).1 ∧ ∀ d, (chunk_get f s h).2 = Ok (Some d) → P d ∧ sha256 d = h.
Proof.
  intros Hs. unfold chunk_get, get_sync. destruct (disk s !! _) as [data|] eqn:E; [|done].
  destruct (f_read f); [done|]. case_bool_decide as Hh; cbn [negb]; [|split; [|done]].
  - split; [done|]. intros d [= <-]. split; [by eapply Hs|done].
  - destruct (f_remove f); [done|]. intros p d. cbn. rewrite lookup_delete_Some. intros [_ ?]. by eapply Hs.
Qed.

Lemma write_file_in s p d : disk_in P s → P d → disk_in P (write_file s p d).
Proof. intros Hs Hd q d'. cbn. rewrite lookup_insert_Some. intros [[_ <-]|[_ Hq]]; [done|by eapply Hs]. Qed.

Lemma chunk_put_in oc f s h d :
  disk_in P s → P d → (match f_left f with Some d => P d | None => True end) → disk_in P (chunk_put oc f s h d).1.
Proof.
  intros Hs Hd Hf. unfold chunk_put, put_sync.
  destruct (MAX_CHUNK_SIZE <? size_of d); [done|]. case_bool_decide; [|done]. cbn [negb].
  destruct (disk s !! _); [done|]. destruct (usize_arith _ _); [|done|done].
  destruct (max_storage _ <? a); [exact Hs|]. destruct (f_mkdir f), (f_write f); try exact Hs; [|by apply (write_file_in (fetch_add s (size_of d)))].
  unfold left_over. destruct (f_left f); [|exact Hs]. by apply (write_file_in (fetch_add s (size_of d))).
Qed.
End chunk_store.

Section retrieval.
Context `{Sha256} `{Ed25519} `{ReedSolomon} `{Hex} `{Serde Payload} `{Serde Message} `{Serde TesseraManifest}.
Context (oc : bool) (ctx : HandlerContext) (P : list Z → Prop).
Notation inv := (node_inv (disk_in P) ctx).
Notation safely := (safe_if (in_play P) inv (sends_outgoing ctx)).

(** A chunk obtained for a hash. *)
Definition obtained (hash : list Z) (s : option (list Z)) : Prop := s = None ∨ ∃ d, s = Some d ∧ P d ∧ sha256 d = hash.

Lemma set_chunks_inv s c : inv s → disk_in P c → inv (set_chunks s c).
Proof. by intros [] ?. Qed.

Lemma fetch_from_safe hash node : safely (obtained hash) (fetch_from ctx hash node).
Proof.
  apply safe_signed_message. intros m Hm. apply safe_send_any_if; [done|done|by left|]. intros [resp|e|] Hr; [|by left|by left].
  simpl in Hr. simpl. destruct (m_payload resp); try by left. case_bool_decide; [by left|]. case_bool_decide; [|by left].
  right. by eexists.
Qed.

Lemma head_omap_elem {A} (l : list (option A)) x : head (omap id l) = Some x → Some x ∈ l.
Proof.
  induction l as [|[a|] l IH]; [done| |]; simpl.
  - intros [= ->]. left.
  - intros Hx. right. by apply IH.
Qed.

Lemma fetch_remote_safe hash : safely (obtained hash) (fetch_remote ctx hash).
Proof.
  apply safe_get. intros s Hs. apply safe_bind.
  eapply safe_mono; [done| |apply (safe_join_all _ _ (obtained hash)); intros n _; apply fetch_from_safe].
  intros answers Hall amb s1 _ Hs1. split; [done|]. cbn [snd].
  destruct (head _) as [d|] eqn:E; [|by left]. apply head_omap_elem, elem_of_completion_order in E.
  rewrite Forall_forall in Hall. exact (Hall _ E).
Qed.

Lemma local_chunk_safe hash : safely (obtained hash) (local_chunk hash).
Proof.
  apply safe_atomic. intros amb s _ Hs. destruct (chunk_get_in P (am_fs amb) (n_chunks s) hash (no_chunks Hs)) as [Hd Hr].
  destruct (chunk_get _ _ hash) as [c r]. split; [by apply set_chunks_inv|]. simpl.
  destruct r as [[d|]| |]; try by left. right. exists d. by destruct (Hr d).
Qed.

Lemma fetch_shard_safe hash : safely (obtained hash) (fetch_shard oc ctx hash).
Proof.
  unfold fetch_shard. apply safe_bind. eapply safe_mono; [done| |apply local_chunk_safe].
  intros [d|] Hd; [done|]. apply safe_bind. eapply safe_mono; [done| |apply fetch_remote_safe].
  intros [d|] Hd'; [|done]. apply safe_atomic. intros amb s Ha Hs.
  destruct Hd' as [|(d' & [= <-] & HP & Hh)]; [done|].
  pose proof (chunk_put_in P oc (am_fs amb) (n_chunks s) hash d (no_chunks Hs) HP Ha) as Hput.
  destruct (chunk_put _ _ _ _ _) as [c r]. split; [by apply set_chunks_inv|]. right. by eexists.
Qed.

(** The loop gives what each chunk gives, in order. *)
Lemma fetch_chunks_safe {R} (I : NodeState → Prop) (Q : list Z → option (list Z) → Prop) progress_tx n hashes :
  (∀ h, h ∈ hashes → safe_if R I (sends_outgoing ctx) (Q h) (fetch_shard oc ctx h)) →
  safe_if R I (sends_outgoing ctx) (Forall2 Q hashes) (join_all (zip (seq 0 (length hashes)) hashes) (fetch_chunk oc ctx progress_tx n)).
Proof.
  intros Hf. eapply safe_mono; [done| |apply (safe_join_all2 _ _ (λ x, Q x.2))].
  - intros shards Hs. apply (Forall2_fmap_l snd Q) in Hs. by rewrite snd_zip in Hs by by rewrite length_seq.
  - intros [i h] Hin%elem_of_zip_r. apply safe_report; [done|]. apply safe_bind. eapply safe_mono; [done| |by apply Hf].
    intros s Hs. by apply safe_report.
Qed.

Lemma fetch_chunks_fmap_safe {R} (I : NodeState → Prop) {B} (g : B → list Z) (f : B → option (list Z)) progress_tx n l :
  (∀ x, x ∈ l → safe_if R I (sends_outgoing ctx) (λ r, r = f x) (fetch_shard oc ctx (g x))) →
  safe_if R I (sends_outgoing ctx) (λ rs, rs = f <$> l) (join_all (zip (seq 0 (length (g <$> l))) (g <$> l)) (fetch_chunk oc ctx progress_tx n)).
Proof.
  intros Hf. rewrite length_fmap, <-(list_fmap_id (seq 0 (length l))), <-prod_map_zip.
  eapply safe_mono; [done| |apply (safe_join_all_fmap _ _ (prod_map id g) (λ y, f y.2))].
  - intros rs ->. change (f ∘ snd <$> zip (seq 0 (length l)) l = f <$> l). rewrite (list_fmap_compose snd f). by rewrite snd_zip by by rewrite length_seq.
  - intros [i x] Hin%elem_of_zip_r. cbn [fst snd] in *. apply safe_report; [done|]. apply safe_bind.
    eapply safe_mono; [done| |by apply Hf]. intros s Hs. by apply safe_report.
Qed.

Lemma fetch_manifest_safe mh : safely (obtained mh) (fetch_manifest ctx mh).
Proof.
  unfold fetch_manifest. apply safe_bind. eapply safe_mono; [done| |apply local_chunk_safe].
  intros [d|] Hd; [done|]. apply safe_bind.
  eapply safe_mono; [done| |apply do_iterative_find_node_safe]. intros r _. apply fetch_remote_safe.
Qed.

(** The bytes in play contain no second preimage. *)
Definition one_to_one : Prop := ∀ a b, P a → P b → sha256 a = sha256 b → a = b.

Lemma obtained_exact hash c s : one_to_one → P c → sha256 c = hash → obtained hash s → s = None ∨ s = Some c.
Proof. intros Hinj Hc Hh [->|(d & -> & Hd & Hdh)]; [by left|]. right. f_equal. apply Hinj; congruence. Qed.
End retrieval.

(** ** Retrieving what was stored *)
Section integrity.
Context `{Sha256} `{Ed25519} `{RS : ReedSolomon} `{Hex} `{Serde Payload} `{Serde Message}.
Context `{ML : SerdeLaws TesseraManifest PM}.
Context (oc : bool) (ctx : HandlerContext) (P : list Z → Prop) (d p : nat) `{!ReedSolomonLaws d p}.
Context (Hc : config_ok d p) (Hinj : one_to_one P).
Notation inv := (node_inv (disk_in P) ctx).
Notation safely := (safe_if (in_play P) inv (sends_outgoing ctx)).
Notation c := (mkConfig (Z.of_nat d) (Z.of_nat p)).

Definition tessera_chunks (e : EncodedBlocks) : list (list Z) := concat (et_chunks <$> eb_blocks e).
Definition tessera_hashes (e : EncodedBlocks) : list (list Z) := concat (et_chunk_hashes <$> eb_blocks e).
Definition manifest_of (hashes : list (list Z)) (c : ErasureConfig) (len bs : nat) : TesseraManifest :=
  mkManifest hashes (data_shards c) (parity_shards c) (Z.of_nat len) (Z.of_nat bs).

(** Either the data or the number of chunks missing from a block. *)
Definition exact_or_short (data : list Z) (r : res (list Z)) : Prop :=
  r = Ok data ∨ ∃ got, (got < d)%nat ∧ r = Err (InsufficientChunks (Z.of_nat d) (Z.of_nat got)).

Lemma encoded_hashes data e : encode oc data c = Ok e → data ≠ [] →
  et_chunk_hashes e = sha256 <$> et_chunks e ∧ length (et_chunks e) = (d + p)%nat.
Proof.
  intros He Hne. destruct (encode_ok oc d p Hc data Hne) as (? & word & ? & E & _ & Hl & _).
  rewrite E in He. by injection He as <-.
Qed.

Lemma tessera_hashes_chunks data bs nb bl :
  div_ceil (length data) bs = Ok nb :> res nat →
  Forall2 (λ i e, encode oc (slice data bs i) c = Ok e) (seq 0 nb) bl →
  concat (et_chunk_hashes <$> bl) = sha256 <$> concat (et_chunks <$> bl) ∧
  Forall (λ b, length b = (d + p)%nat) (et_chunks <$> bl).
Proof.
  intros Hnb Hall.
  assert (Forall (λ e, et_chunk_hashes e = sha256 <$> et_chunks e ∧ length (et_chunks e) = (d + p)%nat) bl) as Hf.
  { apply Forall_lookup_2. intros i e He. destruct (Forall2_lookup_r _ _ _ _ _ Hall He) as (j & Hj & Henc).
    apply lookup_seq in Hj as [-> Hj]. destruct (slice_length data bs nb (0 + i) Hnb Hj) as [_ Hne].
    by eapply encoded_hashes. }
  clear Hall Hnb. induction Hf as [|e bl [He Hl] Hf [IH1 IH2]]; [done|]. rewrite !fmap_cons. cbn [concat]. rewrite He, IH1, fmap_app. split; [done|].
  by constructor.
Qed.

(** What remains of the chunks decodes to the data, or some block is short. *)
Lemma decode_shards_cases (Q : list Z → option (list Z) → Prop) data bs e shards :
  (∀ x s, Q x s → s = None ∨ s = Some x) → data ≠ [] → (0 < bs)%nat → Z.of_nat (length data) ≤ isize_max →
  encode_blocks oc data c bs = Ok e → Forall2 Q (tessera_chunks e) shards →
  let r := decode_shards oc shards c (Z.of_nat (length data)) (Z.of_nat bs) in
  r = Ok data ∨ ∃ b l, b ∈ eb_blocks e ∧ Forall2 Q (et_chunks b) l ∧ length l = (d + p)%nat ∧ (present l < d)%nat ∧
    r = Err (InsufficientChunks (Z.of_nat d) (Z.of_nat (present l))).
Proof.
  intros HQ Hne Hbs Hmax He Hsurv. destruct (encode_blocks_ok oc d p Hc data bs Hbs Hne) as (nb & bl & Hnb & E & Hall).
  rewrite E in He. injection He as <-. unfold tessera_chunks in *. cbn [eb_blocks] in *.
  destruct (tessera_hashes_chunks data bs nb bl Hnb Hall) as [_ Hlen].
  unfold decode_shards. rewrite (proj2 (Z.eqb_neq _ 0)) by lia. rewrite total_shards_ok by done. cbn [mbind outcome_mbind].
  unfold slice_chunks. destruct Hc as (Hd & _). rewrite (proj2 (Z.eqb_neq _ 0)) by lia. cbn [mbind outcome_mbind].
  rewrite Nat2Z.id.
  pose proof (chunks_of_blocks _ (d + p) _ shards (length shards) ltac:(lia) Hlen Hsurv (le_n _)) as Hblocks.
  rewrite Forall2_fmap_l in Hblocks.
  assert (Forall2 (λ e l, survives (et_chunks e) l) bl (chunks_of (length shards) (d + p) shards)) as Hs.
  { eapply Forall2_impl; [exact Hblocks|]. intros b l Hl. eapply Forall2_impl; [exact Hl|]. intros x s Hx. by apply HQ. }
  destruct (decode_blocks_survive oc d p Hc data bs nb bl _ Hbs Hmax Hnb Hall Hs) as [->|(err & -> & l & Hin & Hl & ->)];
    [by left|right]. apply list_elem_of_lookup in Hin as [k Hk]. destruct (Forall2_lookup_r _ _ _ _ _ Hblocks Hk) as (b & Hb & Hq).
  exists b, l. split_and!; [by eapply list_elem_of_lookup_2|done| |done|done].
  rewrite <-(Forall2_length _ _ _ Hq). apply (Forall_lookup_1 _ _ k (et_chunks b) Hlen). by rewrite list_lookup_fmap, Hb.
Qed.

Lemma tessera_hashes_of data bs e :
  data ≠ [] → (0 < bs)%nat → encode_blocks oc data c bs = Ok e → tessera_hashes e = sha256 <$> tessera_chunks e.
Proof.
  intros Hne Hbs He. destruct (encode_blocks_ok oc d p Hc data bs Hbs Hne) as (nb & bl & Hnb & E & Hall).
  rewrite E in He. injection He as <-. unfold tessera_hashes, tessera_chunks. cbn [eb_blocks].
  by destruct (tessera_hashes_chunks data bs nb bl Hnb Hall).
Qed.

(** There are chunks, and none is empty. *)
Lemma tessera_chunks_some data bs e :
  data ≠ [] → (0 < bs)%nat → encode_blocks oc data c bs = Ok e → tessera_hashes e ≠ [] ∧ Forall (λ x, x ≠ []) (tessera_chunks e).
Proof.
  intros Hne Hbs He. rewrite (tessera_hashes_of data bs e Hne Hbs He).
  destruct (encode_blocks_ok oc d p Hc data bs Hbs Hne) as (nb & bl & Hnb & E & Hall). rewrite E in He. injection He as <-.
  unfold tessera_chunks. cbn [eb_blocks]. split.
  - intros Hnil%fmap_nil_inv. destruct (tessera_hashes_chunks data bs nb bl Hnb Hall) as [_ Hl]. destruct bl as [|b bl].
    + apply Forall2_nil_inv_r, (f_equal length) in Hall. rewrite length_seq in Hall. cbn in Hall. subst nb.
      apply div_ceil_bounds in Hnb as [Hle _]. destruct data; [done|]. cbn in Hle. lia.
    + apply Forall_cons in Hl as [Hl _]. cbn in Hnil. apply app_nil in Hnil as [Hnil _]. rewrite Hnil in Hl. destruct Hc. cbn in Hl. lia.
  - apply Forall_concat, Forall_fmap, Forall_forall. intros b [i Hb]%list_elem_of_lookup.
    destruct (Forall2_lookup_r _ _ _ _ _ Hall Hb) as (j & [-> Hj]%lookup_seq & Heb). cbn [plus] in *.
    destruct (slice_length data bs nb i Hnb Hj) as [_ Hs].
    destruct (encode_ok oc d p Hc _ Hs) as (? & word & ? & E' & _ & _ & _ & _ & Hw). rewrite E' in Heb. by injection Heb as <-.
Qed.

(** The shards obtained for the hashes of a tessera decode to it. *)
Lemma decode_shards_exact data bs e shards :
  data ≠ [] → (0 < bs)%nat → Z.of_nat (length data) ≤ isize_max →
  encode_blocks oc data c bs = Ok e → Forall P (tessera_chunks e) →
  Forall2 (obtained P) (tessera_hashes e) shards →
  exact_or_short data (decode_shards oc shards c (Z.of_nat (length data)) (Z.of_nat bs)).
Proof.
  intros Hne Hbs Hmax He HP Hsh. rewrite (tessera_hashes_of data bs e Hne Hbs He), Forall2_fmap_l in Hsh.
  assert (Forall2 (λ x s, s = None ∨ s = Some x) (tessera_chunks e) shards) as Hsurv.
  { apply Forall2_same_length_lookup. split; [exact (Forall2_length _ _ _ Hsh)|].
    intros i x s Hx Hs. pose proof (Forall2_lookup_lr _ _ _ _ _ _ Hsh Hx Hs) as Hob.
    apply (obtained_exact P (sha256 x) x s Hinj); [exact (Forall_lookup_1 _ _ _ _ HP Hx)|done|exact Hob]. }
  destruct (decode_shards_cases (λ x s, s = None ∨ s = Some x) data bs e shards ltac:(done) Hne Hbs Hmax He Hsurv) as [->|(b & l & _ & _ & _ & Hl & ->)];
    [by left|right; by exists (present l)].
Qed.

(** All of them. *)
Lemma decode_shards_full data bs e :
  data ≠ [] → (0 < bs)%nat → Z.of_nat (length data) ≤ isize_max → encode_blocks oc data c bs = Ok e →
  decode_shards oc (Some <$> tessera_chunks e) c (Z.of_nat (length data)) (Z.of_nat bs) = Ok data.
Proof.
  intros Hne Hbs Hmax He. destruct (decode_shards_cases (λ x s, s = Some x) data bs e (Some <$> tessera_chunks e) ltac:(auto) Hne Hbs Hmax He)
    as [|(b & l & _ & Hq & Hlen & Hl & _)]; [|done|].
  - by apply Forall2_fmap_r, Forall2_same_length_lookup_2; [|intros i x y Hx Hy; congruence].
  - rewrite present_all in Hl; [destruct Hc; lia|]. apply Forall_lookup_2. intros i s Hs.
    destruct (Forall2_lookup_r _ _ _ _ _ Hq Hs) as (x & _ & ->). by eexists.
Qed.

(** The hashes identify the data: whatever is obtained for them decodes to it. *)
Definition identify (hashes : list (list Z)) (bs : nat) (data : list Z) : Prop :=
  ∀ shards, Forall2 (obtained P) hashes shards → exact_or_short data (decode_shards oc shards c (Z.of_nat (length data)) (Z.of_nat bs)).

Lemma retrieve_inner_safe hashes bs data progress_tx :
  identify hashes bs data →
  safely (exact_or_short data) (do_retrieve_tessera_inner oc ctx hashes c (Z.of_nat (length data)) (Z.of_nat bs) progress_tx).
Proof.
  intros Hid. unfold do_retrieve_tessera_inner. apply safe_bind.
  eapply safe_mono; [done| |apply fetch_chunks_safe; intros h _; apply fetch_shard_safe].
  intros shards Hsh. destruct (Hid shards Hsh) as [->|(got & Hg & ->)]; [by left|right; by exists got].
Qed.

(** The answers a retrieval of [data] may give. *)
Definition retrieved (data : list Z) (r : res (list Z)) : Prop :=
  exact_or_short data r ∨ r = Err Timeout ∨ r = Err (Network "manifest chunk not found").

Lemma retrieve_resolved_safe hashes bs data progress_tx :
  identify hashes bs data →
  safely (λ r, exact_or_short data r ∨ r = Err Timeout) (
    deadline ← atomic (λ amb s, (s, am_deadline amb));
    r ← timeout deadline (do_retrieve_tessera_inner oc ctx hashes c (Z.of_nat (length data)) (Z.of_nat bs) progress_tx);
    Ret (default (Err Timeout) r)).
Proof.
  intros Hid. apply safe_atomic. intros amb s _ Hs. split; [done|]. cbn [fst snd]. apply safe_bind.
  eapply safe_mono; [done| |by apply safe_timeout, (retrieve_inner_safe hashes bs data progress_tx)].
  intros [r|] [_ Hr]; [left; by apply Hr|by right].
Qed.

(** The manifest read back gives what was stored. *)
Lemma read_manifest_exact data bs e bytes :
  data ≠ [] → (0 < bs)%nat → encode_blocks oc data c bs = Ok e →
  let m := manifest_of (tessera_hashes e) c (length data) bs in
  PM m → rmp_to_vec m = inr bytes →
  read_manifest oc bytes = Ok (tessera_hashes e, c, Z.of_nat (length data), Z.of_nat bs).
Proof.
  intros Hne Hbs He m Hm Hb. unfold read_manifest. rewrite (serde_roundtrip m bytes Hm Hb).
  assert (mapM_outcome hash_array (man_h m) = Ok (man_h m)) as ->.
  { apply mapM_outcome_id, Forall_lookup_2. intros i h Hh. cbn [m manifest_of man_h] in Hh.
    destruct (encode_blocks_ok oc d p Hc data bs Hbs Hne) as (nb & bl & Hnb & E & Hall). rewrite E in He. injection He as <-.
    unfold tessera_hashes in Hh. cbn [eb_blocks] in Hh. destruct (tessera_hashes_chunks data bs nb bl Hnb Hall) as [Hhash _].
    rewrite Hhash in Hh. apply list_lookup_fmap_Some in Hh as (x & -> & _).
    unfold hash_array. by rewrite (proj1 (sha256_ok x)). }
  cbn [mbind outcome_mbind]. destruct Hc as (Hd & Hp & Hdp). unfold ErasureConfig_new. cbn [m manifest_of man_d man_p data_shards parity_shards].
  rewrite (proj2 (Z.eqb_neq _ 0)), (proj2 (Z.eqb_neq _ 0)) by lia.
  rewrite usize_arith_ok by (unfold usize_max; lia). cbn [mbind outcome_mbind].
  by rewrite (proj2 (Z.ltb_ge _ _)) by lia.
Qed.

Lemma retrieve_manifest_safe data bs e bytes c0 l0 b0 progress_tx :
  data ≠ [] → (0 < bs)%nat → Z.of_nat (length data) ≤ isize_max →
  encode_blocks oc data c bs = Ok e → Forall P (tessera_chunks e) →
  let m := manifest_of (tessera_hashes e) c (length data) bs in
  PM m → rmp_to_vec m = inr bytes → P bytes →
  safely (retrieved data) (do_retrieve_tessera oc ctx [] c0 l0 b0 (Some (sha256 bytes)) progress_tx).
Proof.
  intros Hne Hbs Hmax He HP m Hm Hb HPb. unfold do_retrieve_tessera, resolve_manifest. apply safe_bind, safe_bind.
  eapply safe_mono; [done| |apply fetch_manifest_safe]. intros r Hr.
  destruct (obtained_exact P (sha256 bytes) bytes r Hinj HPb eq_refl Hr) as [->| ->]; [by right; right|].
  rewrite (read_manifest_exact data bs e bytes) by done.
  pose proof (retrieve_resolved_safe (tessera_hashes e) bs data progress_tx (λ shards, decode_shards_exact data bs e shards Hne Hbs Hmax He HP)) as Hres.
  eapply safe_mono in Hres; [exact Hres|done|]. intros r' [Hr'|Hr']; [by left|by right; left].
Qed.
End integrity.

Section theorems.
Context `{Sha256} `{Ed25519} `{RS : ReedSolomon} `{Hex} `{Serde Payload} `{Serde Message}.

(** C7: Integrity of a retrieval.  Given the hash of the manifest of a stored tessera, or its inline
    hashes, a node that retrieves it gets exactly the stored bytes, or an error that says that the
    manifest was not found, that some block has fewer than [data_shards] chunks, or that time ran
    out; it never gets other bytes and never panics.  The peers may answer anything, the files on
    the disk may be damaged, and other tasks may run in between: it is enough that no second
    preimage of a chunk or of the manifest is among the bytes in play. *)
Theorem retrieve_integrity `{ML : SerdeLaws TesseraManifest PM} oc ctx (P : list Z → Prop) d p `{!ReedSolomonLaws d p} data bs e bytes progress_tx o w :
  let c := mkConfig (Z.of_nat d) (Z.of_nat p) in
  let m := manifest_of (tessera_hashes e) c (length data) bs in
  config_ok d p → one_to_one P → data ≠ [] → (0 < bs)%nat → Z.of_nat (length data) ≤ isize_max →
  encode_blocks oc data c bs = Ok e → Forall P (tessera_chunks e) →
  PM m → rmp_to_vec m = inr bytes → P bytes →
  meets (in_play P) o → preserves (node_inv (disk_in P) ctx) o → node_inv (disk_in P) ctx (w_state w) →
  (∀ c0 l0 b0, ∃ r w', run o (do_retrieve_tessera oc ctx [] c0 l0 b0 (Some (sha256 bytes)) progress_tx) w = (Some r, w') ∧
     retrieved d data r) ∧
  (∃ r w', run o (do_retrieve_tessera oc ctx (tessera_hashes e) c (Z.of_nat (length data)) (Z.of_nat bs) None progress_tx) w = (Some r, w') ∧
     retrieved d data r).
Proof.
  intros c m Hc Hinj Hne Hbs Hmax He HP Hm Hb HPb Hmeet Hpres Hs. split.
  - intros c0 l0 b0. destruct (safe_if_run (in_play P) _ _ _ o _ w id Hmeet Hpres Hs
      (retrieve_manifest_safe oc ctx P d p Hc Hinj data bs e bytes c0 l0 b0 progress_tx Hne Hbs Hmax He HP Hm Hb HPb))
      as (r & w' & log & E & Hr & _). by exists r, w'.
  - destruct (safe_if_run (in_play P) _ _ _ o _ w id Hmeet Hpres Hs
      (retrieve_resolved_safe oc ctx P d p (tessera_hashes e) bs data progress_tx
         (λ shards, decode_shards_exact oc P d p Hc Hinj data bs e shards Hne Hbs Hmax He HP)))
      as (r & w' & log & E & Hr & _). exists r, w'. split; [done|]. destruct Hr; [by left|by right; left].
Qed.
End theorems.

(** ** A concrete retrieval *)
#[export] Instance TesseraManifest_eq_dec : EqDecision TesseraManifest.
Proof. solve_decision. Defined.
#[export] Program Instance TesseraManifest_countable : Countable TesseraManifest :=
  inj_countable' (λ m, (man_h m, man_d m, man_p m, man_l m, man_b m))
    (λ '(h, d, p, l, b), mkManifest h d p l b) _.
Next Obligation. by intros []. Qed.
#[export] Instance manifest_serde : Serde TesseraManifest := toy_serde TesseraManifest.
#[export] Instance manifest_serde_laws : SerdeLaws TesseraManifest (λ _, True) := toy_serde_laws _ _.

Definition sample_data : list Z := [1; 2; 4].
Definition sample_tessera : EncodedBlocks :=
  match encode_blocks true sample_data (mkConfig 2 1) 2 with Ok e => e | _ => mkBlocks [] 0 0 end.
Definition sample_manifest : TesseraManifest := manifest_of (tessera_hashes sample_tessera) (mkConfig 2 1) 3 2.
Definition sample_manifest_bytes : list Z := match rmp_to_vec sample_manifest with inr b => b | inl _ => [] end.
Definition sample_bytes : list (list Z) := sample_manifest_bytes :: tessera_chunks sample_tessera.

Lemma sample_one_to_one : one_to_one (λ x, x ∈ sample_bytes).
Proof.
  assert (Forall (λ a, Forall (λ b, sha256 a = sha256 b → a = b) sample_bytes) sample_bytes) as Hall by decide_compute.
  intros a b Ha Hb. rewrite Forall_forall in Hall. specialize (Hall a Ha). rewrite Forall_forall in Hall. by apply Hall.
Qed.

Lemma sample_meets P : meets (in_play P) sample_oracle.
Proof.
  split_and!; try done. intros n l. cbn [races sample_oracle]. destruct l as [|a [|b l]]; done.
Qed.

Lemma sample_inv P : node_inv (disk_in P) sample_ctx (w_state (sample_world [])).
Proof.
  destruct (sample_node_ok []) as [Ht Hl Hc _]. split; [exact Ht|exact Hl|exact Hc|]. intros q x. cbn [sample_world w_state sample_node n_chunks sample_store disk]. by rewrite lookup_empty.
Qed.

Lemma retrieve_integrity_witness :
  ∃ r w', run sample_oracle (do_retrieve_tessera true sample_ctx [] ErasureConfig_default 0 0 (Some (sha256 sample_manifest_bytes)) (Some 5%nat))
      (sample_world []) = (Some r, w') ∧ retrieved 2 sample_data r.
Proof.
  destruct (retrieve_integrity (PM := λ _, True) true sample_ctx (λ x, x ∈ sample_bytes) 2 1 sample_data 2 sample_tessera
    sample_manifest_bytes (Some 5%nat) sample_oracle (sample_world [])) as [Hr _].
  - split_and!; lia.
  - exact sample_one_to_one.
  - done.
  - lia.
  - by vm_compute.
  - reflexivity.
  - apply Forall_forall. intros x Hx. by right.
  - exact Logic.I.
  - reflexivity.
  - left.
  - apply sample_meets.
  - apply sample_preserves.
  - apply sample_inv.
  - apply Hr.
Defined.
