(* ===== verification/Store.v ===== *)
(** * Storing a tessera ([do_store_tessera] of [src/node.rs])

    Block by block: encode, store the chunks locally, hand the uploads and the provider
    announcements to tasks; then await the tasks, and store and spread the manifest.  The
    encoder runs ahead on a thread of its own; it only computes and reports, so the blocks
    are encoded, and reported as being encoded, here where they are received.  The tasks are run
    where they are awaited; those of a store that fails are detached and run on their own. *)
From S2P Require Import Prelude.
From S2P Require Import Errors.
From S2P Require Import Bytes.
From S2P Require Import External.
From S2P Require Import Identity.
From S2P Require Import Net.
From S2P Require Import Samples.
From S2P Require Import Bucket.
From S2P Require Import Table.
From S2P Require Import TableBounds.
From S2P Require Import Lookup.
From S2P Require Import Erasure.
From S2P Require Import Chunks.
From S2P Require Import Metadata.
From S2P Require Import RateLimit.
From S2P Require Import Message.
From S2P Require Import Race.
From S2P Require Import Actor.
From S2P Require Import Context.
From S2P Require Import Retrieve.

Record StoreTesseraResult := mkStored {
  sr_chunk_hashes : list (list Z);
  sr_config : ErasureConfig;
  sr_original_len : nat;
  sr_block_size : nat;
  sr_manifest_hash : option (list Z);
}.

(** A spawned upload or announcement: its peer, the peer's addresses, the message. *)
Record Distribution := mkDistribution { di_peer : NodeId; di_addrs : list SocketAddr; di_msg : Message }.

Section store.
Context `{Sha256} `{Ed25519} `{ReedSolomon} `{Hex} `{Json (list SocketAddr)}.
Context `{Serde Payload} `{Serde Message} `{Serde TesseraManifest}.
Context (oc : bool) (ctx : HandlerContext).
Notation config := (c_config ctx).

(** [self.chunks.put(..).await?] in a loop. *)
Definition put_local (hash data : list Z) : prog (res ()) :=
  atomic (λ amb s, let '(c, r) := chunk_put oc (am_fs amb) (n_chunks s) hash data in (set_chunks s c, r)).
Fixpoint put_all (l : list (list Z * list Z)) : prog (res ()) :=
  match l with
  | [] => Ret (Ok ())
  | (hash, data) :: l =>
    r ← put_local hash data;
    match r with Ok _ => put_all l | Err e => Ret (Err e) | Panic => Abort_ end
  end.

(** The first [alpha] peers that can be reached and have not failed. *)
Definition recipients (failed : list NodeId) (closest : list NodeInfo) : list NodeInfo :=
  take (cfg_alpha config) (filter (λ n, has_addresses ctx n = true ∧ ni_node_id n ∉ failed) closest).
Definition prepare (payload : Payload) (node : NodeInfo) : prog Distribution :=
  msg ← signed_message ctx payload; Ret (mkDistribution (ni_node_id node) (ni_addresses node) msg).

Definition own_provider (key : list Z) (announce_addr : SocketAddr) : prog (res ()) :=
  atomic (λ amb s,
    let '(m, r) := add_provider oc (am_db amb) (am_unix amb) (n_metadata s) key (my_id ctx) (my_key ctx) [announce_addr]
                     (cfg_provider_ttl config) in
    (set_metadata s m, r)).

Definition distribute_chunk (failed : list NodeId) (announce_addr : SocketAddr) (x : list Z * list Z) : prog (list Distribution) :=
  let '(hash, chunk_data) := x in
  closest ← closest (from_bytes hash) (cfg_k config);
  handles ← join_all (recipients failed closest) (prepare (PutChunkRequest hash chunk_data));
  _ ← own_provider hash announce_addr;
  Ret handles.
Definition announce_chunk (failed : list NodeId) (announce_addr : SocketAddr) (hash : list Z) : prog (list Distribution) :=
  closest ← closest (from_bytes hash) (cfg_k config);
  join_all (recipients failed closest) (prepare (AddProviderRequest hash [announce_addr])).

Definition distribute_block (failed : list NodeId) (announce_addr : SocketAddr) (encoded : EncodedTessera)
    : prog (list Distribution) :=
  uploads ← join_all (zip (et_chunk_hashes encoded) (et_chunks encoded)) (distribute_chunk failed announce_addr);
  announcements ← join_all (et_chunk_hashes encoded) (announce_chunk failed announce_addr);
  Ret (concat uploads ++ concat announcements).

(** Locally first, then to the peers. *)
Definition store_block (failed : list NodeId) (announce_addr : SocketAddr) (encoded : EncodedTessera)
    : prog (res (list Distribution)) :=
  r ← put_all (zip (et_chunk_hashes encoded) (et_chunks encoded));
  match r with
  | Ok _ => handles ← distribute_block failed announce_addr encoded; Ret (Ok handles)
  | Err e => Ret (Err e)
  | Panic => Abort_
  end.

(** The handles are dropped: the tasks run on. *)
Definition detach (handles : list Distribution) : prog () :=
  for_each handles (λ h, spawn (TaskSend (di_addrs h) (di_msg h))).

(** The distributor loop over the blocks still to come, with the hashes and tasks so far. *)
Fixpoint store_blocks (progress_tx : option nat) (num_blocks : nat) (failed : list NodeId) (announce_addr : SocketAddr) (data : list Z) (c : ErasureConfig) (block_size : nat)
    (blocks : list nat) (hashes : list (list Z)) (handles : list Distribution)
    : prog (res (list (list Z) * list Distribution)) :=
  match blocks with
  | [] => Ret (Ok (hashes, handles))
  | i :: blocks =>
    _ ← report progress_tx (OfStore (Encoding i num_blocks));
    match encode oc (slice data block_size i) c with
    | Ok encoded =>
      _ ← report progress_tx (OfStore (Distributing i num_blocks));
      r ← store_block failed announce_addr encoded;
      match r with
      | Ok more =>
        _ ← report progress_tx (OfStore (BlockComplete i num_blocks));
        store_blocks progress_tx num_blocks failed announce_addr data c block_size blocks (hashes ++ et_chunk_hashes encoded)
          (handles ++ more)
      | Err e => _ ← detach handles; Ret (Err e)
      | Panic => Abort_
      end
    | Err e => _ ← detach handles; Ret (Err e)
    | Panic => _ ← detach handles; Ret (Err (ErasureCoding "encoder panicked: task panicked"))
    end
  end.

(** A distribution task, and what its result does. *)
Definition marked_failed : TesseraError := Network "peer marked as failed".
Definition run_distribution (failed : list NodeId) (h : Distribution) : prog (NodeId * res Message) :=
  r ← (if bool_decide (di_peer h ∈ failed) then Ret (Err marked_failed) else send_request_any (di_addrs h) (di_msg h));
  Ret (di_peer h, r).
Definition insert_failed (failed : list NodeId) (peer : NodeId) : list NodeId :=
  if bool_decide (peer ∈ failed) then failed else failed ++ [peer].
Definition settle (acc : nat * list NodeId) (x : NodeId * res Message) : prog (nat * list NodeId) :=
  let '(succeeded, failed) := acc in
  let '(peer, r) := x in
  match r with
  | Ok resp =>
    match m_payload resp with
    | PutChunkResponse true => Ret (S succeeded, failed)
    | _ => Ret (succeeded, insert_failed failed peer)
    end
  | Err e =>
    if str_contains "peer marked as failed" (error_to_string e) then Ret (succeeded, failed)
    else _ ← record_failure peer (cfg_max_failures config); Ret (succeeded, insert_failed failed peer)
  | Panic => _ ← record_failure peer (cfg_max_failures config); Ret (succeeded, insert_failed failed peer)
  end.
Fixpoint settle_all (acc : nat * list NodeId) (l : list (NodeId * res Message)) : prog (nat * list NodeId) :=
  match l with [] => Ret acc | x :: l => acc ← settle acc x; settle_all acc l end.

(** The manifest chunk goes to all the closest peers, in tasks of its own. *)
Definition spread (peers : list NodeInfo) (payload : Payload) : prog () :=
  for_each (filter (λ n, has_addresses ctx n = true) peers)
    (λ node, msg ← signed_message ctx payload; spawn (TaskSend (ni_addresses node) msg)).
Definition spread_manifest (announce_addr : SocketAddr) (manifest_hash manifest_bytes : list Z) : prog () :=
  closest_manifest ← closest (from_bytes manifest_hash) (cfg_k config);
  _ ← spread closest_manifest (PutChunkRequest manifest_hash manifest_bytes);
  spread closest_manifest (AddProviderRequest manifest_hash [announce_addr]).
Definition store_manifest (announce_addr : SocketAddr) (manifest : TesseraManifest) : prog (res (list Z)) :=
  match rmp_to_vec manifest with
  | inl _ => Abort_
  | inr manifest_bytes =>
    let manifest_hash := sha256 manifest_bytes in
    r ← put_local manifest_hash manifest_bytes;
    match r with
    | Ok _ =>
      _ ← spread_manifest announce_addr manifest_hash manifest_bytes;
      Ret (Ok manifest_hash)
    | Err e => Ret (Err e)
    | Panic => Abort_
    end
  end.

(** Await the tasks, then the manifest. *)
Definition finish_store (announce_addr : SocketAddr) (data : list Z) (c : ErasureConfig)
    (all_chunk_hashes : list (list Z)) (handles : list Distribution) : prog (res StoreTesseraResult) :=
  results ← join_all handles (run_distribution []);
  _ ← settle_all (0%nat, []) results;
  mh ← store_manifest announce_addr (manifest_of all_chunk_hashes c (length data) DEFAULT_BLOCK_SIZE);
  match mh with
  | Ok manifest_hash =>
    Ret (Ok (mkStored all_chunk_hashes c (length data) DEFAULT_BLOCK_SIZE (Some manifest_hash)))
  | Err e => Ret (Err e)
  | Panic => Abort_
  end.

Definition do_store_tessera (data : list Z) (c : ErasureConfig) (progress_tx : option nat) : prog (res StoreTesseraResult) :=
  announce_addr ← best_addr ctx;
  match (if (length data =? 0)%nat then Ok 1%nat else div_ceil (length data) DEFAULT_BLOCK_SIZE) : res nat with
  | Ok num_blocks =>
    stored ← store_blocks progress_tx num_blocks [] announce_addr data c DEFAULT_BLOCK_SIZE (seq 0 num_blocks) [] [];
    match stored with
    | Ok (all_chunk_hashes, handles) => finish_store announce_addr data c all_chunk_hashes handles
    | Err e => Ret (Err e)
    | Panic => Abort_
    end
  | _ => Abort_
  end.
End store.

(** What a store that succeeds reports. *)
Definition reports `{Sha256} `{ReedSolomon} `{Serde TesseraManifest} (oc : bool) (data : list Z) (c : ErasureConfig)
    (sr : StoreTesseraResult) : Prop :=
  ∃ e bytes, encode_blocks oc data c DEFAULT_BLOCK_SIZE = Ok e ∧
    rmp_to_vec (manifest_of (tessera_hashes e) c (length data) DEFAULT_BLOCK_SIZE) = inr bytes ∧
    sr = mkStored (tessera_hashes e) c (length data) DEFAULT_BLOCK_SIZE (Some (sha256 bytes)).
(** The bytes a store writes: the chunks and the manifest. *)
Definition written `{Sha256} `{ReedSolomon} `{Serde TesseraManifest} (oc : bool) (data : list Z) (c : ErasureConfig)
    (x : list Z) : Prop :=
  ∃ e, encode_blocks oc data c DEFAULT_BLOCK_SIZE = Ok e ∧
    (x ∈ tessera_chunks e ∨ rmp_to_vec (manifest_of (tessera_hashes e) c (length data) DEFAULT_BLOCK_SIZE) = inr x).

(** ** What a store does *)
Section storing.
Context `{Sha256} `{Ed25519} `{RS : ReedSolomon} `{Hex} `{Json (list SocketAddr)}.
Context `{Serde Payload} `{Serde Message} `{Serde TesseraManifest}.
Context (oc : bool) {R : expectations} (ctx : HandlerContext) (J : ChunkStore → Prop).
(** [J] is kept by storing a chunk that satisfies [Pd]. *)
Context (Pd : list Z → Prop) (HJ : ∀ amb s h d, of_ambient R amb → Pd d → J s → J (chunk_put oc (am_fs amb) s h d).1).
Notation inv := (node_inv J ctx).
Notation safely := (safe_if R inv (sends_outgoing ctx)).

Lemma set_chunks_J s c : inv s → J c → inv (set_chunks s c).
Proof. by intros [] ?. Qed.

(** The chunk store refused a chunk with this error. *)
Definition refused (e : TesseraError) : Prop :=
  ∃ amb s h d, of_ambient R amb ∧ J s ∧ (chunk_put oc (am_fs amb) s h d).2 = Err e.
Definition stored_or_refused {A} (r : res A) : Prop := r ≠ Panic ∧ ∀ e, r = Err e → refused e.

Lemma refused_err {A B} e : stored_or_refused (Err e : res A) → stored_or_refused (Err e : res B).
Proof. intros [_ Hr]. split; [done|]. intros e' [= <-]. by apply Hr. Qed.

Lemma put_local_safe {B} (Q : B → Prop) h d (k : res () → prog B) :
  Pd d → (∀ r, stored_or_refused r → safely Q (k r)) → safely Q (put_local oc h d ≫= k).
Proof.
  intros Hd Hk. apply safe_atomic. intros amb s Ha Hs. pose proof (HJ amb _ h d Ha Hd (no_chunks Hs)) as Hj.
  assert ((chunk_put oc (am_fs amb) (n_chunks s) h d).2 ≠ Panic) as Hp.
  { unfold chunk_put. destruct (put_sync _ _ _ _ _) as [? [[]| |]]; done. }
  destruct (chunk_put _ _ _ _ _) as [c r] eqn:E. split; [by apply set_chunks_J|]. cbn [snd] in *. apply Hk. split; [done|].
  intros e ->. exists amb, (n_chunks s), h, d. rewrite E. by destruct Hs.
Qed.

Lemma put_all_safe l : Forall (λ x, Pd x.2) l → safely stored_or_refused (put_all oc l).
Proof.
  induction 1 as [|[h d] l Hd _ IH]; [done|]. cbn [put_all]. apply put_local_safe; [done|]. intros [[]| |] Hr; [exact IH|exact Hr|by destruct Hr].
Qed.

(** The tasks' messages are the node's. *)
Definition handle_ok (h : Distribution) : Prop := outgoing ctx (di_msg h).

Lemma prepare_all_safe p l : safely (Forall handle_ok) (join_all l (prepare ctx p)).
Proof. apply safe_join_all. intros n _. by apply safe_signed_message. Qed.

Lemma distribute_chunk_safe failed addr x : safely (Forall handle_ok) (distribute_chunk oc ctx failed addr x).
Proof.
  destruct x as [h d]. apply safe_get. intros s _. apply safe_bind. eapply safe_mono; [done| |apply prepare_all_safe].
  intros hs Hhs. apply safe_atomic. intros amb s1 _ Hs1. destruct (add_provider _ _ _ _ _ _ _ _ _) as [m r].
  split; [by destruct Hs1|done].
Qed.

Lemma announce_chunk_safe failed addr h : safely (Forall handle_ok) (announce_chunk ctx failed addr h).
Proof. apply safe_get. intros s _. apply prepare_all_safe. Qed.

Lemma distribute_block_safe failed addr e : safely (Forall handle_ok) (distribute_block oc ctx failed addr e).
Proof.
  unfold distribute_block. apply safe_bind.
  eapply safe_mono; [done| |apply (safe_join_all _ _ (Forall handle_ok)); intros x _; apply distribute_chunk_safe].
  intros up Hup. apply safe_bind.
  eapply safe_mono; [done| |apply (safe_join_all _ _ (Forall handle_ok)); intros x _; apply announce_chunk_safe].
  intros an Han. apply Forall_app. by split; apply Forall_concat.
Qed.

Lemma store_block_safe failed addr e :
  Forall Pd (et_chunks e) →
  safely (λ r, stored_or_refused r ∧ ∀ hs, r = Ok hs → Forall handle_ok hs) (store_block oc ctx failed addr e).
Proof.
  intros Hd. unfold store_block. apply safe_bind. eapply safe_mono; [done| |apply put_all_safe].
  2:{ apply Forall_forall. intros [h x] Hx%elem_of_zip_r. rewrite Forall_forall in Hd. by apply Hd. }
  intros [[]|err|] Hr; [|split; [by apply (refused_err (A := ()))|done]|by destruct Hr].
  apply safe_bind. eapply safe_mono; [done| |apply distribute_block_safe].
  intros hs Hhs. split; [by split|]. by intros ? [= <-].
Qed.

Lemma detach_safe {A} (Q : A → Prop) handles (k : () → prog A) :
  Forall handle_ok handles → safely Q (k ()) → safely Q (detach handles ≫= k).
Proof.
  intros Hh Hk. apply safe_bind. eapply safe_mono; [done| |apply safe_for_each; intros h Hin]; [by intros []|].
  rewrite Forall_forall in Hh. split; [by apply Hh|done].
Qed.

(** The blocks are those of [encode_blocks], in order. *)
Lemma store_blocks_safe tx nb failed addr data c bs blocks hashes handles :
  Forall handle_ok handles →
  (∀ i e, i ∈ blocks → encode oc (slice data bs i) c = Ok e → Forall Pd (et_chunks e)) →
  safely (λ r, r ≠ Panic ∧
            ((∀ i, i ∈ blocks → ∃ e, encode oc (slice data bs i) c = Ok e) → stored_or_refused r) ∧
            ∀ hs hdl, r = Ok (hs, hdl) → Forall handle_ok hdl ∧
            ∃ es, mapM_outcome (λ i, encode oc (slice data bs i) c) blocks = Ok es ∧ hs = hashes ++ concat (et_chunk_hashes <$> es))
    (store_blocks oc ctx tx nb failed addr data c bs blocks hashes handles).
Proof.
  revert hashes handles. induction blocks as [|i blocks IH]; intros hashes handles Hh Hd.
  { split; [done|]. split; [by split|]. intros hs hdl [= <- <-]. split; [done|]. exists []. by rewrite app_nil_r. }
  cbn [store_blocks mapM_outcome]. apply safe_report; [done|]. destruct (encode oc (slice data bs i) c) as [e|err|] eqn:E.
  2-3: (apply detach_safe; [done|]; split_and!; [done| |done]; intros Henc; destruct (Henc i) as [? ?]; [by left|congruence]).
  apply safe_report; [done|]. apply safe_bind. eapply safe_mono; [done| |apply store_block_safe, (Hd i); [by left|done]].
  intros [more|err|] [Hr Hmore];
    [apply safe_report; [done|]|apply detach_safe; [done|]; split_and!; [done| |done]; intros _; by apply (refused_err (A := list Distribution))|by destruct Hr].
  eapply safe_mono; [done| |apply IH].
  - intros r (Hp & He & Hr'). split; [done|]. split; [intros Henc; apply He; intros j Hj; apply Henc; by right|]. intros hs hdl ->. destruct (Hr' hs hdl eq_refl) as (Hhdl & es & Hes & ->).
    split; [done|]. exists (e :: es). cbn [mbind outcome_mbind]. rewrite Hes. split; [done|]. by rewrite fmap_cons, <-app_assoc.
  - apply Forall_app. auto.
  - intros j e' Hj. apply Hd. by right.
Qed.

Lemma run_distribution_safe failed h : handle_ok h → safely (λ _, True) (run_distribution failed h).
Proof.
  intros Hh. unfold run_distribution. case_bool_decide; [done|]. by apply safe_send_any.
Qed.

Lemma settle_all_safe acc l : safely (λ _, True) (settle_all ctx acc l).
Proof.
  revert acc. induction l as [|[peer r] l IH]; intros [n failed]; [done|]. cbn [settle_all settle]. apply safe_bind.
  assert (∀ acc', safely (λ acc', safely (λ _, True) (settle_all ctx acc' l))
    (_ ← record_failure peer (cfg_max_failures (c_config ctx)); Ret acc')) as Hrec.
  { intros acc'. apply safe_record_failure. apply IH. }
  destruct r as [resp|e|]; [|case_match; [apply IH|apply Hrec]|apply Hrec].
  repeat case_match; apply IH.
Qed.

Lemma spread_safe peers p : safely (λ _, True) (spread ctx peers p).
Proof. apply safe_for_each. intros n _. apply safe_signed_message. by split. Qed.

Lemma spread_manifest_safe addr h bytes : safely (λ _, True) (spread_manifest ctx addr h bytes).
Proof.
  apply safe_get. intros s _. apply safe_bind. eapply safe_mono; [done| |apply spread_safe]. intros _ _. apply spread_safe.
Qed.

Lemma store_manifest_safe addr m bytes :
  rmp_to_vec m = inr bytes → Pd bytes →
  safely (λ r, stored_or_refused r ∧ ∀ h, r = Ok h → h = sha256 bytes) (store_manifest oc ctx addr m).
Proof.
  intros Hm Hd. unfold store_manifest. rewrite Hm. apply put_local_safe; [done|]. intros [[]|e|] Hr; [|split; [by apply (refused_err (A := ()))|done]|by destruct Hr].
  apply safe_bind. eapply safe_mono; [done| |apply spread_manifest_safe]. intros _ _. split; [by split|]. by intros h [= <-].
Qed.

Lemma num_blocks_ok n : ∃ nb : nat, (if (n =? 0)%nat then Ok 1%nat else div_ceil n DEFAULT_BLOCK_SIZE) = Ok nb :> res nat.
Proof. destruct (n =? 0)%nat; [by eexists|]. unfold div_ceil. destruct DEFAULT_BLOCK_SIZE eqn:E; [done|by eexists]. Qed.

(** Every block of non-empty data is encoded. *)
Lemma blocks_encoded d p `{!ReedSolomonLaws d p} data nb :
  config_ok d p → data ≠ [] →
  (if (length data =? 0)%nat then Ok 1%nat else div_ceil (length data) DEFAULT_BLOCK_SIZE) = Ok nb :> res nat →
  ∀ i, i ∈ seq 0 nb → ∃ e, encode oc (slice data DEFAULT_BLOCK_SIZE i) (mkConfig (Z.of_nat d) (Z.of_nat p)) = Ok e.
Proof.
  intros Hc Hne Hnb i Hi%elem_of_seq. rewrite (proj2 (Nat.eqb_neq (length data) 0)) in Hnb by (by destruct data).
  destruct (slice_length data DEFAULT_BLOCK_SIZE nb i Hnb) as [_ Hs]; [lia|].
  destruct (encode_ok oc d p Hc _ Hs) as (? & ? & ? & ? & _). eauto.
Qed.

Lemma block_chunk data c bs nb es i ei x :
  mapM_outcome (λ i, encode oc (slice data bs i) c) (seq 0 nb) = Ok es → i ∈ seq 0 nb →
  encode oc (slice data bs i) c = Ok ei → x ∈ et_chunks ei → x ∈ concat (et_chunks <$> es).
Proof.
  intros Hes%mapM_outcome_Ok [j Hj]%list_elem_of_lookup Hei Hx.
  destruct (Forall2_lookup_l _ _ _ _ _ Hes Hj) as (e' & He' & E). assert (e' = ei) as -> by congruence.
  apply elem_of_concat. exists (et_chunks ei). split; [done|]. apply list_elem_of_fmap. exists ei.
  split; [done|]. by eapply list_elem_of_lookup_2.
Qed.

(** Awaiting the tasks. *)
Lemma distributions_safe hdl :
  Forall handle_ok hdl → safely (λ _, True) (results ← join_all hdl (run_distribution []); settle_all ctx (0%nat, []) results).
Proof.
  intros Hhdl. rewrite Forall_forall in Hhdl. apply safe_bind.
  eapply safe_mono; [done| |apply (safe_join_all _ _ (λ _, True)); intros h Hh; by apply run_distribution_safe, Hhdl].
  intros results _. apply settle_all_safe.
Qed.

Lemma do_store_safe d p `{!ReedSolomonLaws d p} data tx :
  let c := mkConfig (Z.of_nat d) (Z.of_nat p) in
  (∀ m, ∃ bytes, rmp_to_vec (A := TesseraManifest) m = inr bytes) → config_ok d p → data ≠ [] →
  (∀ x, written oc data c x → Pd x) →
  safely (λ r, stored_or_refused r ∧ ∀ sr, r = Ok sr → reports oc data c sr) (do_store_tessera oc ctx data c tx).
Proof.
  intros c Hser Hc Hne Hd. unfold do_store_tessera, best_addr. apply safe_bind, safe_get. intros s _. cbn [safe_if].
  destruct (num_blocks_ok (length data)) as [nb Hnb]. rewrite Hnb.
  pose proof (blocks_encoded d p data nb Hc Hne Hnb) as Henc. fold c in Henc.
  destruct (mapM_outcome_total (λ i, encode oc (slice data DEFAULT_BLOCK_SIZE i) c) (seq 0 nb) Henc) as [es Hes].
  assert (encode_blocks oc data c DEFAULT_BLOCK_SIZE = Ok (mkBlocks es DEFAULT_BLOCK_SIZE (length data))) as Heb.
  { unfold encode_blocks. rewrite Hnb. cbn [mbind outcome_mbind]. by rewrite Hes. }
  apply safe_bind. eapply safe_mono; [done| |apply store_blocks_safe; [done|]].
  2:{ intros i e Hi He. apply Forall_forall. intros x Hx. apply Hd. eexists. split; [exact Heb|]. left.
      by eapply block_chunk. }
  intros r (_ & He & Hst). specialize (He Henc).
  destruct r as [[hs hdl]|e|]; [|split; [by apply (refused_err (A := list (list Z) * list Distribution))|done]|by destruct He].
  destruct (Hst hs hdl eq_refl) as (Hhdl & es' & Hes' & ->). rewrite Hes in Hes'. injection Hes' as <-. cbn [app]. apply safe_bind.
  eapply safe_mono; [done| |apply (safe_join_all _ _ (λ _, True)); intros h Hh; apply run_distribution_safe].
  2:{ rewrite Forall_forall in Hhdl. by apply Hhdl. }
  intros results _. apply safe_bind. eapply safe_mono; [done| |apply settle_all_safe]. intros _ _.
  destruct (Hser (manifest_of (concat (et_chunk_hashes <$> es)) c (length data) DEFAULT_BLOCK_SIZE)) as [bytes Hb].
  apply safe_bind. eapply safe_mono; [done| |apply (store_manifest_safe _ _ bytes Hb)].
  2:{ apply Hd. eexists. split; [exact Heb|]. by right. }
  intros [h|e|] [Hm Hh]; [|split; [by apply (refused_err (A := list Z))|done]|by destruct Hm].
  split; [by split|]. intros sr [= <-]. rewrite (Hh h eq_refl). eexists _, bytes. by split.
Qed.
End storing.

(** ** What a store leaves on the disk *)
(** The file system reads back what was written, and no timeout fires. *)
Definition calm : expectations :=
  mkExpect (λ _, True) (λ amb, f_left (am_fs amb) = None ∧ f_read (am_fs amb) = None ∧ am_deadline amb = None) False.

(** The files hold bytes in play that hash to their names, and [D] is among them. *)
Record holds `{Sha256} `{Hex} (base : path) (P : list Z → Prop) (D : list (list Z)) (c : ChunkStore) : Prop := {
  h_base : base_path c = base;
  h_in : disk_in P c;
  h_intact : ∀ h x, array_ok 32 h → disk c !! chunk_path base h = Some x → sha256 x = h;
  h_has : ∀ x, x ∈ D → disk c !! chunk_path base (sha256 x) = Some x;
}.

Section on_disk.
Context `{Sha256} `{Hex} (oc : bool) (base : path) (P : list Z → Prop) (Hinj : one_to_one P).
Notation holds := (holds base P).

Lemma holds_write D s d :
  holds D s → P d → disk s !! chunk_path base (sha256 d) = None → holds (d :: D) (write_file s (chunk_path base (sha256 d)) d).
Proof.
  intros [Hb Hi Hn Hh] Hd Hf. split; [done|by apply write_file_in| |].
  - intros h x Hok. cbn. rewrite lookup_insert_Some. intros [[Hp <-]|[_ Hx]]; [|by apply Hn].
    symmetry. by apply (chunk_path_inj base); [|apply sha256_ok|].
  - intros x Hx. cbn. destruct (decide (x = d)) as [->|Hne]; [by rewrite lookup_insert_eq|].
    apply elem_of_cons in Hx as [->|Hx]; [done|]. rewrite lookup_insert_ne; [by apply Hh|].
    intros Hp. rewrite Hp, (Hh x Hx) in Hf. done.
Qed.

Lemma holds_used D s u : holds D s → holds D (set_used s u).
Proof. intros [Hb Hi Hn Hh]. by split. Qed.

(** Whatever its outcome, a put keeps what is stored; an accepted one adds its chunk. *)
Lemma chunk_put_holds f D s d :
  f_left f = None → holds D s → P d →
  holds D (chunk_put oc f s (sha256 d) d).1 ∧
  ((chunk_put oc f s (sha256 d) d).2 = Ok () → holds (d :: D) (chunk_put oc f s (sha256 d) d).1).
Proof.
  intros Hf Hs Hd. unfold chunk_put, put_sync. destruct (MAX_CHUNK_SIZE <? size_of d); [done|].
  rewrite bool_decide_eq_true_2 by done. cbn [negb]. rewrite (h_base _ _ _ _ Hs).
  destruct (disk s !! chunk_path base (sha256 d)) as [x|] eqn:E.
  { split; [done|]. intros _. cbn [fst]. pose proof (h_intact _ _ _ _ Hs _ _ (sha256_ok d) E) as Hx.
    assert (x = d) as -> by (apply Hinj; [by eapply (h_in _ _ _ _ Hs)|done|done]).
    destruct Hs as [Hb Hi Hn Hh]. split; [done..|]. intros y [->|Hy]%elem_of_cons; [done|by apply Hh]. }
  destruct (usize_arith _ _) as [sum| |]; [|split; [by apply holds_used|done]..].
  destruct (max_storage _ <? sum); [split; [by apply holds_used, holds_used|done]|].
  destruct (f_mkdir f); [split; [by apply holds_used, holds_used|done]|].
  destruct (f_write f).
  - unfold left_over. rewrite Hf. split; [by apply holds_used, holds_used|done].
  - pose proof (holds_write D _ d (holds_used D s (wrap 64 (storage_used s + size_of d)) Hs) Hd E) as Hw.
    split; [|done]. destruct Hw as [Hb Hi Hn Hh]. split; [done..|]. intros y Hy. apply Hh. by right.
Qed.

(** A stored chunk is read back. *)
Lemma chunk_get_holds f D s x :
  f_read f = None → holds D s → x ∈ D → chunk_get f s (sha256 x) = (s, Ok (Some x)).
Proof.
  intros Hf Hs Hx. unfold chunk_get, get_sync. rewrite (h_base _ _ _ _ Hs), (h_has _ _ _ _ Hs x Hx), Hf.
  by rewrite bool_decide_eq_true_2.
Qed.
End on_disk.

Section persistence.
Context `{Sha256} `{Ed25519} `{RS : ReedSolomon} `{Hex} `{Json (list SocketAddr)}.
Context `{Serde Payload} `{Serde Message} `{Serde TesseraManifest}.
Context (oc : bool) (ctx : HandlerContext) (base : path) (P : list Z → Prop) (o : Oracle).
Context (Hinj : one_to_one P) (Hcalm : meets calm o).
Notation inv D := (node_inv (holds base P D) ctx).
(** The other tasks lose no chunk. *)
Context (Ho : ∀ D, preserves (inv D) o).

Lemma inv_subset D D' s : D' ⊆ D → inv D s → inv D' s.
Proof. intros Hsub [? ? ? [? ? ? Hh]]. split; [done..|]. split; [done..|]. intros x Hx. by apply Hh, Hsub. Qed.

Lemma chunk_put_keeps D amb s h d :
  of_ambient calm amb → P d → holds base P D s → holds base P D (chunk_put oc (am_fs amb) s h d).1.
Proof.
  intros [Hf _] Hd Hs. destruct (decide (sha256 d = h)) as [<-|Hne]; [by apply (chunk_put_holds oc base P Hinj)|].
  unfold chunk_put, put_sync. destruct (MAX_CHUNK_SIZE <? size_of d); [done|]. by rewrite bool_decide_eq_false_2.
Qed.

Lemma put_local_leads D d :
  P d → leads o (inv D) (put_local oc (sha256 d) d) (λ r s, r ≠ Panic ∧ inv D s ∧ (r = Ok () → inv (d :: D) s)).
Proof.
  intros Hd w Hw. unfold put_local. cbn [atomic run]. pose proof (Ho D (w_next w) _ Hw) as Hs.
  set (s := interfere o (w_next w) (w_state w)) in *. set (amb := ambient o (w_next w)).
  assert (f_left (am_fs amb) = None) as Hf by apply Hcalm.
  destruct (chunk_put_holds oc base P Hinj (am_fs amb) D (n_chunks s) d Hf (no_chunks Hs) Hd) as [Hk Hadd].
  eexists _, _. split; [reflexivity|]. unfold tick. cbn [w_state]. fold s amb.
  destruct (chunk_put oc (am_fs amb) (n_chunks s) (sha256 d) d) as [c r] eqn:E. cbn [fst snd] in *. split_and!.
  - intros ->. revert E. unfold chunk_put. destruct (put_sync _ _ _ _ _) as [? [[]| |]]; done.
  - by apply set_chunks_J.
  - intros ->. destruct Hs. split; [done..|]. by apply Hadd.
Qed.

Lemma put_all_leads D l :
  Forall P l → leads o (inv D) (put_all oc (zip (sha256 <$> l) l)) (λ r s, r ≠ Panic ∧ (r = Ok () → inv (l ++ D) s)).
Proof.
  intros Hl. revert D. induction Hl as [|d l Hd Hl IH]; intros D; [by apply leads_ret|]. cbn [fmap list_fmap zip zip_with put_all].
  eapply leads_bind; [by apply put_local_leads|]. intros [[]|e|]; cbn beta iota.
  - intros w (_ & _ & Hw). destruct (IH (d :: D) w (Hw eq_refl)) as (r & w' & E & Hp & Hr). exists r, w'.
    split; [done|]. split; [done|]. intros ->. eapply inv_subset; [|by apply Hr].
    intros x. rewrite !elem_of_app, !elem_of_cons. tauto.
  - apply leads_ret. done.
  - intros w [Hp _]. done.
Qed.

Lemma store_block_leads D failed addr e :
  et_chunk_hashes e = sha256 <$> et_chunks e → Forall P (et_chunks e) →
  leads o (inv D) (store_block oc ctx failed addr e)
    (λ r s, r ≠ Panic ∧ ∀ hs, r = Ok hs → Forall (handle_ok ctx) hs ∧ inv (et_chunks e ++ D) s).
Proof.
  intros He HP. unfold store_block. rewrite He at 1. eapply leads_bind; [by apply put_all_leads|].
  intros [[]|err|]; cbn beta iota.
  - intros w [_ Hw]. specialize (Hw eq_refl).
    destruct (leads_safe calm o _ (sends_outgoing ctx) _ _ id Hcalm (Ho (et_chunks e ++ D))
      (distribute_block_safe oc ctx (holds base P (et_chunks e ++ D)) failed addr e) w Hw) as (hs & w' & E & Hhs & Hw').
    exists (Ok hs), w'. rewrite run_bind, E. split; [done|]. split; [done|]. by intros ? [= <-].
  - apply leads_ret. done.
  - intros w [Hp _]. done.
Qed.

Lemma detach_leads {A} (I : NodeState → Prop) handles (r : A) (Q : A → NodeState → Prop) :
  (∀ s, Q r s) → leads o I (_ ← detach handles; Ret r) Q.
Proof.
  intros HQ. eapply (leads_bind _ _ _ _ (λ _ _, True)); [|intros []; by apply leads_ret].
  intros w _. unfold detach. generalize w. clear w. induction handles as [|h handles IH]; intros w; [by eexists _, _|].
  cbn [for_each spawn mbind prog_mbind prog_bind run]. apply IH.
Qed.

Lemma store_blocks_leads D tx nb failed addr data c bs blocks hashes handles :
  (∀ i e, i ∈ blocks → encode oc (slice data bs i) c = Ok e → et_chunk_hashes e = sha256 <$> et_chunks e ∧ Forall P (et_chunks e)) →
  Forall (handle_ok ctx) handles →
  leads o (inv D) (store_blocks oc ctx tx nb failed addr data c bs blocks hashes handles)
    (λ r s, r ≠ Panic ∧ ∀ hs hdl, r = Ok (hs, hdl) → Forall (handle_ok ctx) hdl ∧
       ∃ es, mapM_outcome (λ i, encode oc (slice data bs i) c) blocks = Ok es ∧
         hs = hashes ++ concat (et_chunk_hashes <$> es) ∧ inv (concat (et_chunks <$> es) ++ D) s).
Proof.
  revert D hashes handles. induction blocks as [|i blocks IH]; intros D hashes handles He Hh.
  { apply leads_ret. intros s Hs. split; [done|]. intros hs hdl [= <- <-]. split; [done|]. exists []. by rewrite app_nil_r. }
  cbn [store_blocks mapM_outcome]. apply leads_report; [done|].
  destruct (encode oc (slice data bs i) c) as [e|err|] eqn:E; [|by apply detach_leads..]. apply leads_report; [done|].
  destruct (He i e) as [Hhash HP]; [by left|done|].
  eapply leads_bind; [by apply store_block_leads|]. intros [more|err|]; cbn beta iota.
  - eapply (leads_pre _ _ (λ s, Forall (handle_ok ctx) more ∧ inv (et_chunks e ++ D) s)); [intros s [_ Hs]; by apply Hs|].
    apply leads_pure. intros Hmore. apply leads_report; [done|]. intros w Hs.
    destruct (IH (et_chunks e ++ D) (hashes ++ et_chunk_hashes e) (handles ++ more)) with (w := w)
      as (r & w' & Er & Hp & Hr); [intros j e' Hj; apply He; by right|by apply Forall_app|done|].
    exists r, w'. split; [done|]. split; [done|]. intros hs hdl Hok. destruct (Hr hs hdl Hok) as (Hhdl & es & Hes & -> & Hst).
    split; [done|]. exists (e :: es). cbn [mbind outcome_mbind]. rewrite Hes, !fmap_cons. cbn [concat]. rewrite <-!app_assoc.
    split_and!; [done|done|]. eapply inv_subset; [|exact Hst]. intros x. rewrite !elem_of_app. tauto.
  - by apply detach_leads.
  - intros w [Hp _]. done.
Qed.

Lemma store_manifest_leads D addr m bytes :
  rmp_to_vec m = inr bytes → P bytes →
  leads o (inv D) (store_manifest oc ctx addr m)
    (λ r s, r ≠ Panic ∧ ∀ h, r = Ok h → h = sha256 bytes ∧ inv (bytes :: D) s).
Proof.
  intros Hm HP. unfold store_manifest. rewrite Hm. eapply leads_bind; [by apply put_local_leads|].
  intros [[]|err|]; cbn beta iota.
  - intros w (_ & _ & Hw). specialize (Hw eq_refl).
    destruct (leads_safe calm o _ (sends_outgoing ctx) _ _ id Hcalm (Ho (bytes :: D))
      (spread_manifest_safe ctx (holds base P (bytes :: D)) addr (sha256 bytes) bytes) w Hw) as ([] & w' & E & _ & Hw').
    exists (Ok (sha256 bytes)), w'. rewrite run_bind, E. split; [done|]. split; [done|]. by intros ? [= <-].
  - apply leads_ret. done.
  - intros w [Hp _]. done.
Qed.

(** After a store that succeeds: the chunks and the manifest are there. *)
Definition kept (data : list Z) (c : ErasureConfig) (r : res StoreTesseraResult) (s : NodeState) : Prop :=
  r ≠ Panic ∧ ∀ sr, r = Ok sr → ∃ e bytes,
    encode_blocks oc data c DEFAULT_BLOCK_SIZE = Ok e ∧
    rmp_to_vec (manifest_of (tessera_hashes e) c (length data) DEFAULT_BLOCK_SIZE) = inr bytes ∧
    sr = mkStored (tessera_hashes e) c (length data) DEFAULT_BLOCK_SIZE (Some (sha256 bytes)) ∧
    inv (bytes :: tessera_chunks e) s.

Lemma finish_store_leads addr data c e hdl bytes :
  encode_blocks oc data c DEFAULT_BLOCK_SIZE = Ok e → Forall (handle_ok ctx) hdl →
  rmp_to_vec (manifest_of (tessera_hashes e) c (length data) DEFAULT_BLOCK_SIZE) = inr bytes → P bytes →
  leads o (inv (tessera_chunks e)) (finish_store oc ctx addr data c (tessera_hashes e) hdl) (kept data c).
Proof.
  intros Heb Hhdl Hb HP. unfold finish_store. rewrite Forall_forall in Hhdl.
  eapply leads_bind; [apply (leads_safe calm o _ (sends_outgoing ctx) (λ _, True) _ id Hcalm (Ho (tessera_chunks e)))|].
  { eapply safe_mono; [done| |apply (safe_join_all _ _ (λ _, True)); intros h Hh; by apply run_distribution_safe, Hhdl]. done. }
  intros results. apply leads_pure. intros _.
  eapply leads_bind; [apply (leads_safe calm o _ (sends_outgoing ctx) (λ _, True) _ id Hcalm (Ho (tessera_chunks e)));
    apply settle_all_safe|].
  intros acc. apply leads_pure. intros _. eapply leads_bind; [by apply (store_manifest_leads _ _ _ bytes Hb)|].
  intros [h|err|]; cbn beta iota; [|by apply leads_ret|by intros w [? _]].
  apply leads_ret. intros s [_ Hm]. destruct (Hm h eq_refl) as [-> Hs]. split; [done|]. intros sr [= <-].
  by exists e, bytes.
Qed.

Lemma do_store_leads d p `{!ReedSolomonLaws d p} data tx :
  let c := mkConfig (Z.of_nat d) (Z.of_nat p) in
  (∀ m, ∃ bytes, rmp_to_vec (A := TesseraManifest) m = inr bytes) → config_ok d p → data ≠ [] →
  (∀ x, written oc data c x → P x) →
  leads o (inv []) (do_store_tessera oc ctx data c tx) (kept data c).
Proof.
  intros c Hser Hc Hne HP. unfold do_store_tessera, best_addr, get. eapply leads_bind.
  { apply (leads_safe calm o _ (sends_outgoing ctx) (λ _, True) _ id Hcalm (Ho [])). intros amb s _ Hs. by split. }
  intros addr. apply leads_pure. intros _.
  destruct (num_blocks_ok (length data)) as [nb Hnb]. rewrite Hnb.
  pose proof (blocks_encoded oc d p data nb Hc Hne Hnb) as Henc. fold c in Henc.
  destruct (mapM_outcome_total (λ i, encode oc (slice data DEFAULT_BLOCK_SIZE i) c) (seq 0 nb) Henc) as [es Hes].
  set (e := mkBlocks es DEFAULT_BLOCK_SIZE (length data)).
  assert (encode_blocks oc data c DEFAULT_BLOCK_SIZE = Ok e) as Heb.
  { unfold encode_blocks. rewrite Hnb. cbn [mbind outcome_mbind]. by rewrite Hes. }
  eapply leads_bind; [apply store_blocks_leads; [|done]|].
  { intros i ei Hi Hei. apply elem_of_seq in Hi.
    rewrite (proj2 (Nat.eqb_neq (length data) 0)) in Hnb by (by destruct data).
    destruct (slice_length data DEFAULT_BLOCK_SIZE nb i Hnb) as [_ Hs]; [lia|].
    destruct (encoded_hashes oc d p Hc _ ei Hei Hs) as [Hh _]. split; [done|].
    apply Forall_forall. intros x Hx. apply HP. exists e. split; [done|]. left. eapply block_chunk; [exact Hes|apply elem_of_seq; exact Hi|done..]. }
  intros [[hs hdl]|err|]; cbn beta iota; [|by apply leads_ret|by intros w [? _]].
  intros w [_ Hw]. destruct (Hw hs hdl eq_refl) as (Hhdl & es' & Hes' & -> & Hs). clear Hw.
  rewrite Hes in Hes'. injection Hes' as <-. rewrite app_nil_r in Hs.
  destruct (Hser (manifest_of (tessera_hashes e) c (length data) DEFAULT_BLOCK_SIZE)) as [bytes Hb].
  apply (finish_store_leads addr data c e hdl bytes Heb Hhdl Hb); [|exact Hs]. apply HP. exists e. split; [done|]. by right.
Qed.

(** ** Reading it back *)
Lemma local_chunk_has D x : x ∈ D → safe_if calm (inv D) (sends_outgoing ctx) (λ r, r = Some x) (local_chunk (sha256 x)).
Proof.
  intros Hx. apply safe_atomic. intros amb s (_ & Hf & _) Hs.
  rewrite (chunk_get_holds base P (am_fs amb) D (n_chunks s) x Hf (no_chunks Hs) Hx). split; [|done].
  apply set_chunks_J; [done|apply (no_chunks Hs)].
Qed.

Lemma retrieve_local_safe d p `{!ReedSolomonLaws d p} `{!SerdeLaws TesseraManifest PM} data e bytes c0 l0 b0 tx :
  let c := mkConfig (Z.of_nat d) (Z.of_nat p) in
  let m := manifest_of (tessera_hashes e) c (length data) DEFAULT_BLOCK_SIZE in
  config_ok d p → data ≠ [] → Z.of_nat (length data) ≤ isize_max →
  encode_blocks oc data c DEFAULT_BLOCK_SIZE = Ok e → PM m → rmp_to_vec m = inr bytes →
  safe_if calm (inv (bytes :: tessera_chunks e)) (sends_outgoing ctx) (λ r, r = Ok data)
    (do_retrieve_tessera oc ctx [] c0 l0 b0 (Some (sha256 bytes)) tx).
Proof.
  intros c m Hc Hne Hmax He Hm Hb. assert (0 < DEFAULT_BLOCK_SIZE)%nat as Hbs by (unfold DEFAULT_BLOCK_SIZE; lia).
  unfold do_retrieve_tessera, resolve_manifest, fetch_manifest. do 3 apply safe_bind.
  eapply safe_mono; [done| |apply (local_chunk_has _ bytes); left]. intros r ->.
  cbn [safe_if]. rewrite (read_manifest_exact oc d p Hc data DEFAULT_BLOCK_SIZE e bytes Hne Hbs He Hm Hb). cbn [lift safe_if].
  apply safe_atomic. intros amb s (_ & _ & Hd) Hs. split; [done|]. cbn [fst snd]. rewrite Hd. cbn [timeout]. apply safe_bind, safe_bind.
  unfold do_retrieve_tessera_inner. apply safe_bind. rewrite (tessera_hashes_of oc d p Hc data DEFAULT_BLOCK_SIZE e Hne Hbs He).
  eapply safe_mono; [done| |apply (fetch_chunks_fmap_safe _ _ _ sha256 Some)].
  - intros shards ->. rewrite (decode_shards_full oc d p Hc data DEFAULT_BLOCK_SIZE e Hne Hbs Hmax He). done.
  - intros x Hx. unfold fetch_shard. apply safe_bind. eapply safe_mono; [done| |apply (local_chunk_has _ x); by right].
    by intros r ->.
Qed.
End persistence.

(** ** The theorems *)
Section theorems.
Context `{Sha256} `{Ed25519} `{RS : ReedSolomon} `{Hex} `{Json (list SocketAddr)}.
Context `{Serde Payload} `{Serde Message} `{ML : SerdeLaws TesseraManifest PM}.
Context (oc : bool) (d p : nat) `{!ReedSolomonLaws d p}.
Notation c := (mkConfig (Z.of_nat d) (Z.of_nat p)).


(** C1: What was stored is what is retrieved.  If a store succeeded on some node, then a retrieval on
    any node, given the reported manifest hash, yields exactly the stored data or an error (the
    manifest not found, too few chunks of some block, or a timeout), whatever its peers answer
    and whatever its disk holds, unless a second preimage of a chunk or of the manifest is among
    the bytes in play. *)
Theorem store_retrieve_integrity ctx ctx' o o' (P : list Z → Prop) data w w' w0 sr tx tx' :
  (∀ m, ∃ bytes, rmp_to_vec (A := TesseraManifest) m = inr bytes) → (∀ m, PM m) → config_ok d p → data ≠ [] →
  Z.of_nat (length data) ≤ isize_max → one_to_one P → (∀ x, written oc data c x → P x) →
  preserves (node_ok ctx) o → node_ok ctx (w_state w) →
  run o (do_store_tessera oc ctx data c tx) w = (Some (Ok sr), w0) →
  meets (in_play P) o' → preserves (node_inv (disk_in P) ctx') o' → node_inv (disk_in P) ctx' (w_state w') →
  ∀ c0 l0 b0, ∃ r w1, run o' (do_retrieve_tessera oc ctx' [] c0 l0 b0 (sr_manifest_hash sr) tx') w' = (Some r, w1) ∧
    retrieved d data r.
Proof.
  intros Hser Hm Hc Hne Hmax Hinj HP Ho Hs Hrun Hmeet Ho' Hs' c0 l0 b0.
  destruct (safe_if_run nothing _ _ _ o _ w id ltac:(done) Ho Hs (do_store_safe oc (R := nothing) ctx (λ _, True) (λ _, True)
    (λ _ _ _ _ _ _ _, Logic.I) d p data tx Hser Hc Hne (λ _ _, Logic.I))) as (r & w2 & log & E & [_ Hr] & _).
  rewrite Hrun in E. injection E as <- <-. destruct (Hr sr eq_refl) as (e & bytes & He & Hb & ->).
  assert (0 < DEFAULT_BLOCK_SIZE)%nat as Hbs by (unfold DEFAULT_BLOCK_SIZE; lia).
  destruct (safe_if_run (in_play P) _ _ _ o' _ w' id Hmeet Ho' Hs'
    (retrieve_manifest_safe oc ctx' P d p Hc Hinj data DEFAULT_BLOCK_SIZE e bytes c0 l0 b0 tx' Hne Hbs Hmax He
       ltac:(apply Forall_forall; intros x Hx; apply HP; exists e; auto) (Hm _) Hb ltac:(apply HP; exists e; auto)))
    as (r & w1 & log' & E & Hret & _). by exists r, w1.
Qed.

Lemma store_then_retrieve_spec ctx base (P : list Z → Prop) o data w tx tx' :
  (∀ m, ∃ bytes, rmp_to_vec (A := TesseraManifest) m = inr bytes) → (∀ m, PM m) → config_ok d p → data ≠ [] →
  Z.of_nat (length data) ≤ isize_max → one_to_one P → (∀ x, written oc data c x → P x) →
  meets calm o → (∀ D, preserves (node_inv (holds base P D) ctx) o) → node_inv (holds base P []) ctx (w_state w) →
  ∃ r w', run o (do_store_tessera oc ctx data c tx) w = (Some r, w') ∧ r ≠ Panic ∧
    ∀ sr, r = Ok sr → (∃ mh, sr_manifest_hash sr = Some mh ∧ array_ok 32 mh) ∧ ∀ c0 l0 b0, ∃ w'',
      run o (do_retrieve_tessera oc ctx [] c0 l0 b0 (sr_manifest_hash sr) tx') w' = (Some (Ok data), w'').
Proof.
  intros Hser Hm Hc Hne Hmax Hinj HP Hcalm Ho Hs.
  destruct (do_store_leads oc ctx base P o Hinj Hcalm Ho d p data tx Hser Hc Hne HP w Hs) as (r & w' & E & Hp & Hr).
  exists r, w'. split_and!; [done|done|]. intros sr Hok. destruct (Hr sr Hok) as (e & bytes & He & Hb & -> & Hs').
  split; [by eexists; split; [done|apply sha256_ok]|]. intros c0 l0 b0.
  destruct (safe_if_run calm _ _ _ o _ w' id Hcalm (Ho _) Hs'
    (retrieve_local_safe oc ctx base P d p data e bytes c0 l0 b0 tx' Hc Hne Hmax He (Hm _) Hb)) as (r' & w'' & log & E' & -> & _).
  by exists w''.
Qed.

(** What a node stored it can read back: after a store that succeeded, a retrieval of the reported
    manifest hash on the same node gives the data, with no help from the network, provided the
    other tasks lose no chunk, the disk reads back what it wrote and no timeout fires. *)
Theorem store_then_retrieve ctx base (P : list Z → Prop) o data w tx tx' :
  (∀ m, ∃ bytes, rmp_to_vec (A := TesseraManifest) m = inr bytes) → (∀ m, PM m) → config_ok d p → data ≠ [] →
  Z.of_nat (length data) ≤ isize_max → one_to_one P → (∀ x, written oc data c x → P x) →
  meets calm o → (∀ D, preserves (node_inv (holds base P D) ctx) o) → node_inv (holds base P []) ctx (w_state w) →
  ∃ r w', run o (do_store_tessera oc ctx data c tx) w = (Some r, w') ∧ r ≠ Panic ∧
    ∀ sr, r = Ok sr → ∀ c0 l0 b0, ∃ w'',
      run o (do_retrieve_tessera oc ctx [] c0 l0 b0 (sr_manifest_hash sr) tx') w' = (Some (Ok data), w'').
Proof.
  intros Hser Hm Hc Hne Hmax Hinj HP Hcalm Ho Hs.
  destruct (store_then_retrieve_spec ctx base P o data w tx tx' Hser Hm Hc Hne Hmax Hinj HP Hcalm Ho Hs) as (r & w' & E & Hp & Hr).
  exists r, w'. split_and!; [done|done|]. intros sr Hok. by destruct (Hr sr Hok).
Qed.
End theorems.

(** ** A concrete store *)
(** Data of at most one block is one block. *)
Lemma encode_single `{Sha256} `{ReedSolomon} oc data c bs e :
  data ≠ [] → (length data ≤ bs)%nat → encode oc data c = Ok e →
  encode_blocks oc data c bs = Ok (mkBlocks [e] bs (length data)).
Proof.
  intros Hne Hl He. unfold encode_blocks. rewrite (proj2 (Nat.eqb_neq (length data) 0)) by (by destruct data).
  assert (div_ceil (length data) bs = Ok 1%nat :> res nat) as ->.
  { unfold div_ceil. destruct bs as [|bs]; [destruct data; simpl in Hl; [done|lia]|]. f_equal.
    symmetry. apply Nat.div_unique with (r := (length data - 1)%nat); destruct data; simpl in *; try done; lia. }
  cbn [mbind outcome_mbind seq mapM_outcome]. rewrite slice_take_drop, drop_0, take_ge by done. by rewrite He.
Qed.

Definition big_tessera : EncodedBlocks :=
  mkBlocks [mkEncoded [[1; 2]; [4; 0]; [5; 2]] [fit 32 [1; 2]; fit 32 [4; 0]; fit 32 [5; 2]] (mkConfig 2 1) 3] DEFAULT_BLOCK_SIZE 3.
Lemma big_tessera_ok : encode_blocks true sample_data (mkConfig 2 1) DEFAULT_BLOCK_SIZE = Ok big_tessera.
Proof. apply encode_single; [done|unfold DEFAULT_BLOCK_SIZE; cbn [length sample_data]; lia|]. vm_compute. reflexivity. Qed.

Definition big_manifest : TesseraManifest := mkManifest (tessera_hashes big_tessera) 2 1 3 (256 * 1024).
Lemma big_manifest_ok : manifest_of (tessera_hashes big_tessera) (mkConfig 2 1) 3 DEFAULT_BLOCK_SIZE = big_manifest.
Proof. unfold manifest_of, big_manifest, DEFAULT_BLOCK_SIZE. by rewrite Z2Nat.id by lia. Qed.
Definition big_bytes : list (list Z) :=
  match rmp_to_vec big_manifest with inr b => [b] | inl _ => [] end ++ [[1; 2]; [4; 0]; [5; 2]].

Lemma big_written x : written true sample_data (mkConfig 2 1) x → x ∈ big_bytes.
Proof.
  intros (e & He & Hx). rewrite big_tessera_ok in He. injection He as <-. apply elem_of_app. destruct Hx as [Hx|Hx]; [by right|].
  rewrite (big_manifest_ok : manifest_of _ _ (length sample_data) _ = _) in Hx. rewrite Hx. left. left.
Qed.

Lemma big_one_to_one : one_to_one (λ x, x ∈ big_bytes).
Proof.
  assert (Forall (λ a, Forall (λ b, sha256 a = sha256 b → a = b) big_bytes) big_bytes) as Hall by decide_compute.
  intros a b Ha Hb. rewrite Forall_forall in Hall. specialize (Hall a Ha). rewrite Forall_forall in Hall. by apply Hall.
Qed.

Lemma calm_sample : meets calm sample_oracle.
Proof. by split_and!. Qed.

Lemma sample_holds P : node_inv (holds ["chunks"] P []) sample_ctx (w_state (sample_world [])).
Proof.
  destruct (sample_inv P) as [Ht Hl Hc Hd]. split; [exact Ht|exact Hl|exact Hc|]. split; [done|exact Hd| |].
  - intros h x _. cbn [sample_world w_state sample_node n_chunks sample_store disk]. by rewrite lookup_empty.
  - by intros x ?%elem_of_nil.
Qed.

Lemma manifests_serialize (m : TesseraManifest) : ∃ bytes, rmp_to_vec m = inr bytes.
Proof. by eexists. Qed.


Definition sample_store_run : option (res StoreTesseraResult) * world :=
  run sample_oracle (do_store_tessera true sample_ctx sample_data (mkConfig (Z.of_nat 2) (Z.of_nat 1)) (Some 5%nat)) (sample_world []).
Lemma sample_store_ok : ∃ sr w', sample_store_run = (Some (Ok sr), w').
Proof.
  assert ((match sample_store_run.1 with Some r => is_ok r | None => false end) = true) as Hok by (vm_compute; reflexivity).
  destruct sample_store_run as [[[sr|e|]|] w']; try done. by exists sr, w'.
Qed.

Lemma store_then_retrieve_witness :
  ∃ sr w' w'', sample_store_run = (Some (Ok sr), w') ∧
    run sample_oracle (do_retrieve_tessera true sample_ctx [] (mkConfig 10 4) 0 0 (sr_manifest_hash sr) None) w' = (Some (Ok sample_data), w'').
Proof.
  destruct (store_then_retrieve (PM := λ _, True) true 2 1 sample_ctx ["chunks"] (λ x, x ∈ big_bytes) sample_oracle sample_data
    (sample_world []) (Some 5%nat) None) as (r & w' & E & _ & Hr).
  - exact manifests_serialize.
  - done.
  - split_and!; lia.
  - done.
  - by vm_compute.
  - exact big_one_to_one.
  - exact big_written.
  - exact calm_sample.
  - intros D. apply sample_preserves.
  - apply sample_holds.
  - destruct sample_store_ok as (sr & w0 & Eok). change (sample_store_run = (Some r, w')) in E.
    rewrite Eok in E. injection E as <- <-.
    destruct (Hr sr eq_refl (mkConfig 10 4) 0 0) as [w'' E']. exists sr, w0, w''. split; [exact Eok|exact E'].
Defined.

Lemma store_retrieve_integrity_witness :
  ∃ sr w0 r w1, sample_store_run = (Some (Ok sr), w0) ∧
    run sample_oracle (do_retrieve_tessera true sample_ctx [] (mkConfig 10 4) 0 0 (sr_manifest_hash sr) None) (sample_world []) = (Some r, w1) ∧
    retrieved 2 sample_data r.
Proof.
  destruct sample_store_ok as (sr & w0 & Eok). exists sr, w0.
  destruct (store_retrieve_integrity (PM := λ _, True) true 2 1 sample_ctx sample_ctx sample_oracle sample_oracle
    (λ x, x ∈ big_bytes) sample_data (sample_world []) (sample_world []) w0 sr (Some 5%nat) None) with (c0 := mkConfig 10 4) (l0 := 0) (b0 := 0)
    as (r & w1 & E & Hr).
  - exact manifests_serialize.
  - done.
  - split_and!; lia.
  - done.
  - by vm_compute.
  - exact big_one_to_one.
  - exact big_written.
  - apply sample_preserves.
  - apply sample_node_ok.
  - exact Eok.
  - apply sample_meets.
  - apply sample_preserves.
  - apply sample_inv.
  - exists r, w1. split; [exact Eok|]. split; [exact E|exact Hr].
Defined.
