(* ===== verification/Progress.v ===== *)
(** * Progress reports ([store_with_progress] and [retrieve_with_progress] of [src/node.rs])

    The bodies of [Store] and [Retrieve] report to a channel when they are given one.  Here two
    bodies are compared by what they do apart from reporting: [behaviour] collects the executions of
    [Actor.run] against all oracles, [runs] describes the same executions without an oracle, and [same] is
    the equivalence of bodies that a report does not disturb. *)
From S2P Require Import Prelude.
From S2P Require Import Errors.
From S2P Require Import Bytes.
From S2P Require Import External.
From S2P Require Import Identity.
From S2P Require Import Net.
From S2P Require Import Samples.
From S2P Require Import Bucket.
From S2P Require Import Table.
From S2P Require Import Lookup.
From S2P Require Import Erasure.
From S2P Require Import Chunks.
From S2P Require Import Metadata.
From S2P Require Import RateLimit.
From S2P Require Import Message.
From S2P Require Import Race.
From S2P Require Import Actor.
From S2P Require Import Context.
From S2P Require Import Retrieve.
From S2P Require Import Store.

(** ** Executions *)
(** What the other tasks may do between two actions. *)
Class Others (O : (NodeState → NodeState) → Prop) : Prop := {
  others_id : O id;
  others_compose f g : O f → O g → O (f ∘ g);
}.

Definition is_report (e : effect) : bool := match e with EReported _ _ => true | _ => false end.
(** The effects that are not reports, and the reports. *)
Definition unreported (log : list effect) : list effect := filter (λ e, is_report e = false) log.
Definition reports_of (log : list effect) : list (nat * Progress) :=
  omap (λ e, match e with EReported tx p => Some (tx, p) | _ => None end) log.

(** [p] started in [s] ends with [r] in [s'], with the effects [log] besides its reports. *)
Definition behaviour {A} (O : (NodeState → NodeState) → Prop) (p : prog A) (s : NodeState) (log : list effect) (s' : NodeState) (r : option A) : Prop :=
  ∃ o w g, (∀ n, O (interfere o n)) ∧ run o p (mkWorld 0 s []) = (r, w) ∧ O g ∧ s' = g (w_state w) ∧ log = unreported (w_log w).

Section executions.
Context (O : (NodeState → NodeState) → Prop) `{!Others O}.

Definition between (s s' : NodeState) : Prop := ∃ g, O g ∧ s' = g s.

#[local] Instance between_preorder : PreOrder between.
Proof.
  split.
  - intros s. exists id. split; [apply others_id|done].
  - intros s s1 s2 (f & Hf & ->) (g & Hg & ->). exists (g ∘ f). split; [by apply others_compose|done].
Qed.

Inductive runs {A} : prog A → NodeState → list effect → NodeState → option A → Prop :=
  | runs_ret a s s' : between s s' → runs (Ret a) s [] s' (Some a)
  | runs_abort s s' : between s s' → runs Abort_ s [] s' None
  | runs_acts p s s1 s2 e p' log s' r : between s s1 → acts nothing p s1 s2 e p' → runs p' s2 log s' r → runs p s (e ++ log) s' r.

(** Dropped before one of its actions. *)
Inductive cut {A} : prog A → NodeState → list effect → NodeState → Prop :=
  | cut_here p s s' : can_act p → between s s' → cut p s [] s'
  | cut_acts p s s1 s2 e p' log s' : between s s1 → acts nothing p s1 s2 e p' → cut p' s2 log s' → cut p s (e ++ log) s'.

Lemma runs_before {A} (p : prog A) s0 s log s' r : between s0 s → runs p s log s' r → runs p s0 log s' r.
Proof.
  intros Hb Hr. revert Hb. destruct Hr as [a s s' H|s s' H|p s s1 s2 e p' log s' r H Ha Hp]; intros Hb.
  - constructor. by trans s.
  - constructor. by trans s.
  - apply (runs_acts p s0 s1 s2 e p'); [by trans s|done..].
Qed.

Lemma cut_before {A} (p : prog A) s0 s log s' : between s0 s → cut p s log s' → cut p s0 log s'.
Proof.
  intros Hb Hr. revert Hb. destruct Hr as [p s s' Hp H|p s s1 s2 e p' log s' H Ha Hp]; intros Hb.
  - constructor; [done|]. by trans s.
  - apply (cut_acts p s0 s1 s2 e p'); [by trans s|done..].
Qed.

Lemma runs_after {A} (p : prog A) s log s' s1 r : runs p s log s' r → between s' s1 → runs p s log s1 r.
Proof.
  induction 1 as [a s s' H|s s' H|p s s2 s3 e p' log s' r H Ha Hp IH]; intros Hb.
  - constructor. by trans s'.
  - constructor. by trans s'.
  - econstructor; [exact H|exact Ha|by apply IH].
Qed.

Lemma runs_ret_inv {A} (a : A) s log s' r : runs (Ret a) s log s' r → between s s' ∧ log = [] ∧ r = Some a.
Proof. by inversion 1. Qed.

Lemma runs_abort_inv {A} s log s' (r : option A) : runs Abort_ s log s' r → between s s' ∧ log = [] ∧ r = None.
Proof. by inversion 1. Qed.

Lemma cut_ret_inv {A} (a : A) s log s' : ¬ cut (Ret a) s log s'.
Proof. by inversion 1. Qed.

Lemma runs_bind {A B} (p : prog A) (f : A → prog B) s log s' r :
  runs (p ≫= f) s log s' r ↔
  (∃ a s1 l1 l2, runs p s l1 s1 (Some a) ∧ runs (f a) s1 l2 s' r ∧ log = l1 ++ l2) ∨ (runs p s log s' None ∧ r = None).
Proof.
  split.
  - remember (p ≫= f) as q eqn:E. intros Hq. revert p E.
    induction Hq as [b s s' H|s s' H|q s s1 s2 e q' log s' r H Ha Hq IH]; intros p E.
    + destruct p as [a| | | | | | |]; try done. left. exists a, s, [], []. split_and!; [by constructor| |done]. simpl in E. rewrite <-E. by constructor.
    + destruct p as [a| | | | | | |]; try done.
      * left. exists a, s, [], []. split_and!; [by constructor| |done]. simpl in E. rewrite <-E. by constructor.
      * right. split; [by constructor|done].
    + destruct (decide_can p) as [(a & ->)|[->|Hp]].
      * left. exists a, s, [], (e ++ log). split_and!; [by constructor| |done]. simpl in E. rewrite <-E. by econstructor.
      * by subst.
      * rewrite E in Ha. apply acts_bind in Ha as (p' & Ha & ->); [|done]. destruct (IH p' eq_refl) as [(a & s3 & l1 & l2 & H1 & H2 & ->)|[H1 ->]].
        -- left. exists a, s3, (e ++ l1), l2. split_and!; [by econstructor|done|by rewrite app_assoc].
        -- right. split; [by econstructor|done].
  - intros [(a & s1 & l1 & l2 & H1 & H2 & ->)|[H1 ->]].
    + remember (Some a) as r1 eqn:E. revert E. induction H1 as [b s s1 H|s s1 H|q s s1 s3 e q' log s4 r1 H Ha Hq IH]; intros E; simplify_eq.
      * simpl. by eapply runs_before.
      * rewrite <-app_assoc. econstructor; [done| |by apply IH]. apply acts_bind; [by eapply acts_can|]. by eexists.
    + remember None as r1 eqn:E. revert E. induction H1 as [b s s1 H|s s1 H|q s s1 s3 e q' log s4 r1 H Ha Hq IH]; intros E; simplify_eq.
      * by constructor.
      * econstructor; [done| |by apply IH]. apply acts_bind; [by eapply acts_can|]. by eexists.
Qed.

Lemma cut_bind {A B} (p : prog A) (f : A → prog B) s log s' :
  cut (p ≫= f) s log s' ↔
  cut p s log s' ∨ ∃ a s1 l1 l2, runs p s l1 s1 (Some a) ∧ cut (f a) s1 l2 s' ∧ log = l1 ++ l2.
Proof.
  split.
  - remember (p ≫= f) as q eqn:E. intros Hq. revert p E.
    induction Hq as [q s s' Hq H|q s s1 s2 e q' log s' H Ha Hq IH]; intros p E.
    + destruct (decide_can p) as [(a & ->)|[->|Hp]]; [|by subst|left; by constructor].
      right. exists a, s, [], []. split_and!; [by constructor| |done]. simpl in E. rewrite <-E. by constructor.
    + destruct (decide_can p) as [(a & ->)|[->|Hp]]; [|by subst|].
      * right. exists a, s, [], (e ++ log). split_and!; [by constructor| |done]. simpl in E. rewrite <-E. by econstructor.
      * rewrite E in Ha. apply acts_bind in Ha as (p' & Ha & ->); [|done]. destruct (IH p' eq_refl) as [H1|(a & s3 & l1 & l2 & H1 & H2 & ->)].
        -- left. by econstructor.
        -- right. exists a, s3, (e ++ l1), l2. split_and!; [by econstructor|done|by rewrite app_assoc].
  - intros [H1|(a & s1 & l1 & l2 & H1 & H2 & ->)].
    + induction H1 as [q s s1 Hq H|q s s1 s3 e q' log s4 H Ha Hq IH].
      * constructor; [by destruct q|done].
      * econstructor; [done| |by apply IH]. apply acts_bind; [by eapply acts_can|]. by eexists.
    + remember (Some a) as r1 eqn:E. revert E. induction H1 as [b s s1 H|s s1 H|q s s1 s3 e q' log s4 r1 H Ha Hq IH]; intros E; simplify_eq.
      * simpl. by eapply cut_before.
      * rewrite <-app_assoc. econstructor; [done| |by apply IH]. apply acts_bind; [by eapply acts_can|]. by eexists.
Qed.
(** Under a timeout: the whole body, or what it did before it was dropped. *)
Lemma runs_within {A} n (p : prog A) s log s' r :
  runs (within n p) s log s' r →
  (∃ a, r = Some (Some a) ∧ runs p s log s' (Some a)) ∨ (r = None ∧ runs p s log s' None) ∨ (r = Some None ∧ cut p s log s').
Proof.
  remember (within n p) as q eqn:E. intros Hq. revert n p E.
  assert (∀ n (p : prog A), within n p = Abort_ → p = Abort_) as Habort by (intros [|n] p; by destruct p).
  assert (∀ n (p : prog A) x, within n p = Ret x → (∃ a, p = Ret a ∧ x = Some a) ∨ x = None ∧ can_act p) as Hret.
  { intros [|n] p x; destruct p; intros [= <-]; (by left; eexists) || by right. }
  induction Hq as [b s s' H|s s' H|q s s1 s2 e q' log s' r H Ha Hq IH]; intros n p E.
  - destruct (Hret n p b (eq_sym E)) as [(a & -> & ->)|[-> Hp]].
    + left. exists a. split; [done|by constructor].
    + right; right. split; [done|by constructor].
  - rewrite (Habort n p (eq_sym E)). right; left. split; [done|by constructor].
  - subst q. destruct (decide_can p) as [(a & ->)|[->|Hp]]; [by destruct n|by destruct n|].
    destruct n as [|n]; [by rewrite within_zero in Ha|]. apply acts_within in Ha as (p' & Ha & ->); [|done].
    destruct (IH n p' eq_refl) as [(a & -> & H1)|[[-> H1]|[-> H1]]]; [left; exists a|right; left|right; right]; (split; [done|by econstructor]).
Qed.

Lemma within_cut {A} (p : prog A) s log s' : cut p s log s' → ∃ n, runs (within n p) s log s' (Some None).
Proof.
  induction 1 as [p s s' Hp H|p s s1 s2 e p' log s' H Ha _ [n IH]].
  - exists 0%nat. rewrite within_zero by done. by constructor.
  - exists (S n). econstructor; [done| |exact IH]. apply acts_within; [by eapply acts_can|]. by eexists.
Qed.

Definition timed {A} (p : prog (res A)) : prog (res A) :=
  deadline ← atomic (λ amb s, (s, am_deadline amb)); r ← timeout deadline p; Ret (default (Err Timeout) r).

Lemma runs_deadline {A} (d : option nat) (k : option nat → prog A) s log s' r :
  runs (k d) s log s' r → runs (deadline ← atomic (λ amb s, (s, am_deadline amb)); k deadline) s log s' r.
Proof.
  intros Hk. change log with ([] ++ log). eapply runs_acts; [reflexivity| |exact Hk].
  by exists (mkAmbient 0 0 0 [] no_faults None (λ _, None) (λ _, 0) d).
Qed.

Lemma runs_read {B : Set} (f : Ambient → B) s log s' r :
  runs (atomic (λ amb s, (s, f amb))) s log s' r → between s s' ∧ log = [] ∧ ∃ b, r = Some b.
Proof.
  remember (atomic _) as q eqn:E. intros Hq. destruct Hq as [a s s' H|s s' H|q s s0 s2 e p' log s1 r1 H Ha Hr]; [done..|].
  subst q. destruct Ha as (amb & _ & -> & -> & ->). apply runs_ret_inv in Hr as (Hb & -> & ->). split_and!; [by trans s0|done|by eexists].
Qed.

Lemma runs_map {A B} (q : prog A) (f : A → B) s log s' r :
  runs (x ← q; Ret (f x)) s log s' r ↔ (∃ x, r = Some (f x) ∧ runs q s log s' (Some x)) ∨ (r = None ∧ runs q s log s' None).
Proof.
  rewrite runs_bind. split.
  - intros [(x & s1 & l1 & l2 & H1 & (Hb & -> & ->)%runs_ret_inv & ->)|[H1 ->]]; [left; exists x|by right].
    rewrite app_nil_r. split; [done|]. by eapply runs_after.
  - intros [(x & -> & H1)|[-> H1]]; [left|by right]. exists x, s', log, []. rewrite app_nil_r. split_and!; [done|by constructor|done].
Qed.

Lemma runs_timed {A} (p : prog (res A)) s log s' r :
  runs (timed p) s log s' r ↔
  (∃ a, r = Some a ∧ runs p s log s' (Some a)) ∨ (r = None ∧ runs p s log s' None) ∨ (r = Some (Err Timeout) ∧ cut p s log s').
Proof.
  unfold timed. split.
  - intros [(d & s1 & l1 & l2 & (Hb & -> & _)%runs_read & H2 & ->)|[(_ & _ & b & [=])%runs_read _]]%runs_bind.
    cbn [app]. apply (runs_before _ s), runs_map in H2; [|done].
    assert (∀ x, runs (timeout d p) s l2 s' x →
      (∃ a, x = Some (Some a) ∧ runs p s l2 s' (Some a)) ∨ (x = None ∧ runs p s l2 s' None) ∨ (x = Some None ∧ cut p s l2 s')) as Hd.
    { intros x. destruct d as [n|]; [apply runs_within|]. cbn [timeout]. rewrite runs_map. naive_solver. }
    destruct H2 as [(x & -> & Hx)|[-> Hx]]; apply Hd in Hx as [(a & [=] & Hx)|[[[=] Hx]|[[=] Hx]]]; subst; cbn [default]; eauto.
  - intros [(a & -> & H1)|[[-> H1]|[-> H1]]].
    + apply (runs_deadline None), runs_map. left. exists (Some a). split; [done|]. apply runs_map. eauto.
    + apply (runs_deadline None), runs_map. right. split; [done|]. apply runs_map. eauto.
    + apply within_cut in H1 as [n H1]. apply (runs_deadline (Some n)), runs_map. left. by exists None.
Qed.

(** ** Equal but for the reports *)
Definition refines {A} (p q : prog A) : Prop :=
  ∀ s log s' r, runs p s log s' r → ∃ log', runs q s log' s' r ∧ unreported log' = unreported log.
Definition same {A} (p q : prog A) : Prop := refines p q ∧ refines q p.
(** The same under a timeout, in one direction. *)
Definition below {A} (p q : prog A) : Prop :=
  refines p q ∧ ∀ s log s', cut p s log s' → ∃ log', cut q s log' s' ∧ unreported log' = unreported log.

#[export] Instance refines_preorder {A} : PreOrder (@refines A).
Proof.
  split; [by intros p s log s' r H; exists log|]. intros p q u H1 H2 s log s' r (l1 & Hl1 & E1)%H1.
  apply H2 in Hl1 as (l2 & Hl2 & E2). exists l2. split; [done|congruence].
Qed.
#[export] Instance same_equivalence {A} : Equivalence (@same A).
Proof. split; [by split|by intros p q []; split|]. intros p q u [] []. split; by trans q. Qed.
#[export] Instance same_refines {A} : subrelation (@same A) refines.
Proof. by intros p q []. Qed.

#[export] Instance refines_proper {A} : Proper (same ==> same ==> iff) (@refines A).
Proof. intros p p' [Hp1 Hp2] q q' [Hq1 Hq2]. split; intros H; [trans p|trans p']; try done; [trans q|trans q']; done. Qed.

Lemma unreported_app l k : unreported (l ++ k) = unreported l ++ unreported k.
Proof. apply filter_app. Qed.

Lemma refines_bind {A B} (p q : prog A) (f g : A → prog B) :
  refines p q → (∀ a, refines (f a) (g a)) → refines (p ≫= f) (q ≫= g).
Proof.
  intros Hp Hf s log s' r [(a & s1 & l1 & l2 & H1 & H2 & ->)|[H1 ->]]%runs_bind.
  - apply Hp in H1 as (l1' & H1 & E1). apply Hf in H2 as (l2' & H2 & E2). exists (l1' ++ l2').
    split; [apply runs_bind; left; by exists a, s1, l1', l2'|]. rewrite !unreported_app. congruence.
  - apply Hp in H1 as (l1' & H1 & E1). exists l1'. split; [apply runs_bind; by right|done].
Qed.

#[export] Instance same_bind {A B} : Proper (pointwise_relation A same ==> same ==> same) (@mbind prog _ A B).
Proof. intros f g Hf p q [H1 H2]. split; (apply refines_bind; [done|]); intros a; apply Hf. Qed.

Lemma same_under {A B} (p : prog A) (f g : A → prog B) : (∀ a, same (f a) (g a)) → same (p ≫= f) (p ≫= g).
Proof. intros Hf. by apply same_bind. Qed.
Lemma same_first {A B} (p q : prog A) (f : A → prog B) : same p q → same (p ≫= f) (q ≫= f).
Proof. intros Hp. by apply same_bind. Qed.

Lemma below_bind {A B} (p q : prog A) (f g : A → prog B) : below p q → (∀ a, below (f a) (g a)) → below (p ≫= f) (q ≫= g).
Proof.
  intros [Hp Hc] Hf. split; [apply refines_bind; [done|apply Hf]|].
  intros s log s' [H1|(a & s1 & l1 & l2 & H1 & H2 & ->)]%cut_bind.
  - apply Hc in H1 as (l1' & H1 & E1). exists l1'. split; [apply cut_bind; by left|done].
  - apply Hp in H1 as (l1' & H1 & E1). apply Hf in H2 as (l2' & H2 & E2). exists (l1' ++ l2').
    split; [apply cut_bind; right; by exists a, s1, l1', l2'|]. rewrite !unreported_app. congruence.
Qed.

#[export] Instance below_refl {A} : Reflexive (@below A).
Proof. intros p. split; [done|]. intros s log s' H. by exists log. Qed.

(** A report is not observed. *)
Lemma runs_report {A} tx p (k : prog A) s log s' r :
  runs (Report tx p k) s log s' r ↔ ∃ s1 log', between s s1 ∧ log = EReported tx p :: log' ∧ runs k s1 log' s' r.
Proof.
  split.
  - remember (Report tx p k) as q eqn:E. intros Hq. destruct Hq as [a s s' H|s s' H|q s s1 s2 e p' log s' r H Ha Hr]; [done..|].
    subst q. destruct Ha as (-> & -> & ->). by exists s1, log.
  - intros (s1 & log' & Hb & -> & Hr). apply (runs_acts _ s s1 s1 [EReported tx p] k); [done..|exact Hr].
Qed.

Lemma report_same {A} progress_tx p (k : () → prog A) : same (report progress_tx p ≫= k) (k ()).
Proof.
  destruct progress_tx as [tx|]; [|done]. change (same (Report tx p (k ())) (k ())). split; intros s log s' r Hr.
  - apply runs_report in Hr as (s1 & log' & Hb & -> & Hr). exists log'. split; [by eapply runs_before|done].
  - exists (EReported tx p :: log). split; [|done]. apply runs_report. by exists s, log.
Qed.

Lemma report_below {A} progress_tx p (k k' : () → prog A) : below (k ()) (k' ()) → below (k ()) (report progress_tx p ≫= k').
Proof.
  intros [Hk Hc]. split; [by rewrite report_same|]. destruct progress_tx as [tx|]; [|exact Hc]. intros s log s' (log' & H1 & E)%Hc.
  exists (EReported tx p :: log'). split; [|done]. by apply (cut_acts (Report tx p (k' ())) s s s [EReported tx p] (k' ())).
Qed.

Lemma same_join_all {A B} (l : list A) (f g : A → prog B) : (∀ x, same (f x) (g x)) → same (join_all l f) (join_all l g).
Proof. intros Hf. induction l as [|x l IH]; [done|]. cbn [join_all]. rewrite (Hf x). f_equiv. intros y. by rewrite IH. Qed.

Lemma below_join_all {A B} (l : list A) (f g : A → prog B) : (∀ x, below (f x) (g x)) → below (join_all l f) (join_all l g).
Proof.
  intros Hf. induction l as [|x l IH]; [done|]. cbn [join_all]. apply below_bind; [apply Hf|]. intros y.
  apply below_bind; [exact IH|]. done.
Qed.
End executions.

(** ** Executions and runs *)
(** What an oracle answers at one action. *)
Record entry := mkEntry {
  en_ambient : Ambient;
  en_interfere : NodeState → NodeState;
  en_net : SocketAddr → Message → res Message;
  en_races : list (race_event Message);
  en_reply : res ();
}.
Definition no_ambient : Ambient := mkAmbient 0 0 0 [] no_faults None (λ _, None) (λ _, 0) None.
Definition no_entry : entry := mkEntry no_ambient id (λ _ _, Err Timeout) [] (Ok ()).
Definition scripted (l : list entry) : Oracle :=
  mkOracle (λ n, en_ambient (nth n l no_entry)) (λ n, en_interfere (nth n l no_entry)) (λ n, en_net (nth n l no_entry))
    (λ n, en_races (nth n l no_entry)) (λ n, en_reply (nth n l no_entry)).

(** Every action can be scripted. *)
Lemma acts_run {A} (p : prog A) g s s2 e p' :
  acts nothing p (g s) s2 e p' → ∃ en, en_interfere en = g ∧
    ∀ l n log, nth n l no_entry = en → run (scripted l) p (mkWorld n s log) = run (scripted l) p' (mkWorld (S n) s2 (log ++ e)).
Proof.
  destruct p as [a|B f k|a m k|l m k|a m k|t k|tx pr k|]; cbn [acts]; [done|..|done].
  - intros (amb & _ & -> & -> & ->). exists (mkEntry amb g (λ _ _, Err Timeout) [] (Ok ())). split; [done|].
    intros l n log E. cbn [run scripted ambient interfere w_next w_state]. unfold tick. cbn. by rewrite E.
  - intros (x & _ & -> & -> & ->). exists (mkEntry no_ambient g (λ _ _, x) [] (Ok ())). split; [done|].
    intros l n log E. cbn [run scripted net w_next]. unfold tick. cbn. by rewrite E.
  - intros (evs & _ & -> & -> & ->). exists (mkEntry no_ambient g (λ _ _, Err Timeout) evs (Ok ())). split; [done|].
    intros l' n log E. cbn [run scripted races w_next]. unfold tick. cbn. by rewrite E.
  - intros (x & -> & -> & ->). exists (mkEntry no_ambient g (λ _ _, Err Timeout) [] x). split; [done|].
    intros l n log E. cbn [run scripted replies w_next]. unfold tick. cbn. by rewrite E.
  - intros (-> & -> & ->). exists (mkEntry no_ambient g (λ _ _, Err Timeout) [] (Ok ())). split; [done|].
    intros l n log E. cbn [run]. unfold tick. cbn. by rewrite E.
  - intros (-> & -> & ->). exists (mkEntry no_ambient g (λ _ _, Err Timeout) [] (Ok ())). split; [done|].
    intros l n log E. cbn [run]. unfold tick. cbn. by rewrite E.
Qed.

Section behaviours.
Context (O : (NodeState → NodeState) → Prop) `{!Others O}.

Lemma runs_run {A} (p : prog A) s log s' r :
  runs O p s log s' r →
  ∃ l, Forall (λ en, O (en_interfere en)) l ∧ ∀ pre lg, ∃ w g,
    run (scripted (pre ++ l)) p (mkWorld (length pre) s lg) = (r, w) ∧ O g ∧ s' = g (w_state w) ∧ w_log w = lg ++ log.
Proof.
  induction 1 as [a s s' (g & Hg & ->)|s s' (g & Hg & ->)|p s s1 s2 e p' log s' r (g & Hg & ->) Ha _ (l & Hl & IH)].
  - exists []. split; [done|]. intros pre lg. exists (mkWorld (length pre) s lg), g. split_and!; [done..|by rewrite app_nil_r].
  - exists []. split; [done|]. intros pre lg. exists (mkWorld (length pre) s lg), g. split_and!; [done..|by rewrite app_nil_r].
  - destruct (acts_run _ _ _ _ _ _ Ha) as (en & Hi & Hrun). exists (en :: l). split; [constructor; [by rewrite Hi|done]|].
    intros pre lg. rewrite (Hrun _ _ lg) by (by rewrite app_nth2, Nat.sub_diag by lia).
    destruct (IH (pre ++ [en]) (lg ++ e)) as (w & g' & E & Hg' & Hs & Hlog). exists w, g'.
    rewrite <-app_assoc, length_app, Nat.add_1_r in E. by rewrite app_assoc.
Qed.

Lemma run_runs {A} o (p : prog A) w r w' :
  (∀ n, O (interfere o n)) → run o p w = (r, w') → ∃ log, runs O p (w_state w) log (w_state w') r ∧ w_log w' = w_log w ++ log.
Proof.
  intros Ho. revert w.
  assert (∀ (p q : prog A) w e f, acts nothing p (interfere o (w_next w) (w_state w)) (f (interfere o (w_next w) (w_state w))) e q →
    (∃ log, runs O q (w_state (tick o w f e)) log (w_state w') r ∧ w_log w' = w_log (tick o w f e) ++ log) →
    ∃ log, runs O p (w_state w) log (w_state w') r ∧ w_log w' = w_log w ++ log) as Hstep.
  { intros p0 q w e f Ha (log & Hr & Hl). exists (e ++ log). split; [|by rewrite app_assoc].
    eapply runs_acts; [|exact Ha|exact Hr]. by exists (interfere o (w_next w)). }
  induction p as [a|B f k IH|a m k IH|l m k IH|a m k IH|t k IH|tx pr k IH|]; intros w; cbn [run].
  - intros [= <- <-]. exists []. split; [by constructor; exists id; split; [apply others_id|]|by rewrite app_nil_r].
  - intros E. eapply Hstep; [|apply IH, E]. by exists (ambient o (w_next w)).
  - intros E. eapply Hstep; [|apply IH, E]. by eexists.
  - intros E. eapply Hstep; [|apply IH, E]. by eexists.
  - intros E. eapply Hstep; [|apply IH, E]. by eexists.
  - intros E. eapply Hstep; [|apply IH, E]. done.
  - intros E. eapply Hstep; [|apply IH, E]. done.
  - intros [= <- <-]. exists []. split; [by constructor; exists id; split; [apply others_id|]|by rewrite app_nil_r].
Qed.

Lemma behaviour_runs {A} (p : prog A) s log s' r : behaviour O p s log s' r ↔ ∃ log', runs O p s log' s' r ∧ log = unreported log'.
Proof.
  split.
  - intros (o & w & g & Ho & E & Hg & -> & ->). destruct (run_runs o p _ r w Ho E) as (log & Hr & Hl). exists (w_log w). split; [|done].
    cbn in Hl. rewrite Hl. cbn in Hr. eapply runs_after; [done|exact Hr|by exists g].
  - intros (log' & Hr & ->). destruct (runs_run p s log' s' r Hr) as (l & Hl & Hrun). destruct (Hrun [] []) as (w & g & E & Hg & Hs & Hlog).
    exists (scripted l), w, g. split_and!; [|exact E|done|done|by rewrite Hlog].
    intros n. cbn. destruct (nth_in_or_default n l no_entry) as [Hin| ->]; [|apply others_id].
    rewrite Forall_forall in Hl. by apply Hl, list_elem_of_In.
Qed.
End behaviours.

(** ** Storing and retrieving *)
Section bodies.
Context (O : (NodeState → NodeState) → Prop) `{!Others O}.
Context `{Sha256} `{Ed25519} `{ReedSolomon} `{Hex} `{Json (list SocketAddr)}.
Context `{Serde Payload} `{Serde Message} `{Serde TesseraManifest}.
Context (oc : bool) (ctx : HandlerContext).

Lemma store_blocks_same tx nb failed addr data c bs blocks hashes handles :
  same O (store_blocks oc ctx tx nb failed addr data c bs blocks hashes handles)
    (store_blocks oc ctx None nb failed addr data c bs blocks hashes handles).
Proof.
  revert hashes handles. induction blocks as [|i blocks IH]; intros hashes handles; [done|]. cbn [store_blocks].
  rewrite !(report_same O). destruct (encode oc (slice data bs i) c) as [e|err|]; [|done..].
  rewrite !(report_same O). apply (same_under O). intros [more|err|]; [|done..]. rewrite !(report_same O). apply IH.
Qed.

Lemma do_store_same data c tx : same O (do_store_tessera oc ctx data c tx) (do_store_tessera oc ctx data c None).
Proof.
  unfold do_store_tessera. apply (same_under O). intros addr. destruct (if (length data =? 0)%nat then _ else _) as [nb|e|]; [|done..].
  apply (same_first O), store_blocks_same.
Qed.

Lemma fetch_chunk_same tx n x : same O (fetch_chunk oc ctx tx n x) (fetch_chunk oc ctx None n x).
Proof.
  destruct x as [i h]. unfold fetch_chunk. rewrite !(report_same O). apply (same_under O). intros shard. by rewrite !(report_same O).
Qed.

Lemma fetch_chunk_below tx n x : below O (fetch_chunk oc ctx None n x) (fetch_chunk oc ctx tx n x).
Proof.
  destruct x as [i h].
  apply (report_below O tx _ (λ _, shard ← fetch_shard oc ctx h; Ret shard)
    (λ _, shard ← fetch_shard oc ctx h; _ ← report tx (OfRetrieve (ChunkComplete i n)); Ret shard)).
  apply (below_bind O); [done|]. intros shard. by apply (report_below O tx _ (λ _, Ret shard) (λ _, Ret shard)).
Qed.

Lemma inner_same tx hashes c len bs : same O (do_retrieve_tessera_inner oc ctx hashes c len bs tx) (do_retrieve_tessera_inner oc ctx hashes c len bs None).
Proof. unfold do_retrieve_tessera_inner. apply (same_first O), (same_join_all O). intros x. apply fetch_chunk_same. Qed.

Lemma inner_below tx hashes c len bs : below O (do_retrieve_tessera_inner oc ctx hashes c len bs None) (do_retrieve_tessera_inner oc ctx hashes c len bs tx).
Proof.
  unfold do_retrieve_tessera_inner. apply (below_bind O); [|done]. apply (below_join_all O). intros x. apply fetch_chunk_below.
Qed.
(** The resolution of the arguments, before the deadline counts. *)
Definition resolution (mh : option (list Z)) (hashes : list (list Z)) (c : ErasureConfig) (len bs : Z) :=
  match mh, hashes with
  | Some mh, [] => resolve_manifest oc ctx mh
  | _, _ => Ret (Ok (hashes, c, len, bs))
  end.
Definition resolved_body (tx : option nat) (x : res (list (list Z) * ErasureConfig * Z * Z)) : prog (res (list Z)) :=
  match x with
  | Ok (hashes, c, len, bs) => timed (do_retrieve_tessera_inner oc ctx hashes c len bs tx)
  | Err e => Ret (Err e)
  | Panic => Abort_
  end.
Lemma do_retrieve_resolution hashes c len bs mh tx :
  do_retrieve_tessera oc ctx hashes c len bs mh tx = (x ← resolution mh hashes c len bs; resolved_body tx x).
Proof. done. Qed.

Lemma resolved_refines tx x : refines O (resolved_body None x) (resolved_body tx x).
Proof.
  destruct x as [[[[hs c] len] bs]|e|]; [|done..]. destruct (inner_below tx hs c len bs) as [Hr Hc]. intros s log s' r.
  cbn [resolved_body]. intros [(a & -> & Ha)|[[-> Ha]|[-> Ha]]]%(runs_timed O).
  - apply Hr in Ha as (log' & Ha & E). exists log'. split; [|done]. apply (runs_timed O). left. by exists a.
  - apply Hr in Ha as (log' & Ha & E). exists log'. split; [|done]. apply (runs_timed O). auto.
  - apply Hc in Ha as (log' & Ha & E). exists log'. split; [|done]. apply (runs_timed O). auto.
Qed.

Lemma resolved_back tx x s log s' r :
  runs O (resolved_body tx x) s log s' r → r = Some (Err Timeout) ∨
    ∃ log', runs O (resolved_body None x) s log' s' r ∧ unreported log' = unreported log.
Proof.
  destruct x as [[[[hs c] len] bs]|e|]; [|by eauto..]. destruct (inner_same tx hs c len bs) as [Hr _].
  cbn [resolved_body]. intros [(a & -> & Ha)|[[-> Ha]|[-> Ha]]]%(runs_timed O); [right|right|by left];
    apply Hr in Ha as (log' & Ha & E); exists log'; (split; [|done]); apply (runs_timed O); eauto.
Qed.

Lemma same_behaviour {A} (p q : prog A) s log s' r : same O p q → behaviour O p s log s' r ↔ behaviour O q s log s' r.
Proof.
  intros [Ha Hb]. rewrite !(behaviour_runs O). split; intros (l & Hl & ->).
  - apply Ha in Hl as (l' & Hl & E). exists l'. by rewrite E.
  - apply Hb in Hl as (l' & Hl & E). exists l'. by rewrite E.
Qed.

End bodies.

(** ** What is reported *)
(** A body that makes no report. *)
Fixpoint mute {A} (p : prog A) : Prop :=
  match p with
  | Ret _ | Abort_ => True
  | Atomic f k => ∀ b, mute (k b)
  | Send a m k => ∀ r, mute (k r)
  | SendAny l m k => ∀ r, mute (k r)
  | Reply a m k => ∀ r, mute (k r)
  | Spawn t k => mute k
  | Report _ _ _ => False
  end.

Lemma mute_bind {A B} (p : prog A) (f : A → prog B) : mute p → (∀ a, mute (f a)) → mute (p ≫= f).
Proof. intros Hp Hf. induction p; cbn in *; auto. Qed.
Lemma mute_catch {A} (p : prog A) : mute p → mute (catch p).
Proof. induction p; cbn in *; auto. Qed.
Lemma mute_join_all {A B} (l : list A) (f : A → prog B) : (∀ x, mute (f x)) → mute (join_all l f).
Proof. intros Hf. induction l as [|x l IH]; [done|]. cbn [join_all]. apply mute_bind; [apply Hf|]. intros y. by apply mute_bind. Qed.
Lemma mute_for_each {A} (l : list A) (f : A → prog ()) : (∀ x, mute (f x)) → mute (for_each l f).
Proof. intros Hf. induction l as [|x l IH]; [done|]. cbn [for_each]. by apply mute_bind. Qed.
Lemma mute_first_some {A B} (l : list A) (f : A → prog (option B)) : (∀ x, mute (f x)) → mute (first_some l f).
Proof. intros Hf. induction l as [|x l IH]; [done|]. cbn [first_some]. apply mute_bind; [apply Hf|]. by intros []. Qed.
Lemma mute_send_any addrs m : mute (send_request_any addrs m).
Proof. by destruct addrs as [|? []]. Qed.
Lemma mute_lift {A} (r : res A) : mute (lift r).
Proof. by destruct r. Qed.

(** Case analysis down to the actions. *)
Ltac mute := repeat first
  [ done | apply mute_send_any | apply mute_lift | apply mute_catch | apply mute_join_all; intros ? | apply mute_for_each; intros ?
  | apply mute_first_some; intros ? | apply mute_bind; [|intros ?] | case_match ].

Section quiet.
Context `{Sha256} `{Ed25519} `{ReedSolomon} `{Hex} `{Json (list SocketAddr)}.
Context `{Serde Payload} `{Serde Message} `{Serde TesseraManifest}.
Context (oc : bool) (ctx : HandlerContext).

Lemma find_node_mute target : mute (do_iterative_find_node ctx target).
Proof.
  unfold do_iterative_find_node. mute. generalize [c_node_id ctx]. generalize MAX_ROUNDS. intros n. revert a.
  induction n as [|n IH]; intros l queried; cbn [find_node_rounds]; [done|]. unfold query_batch, send_find_node, reach_peer, try_relay, insert_node. mute.
Qed.

Lemma fetch_shard_mute h : mute (fetch_shard oc ctx h).
Proof. unfold fetch_shard, local_chunk. mute. Qed.

Lemma resolution_mute mh hashes c len bs : mute (resolution oc ctx mh hashes c len bs).
Proof. unfold resolution, resolve_manifest, fetch_manifest, local_chunk. mute. apply find_node_mute. Qed.

Lemma put_all_mute l : mute (put_all oc l).
Proof. induction l as [|[h d] l IH]; [done|]. cbn [put_all]. mute. Qed.

Lemma store_block_mute failed addr e : mute (store_block oc ctx failed addr e).
Proof. unfold store_block, distribute_block, distribute_chunk, announce_chunk. mute. apply put_all_mute. Qed.

Lemma finish_store_mute addr data c hashes handles : mute (finish_store oc ctx addr data c hashes handles).
Proof.
  unfold finish_store, run_distribution. mute.
  - generalize (0%nat, @nil NodeId). induction a as [|x l IH]; intros acc; [done|]. cbn [settle_all]. unfold settle. mute; apply IH.
  - unfold store_manifest, put_local, spread_manifest, spread. mute.
Qed.
End quiet.

Section telling.
Context (O : (NodeState → NodeState) → Prop) `{!Others O}.

(** The reports of [p] and its result satisfy [Q]; a body that panics or is dropped has none ([None]). *)
Definition tells {A} (p : prog A) (Q : option A → list (nat * Progress) → Prop) : Prop :=
  (∀ s log s' r, runs O p s log s' r → Q r (reports_of log)) ∧ ∀ s log s', cut O p s log s' → Q None (reports_of log).

Lemma reports_app l k : reports_of (l ++ k) = reports_of l ++ reports_of k.
Proof. apply omap_app. Qed.

Lemma acts_mute {A} (p : prog A) s s' e p' : mute p → acts nothing p s s' e p' → reports_of e = [] ∧ mute p'.
Proof. destruct p; cbn; naive_solver. Qed.

Lemma tells_mute {A} (p : prog A) Q : mute p → (∀ r, Q r []) → tells p Q.
Proof.
  intros Hp HQ. assert ((∀ s log s' r, runs O p s log s' r → reports_of log = []) ∧ ∀ s log s', cut O p s log s' → reports_of log = []) as [H1 H2].
  { split; intros s log s'.
    - intros r Hr. revert Hp. induction Hr as [a s s' H|s s' H|p s s1 s2 e p' log s' r H Ha Hr IH]; intros Hp; [done..|].
      destruct (acts_mute _ _ _ _ _ Hp Ha) as [He Hp']. by rewrite reports_app, He, IH.
    - intros Hr. revert Hp. induction Hr as [p s s' H|p s s1 s2 e p' log s' H Ha Hr IH]; intros Hp; [done..|].
      destruct (acts_mute _ _ _ _ _ Hp Ha) as [He Hp']. by rewrite reports_app, He, IH. }
  split; [intros s log s' r Hr; by rewrite (H1 _ _ _ _ Hr)|intros s log s' Hr; by rewrite (H2 _ _ _ Hr)].
Qed.

Lemma tells_ret {A} (a : A) (Q : option A → list (nat * Progress) → Prop) : Q (Some a) [] → tells (Ret a) Q.
Proof. intros HQ. split; [by intros s log s' r (_ & -> & ->)%runs_ret_inv|by intros s log s' ?%cut_ret_inv]. Qed.

Lemma tells_abort {A} (Q : option A → list (nat * Progress) → Prop) : Q None [] → tells Abort_ Q.
Proof. intros HQ. split; [by inversion 1|by inversion 1]. Qed.

Lemma tells_mono {A} (p : prog A) (Q Q' : option A → list (nat * Progress) → Prop) : (∀ r l, Q r l → Q' r l) → tells p Q → tells p Q'.
Proof. intros HQ [H1 H2]. split; eauto. Qed.

Lemma tells_bind {A B} (p : prog A) (f : A → prog B) (Q : option A → list (nat * Progress) → Prop) Q' :
  tells p Q → (∀ a l, Q (Some a) l → tells (f a) (λ r l', Q' r (l ++ l'))) → (∀ l, Q None l → Q' None l) → tells (p ≫= f) Q'.
Proof.
  intros [H1 H2] Hf Hn. split.
  - intros s log s' r [(a & s1 & l1 & l2 & Hp & Ha & ->)|[Hp ->]]%(runs_bind O); [|by eapply Hn, H1].
    rewrite reports_app. apply (Hf a _ (H1 _ _ _ _ Hp)) in Ha. exact Ha.
  - intros s log s' [Hp|(a & s1 & l1 & l2 & Hp & Ha & ->)]%(cut_bind O); [by eapply Hn, H2|].
    rewrite reports_app. apply (Hf a _ (H1 _ _ _ _ Hp)) in Ha. exact Ha.
Qed.

Definition told (progress_tx : option nat) (l : list Progress) : list (nat * Progress) :=
  match progress_tx with Some tx => pair tx <$> l | None => [] end.
(** A beginning of [all]; the whole of it when the result is [ok]. *)
Definition upto {A} (ok : A → Prop) (all : list (nat * Progress)) (r : option A) (l : list (nat * Progress)) : Prop :=
  l `prefix_of` all ∧ ∀ a, r = Some a → ok a → l = all.

Lemma told_app tx l k : told tx (l ++ k) = told tx l ++ told tx k.
Proof. destruct tx; [apply fmap_app|done]. Qed.

Lemma upto_app {A} (ok : A → Prop) l all r l' : upto ok all r l' → upto ok (l ++ all) r (l ++ l').
Proof. intros [Hp Ha]. split; [by apply prefix_app|]. intros a Hr Hok. by rewrite (Ha a Hr Hok). Qed.

Lemma upto_none {A} (ok : A → Prop) l all : l `prefix_of` all → upto ok all None l.
Proof. by split. Qed.

Lemma tells_report {A} (ok : A → Prop) tx p all (k : () → prog A) :
  tells (k ()) (upto ok all) → tells (report tx p ≫= k) (upto ok (told tx [p] ++ all)).
Proof.
  intros Hk. apply (tells_bind _ _ (λ r l, l `prefix_of` told tx [p] ∧ (r ≠ None → l = told tx [p]))).
  - destruct tx as [tx|]; [|apply tells_mute; [done|by split]]. split.
    + intros s log s' r (s1 & log' & _ & -> & (_ & -> & ->)%runs_ret_inv)%(runs_report O). by split.
    + intros s log s' Hc. remember (report (Some tx) p) as q eqn:E. destruct Hc as [q s s' H|q s s1 s2 e p' log s' H Ha Hc]; [split; [apply prefix_nil|done]|].
      subst q. destruct Ha as (_ & -> & ->). by apply cut_ret_inv in Hc.
  - intros [] l [_ Hl]. rewrite (Hl ltac:(done)). eapply tells_mono; [|exact Hk]. intros r l'. apply upto_app.
  - intros l [Hl _]. apply upto_none. by apply prefix_app_r.
Qed.

(** Without reports of its own. *)
Lemma tells_after_mute {A B} (p : prog A) (f : A → prog B) (ok : B → Prop) all :
  mute p → (∀ a, tells (f a) (upto ok all)) → tells (p ≫= f) (upto ok all).
Proof.
  intros Hp Hf. apply (tells_bind _ _ (λ _ l, l = [])); [by apply tells_mute|by intros a l ->|]. intros l ->. apply upto_none, prefix_nil.
Qed.

(** A body that fails. *)
Lemma tells_failing {A} (p : prog A) (ok : A → Prop) all :
  mute p → (∀ s log s' a, runs O p s log s' (Some a) → ¬ ok a) → tells p (upto ok all).
Proof.
  intros Hp Ha. destruct (tells_mute p (λ _ l, l = []) Hp ltac:(done)) as [H1 H2]. split.
  - intros s log s' r Hr. rewrite (H1 _ _ _ _ Hr). split; [apply prefix_nil|]. intros a -> Hok. by eapply Ha in Hr.
  - intros s log s' Hr. rewrite (H2 _ _ _ Hr). apply upto_none, prefix_nil.
Qed.
End telling.

(** ** The order of the reports *)
Definition block_reports (num_blocks i : nat) : list Progress :=
  OfStore <$> [Encoding i num_blocks; Distributing i num_blocks; BlockComplete i num_blocks].
Definition chunk_reports (total_chunks i : nat) : list Progress :=
  OfRetrieve <$> [Fetching i total_chunks; ChunkComplete i total_chunks].
Definition all_reports (f : nat → nat → list Progress) (n : nat) : list Progress := concat (f n <$> seq 0 n).

Section order.
Context (O : (NodeState → NodeState) → Prop) `{!Others O}.
Context `{Sha256} `{Ed25519} `{ReedSolomon} `{Hex} `{Json (list SocketAddr)}.
Context `{Serde Payload} `{Serde Message} `{Serde TesseraManifest}.
Context (oc : bool) (ctx : HandlerContext).

Lemma detach_fails {A} handles (e : TesseraError) all :
  tells O (_ ← detach handles; Ret (Err e)) (upto (λ r : res A, is_ok r = true) all).
Proof.
  apply (tells_failing O); [unfold detach; mute|]. intros s log s' a [(? & ? & ? & ? & _ & (_ & _ & [= ->])%runs_ret_inv & _)|[_ [=]]]%(runs_bind O). done.
Qed.

Lemma store_blocks_tells tx nb failed addr data c bs blocks hashes handles :
  tells O (store_blocks oc ctx tx nb failed addr data c bs blocks hashes handles)
    (upto (λ r, is_ok r = true) (told tx (concat (block_reports nb <$> blocks)))).
Proof.
  revert hashes handles. induction blocks as [|i blocks IH]; intros hashes handles.
  { apply (tells_mute O); [done|]. intros r. split; [apply prefix_nil|]. cbn. by destruct tx. }
  rewrite fmap_cons. cbn [store_blocks concat]. rewrite told_app.
  change (block_reports nb i) with ([OfStore (Encoding i nb)] ++ [OfStore (Distributing i nb)] ++ [OfStore (BlockComplete i nb)]).
  rewrite !told_app, <-!(assoc_L (++)). apply (tells_report O). destruct (encode oc (slice data bs i) c) as [e|err|]; [|apply detach_fails..].
  apply (tells_report O), (tells_after_mute O); [apply store_block_mute|]. intros [more|err|]; [|apply detach_fails|by apply (tells_failing O); [|inversion 1]].
  apply (tells_report O), IH.
Qed.

Lemma do_store_tells data c tx nb :
  (if (length data =? 0)%nat then Ok 1%nat else div_ceil (length data) DEFAULT_BLOCK_SIZE) = Ok nb :> res nat →
  tells O (do_store_tessera oc ctx data c tx) (upto (λ r, is_ok r = true) (told tx (all_reports block_reports nb))).
Proof.
  intros Hnb. unfold do_store_tessera, best_addr. apply (tells_after_mute O); [mute|]. intros addr. rewrite Hnb.
  eapply (tells_bind O); [apply store_blocks_tells| |intros l [Hl _]; by apply upto_none].
  intros [[hs hdl]|e|] l [Hl Hok]; cbn [is_ok] in *.
  - rewrite (Hok _ eq_refl eq_refl). apply (tells_mute O); [apply finish_store_mute|]. intros r. rewrite app_nil_r. by split.
  - apply (tells_ret O). rewrite app_nil_r. split; [done|]. by intros a [= <-].
  - apply (tells_abort O). rewrite app_nil_r. by apply upto_none.
Qed.

Lemma fetch_chunks_tells tx n l :
  tells O (join_all l (fetch_chunk oc ctx tx n)) (upto (λ _, True) (told tx (concat (chunk_reports n <$> l.*1)))).
Proof.
  induction l as [|[i h] l IH]; cbn [join_all fmap list_fmap concat fst].
  { apply (tells_ret O). split; [apply prefix_nil|]. by destruct tx. }
  rewrite told_app. eapply (tells_bind O _ _ (upto (λ _, True) (told tx (chunk_reports n i)))).
  - change (chunk_reports n i) with ([OfRetrieve (Fetching i n)] ++ [OfRetrieve (ChunkComplete i n)] ++ []). rewrite !told_app.
    unfold fetch_chunk. apply (tells_report O), (tells_after_mute O); [apply fetch_shard_mute|]. intros shard.
    apply (tells_report O), (tells_ret O). split; [apply prefix_nil|]. by destruct tx.
  - intros a l0 [_ Ha]. rewrite (Ha a eq_refl I). eapply (tells_bind O); [exact IH| |intros l1 [Hl _]; apply upto_none; by apply prefix_app].
    intros ys l1 [_ Hys]. rewrite (Hys ys eq_refl I). apply (tells_ret O). rewrite app_nil_r. by split.
  - intros l0 [Hl _]. apply upto_none. by apply prefix_app_r.
Qed.

Lemma inner_tells hashes c len bs tx :
  tells O (do_retrieve_tessera_inner oc ctx hashes c len bs tx) (upto (λ _, True) (told tx (all_reports chunk_reports (length hashes)))).
Proof.
  unfold do_retrieve_tessera_inner, all_reports. eapply (tells_bind O); [apply fetch_chunks_tells| |].
  - intros shards l [_ Hl]. rewrite (Hl _ eq_refl I). rewrite fst_zip by (by rewrite length_seq). apply (tells_mute O); [apply mute_lift|].
    intros r. rewrite app_nil_r. by split.
  - intros l [Hl _]. rewrite fst_zip in Hl by (by rewrite length_seq). by apply upto_none.
Qed.

Lemma resolved_reports hashes c len bs tx s log s' r :
  runs O (resolved_body oc ctx tx (Ok (hashes, c, len, bs))) s log s' r →
  upto (λ r, is_ok r = true) (told tx (all_reports chunk_reports (length hashes))) r (reports_of log).
Proof.
  destruct (inner_tells hashes c len bs tx) as [H7 H8]. cbn [resolved_body].
  intros [(a & -> & Hr)|[[-> Hr]|[-> Hr]]]%(runs_timed O).
  - destruct (H7 _ _ _ _ Hr) as [Hl Ha]. split; [done|]. intros b [= <-] _. by apply (Ha a).
  - apply H7 in Hr as [Hl _]. by apply upto_none.
  - apply H8 in Hr as [Hl _]. split; [done|]. by intros a [= <-].
Qed.

Lemma do_retrieve_reports hashes c len bs mh tx s log s' r :
  runs O (do_retrieve_tessera oc ctx hashes c len bs mh tx) s log s' r →
  ∃ n, (mh = None ∨ hashes ≠ [] → n = length hashes) ∧
    upto (λ r, is_ok r = true) (told tx (all_reports chunk_reports n)) r (reports_of log).
Proof.
  rewrite do_retrieve_resolution. destruct (tells_mute O _ (λ _ l, l = []) (resolution_mute oc ctx mh hashes c len bs) ltac:(done)) as [H7 _].
  intros [(x & s1 & l1 & l2 & Ha & Hb & ->)|[Ha ->]]%(runs_bind O).
  - rewrite reports_app, (H7 _ _ _ _ Ha). cbn [app]. destruct x as [[[[hs c'] len'] bs']|e|]; [|exists (length hashes); split; [done|]..].
    + exists (length hs). split; [|by eapply resolved_reports]. intros Hm. unfold resolution in Ha.
      destruct mh as [mh|]; [destruct hashes as [|h hashes]; [by destruct Hm|]|]; cbv beta iota in Ha; by apply (runs_ret_inv O) in Ha as (_ & _ & [= -> _ _ _]).
    + apply runs_ret_inv in Hb as (_ & -> & ->). split; [apply prefix_nil|]. by intros a [= <-].
    + apply (runs_abort_inv O) in Hb as (_ & -> & ->). apply upto_none, prefix_nil.
  - exists (length hashes). split; [done|]. rewrite (H7 _ _ _ _ Ha). by apply upto_none, prefix_nil.
Qed.
End order.

#[export] Instance any_others : Others (λ _, True).
Proof. by split. Qed.

(** ** The theorems *)
Section theorems.
Context `{Sha256} `{Ed25519} `{ReedSolomon} `{Hex} `{Json (list SocketAddr)}.
Context `{Serde Payload} `{Serde Message} `{Serde TesseraManifest}.
Context (oc : bool) (ctx : HandlerContext).

End theorems.

(** ** Concrete reports *)
Definition alone (f : NodeState → NodeState) : Prop := ∀ s, f s = s.
#[export] Instance alone_others : Others alone.
Proof. split; [done|]. intros f g Hf Hg s. unfold compose. by rewrite Hg. Qed.

Lemma sample_start : mkWorld 0 (w_state (sample_world [])) [] = sample_world [].
Proof. reflexivity. Qed.


