(* ===== verification/Availability.v ===== *)
(** * Retrieving what is partly lost

    When a retrieval succeeds.  A chunk can be obtained if it is on the node's own disk, or if one of
    the peers that the node asks for it has it and answers; all other peers may fail or lie, and
    all other files be damaged.  As many chunks of each block as the code has data shards are enough. *)
From S2P Require Import Prelude.
From S2P Require Import Errors.
From S2P Require Import Bytes.
From S2P Require Import External.
From S2P Require Import Identity.
From S2P Require Import Net.
From S2P Require Import Samples.
From S2P Require Import Bucket.
From S2P Require Import Table.
From S2P Require Import TableBounds.
From S2P Require Import Erasure.
From S2P Require Import Chunks.
From S2P Require Import Metadata.
From S2P Require Import RateLimit.
From S2P Require Import Message.
From S2P Require Import Race.
From S2P Require Import Actor.
From S2P Require Import Context.
From S2P Require Import Retrieve.

(** ** The first valid answer *)
Lemma completion_order_elem {A} amb (l : list A) x : x ∈ l → x ∈ completion_order amb l.
Proof.
  intros [i Hi]%list_elem_of_lookup. unfold completion_order. apply list_elem_of_fmap. exists (i, x). split; [done|].
  apply elem_of_sort_by, (list_elem_of_lookup_2 _ i). apply lookup_zip_Some. split; [|done].
  apply lookup_seq. split; [done|]. by eapply lookup_lt_Some.
Qed.

Lemma head_omap_unique {A} (l : list (option A)) x :
  Some x ∈ l → (∀ y, Some y ∈ l → y = x) → head (omap id l) = Some x.
Proof.
  induction l as [|[a|] l IH]; intros Hx Hall; [by apply elem_of_nil in Hx|..]; cbn.
  - f_equal. apply Hall. left.
  - apply elem_of_cons in Hx as [|Hx]; [done|]. apply IH; [done|]. intros y Hy. apply Hall. by right.
Qed.

Section availability.
Context `{Sha256} `{Ed25519} `{RS : ReedSolomon} `{Hex} `{Serde Payload} `{Serde Message} `{Serde TesseraManifest}.
Context (oc : bool) (ctx : HandlerContext) (base : path) (P : list Z → Prop) (o : Oracle).
Notation config := (c_config ctx).

(** A peer with the one address [a] is among those that a fetch of the chunk [h] asks. *)
Definition asked (s : NodeState) (h : list Z) (a : SocketAddr) : Prop :=
  ∃ n, n ∈ filter (λ n, has_addresses ctx n = true)
        (take (cfg_k config) (closest_nodes (n_routing_table s) (from_bytes h) (cfg_k config))) ∧ ni_addresses n = [a].
(** Whoever is at [a] answers each request of the node for the chunk [x] with it. *)
Definition serves (a : SocketAddr) (x : list Z) : Prop :=
  x ≠ [] ∧ ∀ i m, outgoing ctx m → m_payload m = GetChunkRequest (sha256 x) → ∃ resp, net o i a m = Ok resp ∧ m_payload resp = GetChunkResponse x.
Definition on_disk (c : ChunkStore) (x : list Z) : Prop :=
  base_path c = base ∧ disk c !! chunk_path base (sha256 x) = Some x.

(** The chunks [held] are on the disk, and the peers that keep the chunks of [kept], each with its address, are asked. *)
Context (held : list (list Z)) (kept : list (list Z * SocketAddr)).
Record obtainable (s : NodeState) : Prop := {
  ob_held : ∀ x, x ∈ held → on_disk (n_chunks s) x;
  ob_kept : ∀ x a, (x, a) ∈ kept → asked s (sha256 x) a;
}.

Lemma chunk_get_on_disk f c h x : array_ok 32 h → on_disk c x → on_disk (chunk_get f c h).1 x.
Proof.
  intros Hh [Hb Hx]. unfold chunk_get, get_sync. rewrite Hb. destruct (disk c !! chunk_path base h) as [data|] eqn:E; [|done].
  destruct (f_read f); [done|]. case_bool_decide as Hd; [done|]. cbn [negb]. destruct (f_remove f); [done|]. split; [done|]. cbn.
  rewrite lookup_delete_ne; [done|]. intros Heq. rewrite Heq in E. assert (data = x) as -> by congruence.
  apply Hd. apply (chunk_path_inj base); [apply sha256_ok|done|done].
Qed.

Lemma chunk_put_on_disk f c h d x : on_disk c x → on_disk (chunk_put oc f c h d).1 x.
Proof.
  intros [Hb Hx]. unfold chunk_put, put_sync. destruct (MAX_CHUNK_SIZE <? size_of d); [done|]. case_bool_decide; [|done]. cbn [negb].
  rewrite Hb. destruct (disk c !! chunk_path base h) eqn:E; [done|].
  assert (∀ s v, on_disk s x → disk s !! chunk_path base h = None → on_disk (write_file s (chunk_path base h) v) x) as Hw.
  { intros s v [Hb' Hx'] E'. split; [done|]. cbn. rewrite lookup_insert_ne; [done|]. intros Heq. congruence. }
  destruct (usize_arith _ _); [|done|done]. destruct (max_storage _ <? a); [done|].
  destruct (f_mkdir f), (f_write f); try done; [|by apply Hw]. unfold left_over. destruct (f_left f); [|done]. by apply (Hw (fetch_add c (size_of d))).
Qed.
Lemma obtainable_chunks s c :
  obtainable s → (∀ x, on_disk (n_chunks s) x → on_disk c x) → obtainable (set_chunks s c).
Proof. intros [Hh Hk] Hc. split; [intros x Hx; by apply Hc, Hh|exact Hk]. Qed.

(** A fetch loses nothing. *)
Lemma fetch_remote_keeps R h : safe_if R obtainable (λ _, True) (λ _, True) (fetch_remote ctx h).
Proof.
  apply safe_get. intros s _. apply safe_bind.
  apply (safe_mono _ (λ _, True) _ (Forall (λ _, True))); [done| |].
  - intros answers _ amb s1 _ Hs1. by split.
  - apply safe_join_all. intros n _ amb s1 _ Hs1. split; [done|]. by apply safe_send_any.
Qed.

Lemma fetch_shard_keeps R h : array_ok 32 h → safe_if R obtainable (λ _, True) (λ _, True) (fetch_shard oc ctx h).
Proof.
  intros Hh. unfold fetch_shard, local_chunk. apply safe_bind, safe_atomic. intros amb s _ Hs.
  pose proof (obtainable_chunks s (chunk_get (am_fs amb) (n_chunks s) h).1 Hs (λ x, chunk_get_on_disk _ _ _ _ Hh)) as Hget.
  destruct (chunk_get _ _ h) as [c r]. split; [exact Hget|]. cbn [safe_if snd].
  assert (safe_if R obtainable (λ _, True) (λ _, True) (
    shard ← fetch_remote ctx h;
    match shard with
    | Some data => _ ← atomic (λ amb s, let '(c, r) := chunk_put oc (am_fs amb) (n_chunks s) h data in (set_chunks s c, r)); Ret (Some data)
    | None => Ret None
    end)) as Hrem; [|by destruct r as [[data|]|e|]].
  apply safe_bind. eapply safe_mono; [done| |apply fetch_remote_keeps]. intros [data|] _; [|done].
  apply safe_atomic. intros amb2 s2 _ Hs2.
  pose proof (obtainable_chunks s2 (chunk_put oc (am_fs amb2) (n_chunks s2) h data).1 Hs2 (λ x, chunk_put_on_disk _ _ _ _ _)) as Hput.
  by destruct (chunk_put _ _ _ _ _) as [c' r'].
Qed.

Context (Hinj : one_to_one P) (Hmeet : meets (in_play P) o) (Hserve : ∀ x a, (x, a) ∈ kept → serves a x).
Context (Hread : held ≠ [] → ∀ i, f_read (am_fs (ambient o i)) = None).
Notation inv s := (node_inv (disk_in P) ctx s ∧ obtainable s).
Context (Ho : preserves (λ s, inv s) o).

(** A chunk, or none; and a chunk that can be obtained. *)
Definition chunk_result (x : list Z) (r : option (list Z)) : Prop :=
  (r = None ∨ r = Some x) ∧ (x ∈ held ++ kept.*1 → r = Some x).

Lemma local_chunk_leads x :
  P x → leads o (λ s, inv s) (local_chunk (sha256 x)) (λ r s, ((r = None ∨ r = Some x) ∧ (x ∈ held → r = Some x)) ∧ inv s).
Proof.
  intros Hx. apply leads_atomic; [done|]. intros i s [Hs Hob].
  destruct (chunk_get_in P (am_fs (ambient o i)) (n_chunks s) (sha256 x) (no_chunks Hs)) as [Hd Hr].
  pose proof (chunk_get_on_disk (am_fs (ambient o i)) (n_chunks s) (sha256 x)) as Hk.
  assert (x ∈ held → (chunk_get (am_fs (ambient o i)) (n_chunks s) (sha256 x)).2 = Ok (Some x)) as Hhas.
  { intros Hin. destruct (ob_held _ Hob x Hin) as [Hb Hl]. unfold chunk_get, get_sync. rewrite Hb, Hl.
    rewrite Hread by (by intros E; rewrite E in Hin; apply elem_of_nil in Hin). by rewrite bool_decide_eq_true_2. }
  destruct (chunk_get _ _ (sha256 x)) as [c r]. cbn [fst snd] in *. apply leads_ret. intros s' ->. split; [split|].
  - destruct r as [[d|]|e|]; [right|by left..]. f_equal. destruct (Hr d eq_refl) as [HP Hh]. by apply Hinj.
  - intros Hin. by rewrite (Hhas Hin).
  - split; [by apply (set_chunks_inv ctx P)|]. apply obtainable_chunks; [done|]. intros y. apply Hk, sha256_ok.
Qed.

(** The peer that serves the chunk answers with it. *)
Lemma fetch_from_server x n a :
  ni_addresses n = [a] → serves a x → leads o (λ _, True) (fetch_from ctx (sha256 x) n) (λ r _, r = Some x).
Proof.
  intros Ha [Hne Hs]. unfold fetch_from. rewrite Ha. intros w _. cbn [signed_message new_message fresh_message atomic mbind prog_mbind prog_bind send_request_any send_request run].
  match goal with |- context [net o ?i a ?m] => destruct (Hs i m) as (resp & -> & ->) end.
  { by apply outgoing_sign. }
  { unfold sign. by destruct (signing_bytes _). }
  eexists _, _. split; [reflexivity|]. by rewrite bool_decide_eq_false_2, bool_decide_eq_true_2.
Qed.

Definition answer_of (x : list Z) (n : NodeInfo) (r : option (list Z)) : Prop :=
  (r = None ∨ r = Some x) ∧ ∀ a, ni_addresses n = [a] → serves a x → r = Some x.

Lemma fetch_from_leads x n : P x → leads o (λ s, inv s) (fetch_from ctx (sha256 x) n) (λ r s, answer_of x n r ∧ inv s).
Proof.
  intros Hx w Hw.
  assert (safe_if (in_play P) obtainable (λ _, True) (λ _, True) (fetch_from ctx (sha256 x) n)) as Hk
    by (intros amb s _ Hs; split; [done|]; by apply safe_send_any).
  destruct (leads_safe (in_play P) o _ _ _ _ id Hmeet Ho (safe_and _ _ _ _ _ _ _ (fetch_from_safe ctx P (sha256 x) n) Hk) w Hw)
    as (r & w' & E & [Hr _] & Hw'). exists r, w'. split; [done|]. split; [|done]. split.
  - by apply (obtained_exact P (sha256 x) x r).
  - intros a Ha Hs. destruct (fetch_from_server x n a Ha Hs w I) as (r' & w'' & E' & ->). congruence.
Qed.

Lemma fetch_remote_leads x :
  P x → leads o (λ s, inv s) (fetch_remote ctx (sha256 x)) (λ r s, ((r = None ∨ r = Some x) ∧ (x ∈ kept.*1 → r = Some x)) ∧ inv s).
Proof.
  intros Hx. apply leads_atomic; [done|]. intros i s Hs. cbn [fst snd].
  assert (x ∈ kept.*1 → ∃ a, asked s (sha256 x) a ∧ serves a x) as Hkeep.
  { intros ([y a] & -> & Hin)%list_elem_of_fmap. exists a. split; [by apply (ob_kept _ (proj2 Hs))|by apply Hserve]. }
  apply (leads_pre _ _ (λ s, inv s)); [by intros ? ->|].
  eapply leads_bind; [apply (leads_join_all2 o (λ s, inv s) (answer_of x)); intros n _; by apply fetch_from_leads|].
  intros answers. apply leads_pure. intros Hall. unfold asked in Hkeep.
  apply (leads_atomic o (λ s, inv s) _ Ret); [done|]. intros j s1 Hs1. apply leads_ret. intros s2 ->. split; [|done]. cbn [snd].
  assert (∀ y, Some y ∈ answers → y = x) as Hy.
  { intros y [k Hk]%list_elem_of_lookup. destruct (Forall2_lookup_r _ _ _ _ _ Hall Hk) as (n & _ & [[|Hn] _]); [done|congruence]. }
  split.
  - destruct (head _) as [y|] eqn:E; [right|by left]. f_equal. by apply Hy, elem_of_completion_order with (amb := ambient o j), head_omap_elem.
  - intros Hin. destruct (Hkeep Hin) as (a & (n & [k Hn]%list_elem_of_lookup & Ha) & Hs'). apply head_omap_unique.
    + destruct (Forall2_lookup_l _ _ _ _ _ Hall Hn) as (r & Hr & [_ Hans]). rewrite (Hans a Ha Hs') in Hr.
      apply completion_order_elem. by eapply list_elem_of_lookup_2.
    + intros y Hy'. by apply Hy, elem_of_completion_order with (amb := ambient o j).
Qed.
Lemma put_fetched x h :
  P x → leads o (λ s, inv s) (atomic (λ amb s, let '(c, r) := chunk_put oc (am_fs amb) (n_chunks s) h x in (set_chunks s c, r))) (λ _ s, inv s).
Proof.
  intros Hx. apply (leads_atomic o (λ s, inv s) _ Ret); [done|]. intros i s [Hs Hob]. apply leads_ret. intros s' ->.
  pose proof (chunk_put_in P oc (am_fs (ambient o i)) (n_chunks s) h x (no_chunks Hs) Hx) as Hin.
  pose proof (obtainable_chunks s (chunk_put oc (am_fs (ambient o i)) (n_chunks s) h x).1 Hob (λ y, chunk_put_on_disk _ _ _ _ _)) as Hput.
  pose proof (proj2 (proj2 Hmeet) i) as Ham. destruct (chunk_put _ _ _ _ _) as [c r]. split; [|exact Hput].
  apply (set_chunks_inv ctx P); [done|]. by apply Hin.
Qed.

Lemma fetch_shard_leads x : P x → leads o (λ s, inv s) (fetch_shard oc ctx (sha256 x)) (λ r s, chunk_result x r ∧ inv s).
Proof.
  intros Hx. unfold fetch_shard, chunk_result. eapply leads_bind; [by apply local_chunk_leads|].
  intros [y|]; apply leads_pure; intros [Hy Hh].
  - apply leads_ret. intros s Hs. destruct Hy as [|[= ->]]; [done|]. split; [|done]. split; [by right|done].
  - eapply leads_bind; [by apply fetch_remote_leads|]. intros [y|]; apply leads_pure; intros [Hr Hk].
    + destruct Hr as [|[= ->]]; [done|]. eapply leads_bind; [by apply put_fetched|]. intros u. apply leads_ret. intros s Hs.
      split; [|done]. split; [by right|done].
    + apply leads_ret. intros s Hs. split; [|done]. split; [by left|]. intros [Hin|Hin]%elem_of_app; [by apply Hh in Hin|by apply Hk in Hin].
Qed.

Lemma fetch_chunk_leads tx n i x :
  P x → leads o (λ s, inv s) (fetch_chunk oc ctx tx n (i, sha256 x)) (λ r s, chunk_result x r ∧ inv s).
Proof.
  intros Hx. apply leads_report; [done|]. eapply leads_bind; [by apply fetch_shard_leads|]. intros r. apply leads_pure. intros Hr.
  apply leads_report; [done|]. apply leads_ret. intros s Hs. by split.
Qed.

Lemma fetch_chunks_leads tx n (l : list (list Z)) :
  Forall P l →
  leads o (λ s, inv s) (join_all (zip (seq 0 (length (sha256 <$> l))) (sha256 <$> l)) (fetch_chunk oc ctx tx n))
    (λ rs s, Forall2 chunk_result l rs ∧ inv s).
Proof.
  intros Hl. rewrite length_fmap. generalize 0%nat.
  induction Hl as [|x l Hx Hl IH]; intros k; [apply leads_ret; by split|]. cbn [length seq fmap list_fmap zip zip_with join_all].
  eapply leads_bind; [by apply fetch_chunk_leads|]. intros r. apply leads_pure. intros Hr.
  eapply leads_bind; [apply IH|]. intros rs. apply leads_pure. intros Hrs. apply leads_ret. intros s Hs. split; [by constructor|done].
Qed.

(** Enough chunks of a block. *)
Lemma present_enough l rs :
  Forall2 chunk_result l rs → (length (filter (λ x, x ∈ held ++ kept.*1) l) ≤ present rs)%nat.
Proof.
  unfold present. induction 1 as [|x r l rs [_ Hr] _ IH]; [done|]. destruct (decide (x ∈ held ++ kept.*1)) as [Hin|Hin].
  - rewrite filter_cons_True by done. rewrite (Hr Hin). cbn. lia.
  - rewrite filter_cons_False by done. destruct r; cbn; lia.
Qed.
End availability.

Section theorems.
Context `{Sha256} `{Ed25519} `{RS : ReedSolomon} `{Hex} `{Serde Payload} `{Serde Message}.
Context `{ML : SerdeLaws TesseraManifest PM}.
Context (oc : bool) (ctx : HandlerContext) (base : path) (P : list Z → Prop) (o : Oracle) (held : list (list Z)) (kept : list (list Z * SocketAddr)).
Context (d p : nat) `{!ReedSolomonLaws d p}.
Notation c := (mkConfig (Z.of_nat d) (Z.of_nat p)).
Notation inv s := (node_inv (disk_in P) ctx s ∧ obtainable ctx base held kept s).

(** The lookup that follows when the manifest is not on the disk loses nothing that can be obtained, and the other tasks keep
    the node's invariant in the meantime. *)
Definition lookup_harmless (mh : list Z) (w : world) : Prop :=
  preserves (node_inv (disk_in P) ctx) o ∧
  ∀ r w', run o (_ ← local_chunk mh; do_iterative_find_node ctx (from_bytes mh)) w = (r, w') → obtainable ctx base held kept (w_state w').
(** Where the manifest can be obtained. *)
Definition manifest_source (x : list Z) (w : world) : Prop := x ∈ held ∨ x ∈ kept.*1 ∧ lookup_harmless (sha256 x) w.

Section setting.
Context (Hc : config_ok d p) (Hinj : one_to_one P) (Hmeet : meets (in_play P) o) (Hserve : ∀ x a, (x, a) ∈ kept → serves ctx o a x).
Context (Hread : held ≠ [] → ∀ i, f_read (am_fs (ambient o i)) = None) (Hdl : ∀ i, am_deadline (ambient o i) = None).
Context (Ho : preserves (λ s, inv s) o).
Context (data : list Z) (bs : nat) (e : EncodedBlocks).
Context (Hne : data ≠ []) (Hbs : (0 < bs)%nat) (Hmax : Z.of_nat (length data) ≤ isize_max) (He : encode_blocks oc data c bs = Ok e).
Context (HP : Forall P (tessera_chunks e)).
Context (Hk : Forall (λ b, (d ≤ length (filter (λ x, x ∈ held ++ kept.*1) (et_chunks b)))%nat) (eb_blocks e)).

Lemma inner_leads tx :
  leads o (λ s, inv s) (do_retrieve_tessera_inner oc ctx (tessera_hashes e) c (Z.of_nat (length data)) (Z.of_nat bs) tx) (λ r _, r = Ok data).
Proof.
  unfold do_retrieve_tessera_inner. rewrite (tessera_hashes_of oc d p Hc data bs e Hne Hbs He).
  eapply leads_bind; [by apply (fetch_chunks_leads oc ctx base P o held kept Hinj Hmeet Hserve Hread Ho)|]. intros shards. apply leads_pure. intros Hs.
  destruct (decode_shards_cases oc d p Hc (chunk_result held kept) data bs e shards) as [->|(b & l & Hb & Hl & _ & Hlt & _)];
    [by intros x s []|done..|by apply leads_ret|].
  exfalso. apply present_enough in Hl. rewrite Forall_forall in Hk. specialize (Hk b Hb). lia.
Qed.

Lemma resolved_leads tx :
  leads o (λ s, inv s) (
    deadline ← atomic (λ amb s, (s, am_deadline amb));
    r ← timeout deadline (do_retrieve_tessera_inner oc ctx (tessera_hashes e) c (Z.of_nat (length data)) (Z.of_nat bs) tx);
    Ret (default (Err Timeout) r)) (λ r _, r = Ok data).
Proof.
  apply leads_atomic; [done|]. intros i s Hs. cbn [fst snd]. rewrite Hdl. cbn [timeout].
  apply (leads_pre _ _ (λ s, inv s)); [by intros ? ->|]. eapply (leads_bind _ _ _ _ (λ r _, r = Some (Ok data))).
  - eapply leads_bind; [apply inner_leads|]. intros r. apply leads_ret. by intros s' ->.
  - intros r. apply leads_ret. by intros s' ->.
Qed.

(** The manifest, from the disk, or from a peer after a lookup of its hash. *)
Lemma fetch_manifest_run x w :
  P x → manifest_source x w → inv (w_state w) →
  ∃ w', run o (fetch_manifest ctx (sha256 x)) w = (Some (Some x), w') ∧ inv (w_state w').
Proof.
  intros Hx Hsrc Hw. destruct (local_chunk_leads ctx base P o held kept Hinj Hread Ho x Hx w Hw) as (r & w1 & E1 & [Hy Hh] & Hw1).
  unfold fetch_manifest. rewrite run_bind, E1. destruct r as [y|].
  { destruct Hy as [|[= ->]]; [done|]. by exists w1. }
  destruct Hsrc as [Hin|[Hin [Hpres Hlook]]]; [by apply Hh in Hin|]. rewrite run_bind.
  destruct (leads_safe (in_play P) o _ _ _ _ id Hmeet Hpres (do_iterative_find_node_safe (disk_in P) ctx (from_bytes (sha256 x))) w1 (proj1 Hw1))
    as (l & w2 & E2 & _ & Hn). rewrite E2.
  assert (obtainable ctx base held kept (w_state w2)) as Hob by (apply (Hlook (Some l)); by rewrite run_bind, E1).
  destruct (fetch_remote_leads ctx base P o held kept Hinj Hmeet Hserve Ho x Hx w2 (conj Hn Hob)) as (r & w3 & E3 & [_ Hr] & Hw3).
  exists w3. rewrite E3, (Hr Hin). by split.
Qed.

Lemma manifest_run bytes c0 l0 b0 tx w :
  let m := manifest_of (tessera_hashes e) c (length data) bs in
  PM m → rmp_to_vec m = inr bytes → P bytes → manifest_source bytes w → inv (w_state w) →
  ∃ w', run o (do_retrieve_tessera oc ctx [] c0 l0 b0 (Some (sha256 bytes)) tx) w = (Some (Ok data), w').
Proof.
  intros m Hm Hb HPb Hsrc Hw. destruct (fetch_manifest_run bytes w HPb Hsrc Hw) as (w1 & E1 & Hw1).
  destruct (resolved_leads tx w1 Hw1) as (r & w2 & E2 & ->). exists w2.
  unfold do_retrieve_tessera, resolve_manifest. rewrite run_bind, run_bind, E1, (read_manifest_exact oc d p Hc data bs e bytes) by done. exact E2.
Qed.
End setting.

(** C6: A tessera survives losses.  Let every block have as many chunks as the code has data shards among those that can
    be obtained: on the node's own intact disk, or from a peer with one address that is among the closest the node
    asks and answers.  Then a retrieval by the chunk hashes gives exactly the data, whatever became of all other chunks:
    the other peers may be silent, answer with anything or with damaged chunks, and the other
    files be damaged.  The same holds for a retrieval by the manifest hash when the manifest is on the node's disk, or
    with such a peer that is still asked after the lookup of that hash.
    No timeout may fire, and no second preimage may be among the bytes in play. *)
Theorem retrieve_survives_losses data bs e bytes tx w :
  config_ok d p → one_to_one P → data ≠ [] → (0 < bs)%nat → Z.of_nat (length data) ≤ isize_max →
  encode_blocks oc data c bs = Ok e → Forall P (tessera_chunks e) →
  Forall (λ b, (d ≤ length (filter (λ x, x ∈ held ++ kept.*1) (et_chunks b)))%nat) (eb_blocks e) →
  meets (in_play P) o → (∀ x a, (x, a) ∈ kept → serves ctx o a x) → (held ≠ [] → ∀ i, f_read (am_fs (ambient o i)) = None) → (∀ i, am_deadline (ambient o i) = None) →
  preserves (λ s, inv s) o → inv (w_state w) →
  (∃ w', run o (do_retrieve_tessera oc ctx (tessera_hashes e) c (Z.of_nat (length data)) (Z.of_nat bs) None tx) w = (Some (Ok data), w')) ∧
  (let m := manifest_of (tessera_hashes e) c (length data) bs in
   PM m → rmp_to_vec m = inr bytes → P bytes → manifest_source bytes w →
   ∀ c0 l0 b0, ∃ w', run o (do_retrieve_tessera oc ctx [] c0 l0 b0 (Some (sha256 bytes)) tx) w = (Some (Ok data), w')).
Proof.
  intros Hc Hinj Hne Hbs Hmax He HP Hk Hmeet Hserve Hread Hdl Ho Hw. split.
  - destruct (resolved_leads Hc Hinj Hmeet Hserve Hread Hdl Ho data bs e Hne Hbs Hmax He HP Hk tx w Hw) as (r & w' & E & ->). by exists w'.
  - intros m Hm Hb HPb Hsrc c0 l0 b0.
    by apply (manifest_run Hc Hinj Hmeet Hserve Hread Hdl Ho data bs e Hne Hbs Hmax He HP Hk bytes c0 l0 b0 tx w Hm Hb HPb Hsrc).
Qed.
End theorems.

(** ** A concrete loss *)
(** One peer, which serves two chunks of each block; the third of each is lost. *)
Definition served : list (list Z) := concat (take 2 <$> (et_chunks <$> eb_blocks sample_tessera)).
Definition answering (h : list Z) : res Message :=
  match filter (λ x, sha256 x = h) served with
  | x :: _ => Ok (Message_new 1 (replicate 32 1) (replicate 32 1) (mkPow 0 0) (GetChunkResponse x))
  | [] => Err Timeout
  end.
Definition serving_oracle : Oracle := {|
  ambient := ambient sample_oracle; interfere := λ _ s, s;
  net := λ _ _ m, match m_payload m with GetChunkRequest h => answering h | _ => Err Timeout end;
  races := λ _, []; replies := λ _, Ok () |}.
Definition server : NodeInfo := sample_peer (sample_id 1).

Lemma served_in x : x ∈ served → x ∈ sample_bytes.
Proof. assert (Forall (λ x, x ∈ sample_bytes) served) as Hall by decide_compute. rewrite Forall_forall in Hall. apply Hall. Qed.

Lemma answering_in h : answer_in (λ x, x ∈ sample_bytes) (answering h).
Proof.
  unfold answering. destruct (filter (λ x, sha256 x = h) served) as [|x l] eqn:E; [exact I|]. cbn. apply served_in.
  assert (x ∈ filter (λ x, sha256 x = h) served) as Hx by (rewrite E; left). by apply list_elem_of_filter in Hx as [_ Hx].
Qed.

Lemma server_serves x : x ∈ served → serves sample_ctx serving_oracle (sample_addr 4000) x.
Proof.
  assert (Forall (λ x, x ≠ [] ∧ answering (sha256 x) = Ok (Message_new 1 (replicate 32 1) (replicate 32 1) (mkPow 0 0) (GetChunkResponse x))) served)
    as Hall by (repeat constructor; done || (vm_compute; reflexivity)).
  rewrite Forall_forall in Hall. intros Hx. destruct (Hall x Hx) as [Hne Ha]. split; [exact Hne|].
  intros i m _ Hm. cbn [serving_oracle net]. rewrite Hm, Ha. eexists. split; reflexivity.
Qed.

Lemma retrieve_survives_losses_witness :
  ∃ w', run serving_oracle (do_retrieve_tessera true sample_ctx (tessera_hashes sample_tessera) (mkConfig (Z.of_nat 2) (Z.of_nat 1))
      (Z.of_nat (length sample_data)) (Z.of_nat 2) None (Some 5%nat)) (sample_world [server]) = (Some (Ok sample_data), w').
Proof.
  destruct (retrieve_survives_losses (PM := λ _, True) true sample_ctx ["chunks"] (λ x, x ∈ sample_bytes) serving_oracle [] ((λ x, (x, sample_addr 4000)) <$> served) 2 1
    sample_data 2 sample_tessera [] (Some 5%nat) (sample_world [server])) as [Hr _].
  - split_and!; lia.
  - exact sample_one_to_one.
  - done.
  - lia.
  - by vm_compute.
  - reflexivity.
  - apply Forall_forall. intros x Hx. by right.
  - decide_compute.
  - split_and!; [|intros n l; destruct l as [|? []]; done|done]. intros n a m. cbn [serving_oracle net].
    destruct (m_payload m); try exact I. apply answering_in.
  - intros x a (y & [= -> ->] & Hx)%list_elem_of_fmap. by apply server_serves.
  - done.
  - done.
  - by intros n s.
  - split.
    + destruct (sample_node_ok [server]) as [Ht Hl Hcn _]. split; [exact Ht|exact Hl|exact Hcn|]. intros q x.
      cbn [sample_world w_state sample_node n_chunks sample_store disk]. by rewrite lookup_empty.
    + split; [by intros x ?%elem_of_nil|]. intros x a (y & [= -> ->] & Hx)%list_elem_of_fmap. exists server. split; [|reflexivity].
      assert (Forall (λ x, server ∈ filter (λ n, has_addresses sample_ctx n = true)
        (take 1 (closest_nodes (n_routing_table (w_state (sample_world [server]))) (from_bytes (sha256 x)) 1))) served) as Hall by decide_compute.
      rewrite Forall_forall in Hall. by apply Hall.
  - exact Hr.
Defined.
