(* ===== verification/Network.v ===== *)
(** * Nodes that talk to each other

    [Retrieve] and [Availability] leave open what the peers of a node are.  Here some of them are honest nodes,
    whose answers are those that [Handler] computes: such a node keeps a chunk whose upload it has acknowledged,
    and serves it to whoever asks.  The theorem composes an uploader's message, the keepers' handlers
    and a third node's retrieval. *)
From S2P Require Import Prelude.
From S2P Require Import Errors.
From S2P Require Import Bytes.
From S2P Require Import External.
From S2P Require Import Identity.
From S2P Require Import Net.
From S2P Require Import Samples.
From S2P Require Import Bucket.
From S2P Require Import Table.
From S2P Require Import TableBounds.
From S2P Require Import Erasure.
From S2P Require Import Chunks.
From S2P Require Import Metadata.
From S2P Require Import RateLimit.
From S2P Require Import Message.
From S2P Require Import Actor.
From S2P Require Import Context.
From S2P Require Import Handler.
From S2P Require Import Retrieve.
From S2P Require Import Store.
From S2P Require Import Availability.

(** ** Bodies that leave the chunk store alone *)
Fixpoint chunks_alone {A} (p : prog A) : Prop :=
  match p with
  | Ret _ | Abort_ => True
  | Atomic f k => (∀ amb s, n_chunks (f amb s).1 = n_chunks s) ∧ ∀ b, chunks_alone (k b)
  | Send a m k => ∀ r, chunks_alone (k r)
  | SendAny l m k => ∀ r, chunks_alone (k r)
  | Reply a m k => ∀ r, chunks_alone (k r)
  | Spawn t k => chunks_alone k
  | Report tx p k => chunks_alone k
  end.

Lemma chunks_alone_bind {A B} (p : prog A) (f : A → prog B) : chunks_alone p → (∀ a, chunks_alone (f a)) → chunks_alone (p ≫= f).
Proof. intros Hp Hf. induction p; cbn in *; naive_solver. Qed.

Lemma chunks_alone_run {A} (K : ChunkStore → Prop) o (p : prog A) w r w' :
  preserves (λ s, K (n_chunks s)) o → chunks_alone p → run o p w = (r, w') → K (n_chunks (w_state w)) → K (n_chunks (w_state w')).
Proof.
  intros Ho. revert w. induction p as [a|B f k IH|a m k IH|l m k IH|a m k IH|t k IH|tx pr k IH|]; intros w Hp E Hw; cbn [run chunks_alone] in *.
  - by injection E as <- <-.
  - destruct Hp as [Hf Hk]. eapply IH; [apply Hk|exact E|]. cbn. rewrite Hf. by apply (Ho (w_next w)).
  - eapply IH; [apply Hp|exact E|]. by apply (Ho (w_next w)).
  - eapply IH; [apply Hp|exact E|]. by apply (Ho (w_next w)).
  - eapply IH; [apply Hp|exact E|]. by apply (Ho (w_next w)).
  - eapply IH; [apply Hp|exact E|]. by apply (Ho (w_next w)).
  - eapply IH; [apply Hp|exact E|]. by apply (Ho (w_next w)).
  - by injection E as <- <-.
Qed.

Section keeper.
Context `{Sha256} `{Ed25519} `{Serde Payload} `{Serde Message} `{Hex} `{Json (list SocketAddr)}.
Context (oc : bool) (ctx : HandlerContext) (base : path) (P : list Z → Prop) (o : Oracle).
Context (Hinj : one_to_one P) (Hcalm : meets calm o).
Notation stored D := (λ s, holds base P D (n_chunks s)).
Context (Ho : ∀ D, preserves (stored D) o).

Lemma update_table_alone from_addr msg : chunks_alone (update_table ctx from_addr msg).
Proof.
  unfold update_table. destruct (m_client_mode msg); [done|]. apply chunks_alone_bind; [by split|]. intros n.
  apply chunks_alone_bind.
  - split; [|by intros []]. intros amb s. by destruct (table_insert _ _ _) as [[? ?]| |].
  - intros [|lrs|]; [by case_match| |done]. unfold try_evict. apply chunks_alone_bind; [by split|]. intros found. case_match; [|done].
    apply chunks_alone_bind; [by split|]. intros m r. by destruct r.
Qed.

(** An accepted upload is on the disk. *)
Lemma handle_put_chunk_leads from_addr sender x :
  P x → leads o (stored []) (handle_put_chunk oc ctx from_addr sender (sha256 x) x) (λ p s, p = PutChunkResponse true → stored [x] s).
Proof.
  intros Hx. apply leads_atomic; [done|]. intros i s Hs. destruct (limiter_check _ _ _) as [l allowed]. cbn [fst snd].
  destruct allowed; cbn [negb]; [|by apply leads_ret]. apply (leads_pre _ _ (stored [])); [by intros ? ->|].
  apply leads_atomic; [done|]. intros j s1 Hs1. unfold reserve_chunk. destruct (_ <=? _); cbn [fst snd negb]; [by apply leads_ret|].
  apply (leads_pre _ _ (stored [])); [by intros ? ->|]. apply leads_atomic; [done|]. intros k s2 Hs2.
  destruct (chunk_put_holds oc base P Hinj (am_fs (ambient o k)) [] (n_chunks s2) x) as [Hk Hadd]; [apply Hcalm|done|done|].
  destruct (chunk_put _ _ _ _ _) as [c r]. cbn [fst snd] in *. destruct r as [[]|e|]; cbn [is_ok negb].
  - apply leads_ret. intros s3 ->. intros _. by apply Hadd.
  - eapply (leads_bind _ _ _ _ (λ _ _, True)); [apply (leads_pre _ _ (stored [])); [by intros ? ->|]|intros []; by apply leads_ret].
    apply (leads_atomic o _ _ Ret); [done|]. intros. by apply leads_ret.
  - eapply (leads_bind _ _ _ _ (λ _ _, True)); [apply (leads_pre _ _ (stored [])); [by intros ? ->|]|intros []; by apply leads_ret].
    apply (leads_atomic o _ _ Ret); [done|]. intros. by apply leads_ret.
Qed.

Lemma handle_get_chunk_leads x : leads o (stored [x]) (handle_get_chunk (sha256 x)) (λ p _, p = GetChunkResponse x).
Proof.
  apply leads_atomic; [done|]. intros i s Hs.
  rewrite (chunk_get_holds base P (am_fs (ambient o i)) [x] (n_chunks s) x); [by apply leads_ret|apply Hcalm|done|left].
Qed.
End keeper.

(** ** Honest hosts *)
(** A node as a peer: its context, the directory of its chunks, and what its surroundings do. *)
Record Host := mkHost { h_ctx : HandlerContext; h_dir : path; h_oracle : Oracle }.

Section hosts.
Context `{Sha256} `{Ed25519} `{Serde Payload} `{Serde Message} `{Hex} `{Json (list SocketAddr)}.
Context (oc : bool) (P : list Z → Prop) (Hinj : one_to_one P).

Definition host_stores (B : Host) (D : list (list Z)) (s : NodeState) : Prop := holds (h_dir B) P D (n_chunks s).

(** [B] is a node that [ctx] can talk to; its disk reads back what it wrote, and its other tasks lose no chunk. *)
Record host_ok (ctx : HandlerContext) (B : Host) : Prop := {
  ho_quota : 0 < cfg_max_chunks_per_peer (c_config (h_ctx B));
  ho_accepts : context_ok ctx (cfg_min_pow_difficulty (c_config (h_ctx B)));
  ho_calm : meets calm (h_oracle B);
  ho_sound : preserves (node_ok (h_ctx B)) (h_oracle B);
  ho_keeps D : preserves (host_stores B D) (h_oracle B);
}.

(** The handler of [B] takes [msg] from [w] to [w'] and replies [r]. *)
Definition handles (B : Host) (from : SocketAddr) (msg : Message) (w : world) (r : Message) (w' : world) : Prop :=
  run (h_oracle B) (handle_inbound_message oc (h_ctx B) from msg) w = (Some (), w') ∧
  ∃ before, w_log w' = w_log w ++ before ++ [EReplied from r].

(** [B] has handled an upload of [x], replied that it is accepted, and is left in [w]. *)
Definition acknowledged (B : Host) (x : list Z) (w : world) : Prop :=
  ∃ w0 from upload ack, node_ok (h_ctx B) (w_state w0) ∧ host_stores B [] (w_state w0) ∧
    m_payload upload = PutChunkRequest (sha256 x) x ∧ handles B from upload w0 ack w ∧ m_payload ack = PutChunkResponse true.

(** From [w] on, whatever was stored is still there. *)
Definition since (B : Host) (w w' : world) : Prop :=
  node_ok (h_ctx B) (w_state w') ∧ ∀ D, host_stores B D (w_state w) → host_stores B D (w_state w').

(** The network takes each request of [ctx] to [a] for the chunk [x] to a host that has acknowledged that chunk,
    and its reply back. *)
Definition keeper (ctx : HandlerContext) (o : Oracle) (a : SocketAddr) (x : list Z) : Prop :=
  x ≠ [] ∧ P x ∧ ∃ B w, host_ok ctx B ∧ acknowledged B x w ∧
    ∀ i m, outgoing ctx m → m_payload m = GetChunkRequest (sha256 x) →
      ∃ from w1, since B w w1 ∧ ∀ r w2, handles B from m w1 r w2 → net o i a m = Ok r.

(** A message that gets a reply was accepted. *)
Lemma handles_inv ctx B from msg w r w' :
  host_ok ctx B → node_ok (h_ctx B) (w_state w) → handles B from msg w r w' →
  ∃ w1 p w2, run (h_oracle B) (update_table (h_ctx B) from msg) w = (Some (), w1) ∧
    run (h_oracle B) (respond oc (h_ctx B) from msg) w1 = (Some (Some p), w2) ∧
    w' = tick (h_oracle B) w2 id [EReplied from r] ∧ m_payload r = p.
Proof.
  intros HB Hs [E (before & El)]. destruct (accepted (h_ctx B) msg) eqn:Ha.
  2:{ unfold handle_inbound_message in E. rewrite Ha in E. injection E as <-. exfalso.
      apply (f_equal length) in El. rewrite !length_app in El. cbn in El. lia. }
  destruct (inbound_run oc (h_ctx B) (h_oracle B) w from msg (ho_quota _ _ HB) (ho_sound _ _ HB) Hs Ha)
    as (w1 & l1 & p & w2 & l2 & E1 & El1 & G1 & E2 & El2 & G2 & _ & _ & E'). rewrite E in E'. injection E' as ->. destruct p as [p|].
  - exists w1, p, w2. cbn [tick w_log] in El. rewrite El2, El1, <-!app_assoc in El. apply app_inv_head in El. rewrite !app_assoc in El.
    apply app_inj_tail in El as [_ [= <-]]. split_and!; [done|done|done|apply payload_signed].
  - exfalso. rewrite El2, El1, <-!app_assoc in El. apply app_inv_head in El.
    assert (EReplied from r ∈ l1 ++ l2) as Hin by (rewrite El; apply elem_of_app; right; left).
    assert (Forall (handler_effect (h_ctx B) msg) (l1 ++ l2)) as Hall by by apply Forall_app. rewrite Forall_forall in Hall. by apply Hall in Hin.
Qed.

Lemma table_updated ctx B from msg w w1 D :
  host_ok ctx B → run (h_oracle B) (update_table (h_ctx B) from msg) w = (Some (), w1) → host_stores B D (w_state w) → host_stores B D (w_state w1).
Proof.
  intros HB E. apply (chunks_alone_run (λ c, holds (h_dir B) P D c) (h_oracle B) _ w _ w1 (ho_keeps _ _ HB D) (update_table_alone _ _ _) E).
Qed.

(** An acknowledged chunk is stored. *)
Lemma acknowledged_stored ctx B x w : host_ok ctx B → P x → acknowledged B x w → host_stores B [x] (w_state w).
Proof.
  intros HB Hx (w0 & from & upload & ack & Hs & Hst & Hp & Hh & Ha).
  destruct (handles_inv ctx B from upload w0 ack w HB Hs Hh) as (w1 & p & w2 & E1 & E2 & -> & Hack).
  assert (host_stores B [] (w_state w1)) as Hst1 by by eapply table_updated.
  destruct (handle_put_chunk_leads oc (h_ctx B) (h_dir B) P (h_oracle B) Hinj (ho_calm _ _ HB) (ho_keeps _ _ HB) from (m_sender_id upload) x Hx w1 Hst1)
    as (p' & w3 & E3 & Hst3).
  unfold respond in E2. rewrite Hp, run_bind, E3 in E2. injection E2 as <- <-. apply (ho_keeps _ _ HB [x]), Hst3. congruence.
Qed.

(** A host replies to a request for a chunk that it stores with the chunk. *)
Lemma host_replies ctx B from m w x :
  host_ok ctx B → accepted (h_ctx B) m = true → m_payload m = GetChunkRequest (sha256 x) →
  node_ok (h_ctx B) (w_state w) → host_stores B [x] (w_state w) →
  ∃ r w', handles B from m w r w' ∧ m_payload r = GetChunkResponse x.
Proof.
  intros HB Ha Hp Hs Hst.
  destruct (inbound_run oc (h_ctx B) (h_oracle B) w from m (ho_quota _ _ HB) (ho_sound _ _ HB) Hs Ha)
    as (w1 & l1 & p & w2 & l2 & E1 & El1 & _ & E2 & El2 & _ & _ & _ & E).
  assert (host_stores B [x] (w_state w1)) as Hst1 by by eapply table_updated.
  destruct (handle_get_chunk_leads (h_dir B) P (h_oracle B) (ho_calm _ _ HB) (ho_keeps _ _ HB) x w1 Hst1) as (p' & w3 & E3 & ->).
  unfold respond in E2. rewrite Hp, run_bind, E3 in E2. injection E2 as <- <-. eexists _, _. split; [|apply payload_signed].
  split; [exact E|]. exists (l1 ++ l2). cbn [tick w_log]. by rewrite El2, El1, <-!app_assoc.
Qed.

(** A host serves what it has acknowledged. *)
Lemma keeper_serves ctx o a x : (∀ m, is_Some (signing_bytes m)) → keeper ctx o a x → serves ctx o a x.
Proof.
  intros Hser (Hne & Hx & B & w & HB & Hack & Hnet). split; [done|]. intros i m Hm Hp.
  destruct (Hnet i m Hm Hp) as (from & w1 & [Hs Hsince] & Hdel).
  destruct (outgoing_accepted_by ctx (h_ctx B) m (ho_accepts _ _ HB) Hm (Hser m)) as [Ha _].
  destruct (host_replies ctx B from m w1 x HB Ha Hp Hs) as (r & w2 & Hh & Hr);
    [apply Hsince; by eapply acknowledged_stored|]. exists r. split; [by eapply Hdel|done].
Qed.
End hosts.

(** ** The theorem *)
Section theorems.
Context `{Sha256} `{Ed25519} `{RS : ReedSolomon} `{Hex} `{Json (list SocketAddr)}.
Context `{Serde Payload} `{Serde Message}.
Context (oc : bool) (ctx : HandlerContext) (base : path) (P : list Z → Prop) (o : Oracle) (held : list (list Z)) (kept : list (list Z * SocketAddr)).
Context (d p : nat) `{!ReedSolomonLaws d p}.
Notation c := (mkConfig (Z.of_nat d) (Z.of_nat p)).
Notation inv s := (node_inv (disk_in P) ctx s ∧ obtainable ctx base held kept s).

(** Chunks acknowledged by honest nodes can be retrieved.  Let a peer that the retrieving node asks be an honest
    node that once handled an upload of a chunk and replied that it is accepted, whose disk reads back what it wrote, and
    whose other tasks have lost no chunk since; and let the network take the requests for the chunk to it and its replies
    back.  If every block has as many such chunks (or chunks on the node's own disk) as the code has
    data shards, the retrieval by the chunk hashes gives exactly the data, whatever all other peers do: the
    uploads pass the keepers' gate, quota and store, the requests pass their gate, and the
    retrieving node accepts their answers. *)
Theorem acknowledged_chunks_retrieved data bs e tx w :
  (∀ m, is_Some (signing_bytes m)) →
  config_ok d p → one_to_one P → data ≠ [] → (0 < bs)%nat → Z.of_nat (length data) ≤ isize_max →
  encode_blocks oc data c bs = Ok e → Forall P (tessera_chunks e) →
  Forall (λ b, (d ≤ length (filter (λ x, x ∈ held ++ kept.*1) (et_chunks b)))%nat) (eb_blocks e) →
  (∀ x a, (x, a) ∈ kept → keeper oc P ctx o a x) →
  meets (in_play P) o → (held ≠ [] → ∀ i, f_read (am_fs (ambient o i)) = None) → (∀ i, am_deadline (ambient o i) = None) →
  preserves (λ s, inv s) o → inv (w_state w) →
  ∃ w', run o (do_retrieve_tessera oc ctx (tessera_hashes e) c (Z.of_nat (length data)) (Z.of_nat bs) None tx) w = (Some (Ok data), w').
Proof.
  intros Hser Hc Hinj Hne Hbs Hmax He HP Hk Hkeep Hmeet Hread Hdl Ho Hw.
  assert (∀ x a, (x, a) ∈ kept → serves ctx o a x) as Hserve by (intros x a Hx; by eapply keeper_serves, Hkeep).
  destruct (resolved_leads oc ctx base P o held kept d p Hc Hinj Hmeet Hserve Hread Hdl Ho data bs e Hne Hbs Hmax He HP Hk tx w Hw)
    as (r & w' & E & ->). by exists w'.
Qed.
End theorems.

(** ** Two concrete nodes *)
(** The host of [peer_kp], which has taken two chunks of each block; the node of [sample_ctx] knows it. *)
Definition host_ctx : HandlerContext := mkContext peer_kp (mkPow 0 0) (keypair_node_id peer_kp) (sample_addr 4000) sample_config.
Definition host : Host := mkHost host_ctx ["chunks"] sample_oracle.
Definition host_world : world :=
  mkWorld 0 (mkNode (RoutingTable_new 0 (c_node_id host_ctx) 1) init_tables (sample_store 100000) (RateLimiter_new 5 3) (RateLimiter_new 50 20) ∅ None) [].
Definition upload_of (x : list Z) : Message :=
  sign sample_kp (Message_new 5 (my_id sample_ctx) (my_key sample_ctx) (mkPow 0 0) (PutChunkRequest (sha256 x) x)).
Definition handled (m : Message) (w : world) : option () * world := run sample_oracle (handle_inbound_message true host_ctx (sample_addr 4100) m) w.
Definition after_upload (u : Message) : world := (handled u host_world).2.
Definition replied (w : world) : res Message := match last (w_log w) with Some (EReplied _ r) => Ok r | _ => Err Timeout end.
Definition upload_hash (u : Message) : option (list Z) := match m_payload u with PutChunkRequest h _ => Some h | _ => None end.
(** A request for a chunk reaches the host as it is after the upload of that chunk. *)
Definition network (uploads : list Message) : Oracle := {|
  ambient := ambient sample_oracle; interfere := λ _ s, s;
  net := λ _ _ m, match m_payload m with
                  | GetChunkRequest h => match filter (λ u, upload_hash u = Some h) uploads with u :: _ => replied (handled m (after_upload u)).2 | [] => Err Timeout end
                  | _ => Err Timeout
                  end;
  races := λ _, []; replies := λ _, Ok () |}.
Definition host_peer : NodeInfo := NodeInfo_new 0 (keypair_node_id peer_kp) (public_key_bytes peer_kp) [sample_addr 4000].

Lemma host_is_ok P : host_ok P sample_ctx host.
Proof.
  split; [vm_compute; reflexivity|split; [reflexivity|vm_compute; reflexivity]|exact calm_sample|apply sample_preserves|].
  intros D. apply sample_preserves.
Qed.

Lemma host_world_ok : node_ok host_ctx (w_state host_world).
Proof. split; [apply RoutingTable_new_bounded; lia|done| |done]. intros q x. cbn [host_world w_state n_peer_chunk_counts]. by rewrite lookup_empty. Qed.

Lemma host_empty P : host_stores P host [] (w_state host_world).
Proof.
  split; [done|..].
  - intros q x. cbn [host_world w_state n_chunks sample_store disk]. by rewrite lookup_empty.
  - intros h x _. cbn [host_world w_state n_chunks sample_store disk]. by rewrite lookup_empty.
  - by intros x ?%elem_of_nil.
Qed.

Lemma replied_handles m w r w' : handles true host (sample_addr 4100) m w r w' → replied (handled m w).2 = Ok r.
Proof.
  intros [E (before & El)]. unfold handled, replied. change sample_oracle with (h_oracle host). change host_ctx with (h_ctx host).
  rewrite E. cbn [snd]. rewrite El, app_assoc, last_snoc. done.
Qed.

(** The host handles the upload and replies that it is accepted. *)
Definition taken (u : Message) : bool :=
  match handled u host_world with
  | (Some (), w) =>
    match last (w_log w) with
    | Some (EReplied a r) => bool_decide (a = sample_addr 4100) && bool_decide (m_payload r = PutChunkResponse true)
    | _ => false
    end
  | _ => false
  end.

Lemma taken_handled u : taken u = true → ∃ r,
  handles true host (sample_addr 4100) u host_world r (after_upload u) ∧ m_payload r = PutChunkResponse true.
Proof.
  unfold taken, after_upload, handles. change (handled u host_world) with (run (h_oracle host) (handle_inbound_message true (h_ctx host) (sample_addr 4100) u) host_world).
  destruct (run _ _ host_world) as [[[]|] w]; [|done]. cbn [snd].
  destruct (last (w_log w)) as [[| |a r| |]|] eqn:El; try done. intros [->%bool_decide_eq_true Hr%bool_decide_eq_true]%andb_true_iff.
  exists r. split; [|done]. split; [done|]. apply last_Some in El as [before El]. by exists before.
Qed.

Section two_nodes.
Context (P : list Z → Prop) (Hinj : one_to_one P) (uploads : list Message).
Context (Htaken : Forall (λ u, taken u = true) uploads) (Hkinds : ∀ u, u ∈ uploads → ∃ x, P x ∧ m_payload u = PutChunkRequest (sha256 x) x).
Context (Huniq : NoDup (upload_hash <$> uploads)).

Lemma taken_ok u x :
  u ∈ uploads → m_payload u = PutChunkRequest (sha256 x) x →
  acknowledged true P host x (after_upload u) ∧ node_ok host_ctx (w_state (after_upload u)).
Proof.
  intros Hu Hp. rewrite Forall_forall in Htaken. destruct (taken_handled u (Htaken u Hu)) as (r & Hh & Hr). split.
  - exists host_world, (sample_addr 4100), u, r. split_and!; [exact host_world_ok|apply host_empty|exact Hp|exact Hh|exact Hr].
  - destruct (accepted host_ctx u) eqn:Ha.
    + destruct (inbound_run true host_ctx sample_oracle host_world (sample_addr 4100) u) as (w1 & l1 & p0 & w2 & l2 & _ & _ & _ & _ & _ & _ & Hs & _ & E);
        [vm_compute; reflexivity|apply sample_preserves|exact host_world_ok|exact Ha|].
      unfold after_upload, handled. rewrite E. by destruct p0.
    + unfold after_upload, handled, handle_inbound_message. rewrite Ha. exact host_world_ok.
Qed.

Lemma upload_found u h : u ∈ uploads → upload_hash u = Some h → ∃ l, filter (λ u', upload_hash u' = Some h) uploads = u :: l.
Proof.
  intros Hu Hh. destruct (filter _ uploads) as [|u' l] eqn:Ef.
  - exfalso. assert (u ∈ filter (λ u', upload_hash u' = Some h) uploads) as Hin by by apply list_elem_of_filter.
    rewrite Ef in Hin. by apply elem_of_nil in Hin.
  - assert (u' ∈ filter (λ u', upload_hash u' = Some h) uploads) as Hin by (rewrite Ef; left). apply list_elem_of_filter in Hin as [Hh' Hu'].
    exists l. f_equal. apply list_elem_of_lookup in Hu as [i Hi], Hu' as [j Hj].
    assert (i = j) as <-; [|congruence]. eapply NoDup_lookup; [exact Huniq| |]; rewrite list_lookup_fmap.
    + rewrite Hi. cbn. by rewrite Hh.
    + rewrite Hj. cbn. by rewrite Hh'.
Qed.

Lemma network_delivers u x i a m :
  u ∈ uploads → m_payload u = PutChunkRequest (sha256 x) x → m_payload m = GetChunkRequest (sha256 x) →
  ∀ r w, handles true host (sample_addr 4100) m (after_upload u) r w → net (network uploads) i a m = Ok r.
Proof.
  intros Hu Hp Hm r w Hh. destruct (upload_found u (sha256 x) Hu) as [l Hf]; [unfold upload_hash; by rewrite Hp|].
  cbn [network net]. rewrite Hm, Hf. by apply (replied_handles m _ r w).
Qed.

Lemma network_meets : meets (in_play P) (network uploads).
Proof.
  split_and!; [|intros n l; destruct l as [|? []]; done|done]. intros n a m. cbn [network net]. destruct (m_payload m) eqn:Hp; try exact I.
  destruct (filter _ uploads) as [|u l] eqn:Ef; [exact I|].
  assert (u ∈ filter (λ u, upload_hash u = Some chunk_hash) uploads) as Hin by (rewrite Ef; left). apply list_elem_of_filter in Hin as [Hh Hu].
  destruct (Hkinds u Hu) as (x & Hx & Hux). unfold upload_hash in Hh. rewrite Hux in Hh. injection Hh as Hh.
  destruct (taken_ok u x Hu Hux) as [Hack Hs]. destruct (accepted host_ctx m) eqn:Ha.
  - destruct (host_replies true P sample_ctx host (sample_addr 4100) m (after_upload u) x (host_is_ok P) Ha) as (r & w' & Hh' & Hr);
      [rewrite Hp; f_equal; symmetry; exact Hh|exact Hs|by apply (acknowledged_stored true P Hinj sample_ctx host x _ (host_is_ok P))|].
    rewrite (replied_handles m (after_upload u) r w' Hh'). cbn. by rewrite Hr.
  - unfold handled at 1, handle_inbound_message. rewrite Ha. cbn [negb run snd]. rewrite Forall_forall in Htaken.
    destruct (taken_handled u (Htaken u Hu)) as (r & [_ (before & El)] & Hr). unfold replied. rewrite El, app_assoc, last_snoc. cbn. by rewrite Hr.
Qed.
End two_nodes.

Definition served_uploads : list Message := upload_of <$> served.
Lemma upload_payload x : m_payload (upload_of x) = PutChunkRequest (sha256 x) x.
Proof. unfold upload_of, sign. by destruct (signing_bytes _). Qed.
Lemma served_taken : Forall (λ u, taken u = true) served_uploads.
Proof. repeat constructor; vm_compute; reflexivity. Qed.
Lemma served_kinds u : u ∈ served_uploads → ∃ x, x ∈ sample_bytes ∧ m_payload u = PutChunkRequest (sha256 x) x.
Proof. intros (x & -> & Hx)%list_elem_of_fmap. exists x. split; [by apply served_in|apply upload_payload]. Qed.
Lemma served_unique : NoDup (upload_hash <$> served_uploads).
Proof. decide_compute. Qed.

Lemma host_keeps x : x ∈ served → keeper true (λ x, x ∈ sample_bytes) sample_ctx (network served_uploads) (sample_addr 4000) x.
Proof.
  intros Hx. destruct (server_serves x Hx) as [Hne _]. assert (upload_of x ∈ served_uploads) as Hu by by apply list_elem_of_fmap_2.
  destruct (taken_ok (λ x, x ∈ sample_bytes) served_uploads served_taken (upload_of x) x Hu (upload_payload x)) as [Hack Hs].
  split; [exact Hne|]. split; [by apply served_in|]. exists host, (after_upload (upload_of x)).
  split; [apply host_is_ok|]. split; [exact Hack|]. intros i m _ Hp. exists (sample_addr 4100), (after_upload (upload_of x)).
  split; [by split|]. by apply (network_delivers served_uploads served_unique (upload_of x) x).
Qed.

Lemma acknowledged_chunks_retrieved_witness :
  ∃ w', run (network served_uploads) (do_retrieve_tessera true sample_ctx (tessera_hashes sample_tessera) (mkConfig (Z.of_nat 2) (Z.of_nat 1))
      (Z.of_nat (length sample_data)) (Z.of_nat 2) None None) (sample_world [host_peer]) = (Some (Ok sample_data), w').
Proof.
  destruct (acknowledged_chunks_retrieved true sample_ctx ["chunks"] (λ x, x ∈ sample_bytes) (network served_uploads) []
    ((λ x, (x, sample_addr 4000)) <$> served) 2 1 sample_data 2 sample_tessera None (sample_world [host_peer])) as [w' E].
  - by eexists.
  - split_and!; lia.
  - exact sample_one_to_one.
  - done.
  - lia.
  - by vm_compute.
  - reflexivity.
  - apply Forall_forall. intros x Hx. by right.
  - decide_compute.
  - intros x a (y & [= -> ->] & Hx)%list_elem_of_fmap. by apply host_keeps.
  - exact (network_meets _ sample_one_to_one served_uploads served_taken served_kinds).
  - done.
  - done.
  - by intros n s.
  - split.
    + destruct (sample_node_ok [host_peer]) as [Ht Hl Hcn _]. split; [exact Ht|exact Hl|exact Hcn|]. intros q x.
      cbn [sample_world w_state sample_node n_chunks sample_store disk]. by rewrite lookup_empty.
    + split; [by intros x ?%elem_of_nil|]. intros x a (y & [= -> ->] & Hx)%list_elem_of_fmap. exists host_peer. split; [|reflexivity].
      assert (Forall (λ x, host_peer ∈ filter (λ n, has_addresses sample_ctx n = true)
        (take 1 (closest_nodes (n_routing_table (w_state (sample_world [host_peer]))) (from_bytes (sha256 x)) 1))) served) as Hall by decide_compute.
      rewrite Forall_forall in Hall. by apply Hall.
  - by exists w'.
Defined.
