(* ===== verification/Providers.v ===== *)
(** * Reaching peers behind NATs, and looking up providers ([NodeActor] of [src/node.rs])

    The relay fallback and the order direct, reversal, relay; the iterative lookup of the
    providers of a content key. *)
From S2P Require Import Prelude.
From S2P Require Import Errors.
From S2P Require Import Bytes.
From S2P Require Import External.
From S2P Require Import Identity.
From S2P Require Import Net.
From S2P Require Import Samples.
From S2P Require Import Bucket.
From S2P Require Import Table.
From S2P Require Import TableBounds.
From S2P Require Import Lookup.
From S2P Require Import Chunks.
From S2P Require Import Metadata.
From S2P Require Import RateLimit.
From S2P Require Import Message.
From S2P Require Import Race.
From S2P Require Import Actor.
From S2P Require Import Context.

Section traversal.
Context `{Sha256} `{Ed25519} `{Serde Payload} `{Serde Message}.
Context (ctx : HandlerContext).
Notation config := (c_config ctx).

(** One candidate; a relayed answer that cannot be read ends the search. *)
Definition relay_once (target_id : NodeId) (msg_bytes : list Z) (candidate : NodeInfo) : prog (option (res Message)) :=
  if bool_decide (ni_node_id candidate = target_id) || bool_decide (ni_node_id candidate = c_node_id ctx)
     || bool_decide (ni_addresses candidate = []) then Ret None
  else
    relay_msg ← signed_message ctx (RelayRequest (as_bytes target_id) msg_bytes 0);
    r ← send_request_any (ni_addresses candidate) relay_msg;
    Ret (match r with
         | Ok resp =>
           match m_payload resp with
           | RelayResponse true payload =>
             Some (match message_from_bytes payload with
                   | inr inner => Ok inner
                   | inl e => Err (Serialization ("failed to deserialize relayed response: " +:+ e))
                   end)
           | _ => None
           end
         | _ => None
         end).

Definition send_via_relay (target_id : NodeId) (msg : Message) : prog (res Message) :=
  candidates ← closest (c_node_id ctx) (cfg_k config);
  match message_to_bytes msg with
  | inl e => Ret (Err (Serialization ("failed to serialize inner message: " +:+ e)))
  | inr msg_bytes =>
    found ← first_some candidates (relay_once target_id msg_bytes);
    Ret (default (Err (Network "all relay candidates failed")) found)
  end.

(** Direct, then the peer connects back and direct again, then a relay. *)
Definition send_with_nat_traversal (addrs : list SocketAddr) (target_id : NodeId) (msg : Message) : prog (res Message) :=
  r ← send_request_any addrs msg;
  match r with
  | Ok resp => Ret (Ok resp)
  | _ =>
    reversed ← request_reverse_connection ctx target_id;
    retried ← (if is_ok reversed then send_request_any addrs msg else Ret (Err Timeout));
    match retried with
    | Ok resp => Ret (Ok resp)
    | _ => send_via_relay target_id msg
    end
  end.

(** ** Providers of a key *)
(** One returned node, unless it is this node or known. *)
Definition merge_candidate (acc : list NodeInfo * bool) (n : NodeInfoSerde) : prog (list NodeInfo * bool) :=
  let '(candidates, improved) := acc in
  let node_id := from_bytes (ns_node_id n) in
  if bool_decide (node_id = c_node_id ctx) then Ret acc
  else if existsb (has_id node_id) candidates then Ret acc
  else node ← new_node_info node_id (ns_public_key n) (ns_addresses n); Ret (candidates ++ [node], true).
Fixpoint fold_prog {A B} (f : B → A → prog B) (acc : B) (l : list A) : prog B :=
  match l with [] => Ret acc | x :: l => acc ← f acc x; fold_prog f acc l end.

Definition ask_providers (key : list Z) (acc : list NodeInfoSerde * list NodeInfo * bool) (q : query)
    : prog (list NodeInfoSerde * list NodeInfo * bool) :=
  let '(all_providers, candidates, improved) := acc in
  let '(peer_id, addrs) := q in
  msg ← signed_message ctx (GetProvidersRequest key);
  r ← send_with_nat_traversal addrs peer_id msg;
  match r with
  | Ok resp =>
    match m_payload resp with
    | GetProvidersResponse providers closer_nodes =>
      merged ← fold_prog merge_candidate (candidates, improved) closer_nodes;
      Ret (all_providers ++ providers, merged.1, merged.2)
    | _ => Ret acc
    end
  | _ => _ ← record_failure peer_id (cfg_max_failures config); Ret acc
  end.

Fixpoint provider_rounds (n : nat) (key : list Z) (queried : list NodeId) (candidates : list NodeInfo)
    (all_providers : list NodeInfoSerde) : prog (list NodeInfoSerde) :=
  match n with
  | O => Ret all_providers
  | S n =>
    match pick (cfg_alpha config) queried candidates with
    | [] => Ret all_providers
    | to_query =>
      asked ← fold_prog (ask_providers key) (all_providers, candidates, false) to_query;
      let '(all_providers, candidates, improved) := asked in
      let candidates := take (cfg_k config) (sort_by (closer (from_bytes key)) candidates) in
      if improved : bool then provider_rounds n key (queried ++ to_query.*1) candidates all_providers
      else Ret all_providers
    end
  end.

(** [retain(|p| seen.insert(p.node_id))]. *)
Fixpoint dedup_providers (seen : list (list Z)) (l : list NodeInfoSerde) : list NodeInfoSerde :=
  match l with
  | [] => []
  | p :: l =>
    if bool_decide (ns_node_id p ∈ seen) then dedup_providers seen l
    else p :: dedup_providers (ns_node_id p :: seen) l
  end.

Definition do_get_providers `{Json (list SocketAddr)} (key : list Z) : prog (res (list NodeInfoSerde)) :=
  r ← atomic (λ amb s, (s, get_providers (am_db amb) (am_unix amb) (n_metadata s) key));
  let local := match r with Ok l => l | _ => [] end in
  candidates ← closest (from_bytes key) (cfg_k config);
  all_providers ← provider_rounds 10 key [c_node_id ctx] candidates local;
  Ret (Ok (dedup_providers [] all_providers)).
End traversal.

(** ** Deduplication *)
Lemma dedup_providers_ids seen l i :
  i ∈ ns_node_id <$> dedup_providers seen l ↔ i ∈ ns_node_id <$> l ∧ i ∉ seen.
Proof.
  revert seen. induction l as [|p l IH]; intros seen; cbn [dedup_providers].
  { split; [by intros ?%elem_of_nil|by intros [?%elem_of_nil _]]. }
  rewrite fmap_cons, elem_of_cons. case_bool_decide as Hs.
  - rewrite IH. split; [tauto|]. intros [[->|?] ?]; tauto.
  - rewrite fmap_cons, elem_of_cons, IH, elem_of_cons. destruct (decide (i = ns_node_id p)) as [->|]; tauto.
Qed.

Lemma dedup_providers_NoDup seen l : NoDup (ns_node_id <$> dedup_providers seen l).
Proof.
  revert seen. induction l as [|p l IH]; intros seen; cbn [dedup_providers]; [constructor|].
  case_bool_decide; [apply IH|]. rewrite fmap_cons. constructor; [|apply IH].
  rewrite dedup_providers_ids, elem_of_cons. tauto.
Qed.

Lemma dedup_providers_elem seen l p : p ∈ dedup_providers seen l → p ∈ l.
Proof.
  revert seen. induction l as [|q l IH]; intros seen; cbn [dedup_providers]; [done|].
  case_bool_decide; [intros ?%IH; by right|]. intros [->|?%IH]%elem_of_cons; [by left|by right].
Qed.

(** The earlier occurrence wins: what comes first is kept as it is. *)
Lemma dedup_providers_app seen l k :
  NoDup (ns_node_id <$> l) → (∀ i, i ∈ ns_node_id <$> l → i ∉ seen) →
  ∃ k', dedup_providers seen (l ++ k) = l ++ k'.
Proof.
  revert seen. induction l as [|p l IH]; intros seen Hnd Hs; [by eexists|]. cbn [dedup_providers app].
  rewrite fmap_cons in Hnd. inversion Hnd as [|? ? Hp Hnd']; subst.
  rewrite bool_decide_eq_false_2 by (apply Hs; left). destruct (IH (ns_node_id p :: seen) Hnd') as [k' ->]; [|by exists k'].
  intros i Hi. rewrite elem_of_cons. intros [->|Hin]; [done|]. apply (Hs i); [by right|done].
Qed.

Section properties.
Context `{Sha256} `{Ed25519} `{Serde Payload} `{Serde Message}.
Context {R : expectations} (J : ChunkStore → Prop) (ctx : HandlerContext).
Notation config := (c_config ctx).
Notation safely := (safe_if R (node_inv J ctx) (sends_outgoing ctx)).

Lemma safe_fold_prog {A B} (P : B → Prop) (f : B → A → prog B) acc l :
  (∀ acc x, x ∈ l → P acc → safely P (f acc x)) → P acc → safely P (fold_prog f acc l).
Proof.
  revert acc. induction l as [|x l IH]; intros acc Hf Hp; [done|]. cbn [fold_prog]. apply safe_bind.
  eapply safe_mono; [done| |apply Hf; [by left|done]]. intros acc' Hp'. apply IH; [|done]. intros a y Hy. apply Hf. by right.
Qed.

Lemma relay_once_safe target bytes c : safely (λ _, True) (relay_once ctx target bytes c).
Proof.
  unfold relay_once. case_match; [done|]. apply safe_signed_message. intros m Hm. by apply safe_send_any.
Qed.

Lemma send_via_relay_safe target m : safely (λ _, True) (send_via_relay ctx target m).
Proof.
  apply safe_get. intros s _. destruct (message_to_bytes m); [done|]. apply safe_bind.
  eapply safe_mono; [done| |apply (safe_first_some _ _ (λ _, True)); intros c _]; [done|].
  eapply safe_mono; [done| |apply relay_once_safe]. done.
Qed.

Lemma try_reverse_safe target bytes c : safely (λ _, True) (try_reverse ctx target bytes c).
Proof.
  unfold try_reverse. case_match; [done|]. apply safe_signed_message. intros m Hm. by apply safe_send_any.
Qed.

Lemma request_reverse_connection_safe target : safely (λ _, True) (request_reverse_connection ctx target).
Proof.
  unfold request_reverse_connection, best_addr. apply safe_bind, safe_get. intros s _. cbn [safe_if].
  apply safe_signed_message. intros m Hm. destruct (message_to_bytes m); [done|]. apply safe_get. intros s1 _. apply safe_bind.
  eapply safe_mono; [done| |apply (safe_first_some _ _ (λ _, True)); intros c _]; [done|].
  eapply safe_mono; [done| |apply try_reverse_safe]. done.
Qed.

Lemma send_with_nat_traversal_safe addrs target m :
  outgoing ctx m → safely (λ _, True) (send_with_nat_traversal ctx addrs target m).
Proof.
  intros Hm. unfold send_with_nat_traversal. apply safe_send_any; [done|done|].
  assert (safely (λ _, True) (
    reversed ← request_reverse_connection ctx target;
    retried ← (if is_ok reversed then send_request_any addrs m else Ret (Err Timeout));
    match retried with Ok resp => Ret (Ok resp) | _ => send_via_relay ctx target m end)) as Hrest.
  { apply safe_bind. eapply safe_mono; [done| |apply request_reverse_connection_safe]. intros rev _.
    destruct (is_ok rev); cbn [mbind prog_mbind prog_bind].
    - apply safe_send_any; [done|done|]. intros [resp|e|]; [done|apply send_via_relay_safe..].
    - apply send_via_relay_safe. }
  intros [resp|e|]; [done|exact Hrest|exact Hrest].
Qed.

Lemma ask_providers_safe key acc q :
  safely (λ acc', ∃ more, acc'.1.1 = acc.1.1 ++ more) (ask_providers ctx key acc q).
Proof.
  destruct acc as [[prov cands] imp], q as [peer addrs]. unfold ask_providers. apply safe_signed_message. intros m Hm.
  apply safe_bind. eapply safe_mono; [done| |by apply send_with_nat_traversal_safe].
  assert (safely (λ acc', ∃ more, acc'.1.1 = prov ++ more)
    (_ ← record_failure peer (cfg_max_failures config); Ret (prov, cands, imp))) as Hrec.
  { apply safe_record_failure. exists []. by rewrite app_nil_r. }
  intros [resp|e|] _; [|exact Hrec|exact Hrec].
  destruct (m_payload resp); try (exists []; by rewrite app_nil_r). apply safe_bind.
  eapply safe_mono; [done| |apply (safe_fold_prog (λ _, True))].
  - intros merged _. by eexists.
  - intros [c i] n _ _. unfold merge_candidate. case_bool_decide; [done|]. destruct (existsb _ _); [done|].
    by apply safe_new_node_info.
  - done.
Qed.

Lemma provider_rounds_safe n key queried cands prov :
  safely (λ l, ∃ more, l = prov ++ more) (provider_rounds ctx n key queried cands prov).
Proof.
  revert queried cands prov. induction n as [|n IH]; intros queried cands prov; cbn [provider_rounds].
  { exists []. by rewrite app_nil_r. }
  destruct (pick _ _ _) as [|q qs]; [exists []; by rewrite app_nil_r|]. apply safe_bind.
  eapply safe_mono; [done| |apply (safe_fold_prog (λ acc, ∃ more, acc.1.1 = prov ++ more))].
  - intros [[prov' cands'] imp] [more Hm]. cbn [fst] in Hm. subst prov'. destruct imp; [|by exists more].
    eapply safe_mono; [done| |apply IH]. intros l [more' ->]. exists (more ++ more'). by rewrite app_assoc.
  - intros acc x _ [more Hm]. eapply safe_mono; [done| |apply ask_providers_safe]. intros acc' [more' ->].
    exists (more ++ more'). by rewrite Hm, app_assoc.
  - exists []. by rewrite app_nil_r.
Qed.
End properties.

Section theorems.
Context `{Sha256} `{Ed25519} `{Serde Payload} `{Serde Message} `{Json (list SocketAddr)}.

(** The records the node holds itself when the lookup starts; a failing database gives none. *)
Definition local_providers (o : Oracle) (w : world) (key : list Z) : list NodeInfoSerde :=
  let amb := ambient o (w_next w) in
  match get_providers (am_db amb) (am_unix amb) (n_metadata (interfere o (w_next w) (w_state w))) key with
  | Ok l => l | _ => []
  end.

End theorems.

