(* ===== verification/Maintenance.v ===== *)
(** * Periodic maintenance ([NodeActor] of [src/node.rs])

    Saving the routing table, the maintenance of provider records with the proactive
    replication, the refresh of stale buckets, and the cleanup of the limiters and of the
    chunk counts.  The monotonic clock is in nanoseconds. *)
From S2P Require Import Prelude.
From S2P Require Import Errors.
From S2P Require Import Bytes.
From S2P Require Import External.
From S2P Require Import Identity.
From S2P Require Import Net.
From S2P Require Import Samples.
From S2P Require Import Bucket.
From S2P Require Import Table.
From S2P Require Import TableBounds.
From S2P Require Import Lookup.
From S2P Require Import Erasure.
From S2P Require Import Chunks.
From S2P Require Import Metadata.
From S2P Require Import RateLimit.
From S2P Require Import Message.
From S2P Require Import Race.
From S2P Require Import Actor.
From S2P Require Import Context.
From S2P Require Import Retrieve.
From S2P Require Import Store.

Definition secs (n : Z) : Z := n * 10 ^ 9.

Section maintenance.
Context `{Sha256} `{Ed25519} `{Serde Payload} `{Serde Message} `{Hex} `{Json (list SocketAddr)}.
Context (oc : bool) (ctx : HandlerContext).
Notation config := (c_config ctx).

(** The batch is written under the lock of the store; its outcome is only logged. *)
Definition save_routing_table_sync (peers : list NodeInfoSerde) : prog () :=
  atomic (λ amb s, (set_metadata s (save_peers_batch (am_sql amb) (am_unix amb) (n_metadata s) peers).1, ())).
Definition save_routing_table : prog () :=
  peers ← get (λ s, all_nodes_serde (n_routing_table s));
  save_routing_table_sync peers.

(** ** Provider records *)
(** One own key: its record is renewed, its closest peers are told. *)
Definition republish_key (local_addr : SocketAddr) (key : list Z) : prog () :=
  _ ← own_provider oc ctx key local_addr;
  closest ← closest (from_bytes key) (cfg_k config);
  spread ctx (take (cfg_k config) closest) (AddProviderRequest key [local_addr]).

Definition seen_since (last_maint : Z) (n : NodeInfo) : bool :=
  bool_decide (ni_node_id n ≠ c_node_id ctx) && bool_decide (ni_addresses n ≠ []) && (last_maint <? ni_last_seen n).

(** One own key: its chunk goes to the close peers seen since the last maintenance. *)
Definition replicate_key (last_maint : Z) (key : list Z) : prog () :=
  closest ← closest (from_bytes key) (cfg_k config);
  match filter (λ n, seen_since last_maint n = true) closest with
  | [] => Ret ()
  | new_nodes =>
    r ← atomic (λ amb s, let '(c, r) := chunk_get (am_fs amb) (n_chunks s) key in (set_chunks s c, r));
    match r with
    | Ok (Some chunk_data) =>
      for_each new_nodes (λ node,
        msg ← signed_message ctx (PutChunkRequest key chunk_data);
        spawn (TaskSend (ni_addresses node) msg))
    | _ => Ret ()
    end
  end.

(** The result is the new [last_maintenance_time]; the early returns leave it as it was. *)
Definition do_provider_maintenance (last_maintenance_time : Z) : prog Z :=
  _ ← atomic (λ amb s, (set_metadata s (cleanup_expired_providers (am_db amb) (am_unix amb) (n_metadata s)).1, ()));
  own ← atomic (λ amb s, (s, get_own_providers (am_db amb) (am_unix amb) (n_metadata s) (my_id ctx)));
  match own with
  | Ok [] => Ret last_maintenance_time
  | Ok own_keys =>
    local_addr ← best_addr ctx;
    _ ← for_each own_keys (republish_key local_addr);
    _ ← (if cfg_proactive_replication config then for_each own_keys (replicate_key last_maintenance_time) else Ret ());
    atomic (λ amb s, (s, am_now amb))
  | _ => Ret last_maintenance_time
  end.

(** ** Buckets *)
Definition refresh_bucket (idx : nat) : prog () :=
  target ← atomic (λ amb s, (s, random_id_for_bucket (am_random amb) (n_routing_table s) idx));
  _ ← do_iterative_find_node ctx target; Ret ().
Definition do_bucket_refresh : prog () :=
  stale ← atomic (λ amb s,
    (s, stale_bucket_indices (am_now amb) (secs (cfg_bucket_refresh_interval config)) (n_routing_table s)));
  for_each stale refresh_bucket.

(** ** Limiters and chunk counts *)
Definition limiter_cleanup_tick : prog () :=
  _ ← atomic (λ amb s, (set_relay_limiter s (limiter_cleanup (am_now amb) (secs 300) (n_relay_limiter s)), ()));
  _ ← atomic (λ amb s, (set_write_limiter s (limiter_cleanup (am_now amb) (secs 300) (n_write_limiter s)), ()));
  known_ids ← get (λ s, map ns_node_id (all_nodes_serde (n_routing_table s)));
  atomic (λ _ s, (set_counts s (filter (λ '(id, _), id ∈ known_ids) (n_peer_chunk_counts s)), ())).
End maintenance.

(** ** Safety *)
Section safety.
Context `{Sha256} `{Ed25519} `{Serde Payload} `{Serde Message} `{Hex} `{Json (list SocketAddr)}.
Context (oc : bool) {R : expectations} (ctx : HandlerContext).
Notation config := (c_config ctx).
Notation inv := (node_ok ctx).

Lemma node_ok_same s s' :
  n_routing_table s' = n_routing_table s → n_peer_chunk_counts s' = n_peer_chunk_counts s → inv s → inv s'.
Proof. intros Et Ec [Ht Hl Hc _]. split; [by rewrite Et|by rewrite Et|by rewrite Ec|done]. Qed.

(** The messages that maintenance sends. *)
Definition upkeep (e : effect) : Prop :=
  ∃ addrs m, e = ESpawned (TaskSend addrs m) ∧ outgoing ctx m ∧
    ((∃ key addr, m_payload m = AddProviderRequest key [addr]) ∨
     (∃ key data, m_payload m = PutChunkRequest key data ∧ sha256 data = key)).
Notation safely := (safe_if R inv upkeep).

Lemma safe_signed_payload {B} G (Q : B → Prop) p (f : Message → prog B) :
  (∀ m, outgoing ctx m → m_payload m = p → safe_if R inv G Q (f m)) → safe_if R inv G Q (signed_message ctx p ≫= f).
Proof.
  intros Hf amb s _ Hs. split; [done|]. apply Hf; [by apply outgoing_sign|]. unfold sign. by destruct (signing_bytes _).
Qed.

Lemma republish_key_safe addr key : safely (λ _, True) (republish_key oc ctx addr key).
Proof.
  apply safe_atomic. intros amb s _ Hs. split; [|].
  { destruct (add_provider _ _ _ _ _ _ _ _ _) as [m r]. by apply (node_ok_same s). }
  apply safe_get. intros s1 _. apply safe_for_each. intros n _. apply safe_signed_payload. intros m Hm Hp.
  split; [|done]. exists (ni_addresses n), m. split_and!; [done|done|]. left. eauto.
Qed.

Lemma replicate_key_safe last key : safely (λ _, True) (replicate_key ctx last key).
Proof.
  apply safe_get. intros s _. destruct (filter _ _) as [|n l]; [done|]. apply safe_atomic. intros amb s1 _ Hs1.
  destruct (chunk_get _ _ key) as [c r] eqn:E. split; [by apply (node_ok_same s1)|]. cbn [snd].
  destruct r as [[data|]| |]; [|done..]. apply safe_for_each. intros x _. apply safe_signed_payload. intros m Hm Hp.
  split; [|done]. exists (ni_addresses x), m. split_and!; [done|done|]. right. exists key, data. split; [done|].
  revert E. unfold chunk_get, get_sync. destruct (disk _ !! _); [|done]. destruct (f_read _); [done|].
  case_bool_decide; cbn [negb]; [by intros [= _ <-]|by destruct (f_remove _)].
Qed.

Lemma do_provider_maintenance_safe last : safely (λ _, True) (do_provider_maintenance oc ctx last).
Proof.
  apply safe_atomic. intros amb s _ Hs. split; [by apply (node_ok_same s)|]. apply safe_atomic. intros amb1 s1 _ Hs1. split; [done|].
  cbn [snd]. destruct (get_own_providers _ _ _ _) as [[|key keys]| |]; [done| |done..]. unfold best_addr. apply safe_bind, safe_get.
  intros s2 _. cbn [safe_if]. apply safe_bind. eapply safe_mono; [done| |apply safe_for_each; intros x _; apply republish_key_safe].
  intros _ _. apply safe_bind. assert (safely (λ _, True) (if cfg_proactive_replication config
    then for_each (key :: keys) (replicate_key ctx last) else Ret ())) as Hr.
  { destruct (cfg_proactive_replication config); [|done]. apply safe_for_each. intros x _. apply replicate_key_safe. }
  eapply safe_mono; [done| |exact Hr]. intros _ _. by intros amb3 s3 _ Hs3.
Qed.
End safety.

(** ** What a maintenance run does *)
(** Between the times [t0] and [t1], nothing fails and nothing interferes. *)
Record undisturbed (t0 t1 : Z) (o : Oracle) : Prop := {
  ud_quiet : quiet o;
  ud_db : ∀ n, am_db (ambient o n) = None;
  ud_fs : ∀ n, am_fs (ambient o n) = no_faults;
  ud_unix : ∀ n, t0 ≤ am_unix (ambient o n) ≤ t1;
}.

Section effects.
Context `{Sha256} `{Ed25519} `{Serde Payload} `{Serde Message} `{Hex} `{Json (list SocketAddr)}.
Context (oc : bool) (ctx : HandlerContext) (o : Oracle) (t0 t1 : Z) (Hud : undisturbed t0 t1 o).
Notation config := (c_config ctx).

(** A task that sends [p] to [n], in the name of the node. *)
Definition tells (p : Payload) (n : NodeInfo) (log : list effect) : Prop :=
  ∃ m, ESpawned (TaskSend (ni_addresses n) m) ∈ log ∧ m_payload m = p ∧ outgoing ctx m.

Lemma tells_app p n log log' : tells p n log → tells p n (log ++ log').
Proof. intros (m & Hm & Hp). exists m. split; [|done]. apply elem_of_app. by left. Qed.
Lemma tells_app_r p n log log' : tells p n log' → tells p n (log ++ log').
Proof. intros (m & Hm & Hp). exists m. split; [|done]. apply elem_of_app. by right. Qed.

Lemma signed_ends p w :
  ends o (signed_message ctx p) w (λ m s log, outgoing ctx m ∧ m_payload m = p ∧ s = w_state w ∧ log = []).
Proof.
  eexists _, _, []. split; [reflexivity|]. split; [done|]. split_and!; [by apply outgoing_sign| | |done].
  - unfold sign. by destruct (signing_bytes _).
  - apply (ud_quiet _ _ _ Hud).
Qed.

(** One message per peer, the state untouched. *)
Lemma tell_all_ends l p w :
  ends o (for_each l (λ n, msg ← signed_message ctx p; spawn (TaskSend (ni_addresses n) msg))) w
    (λ _ s log, s = w_state w ∧ ∀ n, n ∈ l → tells p n log).
Proof.
  apply (ends_for_each o l _ (λ done s log, s = w_state w ∧ ∀ n, n ∈ done → tells p n log)).
  2:{ split; [done|]. by intros n ?%elem_of_nil. }
  intros x done w1 log _ [Hs Hd]. eapply ends_bind; [apply signed_ends|].
  intros m w2 l2 (Ho & Hp & Hs2 & ->). apply ends_spawn; [apply Hud|]. split; [congruence|].
  intros n [Hn| ->%list_elem_of_singleton]%elem_of_app; [by apply tells_app, Hd|]. apply tells_app_r. exists m. split; [by left|done].
Qed.

(** The node's own record of [key], renewed. *)
Definition renewed (addr : SocketAddr) (key : list Z) (s : NodeState) : Prop :=
  ∃ row, providers (n_metadata s) !! (key, my_id ctx) = Some row ∧ vr_public_key row = my_key ctx ∧
    json_to_string [addr] = inr (vr_addresses row) ∧ t0 + cfg_provider_ttl config ≤ vr_expires_at row.

(** Every record of [s'] but the node's own is one of [s]. *)
Definition others_kept (s s' : NodeState) : Prop :=
  ∀ key id row, id ≠ my_id ctx →
    providers (n_metadata s') !! (key, id) = Some row ↔ providers (n_metadata s) !! (key, id) = Some row.

Section republish.
Context (addr : SocketAddr) (text : string) (Htext : json_to_string [addr] = inr text).
Context (Ht0 : 0 ≤ t0) (Httl : 0 ≤ cfg_provider_ttl config) (Ht1 : t1 + cfg_provider_ttl config < 2 ^ 63).

Lemma own_provider_ends key w :
  ends o (own_provider oc ctx key addr) w (λ _ s log, log = [] ∧ renewed addr key s ∧
    n_routing_table s = n_routing_table (w_state w) ∧ n_chunks s = n_chunks (w_state w) ∧
    ∀ k row, k ≠ (key, my_id ctx) →
      providers (n_metadata s) !! k = Some row ↔ providers (n_metadata (w_state w)) !! k = Some row).
Proof.
  unfold own_provider. change (atomic ?f) with (atomic f ≫= Ret).
  apply ends_atomic; [apply Hud|]. intros amb ->. apply ends_ret.
  pose proof (ud_unix _ _ _ Hud (w_next w)) as Hu. rewrite (ud_db _ _ _ Hud).
  unfold add_provider, commit, addresses_json. rewrite Htext. cbn [mbind outcome_mbind].
  rewrite usize_arith_ok by (unfold usize_max; lia). cbn. split; [done|]. split_and!; [|done|done|].
  - eexists. cbn [n_metadata set_metadata providers set_providers]. rewrite lookup_insert_eq. split_and!; [done|done|done|]. simpl. unfold as_i64.
    rewrite (proj2 (Z.ltb_lt _ (2 ^ 63))); lia.
  - intros k row Hne. cbn [n_metadata set_metadata providers set_providers]. by rewrite lookup_insert_ne.
Qed.

Definition announced (rt : RoutingTable) (key : list Z) (log : list effect) : Prop :=
  ∀ n, n ∈ closest_nodes rt (from_bytes key) (cfg_k config) → ni_addresses n ≠ [] → ni_node_id n ≠ c_node_id ctx →
    tells (AddProviderRequest key [addr]) n log.

Lemma republish_key_ends key w :
  ends o (republish_key oc ctx addr key) w (λ _ s log,
    renewed addr key s ∧ announced (n_routing_table (w_state w)) key log ∧
    n_routing_table s = n_routing_table (w_state w) ∧ n_chunks s = n_chunks (w_state w) ∧
    ∀ k row, k ≠ (key, my_id ctx) →
      providers (n_metadata s) !! k = Some row ↔ providers (n_metadata (w_state w)) !! k = Some row).
Proof.
  eapply ends_bind; [apply own_provider_ends|]. intros r w1 l1 (-> & Hr & Et & Ec & Hk).
  unfold closest, get. apply ends_atomic; [apply Hud|]. intros amb _. cbn [fst snd].
  eapply ends_mono; [|apply tell_all_ends]. intros _ s log [-> Hl]. split_and!; [done| |done|done|done].
  intros n Hn Ha Hid. rewrite <-Et in Hn. apply Hl. apply list_elem_of_filter. split.
  - unfold has_addresses. by rewrite !bool_decide_eq_false_2.
  - rewrite take_ge; [done|]. destruct (closest_nodes_walk (n_routing_table (w_state w1)) (from_bytes key) (cfg_k config))
      as (lo & hi & c & -> & _). rewrite length_take. lia.
Qed.

Lemma republish_all_ends keys w :
  ends o (for_each keys (republish_key oc ctx addr)) w (λ _ s log,
    (∀ key, key ∈ keys → renewed addr key s ∧ announced (n_routing_table (w_state w)) key log) ∧
    n_routing_table s = n_routing_table (w_state w) ∧ n_chunks s = n_chunks (w_state w) ∧ others_kept (w_state w) s).
Proof.
  apply (ends_for_each o keys _ (λ done s log,
    (∀ key, key ∈ done → renewed addr key s ∧ announced (n_routing_table (w_state w)) key log) ∧
    n_routing_table s = n_routing_table (w_state w) ∧ n_chunks s = n_chunks (w_state w) ∧ others_kept (w_state w) s)).
  2:{ split_and!; [|done|done|done]. by intros key ?%elem_of_nil. }
  intros key done w1 log _ (Hd & Et & Ec & Hk). eapply ends_mono; [|apply republish_key_ends].
  intros _ s log' (Hr & Ha & Et' & Ec' & Hk'). rewrite Et in Ha. split_and!; [|congruence|congruence|].
  - intros k [Hin| ->%list_elem_of_singleton]%elem_of_app.
    + destruct (Hd k Hin) as [(row & Hrow & Hrest) Hann]. split.
      * destruct (decide (k = key)) as [->|Hne]; [done|]. exists row. split; [|done]. apply Hk'; [congruence|done].
      * intros n Hn Had Hid. by apply tells_app, Hann.
    + split; [done|]. intros n Hn Had Hid. by apply tells_app_r, Ha.
  - intros k id row Hid. rewrite (Hk' (k, id) row) by congruence. by apply Hk.
Qed.
End republish.

(** *** Replication *)
(** The store holds the chunk [d] named [h]. *)
Definition intact (c : ChunkStore) (h d : list Z) : Prop := disk c !! chunk_path (base_path c) h = Some d ∧ sha256 d = h.

Lemma chunk_get_intact c h d : intact c h d → chunk_get no_faults c h = (c, Ok (Some d)).
Proof. intros [Hf Hh]. unfold chunk_get, get_sync. rewrite Hf. cbn [f_read no_faults]. by rewrite bool_decide_eq_true_2. Qed.

Lemma chunk_get_keeps c h h' d :
  array_ok 32 h → array_ok 32 h' → intact c h d → intact (chunk_get no_faults c h').1 h d.
Proof.
  intros Hh Hh' Hi. unfold chunk_get, get_sync. destruct (disk c !! chunk_path _ h') as [d'|] eqn:E; [|done].
  cbn [f_read f_remove no_faults]. case_bool_decide as Hd; [done|]. destruct Hi as [Hf Hs]. split; [|done]. cbn.
  rewrite lookup_delete_ne; [done|]. intros Hp. apply (chunk_path_inj (base_path c)) in Hp; [|done..]. congruence.
Qed.

Definition replicated (last : Z) (rt : RoutingTable) (key d : list Z) (log : list effect) : Prop :=
  ∀ n, n ∈ closest_nodes rt (from_bytes key) (cfg_k config) → seen_since ctx last n = true →
    tells (PutChunkRequest key d) n log.

Lemma replicate_key_ends last key w :
  ends o (replicate_key ctx last key) w (λ _ s log,
    n_routing_table s = n_routing_table (w_state w) ∧ n_metadata s = n_metadata (w_state w) ∧
    (∀ h d, array_ok 32 h → array_ok 32 key → intact (n_chunks (w_state w)) h d → intact (n_chunks s) h d) ∧
    ∀ d, intact (n_chunks (w_state w)) key d → replicated last (n_routing_table (w_state w)) key d log).
Proof.
  unfold replicate_key, closest, get. apply ends_atomic; [apply Hud|]. intros amb _. cbn [fst snd].
  destruct (filter _ _) as [|n l] eqn:Ef.
  { apply ends_ret. split_and!; [done|done|done|]. intros d _ n Hn Hs. exfalso.
    assert (n ∈ @nil NodeInfo) as Hin; [|by apply elem_of_nil in Hin]. rewrite <-Ef. by apply list_elem_of_filter. }
  apply ends_atomic; [apply Hud|]. intros amb1 ->. rewrite (ud_fs _ _ _ Hud). cbn [w_state after].
  destruct (chunk_get no_faults (n_chunks (w_state w)) key) as [c r] eqn:E. cbn [fst snd].
  assert (∀ h d, array_ok 32 h → array_ok 32 key → intact (n_chunks (w_state w)) h d → intact c h d) as Hkeep.
  { intros h d Hh Hk Hi. pose proof (chunk_get_keeps _ h key d Hh Hk Hi) as Hk'. by rewrite E in Hk'. }
  assert (∀ d, intact (n_chunks (w_state w)) key d → r = Ok (Some d)) as Hread.
  { intros d Hi. rewrite (chunk_get_intact _ _ _ Hi) in E. by injection E. }
  destruct r as [[data|]| |].
  2-4: (apply ends_ret; split_and!; [done|done|done|]; intros d Hd; by specialize (Hread d Hd)).
  eapply ends_mono; [|apply tell_all_ends]. intros _ s log [-> Hl]. split_and!; [done|done|done|].
  intros d Hd n' Hn Hs. specialize (Hread d Hd). injection Hread as ->. apply Hl. rewrite <-Ef. by apply list_elem_of_filter.
Qed.

Lemma replicate_all_ends last keys w :
  Forall (array_ok 32) keys →
  ends o (for_each keys (replicate_key ctx last)) w (λ _ s log,
    n_metadata s = n_metadata (w_state w) ∧
    ∀ key d, key ∈ keys → intact (n_chunks (w_state w)) key d → replicated last (n_routing_table (w_state w)) key d log).
Proof.
  intros Hkeys. rewrite Forall_forall in Hkeys. eapply ends_mono; [|apply (ends_for_each o keys _ (λ done s log,
    n_routing_table s = n_routing_table (w_state w) ∧ n_metadata s = n_metadata (w_state w) ∧
    (∀ key d, key ∈ keys → intact (n_chunks (w_state w)) key d → intact (n_chunks s) key d) ∧
    ∀ key d, key ∈ done → intact (n_chunks (w_state w)) key d → replicated last (n_routing_table (w_state w)) key d log))].
  - intros _ s log (_ & Hm & _ & Hr). by split.
  - intros key done w1 log Hin (Et & Em & Hi & Hr). eapply ends_mono; [|apply replicate_key_ends].
    intros _ s log' (Et' & Em' & Hi' & Hr'). rewrite Et in Hr'. split_and!; [congruence|congruence| |].
    + intros k d Hk Hd. apply Hi'; [by apply Hkeys..|]. by apply Hi.
    + intros k d [Hk| ->%list_elem_of_singleton]%elem_of_app Hd n Hn Hs; [by apply tells_app, (Hr k d)|].
      apply tells_app_r, (Hr' d); [by apply Hi|done|done].
  - split_and!; [done|done|done|]. by intros key d ?%elem_of_nil.
Qed.

(** *** The whole *)
Lemma elem_of_own_providers now m id keys key :
  get_own_providers None now m id = Ok keys →
  key ∈ keys ↔ length key = 32%nat ∧ ∃ row, providers m !! (key, id) = Some row ∧ live now row = true.
Proof.
  intros [= <-]. rewrite list_elem_of_omap. unfold blob_to_array. split.
  - intros (k & Hk & Hl). case_bool_decide; [|done]. injection Hl as ->. split; [done|].
    rewrite elem_of_remove_dups, list_elem_of_omap in Hk. destruct Hk as ([[k i] r] & Hin%elem_of_map_to_list & Hr).
    destruct (_ && _) eqn:Hb; [|done]. bool_prop. injection Hr as <-. subst i. eauto.
  - intros [Hl (row & Hr & Hv)]. exists key. rewrite bool_decide_eq_true_2 by done. split; [|done].
    rewrite elem_of_remove_dups, list_elem_of_omap. exists ((key, id), row). split; [by apply elem_of_map_to_list|].
    by rewrite bool_decide_eq_true_2, Hv.
Qed.

Lemma live_spec now r : 0 ≤ now < 2 ^ 63 → live now r = true ↔ now < vr_expires_at r.
Proof. intros ?. unfold live, as_i64. rewrite (proj2 (Z.ltb_lt _ (2 ^ 63))) by lia. apply Z.ltb_lt. Qed.
End effects.

Section theorems.
Context `{Sha256} `{Ed25519} `{Serde Payload} `{Serde Message} `{Hex} `{Json (list SocketAddr)}.

(** Keys are 32-byte arrays. *)
Definition keys_ok (m : MetadataStore) : Prop := ∀ key id row, providers m !! (key, id) = Some row → array_ok 32 key.

(** The maintenance of one own record, and its announcement. *)
Definition maintained (ctx : HandlerContext) (t0 last : Z) (s s' : NodeState) (log : list effect) (key : list Z) : Prop :=
  let addr := default (c_local_addr ctx) (n_external_addr s) in
  renewed ctx t0 addr key s' ∧ announced ctx addr (n_routing_table s) key log ∧
  (cfg_proactive_replication (c_config ctx) = true →
   ∀ d, intact (n_chunks s) key d → replicated ctx last (n_routing_table s) key d log).

(** After a cleanup at [u], and what others' records become when only own ones change. *)
Lemma cleanup_others ctx u t0 t1 m0 s1 s :
  t0 ≤ u ≤ t1 → (∀ k row, providers (n_metadata s1) !! k = Some row ↔ providers m0 !! k = Some row ∧ u < vr_expires_at row) →
  others_kept ctx s1 s → ∀ key id row, id ≠ my_id ctx →
    (providers (n_metadata s) !! (key, id) = Some row → providers m0 !! (key, id) = Some row ∧ t0 < vr_expires_at row) ∧
    (providers m0 !! (key, id) = Some row → t1 < vr_expires_at row → providers (n_metadata s) !! (key, id) = Some row).
Proof. intros Hu Hm Hs key id row Hid. rewrite (Hs key id row Hid), Hm. split; [intros [? ?]; split; [done|lia]|]. intros ? ?. split; [done|lia]. Qed.

Lemma maintenance_ends oc ctx o t0 t1 w last text :
  undisturbed t0 t1 o → 0 ≤ t0 → 0 ≤ cfg_provider_ttl (c_config ctx) → t1 + cfg_provider_ttl (c_config ctx) < 2 ^ 63 →
  json_to_string [default (c_local_addr ctx) (n_external_addr (w_state w))] = inr text →
  keys_ok (n_metadata (w_state w)) →
  ends o (do_provider_maintenance oc ctx last) w (λ _ s log,
    (∀ key row, providers (n_metadata (w_state w)) !! (key, my_id ctx) = Some row → t1 < vr_expires_at row →
       maintained ctx t0 last (w_state w) s log key) ∧
    ∀ key id row, id ≠ my_id ctx →
      (providers (n_metadata s) !! (key, id) = Some row → providers (n_metadata (w_state w)) !! (key, id) = Some row ∧ t0 < vr_expires_at row) ∧
      (providers (n_metadata (w_state w)) !! (key, id) = Some row → t1 < vr_expires_at row → providers (n_metadata s) !! (key, id) = Some row)).
Proof.
  intros Hud Ht0 Httl Ht1 Htext Hkeys. unfold do_provider_maintenance.
  apply ends_atomic; [apply Hud|]. intros amb ->. rewrite (ud_db _ _ _ Hud). cbn [fst snd cleanup_expired_providers db].
  pose proof (ud_unix _ _ _ Hud (w_next w)) as Hu. set (u := am_unix (ambient o (w_next w))) in *.
  set (m0 := n_metadata (w_state w)) in *. set (m1 := set_providers m0 _).
  assert (∀ k row, providers m1 !! k = Some row ↔ providers m0 !! k = Some row ∧ u < vr_expires_at row) as Hm1.
  { intros k row. cbn. rewrite map_lookup_filter_Some, <-(live_spec u row) by lia. by rewrite Is_true_true. }
  set (w1 := after w (set_metadata (w_state w) m1) []).
  pose proof (λ s, cleanup_others ctx u t0 t1 m0 (w_state w1) s ltac:(lia) Hm1) as Hothers.
  apply ends_atomic; [apply Hud|]. intros amb1 ->. rewrite (ud_db _ _ _ Hud). cbn [fst snd].
  pose proof (ud_unix _ _ _ Hud (w_next w1)) as Hu1. set (u1 := am_unix (ambient o (w_next w1))) in *.
  destruct (get_own_providers None u1 (n_metadata (w_state w1)) (my_id ctx)) as [keys| |] eqn:Eown; [|done..].
  pose proof (λ k, elem_of_own_providers _ _ _ _ k Eown) as Hown.
  assert (∀ key row, providers m0 !! (key, my_id ctx) = Some row → t1 < vr_expires_at row → key ∈ keys) as Hin.
  { intros key row Hr Ht. apply Hown. split; [exact (proj1 (Hkeys _ _ _ Hr))|]. exists row. split; [apply Hm1; split; [done|lia]|].
    apply live_spec; lia. }
  assert (Forall (array_ok 32) keys) as Hok.
  { apply Forall_forall. intros key (_ & row & Hr & _)%Hown. apply Hm1 in Hr as [Hr _]. by eapply Hkeys. }
  destruct keys as [|k0 keys].
  { apply ends_ret. split; [|by apply Hothers]. intros key row Hr Ht. by apply (Hin key row), elem_of_nil in Hr. }
  set (all := k0 :: keys) in *. clearbody all. cbn [app].
  unfold best_addr, get. eapply ends_bind with (Q := λ a s log, a = default (c_local_addr ctx) (n_external_addr (w_state w)) ∧ s = w_state w1 ∧ log = []).
  { apply ends_atomic; [apply Hud|]. intros amb2 _. by apply ends_ret. }
  intros addr w2 l2 (-> & Hw2 & ->). eapply ends_bind; [by apply (republish_all_ends oc ctx o t0 t1 Hud _ text Htext)|].
  rewrite Hw2. intros [] w3 log3 (Hrep & Et3 & Ec3 & Ho3).
  eapply ends_bind with (Q := λ _ s log, n_metadata s = n_metadata (w_state w3) ∧
    (cfg_proactive_replication (c_config ctx) = true → ∀ key d, key ∈ all → intact (n_chunks (w_state w3)) key d →
       replicated ctx last (n_routing_table (w_state w3)) key d log)).
  { destruct (cfg_proactive_replication _); [|by apply ends_ret].
    eapply ends_mono; [|by apply (replicate_all_ends ctx o t0 t1 Hud)]. intros _ s log [Hm Hr]. split; [done|]. by intros _. }
  intros [] w4 log4 [Em4 Hr4]. change (atomic ?f) with (atomic f ≫= Ret). apply ends_atomic; [apply Hud|]. intros amb4 _. apply ends_ret.
  cbn [app fst snd after w_state]. split.
  - intros key row Hr Ht. specialize (Hin key row Hr Ht). destruct (Hrep key Hin) as [(row' & Hrow' & Hrest) Hann].
    split_and!; [by exists row'; rewrite Em4|intros n Hn Ha Hid; by apply tells_app, Hann|].
    intros Hp d Hd n Hn Hs. rewrite app_nil_r. apply tells_app_r. apply (Hr4 Hp key d Hin); [by rewrite Ec3|by rewrite Et3|done].
  - intros key id row Hid. apply (Hothers (w_state w4)); [|done]. intros k i r Hi. rewrite Em4. by apply Ho3.
Qed.

End theorems.

(** ** A concrete run *)
(** A node that provides the chunk [sample_chunk 7], with one peer. *)
Definition keeper_row : ProviderRow := mkProviderRow (my_key sample_ctx) "" 10.
Definition keeper : NodeState :=
  set_chunks (set_metadata (sample_node [sample_peer (sample_id 1)])
    (set_providers init_tables {[(sample_hash 7, my_id sample_ctx) := keeper_row]}))
    (write_file (sample_store 100) (chunk_path ["chunks"] (sample_hash 7)) (sample_chunk 7)).
Definition keeper_world : world := mkWorld 0 keeper [].
Definition addr_text : string :=
  match json_to_string [c_local_addr sample_ctx] with inr s => s | inl _ => "" end.

Lemma sample_undisturbed : undisturbed 0 0 sample_oracle.
Proof. by split. Qed.

