(* ===== verification/Token.v ===== *)
(** * Tokens ([StoreTesseraResult] as text, [src/node.rs])

    The text a store prints and a retrieval is given: base64 of the MessagePack of a
    [StoreTesseraResultToken], with the manifest hash alone or with all chunk hashes. *)
From S2P Require Import Prelude.
From S2P Require Import Errors.
From S2P Require Import Bytes.
From S2P Require Import External.
From S2P Require Import Identity.
From S2P Require Import Net.
From S2P Require Import Samples.
From S2P Require Import Erasure.
From S2P Require Import Chunks.
From S2P Require Import Metadata.
From S2P Require Import Message.
From S2P Require Import Actor.
From S2P Require Import Context.
From S2P Require Import Retrieve.
From S2P Require Import Store.

(** The fields left out of the text when they are empty or zero are read back as such. *)
Record StoreTesseraResultToken := mkToken {
  tk_h : list (list Z);
  tk_d : Z;
  tk_p : Z;
  tk_l : Z;
  tk_b : Z;
  tk_m : list Z;
}.

Section token.
Context `{Base64} `{Serde StoreTesseraResultToken}.
Context (oc : bool).

Definition token_of (r : StoreTesseraResult) : StoreTesseraResultToken :=
  match sr_manifest_hash r with
  | Some mh => mkToken [] 0 0 0 0 mh
  | None =>
    mkToken (sr_chunk_hashes r) (data_shards (sr_config r)) (parity_shards (sr_config r))
      (Z.of_nat (sr_original_len r)) (Z.of_nat (sr_block_size r)) []
  end.

(** [Display::fmt]: the [expect] panics when the encoder fails. *)
Definition token_to_string (r : StoreTesseraResult) : res string :=
  match rmp_to_vec (token_of r) with
  | inl _ => Panic
  | inr msgpack => Ok (b64_encode msgpack)
  end.

(** [FromStr::from_str]. *)
Definition token_from_str (s : string) : res StoreTesseraResult :=
  match b64_decode s with
  | inl e => Err (Serialization ("base64: " +:+ e))
  | inr bytes =>
    match rmp_from_slice bytes with
    | inl e => Err (Serialization ("msgpack: " +:+ e))
    | inr token =>
      if negb (bool_decide (tk_m token = [])) then
        if negb (length (tk_m token) =? 32)%nat then Err (Serialization "manifest hash must be 32 bytes")
        else
          placeholder ← ErasureConfig_new oc 10 4;
          Ok (mkStored [] placeholder 0 0 (Some (tk_m token)))
      else
        chunk_hashes ← mapM_outcome hash_array (tk_h token);
        config ← ErasureConfig_new oc (tk_d token) (tk_p token);
        Ok (mkStored chunk_hashes config (Z.to_nat (tk_l token)) (Z.to_nat (tk_b token)) None)
    end
  end.
End token.

(** ** Round trip *)
(** A stored result with 32-byte hashes and, without a manifest, a valid configuration. *)
Definition result_ok (r : StoreTesseraResult) : Prop :=
  match sr_manifest_hash r with
  | Some mh => array_ok 32 mh
  | None => Forall (array_ok 32) (sr_chunk_hashes r) ∧
      ∃ d p, sr_config r = mkConfig d p ∧ 1 ≤ d ∧ 1 ≤ p ∧ d + p ≤ 256
  end.
(** What a token keeps of it. *)
Definition token_view (r : StoreTesseraResult) : StoreTesseraResult :=
  match sr_manifest_hash r with
  | Some mh => mkStored [] (mkConfig 10 4) 0 0 (Some mh)
  | None => r
  end.

Lemma hash_array_all l : Forall (array_ok 32) l → mapM_outcome hash_array l = Ok l.
Proof.
  intros Hl. apply mapM_outcome_id. eapply Forall_impl; [exact Hl|]. intros h [Hh _]. unfold hash_array.
  by rewrite (proj2 (Nat.eqb_eq _ _) Hh).
Qed.

Lemma ErasureConfig_new_valid oc d p : 1 ≤ d → 1 ≤ p → d + p ≤ 256 → ErasureConfig_new oc d p = Ok (mkConfig d p).
Proof.
  intros Hd Hp Hs. unfold ErasureConfig_new. rewrite (proj2 (Z.eqb_neq d 0)), (proj2 (Z.eqb_neq p 0)) by lia.
  rewrite usize_arith_ok by (unfold usize_max; lia). cbn [mbind outcome_mbind]. by rewrite (proj2 (Z.ltb_ge _ _)) by lia.
Qed.

(** Encoders give bytes. *)
Class SerdeBytes (A : Type) `{Serde A} := serde_bytes : ∀ a b, rmp_to_vec (A := A) a = inr b → bytes_ok b.

Section roundtrip.
Context `{Base64} `{TL : SerdeLaws StoreTesseraResultToken PT} `{!SerdeBytes StoreTesseraResultToken}.

Lemma token_parse oc r s :
  result_ok r → PT (token_of r) → token_to_string r = Ok s → token_from_str oc s = Ok (token_view r).
Proof.
  intros Hr Ht. unfold token_to_string, token_from_str. destruct (rmp_to_vec (token_of r)) as [|b] eqn:Eb; [done|]. intros [= <-].
  rewrite b64_roundtrip by by eapply serde_bytes. rewrite (serde_roundtrip _ _ Ht Eb).
  unfold result_ok, token_view, token_of in *. destruct r as [hs c l bs [mh|]]; cbn [sr_manifest_hash tk_m tk_h tk_d tk_p tk_l tk_b] in *.
  - destruct Hr as [Hl _]. rewrite bool_decide_eq_false_2 by (intros ->; done). rewrite (proj2 (Nat.eqb_eq _ _) Hl). cbn [negb].
    by rewrite ErasureConfig_new_valid by lia.
  - destruct Hr as [Hh (d & p & Hc & Hd & Hp & Hs)]. cbn [sr_config sr_chunk_hashes sr_original_len sr_block_size] in *. subst c.
    rewrite bool_decide_eq_true_2 by done. cbn [negb data_shards parity_shards]. rewrite hash_array_all by done.
    cbn [mbind outcome_mbind]. rewrite ErasureConfig_new_valid by done. cbn [mbind outcome_mbind]. by rewrite !Nat2Z.id.
Qed.

(** Printing the result of a store and reading the text back loses nothing a retrieval needs: without
    a manifest the whole result returns, with one its hash, and the result read back prints the
    same text.  Nothing accepted is malformed: hashes are 32 bytes and the
    configuration is one of the codec, whatever the text. *)
Theorem token_roundtrip oc r s :
  result_ok r → PT (token_of r) → token_to_string r = Ok s →
  token_from_str oc s = Ok (token_view r) ∧ token_to_string (token_view r) = Ok s ∧
  ∀ s' r', token_from_str oc s' = Ok r' →
    Forall (λ h, length h = 32%nat) (sr_chunk_hashes r') ∧
    match sr_manifest_hash r' with Some mh => length mh = 32%nat | None => True end.
Proof.
  intros Hr Ht Hs. split; [by apply token_parse|]. split.
  { revert Hs. unfold token_view, token_to_string, token_of. clear. destruct r as [? ? ? ? [mh|]]; done. }
  intros s' r'. unfold token_from_str. destruct (b64_decode s') as [|b]; [done|]. destruct (rmp_from_slice b) as [|t]; [done|].
  case_bool_decide; cbn [negb].
  - intros (hs & Hh & E)%outcome_bind_Ok. apply outcome_bind_Ok in E as (c & _ & [= <-]). cbn. split; [|done].
    apply mapM_outcome_Ok in Hh. clear -Hh. induction Hh as [|x y l k Hx _ IH]; [constructor|]. constructor; [|done].
    revert Hx. unfold hash_array. destruct (length x =? 32)%nat eqn:E; [|done]. intros [= <-]. by apply Nat.eqb_eq.
  - destruct (length (tk_m t) =? 32)%nat eqn:E; [|done]. cbn [negb]. intros (c & _ & [= <-])%outcome_bind_Ok. cbn.
    split; [constructor|]. by apply Nat.eqb_eq.
Qed.
End roundtrip.

(** ** From a store to a retrieval by token *)
Section journey.
Context `{Sha256} `{Ed25519} `{RS : ReedSolomon} `{Hex} `{Json (list SocketAddr)} `{Base64}.
Context `{Serde Payload} `{Serde Message} `{ML : SerdeLaws TesseraManifest PM}.
Context `{TL : SerdeLaws StoreTesseraResultToken PT} `{!SerdeBytes StoreTesseraResultToken}.
Context (oc : bool) (d p : nat) `{!ReedSolomonLaws d p}.
Notation c := (mkConfig (Z.of_nat d) (Z.of_nat p)).

(** [NodeHandle::retrieve]: the fields of the result are the command's. *)
Definition retrieve (ctx : HandlerContext) (r : StoreTesseraResult) : prog (res (list Z)) :=
  do_retrieve_tessera oc ctx (sr_chunk_hashes r) (sr_config r) (Z.of_nat (sr_original_len r)) (Z.of_nat (sr_block_size r))
    (sr_manifest_hash r) None.

(** C5: The journey of a tessera on one node: store the data, print the token, read the token back,
    retrieve with it, and the data returns, with no help from the network.  The token can always be
    printed and read, if the codecs can encode.  The other tasks lose no chunk, the disk reads back
    what it wrote, no timeout fires, and no two chunks in play share a hash. *)
Theorem token_journey ctx base (P : list Z → Prop) o data w progress_tx :
  (∀ m, ∃ bytes, rmp_to_vec (A := TesseraManifest) m = inr bytes) → (∀ m, PM m) →
  (∀ t, ∃ bytes, rmp_to_vec (A := StoreTesseraResultToken) t = inr bytes) → (∀ t, PT t) →
  config_ok d p → data ≠ [] → Z.of_nat (length data) ≤ isize_max → one_to_one P → (∀ x, written oc data c x → P x) →
  meets calm o → (∀ D, preserves (node_inv (holds base P D) ctx) o) → node_inv (holds base P []) ctx (w_state w) →
  ∃ r w', run o (do_store_tessera oc ctx data c progress_tx) w = (Some r, w') ∧ r ≠ Panic ∧
    ∀ sr, r = Ok sr → ∃ s sr' w'', token_to_string sr = Ok s ∧ token_from_str oc s = Ok sr' ∧
      run o (retrieve ctx sr') w' = (Some (Ok data), w'').
Proof.
  intros Hser Hm Htok Ht Hc Hne Hmax Hinj HP Hcalm Ho Hs.
  destruct (store_then_retrieve_spec oc d p ctx base P o data w progress_tx None Hser Hm Hc Hne Hmax Hinj HP Hcalm Ho Hs) as (r & w' & E & Hp & Hr).
  exists r, w'. split_and!; [done|done|]. intros sr Hok. destruct (Hr sr Hok) as [(mh & Emh & Hmh) Hret].
  destruct (Htok (token_of sr)) as [b Hb]. exists (b64_encode b), (token_view sr).
  assert (token_to_string sr = Ok (b64_encode b)) as Hs1 by (unfold token_to_string; by rewrite Hb).
  assert (result_ok sr) as Hrok by (unfold result_ok; by rewrite Emh).
  unfold retrieve, token_view. rewrite Emh. cbn [sr_chunk_hashes sr_config sr_original_len sr_block_size sr_manifest_hash].
  destruct (Hret (mkConfig 10 4) (Z.of_nat 0) (Z.of_nat 0)) as [w'' E'']. rewrite Emh in E''. exists w''.
  split_and!; [done| |done]. rewrite (token_parse oc sr _ Hrok (Ht _) Hs1). unfold token_view. by rewrite Emh.
Qed.
End journey.

(** ** Concrete tokens *)
#[export] Instance token_eq_dec : EqDecision StoreTesseraResultToken.
Proof. solve_decision. Defined.
#[export] Program Instance token_countable : Countable StoreTesseraResultToken :=
  inj_countable' (λ t, (tk_h t, tk_d t, tk_p t, tk_l t, tk_b t, tk_m t))
    (λ '(h, d, p, l, b, m), mkToken h d p l b m) _.
Next Obligation. by intros []. Qed.
#[export] Instance token_serde : Serde StoreTesseraResultToken := toy_serde _.
#[export] Instance token_serde_laws : SerdeLaws StoreTesseraResultToken (λ _, True) := toy_serde_laws _ _.
#[export] Instance token_serde_bytes : SerdeBytes StoreTesseraResultToken.
Proof.
  intros t b [= <-]. apply Forall_fmap, Forall_forall. intros ch _. unfold u8_ok. simpl.
  pose proof (Ascii.N_ascii_bounded ch). lia.
Qed.

(** One character per byte. *)
#[export] Program Instance toy_b64 : Base64 := {|
  b64_encode l := String.string_of_list_ascii ((λ b, Ascii.ascii_of_N (Z.to_N b)) <$> l);
  b64_decode s := inr ((λ c, Z.of_N (Ascii.N_of_ascii c)) <$> String.list_ascii_of_string s) |}.
Next Obligation.
  intros l Hl. cbv beta. f_equal. rewrite String.list_ascii_of_string_of_list_ascii. induction Hl as [|b l Hb _ IH]; [done|].
  cbn. unfold u8_ok in Hb. rewrite Ascii.N_ascii_embedding by lia. rewrite Z2N.id by lia. by f_equal.
Qed.

Definition inline_result : StoreTesseraResult := mkStored [replicate 32 7; replicate 32 8] (mkConfig 1 1) 3 2 None.

Lemma token_roundtrip_witness :
  ∃ s, token_to_string inline_result = Ok s ∧ token_from_str true s = Ok inline_result.
Proof.
  eexists. split; [reflexivity|]. apply (token_roundtrip (PT := λ _, True) true inline_result); [|exact Logic.I|reflexivity].
  split; [repeat constructor; decide_compute|]. exists 1, 1. split; [reflexivity|]. lia.
Defined.

Lemma token_journey_witness :
  ∃ sr w' s sr' w'', sample_store_run = (Some (Ok sr), w') ∧ token_to_string sr = Ok s ∧ token_from_str true s = Ok sr' ∧
    run sample_oracle (retrieve true sample_ctx sr') w' = (Some (Ok sample_data), w'').
Proof.
  destruct (token_journey (PM := λ _, True) (PT := λ _, True) true 2 1 sample_ctx ["chunks"] (λ x, x ∈ big_bytes) sample_oracle sample_data
    (sample_world []) (Some 5%nat)) as (r & w' & E & _ & Hr).
  - exact manifests_serialize.
  - done.
  - intros t. by eexists.
  - done.
  - split_and!; lia.
  - done.
  - by vm_compute.
  - exact big_one_to_one.
  - exact big_written.
  - exact calm_sample.
  - intros D. apply sample_preserves.
  - apply sample_holds.
  - destruct sample_store_ok as (sr & w0 & Eok). change (sample_store_run = (Some r, w')) in E.
    rewrite Eok in E. injection E as <- <-.
    destruct (Hr sr eq_refl) as (s & sr' & w'' & E1 & E2 & E3). exists sr, w0, s, sr', w''.
    split; [exact Eok|]. split; [exact E1|]. split; [exact E2|exact E3].
Defined.
