(* ===== verification/Stun.v ===== *)
(** * NAT discovery ([src/transport/nat.rs], the server of [src/bin/nat-test-helper.rs])

    The STUN client: its request, the checks on the response, the search of the attributes
    and the two address formats; the test server that answers it; hole punching; the relay
    session.  Sockets, resolution and time are arguments. *)
From stdpp Require Import pretty.
From S2P Require Import Prelude.
From S2P Require Import Errors.
From S2P Require Import Bytes.
From S2P Require Import Net.
From S2P Require Import Samples.

Definition MAGIC : list Z := [33; 18; 164; 66].

(** ** Slices: [l[i]] and [&l[a..b]] panic out of range *)
Definition index (l : list Z) (i : nat) : res Z := match l !! i with Some b => Ok b | None => Panic end.
Definition range (l : list Z) (a b : nat) : res (list Z) :=
  if (a <=? b)%nat && (b <=? length l)%nat then Ok (take (b - a) (drop a l)) else Panic.
Definition u16_at (l : list Z) (i : nat) : res Z := a ← index l i; b ← index l (S i); Ok (be_value [a; b]).

(** ** Addresses *)
Definition parse_mapped (data : list Z) : res SocketAddr :=
  if (length data <? 8)%nat then Err (Network "mapped-address too short")
  else
    family ← index data 1;
    port ← u16_at data 2;
    if family =? 1 then
      a ← index data 4; b ← index data 5; c ← index data 6; d ← index data 7;
      Ok (mkAddr (V4 a b c d) port)
    else Err (Network ("unsupported address family: " +:+ pretty family)).

Definition parse_xor_mapped (data txn_id : list Z) : res SocketAddr :=
  if (length data <? 8)%nat then Err (Network "xor-mapped-address too short")
  else
    family ← index data 1;
    p ← u16_at data 2;
    let xport := Z.lxor p 8466 in
    if family =? 1 then
      a ← index data 4; b ← index data 5; c ← index data 6; d ← index data 7;
      Ok (mkAddr (V4 (Z.lxor a 33) (Z.lxor b 18) (Z.lxor c 164) (Z.lxor d 66)) xport)
    else if family =? 2 then
      if (length data <? 20)%nat then Err (Network "xor-mapped-address ipv6 too short")
      else
        let xor_key := MAGIC ++ txn_id in
        ip_bytes ← mapM_outcome (λ i, b ← index data (4 + i); k ← index xor_key i; Ok (Z.lxor b k)) (seq 0 16);
        Ok (mkAddr (V6 ip_bytes) xport)
    else Err (Network ("unknown address family: " +:+ pretty family)).

(** ** Attributes *)
(** [(attr_len + 3) & !3]. *)
Definition padded (n : nat) : nat := Z.to_nat (Z.land (Z.of_nat n + 3) (2 ^ 64 - 4)).

(** The attribute at an offset: its type, its stated length, its data as far as they go. *)
Definition attribute (attrs : list Z) (offset : nat) : res (Z * nat * list Z) :=
  attr_type ← u16_at attrs offset;
  attr_len ← u16_at attrs (offset + 2);
  let attr_len := Z.to_nat attr_len in
  attr_data ← range attrs (offset + 4) (offset + 4 + Nat.min attr_len (length attrs - offset - 4));
  Ok (attr_type, attr_len, attr_data).

(** The [while] loop; [None] when the fuel runs out. *)
Fixpoint parse_attrs (fuel offset : nat) (attrs txn_id : list Z) : option (res SocketAddr) :=
  match fuel with
  | O => None
  | S fuel =>
    if (offset + 4 <=? length attrs)%nat then
      match attribute attrs offset with
      | Ok (attr_type, attr_len, attr_data) =>
        if attr_type =? 32 then Some (parse_xor_mapped attr_data txn_id)
        else if attr_type =? 1 then Some (parse_mapped attr_data)
        else parse_attrs fuel (offset + (4 + padded attr_len)) attrs txn_id
      | Err e => Some (Err e)
      | Panic => Some Panic
      end
    else Some (Err (Network "no mapped address in stun response"))
  end.
Definition parse_mapped_address (attrs txn_id : list Z) : option (res SocketAddr) :=
  parse_attrs (S (length attrs)) 0 attrs txn_id.

(** ** The client *)
Definition binding_request (txn_id : list Z) : list Z := [0; 1; 0; 0] ++ MAGIC ++ txn_id.

(** The checks on a response, then its attributes. *)
Definition read_attrs (response txn_id : list Z) : res (list Z) :=
  if (length response <? 20)%nat then Err (Network "stun response too short")
  else
    cookie ← range response 4 8;
    if negb (bool_decide (cookie = MAGIC)) then Err (Network "invalid stun magic cookie")
    else
      id ← range response 8 20;
      if negb (bool_decide (id = txn_id)) then Err (Network "stun transaction id mismatch")
      else
        msg_len ← u16_at response 2;
        range response 20 (20 + Nat.min (Z.to_nat msg_len) (length response - 20)).
Definition read_response (response txn_id : list Z) : option (res SocketAddr) :=
  match read_attrs response txn_id with
  | Ok attrs => parse_mapped_address attrs txn_id
  | Err e => Some (Err e)
  | Panic => Some Panic
  end.

(** What the operating system and the network answer: each step's error text, the resolved
    addresses, and the datagram ([None]: nothing within five seconds). *)
Record StunEnv := mkStun {
  st_bind : option string;
  st_resolved : string + list SocketAddr;
  st_sent : option string;
  st_received : option (string + list Z);
}.
(** A datagram is cut to the buffer. *)
Definition recv_into (size : nat) (datagram : list Z) : list Z := take size datagram.

Definition discover_external_addr (env : StunEnv) (txn_id : list Z) : option (res SocketAddr) :=
  match st_bind env with
  | Some e => Some (Err (Network ("bind: " +:+ e)))
  | None =>
    match st_resolved env with
    | inl e => Some (Err (Network ("resolve stun server: " +:+ e)))
    | inr [] => Some (Err (Network "no addresses for stun server"))
    | inr (_ :: _) =>
      match st_sent env with
      | Some e => Some (Err (Network ("send stun: " +:+ e)))
      | None =>
        match st_received env with
        | None => Some (Err Timeout)
        | Some (inl e) => Some (Err (Network ("recv stun: " +:+ e)))
        | Some (inr datagram) => read_response (recv_into 256 datagram) txn_id
        end
      end
    end
  end.

(** ** The test server: the reply to a datagram, if any *)
Definition stun_reply (datagram : list Z) (from : SocketAddr) : res (option (list Z)) :=
  let buf := recv_into 256 datagram in
  if (length buf <? 20)%nat then Ok None
  else
    b0 ← index buf 0; b1 ← index buf 1;
    if negb (b0 =? 0) || negb (b1 =? 1) then Ok None
    else
      cookie ← range buf 4 8;
      if negb (bool_decide (cookie = MAGIC)) then Ok None
      else
        txn_id ← range buf 8 20;
        match ip from with
        | V4 a b c d =>
          let attr := [0; 32; 0; 8; 0; 1] ++ to_be_bytes 2 (Z.lxor (port from) 8466)
                      ++ [Z.lxor a 33; Z.lxor b 18; Z.lxor c 164; Z.lxor d 66] in
          Ok (Some ([1; 1] ++ to_be_bytes 2 (Z.of_nat (length (MAGIC ++ txn_id ++ attr) + 4 - 20)) ++ MAGIC ++ txn_id ++ attr))
        | V6 _ => Ok None
        end.

(** ** Hole punching *)
Definition PROBE : list Z := [84; 69; 83; 83; 69; 82; 65; 95; 80; 85; 78; 67; 72].
(** What arrives within the half second of an attempt, if anything: the datagram and its sender. *)
Fixpoint punch (attempts : nat) (i : nat) (arrives : nat → option (list Z * SocketAddr)) : res () :=
  match attempts with
  | O => Err (Network "hole punch failed after all attempts")
  | S attempts =>
    match arrives i with
    | Some (datagram, from) =>
      let buf := recv_into 64 datagram in
      if (length PROBE <=? length buf)%nat && bool_decide (take (length PROBE) buf = PROBE) then Ok ()
      else punch attempts (S i) arrives
    | None => punch attempts (S i) arrives
    end
  end.
Definition attempt_hole_punch (bind : option string) (attempts : nat) (arrives : nat → option (list Z * SocketAddr)) : res () :=
  match bind with Some e => Err (Network ("bind for hole punch: " +:+ e)) | None => punch attempts 0 arrives end.

(** ** Relay sessions *)
Record RelaySession := mkRelay { peer_a : SocketAddr; peer_b : SocketAddr }.
Definition forward_target (s : RelaySession) (from : SocketAddr) : option SocketAddr :=
  if bool_decide (from = peer_a s) then Some (peer_b s)
  else if bool_decide (from = peer_b s) then Some (peer_a s)
  else None.

(** ** Slices in range *)
Lemma index_some l i : (i < length l)%nat → ∃ b, index l i = Ok b.
Proof. intros Hi. unfold index. destruct (lookup_lt_is_Some_2 l i Hi) as [b ->]. by exists b. Qed.

Lemma u16_at_some l i : (S i < length l)%nat → ∃ x, u16_at l i = Ok x.
Proof.
  intros Hi. unfold u16_at. destruct (index_some l i) as [a ->]; [lia|]. destruct (index_some l (S i)) as [b ->]; [lia|]. by eexists.
Qed.

Lemma range_some l a b : (a ≤ b ≤ length l)%nat → range l a b = Ok (take (b - a) (drop a l)).
Proof. intros Hr. unfold range. by rewrite (proj2 (Nat.leb_le _ _)), (proj2 (Nat.leb_le _ _)) by lia. Qed.

Lemma range_app pre x rest b : b = (length pre + length x)%nat → range (pre ++ x ++ rest) (length pre) b = Ok x.
Proof.
  intros ->. rewrite range_some by (rewrite !length_app; lia). rewrite drop_app_length.
  by rewrite take_app_length' by lia.
Qed.

Lemma index_app pre rest i : index (pre ++ rest) (length pre + i) = index rest i.
Proof. unfold index. rewrite lookup_app_r by lia. by replace (length pre + i - length pre)%nat with i by lia. Qed.

Lemma u16_at_app pre x rest : length x = 2%nat → u16_at (pre ++ x ++ rest) (length pre) = Ok (be_value x).
Proof.
  intros Hx. destruct x as [|a [|b [|]]]; try done. unfold u16_at.
  pose proof (index_app pre ([a; b] ++ rest) 0) as H0. pose proof (index_app pre ([a; b] ++ rest) 1) as H1.
  rewrite Nat.add_0_r in H0. rewrite Nat.add_1_r in H1. by rewrite H0, H1.
Qed.

(** ** No response makes the client panic or loop *)
Ltac four_octets data :=
  destruct (index_some data 4) as [? ->]; [lia|]; cbn [mbind outcome_mbind];
  destruct (index_some data 5) as [? ->]; [lia|]; cbn [mbind outcome_mbind];
  destruct (index_some data 6) as [? ->]; [lia|]; cbn [mbind outcome_mbind];
  destruct (index_some data 7) as [? ->]; [lia|]; done.

Lemma parse_mapped_total data : parse_mapped data ≠ Panic.
Proof.
  unfold parse_mapped. destruct (Nat.ltb_spec (length data) 8) as [|Hl]; [done|].
  destruct (index_some data 1) as [f ->]; [lia|]. destruct (u16_at_some data 2) as [p ->]; [lia|]. cbn [mbind outcome_mbind].
  destruct (f =? 1); [|done]. four_octets data.
Qed.

Lemma parse_xor_mapped_total data txn : length txn = 12%nat → parse_xor_mapped data txn ≠ Panic.
Proof.
  intros Ht. unfold parse_xor_mapped. destruct (Nat.ltb_spec (length data) 8) as [|Hl]; [done|].
  destruct (index_some data 1) as [f ->]; [lia|]. destruct (u16_at_some data 2) as [p ->]; [lia|]. cbn [mbind outcome_mbind].
  destruct (f =? 1).
  { four_octets data. }
  destruct (f =? 2); [|done]. destruct (Nat.ltb_spec (length data) 20) as [|Hl']; [done|].
  destruct (mapM_outcome_total (λ i, b ← index data (4 + i); k ← index (MAGIC ++ txn) i; Ok (Z.lxor b k)) (seq 0 16))
    as [o E]; [|rewrite E; done].
  intros i Hi%elem_of_seq. destruct (index_some data (4 + i)) as [b ->]; [lia|].
  destruct (index_some (MAGIC ++ txn) i) as [k ->]; [rewrite length_app, Ht; simpl; lia|]. by eexists.
Qed.

Lemma attribute_total attrs offset :
  (offset + 4 ≤ length attrs)%nat → ∃ x, attribute attrs offset = Ok x.
Proof.
  intros Ho. unfold attribute. destruct (u16_at_some attrs offset) as [ty ->]; [lia|].
  destruct (u16_at_some attrs (offset + 2)) as [n ->]; [lia|]. cbn [mbind outcome_mbind]. rewrite range_some by lia. by eexists.
Qed.

Lemma parse_attrs_total fuel offset attrs txn :
  length txn = 12%nat → (0 < fuel)%nat → (length attrs < fuel + offset)%nat → ∃ r, parse_attrs fuel offset attrs txn = Some r ∧ r ≠ Panic.
Proof.
  intros Ht. revert offset. induction fuel as [|fuel IH]; intros offset Hp Hf; cbn [parse_attrs]; [lia|].
  destruct (Nat.leb_spec (offset + 4) (length attrs)) as [Ho|]; [|by eexists].
  destruct (attribute_total attrs offset Ho) as [[[ty n] data] ->].
  destruct (ty =? 32); [eexists; split; [done|by apply parse_xor_mapped_total]|].
  destruct (ty =? 1); [eexists; split; [done|apply parse_mapped_total]|]. apply IH; lia.
Qed.

(** ** What the client finds *)
Lemma lxor_bound n x y : 0 ≤ n → 0 ≤ x < 2 ^ n → 0 ≤ y < 2 ^ n → 0 ≤ Z.lxor x y < 2 ^ n.
Proof.
  intros Hn Hx Hy. assert (0 ≤ Z.lxor x y) as H0 by (apply Z.lxor_nonneg; lia). split; [done|].
  destruct (decide (Z.lxor x y = 0)) as [->|Hne]; [apply Z.pow_pos_nonneg; lia|]. apply Z.log2_lt_pow2; [lia|].
  eapply Z.le_lt_trans; [apply Z.log2_lxor; lia|]. destruct (decide (0 < n)) as [Hp|].
  - apply Z.max_lub_lt; (destruct (decide (0 < x)), (decide (0 < y))); try (apply Z.log2_lt_pow2; lia);
      rewrite Z.log2_nonpos by lia; lia.
  - assert (n = 0) as -> by lia. change (2 ^ 0) with 1 in *. assert (x = 0) as -> by lia. assert (y = 0) as -> by lia. done.
Qed.

Lemma lxor_twice x y : Z.lxor (Z.lxor x y) y = x.
Proof. by rewrite Z.lxor_assoc, Z.lxor_nilpotent, Z.lxor_0_r. Qed.

Definition octets (x : IpAddr) : list Z := match x with V4 a b c d => [a; b; c; d] | V6 o => o end.
Definition family (x : IpAddr) : Z := match x with V4 _ _ _ _ => 1 | V6 _ => 2 end.

(** The value of XOR-MAPPED-ADDRESS by RFC 5389: the port is combined with the first half of the
    magic cookie, the address with the cookie and the transaction id. *)
Definition xor_value (txn_id : list Z) (addr : SocketAddr) : list Z :=
  [0; family (ip addr)] ++ to_be_bytes 2 (Z.lxor (port addr) 8466) ++ zip_with Z.lxor (octets (ip addr)) (MAGIC ++ txn_id).
Definition mapped_value (addr : SocketAddr) : list Z :=
  [0; family (ip addr)] ++ to_be_bytes 2 (port addr) ++ octets (ip addr).

Lemma be_value_port p : 0 ≤ p ≤ u16_max → be_value (to_be_bytes 2 p) = p.
Proof. intros Hp. apply be_value_to_be. unfold u16_max in Hp. change (256 ^ Z.of_nat 2) with 65536. lia. Qed.

Lemma xport_bound p : 0 ≤ p ≤ u16_max → 0 ≤ Z.lxor p 8466 ≤ u16_max.
Proof. unfold u16_max. intros Hp. pose proof (lxor_bound 16 p 8466 ltac:(lia) ltac:(lia) ltac:(lia)). lia. Qed.

Lemma two_bytes x : ∃ a b, to_be_bytes 2 x = [a; b].
Proof. destruct (to_be_bytes_ok 2 x) as [Hl _]. destruct (to_be_bytes 2 x) as [|a [|b [|]]]; try done. by exists a, b. Qed.

Lemma parse_mapped_value addr : addr_ok addr → is_ipv4 addr = true → parse_mapped (mapped_value addr) = Ok addr.
Proof.
  intros [_ Hp] H4. destruct addr as [[a b c d|o] p]; [|done]. cbn [ip port] in *. pose proof (be_value_port p Hp) as E.
  unfold mapped_value. cbn [ip port family octets]. destruct (two_bytes p) as (x & y & Ep). rewrite Ep in *.
  unfold parse_mapped. cbn. cbn in E. by rewrite E.
Qed.

Lemma parse_xor_value txn addr :
  addr_ok addr → length txn = 12%nat → parse_xor_mapped (xor_value txn addr) txn = Ok addr.
Proof.
  intros [Hi Hp] Ht. destruct addr as [i p]. cbn [ip port] in *.
  pose proof (be_value_port _ (xport_bound p Hp)) as E. unfold xor_value. cbn [ip port].
  destruct (two_bytes (Z.lxor p 8466)) as (x & y & Ep). rewrite Ep in *. unfold parse_xor_mapped. destruct i as [a b c d|o].
  - cbn -[Z.lxor be_value]. rewrite E. cbn [mbind outcome_mbind]. by rewrite !lxor_twice.
  - cbn [family octets ip_ok] in *. destruct Hi as [Hl _].
    assert (length (MAGIC ++ txn) = 16%nat) as Hk by (rewrite length_app, Ht; done). cbv zeta.
    generalize dependent (MAGIC ++ txn). intros key Hk.
    assert (length (zip_with Z.lxor o key) = 16%nat) as Hz by (rewrite length_zip_with, Hl, Hk; done).
    assert (mapM_outcome (λ i, b ← index ([0; 2; x; y] ++ zip_with Z.lxor o key) (4 + i);
      k ← index key i; Ok (Z.lxor b k)) (seq 0 16) = Ok (E := TesseraError) o) as Ho.
    { apply mapM_outcome_Ok. apply Forall2_same_length_lookup_2; [by rewrite length_seq|]. intros i j b Hj Hb.
      apply lookup_seq in Hj as [-> Hj]. destruct (lookup_lt_is_Some_2 key i) as [k Hki]; [lia|].
      assert (index ([0; 2; x; y] ++ zip_with Z.lxor o key) (4 + i) = Ok (Z.lxor b k)) as E4.
      { change 4%nat with (length [0; 2; x; y]). rewrite index_app. unfold index. by rewrite lookup_zip_with, Hb; cbn; rewrite Hki. }
      cbn [Nat.add] in *. rewrite E4. cbn [mbind outcome_mbind]. unfold index. rewrite Hki. cbn [mbind outcome_mbind].
      by rewrite lxor_twice. }
    change ([0; 2] ++ [x; y] ++ zip_with Z.lxor o key) with ([0; 2; x; y] ++ zip_with Z.lxor o key). rewrite Ho.
    rewrite length_app, Hz. cbn -[Z.lxor be_value zip_with]. rewrite E. cbn [mbind outcome_mbind]. by rewrite lxor_twice.
Qed.

(** ** Attributes in sequence *)
Lemma padded_eq n : (n < 2 ^ 32)%nat → padded n = ((n + 3) / 4 * 4)%nat.
Proof.
  intros Hn. unfold padded. assert (Z.of_nat n + 3 < 2 ^ 64) as Hb.
  { apply inj_lt in Hn. rewrite Nat2Z.inj_pow in Hn. change (Z.of_nat 2 ^ Z.of_nat 32) with (2 ^ 32) in Hn. lia. }
  assert (Z.land (Z.of_nat n + 3) (2 ^ 64 - 4) = (Z.of_nat n + 3) / 4 * 4) as ->.
  { change (2 ^ 64 - 4) with (Z.ldiff (Z.ones 64) (Z.ones 2)).
    rewrite Z.ldiff_land, Z.land_assoc, <-Z.ldiff_land. rewrite Z.land_ones by lia. rewrite Z.mod_small by lia.
    rewrite Z.ldiff_ones_r by lia. rewrite Z.shiftl_mul_pow2, Z.shiftr_div_pow2 by lia. done. }
  apply Nat2Z.inj. rewrite Z2Nat.id by (apply Z.mul_nonneg_nonneg; [apply Z.div_pos|]; lia).
  rewrite Nat2Z.inj_mul, Nat2Z.inj_div, Nat2Z.inj_add. done.
Qed.

Lemma padded_ge n : (n < 2 ^ 32)%nat → (n ≤ padded n)%nat.
Proof. intros Hn. rewrite padded_eq by done. pose proof (Nat.div_mod_eq (n + 3) 4). pose proof (Nat.mod_upper_bound (n + 3) 4). lia. Qed.

(** An attribute as RFC 5389 lays it out: type, length, value, padding to four bytes. *)
Definition encode_attr (ty : Z) (value : list Z) : list Z :=
  to_be_bytes 2 ty ++ to_be_bytes 2 (Z.of_nat (length value)) ++ value ++ replicate (padded (length value) - length value) 0.
Definition attr_ok (a : Z * list Z) : Prop := 0 ≤ a.1 ≤ u16_max ∧ Z.of_nat (length a.2) ≤ u16_max.

Lemma attr_size a : attr_ok a → (length a.2 < 2 ^ 32)%nat.
Proof.
  intros [_ Hl]. unfold u16_max in Hl. apply Nat2Z.inj_lt. rewrite Nat2Z.inj_pow.
  change (Z.of_nat 2 ^ Z.of_nat 32) with (2 ^ 32). lia.
Qed.

Lemma length_to_be_bytes n x : length (to_be_bytes n x) = n.
Proof. apply (to_be_bytes_ok n x). Qed.

Lemma encode_attr_length a : attr_ok a → length (encode_attr a.1 a.2) = (4 + padded (length a.2))%nat.
Proof.
  intros Ha. pose proof (padded_ge _ (attr_size a Ha)). unfold encode_attr. rewrite !length_app, length_replicate.
  rewrite !length_to_be_bytes. lia.
Qed.

Lemma attribute_encoded pre a rest :
  attr_ok a → attribute (pre ++ encode_attr a.1 a.2 ++ rest) (length pre) = Ok (a.1, length a.2, a.2).
Proof.
  intros [Ht Hl]. unfold attribute, encode_attr.
  pose proof (length_to_be_bytes 2) as H2.
  set (v := a.2) in *. set (pad := replicate _ 0).
  assert (u16_at (pre ++ (to_be_bytes 2 a.1 ++ to_be_bytes 2 (Z.of_nat (length v)) ++ v ++ pad) ++ rest) (length pre) = Ok a.1) as ->.
  { rewrite <-!app_assoc. rewrite u16_at_app by done. by rewrite be_value_port. }
  cbn [mbind outcome_mbind].
  assert (u16_at (pre ++ (to_be_bytes 2 a.1 ++ to_be_bytes 2 (Z.of_nat (length v)) ++ v ++ pad) ++ rest) (length pre + 2) =
    Ok (Z.of_nat (length v))) as ->.
  { rewrite <-!app_assoc, (app_assoc pre). assert (length pre + 2 = length (pre ++ to_be_bytes 2 a.1))%nat as -> by by rewrite length_app, H2.
    rewrite u16_at_app by done.
    rewrite be_value_port; [done|unfold u16_max in *; lia]. }
  cbn [mbind outcome_mbind]. rewrite Nat2Z.id.
  assert (Nat.min (length v) (length (pre ++ (to_be_bytes 2 a.1 ++ to_be_bytes 2 (Z.of_nat (length v)) ++ v ++ pad) ++ rest) - length pre - 4)
    = length v) as -> by (rewrite !length_app, !H2; lia).
  rewrite <-!app_assoc, (app_assoc pre), (app_assoc (pre ++ _)).
  assert (length pre + 4 = length ((pre ++ to_be_bytes 2 a.1) ++ to_be_bytes 2 (Z.of_nat (length v))))%nat as E
    by (rewrite !length_app, !H2; lia).
  rewrite E. by rewrite range_app.
Qed.

Lemma parse_attrs_skip fuel pre before rest txn :
  Forall (λ a, attr_ok a ∧ a.1 ≠ 32 ∧ a.1 ≠ 1) before → (length before ≤ fuel)%nat →
  parse_attrs fuel (length pre) (pre ++ concat ((λ a, encode_attr a.1 a.2) <$> before) ++ rest) txn =
  parse_attrs (fuel - length before) (length (pre ++ concat ((λ a, encode_attr a.1 a.2) <$> before)))
    (pre ++ concat ((λ a, encode_attr a.1 a.2) <$> before) ++ rest) txn.
Proof.
  intros Hb. revert fuel pre. induction Hb as [|a before (Ha & H32 & H1) _ IH]; intros fuel pre Hf.
  { cbn [fmap list_fmap concat app length]. by rewrite Nat.sub_0_r, app_nil_r. }
  destruct fuel as [|fuel]; [simpl in Hf; lia|]. cbn [length] in Hf. rewrite fmap_cons. cbn [concat].
  rewrite <-!app_assoc. cbn [parse_attrs]. rewrite (attribute_encoded pre a) by done.
  rewrite (proj2 (Nat.leb_le _ _)) by (rewrite !length_app, encode_attr_length by done; lia).
  rewrite (proj2 (Z.eqb_neq _ _) H32), (proj2 (Z.eqb_neq _ _) H1).
  rewrite <-encode_attr_length, <-length_app by done.
  specialize (IH fuel (pre ++ encode_attr a.1 a.2) ltac:(lia)). rewrite <-!app_assoc in IH. rewrite IH.
  reflexivity.
Qed.

Lemma length_skipped before : Forall (λ a, attr_ok a ∧ a.1 ≠ 32 ∧ a.1 ≠ 1) before →
  (length before ≤ length (concat ((λ a, encode_attr a.1 a.2) <$> before)))%nat.
Proof.
  induction 1 as [|a before (Ha & _) _ IH]; [done|]. rewrite fmap_cons. cbn [concat length]. rewrite length_app, encode_attr_length by done. lia.
Qed.

(** The first address attribute, after any others. *)
Lemma parse_finds before ty value rest txn :
  Forall (λ a, attr_ok a ∧ a.1 ≠ 32 ∧ a.1 ≠ 1) before → attr_ok (ty, value) → ty = 32 ∨ ty = 1 →
  parse_mapped_address (concat ((λ a, encode_attr a.1 a.2) <$> before) ++ encode_attr ty value ++ rest) txn =
  Some (if ty =? 32 then parse_xor_mapped value txn else parse_mapped value).
Proof.
  intros Hb Ha Hty. unfold parse_mapped_address. pose proof (length_skipped before Hb) as Hl.
  set (pre := concat _) in *.
  pose proof (parse_attrs_skip (S (length (pre ++ encode_attr ty value ++ rest))) [] before (encode_attr ty value ++ rest) txn Hb) as E.
  fold pre in E. cbn [length app] in E. rewrite E by (rewrite length_app; lia).
  destruct (S (length (pre ++ encode_attr ty value ++ rest)) - length before)%nat as [|fuel] eqn:Ef; [rewrite length_app in Ef; lia|].
  cbn [parse_attrs]. pose proof (encode_attr_length (ty, value) Ha) as El. cbn [fst snd] in El.
  rewrite (proj2 (Nat.leb_le _ _)) by (rewrite !length_app, El; lia).
  pose proof (attribute_encoded pre (ty, value) rest Ha) as Eat. cbn [fst snd] in Eat. rewrite Eat.
  destruct Hty as [->| ->]; done.
Qed.

(** ** The theorems *)
Lemma xor_attr_ok addr txn : addr_ok addr → length txn = 12%nat → attr_ok (32, xor_value txn addr).
Proof.
  intros [Hi _] Ht. split; [unfold u16_max; simpl; lia|]. cbn [snd]. unfold xor_value, u16_max.
  rewrite !length_app, length_to_be_bytes, length_zip_with, length_app, Ht. destruct (ip addr) as [a b c d|o]; simpl; [lia|].
  destruct Hi as [-> _]. simpl. lia.
Qed.
Lemma mapped_attr_ok addr : is_ipv4 addr = true → attr_ok (1, mapped_value addr).
Proof.
  intros H4. split; [unfold u16_max; simpl; lia|]. cbn [snd]. unfold mapped_value, u16_max.
  rewrite !length_app, length_to_be_bytes. by destruct addr as [[] ?].
Qed.

(** The header of a response with these attributes. *)
Definition stun_response (txn_id attrs : list Z) : list Z :=
  [1; 1] ++ to_be_bytes 2 (Z.of_nat (length attrs)) ++ MAGIC ++ txn_id ++ attrs.

Lemma read_attrs_response txn attrs rest :
  length txn = 12%nat → Z.of_nat (length attrs) ≤ u16_max → read_attrs (stun_response txn attrs ++ rest) txn = Ok attrs.
Proof.
  intros Ht Hl. unfold read_attrs, stun_response. destruct (two_bytes (Z.of_nat (length attrs))) as (x & y & E).
  pose proof (be_value_port (Z.of_nat (length attrs)) ltac:(lia)) as Ev. rewrite E in *.
  destruct txn as [|t0 [|t1 [|t2 [|t3 [|t4 [|t5 [|t6 [|t7 [|t8 [|t9 [|t10 [|t11 [|]]]]]]]]]]]]]; try done.
  rewrite <-!app_assoc. rewrite (proj2 (Nat.ltb_ge _ _)) by (rewrite !length_app; simpl; lia).
  set (resp := [1; 1] ++ _).
  assert (range resp 4 8 = Ok MAGIC) as -> by (by apply (range_app [1; 1; x; y] MAGIC)).
  cbn [mbind outcome_mbind]. rewrite bool_decide_eq_true_2 by done. cbn [negb].
  assert (range resp 8 20 = Ok [t0; t1; t2; t3; t4; t5; t6; t7; t8; t9; t10; t11]) as ->
    by (by apply (range_app ([1; 1; x; y] ++ MAGIC) [t0; t1; t2; t3; t4; t5; t6; t7; t8; t9; t10; t11])).
  cbn [mbind outcome_mbind]. rewrite bool_decide_eq_true_2 by done. cbn [negb].
  assert (u16_at resp 2 = Ok (Z.of_nat (length attrs))) as -> by (rewrite <-Ev; by apply (u16_at_app [1; 1] [x; y])).
  cbn [mbind outcome_mbind]. rewrite Nat2Z.id.
  apply (range_app ([1; 1; x; y] ++ MAGIC ++ [t0; t1; t2; t3; t4; t5; t6; t7; t8; t9; t10; t11]) attrs rest).
  unfold resp. rewrite !length_app. simpl. lia.
Qed.


(** Discovery against the test server: the request the client sends is answered, and from the answer
    the client reads exactly the IPv4 address and port the server saw. *)
Theorem stun_server_client txn from :
  array_ok 12 txn → addr_ok from → is_ipv4 from = true →
  ∃ reply, stun_reply (binding_request txn) from = Ok (Some reply) ∧ read_response (recv_into 256 reply) txn = Some (Ok from).
Proof.
  intros [Ht _] Ha H4.
  assert (stun_reply (binding_request txn) from =
    Ok (Some (stun_response txn (encode_attr 32 (xor_value txn from))))) as E.
  { destruct from as [[a b c d|] p]; [|done].
    destruct txn as [|t0 [|t1 [|t2 [|t3 [|t4 [|t5 [|t6 [|t7 [|t8 [|t9 [|t10 [|t11 [|]]]]]]]]]]]]]; done. }
  rewrite E. eexists. split; [done|].
  assert (length (encode_attr 32 (xor_value txn from)) = 12%nat) as Hl.
  { pose proof (encode_attr_length (32, xor_value txn from) (xor_attr_ok from txn Ha Ht)) as El. cbn [fst snd] in El.
    rewrite El. unfold xor_value. rewrite !length_app, length_to_be_bytes, length_zip_with, length_app, Ht.
    destruct from as [[a b c d|] p]; [|done]. vm_compute. reflexivity. }
  assert (recv_into 256 (stun_response txn (encode_attr 32 (xor_value txn from))) = stun_response txn (encode_attr 32 (xor_value txn from))) as ->.
  { apply take_ge. unfold stun_response. rewrite !length_app, length_to_be_bytes, Hl, Ht. simpl. lia. }
  rewrite <-(app_nil_r (stun_response _ _)). unfold read_response. rewrite read_attrs_response by (rewrite ?Hl; unfold u16_max; done || lia).
  rewrite <-(app_nil_r (encode_attr _ _)). change (encode_attr 32 (xor_value txn from) ++ []) with
    (concat ((λ a : Z * list Z, encode_attr a.1 a.2) <$> []) ++ encode_attr 32 (xor_value txn from) ++ []).
  rewrite parse_finds; [|constructor|by apply xor_attr_ok|by left]. cbn [Z.eqb Pos.eqb]. by rewrite parse_xor_value.
Qed.

(** Hole punching succeeds exactly when one of its attempts is answered by a probe; whoever sent it,
    the target or not. *)
Theorem hole_punch_spec attempts arrives :
  attempt_hole_punch None attempts arrives = Ok () ↔
    ∃ i datagram from, (i < attempts)%nat ∧ arrives i = Some (datagram, from) ∧ take (length PROBE) datagram = PROBE.
Proof.
  unfold attempt_hole_punch. enough (∀ j, punch attempts j arrives = Ok () ↔
    ∃ i datagram from, (j ≤ i < j + attempts)%nat ∧ arrives i = Some (datagram, from) ∧ take (length PROBE) datagram = PROBE) as Hall.
  { rewrite (Hall 0%nat). split; intros (i & datagram & from & Hi & H); exists i, datagram, from; (split; [lia|done]). }
  assert (∀ l, (length PROBE <=? length (recv_into 64 l))%nat && bool_decide (take (length PROBE) (recv_into 64 l) = PROBE) = true
    ↔ take (length PROBE) l = PROBE) as Hprobe.
  { intros l. unfold recv_into. rewrite take_take. change (length PROBE `min` 64)%nat with (length PROBE).
    rewrite andb_true_iff, bool_decide_eq_true, Nat.leb_le. split; [by intros [_ ?]|]. intros Ht. split; [|done].
    apply (f_equal length) in Ht. rewrite length_take in Ht. rewrite length_take. change (length PROBE) with 13%nat in *. lia. }
  induction attempts as [|attempts IH]; intros j; cbn [punch].
  { split; [done|]. intros (i & ? & ? & Hi & _). lia. }
  assert (punch attempts (S j) arrives = Ok () → ∃ i datagram from, (j ≤ i < j + S attempts)%nat ∧
    arrives i = Some (datagram, from) ∧ take (length PROBE) datagram = PROBE) as Hlater.
  { intros (i & datagram & from & Hi & H)%IH. exists i, datagram, from. split; [lia|done]. }
  destruct (arrives j) as [[datagram from]|] eqn:E.
  - destruct ((_ <=? _)%nat && _) eqn:Eb.
    + split; [|done]. intros _. exists j, datagram, from. apply Hprobe in Eb. split; [lia|done].
    + split; [apply Hlater|]. intros (i & d' & from' & Hi & Ei & Hp). apply IH. exists i, d', from'. split; [|done].
      destruct (decide (i = j)) as [->|]; [|lia]. rewrite E in Ei. injection Ei as <- <-.
      apply Hprobe in Hp. congruence.
  - split; [apply Hlater|]. intros (i & d' & from' & Hi & Ei & Hp). apply IH. exists i, d', from'. split; [|done].
    destruct (decide (i = j)) as [->|]; [congruence|lia].
Qed.

(** A session forwards between its two peers, both ways, and nothing else. *)
Lemma forward_target_swap s from to :
  peer_a s ≠ peer_b s → forward_target s from = Some to ↔ forward_target s to = Some from ∧ from ≠ to.
Proof.
  intros Hne. unfold forward_target. repeat case_bool_decide; subst; naive_solver.
Qed.

(** ** Concrete responses *)
Definition sample_txn : list Z := [1; 2; 3; 4; 5; 6; 7; 8; 9; 10; 11; 12].


Lemma stun_server_client_witness :
  ∃ reply, stun_reply (binding_request sample_txn) (sample_addr 4000) = Ok (Some reply) ∧
    read_response (recv_into 256 reply) sample_txn = Some (Ok (sample_addr 4000)).
Proof.
  assert (array_ok 12 sample_txn) as Ht by decide_compute.
  assert (addr_ok (sample_addr 4000)) as Ha by decide_compute.
  exact (stun_server_client sample_txn (sample_addr 4000) Ht Ha eq_refl).
Defined.
