(* ===== verification/Discovery.v ===== *)
(** * Finding peers ([src/transport/mdns.rs], [src/transport/dns_bootstrap.rs], the discovery task of [src/node.rs])

    The events of the mDNS browser, the addresses they give, those the node contacts; the
    SRV records of a domain and the order of their addresses.  The mDNS daemon and the
    resolver are arguments. *)
From S2P Require Import Prelude.
From S2P Require Import Errors.
From S2P Require Import Bytes.
From S2P Require Import Net.
From S2P Require Import Samples.

(** ** mDNS *)
Inductive ServiceEvent : Type :=
  | SearchStarted (service_type : string)
  | ServiceFound (service_type fullname : string)
  | ServiceResolved (fullname : string) (port : Z) (addresses : list IpAddr)
  | ServiceRemoved (service_type fullname : string)
  | SearchStopped (service_type : string).

Definition skip_link_local (addr : IpAddr) : bool :=
  match addr with V6 o => v6_is_unicast_link_local o | V4 _ _ _ _ => false end.

(** The inner loop: what is sent, and how many more sends the channel takes ([None]: it closed,
    which ends the task). *)
Fixpoint send_addrs (open : nat) (port : Z) (addrs : list IpAddr) : list SocketAddr * option nat :=
  match addrs with
  | [] => ([], Some open)
  | addr :: addrs =>
    if skip_link_local addr then send_addrs open port addrs
    else match open with
         | O => ([], None)
         | S open => let '(sent, r) := send_addrs open port addrs in (mkAddr addr port :: sent, r)
         end
  end.

(** The task that handles the browser's events; a service without addresses is skipped. *)
Fixpoint mdns_events (open : nat) (events : list ServiceEvent) : list SocketAddr :=
  match events with
  | [] => []
  | ServiceResolved _ port addrs :: events =>
    if bool_decide (addrs = []) then mdns_events open events
    else
      let '(sent, r) := send_addrs open port addrs in
      sent ++ match r with Some open => mdns_events open events | None => [] end
  | _ :: events => mdns_events open events
  end.

(** The addresses the node bootstraps from: not its own, and of a family its socket can reach. *)
Definition wanted (local_addr addr : SocketAddr) : bool :=
  if (port addr =? port local_addr)
     && (bool_decide (ip addr = ip local_addr) || ip_is_loopback (ip addr) || ip_is_unspecified (ip local_addr)) then false
  else if is_ipv4 local_addr && is_ipv6 addr then false
  else if negb (is_ipv4 local_addr) && is_ipv4 addr && negb (ip_is_unspecified (ip local_addr)) then false
  else true.
Definition discovered (local_addr : SocketAddr) (open : nat) (events : list ServiceEvent) : list SocketAddr :=
  filter (λ a, wanted local_addr a = true) (mdns_events open events).

(** ** DNS *)
Record SrvRecord := mkSrv { srv_priority : Z; srv_target : string; srv_port : Z }.
Definition by_priority (a b : SrvRecord) : bool := srv_priority a <=? srv_priority b.

(** [lookup] is [lookup_ip]: a target that cannot be resolved is skipped. *)
Definition target_addrs (lookup : string → string + list IpAddr) (r : SrvRecord) : list SocketAddr :=
  match lookup (srv_target r) with inr ips => (λ i, mkAddr i (srv_port r)) <$> ips | inl _ => [] end.
Definition srv_name (domain : string) : string := "_tesseras._udp." +:+ domain.
Definition resolve_bootstrap (init : option string) (srv_lookup : string → string + list SrvRecord)
    (lookup : string → string + list IpAddr) (domain : string) : res (list SocketAddr) :=
  match init with
  | Some e => Err (Network ("resolver init: " +:+ e))
  | None =>
    match srv_lookup (srv_name domain) with
    | inl e => Err (Network ("DNS SRV lookup failed: " +:+ e))
    | inr entries => Ok (concat (target_addrs lookup <$> sort_by by_priority entries))
    end
  end.

(** ** What is contacted *)
(** A service announced this address. *)
Definition announced_by (events : list ServiceEvent) (a : SocketAddr) : Prop :=
  ∃ name addrs, ServiceResolved name (port a) addrs ∈ events ∧ ip a ∈ addrs.

Lemma send_addrs_elem open port addrs a :
  a ∈ (send_addrs open port addrs).1 → ip a ∈ addrs ∧ a = mkAddr (ip a) port ∧ skip_link_local (ip a) = false.
Proof.
  revert open. induction addrs as [|x addrs IH]; intros open; cbn [send_addrs]; [by intros ?%elem_of_nil|].
  destruct (skip_link_local x) eqn:Ex.
  - intros (? & ? & ?)%IH. split_and!; [by right|done|done].
  - destruct open as [|open]; [by intros ?%elem_of_nil|]. destruct (send_addrs open port addrs) as [sent r] eqn:E.
    intros [->|Hin]%elem_of_cons; [by split_and!; [left| |]|].
    destruct (IH open) as (? & ? & ?); [by rewrite E|]. split_and!; [by right|done|done].
Qed.

Lemma send_addrs_all open port addrs :
  (length addrs ≤ open)%nat → ∃ open', (send_addrs open port addrs).2 = Some open' ∧ (open ≤ open' + length addrs)%nat ∧
    ∀ i, i ∈ addrs → skip_link_local i = false → mkAddr i port ∈ (send_addrs open port addrs).1.
Proof.
  revert open. induction addrs as [|x addrs IH]; intros open Hl; cbn [send_addrs].
  { exists open. split_and!; [done|simpl; lia|]. by intros i ?%elem_of_nil. }
  cbn [length] in Hl. destruct (skip_link_local x) eqn:Ex.
  - destruct (IH open) as (o & E & Ho & Hall); [lia|]. exists o. split_and!; [done|simpl; lia|].
    intros i [->|Hi]%elem_of_cons Hs; [congruence|by apply Hall].
  - destruct open as [|open]; [lia|]. destruct (IH open) as (o & E & Ho & Hall); [lia|].
    destruct (send_addrs open port addrs) as [sent r]. exists o. cbn in *. split_and!; [done|lia|].
    intros i [->|Hi]%elem_of_cons Hs; [left|right; by apply Hall].
Qed.

Definition event_size (e : ServiceEvent) : nat := match e with ServiceResolved _ _ addrs => length addrs | _ => 0%nat end.

Lemma announced_by_cons e events a : announced_by events a → announced_by (e :: events) a.
Proof. intros (name & addrs & He & Ha). exists name, addrs. split; [by right|done]. Qed.

Lemma mdns_events_elem open events a :
  a ∈ mdns_events open events → announced_by events a ∧ skip_link_local (ip a) = false.
Proof.
  revert open. induction events as [|e events IH]; intros open; cbn [mdns_events]; [by intros ?%elem_of_nil|].
  assert (∀ open, a ∈ mdns_events open events → announced_by (e :: events) a ∧ skip_link_local (ip a) = false) as Hlater.
  { intros o [Ha Hs]%IH. split; [by apply announced_by_cons|done]. }
  destruct e as [| |name p addrs| |]; try apply Hlater. case_bool_decide; [apply Hlater|].
  destruct (send_addrs open p addrs) as [sent r] eqn:E. rewrite elem_of_app. intros [Hin|Hin].
  - pose proof (send_addrs_elem open p addrs a) as Hs. rewrite E in Hs. destruct (Hs Hin) as (Hi & Ep & Hl).
    split; [|done]. exists name, addrs. rewrite Ep. split; [left|done].
  - destruct r; [by apply Hlater in Hin|by apply elem_of_nil in Hin].
Qed.

Lemma mdns_events_all open events a :
  (sum_list (event_size <$> events) ≤ open)%nat → announced_by events a → skip_link_local (ip a) = false →
  a ∈ mdns_events open events.
Proof.
  revert open. induction events as [|e events IH]; intros open Hl (name & addrs & He & Ha) Hs; [by apply elem_of_nil in He|].
  rewrite fmap_cons in Hl. change (event_size e + sum_list (event_size <$> events) ≤ open)%nat in Hl.
  assert (∀ open', (sum_list (event_size <$> events) ≤ open')%nat → ServiceResolved name (port a) addrs ∈ events →
    a ∈ mdns_events open' events) as Hlater.
  { intros o Ho Hin. apply IH; [done| |done]. by exists name, addrs. }
  apply elem_of_cons in He as [<-|He].
  - cbn [mdns_events event_size] in *. rewrite bool_decide_eq_false_2 by (intros ->; by apply elem_of_nil in Ha).
    destruct (send_addrs_all open (port a) addrs) as (o & E & _ & Hall); [lia|].
    destruct (send_addrs open (port a) addrs) as [sent r]. apply elem_of_app. left. specialize (Hall _ Ha Hs). by destruct a.
  - destruct e as [| |name' p addrs'| |]; cbn [mdns_events event_size] in *; try (apply Hlater; [lia|done]).
    case_bool_decide; [apply Hlater; [lia|done]|]. destruct (send_addrs_all open p addrs') as (o & E & Ho & _); [lia|].
    destruct (send_addrs open p addrs') as [sent r]. cbn in E. subst r. apply elem_of_app. right. apply Hlater; [lia|done].
Qed.

(** What the node contacts after mDNS discovery are addresses that some service announced, with the
    announced port, and none of: a link-local IPv6 address, the socket's own address, a
    loopback address at its own port, an address of a family its socket cannot reach.  While the channel is
    open, every announced address outside these is contacted. *)
Theorem mdns_contacts local_addr open events a :
  (a ∈ discovered local_addr open events → announced_by events a ∧ skip_link_local (ip a) = false ∧ a ≠ local_addr ∧
     ¬ (port a = port local_addr ∧ ip_is_loopback (ip a) = true) ∧
     (is_ipv4 a ≠ is_ipv4 local_addr → ip local_addr = V6 (replicate 16 0))) ∧
  ((sum_list (event_size <$> events) ≤ open)%nat →
   announced_by events a → skip_link_local (ip a) = false → wanted local_addr a = true → a ∈ discovered local_addr open events).
Proof.
  unfold discovered. rewrite list_elem_of_filter. split.
  - intros [Hw Hin]. apply mdns_events_elem in Hin as [Ha Hs]. unfold wanted in Hw.
    destruct ((port a =? port local_addr) && _) eqn:E1; [done|]. destruct (is_ipv4 local_addr && is_ipv6 a) eqn:E2; [done|].
    destruct (negb (is_ipv4 local_addr) && is_ipv4 a && _) eqn:E3; [done|]. split_and!; [done|done| | |].
    + intros ->. rewrite Z.eqb_refl, bool_decide_eq_true_2 in E1 by done. done.
    + intros [Hp Hlo]. rewrite Hp, Z.eqb_refl, Hlo, orb_true_r in E1. done.
    + unfold is_ipv6 in E2. destruct (is_ipv4 local_addr) eqn:E4, (is_ipv4 a); try done. intros _. cbn in E3.
      unfold ip_is_unspecified in E3. destruct local_addr as [[]]; [done|]. cbn [ip] in *.
      apply negb_false_iff, bool_decide_eq_true in E3. by subst.
  - intros Ho Ha Hs Hw. split; [done|]. by apply mdns_events_all.
Qed.

(** Bootstrap resolution gives all addresses of all targets that resolve, those of a record of lower
    priority first; records of equal priority keep the order of the answer, and so do the
    addresses of one target. *)
Theorem resolve_bootstrap_order srv_lookup lookup domain entries :
  srv_lookup (srv_name domain) = inr entries →
  ∃ order, resolve_bootstrap None srv_lookup lookup domain = Ok (concat (target_addrs lookup <$> order)) ∧
    order ≡ₚ entries ∧
    StronglySorted (λ a b, srv_priority a ≤ srv_priority b) order ∧
    ∀ q, filter (λ r, srv_priority r = q) order = filter (λ r, srv_priority r = q) entries.
Proof.
  intros E. exists (sort_by by_priority entries). unfold resolve_bootstrap. rewrite E. split_and!; [done|apply sort_by_perm| |].
  - eapply StronglySorted_impl; [|apply (sort_by_sorted by_priority)].
    + intros a b. apply Z.leb_le.
    + intros a b. unfold by_priority. rewrite !Z.leb_le. lia.
    + intros a b c. unfold by_priority. rewrite !Z.leb_le. lia.
  - intros q. apply sort_by_stable. intros x y Hx Hy. unfold by_priority. rewrite Hx, Hy. apply Z.leb_refl.
Qed.

Lemma resolve_bootstrap_order_witness :
  ∃ order, resolve_bootstrap None (λ _, inr [mkSrv 20 "b" 2; mkSrv 10 "a" 1]) (λ _, inr [V4 10 0 0 1]) "example.com"
    = Ok (concat (target_addrs (λ _, inr [V4 10 0 0 1]) <$> order)).
Proof.
  destruct (resolve_bootstrap_order (λ _, inr [mkSrv 20 "b" 2; mkSrv 10 "a" 1]) (λ _, inr [V4 10 0 0 1]) "example.com" _ eq_refl)
    as (order & E & _). exists order. exact E.
Defined.

Lemma mdns_contacts_witness :
  mkAddr (V4 192 168 1 9) 4001 ∈ discovered (mkAddr (V4 192 168 1 8) 4000) 9
    [ServiceResolved "peer" 4001 [V4 192 168 1 9; V6 ([254; 128] ++ replicate 14 0)]].
Proof.
  apply mdns_contacts; [vm_compute; lia| |reflexivity|reflexivity].
  eexists _, _. split; [left|left].
Defined.
