(* ===== verification/Quic.v ===== *)
(** * The QUIC transport ([src/transport/quic.rs])

    Frames on a stream, the pool of connections, the pending responses of inbound streams,
    and the two attempts of a request.  Connections, streams and TLS are [quinn]'s: a
    connection is a value of a type [Conn], and what [quinn] answers is an argument. *)
From S2P Require Import Prelude.
From S2P Require Import Errors.
From S2P Require Import Bytes.
From S2P Require Import External.
From S2P Require Import Identity.
From S2P Require Import Net.
From S2P Require Import Samples.
From S2P Require Import RateLimit.
From S2P Require Import Message.

Definition MAX_POOL_SIZE : nat := 128.
Definition POOL_STALE_THRESHOLD : Z := 10 * 10 ^ 9.
Definition MAX_MESSAGE_SIZE : Z := 4 * 1024 * 1024 + 1024.
Definition MAX_PENDING_RESPONSES : nat := Z.to_nat 4096.

(** ** Frames *)
(** What is on the stream afterwards, and the result; the arguments are the failures of the two
    writes. *)
Definition write_message (fail_len fail_data : option string) (data : list Z) : list Z * res () :=
  if MAX_MESSAGE_SIZE <? Z.of_nat (length data) then ([], Err (Network "outbound message too large"))
  else if 2 ^ 32 - 1 <? Z.of_nat (length data) then ([], Err (Network "message exceeds u32 length"))
  else
    let len_bytes := to_be_bytes 4 (Z.of_nat (length data)) in
    match fail_len, fail_data with
    | Some e, _ => ([], Err (Network ("write len: " +:+ e)))
    | None, Some e => (len_bytes, Err (Network ("write data: " +:+ e)))
    | None, None => (len_bytes ++ data, Ok ())
    end.

(** [read_exact]: the bytes and the rest of the stream, or the error [e] the stream ends with. *)
Definition read_exact (stream : list Z) (e : string) (n : nat) : string + (list Z * list Z) :=
  if (length stream <? n)%nat then inl e else inr (take n stream, drop n stream).
Definition read_message (stream : list Z) (e : string) : res (list Z) :=
  match read_exact stream e 4 with
  | inl e => Err (Network ("read len: " +:+ e))
  | inr (len_buf, stream) =>
    let len := be_value len_buf in
    if MAX_MESSAGE_SIZE <? len then Err (Network "message too large")
    else match read_exact stream e (Z.to_nat len) with
         | inl e => Err (Network ("read data: " +:+ e))
         | inr (buf, _) => Ok buf
         end
  end.

(** ** The pool *)
Section pool.
Context {Conn : Type}.

Record PoolEntry := mkPooled { conn : Conn; pe_last_used : Z }.
(** The map's entries in its iteration order, which is unspecified: what is shown holds for every order. *)
Abbreviation pool := (list (SocketAddr * PoolEntry)).

Definition pool_get (addr : SocketAddr) (p : pool) : option PoolEntry :=
  snd <$> list_find (λ x, x.1 = addr) p ≫= λ x, Some x.2.
Definition pool_remove (addr : SocketAddr) (p : pool) : pool := filter (λ x, x.1 ≠ addr) p.
Definition pool_insert (addr : SocketAddr) (e : PoolEntry) (p : pool) : pool := (addr, e) :: pool_remove addr p.

(** [min_by_key]: the first of the least recently used. *)
Fixpoint oldest (p : pool) : option (SocketAddr * PoolEntry) :=
  match p with
  | [] => None
  | x :: p => match oldest p with
              | Some y => if pe_last_used x.2 <=? pe_last_used y.2 then Some x else Some y
              | None => Some x
              end
  end.

(** A connection enters the pool, outbound or inbound; a full pool first loses its oldest entry. *)
Definition cache_connection (now : Z) (addr : SocketAddr) (c : Conn) (p : pool) : pool :=
  let p := if (MAX_POOL_SIZE <=? length p)%nat
           then match oldest p with Some (oldest_addr, _) => pool_remove oldest_addr p | None => p end
           else p in
  pool_insert addr (mkPooled c now) p.

(** The first half of [get_or_create_connection]: a hit is refreshed, a closed or stale entry goes. *)
Definition cached_connection (closed : Conn → bool) (now : Z) (addr : SocketAddr) (p : pool) : pool * option Conn :=
  match pool_get addr p with
  | None => (p, None)
  | Some e =>
    if negb (closed (conn e)) && (duration_since now (pe_last_used e) <? POOL_STALE_THRESHOLD)
    then (pool_insert addr (mkPooled (conn e) now) p, Some (conn e))
    else (pool_remove addr p, None)
  end.

(** What [connect] gives: an error, nothing in time, or the outcome of the handshake. *)
Inductive Connecting := ConnectError (e : string) | ConnectTimeout | Connected (r : string + Conn).

(** The lock is not held while connecting: [meanwhile] is what others do to the pool. *)
Definition get_or_create_connection (closed : Conn → bool) (now1 now2 : Z) (attempt : Connecting) (meanwhile : pool → pool)
    (addr : SocketAddr) (p : pool) : pool * res Conn :=
  match cached_connection closed now1 addr p with
  | (p, Some c) => (p, Ok c)
  | (p, None) =>
    match attempt with
    | ConnectError e => (p, Err (Network ("connect: " +:+ e)))
    | ConnectTimeout => (meanwhile p, Err Timeout)
    | Connected (inl e) => (meanwhile p, Err (Network ("connect: " +:+ e)))
    | Connected (inr c) => (cache_connection now2 addr c (meanwhile p), Ok c)
    end
  end.

Definition evict_connection (addr : SocketAddr) (p : pool) : pool := pool_remove addr p.
(** The periodic cleanup. *)
Definition prune (closed : Conn → bool) (p : pool) : pool := filter (λ x, closed (conn x.2) = false) p.
End pool.
Arguments PoolEntry : clear implicits.
Abbreviation pool Conn := (list (SocketAddr * PoolEntry Conn)).

(** ** Requests *)
Section request.
Context `{Serde Message} {Conn : Type}.

(** What one stream answers: its opening, the two writes and the finish (their errors), then
    nothing in time or the bytes received and the error that ends them. *)
Record Stream := mkStream {
  s_open : option string;
  s_write_len : option string;
  s_write_data : option string;
  s_finish : option string;
  s_response : option (list Z * string);
}.

Definition send_on_connection (st : Stream) (data : list Z) : res Message :=
  match s_open st with
  | Some e => Err (Network ("open stream: " +:+ e))
  | None =>
    match (write_message (s_write_len st) (s_write_data st) data).2 with
    | Err e => Err e
    | Panic => Panic
    | Ok _ =>
      match s_finish st with
      | Some e => Err (Network ("finish: " +:+ e))
      | None =>
        match s_response st with
        | None => Err Timeout
        | Some (received, e) =>
          match read_message received e with
          | Err e => Err (Network ("read response: " +:+ error_to_string e))
          | Panic => Panic
          | Ok resp_data =>
            match message_from_bytes resp_data with
            | inl e => Err (Serialization e)
            | inr m => Ok m
            end
          end
        end
      end
    end
  end.

(** What the surroundings answer to one attempt: the clock, the closed connections, the
    connect, what others do to the pool before it, while it connects and while it waits,
    and the stream. *)
Record Attempt := mkAttempt {
  at_before : pool Conn → pool Conn;
  at_now1 : Z; at_now2 : Z;
  at_closed : Conn → bool;
  at_connect : Connecting (Conn := Conn);
  at_meanwhile : pool Conn → pool Conn;
  at_during : pool Conn → pool Conn;
  at_stream : Conn → Stream;
}.

(** One attempt: the connection, then the request on it. *)
Definition try_send (a : Attempt) (addr : SocketAddr) (data : list Z) (p : pool Conn) : pool Conn * res (res Message) :=
  match get_or_create_connection (at_closed a) (at_now1 a) (at_now2 a) (at_connect a) (at_meanwhile a) addr (at_before a p) with
  | (p, Ok c) => (at_during a p, Ok (send_on_connection (at_stream a c) data))
  | (p, Err e) => (p, Err e)
  | (p, Panic) => (p, Panic)
  end.

Definition quic_send_request (a1 a2 : Attempt) (addr : SocketAddr) (msg : Message) (p : pool Conn) : pool Conn * res Message :=
  match message_to_bytes msg with
  | inl e => (p, Err (Serialization e))
  | inr data =>
    match try_send a1 addr data p with
    | (p, Ok (Ok resp)) => (p, Ok resp)
    | (p, Ok (Err e)) =>
      let p := evict_connection addr p in
      match e with
      | Timeout => (p, Err e)
      | _ =>
        match try_send a2 addr data p with
        | (p, Ok r) => (p, r)
        | (p, Err e) => (p, Err e)
        | (p, Panic) => (p, Panic)
        end
      end
    | (p, Ok Panic) => (p, Panic)
    | (p, Err e) => (p, Err e)
    | (p, Panic) => (p, Panic)
    end
  end.
End request.

(** ** Inbound streams *)
(** [in_senders] maps a message id to the stream its response goes to.  Streams are numbered as
    they open; [in_waiting] are those that wait for their response and [in_expiring] those that
    have given up but not yet removed their entry.  [in_requests] and [in_responses] record
    what was forwarded to the node and what came back, by stream. *)
Record Inbound := mkInbound {
  in_next : nat;
  in_limiter : RateLimiter;
  in_senders : gmap Z nat;
  in_waiting : list (nat * Z);
  in_expiring : list (nat * Z);
  in_requests : list (nat * (SocketAddr * Message));
  in_responses : list (nat * Message);
}.
Definition Inbound_new (rate burst : Z) : Inbound := mkInbound 0 (RateLimiter_new rate burst) ∅ [] [] [] [].

Section inbound.
Context `{Serde Message}.

(** A stream opens: the rate limit, the request, its place among the pending ones; [open] says
    that the node still takes requests. *)
Definition on_stream (now : Z) (remote_addr : SocketAddr) (received : list Z) (e : string) (open : bool) (y : Inbound) : Inbound :=
  let '(limiter, allowed) := limiter_check now (ip remote_addr) (in_limiter y) in
  let y := mkInbound (S (in_next y)) limiter (in_senders y) (in_waiting y) (in_expiring y) (in_requests y) (in_responses y) in
  let stream := pred (in_next y) in
  if negb allowed then y
  else match read_message received e with
  | Ok data =>
    match message_from_bytes data with
    | inr msg =>
      let msg_id := m_msg_id msg in
      if (MAX_PENDING_RESPONSES <=? size (in_senders y))%nat then y
      else if bool_decide (is_Some (in_senders y !! msg_id)) then y
      else if open then
        mkInbound (in_next y) limiter (<[msg_id := stream]> (in_senders y)) ((stream, msg_id) :: in_waiting y) (in_expiring y)
          (in_requests y ++ [(stream, (remote_addr, msg))]) (in_responses y)
      else y
    | inl _ => y
    end
  | _ => y
  end.

(** [send_response]; a stream that has given up no longer takes it. *)
Definition quic_send_response (msg : Message) (y : Inbound) : Inbound * res () :=
  let i := m_msg_id msg in
  match in_senders y !! i with
  | Some stream =>
    (mkInbound (in_next y) (in_limiter y) (delete i (in_senders y)) (filter (λ x, x ≠ (stream, i)) (in_waiting y)) (in_expiring y)
       (in_requests y) (in_responses y ++ (if bool_decide ((stream, i) ∈ in_waiting y) then [(stream, msg)] else [])), Ok ())
  | None => (y, Err (Network "no pending request for this response"))
  end.

(** No response within [RESPONSE_ONESHOT_TIMEOUT], or the sender is gone. *)
Definition no_response (x : nat * Z) (y : Inbound) : Inbound :=
  if bool_decide (x ∈ in_waiting y) then
    mkInbound (in_next y) (in_limiter y) (in_senders y) (filter (λ z, z ≠ x) (in_waiting y)) (x :: in_expiring y) (in_requests y) (in_responses y)
  else y.
(** Then the entry is removed, by its message id. *)
Definition forget (x : nat * Z) (y : Inbound) : Inbound :=
  if bool_decide (x ∈ in_expiring y) then
    mkInbound (in_next y) (in_limiter y) (delete x.2 (in_senders y)) (in_waiting y) (filter (λ z, z ≠ x) (in_expiring y)) (in_requests y) (in_responses y)
  else y.

(** What is written back on the stream. *)
Definition response_bytes (fail_len fail_data : option string) (resp : Message) : list Z :=
  match message_to_bytes resp with inr d => (write_message fail_len fail_data d).1 | inl _ => [] end.

Inductive inbound_step : Inbound → Inbound → Prop :=
  | step_stream now a received e open y : inbound_step y (on_stream now a received e open y)
  | step_respond msg y : inbound_step y (quic_send_response msg y).1
  | step_no_response x y : inbound_step y (no_response x y)
  | step_forget x y : inbound_step y (forget x y).
End inbound.

(** ** Frames are exact *)
Lemma frame_length data : length (to_be_bytes 4 data) = 4%nat.
Proof. apply (proj1 (to_be_bytes_ok 4 data)). Qed.

Lemma frame_value n : 0 ≤ n ≤ MAX_MESSAGE_SIZE → be_value (to_be_bytes 4 n) = n.
Proof. unfold MAX_MESSAGE_SIZE. intros Hn. apply be_value_to_be. change (256 ^ Z.of_nat 4) with (2 ^ 32). lia. Qed.

Lemma write_message_fits data :
  Z.of_nat (length data) ≤ MAX_MESSAGE_SIZE →
  write_message None None data = (to_be_bytes 4 (Z.of_nat (length data)) ++ data, Ok ()).
Proof.
  intros Hd. unfold write_message. destruct (Z.ltb_spec MAX_MESSAGE_SIZE (Z.of_nat (length data))); [lia|].
  unfold MAX_MESSAGE_SIZE in *. destruct (Z.ltb_spec (2 ^ 32 - 1) (Z.of_nat (length data))); [lia|done].
Qed.

Lemma read_message_whole data rest e :
  Z.of_nat (length data) ≤ MAX_MESSAGE_SIZE → read_message (to_be_bytes 4 (Z.of_nat (length data)) ++ data ++ rest) e = Ok data.
Proof.
  intros Hd. unfold read_message, read_exact. rewrite length_app, frame_length.
  destruct (Nat.ltb_spec (4 + length (data ++ rest)) 4); [lia|].
  rewrite take_app_length', drop_app_length' by by rewrite frame_length. rewrite frame_value by lia.
  destruct (Z.ltb_spec MAX_MESSAGE_SIZE (Z.of_nat (length data))); [lia|]. rewrite Nat2Z.id, length_app.
  destruct (Nat.ltb_spec (length data + length rest) (length data)); [lia|]. by rewrite take_app_length.
Qed.

(** C24: Framing is exact.  A message of at most [MAX_MESSAGE_SIZE] bytes is read back whatever
    follows it on the stream, and every stream that ends early in its frame is an error; a larger message is
    refused with nothing written.  Conversely, whatever bytes arrive, reading gives an error or
    a message within the limit whose frame the bytes begin with. *)
Theorem framing_exact data rest e k received m :
  (if Z.of_nat (length data) <=? MAX_MESSAGE_SIZE then
     ∃ frame, write_message None None data = (frame, Ok ()) ∧ read_message (frame ++ rest) e = Ok data ∧
       ((k < length frame)%nat → ∃ text, read_message (take k frame) e = Err (Network text))
   else write_message None None data = ([], Err (Network "outbound message too large"))) ∧
  (bytes_ok received → read_message received e ≠ Panic ∧
   (read_message received e = Ok m → ∃ frame more, write_message None None m = (frame, Ok ()) ∧ received = frame ++ more)).
Proof.
  split.
  - destruct (Z.leb_spec (Z.of_nat (length data)) MAX_MESSAGE_SIZE) as [Hd|Hd].
    2:{ unfold write_message. destruct (Z.ltb_spec MAX_MESSAGE_SIZE (Z.of_nat (length data))); [done|lia]. }
    eexists. split; [by apply write_message_fits|]. split; [rewrite <-app_assoc; by apply read_message_whole|].
    rewrite length_app, frame_length. intros Hk. unfold read_message, read_exact. rewrite length_take, length_app, frame_length.
    destruct (Nat.ltb_spec (k `min` (4 + length data)) 4) as [|H4]; [by eexists|].
    rewrite take_take, take_app_le by (rewrite frame_length; lia).
    replace (4 `min` k)%nat with 4%nat by lia. rewrite (take_ge (to_be_bytes 4 _)) by (rewrite frame_length; lia).
    rewrite frame_value by lia. destruct (Z.ltb_spec MAX_MESSAGE_SIZE (Z.of_nat (length data))); [lia|]. rewrite Nat2Z.id.
    rewrite length_drop, length_take, length_app, frame_length.
    destruct (Nat.ltb_spec (k `min` (4 + length data) - 4) (length data)); [by eexists|lia].
  - intros Hb. unfold read_message, read_exact. destruct (Nat.ltb_spec (length received) 4) as [|H4]; [by split|].
    destruct (Z.ltb_spec MAX_MESSAGE_SIZE (be_value (take 4 received))) as [|Hm]; [by split|].
    destruct (Nat.ltb_spec (length (drop 4 received)) (Z.to_nat (be_value (take 4 received)))) as [|Hl]; [by split|].
    split; [done|]. intros [= <-].
    assert (bytes_ok (take 4 received)) as Hb4 by by apply Forall_take.
    pose proof (be_value_bound _ Hb4) as [Hv _].
    exists (take 4 received ++ take (Z.to_nat (be_value (take 4 received))) (drop 4 received)), (drop (Z.to_nat (be_value (take 4 received))) (drop 4 received)).
    rewrite <-app_assoc, !take_drop. split; [|done].
    rewrite write_message_fits; rewrite length_take, Nat.min_l, Z2Nat.id by lia; [|done].
    f_equal. f_equal. apply be_value_inj; [by apply to_be_bytes_ok|done| |by apply frame_value].
    rewrite frame_length, length_take. lia.
Qed.

(** ** The pool is bounded and least recently used *)
Section pool_properties.
Context {Conn : Type}.
Implicit Types p : pool Conn.

Definition pool_ok p : Prop := NoDup p.*1 ∧ (length p ≤ MAX_POOL_SIZE)%nat.

Lemma pool_remove_ok addr p : NoDup p.*1 → NoDup (pool_remove addr p).*1 ∧ addr ∉ (pool_remove addr p).*1 ∧ (length (pool_remove addr p) ≤ length p)%nat.
Proof.
  intros Hn. split_and!; [|  |apply length_filter].
  - eapply sublist_NoDup; [exact Hn|]. apply fmap_sublist, sublist_filter.
  - rewrite list_elem_of_fmap. intros (x & -> & [Hx _]%list_elem_of_filter). by apply Hx.
Qed.

Lemma pool_remove_shrinks addr p x : x ∈ p → x.1 = addr → (length (pool_remove addr p) < length p)%nat.
Proof.
  intros Hx E. induction p as [|y p IH]; [by apply elem_of_nil in Hx|]. unfold pool_remove in *. rewrite filter_cons.
  pose proof (length_filter (λ x : SocketAddr * PoolEntry Conn, x.1 ≠ addr) p). case_decide as Hd; cbn [length]; [|lia].
  apply elem_of_cons in Hx as [->|Hx]; [done|]. specialize (IH Hx). lia.
Qed.

Lemma pool_insert_ok addr e p : NoDup p.*1 → (length p < MAX_POOL_SIZE)%nat → pool_ok (pool_insert addr e p).
Proof.
  intros Hn Hl. destruct (pool_remove_ok addr p Hn) as (Hn' & Hi & Hl'). split; [by constructor|]. cbn. unfold MAX_POOL_SIZE in *. lia.
Qed.

Lemma oldest_spec p x : oldest p = Some x → x ∈ p ∧ ∀ y, y ∈ p → pe_last_used x.2 ≤ pe_last_used y.2.
Proof.
  revert x. induction p as [|z p IH]; [done|]. intros x. cbn [oldest]. destruct (oldest p) as [y|] eqn:E.
  - destruct (IH y eq_refl) as [Hy Hmin]. destruct (Z.leb_spec (pe_last_used z.2) (pe_last_used y.2)) as [Hz|Hz]; intros [= <-].
    + split; [left|]. intros w [->|Hw]%elem_of_cons; [lia|]. specialize (Hmin w Hw). lia.
    + split; [by right|]. intros w [->|Hw]%elem_of_cons; [lia|by apply Hmin].
  - intros [= <-]. destruct p as [|w p]; [|cbn in E; by repeat case_match]. split; [left|]. intros w ->%list_elem_of_singleton. lia.
Qed.
Lemma oldest_some p : p ≠ [] → is_Some (oldest p).
Proof. destruct p as [|x p]; [done|]. intros _. cbn. repeat case_match; eauto. Qed.

(** What a full pool loses. *)
Lemma cache_connection_spec now addr c p :
  pool_ok p → pool_ok (cache_connection now addr c p) ∧ (addr, mkPooled c now) ∈ cache_connection now addr c p ∧
    ∀ x, x ∈ p → x.1 ≠ addr → x ∉ cache_connection now addr c p →
      length p = MAX_POOL_SIZE ∧ ∀ y, y ∈ p → pe_last_used x.2 ≤ pe_last_used y.2.
Proof.
  intros [Hn Hl]. unfold cache_connection. destruct (Nat.leb_spec MAX_POOL_SIZE (length p)) as [Hf|Hf].
  - destruct (oldest_some p) as [[a e] Eo]; [destruct p; [cbn [length] in Hf; unfold MAX_POOL_SIZE in Hf; lia|done]|]. rewrite Eo. destruct (oldest_spec p _ Eo) as [Ha Hmin].
    destruct (pool_remove_ok a p Hn) as (Hn' & _ & _). pose proof (pool_remove_shrinks a p _ Ha eq_refl).
    split; [apply pool_insert_ok; [done|lia]|]. split; [left|]. intros x Hx Hne Hout. split; [lia|].
    destruct (decide (x.1 = a)) as [Exa|Exa].
    + assert (x = (a, e)) as ->; [|done]. apply list_elem_of_lookup in Hx as [i Hi]. apply list_elem_of_lookup in Ha as [j Hj].
      assert (i = j) as ->; [|congruence]. eapply (NoDup_lookup _ _ _ x.1 Hn); rewrite list_lookup_fmap; [by rewrite Hi|by rewrite Hj, Exa].
    + destruct Hout. right. apply list_elem_of_filter. split; [done|]. by apply list_elem_of_filter.
  - split; [by apply pool_insert_ok|]. split; [left|]. intros x Hx Hne Hout. destruct Hout. right. by apply list_elem_of_filter.
Qed.

Lemma pool_get_elem addr p e : pool_get addr p = Some e → (addr, e) ∈ p.
Proof.
  unfold pool_get. destruct (list_find _ p) as [[i [a e']]|] eqn:E; [|done]. cbn. intros [= <-].
  apply list_find_Some in E as (Hi & Ha & _). cbn in Ha. subst a. by eapply list_elem_of_lookup_2.
Qed.

(** A hit is a live connection of that address used within the threshold; a miss leaves no entry of the address. *)
Lemma cached_connection_spec closed now addr p :
  pool_ok p →
  let '(p', r) := cached_connection closed now addr p in
  pool_ok p' ∧
  match r with
  | Some c => closed c = false ∧ (addr, mkPooled c now) ∈ p' ∧
      ∃ e, (addr, e) ∈ p ∧ conn e = c ∧ duration_since now (pe_last_used e) < POOL_STALE_THRESHOLD
  | None => addr ∉ p'.*1
  end.
Proof.
  intros [Hn Hl]. unfold cached_connection. destruct (pool_get addr p) as [e|] eqn:E.
  - pose proof (pool_get_elem _ _ _ E) as He. destruct (negb (closed (conn e)) && _) eqn:Eb.
    + apply andb_true_iff in Eb as [Hc%negb_true_iff Hs%Z.ltb_lt]. pose proof (pool_remove_shrinks addr p _ He eq_refl).
      destruct (pool_remove_ok addr p Hn) as (Hn' & Hi & Hl').
      split; [split; [by constructor|cbn; lia]|]. split_and!; [done|left|by exists e].
    + destruct (pool_remove_ok addr p Hn) as (Hn' & Hi & Hl'). split; [split; [done|lia]|done].
  - split; [done|]. unfold pool_get in E. destruct (list_find _ p) as [[i x]|] eqn:Ef; [done|].
    rewrite list_elem_of_fmap. intros (x & Ex & Hx). apply list_find_None in Ef. rewrite Forall_forall in Ef. by apply (Ef x Hx).
Qed.

Lemma prune_ok closed p : pool_ok p → pool_ok (prune closed p).
Proof.
  intros [Hn Hl]. split; [|pose proof (length_filter (λ x : SocketAddr * PoolEntry Conn, closed (conn x.2) = false) p); unfold prune; lia].
  eapply sublist_NoDup; [exact Hn|]. apply fmap_sublist, sublist_filter.
Qed.

(** Any sequence of the pool's operations. *)
Inductive pool_op : pool Conn → pool Conn → Prop :=
  | op_cache now addr c p : pool_op p (cache_connection now addr c p)
  | op_lookup closed now addr p : pool_op p (cached_connection closed now addr p).1
  | op_evict addr p : pool_op p (evict_connection addr p)
  | op_prune closed p : pool_op p (prune closed p).

Lemma pool_op_ok p p' : pool_op p p' → pool_ok p → pool_ok p'.
Proof.
  intros [now addr c q|closed now addr q|addr q|closed q] Hq.
  - by apply cache_connection_spec.
  - pose proof (cached_connection_spec closed now addr q Hq) as Hs. destruct (cached_connection closed now addr q) as [q' r]. exact (proj1 Hs).
  - destruct (pool_remove_ok addr q (proj1 Hq)) as (? & _ & ?). destruct Hq. split; [done|unfold evict_connection; lia].
  - by apply prune_ok.
Qed.

(** C25: Whatever connections come and go, the pool holds at most one connection per address and at most
    [MAX_POOL_SIZE] of them.  A new connection is found under its address afterwards; only a full pool
    loses another one for it, and that is one of the least recently used.  A lookup that hits gives an
    open connection of that very address, used less than ten seconds ago; after a miss nothing is
    left under the address. *)
Theorem pool_lru p :
  rtc pool_op [] p →
  NoDup p.*1 ∧ (length p ≤ MAX_POOL_SIZE)%nat ∧
  (∀ now addr c, (addr, mkPooled c now) ∈ cache_connection now addr c p ∧
     ∀ x, x ∈ p → x.1 ≠ addr → x ∉ cache_connection now addr c p →
       length p = MAX_POOL_SIZE ∧ ∀ y, y ∈ p → pe_last_used x.2 ≤ pe_last_used y.2) ∧
  (∀ closed now addr p' r, cached_connection closed now addr p = (p', r) →
     match r with
     | Some c => closed c = false ∧ ∃ e, (addr, e) ∈ p ∧ conn e = c ∧ duration_since now (pe_last_used e) < POOL_STALE_THRESHOLD
     | None => addr ∉ p'.*1
     end).
Proof.
  intros Hr. assert (pool_ok p) as Hp.
  { assert (pool_ok (@nil (SocketAddr * PoolEntry Conn))) as H0 by (split; cbn; [constructor|unfold MAX_POOL_SIZE; lia]).
    revert H0. induction Hr as [q|q1 q2 q3 H12 _ IH]; [done|]. intros Hq. by eapply IH, pool_op_ok. }
  destruct Hp as [Hn Hl]. split_and!; [done|done| |].
  - intros now addr c. apply cache_connection_spec. by split.
  - intros closed now addr p' r E. pose proof (cached_connection_spec closed now addr p (conj Hn Hl)) as Hs. rewrite E in Hs.
    destruct r; [|by destruct Hs]. destruct Hs as (_ & Hc & _ & He). by split.
Qed.
End pool_properties.

Section request_properties.
Context `{Serde Message} {Conn : Type}.
Notation Attempt := (Attempt (Conn := Conn)).

(** Other tasks keep the pool well-formed too. *)
Definition others_ok (a : Attempt) : Prop :=
  ∀ q, pool_ok q → pool_ok (at_before a q) ∧ pool_ok (at_meanwhile a q) ∧ pool_ok (at_during a q).

(** A response read in an attempt: on an open connection from the pool or a new one, from a stream that
    took the whole request. *)
Definition read_in (a : Attempt) (data : list Z) (resp : Message) : Prop :=
  ∃ c received e bytes, (at_closed a c = false ∨ at_connect a = Connected (inr c)) ∧
    Z.of_nat (length data) ≤ MAX_MESSAGE_SIZE ∧ s_response (at_stream a c) = Some (received, e) ∧
    read_message received e = Ok bytes ∧ message_from_bytes bytes = inr resp.

Lemma write_message_no_panic f g data : (write_message f g data).2 ≠ Panic.
Proof. unfold write_message. by repeat case_match. Qed.
Lemma read_message_no_panic s e : read_message s e ≠ Panic.
Proof. unfold read_message. by repeat case_match. Qed.

Lemma send_on_connection_spec st data :
  send_on_connection st data ≠ Panic ∧
  ∀ resp, send_on_connection st data = Ok resp → Z.of_nat (length data) ≤ MAX_MESSAGE_SIZE ∧
    ∃ received e bytes, s_response st = Some (received, e) ∧ read_message received e = Ok bytes ∧ message_from_bytes bytes = inr resp.
Proof.
  unfold send_on_connection. destruct (s_open st); [done|].
  destruct (write_message _ _ data).2 as [[]|e|] eqn:Ew; [|done|by apply write_message_no_panic in Ew].
  destruct (s_finish st); [done|]. destruct (s_response st) as [[received e]|]; [|done].
  destruct (read_message received e) as [bytes|err|] eqn:Er; [|done|by apply read_message_no_panic in Er].
  destruct (message_from_bytes bytes) as [err|m] eqn:Em; [done|]. split; [done|]. intros resp [= <-].
  split; [|by exists received, e, bytes]. unfold write_message in Ew.
  by destruct (Z.ltb_spec MAX_MESSAGE_SIZE (Z.of_nat (length data))).
Qed.

Lemma try_send_spec (a : Attempt) addr data p :
  others_ok a → pool_ok p →
  let '(p', r) := try_send a addr data p in
  pool_ok p' ∧ r ≠ Panic ∧ r ≠ Ok Panic ∧ ∀ resp, r = Ok (Ok resp) → read_in a data resp.
Proof.
  intros Ho Hp. unfold try_send, get_or_create_connection.
  pose proof (cached_connection_spec (at_closed a) (at_now1 a) addr (at_before a p) (proj1 (Ho p Hp))) as Hc.
  destruct (cached_connection _ _ _ _) as [q [c|]]; destruct Hc as [Hq Hc].
  - destruct (send_on_connection_spec (at_stream a c) data) as [Hnp Hr]. split; [by apply Ho|]. split; [done|]. split; [congruence|].
    intros resp [= E]. destruct (Hr resp E) as (Hl & received & e & bytes & Hs & Hm & Hb). destruct Hc as (Hcl & _).
    exists c, received, e, bytes. split_and!; [by left|done..].
  - destruct (at_connect a) as [e| |[e|c]] eqn:Ea; [split_and!; [|done..]; exact Hq|split_and!; [|done..]; by apply Ho|split_and!; [|done..]; by apply Ho|].
    destruct (send_on_connection_spec (at_stream a c) data) as [Hnp Hr]. destruct (Ho q Hq) as (_ & Hm & _). split.
    { by apply Ho, cache_connection_spec. }
    split; [done|]. split; [congruence|]. intros resp [= E]. destruct (Hr resp E) as (Hl & received & e & bytes & Hs & Hrd & Hb).
    exists c, received, e, bytes. split_and!; [by right|done..].
Qed.

End request_properties.

(** ** One response per stream *)
Section inbound_properties.
Context `{Serde Message}.

Record inbound_ok (y : Inbound) : Prop := {
  io_bound : (size (in_senders y) ≤ MAX_PENDING_RESPONSES)%nat;
  io_senders : ∀ i s, in_senders y !! i = Some s → (s, i) ∈ in_waiting y ++ in_expiring y;
  io_distinct : NoDup ((in_waiting y).*1 ++ (in_expiring y).*1 ++ (in_responses y).*1);
  io_fresh : Forall (λ s, (s < in_next y)%nat) ((in_waiting y).*1 ++ (in_expiring y).*1 ++ (in_responses y).*1);
  io_requests : ∀ s i, (s, i) ∈ in_waiting y → ∃ from req, (s, (from, req)) ∈ in_requests y ∧ m_msg_id req = i;
  io_responses : ∀ s m, (s, m) ∈ in_responses y → ∃ from req, (s, (from, req)) ∈ in_requests y ∧ m_msg_id req = m_msg_id m;
}.

Lemma inbound_new_ok rate burst : inbound_ok (Inbound_new rate burst).
Proof.
  split; cbn; [by rewrite map_size_empty; apply Nat.le_0_l|by intros i s; rewrite lookup_empty|constructor|constructor| |];
    by intros ? ? ?%elem_of_nil.
Qed.

Lemma same_io y limiter :
  inbound_ok y → inbound_ok (mkInbound (S (in_next y)) limiter (in_senders y) (in_waiting y) (in_expiring y) (in_requests y) (in_responses y)).
Proof. intros [B S D F Q R]. split; try done. eapply Forall_impl; [exact F|]. cbn. lia. Qed.

Lemma on_stream_ok now a received e open y : inbound_ok y → inbound_ok (on_stream now a received e open y).
Proof.
  intros Hy. unfold on_stream. destruct (limiter_check now (ip a) (in_limiter y)) as [limiter allowed].
  pose proof (same_io y limiter Hy) as [B S D F Q R]. cbn [in_next in_limiter in_senders in_waiting in_expiring in_requests in_responses] in *.
  destruct (negb allowed); [by split|]. destruct (read_message received e) as [data| |]; [|by split..].
  destruct (message_from_bytes data) as [|msg]; [by split|]. destruct (Nat.leb_spec MAX_PENDING_RESPONSES (size (in_senders y))); [by split|].
  case_bool_decide as Hd; [by split|]. destruct open; [|by split]. apply eq_None_not_Some in Hd. cbn [pred].
  destruct Hy as [_ _ _ F0 _ _].
  split; cbn [in_next in_limiter in_senders in_waiting in_expiring in_requests in_responses].
  - rewrite map_size_insert, Hd. lia.
  - intros i s. rewrite lookup_insert_Some. intros [[<- <-]|[_ Hs]]; [left|right; by apply S].
  - rewrite fmap_cons. cbn. constructor; [|done]. intros Hin. rewrite Forall_forall in F0. specialize (F0 _ Hin). lia.
  - rewrite fmap_cons. cbn. constructor; [lia|done].
  - intros s i [[= -> ->]|Hs]%elem_of_cons.
    + exists a, msg. split; [|done]. apply elem_of_app. right. left.
    + destruct (Q s i Hs) as (f & req & Hr & E). exists f, req. split; [|done]. apply elem_of_app. by left.
  - intros s m Hs. destruct (R s m Hs) as (f & req & Hr & E). exists f, req. split; [|done]. apply elem_of_app. by left.
Qed.

Lemma filter_out (x : nat * Z) l : NoDup l.*1 → x ∈ l → l ≡ₚ x :: filter (λ z, z ≠ x) l.
Proof.
  induction l as [|y l IH]; [by intros _ ?%elem_of_nil|]. rewrite fmap_cons. intros [Hy Hn]%NoDup_cons Hx. rewrite filter_cons.
  case_decide as Hd.
  - apply elem_of_cons in Hx as [->|Hx]; [done|]. transitivity (y :: x :: filter (λ z, z ≠ x) l); [by constructor; apply IH|constructor].
  - subst y. constructor. rewrite filter_all; [done|]. apply Forall_forall. intros z Hz ->. apply Hy.
    by apply list_elem_of_fmap_2.
Qed.

Lemma NoDup_waiting y : inbound_ok y → NoDup (in_waiting y).*1.
Proof. intros [_ _ D _ _ _]. by apply NoDup_app in D as (? & _). Qed.

(** The streams' numbers after a step that moves them about. *)
Lemma moved_ok (k k' : list nat) n : k' ⊆+ k → NoDup k → Forall (λ s, (s < n)%nat) k → NoDup k' ∧ Forall (λ s, (s < n)%nat) k'.
Proof.
  intros Hk Hn Hf. split; [apply submseteq_Permutation in Hk as [r Hk]; rewrite Hk in Hn; by apply NoDup_app in Hn as (? & _)|]. apply Forall_forall. intros s Hs. rewrite Forall_forall in Hf. apply Hf.
  by eapply elem_of_submseteq.
Qed.

Lemma respond_ok msg y : inbound_ok y → inbound_ok (quic_send_response msg y).1.
Proof.
  intros Hy. pose proof (NoDup_waiting y Hy) as Hnw. destruct Hy as [B S D F Q R]. unfold quic_send_response.
  destruct (in_senders y !! m_msg_id msg) as [s|] eqn:E; [|by split]. cbn [fst].
  assert ((filter (λ x, x ≠ (s, m_msg_id msg)) (in_waiting y)).*1 ++ (in_expiring y).*1
    ++ (in_responses y ++ (if bool_decide ((s, m_msg_id msg) ∈ in_waiting y) then [(s, msg)] else [])).*1
    ⊆+ (in_waiting y).*1 ++ (in_expiring y).*1 ++ (in_responses y).*1) as Hm.
  { case_bool_decide as Hw; [|rewrite app_nil_r; apply submseteq_app; [|done]; apply sublist_submseteq, fmap_sublist, sublist_filter].
    rewrite (filter_out _ _ Hnw Hw) at 2. rewrite fmap_app. cbn [fmap list_fmap fst]. rewrite !app_assoc. by rewrite <-Permutation_cons_append. }
  destruct (moved_ok _ _ (in_next y) Hm D F) as [D' F'].
  split; cbn [in_next in_limiter in_senders in_waiting in_expiring in_requests in_responses]; [| |exact D'|exact F'| |].
  - rewrite map_size_delete, E. lia.
  - intros i s'. rewrite lookup_delete_Some. intros [Hi Hs]. specialize (S i s' Hs). rewrite elem_of_app in *.
    destruct S as [S|S]; [left|by right]. apply list_elem_of_filter. split; [congruence|done].
  - intros s' i [_ Hs]%list_elem_of_filter. by apply Q.
  - intros s' m. rewrite elem_of_app. intros [Hs|Hs]; [by apply R|]. case_bool_decide as Hw; [|by apply elem_of_nil in Hs].
    apply list_elem_of_singleton in Hs. injection Hs as -> ->. by apply Q.
Qed.

Lemma no_response_ok x y : inbound_ok y → inbound_ok (no_response x y).
Proof.
  intros Hy. pose proof (NoDup_waiting y Hy) as Hnw. destruct Hy as [B S D F Q R]. unfold no_response. case_bool_decide as Hw; [|by split].
  assert ((filter (λ z, z ≠ x) (in_waiting y)).*1 ++ (x :: in_expiring y).*1 ++ (in_responses y).*1
    ⊆+ (in_waiting y).*1 ++ (in_expiring y).*1 ++ (in_responses y).*1) as Hm.
  { rewrite (filter_out _ _ Hnw Hw) at 2. rewrite !fmap_cons. cbn [app]. by rewrite <-Permutation_middle. }
  destruct (moved_ok _ _ (in_next y) Hm D F) as [D' F'].
  split; cbn [in_next in_limiter in_senders in_waiting in_expiring in_requests in_responses]; [done| |exact D'|exact F'| |done].
  - intros i s Hs. specialize (S i s Hs). rewrite elem_of_app in *. destruct S as [S|S]; [|right; by right].
    destruct (decide ((s, i) = x)) as [<-|Hne]; [right; left|left]. by apply list_elem_of_filter.
  - intros s i [_ Hs]%list_elem_of_filter. by apply Q.
Qed.

Lemma forget_ok x y : inbound_ok y → inbound_ok (forget x y).
Proof.
  intros Hy. destruct Hy as [B S D F Q R]. unfold forget. case_bool_decide as Hw; [|by split].
  assert ((in_waiting y).*1 ++ (filter (λ z, z ≠ x) (in_expiring y)).*1 ++ (in_responses y).*1
    ⊆+ (in_waiting y).*1 ++ (in_expiring y).*1 ++ (in_responses y).*1) as Hm.
  { apply submseteq_app; [done|]. apply submseteq_app; [|done]. apply sublist_submseteq, fmap_sublist, sublist_filter. }
  destruct (moved_ok _ _ (in_next y) Hm D F) as [D' F'].
  split; cbn [in_next in_limiter in_senders in_waiting in_expiring in_requests in_responses]; [| |exact D'|exact F'|done|done].
  - rewrite map_size_delete. unfold id; destruct (in_senders y !! x.2); lia.
  - intros i s. rewrite lookup_delete_Some. intros [Hi Hs]. specialize (S i s Hs). rewrite elem_of_app in *.
    destruct S as [S|S]; [by left|right]. apply list_elem_of_filter. split; [|done]. by intros <-.
Qed.

(** C27: However inbound streams open, the node responds and streams give up, at most
    [MAX_PENDING_RESPONSES] responses are pending; each stream gets at most one response; and
    the response a stream gets carries the message id of the request that came on that stream. *)
Theorem inbound_streams rate burst y :
  rtc inbound_step (Inbound_new rate burst) y →
  (size (in_senders y) ≤ MAX_PENDING_RESPONSES)%nat ∧ NoDup (in_responses y).*1 ∧
  ∀ s m, (s, m) ∈ in_responses y → ∃ from req, (s, (from, req)) ∈ in_requests y ∧ m_msg_id req = m_msg_id m.
Proof.
  intros Hr. assert (inbound_ok y) as [B S D F Q R].
  { pose proof (inbound_new_ok rate burst) as H0'. revert H0'. induction Hr as [z|z1 z2 z3 H12 _ IH]; [done|]. intros Hz. apply IH.
    destruct H12; [by apply on_stream_ok|by apply respond_ok|by apply no_response_ok|by apply forget_ok]. }
  split_and!; [done| |done]. apply NoDup_app in D as (_ & _ & D). by apply NoDup_app in D as (_ & _ & ?).
Qed.
End inbound_properties.

(** ** Concrete runs *)
Lemma framing_exact_witness : ∃ frame more, write_message None None [7; 8] = (frame, Ok ()) ∧ [0; 0; 0; 2; 7; 8; 9] = frame ++ more.
Proof.
  destruct (framing_exact [] [] "eof" 0 [0; 0; 0; 2; 7; 8; 9] [7; 8]) as [_ Hr].
  destruct Hr as [_ Hr]; [vm_compute; repeat constructor; discriminate|]. apply Hr. reflexivity.
Defined.

(** Connections are numbers, all open. *)
Definition two_peers : pool nat := cache_connection 5 (mkAddr (V4 10 0 0 2) 4433) 2%nat (cache_connection 3 (mkAddr (V4 10 0 0 1) 4433) 1%nat []).
Lemma pool_lru_witness : NoDup two_peers.*1 ∧ (length two_peers ≤ MAX_POOL_SIZE)%nat.
Proof.
  destruct (pool_lru two_peers) as (Hn & Hl & _).
  - eapply rtc_l; [apply op_cache|]. apply rtc_once, op_cache.
  - split; assumption.
Defined.

Definition silent_stream : Stream := mkStream None None None None None.
Definition timing_out : Attempt (Conn := nat) :=
  mkAttempt (λ p, p) 0 0 (λ _, false) (Connected (inr 7%nat)) (λ p, p) (λ p, p) (λ _, silent_stream).
Definition ping : Message := Message_new 9 (replicate 32 1) (replicate 32 2) (mkPow 0 0) PingRequest.

(** A ping comes on a stream, and its response goes back on it. *)
Definition pong : Message := response ping (replicate 32 3) (replicate 32 4) (mkPow 0 0) (PingResponse None).
Definition ping_frame : list Z := match message_to_bytes ping with inr d => (write_message None None d).1 | inl _ => [] end.
Definition answered : Inbound :=
  (quic_send_response pong (on_stream 0 (mkAddr (V4 10 0 0 2) 4433) ping_frame "eof" true (Inbound_new 50 10))).1.
Lemma inbound_streams_witness :
  in_responses answered = [(0%nat, pong)] ∧ ∃ from req, (0%nat, (from, req)) ∈ in_requests answered ∧ m_msg_id req = m_msg_id pong.
Proof.
  assert (in_responses answered = [(0%nat, pong)]) as E by (vm_compute; reflexivity).
  destruct (inbound_streams 50 10 answered) as (_ & _ & Hr).
  - eapply rtc_l; [apply step_stream|]. apply rtc_once, step_respond.
  - split; [exact E|]. apply Hr. rewrite E. left.
Defined.
