(* ===== verification/Memory.v ===== *)
(** * The in-memory transport ([src/transport/mod.rs])

    The transport that tests run nodes on: a shared map from addresses to inboxes, one router task
    per endpoint, requests waiting for the response with their id.  The tasks are interleaved:
    an [Action] is one atomic step of one of them, and [act] says what it does and when it is blocked. *)
From S2P Require Import Prelude.
From S2P Require Import Errors.
From S2P Require Import Bytes.
From S2P Require Import Identity.
From S2P Require Import Net.
From S2P Require Import Message.

(** The capacity of both channels of an endpoint. *)
Definition CHANNEL_CAPACITY : nat := 256.

(** [taken] and [log] record what [recv_request] returned and everything put in the inbox. *)
Record Endpoint := mkEndpoint {
  local_addr : SocketAddr;
  raw : list (SocketAddr * Message);
  routing : option (SocketAddr * Message);
  requests : list (SocketAddr * Message);
  taken : list (SocketAddr * Message);
  log : list (SocketAddr * Message);
  pending_responses : gmap Z nat;
  router_runs : bool;
  dropped : bool;
}.

(** The oneshot channel of a call of [send_request]: empty, holding the response, or its sender is gone. *)
Inductive Slot := Empty | Filled (m : Message) | Closed.
Inductive Stage := Sending | Waiting | Cleaning (e : TesseraError) | Returned (r : res Message) | Cancelled.
Record Call := mkCall {
  c_from : nat;
  c_addr : SocketAddr;
  c_msg : Message;
  c_slot : Slot;
  c_stage : Stage;
}.
(** A call of [send_response]. *)
Record Reply := mkReply {
  r_from : nat;
  r_addr : SocketAddr;
  r_msg : Message;
  r_result : option (res ());
}.

(** Who holds the lock of the network: a sender blocked on a full inbox keeps it. *)
Inductive Sender := ByCall (n : nat) | ByReply (n : nat).
#[export] Instance Sender_eq_dec : EqDecision Sender.
Proof. solve_decision. Defined.

Record World := mkWorld {
  network : gmap SocketAddr nat;
  lock : option Sender;
  endpoints : list Endpoint;
  calls : list Call;
  replies : list Reply;
}.
(** [new_in_memory_network]. *)
Definition new_in_memory_network : World := mkWorld ∅ None [] [] [].

Definition set_lock (o : option Sender) (w : World) : World := mkWorld (network w) o (endpoints w) (calls w) (replies w).
Definition on_endpoint (e : nat) (f : Endpoint → Endpoint) (w : World) : World :=
  mkWorld (network w) (lock w) (alter f e (endpoints w)) (calls w) (replies w).
Definition on_call (n : nat) (f : Call → Call) (w : World) : World :=
  mkWorld (network w) (lock w) (endpoints w) (alter f n (calls w)) (replies w).
Definition on_reply (n : nat) (f : Reply → Reply) (w : World) : World :=
  mkWorld (network w) (lock w) (endpoints w) (calls w) (alter f n (replies w)).

Definition set_pending (p : gmap Z nat) (x : Endpoint) : Endpoint :=
  mkEndpoint (local_addr x) (raw x) (routing x) (requests x) (taken x) (log x) p (router_runs x) (dropped x).
Definition set_queues (raw : list (SocketAddr * Message)) (routing : option (SocketAddr * Message))
    (requests taken : list (SocketAddr * Message)) (x : Endpoint) : Endpoint :=
  mkEndpoint (local_addr x) raw routing requests taken (log x) (pending_responses x) (router_runs x) (dropped x).
(** The router ends: its receiver goes with what is queued. *)
Definition stop_router (x : Endpoint) : Endpoint :=
  mkEndpoint (local_addr x) [] None (requests x) (taken x) (log x) (pending_responses x) false (dropped x).
Definition drop_transport (x : Endpoint) : Endpoint :=
  mkEndpoint (local_addr x) (raw x) (routing x) (requests x) (taken x) (log x) (pending_responses x) (router_runs x) true.
Definition push_raw (m : SocketAddr * Message) (x : Endpoint) : Endpoint :=
  mkEndpoint (local_addr x) (raw x ++ [m]) (routing x) (requests x) (taken x) (log x ++ [m]) (pending_responses x) (router_runs x) (dropped x).

Definition set_slot (o : Slot) (c : Call) : Call := mkCall (c_from c) (c_addr c) (c_msg c) o (c_stage c).
Definition set_stage (g : Stage) (c : Call) : Call := mkCall (c_from c) (c_addr c) (c_msg c) (c_slot c) g.
(** The response arrives if the call still has its receiver. *)
Definition fill (m : Message) (c : Call) : Call :=
  match c_stage c with Sending | Waiting => set_slot (Filled m) c | _ => c end.
Definition close_slot (c : Call) : Call := set_slot Closed c.

(** An entry of the map of pending responses goes, and with it the sender of its channel. *)
Definition remove_pending (e : nat) (i : Z) (w : World) : World :=
  match endpoints w !! e with
  | Some x => match pending_responses x !! i with
              | Some n => on_call n close_slot (on_endpoint e (set_pending (delete i (pending_responses x))) w)
              | None => w
              end
  | None => w
  end.

(** The transport at an endpoint, until it is dropped. *)
Definition transport (e : nat) (w : World) : option Endpoint :=
  match endpoints w !! e with Some x => if dropped x then None else Some x | None => None end.
Definition finished (c : Call) : bool := match c_stage c with Returned _ | Cancelled => true | _ => false end.

Section world.
(** [SocketAddr]'s [Display]. *)
Context (show_addr : SocketAddr → string).

(** [InMemoryTransport::new]: a new endpoint, whose inbox replaces any other at that address. *)
Definition InMemoryTransport_new (addr : SocketAddr) (w : World) : option World :=
  if bool_decide (lock w = None) then
    Some (mkWorld (<[addr := length (endpoints w)]> (network w)) None
      (endpoints w ++ [mkEndpoint addr [] None [] [] [] ∅ true false]) (calls w) (replies w))
  else None.

(** A message put in the inbox at [addr] under the lock of the network: [None] while another holds
    the lock; no result yet while the inbox is full, with the lock held. *)
Definition deliver (who : Sender) (from addr : SocketAddr) (msg : Message) (w : World) : option (World * option (res ())) :=
  if bool_decide (lock w = None ∨ lock w = Some who) then
    match network w !! addr ≫= λ t, pair t <$> endpoints w !! t with
    | None => Some (set_lock None w, Some (Err (Network ("no route to " +:+ show_addr addr))))
    | Some (t, x) =>
      if negb (router_runs x) then Some (set_lock None w, Some (Err (Network ("channel closed for " +:+ show_addr addr))))
      else if (length (raw x) <? CHANNEL_CAPACITY)%nat then Some (set_lock None (on_endpoint t (push_raw (from, msg)) w), Some (Ok ()))
      else Some (set_lock (Some who) w, None)
    end
  else None.

(** [send_request] registers its channel; an earlier one with the same id loses its sender. *)
Definition begin_request (e : nat) (addr : SocketAddr) (msg : Message) (w : World) : option World :=
  match transport e w with
  | None => None
  | Some _ =>
    let n := length (calls w) in
    let w := mkWorld (network w) (lock w) (endpoints w) (calls w ++ [mkCall e addr msg Empty Sending]) (replies w) in
    let w := remove_pending e (m_msg_id msg) w in
    Some (on_endpoint e (λ x, set_pending (<[m_msg_id msg := n]> (pending_responses x)) x) w)
  end.

(** Then it sends, under the lock. *)
Definition send_message (n : nat) (w : World) : option World :=
  match calls w !! n with
  | Some c =>
    match c_stage c, endpoints w !! c_from c with
    | Sending, Some x =>
      match deliver (ByCall n) (local_addr x) (c_addr c) (c_msg c) w with
      | Some (w, Some (Ok _)) => Some (on_call n (set_stage Waiting) w)
      | Some (w, Some (Err e)) => Some (on_call n (set_stage (Cleaning e)) w)
      | Some (w, _) => Some w
      | None => None
      end
    | _, _ => None
    end
  | None => None
  end.

(** Then it waits: the response, a lost sender, or ([expired]) five seconds have passed.  [timeout] looks
    at the channel first. *)
Definition await_response (n : nat) (expired : bool) (w : World) : option World :=
  match calls w !! n with
  | Some c =>
    match c_stage c, c_slot c with
    | Waiting, Filled m => Some (on_call n (set_stage (Returned (Ok m))) w)
    | Waiting, Closed => Some (on_call n (set_stage (Cleaning (Network "response channel dropped"))) w)
    | Waiting, Empty => if expired then Some (on_call n (set_stage (Cleaning Timeout)) w) else None
    | _, _ => None
    end
  | None => None
  end.

(** The cleanup after an error, by message id. *)
Definition clean_up (n : nat) (w : World) : option World :=
  match calls w !! n with
  | Some c => match c_stage c with
              | Cleaning e => Some (on_call n (set_stage (Returned (Err e))) (remove_pending (c_from c) (m_msg_id (c_msg c)) w))
              | _ => None
              end
  | None => None
  end.

(** The caller drops the future of [send_request] before it is done. *)
Definition cancel (n : nat) (w : World) : option World :=
  match calls w !! n with
  | Some c => match c_stage c with
              | Returned _ | Cancelled => None
              | _ => Some (set_lock (if bool_decide (lock w = Some (ByCall n)) then None else lock w) (on_call n (set_stage Cancelled) w))
              end
  | None => None
  end.

(** The router takes a message from the inbox. *)
Definition router_recv (e : nat) (w : World) : option World :=
  match endpoints w !! e with
  | Some x => match router_runs x, routing x, raw x with
              | true, None, m :: raw => Some (on_endpoint e (set_queues raw (Some m) (requests x) (taken x)) w)
              | _, _, _ => None
              end
  | None => None
  end.
(** And passes it on: to the call that waits for it, or as a request. *)
Definition router_forward (e : nat) (w : World) : option World :=
  match endpoints w !! e with
  | Some x =>
    match routing x with
    | Some (addr, msg) =>
      match (if negb (is_request msg) then pending_responses x !! m_msg_id msg else None) with
      | Some n =>
        Some (on_call n (fill msg)
          (on_endpoint e (λ x, set_pending (delete (m_msg_id msg) (pending_responses x)) (set_queues (raw x) None (requests x) (taken x) x)) w))
      | None =>
        if dropped x then Some (on_endpoint e stop_router w)
        else if (length (requests x) <? CHANNEL_CAPACITY)%nat
        then Some (on_endpoint e (set_queues (raw x) None (requests x ++ [(addr, msg)]) (taken x)) w)
        else None
      end
    | None => None
    end
  | None => None
  end.
(** The inbox is empty and no longer registered: the router ends. *)
Definition router_end (e : nat) (w : World) : option World :=
  match endpoints w !! e with
  | Some x => match router_runs x, routing x, raw x with
              | true, None, [] => if bool_decide (network w !! local_addr x = Some e) then None else Some (on_endpoint e stop_router w)
              | _, _, _ => None
              end
  | None => None
  end.

(** [recv_request]: a request, an error when the router has ended, [None] while there is nothing. *)
Definition recv_request (e : nat) (w : World) : option (World * res (SocketAddr * Message)) :=
  match transport e w with
  | Some x => match requests x with
              | m :: requests => Some (on_endpoint e (set_queues (raw x) (routing x) requests (taken x ++ [m])) w, Ok m)
              | [] => if router_runs x then None else Some (w, Err (Network "inbox closed"))
              end
  | None => None
  end.

(** [send_response]: called, then sent. *)
Definition begin_response (e : nat) (addr : SocketAddr) (msg : Message) (w : World) : option World :=
  match transport e w with
  | Some _ => Some (mkWorld (network w) (lock w) (endpoints w) (calls w) (replies w ++ [mkReply e addr msg None]))
  | None => None
  end.
Definition send_response (n : nat) (w : World) : option World :=
  match replies w !! n with
  | Some r =>
    match r_result r, endpoints w !! r_from r with
    | None, Some x =>
      match deliver (ByReply n) (local_addr x) (r_addr r) (r_msg r) w with
      | Some (w, o) => Some (on_reply n (λ r, mkReply (r_from r) (r_addr r) (r_msg r) o) w)
      | None => None
      end
    | _, _ => None
    end
  | None => None
  end.

(** A transport is dropped when no future borrows it. *)
Definition drop_endpoint (e : nat) (w : World) : option World :=
  if forallb (λ c, negb (c_from c =? e)%nat || finished c) (calls w)
     && forallb (λ r, negb (r_from r =? e)%nat || bool_decide (is_Some (r_result r))) (replies w)
  then Some (on_endpoint e drop_transport w) else None.

Inductive Action :=
  | ActNew (addr : SocketAddr)
  | ActRequest (e : nat) (addr : SocketAddr) (msg : Message)
  | ActSend (n : nat)
  | ActAwait (n : nat) (expired : bool)
  | ActCleanUp (n : nat)
  | ActCancel (n : nat)
  | ActRouterRecv (e : nat)
  | ActRouterForward (e : nat)
  | ActRouterEnd (e : nat)
  | ActRecvRequest (e : nat)
  | ActResponse (e : nat) (addr : SocketAddr) (msg : Message)
  | ActSendResponse (n : nat)
  | ActDrop (e : nat).

Definition act (a : Action) (w : World) : option World :=
  match a with
  | ActNew addr => InMemoryTransport_new addr w
  | ActRequest e addr msg => begin_request e addr msg w
  | ActSend n => send_message n w
  | ActAwait n expired => await_response n expired w
  | ActCleanUp n => clean_up n w
  | ActCancel n => cancel n w
  | ActRouterRecv e => router_recv e w
  | ActRouterForward e => router_forward e w
  | ActRouterEnd e => router_end e w
  | ActRecvRequest e => fst <$> recv_request e w
  | ActResponse e addr msg => begin_response e addr msg w
  | ActSendResponse n => send_response n w
  | ActDrop e => drop_endpoint e w
  end.

Fixpoint run_actions (l : list Action) (w : World) : option World :=
  match l with [] => Some w | a :: l => act a w ≫= run_actions l end.
End world.

(** ** Every state of the network is sound *)
Definition flow (x : Endpoint) : list (SocketAddr * Message) := taken x ++ requests x ++ option_list (routing x) ++ raw x.
Definition is_request_from (m : SocketAddr * Message) : Prop := is_request m.2 = true.
Definition returned (c : Call) : Prop := ∃ r, c_stage c = Returned r.
Definition at_addr (w : World) (e : nat) (addr : SocketAddr) : Prop := ∃ x, endpoints w !! e = Some x ∧ local_addr x = addr.
(** A message somebody at [from] sent, as a request or a response, to [addr]. *)
Definition sent (w : World) (from addr : SocketAddr) (msg : Message) : Prop :=
  (∃ n c, calls w !! n = Some c ∧ at_addr w (c_from c) from ∧ c_addr c = addr ∧ c_msg c = msg) ∨
  (∃ n r, replies w !! n = Some r ∧ at_addr w (r_from r) from ∧ r_addr r = addr ∧ r_msg r = msg).

Record endpoint_ok (w : World) (e : nat) (x : Endpoint) : Prop := {
  eo_order : sublist (flow x) (log x);
  eo_requests : router_runs x = true → filter is_request_from (flow x) = filter is_request_from (log x);
  eo_pending : ∀ i n, pending_responses x !! i = Some n →
    ∃ c, calls w !! n = Some c ∧ c_from c = e ∧ m_msg_id (c_msg c) = i ∧ c_slot c = Empty ∧ ¬ returned c;
  eo_log : ∀ from m, (from, m) ∈ log x → sent w from (local_addr x) m;
}.
Definition call_ok (w : World) (c : Call) : Prop :=
  ∃ x, endpoints w !! c_from c = Some x ∧
    ∀ m, c_slot c = Filled m ∨ c_stage c = Returned (Ok m) →
      is_request m = false ∧ m_msg_id m = m_msg_id (c_msg c) ∧ ∃ from, (from, m) ∈ log x.
Record world_ok (w : World) : Prop := {
  wo_network : ∀ addr t, network w !! addr = Some t → at_addr w t addr;
  wo_endpoints : ∀ e x, endpoints w !! e = Some x → endpoint_ok w e x;
  wo_calls : ∀ n c, calls w !! n = Some c → call_ok w c;
  wo_replies : ∀ n r, replies w !! n = Some r → is_Some (endpoints w !! r_from r);
}.

Lemma alter_lookup {A} (f : A → A) (l : list A) i j x :
  l !! j = Some x → alter f i l !! j = Some (if decide (j = i) then f x else x).
Proof. intros Hj. rewrite list_lookup_alter. do 2 case_decide; simplify_eq; by rewrite Hj. Qed.
Lemma alter_lookup_inv {A} (f : A → A) (l : list A) i j y :
  alter f i l !! j = Some y → ∃ x, l !! j = Some x ∧ y = (if decide (j = i) then f x else x).
Proof.
  destruct (l !! j) as [x|] eqn:E; [intros Hy; exists x; rewrite (alter_lookup _ _ _ _ _ E) in Hy; by injection Hy as <-|].
  rewrite list_lookup_alter. case_decide; simplify_eq; by rewrite E.
Qed.

(** What a step leaves in place. *)
Definition evolves (w w' : World) : Prop :=
  (∀ e x, endpoints w !! e = Some x → ∃ x', endpoints w' !! e = Some x' ∧ local_addr x' = local_addr x ∧ log x ⊆ log x') ∧
  (∀ n c, calls w !! n = Some c → ∃ c', calls w' !! n = Some c' ∧ c_from c' = c_from c ∧ c_addr c' = c_addr c ∧ c_msg c' = c_msg c) ∧
  (∀ n r, replies w !! n = Some r → ∃ r', replies w' !! n = Some r' ∧ r_from r' = r_from r ∧ r_addr r' = r_addr r ∧ r_msg r' = r_msg r).

Lemma at_addr_evolves w w' e a : evolves w w' → at_addr w e a → at_addr w' e a.
Proof. intros (He & _) (x & Hx & <-). destruct (He e x Hx) as (x' & ? & ? & _). by exists x'. Qed.
Lemma sent_evolves w w' from a m : evolves w w' → sent w from a m → sent w' from a m.
Proof.
  intros Hw [(n & c & Hc & Ha & <- & <-)|(n & r & Hr & Ha & <- & <-)]; pose proof Hw as (He & Hcs & Hrs).
  - left. destruct (Hcs n c Hc) as (c' & Hc' & Ef & Ea & Em). exists n, c'. split_and!; [done| |done..]. rewrite Ef. by eapply at_addr_evolves.
  - right. destruct (Hrs n r Hr) as (r' & Hr' & Ef & Ea & Em). exists n, r'. split_and!; [done| |done..]. rewrite Ef. by eapply at_addr_evolves.
Qed.
Lemma endpoint_ok_evolves w w' e x : evolves w w' → calls w' = calls w → endpoint_ok w e x → endpoint_ok w' e x.
Proof. intros Hw Hc [A B C D]. split; [done|done| |]; [rewrite Hc; by apply C|]. intros from m Hm. eapply sent_evolves; [done|by apply D]. Qed.
Lemma call_ok_evolves w w' c : evolves w w' → call_ok w c → call_ok w' c.
Proof.
  intros (He & _) (x & Hx & Hm). destruct (He _ _ Hx) as (x' & Hx' & _ & Hl). exists x'. split; [done|].
  intros m H. destruct (Hm m H) as (? & ? & from & ?). split_and!; [done..|]. exists from. by apply Hl.
Qed.

Lemma evolves_endpoint w e f :
  (∀ x, endpoints w !! e = Some x → local_addr (f x) = local_addr x ∧ log x ⊆ log (f x)) → evolves w (on_endpoint e f w).
Proof.
  intros Hf. split_and!; cbn; [|intros ? ? ?; by eexists..]. intros j x Hx. eexists. split; [by apply alter_lookup|].
  destruct (decide (j = e)) as [->|]; [by apply Hf|done].
Qed.
Lemma evolves_call w n f :
  (∀ c, c_from (f c) = c_from c ∧ c_addr (f c) = c_addr c ∧ c_msg (f c) = c_msg c) → evolves w (on_call n f w).
Proof.
  intros Hf. split_and!; cbn; [intros ? x Hx; by exists x| |intros ? ? ?; by eexists]. intros j c Hc. eexists.
  split; [by apply alter_lookup|]. case_decide; [apply Hf|done].
Qed.

(** *** The changes the steps are made of *)
Lemma set_lock_ok o w : world_ok w → world_ok (set_lock o w).
Proof. intros [N E C R]. split; [done| |done..]. intros e x Hx. destruct (E e x Hx). by split. Qed.

Lemma on_endpoint_ok e f w :
  world_ok w →
  (∀ x, endpoints w !! e = Some x → endpoint_ok w e x → endpoint_ok w e (f x) ∧ local_addr (f x) = local_addr x ∧ log x ⊆ log (f x)) →
  world_ok (on_endpoint e f w).
Proof.
  intros [N E C R] Hf. assert (evolves w (on_endpoint e f w)) as Hev.
  { apply evolves_endpoint. intros x Hx. by apply (Hf x Hx (E e x Hx)). }
  split.
  - intros a t Ht. eapply at_addr_evolves; [done|by apply N].
  - intros j y (x & Hx & ->)%alter_lookup_inv. apply (endpoint_ok_evolves w); [done..|]. destruct (decide (j = e)) as [->|]; [|by apply E].
    by apply (Hf x Hx (E e x Hx)).
  - intros n c Hc. eapply call_ok_evolves; [done|by apply (C n)].
  - intros n r Hr. destruct (R n r Hr) as [x Hx]. cbn. rewrite (alter_lookup _ _ _ _ _ Hx). by eexists.
Qed.

(** The queues of an endpoint move on. *)
Lemma set_queues_ok e raw' routing' requests' taken' w :
  world_ok w →
  (∀ x, endpoints w !! e = Some x → let k := taken' ++ requests' ++ option_list routing' ++ raw' in
    sublist k (flow x) ∧ (router_runs x = true → filter is_request_from k = filter is_request_from (flow x))) →
  world_ok (on_endpoint e (set_queues raw' routing' requests' taken') w).
Proof.
  intros Hw Hq. apply on_endpoint_ok; [done|]. intros x Hx [A B C D]. destruct (Hq x Hx) as [Hs Hf]. split; [|done]. split; cbn.
  - by etrans.
  - intros Hr. etrans; [by apply Hf|by apply B].
  - done.
  - done.
Qed.

Lemma on_call_ok n f w :
  world_ok w →
  (∀ c, c_from (f c) = c_from c ∧ c_addr (f c) = c_addr c ∧ c_msg (f c) = c_msg c) →
  (∀ c, calls w !! n = Some c → call_ok w c → call_ok w (f c)) →
  (∀ e x i c, endpoints w !! e = Some x → pending_responses x !! i = Some n → calls w !! n = Some c →
    c_slot c = Empty → ¬ returned c → c_slot (f c) = Empty ∧ ¬ returned (f c)) →
  world_ok (on_call n f w).
Proof.
  intros [N E C R] Hs Hc Hp. pose proof (evolves_call w n f Hs) as Hev. split.
  - intros a t Ht. eapply at_addr_evolves; [done|by apply N].
  - intros e x Hx. destruct (E e x Hx) as [A B P D]. split; [done|done| |].
    + intros i k Hk. destruct (P i k Hk) as (c & Hck & Hf & Hi & Hsl & Hr). eexists. split; [by apply alter_lookup|].
      destruct (decide (k = n)) as [->|]; [|done]. destruct (Hs c) as (Ef & _ & Em). rewrite Ef, Em. split_and!; [done..| |]; by eapply (Hp e x i c).
    + intros from m Hm. eapply sent_evolves; [done|by apply D].
  - intros k c' (c & Hck & ->)%alter_lookup_inv. eapply call_ok_evolves; [done|]. destruct (decide (k = n)) as [->|]; [|by apply (C k)].
    apply Hc; [done|by apply (C n)].
  - done.
Qed.

(** Entries of one endpoint or of two are for different calls. *)
Lemma pending_unique w e1 x1 i1 e2 x2 i2 n :
  world_ok w → endpoints w !! e1 = Some x1 → pending_responses x1 !! i1 = Some n →
  endpoints w !! e2 = Some x2 → pending_responses x2 !! i2 = Some n → e1 = e2 ∧ i1 = i2.
Proof.
  intros [_ E _ _] H1 Hi1 H2 Hi2. destruct (eo_pending _ _ _ (E _ _ H1) _ _ Hi1) as (c1 & Hc1 & <- & <- & _).
  destruct (eo_pending _ _ _ (E _ _ H2) _ _ Hi2) as (c2 & Hc2 & <- & <- & _). rewrite Hc1 in Hc2. by injection Hc2 as <-.
Qed.

(** An entry goes: what is left is for other calls. *)
Lemma delete_pending_ok w e x i n g :
  world_ok w → endpoints w !! e = Some x → pending_responses x !! i = Some n →
  (∀ x, pending_responses (g x) = pending_responses x ∧ local_addr (g x) = local_addr x ∧ log (g x) = log x) →
  (endpoint_ok w e (g x)) →
  let w' := on_endpoint e (λ x, set_pending (delete i (pending_responses x)) (g x)) w in
  world_ok w' ∧ ∀ e' x' i', endpoints w' !! e' = Some x' → pending_responses x' !! i' ≠ Some n.
Proof.
  intros Hw Hx Hn Hg Hgx w'. split.
  - apply on_endpoint_ok; [done|]. intros y Hy _. rewrite Hx in Hy. injection Hy as <-. destruct (Hg x) as (Ep & Ea & El).
    destruct Hgx as [A B C D]. split; [|by cbn; rewrite El]. split; [done|done| |done]. cbn. intros j k [_ Hk]%lookup_delete_Some.
    apply C. by rewrite Ep.
  - intros e' x' i' (y & Hy & ->)%alter_lookup_inv Hi'. destruct (decide (e' = e)) as [->|Hne].
    + rewrite Hx in Hy. injection Hy as <-. cbn in Hi'. apply lookup_delete_Some in Hi' as [Hne Hi'].
      destruct (pending_unique w e x i e x i' n Hw Hx Hn Hx Hi') as [_ ?]. done.
    + by destruct (pending_unique w e x i e' y i' n Hw Hx Hn Hy Hi') as [? _].
Qed.

Lemma remove_pending_ok e i w : world_ok w → world_ok (remove_pending e i w).
Proof.
  intros Hw. unfold remove_pending. destruct (endpoints w !! e) as [x|] eqn:Hx; [|done]. destruct (pending_responses x !! i) as [n|] eqn:Hn; [|done].
  destruct (delete_pending_ok w e x i n (λ x, x) Hw Hx Hn) as [Hw' Hno]; [done|by apply wo_endpoints|].
  assert (on_endpoint e (set_pending (delete i (pending_responses x))) w = on_endpoint e (λ x, set_pending (delete i (pending_responses x)) x) w) as ->.
  { unfold on_endpoint. f_equal. apply list_alter_ext; [|done]. intros y Hy. by rewrite Hx in Hy; injection Hy as <-. }
  apply on_call_ok; [done|done| |].
  - intros c _ (y & Hy & Hm). exists y. split; [done|]. cbn. intros m [?|?]; [done|]. apply Hm. by right.
  - intros e' x' i' c He' Hi'. by destruct (Hno _ _ _ He' Hi').
Qed.
Lemma remove_pending_calls e i w n c :
  calls (remove_pending e i w) !! n = Some c → ∃ c', calls w !! n = Some c' ∧ c_stage c = c_stage c' ∧ c_from c = c_from c' ∧ c_msg c = c_msg c'.
Proof.
  unfold remove_pending. destruct (endpoints w !! e) as [x|]; [|by eauto]. destruct (pending_responses x !! i); [|by eauto].
  intros (c' & Hc & ->)%alter_lookup_inv. exists c'. split; [done|]. by case_decide.
Qed.
Lemma remove_pending_gone e i w x : endpoints (remove_pending e i w) !! e = Some x → pending_responses x !! i = None.
Proof.
  unfold remove_pending. destruct (endpoints w !! e) as [y|] eqn:Hy; [|by rewrite Hy]. destruct (pending_responses y !! i) as [k|] eqn:Hk.
  - cbn. intros (z & Hz & ->)%alter_lookup_inv. rewrite decide_True by done. cbn. apply lookup_delete_eq.
  - rewrite Hy. by intros [= <-].
Qed.
Lemma remove_pending_other e i w n :
  (∀ x, endpoints w !! e = Some x → pending_responses x !! i ≠ Some n) → calls (remove_pending e i w) !! n = calls w !! n.
Proof.
  unfold remove_pending. intros Hn. destruct (endpoints w !! e) as [x|]; [|done]. specialize (Hn x eq_refl).
  destruct (pending_responses x !! i) as [k|]; [|done]. apply list_lookup_alter_ne. congruence.
Qed.
Lemma remove_pending_endpoint e i w x :
  endpoints w !! e = Some x → ∃ x', endpoints (remove_pending e i w) !! e = Some x'.
Proof.
  intros Hx. unfold remove_pending. rewrite Hx. destruct (pending_responses x !! i); [|by exists x]. cbn. eexists. by apply alter_lookup.
Qed.

(** *** Every step preserves it *)
Section steps.
Context (show_addr : SocketAddr → string).
Implicit Types w : World.

Lemma InMemoryTransport_new_ok addr w : world_ok w → ∀ w', InMemoryTransport_new addr w = Some w' → world_ok w'.
Proof.
  intros [N E C R] w'. unfold InMemoryTransport_new. case_bool_decide; [|done]. intros [= <-]. set (x0 := mkEndpoint _ _ _ _ _ _ _ _ _).
  assert (evolves w (mkWorld (<[addr := length (endpoints w)]> (network w)) None (endpoints w ++ [x0]) (calls w) (replies w))) as Hev.
  { split_and!; cbn; [|intros ? ? ?; by eexists..]. intros e x Hx. exists x. split; [by apply lookup_app_l_Some|done]. }
  split; cbn.
  - intros a t. rewrite lookup_insert_Some. intros [[<- <-]|[_ Ht]]; [|eapply at_addr_evolves; [done|by apply N]].
    exists x0. split; [|done]. cbn. by apply list_lookup_middle.
  - intros e x. rewrite lookup_app_Some, list_lookup_singleton_Some. intros [Hx|(_ & _ & <-)].
    + apply (endpoint_ok_evolves w); [done..|by apply E].
    + split; cbn; [constructor|done| |]; [intros i n; by rewrite lookup_empty|by intros ? ? ?%elem_of_nil].
  - intros n c Hc. eapply call_ok_evolves; [done|by apply (C n)].
  - intros n r Hr. destruct (R n r Hr) as [x Hx]. exists x. by apply lookup_app_l_Some.
Qed.

(** A stage that does not end the call well. *)
Lemma set_stage_ok n g w :
  world_ok w →
  (∀ c m, calls w !! n = Some c → g = Returned (Ok m) → c_slot c = Filled m) →
  ((∀ e x i, endpoints w !! e = Some x → pending_responses x !! i ≠ Some n) ∨ ∀ r, g ≠ Returned r) →
  world_ok (on_call n (set_stage g) w).
Proof.
  intros Hw Hm Hr. apply on_call_ok; [done|done| |].
  - intros c Hc (x & Hx & H). exists x. split; [done|]. cbn. intros m [?|E]; [apply H; by left|]. apply H. left. by apply Hm.
  - intros e x i c Hx Hi Hc Hs _. split; [done|]. intros [r E]. destruct Hr as [Hr|Hr]; [by apply (Hr e x i)|by apply (Hr r)].
Qed.

(** What a send delivers was sent. *)
Lemma deliver_ok who from addr msg w w' o :
  world_ok w → sent w from addr msg → deliver show_addr who from addr msg w = Some (w', o) →
  world_ok w' ∧ calls w' = calls w ∧ replies w' = replies w.
Proof.
  intros Hw Hs. unfold deliver. case_bool_decide; [|done].
  destruct (network w !! addr) as [t|] eqn:Ht; cbn; [|intros [= <- <-]; by split; [apply set_lock_ok|]].
  destruct (wo_network w Hw _ _ Ht) as (x & Hx & Ha). rewrite Hx. cbn.
  destruct (router_runs x) eqn:Er; cbn; [|intros [= <- <-]; by split; [apply set_lock_ok|]].
  case_match; [|intros [= <- <-]; by split; [apply set_lock_ok|]]. intros [= <- <-]. split; [|done].
  apply set_lock_ok, on_endpoint_ok; [done|]. intros y Hy [A B C D]. rewrite Hx in Hy. injection Hy as <-.
  assert (flow (push_raw (from, msg) x) = flow x ++ [(from, msg)]) as Ef by (unfold flow; cbn; by rewrite !app_assoc).
  split_and!; [split|done|cbn; intros z Hz; apply elem_of_app; by left]; cbn [log push_raw pending_responses local_addr]; try rewrite Ef.
  - by apply sublist_app.
  - intros Hr. rewrite !filter_app. f_equal. by apply B.
  - done.
  - intros f m [Hm|[= -> ->]%list_elem_of_singleton]%elem_of_app; [by apply D|]. by rewrite Ha.
Qed.

Lemma add_call_ok e addr msg w x :
  world_ok w → endpoints w !! e = Some x →
  world_ok (mkWorld (network w) (lock w) (endpoints w) (calls w ++ [mkCall e addr msg Empty Sending]) (replies w)).
Proof.
  intros [N E C R] Hx. set (w' := mkWorld _ _ _ _ _).
  assert (evolves w w') as Hev.
  { split_and!; cbn; [intros ? y Hy; by exists y| |intros ? ? ?; by eexists]. intros n c Hc. exists c. split; [by apply lookup_app_l_Some|done]. }
  split; [done| | |done].
  - intros j y Hy. destruct (E j y Hy) as [A B P D]. split; [done|done| |intros from m Hm; eapply sent_evolves; [done|by apply D]].
    intros i n Hn. destruct (P i n Hn) as (c & Hc & ?). exists c. split; [by apply lookup_app_l_Some|done].
  - intros n c. cbn. rewrite lookup_app_Some, list_lookup_singleton_Some. intros [Hc|(_ & _ & <-)].
    + eapply call_ok_evolves; [done|by apply (C n)].
    + exists x. split; [done|]. by intros m [?|?].
Qed.

Lemma begin_request_ok e addr msg w w' : world_ok w → begin_request e addr msg w = Some w' → world_ok w'.
Proof.
  intros Hw. unfold begin_request, transport. destruct (endpoints w !! e) as [x|] eqn:Hx; [|done]. destruct (dropped x); [done|]. intros [= <-].
  set (w1 := mkWorld _ _ _ _ _). assert (world_ok w1) as Hw1 by by eapply add_call_ok.
  apply on_endpoint_ok; [by apply remove_pending_ok|]. intros y Hy [A B C D]. split; [|done]. split; [done|done| |done].
  intros i n. cbn. rewrite lookup_insert_Some. intros [[<- <-]|[_ Hn]]; [|by apply C].
  eexists. split; [rewrite remove_pending_other; [cbn; by apply list_lookup_middle|]|].
  - intros z Hz Hn. destruct (eo_pending _ _ _ (wo_endpoints w Hw e z Hz) _ _ Hn) as (c & Hc & _). apply lookup_lt_Some in Hc. lia.
  - split_and!; try done. by intros [r Hr].
Qed.

Lemma send_message_ok n w w' : world_ok w → send_message show_addr n w = Some w' → world_ok w'.
Proof.
  intros Hw. unfold send_message. destruct (calls w !! n) as [c|] eqn:Hc; [|done]. destruct (c_stage c) eqn:Hg; try done.
  destruct (endpoints w !! c_from c) as [x|] eqn:Hx; [|done]. destruct (deliver _ _ _ _ _ w) as [[w1 o]|] eqn:Hd; [|done].
  assert (world_ok w1) as Hw1.
  { eapply deliver_ok; [done| |done]. left. exists n, c. split_and!; [done|by exists x|done..]. }
  destruct o as [[| |]|]; intros [= <-]; try done; apply set_stage_ok; try done; by right.
Qed.

Lemma await_response_ok n expired w w' : world_ok w → await_response n expired w = Some w' → world_ok w'.
Proof.
  intros Hw. unfold await_response. destruct (calls w !! n) as [c|] eqn:Hc; [|done].
  destruct (c_stage c) eqn:Hg, (c_slot c) as [|m|] eqn:Hs; try done; [destruct expired; [|done]|..]; intros [= <-]; apply set_stage_ok; try done;
    try (by right).
  - intros c' m' Hc' [= <-]. rewrite Hc in Hc'. by injection Hc' as <-.
  - left. intros e x i Hx Hi. destruct (eo_pending _ _ _ (wo_endpoints w Hw e x Hx) _ _ Hi) as (c' & Hc' & _ & _ & He & _).
    rewrite Hc in Hc'. injection Hc' as <-. congruence.
Qed.

Lemma clean_up_ok n w w' : world_ok w → clean_up n w = Some w' → world_ok w'.
Proof.
  intros Hw. unfold clean_up. destruct (calls w !! n) as [c|] eqn:Hc; [|done]. destruct (c_stage c) eqn:Hg; try done. intros [= <-].
  pose proof (remove_pending_ok (c_from c) (m_msg_id (c_msg c)) w Hw) as Hw'. apply set_stage_ok; [done|done|]. left. intros j x i Hx Hi.
  destruct (eo_pending _ _ _ (wo_endpoints _ Hw' j x Hx) _ _ Hi) as (c1 & Hc1 & Hf & Hid & _).
  destruct (remove_pending_calls _ _ _ _ _ Hc1) as (c2 & Hc2 & _ & Ef & Em). rewrite Hc in Hc2. injection Hc2 as <-.
  rewrite Em in Hid. rewrite Ef in Hf. subst j i. by rewrite (remove_pending_gone _ _ _ _ Hx) in Hi.
Qed.

Lemma cancel_ok n w w' : world_ok w → cancel n w = Some w' → world_ok w'.
Proof.
  intros Hw. unfold cancel. destruct (calls w !! n) as [c|]; [|done].
  destruct (c_stage c); try done; intros [= <-]; apply set_lock_ok, set_stage_ok; try done; by right.
Qed.

Lemma router_recv_ok e w w' : world_ok w → router_recv e w = Some w' → world_ok w'.
Proof.
  intros Hw. unfold router_recv. destruct (endpoints w !! e) as [x|] eqn:Hx; [|done].
  destruct (router_runs x), (routing x) eqn:Eg, (raw x) as [|m l] eqn:El; try done. intros [= <-]. apply set_queues_ok; [done|].
  intros y Hy. rewrite Hx in Hy. injection Hy as <-. unfold flow. rewrite Eg, El. cbn. by split.
Qed.

Lemma stop_router_ok e w : world_ok w → world_ok (on_endpoint e stop_router w).
Proof.
  intros Hw. apply on_endpoint_ok; [done|]. intros x Hx [A B C D]. split; [|done]. split; cbn; [|done..].
  etrans; [|exact A]. unfold flow. cbn. rewrite app_nil_r. apply sublist_app; [done|]. by apply sublist_inserts_r.
Qed.

(** The message being routed leaves the router, dropped if it is a response. *)
Lemma unrouted x m k : routing x = Some m → k = taken x ++ requests x ++ raw x →
  sublist k (flow x) ∧ (is_request m.2 = false → filter is_request_from k = filter is_request_from (flow x)).
Proof.
  intros Hm ->. unfold flow. rewrite Hm. cbn. split.
  - apply sublist_app; [done|]. apply sublist_app; [done|]. by constructor.
  - intros Hr. rewrite !filter_app, filter_cons, decide_False; [done|]. unfold is_request_from. by rewrite Hr.
Qed.

Lemma fill_ok n m w e x :
  world_ok w → endpoints w !! e = Some x → (∃ from, (from, m) ∈ log x) → is_request m = false →
  (∀ c, calls w !! n = Some c → c_from c = e ∧ m_msg_id (c_msg c) = m_msg_id m) →
  (∀ e x i, endpoints w !! e = Some x → pending_responses x !! i ≠ Some n) → world_ok (on_call n (fill m) w).
Proof.
  intros Hw Hx Hl Hr Hc Hno. apply on_call_ok; [done|intros c; unfold fill; by destruct (c_stage c)| |].
  - intros c Hn (y & Hy & H). destruct (Hc c Hn) as [<- Ei]. rewrite Hx in Hy. injection Hy as <-.
    assert (call_ok w (set_slot (Filled m) c)) as Hok.
    { exists x. split; [done|]. cbn. intros m' [[= <-]|E]; [done|]. apply H. by right. }
    assert (call_ok w c) as Hc0 by by exists x. unfold fill. clear H. by destruct (c_stage c).
  - intros e' x' i c Hx' Hi. by destruct (Hno _ _ _ Hx' Hi).
Qed.

Lemma router_forward_ok e w w' : world_ok w → router_forward e w = Some w' → world_ok w'.
Proof.
  intros Hw. unfold router_forward. destruct (endpoints w !! e) as [x|] eqn:Hx; [|done].
  destruct (routing x) as [[addr msg]|] eqn:Eg; [|done]. pose proof (wo_endpoints w Hw e x Hx) as [A B C D].
  destruct (if negb (is_request msg) then _ else None) as [n|] eqn:Ep.
  - destruct (is_request msg) eqn:Er; [done|]. cbn in Ep. intros [= <-].
    destruct (unrouted x (addr, msg) _ Eg eq_refl) as [Hs Hf].
    edestruct (delete_pending_ok w e x _ n (λ x, set_queues (raw x) None (requests x) (taken x) x) Hw Hx Ep) as [Hw' Hno]; [done| |].
    { split; cbn; [by etrans|intros Hr; etrans; [by apply Hf|by apply B]|done|done]. }
    eapply (fill_ok n msg _ e); [exact Hw'|cbn; by apply alter_lookup|rewrite decide_True by done; cbn|done| |exact Hno].
    + exists addr. eapply elem_of_submseteq; [|by apply sublist_submseteq]. unfold flow. rewrite Eg. cbn. rewrite !elem_of_app, elem_of_cons. by auto.
    + intros c Hc. destruct (C _ _ Ep) as (c' & Hc' & Hf' & Hi & _). cbn in Hc. rewrite Hc' in Hc. by injection Hc as <-.
  - destruct (dropped x); [intros [= <-]; by apply stop_router_ok|]. destruct (_ <? _)%nat; [|done]. intros [= <-]. apply set_queues_ok; [done|].
    intros y Hy. rewrite Hx in Hy. injection Hy as <-. cbn. unfold flow. rewrite Eg. cbn. rewrite <-(app_assoc (requests x)). by split.
Qed.

Lemma router_end_ok e w w' : world_ok w → router_end e w = Some w' → world_ok w'.
Proof.
  intros Hw. unfold router_end. repeat case_match; intros; simplify_eq. by apply stop_router_ok.
Qed.

Lemma recv_request_ok e w w' r : world_ok w → recv_request e w = Some (w', r) → world_ok w'.
Proof.
  intros Hw. unfold recv_request, transport. destruct (endpoints w !! e) as [x|] eqn:Hx; [|done]. destruct (dropped x); [done|].
  destruct (requests x) as [|m l] eqn:El; [destruct (router_runs x); [done|]; by intros [= <- <-]|]. intros [= <- <-].
  apply set_queues_ok; [done|]. intros y Hy. rewrite Hx in Hy. injection Hy as <-. cbn. unfold flow. rewrite El, <-app_assoc. by split.
Qed.

Lemma evolves_replies w k :
  (∀ n r, replies w !! n = Some r → ∃ r', k !! n = Some r' ∧ r_from r' = r_from r ∧ r_addr r' = r_addr r ∧ r_msg r' = r_msg r) →
  (∀ n r, k !! n = Some r → is_Some (endpoints w !! r_from r)) →
  world_ok w → world_ok (mkWorld (network w) (lock w) (endpoints w) (calls w) k).
Proof.
  intros Hk Hs [N E C R]. split; [done| |done|done]. intros e x Hx. apply (endpoint_ok_evolves w); [|done|by apply E].
  split_and!; cbn; [intros ? y Hy; by exists y|intros ? c Hc; by exists c|done].
Qed.

Lemma begin_response_ok e addr msg w w' : world_ok w → begin_response e addr msg w = Some w' → world_ok w'.
Proof.
  intros Hw. unfold begin_response, transport. destruct (endpoints w !! e) as [x|] eqn:Hx; [|done]. destruct (dropped x); [done|]. intros [= <-].
  apply evolves_replies; [| |done].
  - intros n r Hr. exists r. split; [by apply lookup_app_l_Some|done].
  - intros n r. rewrite lookup_app_Some, list_lookup_singleton_Some. intros [Hr|(_ & _ & <-)]; [by eapply (wo_replies w)|by exists x].
Qed.

Lemma send_response_ok n w w' : world_ok w → send_response show_addr n w = Some w' → world_ok w'.
Proof.
  intros Hw. unfold send_response. destruct (replies w !! n) as [r|] eqn:Hr; [|done]. destruct (r_result r); [done|].
  destruct (endpoints w !! r_from r) as [x|] eqn:Hx; [|done]. destruct (deliver _ _ _ _ _ w) as [[w1 o]|] eqn:Hd; [|done]. intros [= <-].
  edestruct deliver_ok as (Hw1 & _ & _); [exact Hw| |exact Hd|].
  { right. exists n, r. split_and!; [done|by exists x|done..]. }
  apply evolves_replies; [| |done].
  - intros k y Hy. eexists. split; [by apply alter_lookup|]. by case_decide.
  - intros k y (z & Hz & ->)%alter_lookup_inv. pose proof (wo_replies w1 Hw1 k z Hz). by case_decide.
Qed.

Lemma drop_endpoint_ok e w w' : world_ok w → drop_endpoint e w = Some w' → world_ok w'.
Proof.
  intros Hw. unfold drop_endpoint. case_match; [|done]. intros [= <-]. apply on_endpoint_ok; [done|]. intros x _ [A B C D]. by split.
Qed.

Lemma act_ok a w w' : world_ok w → act show_addr a w = Some w' → world_ok w'.
Proof.
  intros Hw. destruct a; cbn [act].
  - by apply InMemoryTransport_new_ok.
  - by apply begin_request_ok.
  - by apply send_message_ok.
  - by apply await_response_ok.
  - by apply clean_up_ok.
  - by apply cancel_ok.
  - by apply router_recv_ok.
  - by apply router_forward_ok.
  - by apply router_end_ok.
  - intros ([w1 r] & E & ->)%fmap_Some. by eapply recv_request_ok.
  - by apply begin_response_ok.
  - by apply send_response_ok.
  - by apply drop_endpoint_ok.
Qed.

Lemma new_world_ok : world_ok new_in_memory_network.
Proof. split; cbn; [intros ? ?; by rewrite lookup_empty|by intros ? ?..]. Qed.

Lemma run_actions_ok l w w' : world_ok w → run_actions show_addr l w = Some w' → world_ok w'.
Proof.
  revert w. induction l as [|a l IH]; cbn; [by intros w Hw [= <-]|]. intros w Hw (w1 & Ha & Hl)%bind_Some. eapply IH; [by eapply act_ok|done].
Qed.

(** C36: However the calls, routers and drops of the in-memory transport interleave: a response [send_request]
    returns is not a request, has the id of the request, and was sent to the caller's address; the
    requests an endpoint has received, with those still queued, are the requests put in its inbox, each
    once and in order, while its router runs, and each was sent to its address by the sender it names; and an entry waits
    for a response only for a call of that endpoint and that id that has not returned. *)
Theorem in_memory_transport l w :
  run_actions show_addr l new_in_memory_network = Some w →
  (∀ n c m, calls w !! n = Some c → c_stage c = Returned (Ok m) →
     is_request m = false ∧ m_msg_id m = m_msg_id (c_msg c) ∧
     ∃ x from, endpoints w !! c_from c = Some x ∧ sent w from (local_addr x) m) ∧
  ∀ e x, endpoints w !! e = Some x →
    sublist (taken x ++ requests x ++ option_list (routing x) ++ raw x) (log x) ∧
    (router_runs x = true →
       filter is_request_from (taken x ++ requests x ++ option_list (routing x) ++ raw x) = filter is_request_from (log x)) ∧
    (∀ from m, (from, m) ∈ log x → sent w from (local_addr x) m) ∧
    ∀ i n, pending_responses x !! i = Some n → ∃ c, calls w !! n = Some c ∧ c_from c = e ∧ m_msg_id (c_msg c) = i ∧ ¬ returned c.
Proof.
  intros Hl. pose proof (run_actions_ok l _ w new_world_ok Hl) as [N E C R]. split.
  - intros n c m Hc Hm. destruct (C n c Hc) as (x & Hx & H). destruct (H m (or_intror Hm)) as (Hr & Hi & from & Hf).
    split_and!; [done|done|]. exists x, from. split; [done|]. by apply (eo_log _ _ _ (E _ _ Hx)).
  - intros e x Hx. destruct (E e x Hx) as [A B P D]. split_and!; [done|done|done|]. intros i n Hn.
    destruct (P i n Hn) as (c & ? & ? & ? & _ & ?). by exists c.
Qed.
End steps.

(** ** Concrete runs *)
Definition node_a : SocketAddr := mkAddr (V4 127 0 0 1) 1000.
Definition node_b : SocketAddr := mkAddr (V4 127 0 0 1) 2000.
Definition ping : Message := Message_new 7 (replicate 32 1) (replicate 32 1) (mkPow 0 0) PingRequest.
Definition pong : Message := response ping (replicate 32 2) (replicate 32 2) (mkPow 0 0) (PingResponse None).
Definition no_text (_ : SocketAddr) : string := "".

(** A request and its response. *)
Definition round_trip : list Action :=
  [ActNew node_a; ActNew node_b; ActRequest 0 node_b ping; ActSend 0; ActRouterRecv 1; ActRouterForward 1; ActRecvRequest 1;
   ActResponse 1 node_a pong; ActSendResponse 0; ActRouterRecv 0; ActRouterForward 0; ActAwait 0 false].
Lemma in_memory_transport_witness :
  ∃ w c, run_actions no_text round_trip new_in_memory_network = Some w ∧ calls w !! 0%nat = Some c ∧ c_stage c = Returned (Ok pong) ∧
    ∃ x from, endpoints w !! c_from c = Some x ∧ sent w from (local_addr x) pong.
Proof.
  destruct (run_actions no_text round_trip new_in_memory_network) as [w|] eqn:E; [|exfalso; vm_compute in E; discriminate E].
  destruct (in_memory_transport no_text round_trip w E) as [Hc _].
  assert (calls w !! 0%nat = Some (mkCall 0 node_b ping (Filled pong) (Returned (Ok pong)))) as H0.
  { vm_compute in E. injection E as <-. reflexivity. }
  eexists w, _. split; [reflexivity|]. split; [exact H0|]. split; [reflexivity|]. exact (proj2 (proj2 (Hc _ _ pong H0 eq_refl))).
Defined.

(** The cleanup covers the error paths only: a call whose future is dropped leaves its entry behind. *)
Lemma cancelled_request_leaks :
  ∃ w x, run_actions no_text [ActNew node_a; ActNew node_b; ActRequest 0 node_b ping; ActSend 0; ActCancel 0] new_in_memory_network = Some w ∧
    forallb finished (calls w) = true ∧ endpoints w !! 0%nat = Some x ∧ pending_responses x !! 7 = Some 0%nat.
Proof. eexists _, _. vm_compute. by split_and!. Qed.

(** A sender blocked on a full inbox keeps the lock, so that no other message is delivered anywhere. *)
Lemma full_inbox_blocks_all (show_addr : SocketAddr → string) who w w' o t x from addr msg other from' addr' msg' :
  network w !! addr = Some t → endpoints w !! t = Some x → router_runs x = true → (CHANNEL_CAPACITY ≤ length (raw x))%nat →
  deliver show_addr who from addr msg w = Some (w', o) → other ≠ who → deliver show_addr other from' addr' msg' w' = None.
Proof.
  intros Hn Hx Hr Hf. unfold deliver at 1. case_bool_decide; [|done]. rewrite Hn. cbn -[Nat.ltb]. rewrite Hx. cbn -[Nat.ltb]. rewrite Hr. cbn -[Nat.ltb].
  destruct (Nat.ltb_spec (length (raw x)) CHANNEL_CAPACITY); [lia|]. intros E Ho. injection E as <- <-. unfold deliver. cbn -[Nat.ltb].
  rewrite bool_decide_false; [done|]. intros [|]; congruence.
Qed.
