(* ===== verification/Startup.v ===== *)
(** * Starting a node ([NodeBuilder] and [spawn_node] of [src/node.rs])

    The identity of a node, loaded or generated; the routing table restored from the saved
    peers; the state the actor starts with; the bootstrap addresses; the calls of the progress
    callback.  Opening the data
    directory and the database, binding the transport and resolving names are arguments. *)
From S2P Require Import Prelude.
From S2P Require Import Errors.
From S2P Require Import Bytes.
From S2P Require Import External.
From S2P Require Import Identity.
From S2P Require Import Net.
From S2P Require Import Samples.
From S2P Require Import Bucket.
From S2P Require Import Table.
From S2P Require Import TableBounds.
From S2P Require Import Erasure.
From S2P Require Import Chunks.
From S2P Require Import Metadata.
From S2P Require Import RateLimit.
From S2P Require Import Message.
From S2P Require Import Actor.
From S2P Require Import Context.
From S2P Require Import Maintenance.

Inductive BootstrapSource : Type :=
  | Addrs (addrs : list SocketAddr)
  | Dns (domain : string).

(** The steps that [spawn] announces to a callback before it takes them. *)
Inductive SpawnProgress : Type :=
  | LoadingIdentity
  | GeneratingPow
  | BindingTransport (addr : SocketAddr)
  | SpawningNode
  | ResolvingBootstrap (domain : string)
  | ConnectingBootstrap (count : nat)
  | StartingMdns.

(** [nb_progress_fn]: a callback is set; its calls are a result of [spawn]. *)
Record NodeBuilder := mkBuilder {
  nb_bind_addr : option SocketAddr;
  nb_data_dir : path;
  nb_pow_difficulty : Z;
  nb_max_storage : Z;
  nb_erasure_config : ErasureConfig;
  nb_config : NodeConfig;
  nb_keypair : option (Keypair * PowProof);
  nb_bootstrap_sources : list BootstrapSource;
  nb_mdns : bool;
  nb_progress_fn : bool;
}.

Definition NodeBuilder_new (data_dir : path) : NodeBuilder :=
  mkBuilder None data_dir 16 1073741824 ErasureConfig_default NodeConfig_default None [] true false.

(** The setters. *)
Definition builder_bind (addr : SocketAddr) (b : NodeBuilder) : NodeBuilder :=
  mkBuilder (Some addr) (nb_data_dir b) (nb_pow_difficulty b) (nb_max_storage b) (nb_erasure_config b) (nb_config b) (nb_keypair b) (nb_bootstrap_sources b) (nb_mdns b) (nb_progress_fn b).
Definition builder_pow_difficulty (d : Z) (b : NodeBuilder) : NodeBuilder :=
  mkBuilder (nb_bind_addr b) (nb_data_dir b) d (nb_max_storage b) (nb_erasure_config b) (nb_config b) (nb_keypair b) (nb_bootstrap_sources b) (nb_mdns b) (nb_progress_fn b).
Definition builder_max_storage (bytes : Z) (b : NodeBuilder) : NodeBuilder :=
  mkBuilder (nb_bind_addr b) (nb_data_dir b) (nb_pow_difficulty b) bytes (nb_erasure_config b) (nb_config b) (nb_keypair b) (nb_bootstrap_sources b) (nb_mdns b) (nb_progress_fn b).
Definition builder_erasure_config (config : ErasureConfig) (b : NodeBuilder) : NodeBuilder :=
  mkBuilder (nb_bind_addr b) (nb_data_dir b) (nb_pow_difficulty b) (nb_max_storage b) config (nb_config b) (nb_keypair b) (nb_bootstrap_sources b) (nb_mdns b) (nb_progress_fn b).
Definition builder_config (config : NodeConfig) (b : NodeBuilder) : NodeBuilder :=
  mkBuilder (nb_bind_addr b) (nb_data_dir b) (nb_pow_difficulty b) (nb_max_storage b) (nb_erasure_config b) config (nb_keypair b) (nb_bootstrap_sources b) (nb_mdns b) (nb_progress_fn b).
Definition builder_keypair (kp : Keypair * PowProof) (b : NodeBuilder) : NodeBuilder :=
  mkBuilder (nb_bind_addr b) (nb_data_dir b) (nb_pow_difficulty b) (nb_max_storage b) (nb_erasure_config b) (nb_config b) (Some kp) (nb_bootstrap_sources b) (nb_mdns b) (nb_progress_fn b).
Definition builder_bootstrap (source : BootstrapSource) (b : NodeBuilder) : NodeBuilder :=
  mkBuilder (nb_bind_addr b) (nb_data_dir b) (nb_pow_difficulty b) (nb_max_storage b) (nb_erasure_config b) (nb_config b) (nb_keypair b) (nb_bootstrap_sources b ++ [source]) (nb_mdns b) (nb_progress_fn b).
Definition builder_mdns (enabled : bool) (b : NodeBuilder) : NodeBuilder :=
  mkBuilder (nb_bind_addr b) (nb_data_dir b) (nb_pow_difficulty b) (nb_max_storage b) (nb_erasure_config b) (nb_config b) (nb_keypair b) (nb_bootstrap_sources b) enabled (nb_progress_fn b).
Definition on_spawn_progress (b : NodeBuilder) : NodeBuilder :=
  mkBuilder (nb_bind_addr b) (nb_data_dir b) (nb_pow_difficulty b) (nb_max_storage b) (nb_erasure_config b) (nb_config b) (nb_keypair b) (nb_bootstrap_sources b) (nb_mdns b) true.
Definition set_client_mode_config (enabled : bool) (c : NodeConfig) : NodeConfig :=
  mkNodeConfig (cfg_k c) (cfg_alpha c) (cfg_max_failures c) (cfg_max_relay_hops c) (cfg_max_relay_payload c)
    (cfg_relay_rate_per_second c) (cfg_relay_rate_burst c) (cfg_provider_ttl c) (cfg_rt_save_interval c)
    (cfg_provider_republish_interval c) (cfg_min_pow_difficulty c) (cfg_command_channel_size c) (cfg_bucket_refresh_interval c)
    (cfg_max_chunks_per_peer c) (cfg_write_rate_per_second c) (cfg_write_rate_burst c) (cfg_max_concurrent_handlers c)
    enabled (cfg_erasure_config c) (cfg_proactive_replication c) (cfg_replication_concurrency c).
Definition builder_client_mode (enabled : bool) (b : NodeBuilder) : NodeBuilder :=
  builder_config (set_client_mode_config enabled (nb_config b)) b.

(** ** Identity *)
Section identity.
Context `{Sha256} `{Ed25519}.

(** The given one, the saved one, or a new one, which is saved; [secret] is the generated key.
    [None]: the proof-of-work search has not ended within the fuel. *)
Definition node_identity (fuel : nat) (load save : option string) (secret : list Z) (b : NodeBuilder) (m : MetadataStore)
    : option (MetadataStore * res (Keypair * PowProof)) :=
  match nb_keypair b with
  | Some kp => Some (m, Ok kp)
  | None =>
    match load_identity load m with
    | Panic => Some (m, Panic)
    | Ok (Some (sk, n, d)) => Some (m, Ok (from_secret_bytes sk, mkPow n d))
    | _ =>
      let kp := from_secret_bytes secret in
      match pow_generate fuel (public_key_bytes kp) (nb_pow_difficulty b) with
      | None => None
      | Some pow => Some ((save_identity save m (secret_bytes kp) (nonce pow) (difficulty pow)).1, Ok (kp, pow))
      end
    end
  end.
End identity.

(** ** The node's first state *)
Section spawn_node.
Context `{Sha256} `{Ed25519} `{Json (list SocketAddr)}.

(** The saved peers, one [insert] each; [clock] gives the successive instants. *)
Fixpoint restore_peers (clock : nat → Z) (i : nat) (peers : list NodeInfoSerde) (rt : RoutingTable) : res RoutingTable :=
  match peers with
  | [] => Ok rt
  | peer :: peers =>
    let info := NodeInfo_new (clock i) (from_bytes (ns_node_id peer)) (ns_public_key peer) (ns_addresses peer) in
    '(rt, _) ← table_insert (clock (S i)) info rt;
    restore_peers clock (S (S i)) peers rt
  end.

Definition spawn_node (load : option string) (clock : nat → Z) (kp : Keypair) (metadata : MetadataStore)
    (chunks : ChunkStore) (config : NodeConfig) : res NodeState :=
  let rt := RoutingTable_new (clock 0%nat) (keypair_node_id kp) (cfg_k config) in
  rt ← match load_peers load metadata with Ok peers => restore_peers clock 1 peers rt | _ => Ok rt end;
  Ok (mkNode rt metadata chunks (RateLimiter_new (cfg_relay_rate_per_second config) (cfg_relay_rate_burst config))
        (RateLimiter_new (cfg_write_rate_per_second config) (cfg_write_rate_burst config)) ∅ None).

(** The addresses of all bootstrap sources; a domain that cannot be resolved is skipped. *)
Fixpoint bootstrap_addrs (resolve : string → res (list SocketAddr)) (sources : list BootstrapSource) : list SocketAddr :=
  match sources with
  | [] => []
  | Addrs addrs :: sources => addrs ++ bootstrap_addrs resolve sources
  | Dns domain :: sources =>
    match resolve domain with Ok addrs => addrs | _ => [] end ++ bootstrap_addrs resolve sources
  end.

(** What the surroundings answer while a node starts. *)
Record StartEnv := mkStart {
  se_dir : option string;
  se_metadata : res MetadataStore;
  se_fs : Faults;
  se_disk : gmap path (list Z);
  se_load : option string;
  se_save : option string;
  se_peers : option string;
  se_secret : list Z;
  se_bind : SocketAddr → res SocketAddr;
  se_clock : nat → Z;
  se_resolve : string → res (list SocketAddr);
  se_bootstrap : list SocketAddr → res ();
}.
Definition any_addr : SocketAddr := mkAddr (V6 (replicate 16 0)) 0.

(** A result with the calls of the callback before it. *)
Definition announced A := (list SpawnProgress * res A)%type.
#[export] Instance announced_bind : MBind announced := λ A B f m,
  match m with
  | (l, Ok a) => let '(l', r) := f a in (l ++ l', r)
  | (l, Err e) => (l, Err e)
  | (l, Panic) => (l, Panic)
  end.
Definition silent {A} (r : res A) : announced A := ([], r).
Definition progress (b : NodeBuilder) (step : SpawnProgress) : announced () :=
  (if nb_progress_fn b then [step] else [], Ok ()).

(** A new identity is generated. *)
Definition generates (load : option string) (b : NodeBuilder) (m : MetadataStore) : bool :=
  match nb_keypair b with
  | Some _ => false
  | None => match load_identity load m with Ok (Some _) | Panic => false | _ => true end
  end.
(** The domains are announced as they are resolved. *)
Fixpoint resolving (b : NodeBuilder) (sources : list BootstrapSource) : announced () :=
  match sources with
  | [] => silent (Ok ())
  | Addrs _ :: sources => resolving b sources
  | Dns domain :: sources => _ ← progress b (ResolvingBootstrap domain); resolving b sources
  end.

(** The builder's configuration with its difficulty and erasure code. *)
Definition spawn_config (b : NodeBuilder) : NodeConfig :=
  let c := nb_config b in
  mkNodeConfig (cfg_k c) (cfg_alpha c) (cfg_max_failures c) (cfg_max_relay_hops c) (cfg_max_relay_payload c)
    (cfg_relay_rate_per_second c) (cfg_relay_rate_burst c) (cfg_provider_ttl c) (cfg_rt_save_interval c)
    (cfg_provider_republish_interval c) (nb_pow_difficulty b) (cfg_command_channel_size c) (cfg_bucket_refresh_interval c)
    (cfg_max_chunks_per_peer c) (cfg_write_rate_per_second c) (cfg_write_rate_burst c) (cfg_max_concurrent_handlers c)
    (cfg_client_mode c) (nb_erasure_config b) (cfg_proactive_replication c) (cfg_replication_concurrency c).

(** [NodeBuilder::spawn] up to the discovery task: the calls of the callback, and the context, the
    state and the bootstrap addresses. *)
Definition spawn (fuel : nat) (env : StartEnv) (b : NodeBuilder)
    : option (announced (HandlerContext * NodeState * list SocketAddr)) :=
  match se_dir env with
  | Some e => Some (silent (Err (Io e)))
  | None =>
    match se_metadata env with
    | Err e => Some (silent (Err e))
    | Panic => Some (silent Panic)
    | Ok metadata =>
      match ChunkStore_new (se_fs env) (nb_data_dir b ++ ["chunks"]) (nb_max_storage b) (se_disk env) with
      | Err e => Some (silent (Err e))
      | Panic => Some (silent Panic)
      | Ok chunks =>
        let new := generates (se_load env) b metadata in
        match node_identity fuel (se_load env) (se_save env) (se_secret env) b metadata with
        | None => None
        | Some (metadata, identity) => Some (
            _ ← progress b LoadingIdentity;
            _ ← (if new then progress b GeneratingPow else silent (Ok ()));
            '(kp, pow) ← silent identity;
            let bind_addr := default any_addr (nb_bind_addr b) in
            _ ← progress b (BindingTransport bind_addr);
            local_addr ← silent (se_bind env bind_addr);
            _ ← progress b SpawningNode;
            state ← silent (spawn_node (se_peers env) (se_clock env) kp metadata chunks (spawn_config b));
            _ ← resolving b (nb_bootstrap_sources b);
            let all_addrs := bootstrap_addrs (se_resolve env) (nb_bootstrap_sources b) in
            _ ← (if bool_decide (all_addrs = []) then silent (Ok ())
                 else _ ← progress b (ConnectingBootstrap (length all_addrs)); silent (se_bootstrap env all_addrs));
            _ ← (if nb_mdns b then progress b StartingMdns else silent (Ok ()));
            silent (Ok (mkContext kp pow (keypair_node_id kp) local_addr (spawn_config b), state, all_addrs)))
        end
      end
    end
  end.
End spawn_node.

(** ** Restoring a table *)
(** The saved peers of one bucket. *)
Definition in_bucket (rt : RoutingTable) (i : nat) (l : list NodeInfoSerde) : list NodeInfoSerde :=
  filter (λ p, bucket_index rt (from_bytes (ns_node_id p)) = i) l.

Lemma in_bucket_app rt i l k : in_bucket rt i (l ++ k) = in_bucket rt i l ++ in_bucket rt i k.
Proof. apply filter_app. Qed.

(** The table holds the peers of [done], each bucket in the order they were given. *)
Record restored (rt0 rt : RoutingTable) (done : list NodeInfoSerde) : Prop := {
  re_wf : table_wf rt;
  re_local : local_id rt = local_id rt0;
  re_k : rt_k rt = rt_k rt0;
  re_nodes : ∀ i, (i < 256)%nat → to_serde <$> bucket_nodes rt i = in_bucket rt0 i done;
  re_fresh : Forall (λ n, ni_fail_count n = 0) (all_nodes rt);
}.

Lemma bucket_index_local rt rt' id : local_id rt = local_id rt' → bucket_index rt id = bucket_index rt' id.
Proof. unfold bucket_index. by intros ->. Qed.

Lemma to_serde_ids l : as_bytes <$> ids l = ns_node_id <$> (to_serde <$> l).
Proof. unfold ids. rewrite <-!list_fmap_compose. by apply list_fmap_ext. Qed.

Lemma NoDup_serde l : NoDup (ids l) ↔ NoDup (ns_node_id <$> (to_serde <$> l)).
Proof.
  rewrite <-to_serde_ids. split; [|apply NoDup_fmap_1]. apply NoDup_fmap_2. intros [x] [y] E. simpl in E. by subst.
Qed.

(** One more peer fits, if its bucket has room and it is new. *)
Lemma restore_insert rt0 rt done peer now now' :
  restored rt0 rt done → id_ok (from_bytes (ns_node_id peer)) → from_bytes (ns_node_id peer) ≠ local_id rt0 →
  ns_node_id peer ∉ ns_node_id <$> done →
  let i := bucket_index rt0 (from_bytes (ns_node_id peer)) in
  (length (in_bucket rt0 i done) < rt_k rt0)%nat →
  ∃ rt', table_insert now' (NodeInfo_new now (from_bytes (ns_node_id peer)) (ns_public_key peer) (ns_addresses peer)) rt = Ok (rt', Inserted) ∧
    restored rt0 rt' (done ++ [peer]).
Proof.
  intros [Hw Hl Hk Hn Hf] Hid Hne Hnew i Hroom. set (node := NodeInfo_new now _ _ _).
  assert (bucket_index rt (ni_node_id node) = i) as Ei by (by apply bucket_index_local).
  assert (i < 256)%nat as Hi by apply bucket_index_lt.
  destruct (table_bucket_some rt i Hw Hi) as [b Hb]. destruct (wf_each _ Hw _ _ Hb) as [Hbw Hbk].
  assert (to_serde <$> b_nodes b = in_bucket rt0 i done) as Hnodes by (rewrite <-(bucket_nodes_some _ _ _ Hb); by apply Hn).
  set (b' := mkBucket (b_k b) (b_nodes b ++ [node]) (b_replacement_cache b) (b_max_cache_size b) now').
  assert (bucket_insert now' node b = Ok (b', Inserted)) as E.
  { unfold bucket_insert. destruct (update_first _ _ _) as [l|] eqn:Eu.
    - exfalso. apply update_first_Some in Eu as (l1 & x & l2 & El & Hx%has_id_true & _). apply Hnew.
      assert (x ∈ b_nodes b) as Hin by (rewrite El; apply elem_of_app; right; left).
      assert (to_serde x ∈ in_bucket rt0 i done) as Hd by (rewrite <-Hnodes; by apply list_elem_of_fmap_2).
      apply list_elem_of_filter in Hd as [_ Hd]. apply list_elem_of_fmap. exists (to_serde x). split; [|done]. cbn. by rewrite Hx.
    - unfold is_full. rewrite (proj2 (Nat.leb_gt _ _)); [done|]. rewrite Hbk, Hk. rewrite <-Hnodes, length_fmap in Hroom. done. }
  exists (set_bucket rt i b').
  assert (table_insert now' node rt = Ok (set_bucket rt i b', Inserted)) as Et.
  { unfold table_insert. rewrite bool_decide_eq_false_2 by by rewrite Hl. rewrite Ei, Hb, E. done. }
  split; [exact Et|].
  assert (∀ j, bucket_nodes (set_bucket rt i b') j = if decide (i = j) then b_nodes b ++ [node] else bucket_nodes rt j) as Hbn.
  { intros j. unfold bucket_nodes, set_bucket. cbn [buckets]. destruct (decide (i = j)) as [<-|Hij].
    - rewrite list_lookup_insert_eq; [done|]. by eapply lookup_lt_Some.
    - by rewrite list_lookup_insert_ne. }
  assert (table_wf (set_bucket rt i b')) as Hw' by exact (table_insert_wf now' node rt _ Inserted Hw Hid Et).
  split; [exact Hw'|done|done| |].
  - intros j Hj. rewrite Hbn, in_bucket_app. unfold in_bucket at 2. destruct (decide (i = j)) as [<-|Hij].
    + rewrite fmap_app, Hnodes. f_equal. rewrite filter_cons_True by done. cbn. by destruct peer.
    + rewrite filter_cons_False by done. by rewrite app_nil_r, Hn.
  - apply Forall_forall. intros n Hin. rewrite Forall_forall in Hf.
    rewrite all_nodes_range, elem_of_range_nodes in Hin by apply Hw'. destruct Hin as (j & Hj & Hin). rewrite Hbn in Hin.
    assert (n = node ∨ n ∈ bucket_nodes rt j) as [->|Hold].
    { destruct (decide (i = j)) as [<-|]; [|by right]. rewrite (bucket_nodes_some _ _ _ Hb).
      apply elem_of_app in Hin as [?| ->%list_elem_of_singleton]; auto. }
    + done.
    + apply Hf. rewrite all_nodes_range, elem_of_range_nodes by apply Hw. by exists j.
Qed.

(** All of them fit, if each bucket has room for its own. *)
Lemma restore_all rt0 clock i rt done peers :
  restored rt0 rt done →
  Forall (λ p, id_ok (from_bytes (ns_node_id p)) ∧ from_bytes (ns_node_id p) ≠ local_id rt0) peers →
  NoDup (ns_node_id <$> (done ++ peers)) →
  (∀ j, (length (in_bucket rt0 j (done ++ peers)) ≤ rt_k rt0)%nat) →
  ∃ rt', restore_peers clock i peers rt = Ok rt' ∧ restored rt0 rt' (done ++ peers).
Proof.
  revert i rt done. induction peers as [|p peers IH]; intros i rt done Hr Hp Hnd Hk.
  { rewrite app_nil_r. by exists rt. }
  inversion Hp as [|? ? [Hid Hne] Hp']; subst. rewrite fmap_app, fmap_cons in Hnd.
  destruct (restore_insert rt0 rt done p (clock i) (clock (S i)) Hr Hid Hne) as (rt1 & E & Hr1).
  - intros Hin. apply NoDup_app in Hnd as (_ & Hd & _). apply (Hd _ Hin). left.
  - specialize (Hk (bucket_index rt0 (from_bytes (ns_node_id p)))). rewrite in_bucket_app, length_app in Hk.
    unfold in_bucket at 2 in Hk. rewrite filter_cons_True in Hk by done. simpl in Hk. lia.
  - cbn [restore_peers]. rewrite E. cbn [mbind outcome_mbind].
    destruct (IH (S (S i)) rt1 (done ++ [p]) Hr1 Hp') as (rt' & E' & Hr'); rewrite <-?app_assoc in *; cbn [app] in *.
    + by rewrite fmap_app, fmap_cons.
    + done.
    + by exists rt'.
Qed.

Lemma restored_new rt0 now : id_ok (local_id rt0) → (0 < rt_k rt0)%nat → restored rt0 (RoutingTable_new now (local_id rt0) (rt_k rt0)) [].
Proof.
  intros Hid Hk. assert (∀ i, bucket_nodes (RoutingTable_new now (local_id rt0) (rt_k rt0)) i = []) as Hn.
  { intros i. unfold bucket_nodes. cbn [RoutingTable_new buckets].
    destruct (replicate 256 _ !! i) as [b|] eqn:E; [|done]. by apply lookup_replicate in E as [-> _]. }
  split; [by apply RoutingTable_new_wf|done|done|intros i _; by rewrite Hn|]. apply Forall_forall. intros n Hin.
  rewrite all_nodes_range, elem_of_range_nodes in Hin by (cbn [RoutingTable_new buckets]; apply length_replicate).
  destruct Hin as (j & _ & Hj). rewrite Hn in Hj. by apply elem_of_nil in Hj.
Qed.

Lemma elem_of_restored rt0 rt done p : restored rt0 rt done → p ∈ all_nodes_serde rt ↔ p ∈ done.
Proof.
  intros [Hw Hl _ Hn _]. unfold all_nodes_serde. rewrite all_nodes_range by apply Hw. rewrite list_elem_of_fmap. split.
  - intros (n & -> & (i & Hi & Hin)%elem_of_range_nodes). assert (to_serde n ∈ in_bucket rt0 i done) as Hd.
    { rewrite <-Hn by lia. by apply list_elem_of_fmap_2. }
    by apply list_elem_of_filter in Hd as [_ ?].
  - intros Hp. set (i := bucket_index rt0 (from_bytes (ns_node_id p))). assert (i < 256)%nat as Hi by apply bucket_index_lt.
    assert (p ∈ in_bucket rt0 i done) as Hd by by apply list_elem_of_filter. rewrite <-Hn in Hd by done.
    apply list_elem_of_fmap in Hd as (n & -> & Hin). exists n. split; [done|]. apply elem_of_range_nodes. exists i. split; [lia|done].
Qed.

(** The buckets of a well-formed table have room for what it holds. *)
Lemma in_bucket_room rt l j : table_wf rt → l ≡ₚ all_nodes_serde rt → (length (in_bucket rt j l) ≤ rt_k rt)%nat.
Proof.
  intros Hw Hl. assert (in_bucket rt j l ≡ₚ in_bucket rt j (all_nodes_serde rt)) as -> by (unfold in_bucket; by rewrite Hl).
  assert (NoDup (ns_node_id <$> all_nodes_serde rt)) as Hnd.
  { apply NoDup_serde. rewrite all_nodes_range by apply Hw. by apply range_nodes_NoDup. }
  assert (length (in_bucket rt j (all_nodes_serde rt)) ≤ length (bucket_nodes rt j))%nat as Hle.
  { assert (NoDup (in_bucket rt j (all_nodes_serde rt))) as Hnd' by by apply NoDup_filter, (NoDup_fmap_1 ns_node_id).
    rewrite <-(length_fmap to_serde (bucket_nodes rt j)). apply submseteq_length, NoDup_submseteq; [done|].
    intros p [Hj Hp]%list_elem_of_filter. apply list_elem_of_fmap in Hp as (n & -> & Hn). apply list_elem_of_fmap_2.
    apply all_nodes_bucket in Hn; [|done]. cbn in Hj. destruct (ni_node_id n) as [x] eqn:E. cbn in Hj.
    by rewrite Hj in Hn. }
  etrans; [exact Hle|]. unfold bucket_nodes. destruct (buckets rt !! j) as [b|] eqn:Hb; [|simpl; lia].
  destruct (wf_each _ Hw _ _ Hb) as [Hbw Hbk]. rewrite <-Hbk. by apply wf_capacity.
Qed.

(** Whatever was saved, the restored table keeps the invariant of shared tables. *)
Lemma restore_bounded clock i peers rt :
  table_bounded rt → ∃ rt', restore_peers clock i peers rt = Ok rt' ∧ table_bounded rt' ∧ local_id rt' = local_id rt.
Proof.
  revert i rt. induction peers as [|p peers IH]; intros i rt Hb; [by exists rt|]. cbn [restore_peers].
  destruct (table_insert_bounded (clock (S i)) (NodeInfo_new (clock i) (from_bytes (ns_node_id p)) (ns_public_key p) (ns_addresses p)) rt Hb)
    as (rt1 & r & E & Hb1 & Hl & _). rewrite E. cbn [mbind outcome_mbind]. rewrite <-Hl. by apply IH.
Qed.

Section theorems.
Context `{Sha256} `{Ed25519} `{JL : JsonLaws (list SocketAddr) (Forall addr_ok)}.

Lemma spawn_node_state load clock kp metadata chunks config :
  (0 < cfg_k config)%nat →
  ∃ s, spawn_node load clock kp metadata chunks config = Ok s ∧ n_metadata s = metadata ∧ n_chunks s = chunks ∧
    n_peer_chunk_counts s = ∅ ∧ n_external_addr s = None ∧
    ∀ pow local, node_ok (mkContext kp pow (keypair_node_id kp) local config) s.
Proof.
  intros Hk. unfold spawn_node. set (rt0 := RoutingTable_new _ _ _).
  assert (table_bounded rt0) as Hb by by apply RoutingTable_new_bounded.
  assert (∃ rt, match load_peers load metadata with Ok peers => restore_peers clock 1 peers rt0 | _ => Ok rt0 end = Ok rt ∧
    table_bounded rt ∧ local_id rt = local_id rt0) as (rt & -> & Hbr & Hl).
  { destruct (load_peers load metadata); [by apply restore_bounded|by eexists..]. }
  cbn [mbind outcome_mbind]. eexists. split; [done|]. by split_and!.
Qed.


Lemma all_ids_ok rt : table_wf rt →
  Forall (λ p, id_ok (from_bytes (ns_node_id p)) ∧ from_bytes (ns_node_id p) ≠ local_id rt) (all_nodes_serde rt).
Proof.
  intros Hw. apply Forall_forall. intros p (n & -> & Hn)%list_elem_of_fmap.
  rewrite all_nodes_range, elem_of_range_nodes in Hn by apply Hw. destruct Hn as (i & _ & Hn).
  destruct (bucket_nodes_placed _ _ _ Hw Hn) as (Hid & Hne & _). cbn. by destruct (ni_node_id n).
Qed.

(** C17: A node resumes where it stopped.  The identity generated at the first start meets the configured
    proof-of-work difficulty, and every later start on the database gives that identity again,
    whatever new key is at hand.  The peers saved at the stop, from a well-formed table, all return
    to the new one: the same ids, keys and addresses, each with a clean failure count, in a
    well-formed table. *)
Theorem restart_resumes fuel secret b m1 kp pow m rt faults now m' :
  nb_keypair b = None → length secret = 32%nat → u8_ok (nb_pow_difficulty b) → Z.of_nat fuel ≤ u64_max →
  node_identity fuel None None secret b init_tables = Some (m1, Ok (kp, pow)) →
  identity m = identity m1 →
  table_wf rt → local_id rt = keypair_node_id kp → Forall peer_ok (all_nodes_serde rt) →
  save_peers_batch faults now m (all_nodes_serde rt) = (m', Ok ()) →
  verify_with_min_difficulty pow (public_key_bytes kp) (nb_pow_difficulty b) = true ∧
  (∀ fuel' secret', node_identity fuel' None None secret' b m' = Some (m', Ok (kp, pow))) ∧
  ∀ clock chunks config, cfg_k config = rt_k rt →
    ∃ s, spawn_node None clock kp m' chunks config = Ok s ∧ table_wf (n_routing_table s) ∧
      all_nodes_serde (n_routing_table s) ≡ₚ all_nodes_serde rt ∧
      Forall (λ n, ni_fail_count n = 0) (all_nodes (n_routing_table s)).
Proof.
  intros Hb Hsec Hd Hfuel Hid Em Hw Hl Hok Hsave. unfold node_identity in Hid. rewrite Hb in Hid.
  cbn [load_identity init_tables db mbind outcome_mbind identity] in Hid.
  destruct (pow_generate fuel _ _) as [pow'|] eqn:Epow; [|done]. injection Hid as <- <- <-.
  unfold pow_generate in Epow. apply pow_search_spec in Epow as (Hdp & Hn & Hv & _).
  assert (NoDup (ns_node_id <$> all_nodes_serde rt)) as Hnd.
  { apply NoDup_serde. rewrite all_nodes_range by apply Hw. by apply range_nodes_NoDup. }
  destruct (save_peers_batch_spec faults now m _ m' (Ok ()) Hnd Hok Hsave) as (Ei & _ & Hload & _).
  destruct (Hload eq_refl) as (l & El & Hp). clear Hload. split_and!.
  - unfold verify_with_min_difficulty. unfold pow_verify in Hv. rewrite Hv, Hdp. rewrite andb_true_r. apply Z.leb_refl.
  - intros fuel' secret'. unfold node_identity. rewrite Hb. unfold load_identity. rewrite Ei, Em. cbn.
    unfold blob_to_array. rewrite bool_decide_eq_true_2 by done. rewrite as_i64_u64 by (unfold u64_max in *; lia).
    unfold as_u8, u8_ok in *. rewrite Z.mod_small by (rewrite Hdp; lia). by destruct pow'.
  - intros clock chunks config Hk. unfold spawn_node. rewrite El.
    pose proof (restored_new rt (clock 0%nat) (wf_local _ Hw) (wf_rt_k _ Hw)) as Hr0. rewrite Hl, <-Hk in Hr0.
    destruct (restore_all rt clock 1 _ [] l Hr0) as (rt' & E & Hr').
    + rewrite Hp. by apply all_ids_ok.
    + cbn [app]. by rewrite Hp.
    + intros j. cbn [app]. by apply in_bucket_room.
    + rewrite E. cbn [mbind outcome_mbind]. eexists. split; [done|]. cbn [n_routing_table app] in *. split; [apply Hr'|]. split; [|apply Hr'].
      apply NoDup_Permutation.
      * apply (NoDup_fmap_1 ns_node_id), NoDup_serde. rewrite all_nodes_range by apply Hr'. apply range_nodes_NoDup, Hr'.
      * by apply (NoDup_fmap_1 ns_node_id).
      * intros p. rewrite (elem_of_restored _ _ _ _ Hr'). by rewrite Hp.
Qed.
(** C19: An identity that cannot be read is replaced.  When the saved identity is read, the node takes it and
    leaves the database as it is.  When there is none, or reading it fails, the node generates one from a new
    key, and saves it over whatever the database held; when that fails too, the node runs with an
    identity that the database does not hold. *)
Theorem node_identity_faults fuel load save secret b m m' kp pow :
  nb_keypair b = None → u8_ok (nb_pow_difficulty b) → Z.of_nat fuel ≤ u64_max → length secret = 32%nat →
  node_identity fuel load save secret b m = Some (m', Ok (kp, pow)) →
  match load_identity load m with
  | Ok (Some (sk, n, d)) => m' = m ∧ kp = from_secret_bytes sk ∧ pow = mkPow n d
  | Panic => False
  | _ =>
    kp = from_secret_bytes secret ∧ verify_with_min_difficulty pow (public_key_bytes kp) (nb_pow_difficulty b) = true ∧
    match save with
    | None => load_identity None m' = Ok (Some (secret, nonce pow, difficulty pow))
    | Some _ => m' = m
    end
  end.
Proof.
  intros Hb Hd Hfuel Hsec. unfold node_identity. rewrite Hb.
  assert (match pow_generate fuel (public_key_bytes (from_secret_bytes secret)) (nb_pow_difficulty b) with
    | None => None
    | Some pow => Some ((save_identity save m (secret_bytes (from_secret_bytes secret)) (nonce pow) (difficulty pow)).1,
        Ok (from_secret_bytes secret, pow)) end = Some (m', Ok (kp, pow)) :> option (MetadataStore * res (Keypair * PowProof)) →
    kp = from_secret_bytes secret ∧ verify_with_min_difficulty pow (public_key_bytes kp) (nb_pow_difficulty b) = true ∧
    match save with
    | None => load_identity None m' = Ok (Some (secret, nonce pow, difficulty pow))
    | Some _ => m' = m
    end) as Hnew.
  { destruct (pow_generate fuel _ _) as [pow'|] eqn:Epow; [|done]. unfold pow_generate in Epow. intros [= <- <- <-].
    apply pow_search_spec in Epow as (Hdp & Hn & Hv & _). split; [done|]. split.
    - unfold verify_with_min_difficulty. unfold pow_verify in Hv. rewrite Hv, Hdp. rewrite andb_true_r. apply Z.leb_refl.
    - destruct save as [e|]; [done|]. cbn. unfold load_identity. cbn. unfold blob_to_array. rewrite bool_decide_eq_true_2 by done.
      rewrite as_i64_u64 by (unfold u64_max in *; lia). unfold as_u8, u8_ok in *. by rewrite Z.mod_small by (rewrite Hdp; lia). }
  destruct (load_identity load m) as [[[[sk n] d]|]|e|]; [|exact Hnew|exact Hnew|done]. by intros [= <- <- <-].
Qed.
End theorems.

(** ** What the callback sees *)
Section announcing.
Context `{Sha256} `{Ed25519} `{Json (list SocketAddr)}.

(** [m] announces [all], or a beginning of it when it fails; [m'] is the same in silence. *)
Definition announces {A} (m m' : announced A) (all : list SpawnProgress) : Prop :=
  (match m.2 with Ok _ => m.1 = all | _ => m.1 `prefix_of` all end) ∧ m' = ([], m.2).

Lemma announces_bind {A B} (m m' : announced A) (f f' : A → announced B) l l' :
  announces m m' l → (∀ a, announces (f a) (f' a) l') → announces (m ≫= f) (m' ≫= f') (l ++ l').
Proof.
  destruct m as [k [a|e|]]; intros [Hm ->] Hf; cbn in *.
  - subst k. destruct (Hf a) as [Ha ->]. destruct (f a) as [k r]. cbn in *. split; [|done].
    destruct r; cbn in *; [by subst|by apply prefix_app..].
  - split; [|done]. by apply prefix_app_r.
  - split; [|done]. by apply prefix_app_r.
Qed.

Lemma announces_silent {A} (r : res A) : announces (silent r) (silent r) [].
Proof. split; [|done]. destruct r; [done|apply prefix_nil..]. Qed.

Lemma announces_both {A} (m m' : announced A) l :
  announces m m' l → Some m' = Some ([], m.2) ∧ match m.2 with Ok _ => m.1 = l | _ => m.1 `prefix_of` l end.
Proof. by intros [Ha ->]. Qed.

Definition without (b : NodeBuilder) : NodeBuilder :=
  mkBuilder (nb_bind_addr b) (nb_data_dir b) (nb_pow_difficulty b) (nb_max_storage b) (nb_erasure_config b) (nb_config b) (nb_keypair b) (nb_bootstrap_sources b) (nb_mdns b) false.

Lemma announces_progress b step : announces (progress (on_spawn_progress b) step) (progress (without b) step) [step].
Proof. by split. Qed.

Lemma announces_if {A} (c : bool) (m1 m1' m2 m2' : announced A) l1 l2 :
  announces m1 m1' l1 → announces m2 m2' l2 → announces (if c then m1 else m2) (if c then m1' else m2') (if c then l1 else l2).
Proof. by destruct c. Qed.

Definition domain_step (s : BootstrapSource) : option SpawnProgress :=
  match s with Dns d => Some (ResolvingBootstrap d) | Addrs _ => None end.
Lemma announces_resolving b sources : announces (resolving (on_spawn_progress b) sources) (resolving (without b) sources) (omap domain_step sources).
Proof.
  induction sources as [|[addrs|d] sources IH]; [apply announces_silent|exact IH|]. cbn [resolving omap list_omap domain_step].
  apply (announces_bind _ _ _ _ [ResolvingBootstrap d]); [apply announces_progress|]. by intros [].
Qed.

(** The steps of a start that succeeds. *)
Definition all_steps (env : StartEnv) (b : NodeBuilder) (m : MetadataStore) : list SpawnProgress :=
  let addrs := bootstrap_addrs (se_resolve env) (nb_bootstrap_sources b) in
  [LoadingIdentity] ++ (if generates (se_load env) b m then [GeneratingPow] else []) ++
  [BindingTransport (default any_addr (nb_bind_addr b))] ++ [SpawningNode] ++ omap domain_step (nb_bootstrap_sources b) ++
  (if bool_decide (addrs = []) then [] else [ConnectingBootstrap (length addrs)]) ++ (if nb_mdns b then [StartingMdns] else []).

Lemma spawn_announced fuel env b x :
  spawn fuel env (on_spawn_progress b) = Some x →
  spawn fuel env (without b) = Some ([], x.2) ∧
  match se_metadata env with
  | Ok m => match x.2 with Ok _ => x.1 = all_steps env b m | _ => x.1 `prefix_of` all_steps env b m end
  | _ => x.1 = []
  end.
Proof.
  unfold spawn. destruct (se_dir env) as [e|].
  { intros [= <-]. split; [done|]. destruct (se_metadata env); [apply prefix_nil|done..]. }
  destruct (se_metadata env) as [m|e|]; [|by intros [= <-]..]. cbn [nb_data_dir nb_max_storage on_spawn_progress without].
  destruct (ChunkStore_new _ _ _ _) as [chunks|e|]; [|intros [= <-]; split; [done|apply prefix_nil]..].
  change (node_identity fuel (se_load env) (se_save env) (se_secret env) (on_spawn_progress b) m)
    with (node_identity fuel (se_load env) (se_save env) (se_secret env) (without b) m).
  destruct (node_identity _ _ _ _ _ _) as [[m1 identity]|]; [|done]. intros <-%(inj Some).
  apply announces_both.
  unfold all_steps. rewrite <-(app_nil_r (if nb_mdns b then [StartingMdns] else [])).
  apply announces_bind; [apply announces_progress|intros []]. apply announces_bind; [apply announces_if; [apply announces_progress|apply announces_silent]|intros []].
  apply (announces_bind _ _ _ _ []); [apply announces_silent|intros [kp pow]]. apply (announces_bind _ _ _ _ [_]); [apply announces_progress|intros []].
  apply (announces_bind _ _ _ _ []); [apply announces_silent|intros addr]. apply (announces_bind _ _ _ _ [_]); [apply announces_progress|intros []].
  apply (announces_bind _ _ _ _ []); [apply announces_silent|intros s]. apply announces_bind; [apply announces_resolving|intros []].
  apply announces_bind; [apply announces_if; [apply announces_silent|]|intros []].
  { apply (announces_bind _ _ _ _ [_] []); [apply announces_progress|intros []; apply announces_silent]. }
  apply announces_bind; [apply announces_if; [apply announces_progress|apply announces_silent]|intros []]. apply announces_silent.
Qed.

(** The callback sees the steps of a start in their fixed order, each before it is taken: all of them when the
    start succeeds (a proof of work is announced exactly when an identity is generated, and each
    domain when it is resolved), and only a beginning of that list when it fails.  The callback
    changes nothing else: without one the result is the same. *)
Theorem spawn_announces fuel env b steps r :
  spawn fuel env (on_spawn_progress b) = Some (steps, r) →
  match se_metadata env with
  | Ok m => match r with Ok _ => steps = all_steps env b m | _ => steps `prefix_of` all_steps env b m end
  | _ => steps = []
  end ∧
  (nb_progress_fn b = false → spawn fuel env b = Some ([], r)).
Proof.
  intros [Hw Hs]%spawn_announced. split; [exact Hs|]. intros Hb. etrans; [|exact Hw].
  f_equal. unfold without. rewrite <-Hb. by destruct b.
Qed.
End announcing.

(** ** A concrete restart *)
Definition sample_builder : NodeBuilder :=
  mkBuilder None ["data"] 0 1000 ErasureConfig_default NodeConfig_default None [] false false.
Definition sample_secret : list Z := replicate 32 5.
Definition first_start : MetadataStore * res (Keypair * PowProof) :=
  match node_identity 1 None None sample_secret sample_builder init_tables with Some x => x | None => (init_tables, Panic) end.
Definition resumed_kp : Keypair := from_secret_bytes sample_secret.
Definition stopped_table : RoutingTable :=
  insert_all [sample_peer (sample_id 1); sample_peer (sample_id 130)] (RoutingTable_new 0 (keypair_node_id resumed_kp) 20).
Definition stopped_store : MetadataStore * res () :=
  save_peers_batch (λ _, None) 7 first_start.1 (all_nodes_serde stopped_table).

Lemma restart_resumes_witness :
  ∃ s, spawn_node None (λ _, 0) resumed_kp stopped_store.1 (sample_store 100) NodeConfig_default = Ok s ∧
    all_nodes_serde (n_routing_table s) ≡ₚ all_nodes_serde stopped_table.
Proof.
  assert (node_identity 1 None None sample_secret sample_builder init_tables = Some (first_start.1, Ok (resumed_kp, mkPow 0 0))) as Hid
    by (vm_compute; reflexivity).
  assert (stopped_store.2 = Ok ()) as Hs by (vm_compute; reflexivity).
  assert (table_wf stopped_table) as Hw.
  { apply insert_all_wf.
    - apply List.Forall_cons; [apply sample_id_ok; unfold u8_ok; lia|].
      apply List.Forall_cons; [apply sample_id_ok; unfold u8_ok; lia|]. apply List.Forall_nil.
    - apply RoutingTable_new_wf; [|lia]. exact (sha256_ok _). }
  assert (all_nodes_serde stopped_table =
    [to_serde (sample_peer (sample_id 130)); to_serde (sample_peer (sample_id 1))]) as El by (vm_compute; reflexivity).
  destruct (restart_resumes 1 sample_secret sample_builder first_start.1 resumed_kp (mkPow 0 0) first_start.1 stopped_table
    (λ _, None) 7 stopped_store.1) as (_ & _ & Hspawn).
  - reflexivity.
  - reflexivity.
  - vm_compute. split; congruence.
  - vm_compute. congruence.
  - exact Hid.
  - reflexivity.
  - exact Hw.
  - reflexivity.
  - rewrite El. repeat constructor; decide_compute.
  - rewrite <-Hs. exact (surjective_pairing stopped_store).
  - destruct (Hspawn (λ _, 0) (sample_store 100) NodeConfig_default eq_refl) as (s & E & _ & Hp & _).
    exists s. split; [exact E|exact Hp].
Defined.


Definition sample_env : StartEnv :=
  mkStart None (Ok init_tables) no_faults ∅ None None None sample_secret (λ a, Ok a) (λ _, 0) (λ _, Err Timeout) (λ _, Ok ()).
Definition dns_builder : NodeBuilder := builder_bootstrap (Dns "example.com") sample_builder.
Lemma spawn_announces_witness :
  ∃ steps r, spawn 1 sample_env (on_spawn_progress dns_builder) = Some (steps, r) ∧ spawn 1 sample_env dns_builder = Some ([], r) ∧
    steps = [LoadingIdentity; GeneratingPow; BindingTransport any_addr; SpawningNode; ResolvingBootstrap "example.com"].
Proof.
  assert (∃ steps x, spawn 1 sample_env (on_spawn_progress dns_builder) = Some (steps, Ok x)) as (steps & x & E)
    by (eexists _, _; vm_compute; reflexivity).
  exists steps, (Ok x). split; [exact E|]. destruct (spawn_announces 1 sample_env dns_builder steps (Ok x) E) as [Hs Hw].
  split; [apply Hw; reflexivity|]. etransitivity; [exact Hs|]. vm_compute. reflexivity.
Defined.

(** A read error where an identity is saved: the node starts with another one, which replaces it. *)
Lemma node_identity_faults_witness :
  ∃ m' kp pow, node_identity 1 (Some "database is locked"%string) None (replicate 32 6) sample_builder first_start.1 = Some (m', Ok (kp, pow)) ∧
    load_identity None first_start.1 = Ok (Some (sample_secret, 0, 0)) ∧ load_identity None m' = Ok (Some (replicate 32 6, 0, 0)).
Proof.
  assert (∃ m' kp, node_identity 1 (Some "database is locked"%string) None (replicate 32 6) sample_builder first_start.1 = Some (m', Ok (kp, mkPow 0 0)))
    as (m' & kp & E) by (eexists _, _; vm_compute; reflexivity).
  exists m', kp, (mkPow 0 0). split; [exact E|]. split; [vm_compute; reflexivity|].
  destruct (node_identity_faults 1 (Some "database is locked"%string) None (replicate 32 6) sample_builder first_start.1 m' kp (mkPow 0 0))
    as (_ & _ & El); [reflexivity|vm_compute; split; congruence|vm_compute; congruence|reflexivity|exact E|exact El].
Defined.
