(* ===== verification/Node.v ===== *)
(** * The node actor ([NodeActor], [Command] and [NodeHandle] of [src/node.rs])

    The commands of the public interface, what the actor does for each, the bodies of the
    tasks the node spawns, and the handle.  A reply channel is named by a number; a body that
    answers a command results in the channel's number and the answer.  A progress channel is named
    by a number too.  [System] runs the actor and its tasks together. *)
From S2P Require Import Prelude.
From S2P Require Import Errors.
From S2P Require Import Bytes.
From S2P Require Import External.
From S2P Require Import Identity.
From S2P Require Import Net.
From S2P Require Import Bucket.
From S2P Require Import Table.
From S2P Require Import Lookup.
From S2P Require Import Erasure.
From S2P Require Import Chunks.
From S2P Require Import Metadata.
From S2P Require Import RateLimit.
From S2P Require Import Message.
From S2P Require Import Actor.
From S2P Require Import Context.
From S2P Require Import Handler.
From S2P Require Import Retrieve.
From S2P Require Import Store.
From S2P Require Import Providers.
From S2P Require Import Maintenance.

Inductive Command : Type :=
  | Bootstrap (addrs : list SocketAddr) (reply : nat)
  | FindNode (target : NodeId) (reply : nat)
  | GetProviders (key : list Z) (reply : nat)
  | StoreTessera (data : list Z) (config : ErasureConfig) (reply : nat)
  | StoreTesseraWithProgress (data : list Z) (config : ErasureConfig) (progress_tx reply : nat)
  | RetrieveTessera (chunk_hashes : list (list Z)) (config : ErasureConfig) (original_len block_size : Z)
      (manifest_hash : option (list Z)) (reply : nat)
  | RetrieveTesseraWithProgress (chunk_hashes : list (list Z)) (config : ErasureConfig) (original_len block_size : Z)
      (manifest_hash : option (list Z)) (progress_tx reply : nat)
  | Shutdown.

(** What a reply channel carries. *)
Inductive Answer : Type :=
  | Bootstrapped (r : res ())
  | Found (r : res (list NodeInfo))
  | Providing (r : res (list NodeInfoSerde))
  | Stored (r : res StoreTesseraResult)
  | Retrieved (r : res (list Z)).
Abbreviation reply := (option (nat * Answer)).

Definition reply_of (c : Command) : option nat :=
  match c with
  | Bootstrap _ i | FindNode _ i | GetProviders _ i | StoreTessera _ _ i | StoreTesseraWithProgress _ _ _ i
  | RetrieveTessera _ _ _ _ _ i | RetrieveTesseraWithProgress _ _ _ _ _ _ i => Some i
  | Shutdown => None
  end.
Definition task_reply (t : Task) : option nat := match t with TaskBootstrap _ i => Some i | _ => None end.
Definition is_retrieve (c : Command) : bool :=
  match c with RetrieveTessera _ _ _ _ _ _ | RetrieveTesseraWithProgress _ _ _ _ _ _ _ => true | _ => false end.

Section node.
Context `{Sha256} `{Ed25519} `{ReedSolomon} `{Hex} `{Json (list SocketAddr)}.
Context `{Serde Payload} `{Serde Message} `{Serde TesseraManifest}.
Context (oc : bool) (ctx : HandlerContext).

Definition handle_command (cmd : Command) : prog reply :=
  match cmd with
  | Bootstrap addrs reply => result ← do_bootstrap ctx addrs; Ret (Some (reply, Bootstrapped result))
  | FindNode target reply => result ← do_iterative_find_node ctx target; Ret (Some (reply, Found (Ok result)))
  | GetProviders key reply => result ← do_get_providers ctx key; Ret (Some (reply, Providing result))
  | StoreTessera data config reply =>
    result ← do_store_tessera oc ctx data config None; Ret (Some (reply, Stored result))
  | StoreTesseraWithProgress data config progress_tx reply =>
    result ← do_store_tessera oc ctx data config (Some progress_tx); Ret (Some (reply, Stored result))
  | RetrieveTessera chunk_hashes config original_len block_size manifest_hash reply =>
    result ← do_retrieve_tessera oc ctx chunk_hashes config original_len block_size manifest_hash None;
    Ret (Some (reply, Retrieved result))
  | RetrieveTesseraWithProgress chunk_hashes config original_len block_size manifest_hash progress_tx reply =>
    result ← do_retrieve_tessera oc ctx chunk_hashes config original_len block_size manifest_hash (Some progress_tx);
    Ret (Some (reply, Retrieved result))
  | Shutdown => Ret None
  end.

(** The body of a spawned task. *)
Definition task_body (t : Task) : prog reply :=
  match t with
  | TaskReplicate new_node => _ ← replicate_chunks_to_node ctx new_node; Ret None
  | TaskInbound from_addr msg => _ ← handle_inbound_message oc ctx from_addr msg; Ret None
  | TaskBootstrap addrs reply => result ← do_bootstrap ctx addrs; Ret (Some (reply, Bootstrapped result))
  | TaskSend addrs msg => _ ← send_task addrs msg; Ret None
  end.

(** The save at the end of [run]. *)
Definition save_on_shutdown : prog () :=
  peers ← get (λ s, all_nodes_serde (n_routing_table s));
  save_routing_table_sync peers.

(** ** The handle *)
Record NodeHandle := mkHandle {
  h_node_id : NodeId;
  h_local_addr : SocketAddr;
  h_erasure_config : ErasureConfig;
}.

(** The command each method sends; [tx] is the fresh reply channel. *)
Definition handle_bootstrap (addrs : list SocketAddr) (tx : nat) : Command := Bootstrap addrs tx.
Definition find_node (target : NodeId) (tx : nat) : Command := FindNode target tx.
Definition handle_get_providers_of (key : list Z) (tx : nat) : Command := GetProviders key tx.
Definition store_with_config (data : list Z) (config : ErasureConfig) (tx : nat) : Command := StoreTessera data config tx.
Definition store (h : NodeHandle) (data : list Z) (tx : nat) : Command := store_with_config data (h_erasure_config h) tx.
Definition store_with_progress (h : NodeHandle) (data : list Z) (progress_tx tx : nat) : Command :=
  StoreTesseraWithProgress data (h_erasure_config h) progress_tx tx.
Definition retrieve_with_config (result : StoreTesseraResult) (config : ErasureConfig) (tx : nat) : Command :=
  RetrieveTessera (sr_chunk_hashes result) config (Z.of_nat (sr_original_len result)) (Z.of_nat (sr_block_size result))
    (sr_manifest_hash result) tx.
Definition retrieve_result (result : StoreTesseraResult) (tx : nat) : Command :=
  retrieve_with_config result (sr_config result) tx.
Definition retrieve_with_progress (result : StoreTesseraResult) (progress_tx tx : nat) : Command :=
  RetrieveTesseraWithProgress (sr_chunk_hashes result) (sr_config result) (Z.of_nat (sr_original_len result))
    (Z.of_nat (sr_block_size result)) (sr_manifest_hash result) progress_tx tx.

(** What the caller gets: the answer on the channel, or that the node stopped. *)
Definition await {A} (kind : Answer → option (res A)) (a : option Answer) : res A :=
  default (Err (Network "node stopped")) (a ≫= kind).
End node.

(** ** Bodies are safe *)
(** Any surroundings; a panic is allowed if [b]. *)
Definition anything (b : bool) : expectations := mkExpect (λ _, True) (λ _, True) (b = true).

Lemma safe_weaken {A} R R' (I I' : NodeState → Prop) G (Q : A → Prop) (p : prog A) :
  (∀ r, of_reply R' r → of_reply R r) → (∀ a, of_ambient R' a → of_ambient R a) → (may_panic R → may_panic R') →
  (∀ s, I s ↔ I' s) → safe_if R I G Q p → safe_if R' I' G Q p.
Proof.
  intros Hr Ha Hp Hi. induction p as [a|C g k IH|a m k IH|l m k IH|a m k IH|t k IH|tx pr k IH|]; cbn [safe_if]; [done| | | | | | |done].
  - intros Hk amb s Hamb Hs%Hi. destruct (Hk amb s (Ha _ Hamb) Hs) as [Hs' Hk']. split; [by apply Hi|by apply IH].
  - intros [HG Hk]. split; [done|]. intros r Hr'. apply IH. auto.
  - intros [HG Hk]. split; [done|]. intros r Hr'. apply IH. auto.
  - intros [HG Hk]. split; [done|]. intros r. apply IH. auto.
  - intros [HG Hk]. split; [done|]. auto.
  - intros [HG Hk]. split; [done|]. auto.
Qed.

Section safety.
Context `{Sha256} `{Ed25519} `{ReedSolomon} `{Hex} `{Json (list SocketAddr)}.
Context `{Serde Payload} `{Serde Message} `{Serde TesseraManifest}.
Context (Hser : ∀ m, ∃ bytes, rmp_to_vec (A := TesseraManifest) m = inr bytes).
Context (oc : bool) (ctx : HandlerContext).
Notation config := (c_config ctx).
Notation inv := (node_ok ctx).
Notation safely b := (safe_if (anything b) inv (sends_outgoing ctx) (λ _, True)).

Lemma safely_any {A} b G (Q : A → Prop) (p : prog A) : safe inv G Q p → safe_if (anything b) inv G Q p.
Proof. apply safe_weaken; [done|done|intros []|done]. Qed.

Lemma safe_ret_bind {A B} R (I : NodeState → Prop) G (p : prog A) (f : A → B) (Q : B → Prop) :
  (∀ x, Q (f x)) → safe_if R I G (λ _, True) p → safe_if R I G Q (x ← p; Ret (f x)).
Proof. intros HQ Hp. apply safe_bind. eapply safe_mono; [done| |exact Hp]. intros x _. apply HQ. Qed.

(** What is known of a retrieval when nothing is known of the bytes in play. *)
Lemma safely_unknown {A} b (Q : A → Prop) (p : prog A) :
  safe_if (in_play (λ _, True)) (node_inv (disk_in (λ _, True)) ctx) (sends_outgoing ctx) Q p →
  safe_if (anything b) inv (sends_outgoing ctx) Q p.
Proof.
  apply safe_weaken; [|  |intros []|].
  - intros [m|e|] _; [|done..]. simpl. by destruct (m_payload m).
  - intros amb _. simpl. by destruct (f_left _).
  - intros s. split; intros []; by split.
Qed.

(** A retrieval may panic, on parameters or a manifest that do not fit the chunks. *)
Lemma retrieve_any_safe hashes c len bs mh tx : safely true (do_retrieve_tessera oc ctx hashes c len bs mh tx).
Proof.
  unfold do_retrieve_tessera. apply safe_bind.
  assert (∀ r : res (list (list Z) * ErasureConfig * Z * Z), safely true (match r with
    | Ok (chunk_hashes, c, original_len, block_size) =>
      deadline ← atomic (λ amb s, (s, am_deadline amb));
      r ← timeout deadline (do_retrieve_tessera_inner oc ctx chunk_hashes c original_len block_size tx);
      Ret (default (Err Timeout) r)
    | Err e => Ret (Err e)
    | Panic => Abort_
    end)) as Hres.
  { intros [[[[hs c'] l'] b']|e|]; [|done..]. apply safe_atomic. intros amb s _ Hs. split; [done|].
    apply safe_ret_bind; [done|]. eapply safe_mono; [done| |apply (safe_timeout _ _ (λ _, True))]; [done|].
    unfold do_retrieve_tessera_inner. apply safe_bind. eapply safe_mono; [done| |apply (fetch_chunks_safe _ _ _ (λ _ _, True))].
    - intros shards _. unfold lift. by destruct (decode_shards _ _ _ _).
    - intros h _. eapply safe_mono; [done| |apply safely_unknown, fetch_shard_safe]. done. }
  destruct mh as [mh|]; [|apply Hres]. destruct hashes as [|h hs]; [|apply Hres]. unfold resolve_manifest. apply safe_bind.
  eapply safe_mono; [done| |apply safely_unknown, fetch_manifest_safe]. intros [m|] _; [|apply Hres].
  unfold lift. destruct (read_manifest oc m); [apply Hres|apply Hres|done].
Qed.

(** A store never panics, whatever its data and configuration: the encoder runs in a task of its own. *)
Lemma store_any_safe data c tx b : safely b (do_store_tessera oc ctx data c tx).
Proof.
  unfold do_store_tessera, best_addr. apply safe_bind, safe_get. intros s _. cbn [safe_if].
  destruct (num_blocks_ok (length data)) as [nb ->]. apply safe_bind.
  eapply safe_mono; [done| |apply (store_blocks_safe oc ctx (λ _, True) (λ _, True)); [done|constructor|]].
  - intros [[hs hdl]|e|] (Hp & _ & Hr); [|done|done]. destruct (Hr hs hdl eq_refl) as [Hh _]. unfold finish_store. apply safe_bind.
    eapply safe_mono; [done| |apply (safe_join_all _ _ (λ _, True)); intros h Hin; apply run_distribution_safe].
    2:{ rewrite Forall_forall in Hh. by apply Hh. }
    intros results _. apply safe_bind. eapply safe_mono; [done| |apply settle_all_safe]. intros _ _. apply safe_bind.
    destruct (Hser (manifest_of hs c (length data) DEFAULT_BLOCK_SIZE)) as [bytes Hb].
    eapply safe_mono; [done| |apply (store_manifest_safe oc ctx (λ _, True) (λ _, True) (λ _ _ _ _ _ _ _, I) _ _ bytes Hb I)].
    by intros [h|e|] [[Hm _] _].
  - intros i e _ _. apply Forall_forall. done.
Qed.

Lemma get_providers_any_safe key b : safely b (do_get_providers ctx key).
Proof.
  apply safe_atomic. intros amb s _ Hs. split; [done|]. apply safe_get. intros s1 _. apply safe_ret_bind; [done|].
  eapply safe_mono; [done| |apply provider_rounds_safe]; done.
Qed.

(** ** The bodies of the node *)
(** Tasks spawn only tasks of a lower level. *)
Definition level (t : Task) : nat :=
  match t with TaskSend _ _ => 0 | TaskReplicate _ | TaskBootstrap _ _ => 1 | TaskInbound _ _ => 2 end.
(** What a task was given to send is a message of the node. *)
Definition task_ok (t : Task) : Prop := match t with TaskSend _ m => outgoing ctx m | _ => True end.

(** The effects of a body of level [n]: messages of the node, inner messages it has verified,
    signed answers, and tasks of a lower level that owe no answer. *)
Definition allowed (n : nat) (e : effect) : Prop :=
  match e with
  | ESent _ m | ERaced _ m => outgoing ctx m ∨ verify_inner_message ctx m = true ∧ is_relay_request (m_payload m) = false
  | EReplied _ m => outgoing ctx m
  | ESpawned t => (level t < n)%nat ∧ task_reply t = None ∧ task_ok t
  | EReported _ _ => True
  end.

Lemma allowed_mono n n' e : (n ≤ n')%nat → allowed n e → allowed n' e.
Proof. intros Hn. destruct e; simpl; try done. intros (? & ? & ?). split_and!; [lia|done|done]. Qed.

Lemma sends_allowed e : sends_outgoing ctx e → allowed 1 e.
Proof. destruct e as [| | |[]|]; simpl; try done; [by left|by left|]. intros Hm. split_and!; [lia|done|done]. Qed.

Lemma upkeep_allowed e : upkeep ctx e → allowed 1 e.
Proof. intros (addrs & m & -> & Hm & _). simpl. split_and!; [lia|done|done]. Qed.

Lemma bootstrap_body_safe addrs (i : nat) R (Q : reply → Prop) :
  (∀ r, Q (Some (i, Bootstrapped r))) →
  safe_if R inv (allowed 1) Q (result ← do_bootstrap ctx addrs; Ret (Some (i, Bootstrapped result))).
Proof. intros HQ. apply safe_ret_bind; [done|]. eapply safe_mono; [apply sends_allowed| |apply do_bootstrap_safe]. done. Qed.

Lemma inbound_safe from_addr msg :
  0 < cfg_max_chunks_per_peer config → safe inv (allowed 2) (λ _, True) (handle_inbound_message oc ctx from_addr msg).
Proof.
  intros Hm. assert (∀ e, handler_effect ctx msg e → allowed 2 e) as Hw.
  { intros [a m|l m|a m|t|]; simpl; [| |done| |done].
    1-2: (intros [Ho|(? & ? & ? & _ & _ & _ & _ & Hr & Hv)]; [by left|by right]).
    intros (n & -> & _). split_and!; [simpl; lia|done|done]. }
  unfold handle_inbound_message. destruct (accepted ctx msg); [|done]. cbn [negb]. apply safe_bind.
  eapply safe_mono; [apply Hw| |apply update_table_safe]. intros [] _. apply safe_bind.
  eapply safe_mono; [apply Hw| |by apply respond_safe]. intros [p|] _; [|done]. split; [|done]. simpl. by apply outgoing_sign.
Qed.

(** The answer a task owes. *)
Definition task_answers (t : Task) (r : reply) : Prop :=
  match t with TaskBootstrap _ i => ∃ a, r = Some (i, Bootstrapped a) | _ => r = None end.
(** An answer on the command's channel, of the command's kind. *)
Definition command_answers (cmd : Command) (r : reply) : Prop :=
  match cmd with
  | Bootstrap _ i => ∃ a, r = Some (i, Bootstrapped a)
  | FindNode _ i => ∃ a, r = Some (i, Found a)
  | GetProviders _ i => ∃ a, r = Some (i, Providing a)
  | StoreTessera _ _ i | StoreTesseraWithProgress _ _ _ i => ∃ a, r = Some (i, Stored a)
  | RetrieveTessera _ _ _ _ _ i | RetrieveTesseraWithProgress _ _ _ _ _ _ i => ∃ a, r = Some (i, Retrieved a)
  | Shutdown => r = None
  end.

Lemma task_body_safe t :
  0 < cfg_max_chunks_per_peer config → task_ok t → safe inv (allowed (level t)) (task_answers t) (task_body oc ctx t).
Proof.
  intros Hm. destruct t as [n|from_addr msg|addrs i|addrs m]; cbn [task_ok task_body level]; intros Ht.
  - apply safe_ret_bind; [done|]. eapply safe_mono; [|done|apply replicate_chunks_safe].
    intros [| | |t|]; [done..| |done]. intros (key & data & m & -> & _ & _ & Ho & _). simpl. split_and!; [lia|done|done].
  - apply safe_ret_bind; [done|]. by apply inbound_safe.
  - apply bootstrap_body_safe. simpl. eauto.
  - apply safe_ret_bind; [done|]. unfold send_task. apply safe_send_any; [by left|by left|done].
Qed.

(** Serving a command: only a retrieval can panic. *)
Lemma command_safe cmd :
  safe_if (anything (is_retrieve cmd)) inv (allowed 1) (command_answers cmd) (handle_command oc ctx cmd).
Proof.
  destruct cmd as [addrs i|target i|key i|data c i|data c tx i|hs c len bs mh i|hs c len bs mh tx i|]; cbn [handle_command is_retrieve]; [| | | | | | |done].
  - apply bootstrap_body_safe. simpl. eauto.
  - apply safe_ret_bind; [simpl; eauto|]. eapply safe_mono; [apply sends_allowed| |apply do_iterative_find_node_safe]. done.
  - apply safe_ret_bind; [simpl; eauto|]. eapply safe_mono; [apply sends_allowed|done|apply get_providers_any_safe].
  - apply safe_ret_bind; [simpl; eauto|]. eapply safe_mono; [apply sends_allowed|done|apply store_any_safe].
  - apply safe_ret_bind; [simpl; eauto|]. eapply safe_mono; [apply sends_allowed|done|apply store_any_safe].
  - apply safe_ret_bind; [simpl; eauto|]. eapply safe_mono; [apply sends_allowed|done|apply retrieve_any_safe].
  - apply safe_ret_bind; [simpl; eauto|]. eapply safe_mono; [apply sends_allowed|done|apply retrieve_any_safe].
Qed.

Lemma save_sync_safe peers G : safe inv G (λ _, True) (save_routing_table_sync peers).
Proof. intros amb s _ Hs. split; [|done]. by apply (node_ok_same ctx s). Qed.

Lemma save_safe G : safe inv G (λ _, True) save_routing_table.
Proof. apply safe_get. intros s _. apply save_sync_safe. Qed.

Lemma refresh_safe : safe inv (allowed 1) (λ _, True) (do_bucket_refresh ctx).
Proof.
  apply safe_atomic. intros amb s _ Hs. split; [done|]. apply safe_for_each. intros i _. apply safe_atomic. intros amb1 s1 _ Hs1.
  split; [done|]. apply safe_ret_bind; [done|]. eapply safe_mono; [apply sends_allowed| |apply do_iterative_find_node_safe]. done.
Qed.

Lemma limiter_cleanup_safe G : safe inv G (λ _, True) limiter_cleanup_tick.
Proof.
  apply safe_atomic. intros amb s _ Hs. split; [by apply (node_ok_same ctx s)|]. apply safe_atomic. intros amb1 s1 _ Hs1.
  split; [by apply (node_ok_same ctx s1)|]. apply safe_get. intros s2 _ amb3 s3 _ [Ht Hl Hc Hj]. split; [|done]. split; [done|done| |done].
  intros p c. cbn [fst set_counts n_peer_chunk_counts]. rewrite map_lookup_filter_Some. intros [? _]. by eapply Hc.
Qed.
End safety.
