(* ===== verification/System.v ===== *)
(** * The node as a whole ([NodeActor::run] of [src/node.rs])

    The actor and the tasks it and they spawn share the node's state; their bodies proceed one
    action at a time, in any order.  [internal] is a step of the node itself, [external] what
    comes from outside: a received message, a submitted command, an expired interval, the end
    of all handles.  The surroundings (clock, disk, network) answer at each
    action whatever the expectations [R] allow; what is shown here holds for every [R].  The actor serves one thing at a time; meanwhile messages and commands wait. *)
From S2P Require Import Prelude.
From S2P Require Import Errors.
From S2P Require Import Bytes.
From S2P Require Import External.
From S2P Require Import Identity.
From S2P Require Import Net.
From S2P Require Import Samples.
From S2P Require Import Bucket.
From S2P Require Import Table.
From S2P Require Import Lookup.
From S2P Require Import Erasure.
From S2P Require Import Chunks.
From S2P Require Import Metadata.
From S2P Require Import RateLimit.
From S2P Require Import Message.
From S2P Require Import Race.
From S2P Require Import Actor.
From S2P Require Import Context.
From S2P Require Import Handler.
From S2P Require Import Retrieve.
From S2P Require Import Store.
From S2P Require Import Providers.
From S2P Require Import Maintenance.
From S2P Require Import Node.

(** What the actor is doing: waiting in its [select!]; serving a command ([None]: a tick) with a
    body that ends with the new time of the last maintenance and an answer; saving the table on
    the way out; stopped; ended by a panic. *)
Inductive Phase : Type :=
  | Waiting
  | Serving (cmd : option Command) (p : prog (Z * reply))
  | Saving (p : prog ())
  | Stopped
  | Crashed (cmd : option Command).

Record Actor := mkActor { a_phase : Phase; a_last_maintenance_time : Z; a_queue : list Command }.

(** The reply channels: the commands that entered the queue, the answers, the channels that were
    dropped unanswered (their callers learn that the node stopped). *)
Record Replies := mkReplies { accepted_commands : list Command; answered : list (nat * Answer); dropped : list nat }.

Abbreviation pool := (list (Task * prog reply)).
Record system := mkSystem {
  y_state : NodeState;
  y_log : list effect;
  y_tasks : pool;
  y_actor : Actor;
  y_replies : Replies;
}.

Definition answer (r : reply) (c : Replies) : Replies :=
  mkReplies (accepted_commands c) (answered c ++ option_list r) (dropped c).
Definition drop_replies (l : list nat) (c : Replies) : Replies :=
  mkReplies (accepted_commands c) (answered c) (dropped c ++ l).
Definition is_inbound (x : Task * prog reply) : bool := match x.1 with TaskInbound _ _ => true | _ => false end.
(** The permits of the handler semaphore in use. *)
Fixpoint handlers (l : pool) : nat :=
  match l with [] => 0 | x :: l => if is_inbound x then S (handlers l) else handlers l end.

(** The intervals of [run]. *)
Inductive Tick := RtSaveTick | ProviderTick | RefreshTick | LimiterCleanupTick.

Section system.
Context `{Sha256} `{Ed25519} `{ReedSolomon} `{Hex} `{Json (list SocketAddr)}.
Context `{Serde Payload} `{Serde Message} `{Serde TesseraManifest}.
Context (oc : bool) (ctx : HandlerContext) (R : expectations).
Notation config := (c_config ctx).

Fixpoint spawned (log : list effect) : pool :=
  match log with
  | [] => []
  | ESpawned t :: log => (t, task_body oc ctx t) :: spawned log
  | _ :: log => spawned log
  end.

(** The branch for a received message: a handler task if a permit is free. *)
Definition on_received (r : TesseraError + (SocketAddr * Message)) (y : system) : system :=
  match r with
  | inr (from_addr, msg) =>
    if (handlers (y_tasks y) <? cfg_max_concurrent_handlers config)%nat then
      let t := TaskInbound from_addr msg in
      mkSystem (y_state y) (y_log y) (y_tasks y ++ [(t, task_body oc ctx t)]) (y_actor y) (y_replies y)
    else y
  | inl e =>
    if is_channel_closed e then
      mkSystem (y_state y) (y_log y) (y_tasks y)
        (mkActor (Saving save_on_shutdown) (a_last_maintenance_time (y_actor y)) (a_queue (y_actor y))) (y_replies y)
    else y
  end.

(** The branch for a command from the queue, of which [queue] remains. *)
Definition on_command (cmd : Command) (queue : list Command) (y : system) : system :=
  let last := a_last_maintenance_time (y_actor y) in
  match cmd with
  | Shutdown => mkSystem (y_state y) (y_log y) (y_tasks y) (mkActor (Saving save_on_shutdown) last queue) (y_replies y)
  | Bootstrap addrs reply =>
    let t := TaskBootstrap addrs reply in
    mkSystem (y_state y) (y_log y) (y_tasks y ++ [(t, task_body oc ctx t)]) (mkActor Waiting last queue) (y_replies y)
  | _ =>
    let p := r ← handle_command oc ctx cmd; Ret (last, r) in
    mkSystem (y_state y) (y_log y) (y_tasks y) (mkActor (Serving (Some cmd) p) last queue) (y_replies y)
  end.

Definition tick_body (k : Tick) (last : Z) : prog (Z * reply) :=
  match k with
  | RtSaveTick => _ ← save_routing_table; Ret (last, None)
  | ProviderTick => last ← do_provider_maintenance oc ctx last; Ret (last, None)
  | RefreshTick => _ ← do_bucket_refresh ctx; Ret (last, None)
  | LimiterCleanupTick => _ ← limiter_cleanup_tick; Ret (last, None)
  end.

Definition pending (q : list Command) : list nat := omap reply_of q.

Inductive internal : system → system → Prop :=
  | task_acts s lg l1 t p l2 a c s' lg' p' :
    acts R p s s' lg' p' →
    internal (mkSystem s lg (l1 ++ (t, p) :: l2) a c) (mkSystem s' (lg ++ lg') (l1 ++ (t, p') :: spawned lg' ++ l2) a c)
  | task_ends s lg l1 t r l2 a c :
    internal (mkSystem s lg (l1 ++ (t, Ret r) :: l2) a c) (mkSystem s lg (l1 ++ l2) a (answer r c))
  | task_panics s lg l1 t l2 a c :
    internal (mkSystem s lg (l1 ++ (t, Abort_) :: l2) a c)
      (mkSystem s lg (l1 ++ l2) a (drop_replies (option_list (task_reply t)) c))
  | actor_takes s lg l last cmd q c :
    let y := mkSystem s lg l (mkActor Waiting last (cmd :: q)) c in internal y (on_command cmd q y)
  | actor_acts s lg l cmd p last q c s' lg' p' :
    acts R p s s' lg' p' →
    internal (mkSystem s lg l (mkActor (Serving cmd p) last q) c)
      (mkSystem s' (lg ++ lg') (l ++ spawned lg') (mkActor (Serving cmd p') last q) c)
  | actor_served s lg l cmd last' r last q c :
    internal (mkSystem s lg l (mkActor (Serving cmd (Ret (last', r))) last q) c)
      (mkSystem s lg l (mkActor Waiting last' q) (answer r c))
  | actor_crashes s lg l cmd last q c :
    internal (mkSystem s lg l (mkActor (Serving cmd Abort_) last q) c)
      (mkSystem s lg l (mkActor (Crashed cmd) last []) (drop_replies (option_list (cmd ≫= reply_of) ++ pending q) c))
  | actor_saves s lg l p last q c s' lg' p' :
    acts R p s s' lg' p' →
    internal (mkSystem s lg l (mkActor (Saving p) last q) c)
      (mkSystem s' (lg ++ lg') (l ++ spawned lg') (mkActor (Saving p') last q) c)
  | actor_stops s lg l last q c :
    internal (mkSystem s lg l (mkActor (Saving (Ret ())) last q) c)
      (mkSystem s lg l (mkActor Stopped last []) (drop_replies (pending q) c)).

(** Until the actor has stopped, a command enters the queue if there is room; otherwise it waits outside. *)
Definition alive (y : system) : bool :=
  match a_phase (y_actor y) with Stopped | Crashed _ => false | _ => true end.

Inductive external : system → system → Prop :=
  | received r y : a_phase (y_actor y) = Waiting → external y (on_received r y)
  | submitted cmd y :
    alive y = true → (length (a_queue (y_actor y)) < cfg_command_channel_size config)%nat →
    external y (mkSystem (y_state y) (y_log y) (y_tasks y)
      (mkActor (a_phase (y_actor y)) (a_last_maintenance_time (y_actor y)) (a_queue (y_actor y) ++ [cmd]))
      (mkReplies (accepted_commands (y_replies y) ++ [cmd]) (answered (y_replies y)) (dropped (y_replies y))))
  | ticked k s lg l last q c :
    external (mkSystem s lg l (mkActor Waiting last q) c) (mkSystem s lg l (mkActor (Serving None (tick_body k last)) last q) c)
  | handles_dropped s lg l last c :
    external (mkSystem s lg l (mkActor Waiting last []) c) (mkSystem s lg l (mkActor (Saving save_on_shutdown) last []) c).

Definition step (y y' : system) : Prop := internal y y' ∨ external y y'.
(** As [spawn_node] leaves it. *)
Definition start (s : NodeState) (now : Z) : system := mkSystem s [] [] (mkActor Waiting now []) (mkReplies [] [] []).
Definition reachable (s : NodeState) (now : Z) : system → Prop := rtc step (start s now).

(** [is_alive], [command_queue_len], [routing_table_info] and [external_addr] of the handle. *)
Definition is_alive (y : system) : bool := alive y.
Definition command_queue_len (y : system) : nat := length (a_queue (y_actor y)).
Definition routing_table_info (y : system) : nat := table_len (n_routing_table (y_state y)).
Definition external_addr (y : system) : option SocketAddr := n_external_addr (y_state y).
End system.

(** ** The invariant of the whole *)
Lemma acts_safe {A} R (I : NodeState → Prop) G (Q : A → Prop) p s s' log p' :
  acts R p s s' log p' → I s → safe_if R I G Q p → I s' ∧ Forall G log ∧ safe_if R I G Q p'.
Proof.
  destruct p as [a|B f k|a m k|l m k|a m k|t k|tx pr k|]; cbn [acts safe_if]; [done|..|done].
  - intros (amb & Ha & -> & -> & ->) Hs Hp. by destruct (Hp amb s Ha Hs).
  - intros (r & Hr & -> & -> & ->) Hs [HG Hp]. split_and!; [done|by constructor|by apply Hp].
  - intros (r & Hr & -> & -> & ->) Hs [HG Hp]. split_and!; [done|by constructor|by apply Hp].
  - intros (r & -> & -> & ->) Hs [HG Hp]. split_and!; [done|by constructor|by apply Hp].
  - intros (-> & -> & ->) Hs [HG Hp]. split_and!; [done|by constructor|done].
  - intros (-> & -> & ->) Hs [HG Hp]. split_and!; [done|by constructor|done].
Qed.

Lemma acts_mono {A} R R' (p : prog A) s s' log p' :
  (∀ r, of_reply R r → of_reply R' r) → (∀ a, of_ambient R a → of_ambient R' a) → acts R p s s' log p' → acts R' p s s' log p'.
Proof. intros Hr Ha. destruct p; cbn [acts]; naive_solver. Qed.

(** What is safe in any surroundings. *)
Lemma acts_safe_any {A} R R' (I : NodeState → Prop) G (Q : A → Prop) p s s' log p' :
  (∀ r, of_reply R' r) → (∀ a, of_ambient R' a) → acts R p s s' log p' → I s → safe_if R' I G Q p →
  I s' ∧ Forall G log ∧ safe_if R' I G Q p'.
Proof. intros Hr Ha Hp. apply acts_safe. by eapply acts_mono. Qed.

(** Surroundings that can answer. *)
Record answerable (R : expectations) : Prop := {
  an_reply : ∃ r, of_reply R r;
  an_race l : ∃ evs, of_reply R (race_result l evs);
  an_ambient : ∃ amb, of_ambient R amb;
}.
Lemma nothing_answerable : answerable nothing.
Proof. split; [by exists Panic|by exists []|by exists (ambient sample_oracle 0)]. Qed.

(** A body ends, panics or acts. *)
Lemma acts_progress {A} R (p : prog A) s : answerable R → (∃ a, p = Ret a) ∨ p = Abort_ ∨ ∃ s' log p', acts R p s s' log p'.
Proof.
  intros [[r0 Hr] He [amb Ha]].
  destruct p as [a|B f k|a m k|l m k|a m k|t k|tx pr k|]; [by left; exists a|..|by right; left]; right; right; cbn [acts].
  - by exists (f amb s).1, [], (k (f amb s).2), amb.
  - by exists s, [ESent a m], (k r0), r0.
  - destruct (He l) as [evs Hl]. by exists s, [ERaced l m], (k (race_result l evs)), evs.
  - by exists s, [EReplied a m], (k Panic), Panic.
  - by exists s, [ESpawned t], k.
  - by exists s, [EReported tx pr], k.
Qed.

Fixpoint tasks_owe (l : pool) : list nat :=
  match l with [] => [] | (t, _) :: l => option_list (task_reply t) ++ tasks_owe l end.
Definition phase_owes (ph : Phase) : list nat :=
  match ph with Serving (Some cmd) _ => option_list (reply_of cmd) | _ => [] end.
(** The reply channels that are still open. *)
Definition owed (y : system) : list nat :=
  phase_owes (a_phase (y_actor y)) ++ tasks_owe (y_tasks y) ++ pending (a_queue (y_actor y)).

Lemma tasks_owe_app l k : tasks_owe (l ++ k) = tasks_owe l ++ tasks_owe k.
Proof. induction l as [|[t p] l IH]; [done|]. cbn [app tasks_owe]. by rewrite IH, app_assoc. Qed.
Lemma pending_cons c l : pending (c :: l) = option_list (reply_of c) ++ pending l.
Proof. unfold pending. cbn [omap list_omap]. by destruct (reply_of c). Qed.
Lemma pending_app l k : pending (l ++ k) = pending l ++ pending k.
Proof. apply omap_app. Qed.
Lemma handlers_app l k : handlers (l ++ k) = (handlers l + handlers k)%nat.
Proof. induction l as [|x l IH]; [done|]. cbn [app handlers]. rewrite IH. by destruct (is_inbound x). Qed.

Section invariant.
Context `{Sha256} `{Ed25519} `{ReedSolomon} `{Hex} `{Json (list SocketAddr)}.
Context `{Serde Payload} `{Serde Message} `{Serde TesseraManifest}.
Context (Hser : ∀ m, ∃ bytes, rmp_to_vec (A := TesseraManifest) m = inr bytes).
Context (oc : bool) (ctx : HandlerContext) (Hmax : 0 < cfg_max_chunks_per_peer (c_config ctx)) (R : expectations).
Notation config := (c_config ctx).
Notation inv := (node_ok ctx).

Definition crashable (cmd : option Command) : bool := match cmd with Some c => is_retrieve c | None => false end.
Definition serves (cmd : option Command) (r : reply) : Prop :=
  match cmd with Some c => command_answers c r | None => r = None end.

Definition task_inv (known : list Command) (x : Task * prog reply) : Prop :=
  safe inv (allowed ctx (level x.1)) (task_answers x.1) x.2 ∧
  match x.1 with TaskBootstrap addrs i => Bootstrap addrs i ∈ known | _ => True end.
Definition phase_inv (known : list Command) (ph : Phase) : Prop :=
  match ph with
  | Waiting | Stopped => True
  | Serving cmd p =>
    safe_if (anything (crashable cmd)) inv (allowed ctx 1) (λ r, serves cmd r.2) p ∧ ∀ c, cmd = Some c → c ∈ known
  | Saving p => safe inv (allowed ctx 1) (λ _, True) p
  | Crashed cmd => crashable cmd = true
  end.

Record sys_ok (y : system) : Prop := {
  ok_state : node_ok ctx (y_state y);
  ok_log : Forall (allowed ctx 2) (y_log y);
  ok_tasks : Forall (task_inv (accepted_commands (y_replies y))) (y_tasks y);
  ok_phase : phase_inv (accepted_commands (y_replies y)) (a_phase (y_actor y));
  ok_handlers : (handlers (y_tasks y) ≤ cfg_max_concurrent_handlers config)%nat;
  ok_queue : (length (a_queue (y_actor y)) ≤ cfg_command_channel_size config)%nat;
  ok_known : Forall (λ c, c ∈ accepted_commands (y_replies y)) (a_queue (y_actor y));
  ok_account : pending (accepted_commands (y_replies y)) ≡ₚ (answered (y_replies y)).*1 ++ dropped (y_replies y) ++ owed y;
  ok_answers : Forall (λ r, ∃ cmd, cmd ∈ accepted_commands (y_replies y) ∧ command_answers cmd (Some r)) (answered (y_replies y));
  ok_dropped : alive y = true → dropped (y_replies y) = [];
  ok_stopped : alive y = false → a_queue (y_actor y) = [];
}.

(** What a body spawns may run, owes nothing and is no handler. *)
Lemma spawned_ok known n log :
  Forall (allowed ctx n) log → (n ≤ 2)%nat →
  Forall (task_inv known) (spawned oc ctx log) ∧ tasks_owe (spawned oc ctx log) = [] ∧ handlers (spawned oc ctx log) = 0%nat.
Proof.
  intros Hl Hn. induction Hl as [|e log He Hl (IH1 & IH2 & IH3)]; [done|].
  destruct e as [| | |t|]; cbn [spawned]; [by split_and!..| |by split_and!]. destruct He as (Hlv & Hr & Ht). split_and!.
  - constructor; [|done]. split; [by apply task_body_safe|]. by destruct t.
  - cbn [tasks_owe]. by rewrite Hr, IH2.
  - destruct t; cbn [level] in Hlv; [exact IH3|lia|done|exact IH3].
Qed.

Lemma task_inv_mono known c x : task_inv known x → task_inv (known ++ [c]) x.
Proof. intros [Hs Hb]. split; [done|]. destruct x.1; try done. apply elem_of_app. by left. Qed.

(** Counting the reply channels of both sides. *)
Lemma account_intro l k : (∀ i, count_occ Nat.eq_dec l i = count_occ Nat.eq_dec k i) → l ≡ₚ k.
Proof. intros Hc. by apply (Permutation_count_occ Nat.eq_dec). Qed.
Lemma account_elim l k i : l ≡ₚ k → count_occ Nat.eq_dec l i = count_occ Nat.eq_dec k i.
Proof. intros Hp. by apply (Permutation_count_occ Nat.eq_dec). Qed.

Ltac fields := cbn [y_state y_log y_tasks y_actor y_replies a_phase a_last_maintenance_time a_queue
  accepted_commands answered dropped answer drop_replies alive owed phase_owes] in *.
Ltac account A := apply account_intro; let i := fresh in intros i; apply (account_elim _ _ i) in A; revert A; unfold owed; fields;
  rewrite ?tasks_owe_app; cbn [tasks_owe]; rewrite ?tasks_owe_app, ?pending_cons, ?pending_app, ?pending_cons, ?fmap_app, ?count_occ_app; cbn [fmap list_fmap count_occ];
  rewrite ?count_occ_app.

Lemma task_ends_ok s lg l1 t r l2 a c :
  sys_ok (mkSystem s lg (l1 ++ (t, Ret r) :: l2) a c) → sys_ok (mkSystem s lg (l1 ++ l2) a (answer r c)).
Proof.
  intros [St L T P Hh Q K A An D Sp]; fields. apply Forall_app in T as [T1 [[Ht Hb] T2]%Forall_cons]. cbn [safe_if fst snd] in Ht.
  split; fields; try done.
  - by apply Forall_app.
  - rewrite !handlers_app in *. cbn [handlers] in Hh. destruct (is_inbound _); lia.
  - account A. destruct t; cbn [task_answers task_reply option_list] in *; try (subst r; simpl; lia).
    destruct Ht as [x ->]. simpl. lia.
  - apply Forall_app. split; [done|]. destruct t; cbn [task_answers] in Ht; try (by subst r). destruct Ht as [x ->].
    constructor; [|done]. eexists. split; [exact Hb|]. simpl. eauto.
Qed.

Lemma actor_takes_ok s lg l last cmd q c :
  let y := mkSystem s lg l (mkActor Waiting last (cmd :: q)) c in sys_ok y → sys_ok (on_command oc ctx cmd q y).
Proof.
  intros y [St L T P Hh Q K A An D Sp]; subst y; fields. apply Forall_cons in K as [Kc K]. cbn [length] in Q.
  assert (sys_ok (mkSystem s lg l (mkActor (Serving (Some cmd) (r ← handle_command oc ctx cmd; Ret (last, r))) last q) c)) as Hserve.
  { split; fields; try done; [|lia|account A; simpl; lia]. split; [|by intros c' [= <-]]. apply safe_bind.
    eapply safe_mono; [done| |by apply command_safe]. done. }
  destruct cmd as [addrs i| | | | | | |]; try exact Hserve; cbn [on_command]; split; fields; try done.
  - apply Forall_app. split; [done|]. constructor; [|done]. split; [by apply task_body_safe|done].
  - rewrite handlers_app. cbn. lia.
  - lia.
  - account A. simpl. lia.
  - apply safe_get. intros s1 _. apply save_sync_safe.
  - lia.
Qed.

(** The actor acts within its phase. *)
Lemma actor_acts_ok s lg l ph ph' last q c s' lg' :
  sys_ok (mkSystem s lg l (mkActor ph last q) c) → node_ok ctx s' → Forall (allowed ctx 1) lg' →
  phase_inv (accepted_commands c) ph' → phase_owes ph' = phase_owes ph →
  (match ph, ph' with Serving _ _, Serving _ _ | Saving _, Saving _ => True | _, _ => False end) →
  sys_ok (mkSystem s' (lg ++ lg') (l ++ spawned oc ctx lg') (mkActor ph' last q) c).
Proof.
  intros [St L T P Hh Q K A An D Sp] St' HG Hp Ho Hph; fields.
  destruct (spawned_ok (accepted_commands c) _ lg' HG) as (Tn & On & Hn); [lia|]. split; fields; try done.
  - apply Forall_app. split; [done|]. eapply Forall_impl; [exact HG|]. intros e. apply allowed_mono. lia.
  - by apply Forall_app.
  - rewrite handlers_app. lia.
  - account A. rewrite On, Ho. simpl. lia.
  - intros Ha. apply D. by destruct ph, ph'.
  - intros Ha. apply Sp. by destruct ph, ph'.
Qed.

Lemma actor_served_ok s lg l cmd last' r last q c :
  sys_ok (mkSystem s lg l (mkActor (Serving cmd (Ret (last', r))) last q) c) → sys_ok (mkSystem s lg l (mkActor Waiting last' q) (answer r c)).
Proof.
  intros [St L T P Hh Q K A An D Sp]; fields. destruct P as [Hp Hc]. cbn [safe_if snd] in Hp. split; fields; try done.
  - account A. destruct cmd as [cmd|]; cbn [serves] in Hp; [|subst r; simpl; lia].
    destruct cmd; cbn [command_answers reply_of option_list] in *; try (subst r; simpl; lia).
    all: destruct Hp as [x ->]; simpl; lia.
  - apply Forall_app. split; [done|]. destruct r as [r|]; [|done]. constructor; [|done].
    destruct cmd as [cmd|]; cbn [serves] in Hp; [|done]. exists cmd. by split; [apply Hc|].
Qed.

Lemma internal_ok y y' : internal oc ctx R y y' → sys_ok y → sys_ok y'.
Proof.
  destruct 1 as [s lg l1 t p l2 a c s' lg' p' Ha|s lg l1 t r l2 a c|s lg l1 t l2 a c|s lg l last cmd q c|s lg l cmd p last q c s' lg' p' Ha
    |s lg l cmd last' r last q c|s lg l cmd last q c|s lg l p last q c s' lg' p' Ha|s lg l last q c];
    intros Hy; [|by eapply task_ends_ok| |by apply actor_takes_ok| |by eapply actor_served_ok| | |];
    pose proof Hy as [St L T P Hh Q K A An D Sp]; fields.
  - apply Forall_app in T as [T1 [[Ht Hb] T2]%Forall_cons].
    destruct (acts_safe_any R nothing inv _ _ p s s' lg' p' ltac:(done) ltac:(done) Ha St Ht) as (St' & HG & Hp').
    destruct (spawned_ok (accepted_commands c) _ lg' HG) as (Tn & On & Hn); [by destruct t; simpl; lia|].
    split; fields; try done.
    + apply Forall_app. split; [done|]. eapply Forall_impl; [exact HG|]. intros e. apply allowed_mono. by destruct t; simpl; lia.
    + apply Forall_app. split; [done|]. constructor; [by split|]. by apply Forall_app.
    + rewrite !handlers_app in *. cbn [handlers] in *. rewrite handlers_app, Hn. exact Hh.
    + account A. rewrite On. simpl. lia.
  - apply Forall_app in T as [T1 [[Ht Hb] T2]%Forall_cons]. by cbn [safe_if fst snd may_panic nothing] in Ht.
  - destruct P as [Hp Hc].
    destruct (acts_safe_any R (anything (crashable cmd)) inv _ _ p s s' lg' p' ltac:(done) ltac:(done) Ha St Hp) as (St' & HG & Hp').
    by eapply actor_acts_ok.
  - destruct P as [Hp Hc]. cbn [safe_if anything may_panic] in Hp. split; fields; try done.
    + cbn; lia.
    + account A. destruct cmd as [cmd|]; simpl; rewrite ?count_occ_app; simpl; lia.
  - destruct (acts_safe_any R nothing inv _ _ p s s' lg' p' ltac:(done) ltac:(done) Ha St P) as (St' & HG & Hp'). by eapply actor_acts_ok.
  - split; fields; try done; [cbn; lia|]. account A. simpl. lia.
Qed.

Lemma tick_body_safe k last : safe inv (allowed ctx 1) (λ r, r.2 = None) (tick_body oc ctx k last).
Proof.
  destruct k; cbn [tick_body]; (apply safe_ret_bind; [done|]).
  - apply save_safe.
  - eapply safe_mono; [apply upkeep_allowed|done|apply do_provider_maintenance_safe].
  - apply refresh_safe.
  - apply limiter_cleanup_safe.
Qed.

Lemma saving_safe : safe inv (allowed ctx 1) (λ _, True) save_on_shutdown.
Proof. apply safe_get. intros s1 _. apply save_sync_safe. Qed.

Lemma external_ok y y' : external oc ctx y y' → sys_ok y → sys_ok y'.
Proof.
  destruct 1 as [r y Hw|cmd y Hal Hroom|k s lg l last q c|s lg l last c]; intros [St L T P Hh Q K A An D Sp]; fields.
  - destruct y as [s lg l [ph last q] c]. fields. subst ph. destruct r as [e|[from_addr msg]]; cbn [on_received].
    + destruct (is_channel_closed e); split; fields; try done. apply saving_safe.
    + fields. destruct (_ <? _)%nat eqn:E; [|by split; fields]. apply Nat.ltb_lt in E. split; fields; try done.
      * apply Forall_app. split; [done|]. constructor; [|done]. split; [by apply task_body_safe|done].
      * rewrite handlers_app. cbn. lia.
      * account A. simpl. lia.
  - destruct y as [s lg l [ph last q] c]. fields. split; fields; try done.
    + eapply Forall_impl; [exact T|]. intros x. apply task_inv_mono.
    + destruct ph as [|co p|p| |co]; try done. destruct P as [Hp Hc]. split; [done|]. intros c' Hc'. apply elem_of_app. left. by apply Hc.
    + rewrite length_app. simpl. lia.
    + apply Forall_app. split; [|constructor; [|done]; apply elem_of_app; right; left].
      eapply Forall_impl; [exact K|]. intros x Hx. apply elem_of_app. by left.
    + account A. simpl. rewrite ?app_nil_r. lia.
    + eapply Forall_impl; [exact An|]. intros r (c' & Hc' & Hr). exists c'. split; [|done]. apply elem_of_app. by left.
    + intros E. unfold alive in *. fields. by destruct ph.
  - split; fields; try done. split; [|done]. apply (safely_any ctx false), tick_body_safe.
  - split; fields; try done. apply saving_safe.
Qed.

Lemma step_ok y y' : step oc ctx R y y' → sys_ok y → sys_ok y'.
Proof. intros [Hs|Hs]; [by apply internal_ok|by apply external_ok]. Qed.

Lemma start_ok s now : node_ok ctx s → sys_ok (start s now).
Proof. intros Hs. split; fields; try done; cbn; lia. Qed.

Lemma reachable_ok s now y : node_ok ctx s → reachable oc ctx R s now y → sys_ok y.
Proof.
  intros Hs Hr. pose proof (start_ok s now Hs) as Hst. revert Hst. unfold reachable in Hr. induction Hr as [y|y1 y2 y3 H12 H23 IH]; [done|].
  intros Hst. apply IH. by eapply step_ok.
Qed.
End invariant.

(** ** Without new input the node comes to rest *)
Lemma split_middle {A} (l k l1 l2 : list A) x :
  l ++ k = l1 ++ x :: l2 → (∃ m, l = l1 ++ x :: m ∧ l2 = m ++ k) ∨ (∃ m, k = m ++ x :: l2 ∧ l1 = l ++ m).
Proof.
  intros E. apply app_eq_inv in E as [(m & -> & E)|(m & -> & E)]; [|right; by exists m].
  destruct m as [|y m]; cbn [app] in E; [right; exists []; by rewrite <-E, !app_nil_r|].
  injection E as -> ->. left. by exists m.
Qed.

Section rest.
Context `{Sha256} `{Ed25519} `{ReedSolomon} `{Hex} `{Json (list SocketAddr)}.
Context `{Serde Payload} `{Serde Message} `{Serde TesseraManifest}.
Context (Hser : ∀ m, ∃ bytes, rmp_to_vec (A := TesseraManifest) m = inr bytes).
Context (oc : bool) (ctx : HandlerContext) (Hmax : 0 < cfg_max_chunks_per_peer (c_config ctx)) (R : expectations).
Notation inv := (node_ok ctx).
Notation spawned := (spawned oc ctx).
Notation internal := (internal oc ctx R).

(** The steps of the tasks alone, from any state that satisfies the invariant. *)
Inductive pool_step : pool → pool → Prop :=
  | pool_acts l1 t p l2 s s' lg p' :
    inv s → acts R p s s' lg p' → pool_step (l1 ++ (t, p) :: l2) (l1 ++ (t, p') :: spawned lg ++ l2)
  | pool_ends l1 t r l2 : pool_step (l1 ++ (t, Ret r) :: l2) (l1 ++ l2)
  | pool_panics l1 t l2 : pool_step (l1 ++ (t, Abort_) :: l2) (l1 ++ l2).
Definition halts : pool → Prop := Acc (λ l' l, pool_step l l').

Lemma pool_step_app l k m :
  pool_step (l ++ k) m → (∃ l', pool_step l l' ∧ m = l' ++ k) ∨ (∃ k', pool_step k k' ∧ m = l ++ k').
Proof.
  intros Hs. inversion Hs as [l1 t p l2 s s' lg p' Hi Ha E Em|l1 t r l2 E Em|l1 t l2 E Em]; subst m;
    symmetry in E; apply split_middle in E as [(m & -> & ->)|(m & -> & ->)].
  - left. eexists. split; [by eapply pool_acts|]. by rewrite <-!app_assoc, <-app_comm_cons, <-app_assoc.
  - right. eexists. split; [by eapply pool_acts|]. by rewrite <-app_assoc.
  - left. eexists. split; [apply pool_ends|]. by rewrite <-app_assoc.
  - right. eexists. split; [apply pool_ends|]. by rewrite <-app_assoc.
  - left. eexists. split; [apply pool_panics|]. by rewrite <-app_assoc.
  - right. eexists. split; [apply pool_panics|]. by rewrite <-app_assoc.
Qed.

Lemma halts_nil : halts [].
Proof. constructor. intros m Hs. inversion Hs as [l1 t p l2 s s' lg p' Hi Ha E Em|l1 t r l2 E Em|l1 t l2 E Em]; by destruct l1. Qed.

Lemma halts_app l k : halts l → halts k → halts (l ++ k).
Proof.
  intros Hl. revert k. induction Hl as [l _ IHl]; intros k Hk. induction Hk as [k Hk IHk]. constructor.
  intros m [(l' & Hs & ->)|(k' & Hs & ->)]%pool_step_app; [apply IHl; [done|by constructor]|by apply IHk].
Qed.

Lemma pool_step_one t p m :
  pool_step [(t, p)] m → m = [] ∨ ∃ s s' lg p', inv s ∧ acts R p s s' lg p' ∧ m = (t, p') :: spawned lg.
Proof.
  intros Hs. inversion Hs as [l1 t' p1 l2 s s' lg p' Hi Ha E Em|l1 t' r l2 E Em|l1 t' l2 E Em]; subst m;
    (destruct l1 as [|x l1]; [|by destruct l1]); injection E; intros; subst; [right|by left|by left].
  exists s, s', lg, p'. rewrite app_nil_r. by split_and!.
Qed.

(** A body of level [n] ends, and so do all the tasks it brings about. *)
Lemma body_halts n t (Q : reply → Prop) p : safe inv (allowed ctx n) Q p → halts [(t, p)].
Proof.
  revert t Q p. induction n as [n IH] using lt_wf_ind; intros t Q p.
  assert (∀ lg, Forall (allowed ctx n) lg → halts (spawned lg)) as Hsp.
  { intros lg Hlg. induction Hlg as [|e lg He Hlg IHlg]; [apply halts_nil|].
    destruct e as [| | |t'|]; cbn [System.spawned]; [exact IHlg..| |exact IHlg]. destruct He as (Hlv & _ & Ht).
    apply (halts_app [_]); [|exact IHlg]. by eapply IH, task_body_safe. }
  assert (∀ s s' lg p p', inv s → acts R p s s' lg p' → safe inv (allowed ctx n) Q p →
    (∀ p', safe inv (allowed ctx n) Q p' → (∃ s s' lg, acts R p s s' lg p') → halts [(t, p')]) → halts ((t, p') :: spawned lg)) as Hstep.
  { intros s s' lg q q' Hs Ha Hq Hall. destruct (acts_safe_any R nothing inv _ _ q s s' lg q' ltac:(done) ltac:(done) Ha Hs Hq) as (_ & HG & Hq').
    apply (halts_app [_]); [|by apply Hsp]. apply Hall; [done|by eauto]. }
  assert (∀ p, safe inv (allowed ctx n) Q p →
    (∀ p', safe inv (allowed ctx n) Q p' → (∃ s s' lg, acts R p s s' lg p') → halts [(t, p')]) → halts [(t, p)]) as Hone.
  { intros q Hq Hall. constructor. intros m [->|(s & s' & lg & q' & Hs & Ha & ->)]%pool_step_one; [apply halts_nil|]. by eapply Hstep. }
  induction p as [a|C g k IHp|a m k IHp|l m k IHp|a m k IHp|t' k IHp|tx pr k IHp|]; intros Hp; (apply Hone; [exact Hp|]);
    intros p' Hp' (s & s' & lg & Ha); cbn [acts] in Ha; [destruct Ha|..|destruct Ha].
  - destruct Ha as (amb & _ & _ & _ & ->). exact (IHp _ Hp').
  - destruct Ha as (r & _ & _ & _ & ->). exact (IHp _ Hp').
  - destruct Ha as (r & _ & _ & _ & ->). exact (IHp _ Hp').
  - destruct Ha as (r & _ & _ & ->). exact (IHp _ Hp').
  - destruct Ha as (_ & _ & ->). exact (IHp Hp').
  - destruct Ha as (_ & _ & ->). exact (IHp Hp').
Qed.

Lemma tasks_halt known l : Forall (task_inv ctx known) l → halts l.
Proof. induction 1 as [|[t p] l [Hp _] _ IH]; [apply halts_nil|]. apply (halts_app [_]); [by eapply body_halts|done]. Qed.

(** The turns of the actor, whatever the state. *)
Inductive turn : Actor → Actor → Prop :=
  | turn_takes ph last cmd q : turn (mkActor Waiting last (cmd :: q)) (mkActor ph last q)
  | turn_serves cmd p last q s s' lg p' : acts R p s s' lg p' → turn (mkActor (Serving cmd p) last q) (mkActor (Serving cmd p') last q)
  | turn_served cmd r last last' q : turn (mkActor (Serving cmd (Ret r)) last q) (mkActor Waiting last' q)
  | turn_crashes cmd last q : turn (mkActor (Serving cmd Abort_) last q) (mkActor (Crashed cmd) last [])
  | turn_saves p last q s s' lg p' : acts R p s s' lg p' → turn (mkActor (Saving p) last q) (mkActor (Saving p') last q)
  | turn_stops last q : turn (mkActor (Saving (Ret ())) last q) (mkActor Stopped last []).
Definition ends_turns : Actor → Prop := Acc (λ a' a, turn a a').

Lemma over_ends ph last q : match ph with Stopped | Crashed _ => True | _ => False end → ends_turns (mkActor ph last q).
Proof. intros Hph. constructor. intros a' Ht. inversion Ht; subst; done. Qed.

Lemma saving_ends p last q : ends_turns (mkActor (Saving p) last q).
Proof.
  induction p as [a|C g k IH|a m k IH|l m k IH|a m k IH|t k IH|tx pr k IH|]; constructor; intros a' Ht; inversion Ht as [| | | |p l' q' s s' lg p' Ha|]; subst.
  all: try (cbn [acts] in Ha; first [contradiction|destruct Ha as (? & ? & ? & ? & ->); apply IH|destruct Ha as (? & ? & ? & ->); apply IH|destruct Ha as (? & ? & ->); exact IH]).
  by apply over_ends.
Qed.

Lemma serving_ends cmd p last q :
  (∀ last', ends_turns (mkActor Waiting last' q)) → ends_turns (mkActor (Serving cmd p) last q).
Proof.
  intros Hw. induction p as [a|C g k IH|a m k IH|l m k IH|a m k IH|t k IH|tx pr k IH|]; constructor; intros a' Ht;
    inversion Ht as [|c p l' q' s s' lg p' Ha| | | |]; subst.
  all: try (cbn [acts] in Ha; first [contradiction|destruct Ha as (? & ? & ? & ? & ->); apply IH|destruct Ha as (? & ? & ? & ->); apply IH|destruct Ha as (? & ? & ->); exact IH]).
  - apply Hw.
  - by apply over_ends.
Qed.

Lemma all_end q : (∀ last, ends_turns (mkActor Waiting last q)) → ∀ ph last, ends_turns (mkActor ph last q).
Proof.
  intros Hw [] last; [apply Hw|apply serving_ends, Hw|apply saving_ends|by apply over_ends|by apply over_ends].
Qed.

Lemma turns_end a : ends_turns a.
Proof.
  destruct a as [ph last q]. revert ph last.
  induction q as [|cmd q IH]; apply all_end; intros last; constructor; intros a' Ht; inversion Ht; subst. apply IH.
Qed.

Lemma internal_cases y y' :
  internal y y' → inv (y_state y) →
  (pool_step (y_tasks y) (y_tasks y') ∧ y_actor y' = y_actor y) ∨ turn (y_actor y) (y_actor y').
Proof.
  destruct 1 as [s lg l1 t p l2 a c s' lg' p' Ha|s lg l1 t r l2 a c|s lg l1 t l2 a c|s lg l last cmd q c|s lg l cmd p last q c s' lg' p' Ha
    |s lg l cmd last' r last q c|s lg l cmd last q c|s lg l p last q c s' lg' p' Ha|s lg l last q c]; intros Hs; cbn in Hs |- *.
  - left. split; [by eapply pool_acts|done].
  - left. split; [apply pool_ends|done].
  - left. split; [apply pool_panics|done].
  - right. destruct cmd; apply turn_takes.
  - right. by eapply turn_serves.
  - right. apply turn_served.
  - right. apply turn_crashes.
  - right. by eapply turn_saves.
  - right. apply turn_stops.
Qed.

(** Every execution without input ends. *)
Lemma settles y : sys_ok ctx y → Acc (λ y' y, internal y y') y.
Proof.
  assert (∀ a, ends_turns a → ∀ y, y_actor y = a → sys_ok ctx y → Acc (λ y' y, internal y y') y) as Hall; [|intros Hy; by eapply Hall; [apply turns_end| |]].
  intros a Ha. induction Ha as [a _ IHa]. intros y1 E Hy1.
  pose proof (tasks_halt _ _ (ok_tasks _ _ Hy1)) as Ht. remember (y_tasks y1) as l eqn:El. revert y1 E Hy1 El.
  induction Ht as [l _ IHl]. intros y1 E Hy1 El. constructor. intros y2 Hs.
  pose proof (internal_ok Hser oc ctx Hmax R _ _ Hs Hy1) as Hy2.
  destruct (internal_cases _ _ Hs (ok_state _ _ Hy1)) as [[Hp Ea]|Ht].
  - apply (IHl (y_tasks y2)); [by subst|congruence|done|done].
  - apply (IHa (y_actor y2)); [by subst|done|done].
Qed.

(** Nothing is left to do. *)
Definition at_rest (y : system) : Prop :=
  y_tasks y = [] ∧ a_queue (y_actor y) = [] ∧
  match a_phase (y_actor y) with Serving _ _ | Saving _ => False | _ => True end.

(** Unless it is at rest, the node has a step. *)
Lemma progress y : answerable R → sys_ok ctx y → at_rest y ∨ ∃ y', internal y y'.
Proof.
  intros HR Hy. destruct y as [s lg l [ph last q] c]. destruct l as [|[t p] l].
  2:{ right. destruct (acts_progress R p s HR) as [[r ->]|[->|(s' & lg' & p' & Ha)]].
      - eexists. apply (task_ends _ _ _ _ _ []).
      - eexists. apply (task_panics _ _ _ _ _ []).
      - eexists. by apply (task_acts _ _ _ _ _ []). }
  destruct ph as [|cmd p|p| |cmd].
  - destruct q as [|cmd q]; [by left|]. right. eexists. apply actor_takes.
  - right. destruct (acts_progress R p s HR) as [[[l' r] ->]|[->|(s' & lg' & p' & Ha)]]; eexists; [apply actor_served|apply actor_crashes|by apply actor_acts].
  - right. destruct (acts_progress R p s HR) as [[[] ->]|[->|(s' & lg' & p' & Ha)]]; [eexists; apply actor_stops| |eexists; by apply actor_saves].
    exfalso. exact (ok_phase _ _ Hy).
  - left. split_and!; [done|by apply (ok_stopped _ _ Hy)|done].
  - left. split_and!; [done|by apply (ok_stopped _ _ Hy)|done].
Qed.
End rest.

Section theorems.
Context `{Sha256} `{Ed25519} `{ReedSolomon} `{Hex} `{Json (list SocketAddr)}.
Context `{Serde Payload} `{Serde Message} `{Serde TesseraManifest}.

Lemma internal_accepted oc ctx R y y' :
  rtc (internal oc ctx R) y y' → accepted_commands (y_replies y') = accepted_commands (y_replies y).
Proof. induction 1 as [y|y1 y2 y3 Hs _ IH]; [done|]. rewrite IH. destruct Hs; try done. by destruct cmd. Qed.

Lemma internal_many_ok oc ctx R y y' :
  (∀ m, ∃ bytes, rmp_to_vec (A := TesseraManifest) m = inr bytes) → 0 < cfg_max_chunks_per_peer (c_config ctx) →
  rtc (internal oc ctx R) y y' → sys_ok ctx y → sys_ok ctx y'.
Proof. intros Hser Hm. induction 1 as [|y1 y2 y3 Hs _ IH]; [done|]. intros Hy. by eapply IH, internal_ok. Qed.

Lemma comes_to_rest oc ctx R y :
  answerable R → (∀ m, ∃ bytes, rmp_to_vec (A := TesseraManifest) m = inr bytes) → 0 < cfg_max_chunks_per_peer (c_config ctx) →
  sys_ok ctx y → ∃ y', rtc (internal oc ctx R) y y' ∧ at_rest y'.
Proof.
  intros HR Hser Hm Hy. induction (settles Hser oc ctx Hm R y Hy) as [y _ IH].
  destruct (progress oc ctx R y HR Hy) as [Hr|[y1 Hs]]; [by exists y|].
  destruct (IH y1 Hs) as (y' & Hs' & Hr); [by eapply internal_ok|]. exists y'. split; [by eapply rtc_l|done].
Qed.

(** C10: Whatever messages arrive, commands are submitted and intervals expire, in whatever order the
    actor's and the tasks' actions interleave, and whatever the clock, the disk, the database and
    the network answer: a node keeps its invariant; all it sends are messages of its own, inner
    messages it has verified, and signed answers; at most the configured number of handlers
    run and at most the configured number of commands wait; no task panics; and the actor
    panics only while it serves a retrieval. *)
Theorem node_stays_sound oc ctx R s now y :
  (∀ m, ∃ bytes, rmp_to_vec (A := TesseraManifest) m = inr bytes) → 0 < cfg_max_chunks_per_peer (c_config ctx) →
  node_ok ctx s → reachable oc ctx R s now y →
  node_ok ctx (y_state y) ∧ Forall (allowed ctx 2) (y_log y) ∧
  (handlers (y_tasks y) ≤ cfg_max_concurrent_handlers (c_config ctx))%nat ∧
  (command_queue_len y ≤ cfg_command_channel_size (c_config ctx))%nat ∧
  Forall (λ x, x.2 ≠ Abort_) (y_tasks y) ∧
  ∀ cmd, a_phase (y_actor y) = Crashed cmd → ∃ c, cmd = Some c ∧ is_retrieve c = true.
Proof.
  intros Hser Hm Hs Hr. destruct (reachable_ok Hser oc ctx Hm R s now y Hs Hr) as [St L T P Hh Q _ _ _ _ _]. split_and!; try done.
  - eapply Forall_impl; [exact T|]. intros [t p] [Hp _] E. cbn in E, Hp. by subst p.
  - intros cmd E. rewrite E in P. destruct cmd as [c|]; [by exists c|done].
Qed.

End theorems.

(** ** A concrete node *)
Definition asked : system :=
  mkSystem (w_state (sample_world [])) [] [] (mkActor Waiting 0 [FindNode (sample_id 3) 7]) (mkReplies [FindNode (sample_id 3) 7] [] []).
Lemma asked_reachable : reachable true sample_ctx nothing (w_state (sample_world [])) 0 asked.
Proof. apply rtc_once. right. apply (submitted true sample_ctx (FindNode (sample_id 3) 7) (start (w_state (sample_world [])) 0)); [done|]. cbn. lia. Qed.

Lemma node_stays_sound_witness : node_ok sample_ctx (y_state asked) ∧ Forall (allowed sample_ctx 2) (y_log asked).
Proof.
  destruct (node_stays_sound true sample_ctx nothing (w_state (sample_world [])) 0 asked manifests_serialize) as (Ho & Hl & _).
  - reflexivity.
  - apply sample_node_ok.
  - apply asked_reachable.
  - split; assumption.
Defined.

