(* ===== verification/Service.v ===== *)
(** * What running nodes answer

    [Store] and [Retrieve] show what one body ends with.  Here the bodies are served by actors that share their
    nodes' states with all other tasks ([System]), and there are several nodes.  First, what is
    safe for the body of a command is true of the answers of a running node.  Then the nodes are compared with
    an ideal store: one map from the hash of a manifest to the data. *)
From S2P Require Import Prelude.
From S2P Require Import Errors.
From S2P Require Import Bytes.
From S2P Require Import External.
From S2P Require Import Identity.
From S2P Require Import Net.
From S2P Require Import Samples.
From S2P Require Import Bucket.
From S2P Require Import Table.
From S2P Require Import Erasure.
From S2P Require Import Chunks.
From S2P Require Import Metadata.
From S2P Require Import RateLimit.
From S2P Require Import Message.
From S2P Require Import Actor.
From S2P Require Import Context.
From S2P Require Import Handler.
From S2P Require Import Retrieve.
From S2P Require Import Store.
From S2P Require Import Node.
From S2P Require Import System.

(** ** From bodies to answers *)
Section transfer.
Context `{Sha256} `{Ed25519} `{ReedSolomon} `{Hex} `{Json (list SocketAddr)}.
Context `{Serde Payload} `{Serde Message} `{Serde TesseraManifest}.
Context (Hser : ∀ m, ∃ bytes, rmp_to_vec (A := TesseraManifest) m = inr bytes).
Context (oc : bool) (ctx : HandlerContext) (Hmax : 0 < cfg_max_chunks_per_peer (c_config ctx)).
Context (R : expectations) (I : NodeState → Prop).

(** Steps of the node, in surroundings that meet [R], that lead to states satisfying [I]. *)
Definition within (y y' : system) : Prop := step oc ctx R y y' ∧ I (y_state y').

(** For each [x], the commands that [asks x] are answered as [Post x] says, as far as their bodies are concerned. *)
Context {X : Type} (asks : X → Command → Prop) (Post : X → Command → nat * Answer → Prop).
Notation posted x cmd r := (∀ a, r = Some a → Post x cmd a).
Context (Hsafe : ∀ x cmd, asks x cmd → safe_if R I (λ _, True) (λ r, posted x cmd r) (handle_command oc ctx cmd)).
Context (Hboot : ∀ x addrs i, ¬ asks x (Bootstrap addrs i)).

Definition answered_as (known : list Command) (a : nat * Answer) : Prop :=
  ∃ cmd, cmd ∈ known ∧ command_answers cmd (Some a) ∧ ∀ x, asks x cmd → Post x cmd a.
Record serves_ok (y : system) : Prop := {
  so_phase : match a_phase (y_actor y) with
             | Serving (Some cmd) p => ∀ x, asks x cmd → safe_if R I (λ _, True) (λ r, posted x cmd r.2) p
             | _ => True
             end;
  so_answers : Forall (answered_as (accepted_commands (y_replies y))) (answered (y_replies y));
}.

Lemma answered_as_mono known c a : answered_as known a → answered_as (known ++ [c]) a.
Proof. intros (cmd & Hin & Hr). exists cmd. split; [|done]. apply elem_of_app. by left. Qed.

Lemma internal_serves y y' : internal oc ctx R y y' → I (y_state y) → sys_ok ctx y → serves_ok y → serves_ok y'.
Proof.
  destruct 1 as [s lg l1 t p l2 a c s' lg' p' Ha|s lg l1 t r l2 a c|s lg l1 t l2 a c|s lg l last cmd q c|s lg l cmd p last q c s' lg' p' Ha
    |s lg l cmd last' r last q c|s lg l cmd last q c|s lg l p last q c s' lg' p' Ha|s lg l last q c];
    intros HI Hok [Hp Han]; cbn [y_state y_actor y_replies a_phase] in *; try (by split).
  - split; [done|]. cbn [y_replies answered accepted_commands answer]. apply Forall_app. split; [done|].
    pose proof (ok_tasks _ _ Hok) as Ht. cbn [y_tasks] in Ht. apply Forall_app in Ht as [_ [[Ht Hb] _]%Forall_cons]. cbn [safe_if fst snd] in Ht, Hb.
    destruct t; cbn [task_answers] in Ht; try (subst r; constructor). destruct Ht as [x ->]. constructor; [|constructor].
    eexists. split; [exact Hb|]. split; [by exists x|]. intros x' Hx. by apply Hboot in Hx.
  - split; [|by destruct cmd].
    assert (∀ x, asks x cmd → safe_if R I (λ _, True) (λ r, posted x cmd r.2) (r ← handle_command oc ctx cmd; Ret (last, r))) as Hs.
    { intros x Hx. apply safe_bind. eapply safe_mono; [done| |by apply Hsafe]. done. }
    by destruct cmd.
  - split; [|done]. cbn [y_actor a_phase]. destruct cmd as [cmd|]; [|done]. intros x Hx.
    by destruct (acts_safe R I _ _ p s s' lg' p' Ha HI (Hp x Hx)) as (_ & _ & Hp').
  - split; [done|]. cbn [y_replies answered accepted_commands answer]. apply Forall_app. split; [done|].
    destruct r as [r|]; constructor; [|constructor]. destruct (ok_phase _ _ Hok) as [Hs Hk]. cbn [safe_if snd] in Hs.
    destruct cmd as [cmd|]; cbn [System.serves] in Hs; [|done]. exists cmd. split; [by apply Hk|]. split; [done|].
    intros x Hx. by apply (Hp x Hx).
Qed.

Lemma external_serves y y' : external oc ctx y y' → serves_ok y → serves_ok y'.
Proof.
  destruct 1 as [r y Hw|cmd y Hal Hroom|k s lg l last q c|s lg l last c]; intros [Hp Han]; cbn [y_actor y_replies a_phase] in *; [| |by split..].
  - destruct y as [s lg l [ph last q] c]. cbn [y_actor a_phase] in Hw. subst ph. destruct r as [e|[from_addr msg]]; cbn [on_received].
    + by destruct (is_channel_closed e).
    + by destruct (_ <? _)%nat.
  - destruct y as [s lg l [ph last q] c]. split; [exact Hp|]. cbn in *. eapply Forall_impl; [exact Han|]. intros a. apply answered_as_mono.
Qed.

Lemma served_answers s now y :
  node_ok ctx s → I s → rtc within (start s now) y → Forall (answered_as (accepted_commands (y_replies y))) (answered (y_replies y)).
Proof.
  intros Hs Hi Hr. pose proof (start_ok ctx s now Hs) as Hok. assert (serves_ok (start s now)) as Hso by by split.
  change (I (y_state (start s now))) in Hi. revert Hi Hok Hso. induction Hr as [y|y1 y2 y3 [Hst HI] _ IH]; intros Hi Hok Hso; [by destruct Hso|].
  apply IH; [done|by eapply step_ok|]. destruct Hst as [Hst|Hst]; [by eapply internal_serves|by eapply external_serves].
Qed.
End transfer.

(** ** Runs are executions *)
Section embedding.
Context `{Sha256} `{Ed25519} `{ReedSolomon} `{Hex} `{Json (list SocketAddr)}.
Context `{Serde Payload} `{Serde Message} `{Serde TesseraManifest}.
Context (oc : bool) (ctx : HandlerContext) (R : expectations) (I I' : NodeState → Prop) (HI : ∀ s, I' s → I s).
Context (o : Oracle) (Hq : quiet o) (Hm : meets R o).
Notation within := (within oc ctx R I).

(** What [run] does without interference, the actor can do, action by action. *)
Lemma run_served G Q (p : prog (Z * reply)) w r w' lg l cmd last q c :
  safe_if R I' G Q p → I' (w_state w) → run o p w = (Some r, w') →
  I' (w_state w') ∧ ∃ lg' l', rtc within (mkSystem (w_state w) lg l (mkActor (Serving cmd p) last q) c)
    (mkSystem (w_state w') lg' l' (mkActor (Serving cmd (Ret r)) last q) c).
Proof.
  destruct Hm as (Hnet & Hraces & Hamb).
  assert (∀ (p p' : prog (Z * reply)) s w1 e lg l, acts R p s (w_state w1) e p' → I' s → I' (w_state w1) →
    (I' (w_state w') ∧ ∃ lg' l', rtc within (mkSystem (w_state w1) (lg ++ e) (l ++ spawned oc ctx e) (mkActor (Serving cmd p') last q) c)
      (mkSystem (w_state w') lg' l' (mkActor (Serving cmd (Ret r)) last q) c)) →
    I' (w_state w') ∧ ∃ lg' l', rtc within (mkSystem s lg l (mkActor (Serving cmd p) last q) c)
      (mkSystem (w_state w') lg' l' (mkActor (Serving cmd (Ret r)) last q) c)) as Hstep.
  { intros p0 p1 s w1 e lg0 l0 Ha _ Hi (Hi' & lg' & l' & Hr). split; [done|]. exists lg', l'. eapply rtc_l; [|exact Hr]. split; [left; by apply actor_acts|by apply HI]. }
  revert w lg l. induction p as [a|B f k IH|a m k IH|l0 m k IH|a m k IH|t k IH|tx pr k IH|]; intros w lg l Hs Hi E; cbn [run safe_if] in *.
  - injection E as <- <-. split; [done|]. by exists lg, l.
  - rewrite (tick_quiet o) in E by done. rewrite (Hq (w_next w)) in E. destruct (Hs (ambient o (w_next w)) (w_state w) (Hamb _) Hi) as [Hi' Hk].
    eapply (Hstep _ _ _ (after w (f (ambient o (w_next w)) (w_state w)).1 []) []); [by exists (ambient o (w_next w))|done|done|]. by eapply IH.
  - rewrite (tick_quiet o) in E by done. destruct Hs as [_ Hk].
    eapply (Hstep _ _ _ (after w (w_state w) [ESent a m])); [by exists (net o (w_next w) a m)|done|done|]. eapply IH; [by apply Hk|exact Hi|exact E].
  - rewrite (tick_quiet o) in E by done. destruct Hs as [_ Hk].
    eapply (Hstep _ _ _ (after w (w_state w) [ERaced l0 m])); [by exists (races o (w_next w))|done|done|]. eapply IH; [by apply Hk|exact Hi|exact E].
  - rewrite (tick_quiet o) in E by done. destruct Hs as [_ Hk].
    eapply (Hstep _ _ _ (after w (w_state w) [EReplied a m])); [by exists (replies o (w_next w))|done|done|]. eapply IH; [by apply Hk|exact Hi|exact E].
  - rewrite (tick_quiet o) in E by done. destruct Hs as [_ Hk].
    eapply (Hstep _ _ _ (after w (w_state w) [ESpawned t])); [done|done|done|]. eapply IH; [exact Hk|exact Hi|exact E].
  - rewrite (tick_quiet o) in E by done. destruct Hs as [_ Hk].
    eapply (Hstep _ _ _ (after w (w_state w) [EReported tx pr])); [done|done|done|]. eapply IH; [exact Hk|exact Hi|exact E].
  - done.
Qed.

(** A waiting node is told a command, takes it and answers. *)
Lemma command_served G Q cmd s w r w' lg l last known done lost :
  match cmd with Bootstrap _ _ | Shutdown => False | _ => True end → (0 < cfg_command_channel_size (c_config ctx))%nat →
  safe_if R I' G Q (handle_command oc ctx cmd) → I' s → s = w_state w → run o (handle_command oc ctx cmd) w = (Some r, w') →
  ∃ lg' l', rtc within (mkSystem s lg l (mkActor Waiting last []) (mkReplies known done lost))
    (mkSystem (w_state w') lg' l' (mkActor Waiting last []) (mkReplies (known ++ [cmd]) (done ++ option_list r) lost)).
Proof.
  intros Hcmd Hroom Hs Hi -> E.
  set (p := r ← handle_command oc ctx cmd; Ret (last, r)).
  assert (∀ c, on_command oc ctx cmd [] (mkSystem (w_state w) lg l (mkActor Waiting last [cmd]) c) =
    mkSystem (w_state w) lg l (mkActor (Serving (Some cmd) p) last []) c) as Htake by by destruct cmd.
  destruct (run_served G (λ _, True) p w (last, r) w' lg l (Some cmd) last [] (mkReplies (known ++ [cmd]) done lost)) as (Hi' & lg' & l' & Hrun);
    [apply safe_bind; by eapply safe_mono; [| |exact Hs]|done|by unfold p; rewrite run_bind, E|].
  exists lg', l'. eapply rtc_l; [|eapply rtc_l; [|eapply rtc_r; [exact Hrun|]]].
  - split; [right; apply (submitted oc ctx cmd (mkSystem (w_state w) lg l (mkActor Waiting last []) (mkReplies known done lost))); [done|exact Hroom]|by apply HI].
  - split; [left; cbn; rewrite <-Htake; apply actor_takes|by apply HI].
  - split; [left; apply (actor_served oc ctx R _ lg' l' (Some cmd) last r last [] (mkReplies (known ++ [cmd]) done lost))|by apply HI].
Qed.
End embedding.

(** ** The ideal store *)
(** What a command stores. *)
Definition stores (cmd : Command) : option (list Z * ErasureConfig) :=
  match cmd with StoreTessera data c _ | StoreTesseraWithProgress data c _ _ => Some (data, c) | _ => None end.
(** The command asks for the tessera that [sr] reports: with all of it, as [NodeHandle::retrieve] does, or by the hash of its
    manifest, as with a token. *)
Definition fetches (sr : StoreTesseraResult) (cmd : Command) : Prop :=
  match cmd with
  | RetrieveTessera hashes c len bs mh _ | RetrieveTesseraWithProgress hashes c len bs mh _ _ =>
    (hashes = sr_chunk_hashes sr ∧ c = sr_config sr ∧ len = Z.of_nat (sr_original_len sr) ∧ bs = Z.of_nat (sr_block_size sr)) ∨
    (hashes = [] ∧ mh = sr_manifest_hash sr)
  | _ => False
  end.

Section ideal.
Context `{Sha256} `{Ed25519} `{RS : ReedSolomon} `{Hex} `{Json (list SocketAddr)}.
Context `{Serde Payload} `{Serde Message} `{ML : SerdeLaws TesseraManifest PM}.
Context (Hser : ∀ m, ∃ bytes, rmp_to_vec (A := TesseraManifest) m = inr bytes) (HPM : ∀ m, PM m).
Context (oc : bool) (P : list Z → Prop) (Hinj : one_to_one P).

(** Data that can be stored, under a configuration the codec knows; its chunks and its manifest are in play. *)
Record storable (data : list Z) (c : ErasureConfig) (d p : nat) : Prop := {
  sb_config : c = mkConfig (Z.of_nat d) (Z.of_nat p);
  sb_ok : config_ok d p;
  sb_laws : ReedSolomonLaws d p;
  sb_data : data ≠ [];
  sb_len : Z.of_nat (length data) ≤ isize_max;
  sb_written x : written oc data c x → P x;
}.
Definition genuine (mh : list Z) (sr : StoreTesseraResult) (data : list Z) : Prop :=
  sr_manifest_hash sr = Some mh ∧ ∃ c d p, storable data c d p ∧ reports oc data c sr.

(** Two tesseras with the same chunks and the same length are of the same data. *)
Lemma chunks_determine data data' bs e e' d p `{!ReedSolomonLaws d p} :
  let c := mkConfig (Z.of_nat d) (Z.of_nat p) in
  config_ok d p → (0 < bs)%nat → data ≠ [] → data' ≠ [] → Z.of_nat (length data) ≤ isize_max → length data = length data' →
  encode_blocks oc data c bs = Ok e → encode_blocks oc data' c bs = Ok e' → Forall P (tessera_chunks e) → Forall P (tessera_chunks e') →
  tessera_hashes e = tessera_hashes e' → data = data'.
Proof.
  intros c Hc Hbs Hne Hne' Hlen Hl He He' HP HP' Hx.
  rewrite (tessera_hashes_of oc d p Hc data bs e Hne Hbs He), (tessera_hashes_of oc d p Hc data' bs e' Hne' Hbs He') in Hx.
  assert (tessera_chunks e = tessera_chunks e') as Hch.
  { apply list_eq_same_length with (n := length (tessera_chunks e)); [apply (f_equal length) in Hx; by rewrite !length_fmap in Hx|done|].
    intros i x y _ Hxi Hyi. rewrite Forall_lookup in HP, HP'. apply Hinj; [by eapply HP|by eapply HP'|].
    apply (f_equal (lookup i)) in Hx. rewrite !list_lookup_fmap, Hxi, Hyi in Hx. by injection Hx. }
  pose proof (decode_shards_full oc d p Hc data bs e Hne Hbs Hlen He) as D1.
  rewrite Hl in Hlen. pose proof (decode_shards_full oc d p Hc data' bs e' Hne' Hbs Hlen He') as D2. rewrite Hch, Hl in D1. congruence.
Qed.

Lemma manifest_inj hashes hashes' d d' p p' l l' bs bytes :
  let m hs d p l := manifest_of hs (mkConfig (Z.of_nat d) (Z.of_nat p)) l bs in
  rmp_to_vec (m hashes d p l) = inr bytes → rmp_to_vec (m hashes' d' p' l') = inr bytes →
  hashes = hashes' ∧ d = d' ∧ p = p' ∧ l = l'.
Proof.
  intros m Hb Hb'. pose proof (serde_roundtrip _ bytes (HPM _) Hb) as Hr. rewrite (serde_roundtrip _ bytes (HPM _) Hb') in Hr.
  injection Hr as -> Hd Hp Hl. by apply Nat2Z.inj in Hd as ->, Hp as ->, Hl as ->.
Qed.

(** A manifest determines the tessera. *)
Lemma genuine_unique mh sr sr' data data' : genuine mh sr data → genuine mh sr' data' → sr = sr' ∧ data = data'.
Proof.
  intros [Hmh (c & d & p & [-> Hc HL Hne Hlen Hw] & e & bytes & He & Hb & ->)]
    [Hmh' (c' & d' & p' & [-> Hc' HL' Hne' Hlen' Hw'] & e' & bytes' & He' & Hb' & ->)].
  cbn [sr_manifest_hash] in *. assert (0 < DEFAULT_BLOCK_SIZE)%nat as Hbs by (unfold DEFAULT_BLOCK_SIZE; lia).
  unfold written in Hw, Hw'. revert He Hb Hmh Hw He' Hb' Hmh' Hw' Hbs. generalize DEFAULT_BLOCK_SIZE. intros bs He Hb Hmh Hw He' Hb' Hmh' Hw' Hbs.
  assert (bytes = bytes') as <-.
  { apply Hinj; [apply Hw; exists e; by auto|apply Hw'; exists e'; by auto|congruence]. }
  destruct (manifest_inj _ _ _ _ _ _ _ _ _ _ Hb Hb') as (Hh & <- & <- & Hl). split; [congruence|].
  eapply (chunks_determine data data' bs e e' d p); try done; apply Forall_forall; intros x Hx; [apply Hw; exists e|apply Hw'; exists e']; by auto.
Qed.

(** *** The bodies *)
(** [None]: a storable tessera is stored; [Some]: the tessera of these data is fetched. *)
Definition asks (x : option (StoreTesseraResult * list Z)) (cmd : Command) : Prop :=
  match x with
  | None => ∃ data c d p, stores cmd = Some (data, c) ∧ storable data c d p
  | Some (sr, data) => (∃ mh, genuine mh sr data) ∧ fetches sr cmd
  end.
Definition Post (x : option (StoreTesseraResult * list Z)) (cmd : Command) (a : nat * Answer) : Prop :=
  match x with
  | None => ∀ sr, a.2 = Stored (Ok sr) → ∃ data c, stores cmd = Some (data, c) ∧ reports oc data c sr
  | Some (sr, data) => ∀ r, a.2 = Retrieved r → retrieved (Z.to_nat (data_shards (sr_config sr))) data r
  end.

Lemma fetch_tessera_safe ctx data bs e d p `{!ReedSolomonLaws d p} mh tx :
  let c := mkConfig (Z.of_nat d) (Z.of_nat p) in
  config_ok d p → (0 < bs)%nat → data ≠ [] → Z.of_nat (length data) ≤ isize_max → encode_blocks oc data c bs = Ok e →
  Forall P (tessera_chunks e) →
  safe_if (in_play P) (node_inv (disk_in P) ctx) (sends_outgoing ctx) (retrieved d data)
    (do_retrieve_tessera oc ctx (tessera_hashes e) c (Z.of_nat (length data)) (Z.of_nat bs) mh tx).
Proof.
  intros c Hc Hbs Hne Hlen He HP. destruct (tessera_chunks_some oc d p Hc data bs e Hne Hbs He) as [Hh _].
  pose proof (retrieve_resolved_safe oc ctx P d p (tessera_hashes e) bs data tx
    (λ shards, decode_shards_exact oc P d p Hc Hinj data bs e shards Hne Hbs Hlen He HP)) as Hres.
  unfold do_retrieve_tessera. destruct (tessera_hashes e) as [|h l]; [done|].
  eapply safe_mono in Hres; [|done|]; [destruct mh; exact Hres|]. intros r [Hr|Hr]; [by left|by right; left].
Qed.

Lemma fetch_safe ctx mh sr data hashes c len bs mh0 tx :
  genuine mh sr data → fetches sr (RetrieveTessera hashes c len bs mh0 0) →
  safe_if (in_play P) (node_inv (disk_in P) ctx) (sends_outgoing ctx) (retrieved (Z.to_nat (data_shards (sr_config sr))) data)
    (do_retrieve_tessera oc ctx hashes c len bs mh0 tx).
Proof.
  intros [_ (c' & d & p & [-> Hc HL Hne Hlen Hw] & e & bytes & He & Hb & ->)] Hf. unfold written in Hw.
  assert (0 < DEFAULT_BLOCK_SIZE)%nat as Hbs by (unfold DEFAULT_BLOCK_SIZE; lia). revert He Hb Hw Hbs Hf. generalize DEFAULT_BLOCK_SIZE.
  intros bs' He Hb Hw Hbs Hf. change (Z.to_nat _) with (Z.to_nat (Z.of_nat d)). rewrite Nat2Z.id.
  assert (Forall P (tessera_chunks e)) as HP by (apply Forall_forall; intros x Hx; apply Hw; exists e; by auto).
  destruct Hf as [(-> & -> & -> & ->)|[-> ->]]; [by apply fetch_tessera_safe|].
  exact (retrieve_manifest_safe oc ctx P d p Hc Hinj data bs' e bytes c len bs tx Hne Hbs Hlen He HP (HPM _) Hb ltac:(apply Hw; exists e; by auto)).
Qed.

Lemma store_safe ctx data c d p tx :
  storable data c d p →
  safe_if (in_play P) (node_inv (disk_in P) ctx) (sends_outgoing ctx) (λ r, ∀ sr, r = Ok sr → reports oc data c sr)
    (do_store_tessera oc ctx data c tx).
Proof.
  intros [-> Hc HL Hne Hlen Hw]. eapply safe_mono; [done| |].
  2:{ apply (do_store_safe oc (R := in_play P) ctx (disk_in P) P); [|done..]. intros amb c h x Ha Hx Hd. by apply (chunk_put_in P oc (am_fs amb) c h x). }
  intros r [_ Hr]. exact Hr.
Qed.

Lemma asked_safe ctx x cmd :
  asks x cmd → safe_if (in_play P) (node_inv (disk_in P) ctx) (λ _, True) (λ r, ∀ a, r = Some a → Post x cmd a) (handle_command oc ctx cmd).
Proof.
  destruct x as [[sr data]|]; cbn [asks Post].
  - intros [[mh Hg] Hf].
    destruct cmd as [| | | | |hs c len bs mh0 i|hs c len bs mh0 tx i|]; cbn [fetches] in Hf; try done; cbn [handle_command].
    all: apply safe_bind; eapply safe_mono; [| |apply (fetch_safe ctx mh sr data); [exact Hg|exact Hf]]; [done|].
    all: by intros r Hr a [= <-] r' [= <-].
  - intros (data & c & d & p & Hst & Hs).
    destruct cmd as [| | |data' c' i|data' c' tx i| | |]; cbn [stores] in Hst; try done; injection Hst as -> ->; cbn [handle_command].
    all: apply safe_bind; eapply safe_mono; [| |apply (store_safe ctx data c d p); exact Hs]; [done|].
    all: intros r Hr a [= <-] sr [= ->]; exists data, c; split; [done|by apply Hr].
Qed.

(** *** Several nodes *)
(** A node, the state it started in and when, and the state it has come to. *)
Record Running := mkRunning { rn_ctx : HandlerContext; rn_first : NodeState; rn_now : Z; rn_system : system }.
Notation accepted n := (accepted_commands (y_replies (rn_system n))).
Notation answers n := (answered (y_replies (rn_system n))).

(** It got there in surroundings where all that peers answer, and all that is ever on its disk, is in play; and what
    it was told to store can be stored. *)
Record runs_in_play (n : Running) : Prop := {
  ri_quota : 0 < cfg_max_chunks_per_peer (c_config (rn_ctx n));
  ri_first : node_ok (rn_ctx n) (rn_first n);
  ri_disk : disk_in P (n_chunks (rn_first n));
  ri_steps : rtc (within oc (rn_ctx n) (in_play P) (λ s, disk_in P (n_chunks s))) (start (rn_first n) (rn_now n)) (rn_system n);
  ri_stores cmd data c : cmd ∈ accepted n → stores cmd = Some (data, c) → ∃ d p, storable data c d p;
}.

Lemma disk_inv ctx s : node_ok ctx s → disk_in P (n_chunks s) → node_inv (disk_in P) ctx s.
Proof. by intros [] ?. Qed.

Lemma running_answers n : runs_in_play n → Forall (answered_as asks Post (accepted n)) (answers n).
Proof.
  intros [Hq Hs Hd Hst _].
  apply (served_answers Hser oc (rn_ctx n) Hq (in_play P) (node_inv (disk_in P) (rn_ctx n)) asks Post) with (s := rn_first n) (now := rn_now n).
  - intros x cmd. apply asked_safe.
  - intros [[sr data]|] addrs i; [by intros [_ ?]|by intros (? & ? & ? & ? & ? & _)].
  - done.
  - by apply disk_inv.
  - pose proof (start_ok (rn_ctx n) (rn_first n) (rn_now n) Hs) as Hok. revert Hok.
    induction Hst as [y|y1 y2 y3 [Ha Hb] _ IH]; intros Hok; [done|].
    assert (sys_ok (rn_ctx n) y2) as Hok2 by by eapply step_ok. apply rtc_l with y2; [|by apply IH].
    split; [done|]. apply disk_inv; [by apply (ok_state _ _ Hok2)|done].
Qed.

(** The answer agrees with the map. *)
Definition agrees (ideal : gmap (list Z) (StoreTesseraResult * list Z)) (cmd : Command) (a : Answer) : Prop :=
  match a with
  | Stored (Ok sr) => ∃ mh data c, sr_manifest_hash sr = Some mh ∧ stores cmd = Some (data, c) ∧ ideal !! mh = Some (sr, data)
  | Retrieved r => ∀ mh sr data, ideal !! mh = Some (sr, data) → fetches sr cmd → retrieved (Z.to_nat (data_shards (sr_config sr))) data r
  | _ => True
  end.
(** Data that a node was told to store, and the result it answered. *)
Definition stored_by (n : Running) (mh : list Z) (sr : StoreTesseraResult) (data : list Z) : Prop :=
  sr_manifest_hash sr = Some mh ∧ ∃ cmd c i, cmd ∈ accepted n ∧ stores cmd = Some (data, c) ∧ (i, Stored (Ok sr)) ∈ answers n.

Lemma answer_sound n a :
  runs_in_play n → a ∈ answers n → ∃ cmd, cmd ∈ accepted n ∧ command_answers cmd (Some a) ∧ (∀ x, asks x cmd → Post x cmd a) ∧
    ∀ sr, a.2 = Stored (Ok sr) → ∃ mh data c, stores cmd = Some (data, c) ∧ stored_by n mh sr data ∧ genuine mh sr data.
Proof.
  intros Hn Hin. pose proof (running_answers n Hn) as Hall. rewrite Forall_forall in Hall.
  destruct (Hall _ Hin) as (cmd & Hk & Ha & Hp). exists cmd. split_and!; [done..|]. intros sr Hsr. destruct a as [i a]. cbn in Hsr. subst a.
  assert (∃ data c, stores cmd = Some (data, c)) as (data & c & Hst).
  { destruct cmd; cbn in Ha; first [done|by destruct Ha|by eexists _, _]. }
  destruct (ri_stores n Hn cmd data c Hk Hst) as (d & p & Hs).
  destruct (Hp None) with (sr := sr) as (data' & c' & Hst' & Hr); [by exists data, c, d, p|done|]. rewrite Hst in Hst'. injection Hst' as <- <-.
  pose proof Hr as (e & bytes & _ & _ & ->). eexists _, data, c. split; [done|]. split; [split; [done|by exists cmd, c, i]|]. split; [done|]. by exists c, d, p.
Qed.

(** The map of all that these answers report. *)
Lemma ideal_exists (nodes : list Running) (l : list (Running * (nat * Answer))) :
  (∀ n a, (n, a) ∈ l → n ∈ nodes ∧ runs_in_play n ∧ a ∈ answers n) →
  ∃ ideal : gmap (list Z) (StoreTesseraResult * list Z),
    (∀ mh sr data, ideal !! mh = Some (sr, data) → genuine mh sr data ∧ ∃ n, n ∈ nodes ∧ stored_by n mh sr data) ∧
    ∀ n i sr mh, (n, (i, Stored (Ok sr))) ∈ l → sr_manifest_hash sr = Some mh → is_Some (ideal !! mh).
Proof.
  induction l as [|[n [i a]] l IH]; intros Hl.
  { exists ∅. split; [intros mh sr data; by rewrite lookup_empty|]. by intros n i sr mh ?%elem_of_nil. }
  destruct IH as (ideal & Hg & Hin); [intros n' a' H'; apply Hl; by right|].
  destruct (Hl n (i, a)) as (Hn & Hr & Ha); [left|].
  assert ((∃ sr, a = Stored (Ok sr)) ∨ ∀ sr, a ≠ Stored (Ok sr)) as [[sr ->]|Hno] by (destruct a as [| | |[]|]; eauto).
  2:{ exists ideal. split; [done|]. intros n' i' sr mh [[= -> -> <-]|H']%elem_of_cons; [by destruct (Hno sr)|by eapply Hin]. }
  destruct (answer_sound n _ Hr Ha) as (cmd & _ & _ & _ & Hs). destruct (Hs sr eq_refl) as (mh & data & c & _ & Hst & Hgen).
  exists (<[mh := (sr, data)]> ideal). split.
  - intros mh' sr' data'. destruct (decide (mh = mh')) as [<-|Hm].
    + rewrite lookup_insert_eq. intros [= <- <-]. split; [done|]. by exists n.
    + rewrite lookup_insert_ne by done. apply Hg.
  - intros n' i' sr' mh' H' Hmh. destruct (decide (mh = mh')) as [<-|Hm]; [by rewrite lookup_insert_eq|]. rewrite lookup_insert_ne by done.
    apply elem_of_cons in H' as [[= -> -> ->]|H']; [|by eapply Hin]. destruct Hst as [Hst _]. congruence.
Qed.

(** C4: Any number of nodes, each with all its tasks interleaved, refine one ideal store.  There is a map from manifest
    hashes to data such that every answer of every node agrees with it: a store that succeeded has put its data under
    the hash it reports, and a retrieval of what is under a hash, by the hash or by the full result, on
    whatever node, gives exactly those data, or an error that says what is missing.  The map holds nothing but what some
    node was told to store and answered, and no entry of it ever changes.  The peers and the disks may do anything,
    provided no second preimage is among the bytes in play. *)
Theorem nodes_refine_ideal (nodes : list Running) :
  Forall runs_in_play nodes →
  ∃ ideal : gmap (list Z) (StoreTesseraResult * list Z),
    (∀ mh sr data, ideal !! mh = Some (sr, data) → ∃ n, n ∈ nodes ∧ stored_by n mh sr data) ∧
    ∀ n a, n ∈ nodes → a ∈ answers n → ∃ cmd, cmd ∈ accepted n ∧ command_answers cmd (Some a) ∧ agrees ideal cmd a.2.
Proof.
  rewrite Forall_forall. intros Hn. destruct (ideal_exists nodes (n ← nodes; (λ a, (n, a)) <$> answers n)) as (ideal & Hg & Hin).
  { intros n a (n' & (a' & [= -> ->] & Ha)%list_elem_of_fmap & Hin)%list_elem_of_bind. split_and!; [done|by apply Hn|done]. }
  exists ideal. split; [intros mh sr data Hi; by apply (Hg mh sr data)|]. intros n [i a] Hnn Ha.
  destruct (answer_sound n _ (Hn n Hnn) Ha) as (cmd & Hk & Hc & Hp & Hs). exists cmd. split; [done|]. split; [done|].
  cbn [snd] in *. destruct a as [| | |[sr|e|]|r]; try done; cbn [agrees].
  - destruct (Hs sr eq_refl) as (mh & data & c & Hst & Hby & Hgen). exists mh, data, c. split; [apply Hgen|]. split; [done|].
    destruct (Hin n i sr mh) as [[sr' data'] Hi]; [|apply Hgen|].
    + apply list_elem_of_bind. exists n. split; [|done]. apply list_elem_of_fmap. by eexists.
    + destruct (Hg _ _ _ Hi) as [Hgen' _]. by destruct (genuine_unique mh sr sr' data data' Hgen Hgen') as [<- <-].
  - intros mh sr data Hi Hf. destruct (Hg _ _ _ Hi) as [Hgen _]. apply (Hp (Some (sr, data))); [split; [by exists mh|done]|done].
Qed.
End ideal.

(** ** A node that stores and retrieves *)
Definition told_store : Command := StoreTesseraWithProgress sample_data (mkConfig (Z.of_nat 2) (Z.of_nat 1)) 5 1.
Definition told_fetch (sr : StoreTesseraResult) : Command := RetrieveTessera [] (mkConfig 10 4) 0 0 (sr_manifest_hash sr) 2.
Definition fresh_state : NodeState := w_state (sample_world []).
Notation known_bytes := (λ x, x ∈ big_bytes).

Lemma sample_storable : storable true known_bytes sample_data (mkConfig (Z.of_nat 2) (Z.of_nat 1)) 2 1.
Proof. split; [done|split_and!; lia|exact toy_rs_laws|done|by vm_compute|exact big_written]. Qed.

Lemma quiet_sample : quiet sample_oracle.
Proof. by intros n s. Qed.

Lemma disk_of_inv ctx s : node_inv (disk_in known_bytes) ctx s → disk_in known_bytes (n_chunks s).
Proof. by intros []. Qed.

(** The node has stored the sample, was asked for it, and has answered both. *)
Lemma stored_and_fetched : ∃ y sr r,
  runs_in_play true known_bytes (mkRunning sample_ctx fresh_state 0 y) ∧
  accepted_commands (y_replies y) = [told_store; told_fetch sr] ∧ answered (y_replies y) = [(1%nat, Stored (Ok sr)); (2%nat, Retrieved r)].
Proof.
  destruct sample_store_ok as (sr & w1 & E1). unfold sample_store_run in E1.
  pose proof (store_safe manifests_serialize true known_bytes sample_ctx sample_data _ 2 1 (Some 5%nat) sample_storable) as Hs1.
  destruct (safe_if_run (in_play known_bytes) _ _ _ sample_oracle _ (sample_world []) id (sample_meets _) (sample_preserves _) (sample_inv _) Hs1)
    as (r1 & w1' & l1 & E1' & Hr1 & Hi1 & _). rewrite E1 in E1'. injection E1' as <- <-.
  pose proof (Hr1 sr eq_refl) as Hrep.
  assert (∃ mh, genuine true known_bytes mh sr sample_data) as [mh Hg].
  { pose proof Hrep as (e & bytes & _ & _ & E). exists (sha256 bytes). split; [rewrite E; reflexivity|].
    exists (mkConfig (Z.of_nat 2) (Z.of_nat 1)), 2%nat, 1%nat. exact (conj sample_storable Hrep). }
  pose proof (fetch_safe (PM := λ _, True) (λ _, I) true known_bytes big_one_to_one sample_ctx mh sr sample_data [] (mkConfig 10 4) 0 0
    (sr_manifest_hash sr) None Hg (or_intror (conj eq_refl eq_refl))) as Hs2.
  destruct (safe_if_run (in_play known_bytes) _ _ _ sample_oracle _ w1 id (sample_meets _) (sample_preserves _) Hi1 Hs2) as (r & w2 & l2 & E2 & _).
  set (J := node_inv (disk_in known_bytes) sample_ctx) in *. set (G := sends_outgoing sample_ctx) in *.
  assert (safe_if (in_play known_bytes) J G (λ _, True) (handle_command true sample_ctx told_store)) as Hc1
    by (apply safe_bind; by eapply safe_mono; [| |exact Hs1]).
  assert (safe_if (in_play known_bytes) J G (λ _, True) (handle_command true sample_ctx (told_fetch sr))) as Hc2
    by (apply safe_bind; by eapply safe_mono; [| |exact Hs2]).
  destruct (command_served true sample_ctx (in_play known_bytes) (λ s, disk_in known_bytes (n_chunks s)) J (disk_of_inv sample_ctx) sample_oracle
    quiet_sample (sample_meets _) G (λ _, True) told_store fresh_state (sample_world []) (Some (1%nat, Stored (Ok sr))) w1 [] [] 0 [] [] []
    I ltac:(cbn; lia) Hc1 (sample_inv _) eq_refl) as (lg1 & t1 & Hr1'); [cbn [told_store handle_command]; by rewrite run_bind, E1|].
  destruct (command_served true sample_ctx (in_play known_bytes) (λ s, disk_in known_bytes (n_chunks s)) J (disk_of_inv sample_ctx) sample_oracle
    quiet_sample (sample_meets _) G (λ _, True) (told_fetch sr) (w_state w1) w1 (Some (2%nat, Retrieved r)) w2 lg1 t1 0 [told_store] [(1%nat, Stored (Ok sr))] []
    I ltac:(cbn; lia) Hc2 Hi1 eq_refl) as (lg2 & t2 & Hr2); [cbn [told_fetch handle_command]; by rewrite run_bind, E2|].
  change (@nil Command ++ [told_store]) with [told_store] in Hr1'. change ([] ++ option_list (Some (1%nat, Stored (Ok sr)))) with [(1%nat, Stored (Ok sr))] in Hr1'.
 pose proof (transitivity Hr1' Hr2) as Hr. clear Hr1' Hr2.
  eexists (mkSystem (w_state w2) _ _ _ (mkReplies [told_store; told_fetch sr] [(1%nat, Stored (Ok sr)); (2%nat, Retrieved r)] [])), sr, r.
  split; [|split; reflexivity].
  constructor; cbn [rn_ctx rn_first rn_now rn_system].
  - reflexivity.
  - apply sample_node_ok.
  - apply (disk_of_inv sample_ctx), sample_inv.
  - exact Hr.
  - intros cmd data c Hin Hst. cbn [y_replies accepted_commands app] in Hin.
    apply elem_of_cons in Hin as [->|[->|[]%elem_of_nil]%elem_of_cons]; [|discriminate Hst]. injection Hst as <- <-. exists 2%nat, 1%nat. exact sample_storable.
Qed.

Lemma nodes_refine_ideal_witness :
  ∃ (ideal : gmap (list Z) (StoreTesseraResult * list Z)) sr mh r,
    ideal !! mh = Some (sr, sample_data) ∧ agrees ideal told_store (Stored (Ok sr)) ∧ agrees ideal (told_fetch sr) (Retrieved r).
Proof.
  destruct stored_and_fetched as (y & sr & r & Hn & Hk & Ha). set (n := mkRunning sample_ctx fresh_state 0 y) in *.
  destruct (nodes_refine_ideal (PM := λ _, True) manifests_serialize (λ _, I) true known_bytes big_one_to_one [n]) as (ideal & _ & Hall).
  { constructor; [exact Hn|constructor]. }
  destruct (Hall n (1%nat, Stored (Ok sr))) as (c1 & Hc1 & Hr1 & Hg1); [left|cbn; rewrite Ha; left|].
  destruct (Hall n (2%nat, Retrieved r)) as (c2 & Hc2 & Hr2 & Hg2); [left|cbn; rewrite Ha; right; left|].
  cbn [n rn_system] in Hc1, Hc2. rewrite Hk in Hc1, Hc2.
  apply elem_of_cons in Hc1 as [->|[->|[]%elem_of_nil]%elem_of_cons]; [|by destruct Hr1].
  apply elem_of_cons in Hc2 as [->|[->|[]%elem_of_nil]%elem_of_cons]; [by destruct Hr2|].
  pose proof Hg1 as (mh & data & c & _ & Hst & Hi). injection Hst as <- <-. exists ideal, sr, mh, r. split; [exact Hi|]. split; [exact Hg1|exact Hg2].
Defined.
