(* ===== verification/Journey.v ===== *)
(** * From one node to another

    What a store sends to the peers ([store_uploads]), and the journey of a tessera: stored on one node, kept by
    hosts that run the same code ([Network]), retrieved on another node through the handle of [node.rs]. *)
From S2P Require Import Prelude.
From S2P Require Import Errors.
From S2P Require Import Bytes.
From S2P Require Import External.
From S2P Require Import Identity.
From S2P Require Import Net.
From S2P Require Import Samples.
From S2P Require Import Bucket.
From S2P Require Import Table.
From S2P Require Import Erasure.
From S2P Require Import Chunks.
From S2P Require Import Metadata.
From S2P Require Import RateLimit.
From S2P Require Import Message.
From S2P Require Import Race.
From S2P Require Import Actor.
From S2P Require Import Context.
From S2P Require Import Handler.
From S2P Require Import Retrieve.
From S2P Require Import Store.
From S2P Require Import Availability.
From S2P Require Import Network.
From S2P Require Import Node.

(** ** The uploads of a store *)
(** The log of a run only grows. *)
Lemma run_log_grows {A} o (p : prog A) w r w' : run o p w = (r, w') → ∃ log, w_log w' = w_log w ++ log.
Proof.
  revert w. induction p as [a|B f k IH|a m k IH|l m k IH|a m k IH|t k IH|tx pr k IH|]; intros w E; cbn [run] in E.
  1,8: injection E as <- <-; exists []; by rewrite app_nil_r.
  all: destruct (ltac:(eapply IH; exact E) : ∃ log, w_log w' = _ ++ log) as [log El]; cbn [tick w_log] in El; rewrite <-app_assoc in El; by eexists.
Qed.
Lemma run_logged {A} o (p : prog A) w r w' e : run o p w = (r, w') → e ∈ w_log w → e ∈ w_log w'.
Proof. intros [log ->]%run_log_grows He. apply elem_of_app. by left. Qed.

Lemma run_bind_inv {A B} o (p : prog A) (f : A → prog B) w b w' :
  run o (p ≫= f) w = (Some b, w') → ∃ a w1, run o p w = (Some a, w1) ∧ run o (f a) w1 = (Some b, w').
Proof. rewrite run_bind. destruct (run o p w) as [[a|] w1]; [|done]. intros E. by exists a, w1. Qed.

(** The tasks of a distribution all send. *)
Lemma distributions_sent o l w r w' :
  run o (join_all l (run_distribution [])) w = (r, w') → ∀ h a, h ∈ l → di_addrs h = [a] → ESent a (di_msg h) ∈ w_log w'.
Proof.
  revert w r. induction l as [|h l IH]; intros w r E h' a Hin Ha; [by apply elem_of_nil in Hin|].
  cbn [join_all] in E. rewrite run_bind in E.
  assert (∃ y w1, run o (run_distribution [] h) w = (Some y, w1) ∧ (di_addrs h = [a] → ESent a (di_msg h) ∈ w_log w1)) as (y & w1 & E1 & Hs).
  { unfold run_distribution. rewrite bool_decide_eq_false_2 by apply not_elem_of_nil. destruct (di_addrs h) as [|b [|? ?]]; eexists _, _.
    all: split; [reflexivity|]; intros [= ->]. apply elem_of_app. right. left. }
  rewrite E1, run_bind in E. destruct (run o (join_all l (run_distribution [])) w1) as [ys w2] eqn:E2.
  assert (w' = w2) as -> by (destruct ys; by injection E as <- <-).
  apply elem_of_cons in Hin as [->|Hin]; [|by eapply IH]. eapply run_logged; [exact E2|]. by apply Hs.
Qed.

Section uploads.
Context `{Sha256} `{Ed25519} `{ReedSolomon} `{Hex} `{Json (list SocketAddr)}.
Context `{Serde Payload} `{Serde Message} `{Serde TesseraManifest}.
Context (oc : bool) (ctx : HandlerContext) (kept : list (list Z * SocketAddr)).
Notation config := (c_config ctx).

(** The addresses of [kept] are those of peers that a store picks for the chunks there. *)
Definition picked (s : NodeState) : Prop :=
  ∀ x a, (x, a) ∈ kept → ∃ n, n ∈ recipients ctx [] (closest_nodes (n_routing_table s) (from_bytes (sha256 x)) (cfg_k config)) ∧ ni_addresses n = [a].
(** A peer with the one address [a] is among the closest to [h]. *)
Definition announced (h : list Z) (a : SocketAddr) (s : NodeState) : Prop :=
  ∃ n, n ∈ closest_nodes (n_routing_table s) (from_bytes h) (cfg_k config) ∧ has_addresses ctx n = true ∧ ni_addresses n = [a].
Definition upload (x : list Z) (m : Message) : Prop := outgoing ctx m ∧ m_payload m = PutChunkRequest (sha256 x) x.
(** The tasks [hs] can send, and upload the chunks [l] to these addresses. *)
Definition covers (l : list (list Z)) (hs : list Distribution) : Prop :=
  (∀ x a, x ∈ l → (x, a) ∈ kept → ∃ h, h ∈ hs ∧ di_addrs h = [a] ∧ upload x (di_msg h)) ∧ Forall (λ h, di_addrs h ≠ []) hs.

(** What the other tasks keep. *)
Context (I : NodeState → Prop).
Context (HI : ∀ s, I s → picked s) (Htable : ∀ s s', n_routing_table s' = n_routing_table s → I s → I s').
Notation safely := (safe I (λ _, True)).

Lemma covers_app l1 l2 h1 h2 : covers l1 h1 → covers l2 h2 → covers (l1 ++ l2) (h1 ++ h2).
Proof.
  intros [Hl Hl'] [Hr Hr']. split; [|by apply Forall_app].
  intros x a [Hx|Hx]%elem_of_app Hk; [destruct (Hl x a Hx Hk) as (h & Hh & ?)|destruct (Hr x a Hx Hk) as (h & Hh & ?)].
  all: exists h; split; [apply elem_of_app; by auto|done].
Qed.
Lemma covers_nil hs : Forall (λ h, di_addrs h ≠ []) hs → covers [] hs.
Proof. intros Hh. split; [by intros x a ?%elem_of_nil|done]. Qed.
Lemma covers_concat l hs : Forall2 (λ x h, covers [x] h) l hs → covers l (concat hs).
Proof. induction 1 as [|x h l hs Hx _ IH]; [by apply covers_nil|]. apply (covers_app [x] l); [done|exact IH]. Qed.

Lemma prepare_safe payload n :
  safely (λ h, di_addrs h = ni_addresses n ∧ outgoing ctx (di_msg h) ∧ m_payload (di_msg h) = payload) (prepare ctx payload n).
Proof.
  intros amb s _ Hs. split; [done|]. cbn [fst snd prog_bind safe_if di_addrs di_msg]. split_and!; [done|by apply outgoing_sign|].
  unfold sign. by destruct (signing_bytes _).
Qed.

(** The recipients have addresses. *)
Lemma prepare_recipients_safe payload failed closest :
  safely (λ hs, Forall2 (λ n h, di_addrs h = ni_addresses n ∧ outgoing ctx (di_msg h) ∧ m_payload (di_msg h) = payload) (recipients ctx failed closest) hs ∧
      Forall (λ h, di_addrs h ≠ []) hs)
    (join_all (recipients ctx failed closest) (prepare ctx payload)).
Proof.
  eapply safe_mono; [done| |apply safe_join_all2; intros n _; apply prepare_safe]. intros hs Hhs. split; [done|].
  apply Forall_forall. intros h [i Hh]%list_elem_of_lookup. destruct (Forall2_lookup_r _ _ _ _ _ Hhs Hh) as (n & Hn & -> & _).
  apply list_elem_of_lookup_2 in Hn. unfold recipients in Hn. apply subseteq_take, list_elem_of_filter in Hn as [[Ha _] _].
  unfold has_addresses in Ha. apply negb_true_iff, orb_false_iff in Ha as [Ha _]. by apply bool_decide_eq_false in Ha.
Qed.

Lemma distribute_chunk_covers addr x : safely (covers [x]) (distribute_chunk oc ctx [] addr (sha256 x, x)).
Proof.
  apply safe_get. intros s Hs. apply safe_bind. eapply safe_mono; [done| |apply prepare_recipients_safe].
  intros hs [Hhs Hne]. apply safe_atomic. intros amb s1 _ Hs1. destruct (add_provider _ _ _ _ _ _ _ _ _) as [m r].
  split; [by apply (Htable s1)|]. split; [|done].
  intros y a ->%list_elem_of_singleton Hk. destruct (HI s Hs x a Hk) as (n & [i Hn]%list_elem_of_lookup & Ha).
  destruct (Forall2_lookup_l _ _ _ _ _ Hhs Hn) as (h & Hh & Hd & Hu). exists h. rewrite Hd, Ha. split; [by eapply list_elem_of_lookup_2|done].
Qed.

Lemma distribute_block_covers addr e :
  et_chunk_hashes e = sha256 <$> et_chunks e → safely (covers (et_chunks e)) (distribute_block oc ctx [] addr e).
Proof.
  intros He. unfold distribute_block. apply safe_bind. rewrite He at 1.
  assert (zip (sha256 <$> et_chunks e) (et_chunks e) = (λ x, (sha256 x, x)) <$> et_chunks e) as ->.
  { clear He. induction (et_chunks e) as [|x l IH]; [done|]. cbn. by rewrite IH. }
  eapply safe_mono; [done| |apply (safe_join_all2 _ _ (λ x h, covers [x.2] h))].
  2:{ intros x (y & -> & _)%list_elem_of_fmap. apply distribute_chunk_covers. }
  intros up Hup. rewrite !Forall2_fmap_l in Hup. apply safe_bind.
  eapply safe_mono; [done| |apply (safe_join_all _ _ (Forall (λ h, di_addrs h ≠ [])))].
  2:{ intros h _. apply safe_get. intros s _. eapply safe_mono; [done| |apply prepare_recipients_safe]. by intros hs []. }
  intros an Han. rewrite <-(app_nil_r (et_chunks e)). apply covers_app; [by apply covers_concat|]. by apply covers_nil, Forall_concat.
Qed.

Lemma put_local_keeps {A} (Q : A → Prop) h x (k : res () → prog A) : (∀ r, r ≠ Panic → safely Q (k r)) → safely Q (put_local oc h x ≫= k).
Proof.
  intros Hk. apply safe_atomic. intros amb s _ Hs.
  assert ((chunk_put oc (am_fs amb) (n_chunks s) h x).2 ≠ Panic) as Hp.
  { unfold chunk_put. by destruct (put_sync _ _ _ _ _) as [? [[]| |]]. }
  destruct (chunk_put _ _ _ _ _) as [c r]. split; [by apply (Htable s)|]. by apply Hk.
Qed.

Lemma put_all_keeps l : safely (λ r, r ≠ Panic) (put_all oc l).
Proof. induction l as [|[h x] l IH]; [done|]. cbn [put_all]. apply put_local_keeps. by intros [[]|e|]. Qed.

Lemma store_block_covers addr e :
  et_chunk_hashes e = sha256 <$> et_chunks e → safely (λ r, r ≠ Panic ∧ ∀ hs, r = Ok hs → covers (et_chunks e) hs) (store_block oc ctx [] addr e).
Proof.
  intros He. unfold store_block. apply safe_bind. eapply safe_mono; [done| |apply put_all_keeps]. intros [[]|err|] Hr; [|done|done].
  apply safe_bind. eapply safe_mono; [done| |by apply distribute_block_covers]. intros hs Hhs. split; [done|]. by intros ? [= <-].
Qed.

Lemma detach_keeps {A} (Q : A → Prop) handles (r : A) : Q r → safely Q (_ ← detach handles; Ret r).
Proof. intros Hr. apply safe_bind. apply (safe_mono _ (λ _, True) _ (λ _, True)); [done|by intros []|]. apply safe_for_each. by split. Qed.

Lemma store_blocks_covers tx nb addr data c bs blocks hashes handles l :
  (∀ i e, i ∈ blocks → encode oc (slice data bs i) c = Ok e → et_chunk_hashes e = sha256 <$> et_chunks e) → covers l handles →
  safely (λ r, ∀ hs hdl, r = Ok (hs, hdl) → ∃ es, mapM_outcome (λ i, encode oc (slice data bs i) c) blocks = Ok es ∧
        hs = hashes ++ concat (et_chunk_hashes <$> es) ∧ covers (l ++ concat (et_chunks <$> es)) hdl)
    (store_blocks oc ctx tx nb [] addr data c bs blocks hashes handles).
Proof.
  revert hashes handles l. induction blocks as [|i blocks IH]; intros hashes handles l He Hl.
  { intros hs hdl [= <- <-]. exists []. by rewrite !app_nil_r. }
  cbn [store_blocks mapM_outcome]. apply safe_report; [done|]. destruct (encode oc (slice data bs i) c) as [e|err|] eqn:E; [|by apply detach_keeps..].
  apply safe_report; [done|]. apply safe_bind. eapply safe_mono; [done| |apply store_block_covers, (He i); [left|done]].
  intros [more|err|] [Hp Hm]; [|by apply detach_keeps|done]. apply safe_report; [done|].
  eapply safe_mono; [done| |apply (IH _ _ (l ++ et_chunks e))].
  - intros r Hr hs hdl Hok. destruct (Hr hs hdl Hok) as (es & Hes & -> & Hcov). exists (e :: es). cbn [mbind outcome_mbind]. rewrite Hes.
    rewrite <-app_assoc in Hcov. split_and!; [done|by rewrite <-app_assoc|exact Hcov].
  - intros j e' Hj. apply He. by right.
  - apply covers_app; [done|by apply Hm].
Qed.

Section uploaded.
Context (d p : nat) `{!ReedSolomonLaws d p} (o : Oracle) (data : list Z) (e : EncodedBlocks).
Notation c := (mkConfig (Z.of_nat d) (Z.of_nat p)).
Context (Hc : config_ok d p) (Hne : data ≠ []) (He : encode_blocks oc data c DEFAULT_BLOCK_SIZE = Ok e).
Context (Ho : preserves I o).

(** A store up to its uploads. *)
Lemma store_prepared tx w sr w' :
  I (w_state w) → run o (do_store_tessera oc ctx data c tx) w = (Some (Ok sr), w') →
  ∃ addr hdl w2, covers (tessera_chunks e) hdl ∧ I (w_state w2) ∧
    run o (finish_store oc ctx addr data c (tessera_hashes e) hdl) w2 = (Some (Ok sr), w').
Proof.
  intros Hw E. unfold do_store_tessera, best_addr, get in E.
  destruct (num_blocks_ok (length data)) as [nb Hnb]. rewrite Hnb in E. cbn [atomic mbind prog_mbind prog_bind run] in E. rewrite run_bind in E.
  match type of E with context [run o ?q ?v] => set (w1 := v) in E; set (prg := q) in E end.
  assert (I (w_state w1)) as Hw1 by by apply (Ho (w_next w)).
  assert (safely (λ r, ∀ hs hdl, r = Ok (hs, hdl) → ∃ es, mapM_outcome (λ i, encode oc (slice data DEFAULT_BLOCK_SIZE i) c) (seq 0 nb) = Ok es ∧
      hs = [] ++ concat (et_chunk_hashes <$> es) ∧ covers ([] ++ concat (et_chunks <$> es)) hdl) prg) as Hs.
  { apply store_blocks_covers; [|by apply covers_nil]. intros i ei Hi%elem_of_seq Hei.
    rewrite (proj2 (Nat.eqb_neq (length data) 0)) in Hnb by (by destruct data).
    destruct (slice_length data DEFAULT_BLOCK_SIZE nb i Hnb) as [_ Hsl]; [lia|]. by destruct (encoded_hashes oc d p Hc _ ei Hei Hsl) as [Hh _]. }
  destruct (safe_run_log _ _ _ o prg w1 Ho Hw1 Hs) as (r & w2 & log & E1 & Hr & Hw2 & _). rewrite E1 in E.
  destruct r as [[hs hdl]|err|]; [|discriminate E..]. destruct (Hr hs hdl eq_refl) as (es & Hes & -> & Hcov). clear Hr Hs E1.
  assert (e = mkBlocks es DEFAULT_BLOCK_SIZE (length data)) as ->.
  { unfold encode_blocks in He. rewrite Hnb in He. cbn [mbind outcome_mbind] in He. rewrite Hes in He. by injection He as <-. }
  by eexists _, hdl, w2.
Qed.

(** A store that succeeded has sent each chunk to the peers picked for it. *)
Lemma store_uploads tx w sr w' :
  I (w_state w) → run o (do_store_tessera oc ctx data c tx) w = (Some (Ok sr), w') →
  ∀ x a, x ∈ tessera_chunks e → (x, a) ∈ kept → ∃ m, ESent a m ∈ w_log w' ∧ upload x m.
Proof.
  intros Hw E x a Hx Hk. destruct (store_prepared tx w sr w' Hw E) as (addr & hdl & w2 & [Hcov _] & _ & E2).
  destruct (Hcov x a Hx Hk) as (h & Hh & Ha & Hu). exists (di_msg h). split; [|exact Hu].
  destruct (run_bind_inv _ _ _ _ _ _ E2) as (ys & w3 & E3 & E4). eapply run_logged; [exact E4|]. by eapply distributions_sent.
Qed.

Lemma spread_spawned payload peers w r w' n :
  run o (spread ctx peers payload) w = (r, w') → n ∈ peers → has_addresses ctx n = true →
  ∃ m, ESpawned (TaskSend (ni_addresses n) m) ∈ w_log w' ∧ outgoing ctx m ∧ m_payload m = payload.
Proof.
  unfold spread. intros E Hn Ha. assert (n ∈ filter (λ n, has_addresses ctx n = true) peers) as Hin by by apply list_elem_of_filter.
  clear Hn Ha. revert w E Hin. induction (filter _ peers) as [|q l IH]; intros w E Hin; [by apply elem_of_nil in Hin|].
  cbn in E. apply elem_of_cons in Hin as [->|Hin]; [|eapply IH; [exact E|exact Hin]]. eexists. split.
  - eapply run_logged; [exact E|]. cbn [tick w_log]. apply elem_of_app. right. left.
  - split; [by apply outgoing_sign|]. unfold sign. by destruct (signing_bytes _).
Qed.

Lemma spread_manifest_spawned addr h bytes w r w' a :
  (∀ s, I s → announced h a s) → I (w_state w) → run o (spread_manifest ctx addr h bytes) w = (Some r, w') →
  ∃ m, ESpawned (TaskSend [a] m) ∈ w_log w' ∧ outgoing ctx m ∧ m_payload m = PutChunkRequest h bytes.
Proof.
  intros Han Hw (cl & w1 & E1 & (u & w2 & E2 & E3)%run_bind_inv)%run_bind_inv.
  cbn in E1. injection E1 as <- <-. destruct (Han _ (Ho (w_next w) _ Hw)) as (n & Hn & Ha & Haddr).
  destruct (spread_spawned _ _ _ _ _ n E2 Hn Ha) as (m & Hm & Hu). exists m. rewrite Haddr in Hm. split; [by eapply run_logged|exact Hu].
Qed.

(** Awaiting tasks of which none fails records no failure. *)
Definition answered : Prop :=
  (∀ n a m, ∃ resp, net o n a m = Ok resp) ∧ ∀ n l, l ≠ [] → ∃ resp, race_result l (races o n) = Ok resp.
Lemma distributions_answered hdl :
  answered → Forall (λ h, di_addrs h ≠ []) hdl →
  leads o I (results ← join_all hdl (run_distribution []); settle_all ctx (0%nat, []) results) (λ _ s, I s).
Proof.
  intros [Hnet Hrace] Hh. rewrite Forall_forall in Hh. eapply leads_bind.
  - apply (leads_join_all2 o I (λ _ x, ∃ resp, x.2 = Ok resp)). intros h Hin w Hw. specialize (Hh h Hin).
    unfold run_distribution. rewrite bool_decide_eq_false_2 by apply not_elem_of_nil. destruct (di_addrs h) as [|a [|b l]]; [done|..].
    all: eexists _, _; split; [reflexivity|]; split; [|by apply (Ho (w_next w))]; first [apply Hnet|by apply Hrace].
  - intros results. apply leads_pure. intros Hr. clear Hh. generalize (0%nat, @nil NodeId).
    induction Hr as [|h [q r] hdl' l [resp Hq] _ IH]; intros [n failed]; [by apply leads_ret|].
    cbn in Hq. subst r. cbn [settle_all settle]. repeat case_match; apply IH.
Qed.

(** Where no request failed, it has spawned a task that uploads the manifest to the peers closest to its hash. *)
Lemma manifest_spawned tx w sr w' bytes a :
  answered → (∀ s, I s → announced (sha256 bytes) a s) →
  rmp_to_vec (manifest_of (tessera_hashes e) c (length data) DEFAULT_BLOCK_SIZE) = inr bytes →
  I (w_state w) → run o (do_store_tessera oc ctx data c tx) w = (Some (Ok sr), w') →
  ∃ m, ESpawned (TaskSend [a] m) ∈ w_log w' ∧ upload bytes m.
Proof.
  intros HR Han Hb Hw E. destruct (store_prepared tx w sr w' Hw E) as (addr & hdl & w2 & [_ Hne'] & Hw2 & E2).
  destruct (run_bind_inv _ _ _ _ _ _ E2) as (results & w3 & E3 & E4). destruct (run_bind_inv _ _ _ _ _ _ E4) as (acc & w4 & E5 & E6).
  destruct (run_bind_inv _ _ _ _ _ _ E6) as (mh & w5 & E7 & E8). clear E E2 E4 E6.
  destruct (distributions_answered hdl HR Hne' w2 Hw2) as (acc' & w4' & E & Hw4).
  rewrite run_bind, E3, E5 in E. injection E as <- <-. unfold store_manifest in E7. rewrite Hb in E7.
  destruct (run_bind_inv _ _ _ _ _ _ E7) as (r & w6 & E9 & E10).
  destruct (safe_run_log _ _ _ o _ w4 Ho Hw4 (put_local_keeps (λ _, True) (sha256 bytes) bytes Ret ltac:(done)))
    as (r' & w6' & log' & E & _ & Hw6 & _).
  rewrite run_bind, E9 in E. injection E as <- <-.
  assert (w5 = w') as -> by (destruct mh; [exact (f_equal snd E8)|discriminate E8..]).
  destruct r as [[]|err|]; [|injection E10 as <- _; discriminate E8|discriminate E10].
  destruct (run_bind_inv _ _ _ _ _ _ E10) as (u & w7 & E11 & E12). injection E12 as <- <-. by eapply spread_manifest_spawned.
Qed.
End uploaded.
End uploads.

(** ** The journey *)
Lemma filter_length_mono {A} (Q Q' : A → Prop) `{!∀ x, Decision (Q x)} `{!∀ x, Decision (Q' x)} l :
  (∀ x, Q x → Q' x) → (length (filter Q l) ≤ length (filter Q' l))%nat.
Proof.
  intros HQ. induction l as [|x l IH]; [done|]. rewrite !filter_cons. repeat case_decide; cbn [length]; [lia|by exfalso; auto|lia|lia].
Qed.

Section journey.
Context `{Sha256} `{Ed25519} `{RS : ReedSolomon} `{Hex} `{Json (list SocketAddr)}.
Context `{Serde Payload} `{Serde Message} `{ML : SerdeLaws TesseraManifest PM}.
Context (oc : bool) (P : list Z → Prop) (d p : nat) `{!ReedSolomonLaws d p}.
Notation c := (mkConfig (Z.of_nat d) (Z.of_nat p)).
(** The storing node and the retrieving node. *)
Context (from_ctx to_ctx : HandlerContext) (from_o to_o : Oracle).
Context (base : path) (held : list (list Z)) (kept : list (list Z * SocketAddr)).

(** The node has sent [m] to [a], or a task it spawned does. *)
Definition sent_to (log : list effect) (a : SocketAddr) (m : Message) : Prop := ESent a m ∈ log ∨ ESpawned (TaskSend [a] m) ∈ log.
(** At [a] there is a node of this code that the retrieving node can talk to.  It accepts the uploads of [x] that are sent
    to it in [log]; from then on the network takes the retrieving node's requests for [x] to it and its replies back. *)
Definition looks_after (log : list effect) (a : SocketAddr) (x : list Z) : Prop :=
  ∃ B, host_ok P to_ctx B ∧ ∀ m, sent_to log a m → upload from_ctx x m →
    ∃ from w0 ack w, node_ok (h_ctx B) (w_state w0) ∧ host_stores P B [] (w_state w0) ∧
      handles oc B from m w0 ack w ∧ m_payload ack = PutChunkResponse true ∧
      ∀ i req, outgoing to_ctx req → m_payload req = GetChunkRequest (sha256 x) →
        ∃ from w1, since P B w w1 ∧ ∀ r w2, handles oc B from req w1 r w2 → net to_o i a req = Ok r.

(** An upload that was sent makes its host a keeper. *)
Lemma looks_after_keeper log a x m :
  x ≠ [] → P x → sent_to log a m → upload from_ctx x m → looks_after log a x → keeper oc P to_ctx to_o a x.
Proof.
  intros Hne HP Hm Hu (B & HB & Hall). destruct (Hall m Hm Hu) as (from & w0 & ack & w & Hs & Hst & Hh & Hack & Hreq).
  split; [done|]. split; [done|]. exists B, w. split; [done|]. split; [|by intros i req ??; apply Hreq].
  destruct Hu as [_ Hp]. by exists w0, from, m, ack.
Qed.

(** The tessera, the nodes, and the code's surroundings. *)
Context (Hser : ∀ m, is_Some (signing_bytes m)) (Hman : ∀ m, ∃ bytes, rmp_to_vec (A := TesseraManifest) m = inr bytes).
Context (Hc : config_ok d p) (Hinj : one_to_one P).
Context (data : list Z) (e : EncodedBlocks) (Hne : data ≠ []) (Hmax : Z.of_nat (length data) ≤ isize_max).
Context (He : encode_blocks oc data c DEFAULT_BLOCK_SIZE = Ok e) (HP : ∀ x, x ∈ tessera_chunks e → P x).
(** Enough chunks of each block are kept by somebody, or are on the retrieving node's own disk. *)
Context (Hsub : ∀ x, x ∈ kept.*1 → x ∈ tessera_chunks e).
Context (Hk : Forall (λ b, (d ≤ length (filter (λ x, x ∈ held ++ kept.*1) (et_chunks b)))%nat) (eb_blocks e)).
(** The storing node's other tasks keep its invariant; the retrieving node's disk reads back what it holds, and no timeout fires there. *)
Context (Ho : preserves (node_ok from_ctx) from_o) (Hmeet : meets (in_play P) to_o).
Context (Hread : held ≠ [] → ∀ n, f_read (am_fs (ambient to_o n)) = None) (Hdl : ∀ n, am_deadline (ambient to_o n) = None).

Lemma default_block_size_pos : (0 < DEFAULT_BLOCK_SIZE)%nat.
Proof. unfold DEFAULT_BLOCK_SIZE. lia. Qed.

(** The answer to a store, and the body that gave it. *)
Lemma store_answered tx i w sr w' :
  node_ok from_ctx (w_state w) →
  run from_o (handle_command oc from_ctx (StoreTesseraWithProgress data c tx i)) w = (Some (Some (i, Stored (Ok sr))), w') →
  run from_o (do_store_tessera oc from_ctx data c (Some tx)) w = (Some (Ok sr), w') ∧
  ∃ bytes, rmp_to_vec (manifest_of (tessera_hashes e) c (length data) DEFAULT_BLOCK_SIZE) = inr bytes ∧
    sr = mkStored (tessera_hashes e) c (length data) DEFAULT_BLOCK_SIZE (Some (sha256 bytes)).
Proof.
  intros Hw E. destruct (run_bind_inv _ _ _ _ _ _ E) as (r & w1 & E1 & E2). injection E2 as -> ->. split; [done|].
  destruct (safe_run_log _ _ _ from_o _ w Ho Hw (do_store_safe oc (R := nothing) from_ctx (λ _, True) (λ _, True)
    (λ _ _ _ _ _ _ _, Logic.I) d p data (Some tx) Hman Hc Hne (λ _ _, Logic.I))) as (r & w2 & log & E2 & [_ Hr] & _).
  rewrite E1 in E2. injection E2 as <- <-. destruct (Hr sr eq_refl) as (e' & bytes & He' & Hb & ->). rewrite He in He'. injection He' as <-. by exists bytes.
Qed.

(** The hosts of the chunks serve them. *)
Lemma uploads_served (I : NodeState → Prop) tx w sr w' :
  (∀ s, I s → picked from_ctx kept s) → (∀ s s', n_routing_table s' = n_routing_table s → I s → I s') →
  preserves I from_o → I (w_state w) →
  run from_o (do_store_tessera oc from_ctx data c tx) w = (Some (Ok sr), w') →
  (∀ x a, (x, a) ∈ kept → looks_after (w_log w') a x) → ∀ x a, (x, a) ∈ kept → serves to_ctx to_o a x.
Proof.
  intros HI Htab HoI Hw E Hafter x a Hx. assert (x ∈ tessera_chunks e) as Hxe by (apply Hsub, list_elem_of_fmap; by exists (x, a)).
  destruct (tessera_chunks_some oc d p Hc data DEFAULT_BLOCK_SIZE e Hne default_block_size_pos He) as [_ Hchs]. rewrite Forall_forall in Hchs.
  destruct (store_uploads oc from_ctx kept I HI Htab d p from_o data e Hc Hne He HoI tx w sr w' Hw E x a Hxe Hx) as (m & Hm & Hu).
  eapply keeper_serves; [done|done|]. eapply looks_after_keeper; [by apply Hchs|by apply HP|by left|exact Hu|by apply Hafter].
Qed.


End journey.

(** ** A concrete journey *)
(** The host of [Network] takes the uploads of [sample_ctx]; later a node without any chunk asks for two of the three chunks,
    or for the manifest first. *)
Definition refusal : Message := Message_new 1 (replicate 32 1) (replicate 32 1) (mkPow 0 0) (PutChunkResponse false).
Definition taking : Oracle := {|
  ambient := ambient sample_oracle; interfere := λ _ s, s;
  net := λ _ _ m, match replied (handled m host_world).2 with Ok r => Ok r | _ => Ok refusal end;
  races := λ _, [Completed 0 (Ok refusal)]; replies := λ _, Ok () |}.
Definition store_command : Command := StoreTesseraWithProgress sample_data (mkConfig (Z.of_nat 2) (Z.of_nat 1)) 5 1.
Definition stored_run : option reply * world := run taking (handle_command true sample_ctx store_command) (sample_world [host_peer]).
Definition upload_in (e : effect) : option Message :=
  match e with
  | ESent _ m | ESpawned (TaskSend _ m) => match m_payload m with PutChunkRequest _ _ => Some m | _ => None end
  | _ => None
  end.
Definition sent_uploads : list Message := omap upload_in (w_log stored_run.2).
Definition later : Oracle := network sent_uploads.
Definition big_kept : list (list Z * SocketAddr) := [([1; 2], sample_addr 4000); ([4; 0], sample_addr 4000)].
Definition manifest_bytes : list Z := match rmp_to_vec big_manifest with inr b => b | inl _ => [] end.
Definition all_kept : list (list Z * SocketAddr) := (manifest_bytes, sample_addr 4000) :: big_kept.

Lemma stored_run_ok : ∃ sr w', stored_run = (Some (Some (1%nat, Stored (Ok sr))), w').
Proof.
  assert ((match stored_run.1 with Some (Some (1%nat, Stored r)) => is_ok r | _ => false end) = true) as Hok by (vm_compute; reflexivity).
  destruct stored_run as [[[[[|[|n]] [| | |[sr|e|]|]]|]|] w']; try discriminate Hok. by exists sr, w'.
Qed.

Lemma taking_answers : answered taking.
Proof.
  split.
  - intros n a m. cbn [taking net]. destruct (replied _); by eexists.
  - intros n [|a l]; [done|]. intros _. by eexists.
Qed.

Lemma sent_taken : Forall (λ u, taken u = true) sent_uploads.
Proof.
  assert (forallb taken sent_uploads = true) as Hall by (vm_compute; reflexivity).
  rewrite Forall_forall. intros u Hu%list_elem_of_In. exact (proj1 (List.forallb_forall _ _) Hall u Hu).
Qed.

Lemma sent_kinds u : u ∈ sent_uploads → ∃ x, x ∈ big_bytes ∧ m_payload u = PutChunkRequest (sha256 x) x.
Proof.
  assert (forallb (λ u, match m_payload u with PutChunkRequest h x => bool_decide (h = sha256 x) && bool_decide (x ∈ big_bytes) | _ => false end)
    sent_uploads = true) as Hall by (vm_compute; reflexivity).
  intros Hu%list_elem_of_In. pose proof (proj1 (List.forallb_forall _ _) Hall u Hu) as Hc. cbn beta in Hc.
  destruct (m_payload u) as [| | | | |h x| | | | | | | | | | |]; try discriminate Hc.
  apply andb_true_iff in Hc as [Hh%bool_decide_eq_true Hx%bool_decide_eq_true]. exists x. split; [exact Hx|]. by rewrite Hh.
Qed.

Lemma sent_unique : NoDup (upload_hash <$> sent_uploads).
Proof. decide_compute. Qed.

Lemma later_meets : meets (in_play (λ x, x ∈ big_bytes)) later.
Proof. exact (network_meets _ big_one_to_one sent_uploads sent_taken sent_kinds). Qed.

(** The host is picked for the chunks, and is closest to the manifest's hash. *)
Definition big_picks (s : NodeState) : Prop := picked sample_ctx big_kept s ∧ announced sample_ctx (sha256 manifest_bytes) (sample_addr 4000) s.
Lemma big_picked : big_picks (w_state (sample_world [host_peer])).
Proof.
  split.
  - assert (Forall (λ x, host_peer ∈ recipients sample_ctx [] (closest_nodes (n_routing_table (w_state (sample_world [host_peer])))
      (from_bytes (sha256 x.1)) (cfg_k (c_config sample_ctx))) ∧ x.2 = sample_addr 4000) big_kept) as Hall by decide_compute.
    rewrite Forall_forall in Hall. intros x a Hx. destruct (Hall _ Hx) as [Hin Ha]. change (a = sample_addr 4000) in Ha. exists host_peer.
    split; [exact Hin|by rewrite Ha].
  - exists host_peer. split; [|split; reflexivity]. decide_compute.
Qed.

Lemma big_looked_after x a w' : w' = stored_run.2 → looks_after true (λ x, x ∈ big_bytes) sample_ctx sample_ctx later (w_log w') a x.
Proof.
  intros ->. exists host. split; [apply host_is_ok|]. intros m Hm [_ Hp].
  assert (m ∈ sent_uploads) as Hu by (apply list_elem_of_omap; destruct Hm as [Hm|Hm]; eexists; (split; [exact Hm|]); cbn; by rewrite Hp).
  destruct (taken_ok (λ x, x ∈ big_bytes) sent_uploads sent_taken m x Hu Hp) as [_ Hs].
  pose proof sent_taken as Hall. rewrite Forall_forall in Hall. destruct (taken_handled m (Hall m Hu)) as (r & Hh & Hr).
  exists (sample_addr 4100), host_world, r, (after_upload m).
  split_and!; [exact host_world_ok|apply host_empty|exact Hh|exact Hr|]. intros i req _ Hreq. exists (sample_addr 4100), (after_upload m).
  split; [by split|]. by apply (network_delivers sent_uploads sent_unique m x).
Qed.

(** The host is asked, as long as the table gives it for the hashes. *)
Definition asked_host (kept : list (list Z * SocketAddr)) (s : NodeState) : Prop :=
  Forall (λ x, Exists (λ n, ni_addresses n = [x.2]) (filter (λ n, has_addresses sample_ctx n = true)
    (take (cfg_k (c_config sample_ctx)) (closest_nodes (n_routing_table s) (from_bytes (sha256 x.1)) (cfg_k (c_config sample_ctx)))))) kept.
Lemma asked_obtainable kept s : asked_host kept s → obtainable sample_ctx ["chunks"] [] kept s.
Proof.
  unfold asked_host. rewrite Forall_forall. intros Hall. split; [intros x []%elem_of_nil|]. intros x a Hx.
  destruct (proj1 (Exists_exists _ _) (Hall _ Hx)) as (n & Hin & Ha). by exists n.
Qed.
Lemma empty_asks : asked_host all_kept (w_state (sample_world [host_peer])).
Proof. unfold asked_host. decide_compute. Qed.

Lemma empty_inv : node_inv (disk_in (λ x, x ∈ big_bytes)) sample_ctx (w_state (sample_world [host_peer])).
Proof.
  destruct (sample_node_ok [host_peer]) as [Ht Hl Hcn _]. split; [exact Ht|exact Hl|exact Hcn|]. intros q x.
  cbn [sample_world w_state sample_node n_chunks sample_store disk]. by rewrite lookup_empty.
Qed.

Lemma big_enough held : Forall (λ b, (2 ≤ length (filter (λ x, x ∈ held ++ big_kept.*1) (et_chunks b)))%nat) (eb_blocks big_tessera).
Proof.
  assert (Forall (λ b, (2 ≤ length (filter (λ x, x ∈ big_kept.*1) (et_chunks b)))%nat) (eb_blocks big_tessera)) as Hall by decide_compute.
  eapply Forall_impl; [exact Hall|]. intros b Hb. etrans; [exact Hb|]. apply filter_length_mono. intros x Hx. apply elem_of_app. by right.
Qed.
Lemma big_kept_in x : x ∈ big_kept.*1 → x ∈ tessera_chunks big_tessera.
Proof. assert (Forall (λ x, x ∈ tessera_chunks big_tessera) big_kept.*1) as Hall by decide_compute. rewrite Forall_forall in Hall. apply Hall. Qed.
Lemma big_chunks_in x : x ∈ tessera_chunks big_tessera → x ∈ big_bytes.
Proof. assert (Forall (λ x, x ∈ big_bytes) (tessera_chunks big_tessera)) as Hall by decide_compute. rewrite Forall_forall in Hall. apply Hall. Qed.


