(* ===== verification/Cli.v ===== *)
(** * The command line ([src/bin/tessera-node.rs])

    What [store] prints, how [get] reads it, [start], and [async_main]: the node each command starts, and
    what it does with it.  The result of a command is its output, the
    text it exits with status 1 with ([Err]), or a panic of an [expect].  Argument parsing
    ([clap]), other printing and the metrics exporter are left out. *)
From stdpp Require Import pretty.
From S2P Require Import Prelude.
From S2P Require Import Errors.
From S2P Require Import Bytes.
From S2P Require Import External.
From S2P Require Import Identity.
From S2P Require Import Net.
From S2P Require Import Samples.
From S2P Require Import Bucket.
From S2P Require Import Table.
From S2P Require Import Erasure.
From S2P Require Import Chunks.
From S2P Require Import Metadata.
From S2P Require Import RateLimit.
From S2P Require Import Message.
From S2P Require Import Actor.
From S2P Require Import Context.
From S2P Require Import Retrieve.
From S2P Require Import Store.
From S2P Require Import Startup.

Abbreviation exit A := (outcome string A).
(** [expect] on a result. *)
Definition expect {A} (r : res A) : exit A := match r with Ok a => Ok a | _ => Panic end.

(** ** Strings *)
(** [char::is_whitespace], as the UTF-8 bytes of each. *)
Definition bytes_to_string (l : list nat) : string := String.string_of_list_ascii (Ascii.ascii_of_nat <$> l).
Definition WHITESPACE : list string := bytes_to_string <$>
  ([[9]; [10]; [11]; [12]; [13]; [32]; [194; 133]; [194; 160]; [225; 154; 128]; [226; 128; 168]; [226; 128; 169]; [226; 128; 175];
    [226; 129; 159]; [227; 128; 128]] ++ ((λ b, [226; 128; b]) <$> seq 128 11))%nat.
Fixpoint strip_prefix (p s : string) : option string :=
  match p, s with
  | EmptyString, _ => Some s
  | String a p, String b s => if Ascii.eqb a b then strip_prefix p s else None
  | String _ _, EmptyString => None
  end.
Fixpoint trim_start (fuel : nat) (white : list string) (s : string) : string :=
  match fuel with
  | O => s
  | S fuel => match omap (λ w, strip_prefix w s) white with s' :: _ => trim_start fuel white s' | [] => s end
  end.
Definition reverse_string (s : string) : string := String.string_of_list_ascii (reverse (String.list_ascii_of_string s)).
(** [str::trim]. *)
Definition trim (s : string) : string :=
  let s := trim_start (String.length s) WHITESPACE s in
  reverse_string (trim_start (String.length s) (reverse_string <$> WHITESPACE) (reverse_string s)).

Definition COMMA : Ascii.ascii := Ascii.ascii_of_nat 44.
Definition PLUS : Ascii.ascii := Ascii.ascii_of_nat 43.
(** [str::split] at commas. *)
Fixpoint split_commas (s : string) : list string :=
  match s with
  | EmptyString => [EmptyString]
  | String c s =>
    if Ascii.eqb c COMMA then EmptyString :: split_commas s
    else match split_commas s with w :: l => String c w :: l | [] => [String c EmptyString] end
  end.
(** [join(",")]. *)
Fixpoint join (l : list string) : string :=
  match l with [] => EmptyString | [s] => s | s :: l => s +:+ String COMMA (join l) end.

(** [str::parse::<u32>]. *)
Definition digit (c : Ascii.ascii) : option Z :=
  let n := Z.of_nat (Ascii.nat_of_ascii c) in if (48 <=? n) && (n <=? 57) then Some (n - 48) else None.
Fixpoint digits (acc : Z) (s : string) : option Z :=
  match s with
  | EmptyString => Some acc
  | String c s => match digit c with
                  | Some d => if 10 * acc + d <=? 2 ^ 32 - 1 then digits (10 * acc + d) s else None
                  | None => None
                  end
  end.
Definition parse_u32 (s : string) : option Z :=
  match s with
  | EmptyString => None
  | String c s' => if Ascii.eqb c PLUS then (if bool_decide (s' = EmptyString) then None else digits 0 s') else digits 0 s
  end.

(** ** [store] and [get] *)
(** The arguments of [get] that [store] prints. *)
Record GetArgs := mkGet {
  ga_hashes : string;
  ga_data_shards : Z;
  ga_parity_shards : Z;
  ga_original_len : nat;
}.

(** The arguments of [start], but the address of the metrics exporter. *)
Record StartArgs := mkStartArgs {
  sa_listen : SocketAddr;
  sa_storage : path;
  sa_bootstrap : list SocketAddr;
  sa_pow_difficulty : Z;
}.

Inductive Commands : Type :=
  | Start (a : StartArgs)
  | Store (connect : SocketAddr) (file : path) (data_shards parity_shards pow_difficulty : Z)
  | Get (connect : SocketAddr) (a : GetArgs) (output : path) (pow_difficulty : Z).

(** What a command that ends well leaves: what [start] prints of its bootstrap, what [store] prints, what [get] writes. *)
Inductive Output : Type :=
  | Running (lines : list string)
  | Printed (a : GetArgs)
  | Wrote (output : path) (data : list Z).

(** The surroundings of a command. *)
Record CliEnv := mkCli {
  ce_start : StartEnv;
  ce_write_rate : option string;
  ce_write_burst : option string;
  ce_signal_fails : bool;
  ce_temp : res path;
  ce_read : path → res (list Z);
  ce_write_fails : path → bool;
}.

(** A node, and what the command does with it. *)
Record Started := mkStarted {
  st_ctx : HandlerContext;
  st_state : NodeState;
  st_body : prog (exit Output);
}.

Section commands.
Context `{Hex} {HD : HexDecode}.
Context (oc : bool).

Definition store_report (result : StoreTesseraResult) : GetArgs :=
  mkGet (join (hex_encode <$> sr_chunk_hashes result)) (data_shards (sr_config result)) (parity_shards (sr_config result))
    (sr_original_len result).

Definition parse_hash (h : string) : exit (list Z) :=
  match hex_decode (trim h) with
  | inl e => Err ("error: invalid hex in --hashes: " +:+ e)
  | inr bytes =>
    if negb (length bytes =? 32)%nat
    then Err ("error: each hash must be 32 bytes (64 hex chars), got " +:+ pretty (Z.of_nat (length bytes)))
    else Ok bytes
  end.

(** The checks of [cmd_get] before it starts a node. *)
Definition get_request (a : GetArgs) : exit StoreTesseraResult :=
  chunk_hashes ← mapM_outcome parse_hash (split_commas (ga_hashes a));
  config ← expect (ErasureConfig_new oc (ga_data_shards a) (ga_parity_shards a));
  expected ← expect (total_shards oc config);
  if negb (Z.of_nat (length chunk_hashes) =? expected) then
    Err ("error: expected " +:+ pretty expected +:+ " hashes (data_shards + parity_shards), got " +:+ pretty (Z.of_nat (length chunk_hashes)))
  else Ok (mkStored chunk_hashes config (ga_original_len a) 0 None).
End commands.

Section running.
Context `{Sha256} `{Ed25519} `{ReedSolomon} `{Hex} {HD : HexDecode} `{Json (list SocketAddr)}.
Context `{Serde Payload} `{Serde Message} `{Serde TesseraManifest}.
Context (oc : bool).

(** [make_ephemeral_node]: a new identity, a database in memory, a chunk store in a new directory. *)
Definition ephemeral_config (pow_difficulty : Z) : NodeConfig :=
  let d := NodeConfig_default in
  mkNodeConfig (cfg_k d) (cfg_alpha d) (cfg_max_failures d) (cfg_max_relay_hops d) (cfg_max_relay_payload d)
    (cfg_relay_rate_per_second d) (cfg_relay_rate_burst d) (cfg_provider_ttl d) (cfg_rt_save_interval d)
    (cfg_provider_republish_interval d) pow_difficulty (cfg_command_channel_size d) (cfg_bucket_refresh_interval d)
    (cfg_max_chunks_per_peer d) (cfg_write_rate_per_second d) (cfg_write_rate_burst d) (cfg_max_concurrent_handlers d)
    true (cfg_erasure_config d) (cfg_proactive_replication d) (cfg_replication_concurrency d).
Definition make_ephemeral_node (fuel : nat) (env : CliEnv) (pow_difficulty : Z) : option (exit (HandlerContext * NodeState)) :=
  let start := ce_start env in
  let keypair := from_secret_bytes (se_secret start) in
  match pow_generate fuel (public_key_bytes keypair) pow_difficulty with
  | None => None
  | Some pow => Some (
      dir ← expect (ce_temp env);
      metadata ← expect (_ ← se_metadata start; Ok init_tables);
      chunks ← expect (ChunkStore_new (se_fs start) (dir ++ ["chunks"]) 1000000000 ∅);
      local_addr ← expect (se_bind start (mkAddr (V4 0 0 0 0) 0));
      let config := ephemeral_config pow_difficulty in
      state ← expect (spawn_node (se_peers start) (se_clock start) keypair metadata chunks config);
      Ok (mkContext keypair pow (keypair_node_id keypair) local_addr config, state))
  end.

(** A method of the handle: when the actor or its task panics, the reply channel is dropped. *)
Definition ask {A} (p : prog (res A)) : prog (res A) := r ← catch p; Ret (default (Err (Network "node stopped")) r).

(** [cmd_store] on the ephemeral node, once the file is read. *)
Definition cmd_store (ctx : HandlerContext) (connect_addr : SocketAddr) (data_shards parity_shards : Z) (data : list Z)
    : prog (exit Output) :=
  b ← ask (do_bootstrap ctx [connect_addr]);
  match b with
  | Ok _ =>
    match ErasureConfig_new oc data_shards parity_shards with
    | Ok config =>
      r ← ask (do_store_tessera oc ctx data config None);
      Ret (match r with
           | Ok result => Ok (Printed (store_report result))
           | Err e => Err ("Store failed: " +:+ error_to_string e)
           | Panic => Panic
           end)
    | _ => Ret Panic
    end
  | Err e => Ret (Err ("Bootstrap failed: " +:+ error_to_string e))
  | Panic => Ret Panic
  end.

(** [cmd_get] on the ephemeral node, once the arguments are read; [fails]: the output cannot be written. *)
Definition cmd_get (ctx : HandlerContext) (connect_addr : SocketAddr) (output_path : path) (fails : bool) (result : StoreTesseraResult)
    : prog (exit Output) :=
  b ← ask (do_bootstrap ctx [connect_addr]);
  match b with
  | Ok _ =>
    r ← ask (do_retrieve_tessera oc ctx (sr_chunk_hashes result) (sr_config result) (Z.of_nat (sr_original_len result))
               (Z.of_nat (sr_block_size result)) (sr_manifest_hash result) None);
    Ret (match r with
         | Ok data => if fails : bool then Panic else Ok (Wrote output_path data)
         | Err e => Err ("Retrieve failed: " +:+ error_to_string e)
         | Panic => Panic
         end)
  | Err e => Ret (Err ("Bootstrap failed: " +:+ error_to_string e))
  | Panic => Ret Panic
  end.

(** ** [start] *)
(** The saved identity or a new one; here every failure of the store ends the program. *)
Definition start_identity (fuel : nat) (load save : option string) (secret : list Z) (pow_difficulty : Z) (m : MetadataStore)
    : option (MetadataStore * exit (Keypair * PowProof)) :=
  match load_identity load m with
  | Ok (Some (sk, n, d)) => Some (m, Ok (from_secret_bytes sk, mkPow n d))
  | Ok None =>
    let kp := from_secret_bytes secret in
    match pow_generate fuel (public_key_bytes kp) pow_difficulty with
    | None => None
    | Some pow =>
      let '(m, r) := save_identity save m (secret_bytes kp) (nonce pow) (difficulty pow) in
      Some (m, _ ← expect r; Ok (kp, pow))
    end
  | _ => Some (m, Panic)
  end.

(** The default configuration, with the difficulty and the two rates of the environment. *)
Definition start_config (pow_difficulty : Z) (write_rate write_burst : option string) : NodeConfig :=
  let d := NodeConfig_default in
  mkNodeConfig (cfg_k d) (cfg_alpha d) (cfg_max_failures d) (cfg_max_relay_hops d) (cfg_max_relay_payload d)
    (cfg_relay_rate_per_second d) (cfg_relay_rate_burst d) (cfg_provider_ttl d) (cfg_rt_save_interval d)
    (cfg_provider_republish_interval d) pow_difficulty (cfg_command_channel_size d) (cfg_bucket_refresh_interval d)
    (cfg_max_chunks_per_peer d) (default (cfg_write_rate_per_second d) (write_rate ≫= parse_u32))
    (default (cfg_write_rate_burst d) (write_burst ≫= parse_u32)) (cfg_max_concurrent_handlers d)
    (cfg_client_mode d) (cfg_erasure_config d) (cfg_proactive_replication d) (cfg_replication_concurrency d).

(** [cmd_start] until the node runs; [None]: the proof-of-work search has not ended within the fuel. *)
Definition start_node (fuel : nat) (env : StartEnv) (write_rate write_burst : option string) (a : StartArgs)
    : option (exit (HandlerContext * NodeState)) :=
  let setup :=
    _ ← expect (match se_dir env with Some e => Err (Io e) | None => Ok () end);
    metadata ← expect (se_metadata env);
    chunks ← expect (ChunkStore_new (se_fs env) (sa_storage a ++ ["chunks"]) 1000000000 (se_disk env));
    Ok (metadata, chunks) in
  match setup with
  | Ok (metadata, chunks) =>
    match start_identity fuel (se_load env) (se_save env) (se_secret env) (sa_pow_difficulty a) metadata with
    | None => None
    | Some (metadata, identity) => Some (
        '(kp, pow) ← identity;
        local_addr ← expect (se_bind env (sa_listen a));
        let config := start_config (sa_pow_difficulty a) write_rate write_burst in
        state ← expect (spawn_node (se_peers env) (se_clock env) kp metadata chunks config);
        Ok (mkContext kp pow (keypair_node_id kp) local_addr config, state))
    end
  | Err e => Some (Err e)
  | Panic => Some Panic
  end.

(** The rest of [cmd_start]: what it prints of the bootstrap, until the signal that ends it, whose wait can fail. *)
Definition start_run (ctx : HandlerContext) (signal_fails : bool) (a : StartArgs) : prog (exit Output) :=
  lines ← (if bool_decide (sa_bootstrap a = []) then Ret []
           else r ← ask (do_bootstrap ctx (sa_bootstrap a));
                Ret [match r with Ok _ => "Bootstrap complete" | Err e => "Bootstrap error: " +:+ error_to_string e | Panic => "" end]);
  Ret (if signal_fails then Panic else Ok (Running lines)).

(** [async_main]: a command starts a node, or stops before; then its body runs on it. *)
Definition async_main (fuel : nat) (env : CliEnv) (command : Commands) : option (exit Started) :=
  match command with
  | Start a =>
    started ← start_node fuel (ce_start env) (ce_write_rate env) (ce_write_burst env) a;
    Some ('(ctx, state) ← started; Ok (mkStarted ctx state (start_run ctx (ce_signal_fails env) a)))
  | Store connect file data_shards parity_shards pow_difficulty =>
    match expect (ce_read env file) with
    | Ok data =>
      started ← make_ephemeral_node fuel env pow_difficulty;
      Some ('(ctx, state) ← started; Ok (mkStarted ctx state (cmd_store ctx connect data_shards parity_shards data)))
    | Err e => Some (Err e)
    | Panic => Some Panic
    end
  | Get connect a output_path pow_difficulty =>
    match get_request oc a with
    | Ok result =>
      started ← make_ephemeral_node fuel env pow_difficulty;
      Some ('(ctx, state) ← started; Ok (mkStarted ctx state (cmd_get ctx connect output_path (ce_write_fails env output_path) result)))
    | Err e => Some (Err e)
    | Panic => Some Panic
    end
  end.
End running.

(** ** What [get] makes of what [store] prints *)
Definition printable (s : string) : Prop := Forall (λ c, is_hex_digit c = true) (String.list_ascii_of_string s).

Lemma hex_digit_not c n : is_hex_digit c = true → (n < 48 ∨ 57 < n < 97 ∨ 102 < n)%nat → (n < 256)%nat → Ascii.eqb c (Ascii.ascii_of_nat n) = false.
Proof.
  intros Hc Hn Hb. destruct (Ascii.eqb_spec c (Ascii.ascii_of_nat n)) as [->|]; [|done]. unfold is_hex_digit in Hc.
  rewrite Ascii.nat_ascii_embedding in Hc by done. apply orb_true_iff in Hc as [Hc|Hc]; apply andb_true_iff in Hc as [H1 H2];
    apply Nat.leb_le in H1, H2; lia.
Qed.

Lemma hex_digit_not_comma c : is_hex_digit c = true → Ascii.eqb c COMMA = false.
Proof. intros Hc. apply (hex_digit_not c 44); [done|lia|lia]. Qed.

Lemma split_join l : l ≠ [] → Forall printable l → split_commas (join l) = l.
Proof.
  assert (∀ s, printable s → split_commas s = [s]) as Hone.
  { induction s as [|c s IH]; [done|]. intros [Hc Hs]%Forall_cons. cbn [split_commas].
    rewrite (hex_digit_not_comma c) by done. by rewrite IH. }
  induction l as [|s l IH]; [done|]. intros _ [Hs Hl]%Forall_cons. destruct l as [|s' l]; [by apply Hone|].
  assert (split_commas (join (s' :: l)) = s' :: l) as E by by apply IH. change (join (s :: s' :: l)) with (s +:+ String COMMA (join (s' :: l))). revert E. generalize (join (s' :: l)).
  intros k E. clear IH Hl Hone. induction s as [|c s IHs].
  - change (EmptyString :: split_commas k = EmptyString :: s' :: l). by rewrite E.
  - apply Forall_cons in Hs as [Hc Hs]. change (String c s +:+ String COMMA k) with (String c (s +:+ String COMMA k)). cbn [split_commas].
    rewrite (hex_digit_not_comma c) by done. by rewrite IHs.
Qed.

(** No whitespace to trim. *)
Lemma trim_start_none fuel white s : (∀ w, w ∈ white → strip_prefix w s = None) → trim_start fuel white s = s.
Proof.
  intros Hw. destruct fuel as [|fuel]; [done|]. cbn [trim_start]. assert (omap (λ w, strip_prefix w s) white = []) as ->; [|done].
  induction white as [|w white IH]; [done|]. cbn [omap list_omap]. rewrite (Hw w) by left. apply IH. intros v Hv. apply Hw. by right.
Qed.

Definition starts_outside (w : string) : bool := match w with String a _ => negb (is_hex_digit a) | EmptyString => false end.
Lemma no_white white s : Forall (λ w, starts_outside w = true) white → printable s → ∀ w, w ∈ white → strip_prefix w s = None.
Proof.
  intros Hw Hs w Hin. rewrite Forall_forall in Hw. specialize (Hw w Hin). destruct w as [|a w]; [done|]. destruct s as [|c s]; [done|].
  apply Forall_cons in Hs as [Hc _]. cbn in *. destruct (Ascii.eqb_spec a c) as [->|]; [|done]. by rewrite Hc in Hw.
Qed.

Lemma printable_reverse s : printable s → printable (reverse_string s).
Proof.
  unfold printable, reverse_string. rewrite String.list_ascii_of_string_of_list_ascii. intros Hs. by rewrite reverse_Permutation.
Qed.

Lemma reverse_string_twice s : reverse_string (reverse_string s) = s.
Proof.
  unfold reverse_string. by rewrite String.list_ascii_of_string_of_list_ascii, reverse_involutive, String.string_of_list_ascii_of_string.
Qed.

Lemma trim_printable s : printable s → trim s = s.
Proof.
  intros Hs. unfold trim. rewrite (trim_start_none _ WHITESPACE).
  2:{ apply no_white; [|done]. repeat constructor. }
  rewrite trim_start_none; [apply reverse_string_twice|]. apply no_white; [|by apply printable_reverse]. repeat constructor.
Qed.

Section theorems.
Context `{Sha256} `{RS : ReedSolomon} `{Hex} {HD : HexDecode} `{Serde TesseraManifest}.

Lemma parse_hash_encode h : array_ok 32 h → parse_hash (hex_encode h) = Ok h.
Proof.
  intros [Hl Hb]. unfold parse_hash. rewrite trim_printable by (by apply hex_encode_digits). rewrite hex_decode_encode by done. by rewrite Hl.
Qed.

Lemma parse_hashes hs : hs ≠ [] → Forall (array_ok 32) hs → mapM_outcome parse_hash (split_commas (join (hex_encode <$> hs))) = Ok hs.
Proof.
  intros Hne Hs. rewrite split_join.
  - apply mapM_outcome_Ok, Forall2_fmap_l, Forall2_same_length_lookup. split; [done|]. intros i x y Hx Hy.
    assert (x = y) as -> by congruence. apply parse_hash_encode. by eapply Forall_lookup_1.
  - by destruct hs.
  - apply Forall_fmap. eapply Forall_impl; [exact Hs|]. intros h [_ Hb]. by apply hex_encode_digits.
Qed.

Lemma config_new oc d p : config_ok d p → ErasureConfig_new oc (Z.of_nat d) (Z.of_nat p) = Ok (mkConfig (Z.of_nat d) (Z.of_nat p)).
Proof.
  intros (Hd & Hp & Hs). unfold ErasureConfig_new. rewrite usize_arith_ok by (unfold usize_max; lia).
  rewrite !(proj2 (Z.eqb_neq _ 0)) by lia. cbn [mbind outcome_mbind]. by rewrite (proj2 (Z.ltb_ge 256 _)) by lia.
Qed.

Lemma length_concat_all {A} n (l : list (list A)) : Forall (λ b, length b = n) l → length (concat l) = (length l * n)%nat.
Proof. induction 1 as [|b l Hb _ IH]; [done|]. cbn [concat length]. rewrite length_app, Hb, IH. lia. Qed.

(** The hashes of a tessera: one configuration's worth per block. *)
Lemma tessera_hashes_shape oc d p `{!ReedSolomonLaws d p} data bs e :
  config_ok d p → data ≠ [] → (0 < bs)%nat → encode_blocks oc data (mkConfig (Z.of_nat d) (Z.of_nat p)) bs = Ok e →
  ∃ nb, div_ceil (length data) bs = Ok nb :> res nat ∧ length (tessera_hashes e) = (nb * (d + p))%nat ∧
    Forall (array_ok 32) (tessera_hashes e).
Proof.
  intros Hc Hne Hbs He. destruct (encode_blocks_ok oc d p Hc data bs Hbs Hne) as (nb & bl & Hnb & E & Hall).
  rewrite E in He. injection He as <-. exists nb. split; [done|]. unfold tessera_hashes. cbn [eb_blocks].
  destruct (tessera_hashes_chunks oc d p Hc data bs nb bl Hnb Hall) as [-> Hl]. split.
  - rewrite length_fmap, (length_concat_all _ _ Hl), length_fmap, <-(Forall2_length _ _ _ Hall), length_seq. done.
  - apply Forall_fmap, Forall_forall. intros x _. apply sha256_ok.
Qed.

Lemma blocks_one_or_more n bs nb : (0 < n)%nat → div_ceil n bs = Ok nb :> res nat → if (n <=? bs)%nat then nb = 1%nat else (2 ≤ nb)%nat.
Proof.
  intros Hn [Hle Hlt]%div_ceil_bounds. destruct (Nat.leb_spec n bs).
  - destruct nb as [|[|nb]]; [lia|done|]. assert (bs * 2 ≤ bs * S (S nb))%nat by (apply Nat.mul_le_mono_l; lia). lia.
  - destruct nb as [|[|nb]]; lia.
Qed.

(** What [get] makes of what [store] prints. *)
Lemma get_request_report oc d p `{!ReedSolomonLaws d p} data sr :
  let c := mkConfig (Z.of_nat d) (Z.of_nat p) in
  config_ok d p → data ≠ [] → reports oc data c sr →
  if (length data <=? DEFAULT_BLOCK_SIZE)%nat then
    get_request oc (store_report sr) = Ok (mkStored (sr_chunk_hashes sr) c (length data) 0 None) ∧
    ∃ e, encode oc data c = Ok e ∧ sr_chunk_hashes sr = sha256 <$> et_chunks e ∧ ∀ x, x ∈ et_chunks e → written oc data c x
  else ∃ got : Z, get_request oc (store_report sr) =
    Err ("error: expected " +:+ pretty (Z.of_nat (d + p)) +:+ " hashes (data_shards + parity_shards), got " +:+ pretty got).
Proof.
  intros c Hc Hne (e & bytes & He & _ & ->). subst c. unfold written.
  assert (0 < DEFAULT_BLOCK_SIZE)%nat as Hbs by (unfold DEFAULT_BLOCK_SIZE; lia). revert He Hbs. generalize DEFAULT_BLOCK_SIZE. intros bs He Hbs.
  destruct (tessera_hashes_shape oc d p data bs e Hc Hne Hbs He) as (nb & Hnb & Hlen & Hok).
  assert (0 < length data)%nat as Hpos by (destruct data; [done|cbn; lia]). pose proof (blocks_one_or_more _ _ _ Hpos Hnb) as Hcount.
  pose proof Hc as (Hd & Hp & Hs). unfold get_request, store_report.
  cbn [ga_hashes ga_data_shards ga_parity_shards ga_original_len sr_chunk_hashes sr_config sr_original_len].
  cbn [data_shards parity_shards]. rewrite parse_hashes; [|intros E; rewrite E in Hlen; destruct nb; cbn in *; [destruct (_ <=? _)%nat; lia|lia]|done].
  cbn [mbind outcome_mbind]. rewrite config_new by done. cbn [expect mbind outcome_mbind]. rewrite total_shards_ok by done.
  cbn [expect mbind outcome_mbind]. destruct (length data <=? bs)%nat eqn:Eb.
  - subst nb. rewrite Hlen, Nat.mul_1_l, Z.eqb_refl. cbn [negb]. split; [done|].
    destruct (encode_ok oc d p Hc data Hne) as (? & word & ? & Eenc & _ & Hl & _).
    apply Nat.leb_le in Eb. pose proof (encode_single oc data _ bs _ Hne Eb Eenc) as Es. rewrite Es in He. injection He as <-.
    eexists. split; [exact Eenc|]. split; [unfold tessera_hashes; cbn; by rewrite app_nil_r|]. intros y Hy. eexists. split; [exact Es|].
    left. unfold tessera_chunks. cbn. by rewrite app_nil_r.
  - exists (Z.of_nat (length (tessera_hashes e))). rewrite (proj2 (Z.eqb_neq _ _)); [done|]. rewrite Hlen.
    assert (2 * (d + p) ≤ nb * (d + p))%nat by (apply Nat.mul_le_mono_r; lia). lia.
Qed.

(** What [store] prints for data of one block, [get] reads back: the same hashes, configuration and
    length, as a single block; and any [data_shards] intact chunks then decode to the data.  For data
    of more than one block [get] refuses what [store] printed, since it expects the hashes of exactly
    one block. *)
Theorem get_reads_store oc d p `{!ReedSolomonLaws d p} data sr :
  let c := mkConfig (Z.of_nat d) (Z.of_nat p) in
  config_ok d p → data ≠ [] → Z.of_nat (length data) ≤ isize_max → reports oc data c sr →
  if (length data <=? DEFAULT_BLOCK_SIZE)%nat then
    get_request oc (store_report sr) = Ok (mkStored (sr_chunk_hashes sr) c (length data) 0 None) ∧
    ∃ chunks, sr_chunk_hashes sr = sha256 <$> chunks ∧
      ∀ shards, survives chunks shards → (d ≤ present shards)%nat → decode_shards oc shards c (Z.of_nat (length data)) 0 = Ok data
  else ∃ got : Z, get_request oc (store_report sr) =
    Err ("error: expected " +:+ pretty (Z.of_nat (d + p)) +:+ " hashes (data_shards + parity_shards), got " +:+ pretty got).
Proof.
  intros c Hc Hne Hmax Hr. pose proof (get_request_report oc d p data sr Hc Hne Hr) as Hget. destruct (_ <=? _)%nat; [|done].
  destruct Hget as [Hget (e & He & Hh & _)]. split; [done|]. exists (et_chunks e). split; [done|]. intros shards Hsurv Hpres.
  unfold decode_shards. cbn [Z.eqb]. exact (decode_encoded oc d p Hc data e shards Hne Hmax He Hsurv Hpres).
Qed.
End theorems.

(** ** Starting *)
Section starting.
Context `{Sha256} `{Ed25519} `{Json (list SocketAddr)}.

(** Every step before the actor runs succeeds. *)
Record ready (env : StartEnv) (a : StartArgs) (m : MetadataStore) : Prop := {
  rd_dir : se_dir env = None;
  rd_metadata : se_metadata env = Ok m;
  rd_chunks : is_ok (ChunkStore_new (se_fs env) (sa_storage a ++ ["chunks"]) 1000000000 (se_disk env)) = true;
  rd_load : is_ok (load_identity (se_load env) m) = true;
  rd_save : load_identity (se_load env) m = Ok None → se_save env = None;
  rd_bind : is_ok (se_bind env (sa_listen a)) = true;
}.

(** What [start] runs with is what the database holds. *)
Lemma start_identity_saved fuel load save secret d m m' r :
  u8_ok d → Z.of_nat fuel ≤ u64_max → length secret = 32%nat → start_identity fuel load save secret d m = Some (m', r) →
  match r with
  | Ok (kp, pow) => load_identity None m' = Ok (Some (secret_bytes kp, nonce pow, difficulty pow)) ∧
      is_ok (load_identity load m) = true ∧ (load_identity load m = Ok None → save = None)
  | Err _ => False
  | Panic => is_ok (load_identity load m) = false ∨ load_identity load m = Ok None ∧ save ≠ None
  end.
Proof.
  intros Hd Hfuel Hsec. unfold start_identity. destruct (load_identity load m) as [[[[sk n] d']|]|e|] eqn:El.
  - intros [= <- <-]. cbn. split; [|done]. destruct load; [done|]. exact El.
  - destruct (pow_generate fuel _ _) as [pow|] eqn:Epow; [|done]. unfold pow_generate in Epow.
    apply pow_search_spec in Epow as (Hdp & Hn & _). unfold save_identity. destruct save as [e|]; cbn; intros [= <- <-]; [by right|].
    split; [|done]. unfold load_identity. cbn. unfold blob_to_array. rewrite bool_decide_eq_true_2 by done.
    rewrite as_i64_u64 by (unfold u64_max in *; lia). unfold as_u8, u8_ok in *. rewrite Z.mod_small by (rewrite Hdp; lia). done.
  - intros [= <- <-]. by left.
  - intros [= <- <-]. by left.
Qed.

Lemma spawn_node_fresh load clock kp m chunks config :
  (0 < cfg_k config)%nat → ∃ s, spawn_node load clock kp m chunks config = Ok s ∧ n_metadata s = m ∧
    ∀ pow local, node_ok (mkContext kp pow (keypair_node_id kp) local config) s.
Proof.
  intros Hk. destruct (spawn_node_state load clock kp m chunks config Hk) as (s & E & Em & _ & _ & _ & Hs). by exists s.
Qed.

(** C18: [start] never runs with an identity that is not on the database: when every step before the actor
    succeeds, the node starts in a state that satisfies the invariant, with the configuration of the
    arguments and of the environment, and the next start loads the identity it has.  When any step fails (the
    directory, the database, the chunk store, reading the identity, saving a new one, binding) it
    panics, and never exits with a message. *)
Theorem start_node_outcome fuel env write_rate write_burst a r :
  u8_ok (sa_pow_difficulty a) → Z.of_nat fuel ≤ u64_max → length (se_secret env) = 32%nat →
  start_node fuel env write_rate write_burst a = Some r →
  match r with
  | Ok (ctx, s) => (∃ m, ready env a m) ∧ node_ok ctx s ∧
      c_config ctx = start_config (sa_pow_difficulty a) write_rate write_burst ∧
      load_identity None (n_metadata s) = Ok (Some (secret_bytes (c_keypair ctx), nonce (c_pow ctx), difficulty (c_pow ctx)))
  | Err _ => False
  | Panic => ∀ m, ¬ ready env a m
  end.
Proof.
  intros Hd Hfuel Hsec. unfold start_node. destruct (se_dir env) eqn:Ed; cbn.
  { intros [= <-] m []. congruence. }
  destruct (se_metadata env) as [m|e|] eqn:Em; cbn; [|intros [= <-] m []; congruence..].
  destruct (ChunkStore_new _ _ _ _) as [chunks|e|] eqn:Ec; cbn; [|intros [= <-] m' [_ _ Hc _ _ _]; by rewrite Ec in Hc..].
  destruct (start_identity _ _ _ _ _ _) as [[m1 id]|] eqn:Ei; [|done].
  pose proof (start_identity_saved _ _ _ _ _ _ _ _ Hd Hfuel Hsec Ei) as Hid. intros [= <-].
  assert (∀ m', ready env a m' → m' = m) as Hm by (intros m' []; congruence).
  destruct id as [[kp pow]|e|]; cbn; [|done|].
  2:{ intros m' Hr. rewrite <-(Hm m' Hr) in Hid. destruct Hr as [_ _ _ Hl Hs _]. destruct Hid as [Hid|[Hn Hf]]; [congruence|by apply Hf, Hs]. }
  destruct Hid as (Hid & Hl & Hs). destruct (se_bind env (sa_listen a)) as [addr|e|] eqn:Eb; cbn;
    [|intros m' [_ _ _ _ _ Hb]; by rewrite Eb in Hb..].
  destruct (spawn_node_fresh (se_peers env) (se_clock env) kp m1 chunks (start_config (sa_pow_difficulty a) write_rate write_burst))
    as (s & E & Hm1 & Hok); [cbn; lia|]. rewrite E. cbn. rewrite Hm1. split_and!; [exists m; split; try done; [by rewrite Ec|by rewrite Eb]|apply Hok|done|done].
Qed.
End starting.

(** ** A file stored by one node and fetched by another *)
Section ask.
Context (R : expectations) (I : NodeState → Prop) (G : effect → Prop) (Hno : ¬ may_panic R).
Notation safely := (safe_if R I G).

Lemma ask_safe {A B} (Q : res A → Prop) (Q' : B → Prop) (p : prog (res A)) (k : res A → prog B) :
  safely Q p → (∀ r, Q r → safely Q' (k r)) → safely Q' (ask p ≫= k).
Proof.
  intros Hp Hk. apply safe_bind, safe_bind. eapply safe_mono; [done| |by eapply safe_catch_some].
  intros r (a & -> & Ha). by apply Hk.
Qed.
End ask.

Section journey.
Context `{Sha256} `{Ed25519} `{RS : ReedSolomon} `{Hex} {HD : HexDecode} `{Json (list SocketAddr)}.
Context `{Serde Payload} `{Serde Message} `{Serde TesseraManifest}.
Context (oc : bool) (d p : nat) `{!ReedSolomonLaws d p} (Hc : config_ok d p).
Notation c := (mkConfig (Z.of_nat d) (Z.of_nat p)).

(** The chunks of one block, with block size 0. *)
Lemma single_identify P data e :
  one_to_one P → data ≠ [] → Z.of_nat (length data) ≤ isize_max → encode oc data c = Ok e → Forall P (et_chunks e) →
  identify oc P d p (sha256 <$> et_chunks e) 0 data.
Proof.
  intros Hinj Hne Hmax He HP shards Hsh. unfold decode_shards. cbn [Z.of_nat Z.eqb]. rewrite Forall2_fmap_l in Hsh.
  rewrite (decode_survive oc d p Hc data e shards Hne Hmax He).
  - destruct (decide _); [by left|right]. exists (present shards). split; [lia|done].
  - apply Forall2_same_length_lookup. split; [exact (Forall2_length _ _ _ Hsh)|]. intros i x s Hx Hs.
    exact (obtained_exact P (sha256 x) x s Hinj (Forall_lookup_1 _ _ _ _ HP Hx) eq_refl (Forall2_lookup_lr _ _ _ _ _ _ Hsh Hx Hs)).
Qed.

(** What a [get] of [data] may end with. *)
Definition fetched (fails : bool) (output : path) (data : list Z) (r : exit Output) : Prop :=
  (if fails then r = Panic else r = Ok (Wrote output data)) ∨
  ∃ err, r = Err ("Retrieve failed: " +:+ error_to_string err) ∧
    (err = Timeout ∨ ∃ got, (got < d)%nat ∧ err = InsufficientChunks (Z.of_nat d) (Z.of_nat got)).

Lemma cmd_store_safe ctx connect data :
  (∀ m, ∃ bytes, rmp_to_vec (A := TesseraManifest) m = inr bytes) → data ≠ [] →
  safe_if nothing (node_ok ctx) (sends_outgoing ctx)
    (λ r, ∀ out, r = Ok out → ∃ sr, out = Printed (store_report sr) ∧ reports oc data c sr)
    (cmd_store oc ctx connect (Z.of_nat d) (Z.of_nat p) data).
Proof.
  intros Hser Hne. apply (ask_safe nothing _ _ id (λ r, r = Ok ())); [apply do_bootstrap_safe|]. intros r ->.
  rewrite config_new by done. eapply (ask_safe nothing _ _ id).
  - apply (do_store_safe oc (R := nothing) ctx (λ _, True) (λ _, True) (λ _ _ _ _ _ _ _, Logic.I) d p data None Hser Hc Hne (λ _ _, Logic.I)).
  - intros [sr|err|] [_ Hr]; [|by intros ?..]. intros out [= <-]. exists sr. split; [done|]. by apply Hr.
Qed.

Lemma cmd_get_safe ctx P connect output fails hashes data :
  identify oc P d p hashes 0 data →
  safe_if (in_play P) (node_inv (disk_in P) ctx) (sends_outgoing ctx) (fetched fails output data)
    (cmd_get oc ctx connect output fails (mkStored hashes c (length data) 0 None)).
Proof.
  intros Hid. apply (ask_safe (in_play P) _ _ id (λ r, r = Ok ())); [apply do_bootstrap_safe|]. intros r ->.
  apply (ask_safe (in_play P) _ _ id (λ r, exact_or_short d data r ∨ r = Err Timeout)).
  - cbn [sr_chunk_hashes sr_config sr_original_len sr_block_size sr_manifest_hash]. unfold do_retrieve_tessera.
    by apply (retrieve_resolved_safe oc ctx P d p hashes 0 data None).
  - intros r [[->|(got & Hg & ->)]| ->]; cbn [safe_if]; [left; by destruct fails|right; eexists; split; [done|]..]; [right; eauto|by left].
Qed.
(** The temporary node can be set up. *)
Definition can_set_up (env : CliEnv) : bool :=
  is_ok (ce_temp env) && is_ok (se_metadata (ce_start env)) && negb (bool_decide (is_Some (f_mkdir (se_fs (ce_start env))))) &&
  is_ok (se_bind (ce_start env) (mkAddr (V4 0 0 0 0) 0)).

Lemma ephemeral_fresh fuel env pow r :
  make_ephemeral_node fuel env pow = Some r →
  if can_set_up env then ∃ ctx s, r = Ok (ctx, s) ∧ node_ok ctx s ∧ ∀ P, node_inv (disk_in P) ctx s else r = Panic.
Proof.
  unfold make_ephemeral_node, can_set_up, ChunkStore_new. cbv zeta. destruct (pow_generate _ _ _) as [proof|]; [|done]. intros [= <-].
  destruct (ce_temp env) as [dir|e|]; [|done..]. cbn [expect mbind outcome_mbind is_ok andb].
  destruct (se_metadata (ce_start env)) as [m|e|]; [|done..]. cbn [expect mbind outcome_mbind is_ok andb].
  destruct (f_mkdir (se_fs (ce_start env))) as [e|]; [done|]. cbn [expect mbind outcome_mbind is_ok andb].
  destruct (se_bind (ce_start env) _) as [addr|e|]; [|by rewrite andb_false_r..]. cbn [expect mbind outcome_mbind is_ok].
  rewrite bool_decide_eq_false_2 by (by intros []). cbn [negb andb].
  edestruct (spawn_node_state (se_peers (ce_start env)) (se_clock (ce_start env)) (from_secret_bytes (se_secret (ce_start env))) init_tables)
    as (s & E & _ & Hch & _ & _ & Hs); [|rewrite E]; [cbn; lia|]. cbn [expect mbind outcome_mbind]. eexists _, s. split; [done|].
  split; [apply Hs|]. intros P. destruct (Hs proof addr) as [Ht Hl Hcn _]. split; [exact Ht|exact Hl|exact Hcn|]. intros q x. rewrite Hch. cbn. by rewrite lookup_empty.
Qed.

(** C9: From one command to the other.  Let [store] put a file of at most one block on the network and print
    its report.  [get] with that report, run by anybody, on a node of its own, writes exactly the bytes
    of the file, or says why not (too few chunks of the block, or a timeout), whatever the peers answer and
    whatever its disk does, as long as no second preimage of a chunk is among the bytes in play; it panics
    only if its node cannot be set up or the file not be written.  A larger file cannot be fetched
    at all: [get] refuses the report before it starts a node. *)
Theorem stored_file_fetched fuel fuel' env env' P o data connect file connect' output pow pow' st w a :
  (∀ m, ∃ bytes, rmp_to_vec (A := TesseraManifest) m = inr bytes) → data ≠ [] → Z.of_nat (length data) ≤ isize_max →
  one_to_one P → (∀ x, written oc data c x → P x) → ce_read env file = Ok data →
  async_main oc fuel env (Store connect file (Z.of_nat d) (Z.of_nat p) pow) = Some (Ok st) → preserves (node_ok (st_ctx st)) o →
  run o (st_body st) (mkWorld 0 (st_state st) []) = (Some (Ok (Printed a)), w) →
  if (length data <=? DEFAULT_BLOCK_SIZE)%nat then
    ∀ r', async_main oc fuel' env' (Get connect' a output pow') = Some r' →
      if can_set_up env' then ∃ st', r' = Ok st' ∧
        ∀ o', meets (in_play P) o' → preserves (node_inv (disk_in P) (st_ctx st')) o' →
          ∃ r w', run o' (st_body st') (mkWorld 0 (st_state st') []) = (Some r, w') ∧ fetched (ce_write_fails env' output) output data r
      else r' = Panic
  else ∃ got : Z, async_main oc fuel' env' (Get connect' a output pow') =
    Some (Err ("error: expected " +:+ pretty (Z.of_nat (d + p)) +:+ " hashes (data_shards + parity_shards), got " +:+ pretty got)).
Proof.
  intros Hser Hne Hmax Hinj HP Hread Hst Ho Hrun. cbn [async_main] in *. rewrite Hread in Hst. cbn [expect] in Hst.
  destruct (make_ephemeral_node fuel env pow) as [r0|] eqn:E0; [|done]. apply ephemeral_fresh in E0.
  destruct (can_set_up env); [|by subst]. destruct E0 as (ctx & s & -> & Hs & _). injection Hst as <-. cbn [st_ctx st_state st_body] in *.
  destruct (safe_if_run nothing _ _ _ o _ (mkWorld 0 s []) id ltac:(done) Ho Hs (cmd_store_safe ctx connect data Hser Hne))
    as (r & w0 & log & E & Hr & _). rewrite Hrun in E. injection E as <- <-. destruct (Hr _ eq_refl) as (sr & [= ->] & Hrep).
  pose proof (get_request_report oc d p data sr Hc Hne Hrep) as Hget. destruct (_ <=? _)%nat.
  - destruct Hget as [-> (e & He & -> & Hw)]. intros r'. destruct (make_ephemeral_node fuel' env' pow') as [r1|] eqn:E1; [|done].
    apply ephemeral_fresh in E1. intros [= <-]. destruct (can_set_up env'); [|by subst]. destruct E1 as (ctx' & s' & -> & _ & Hs').
    eexists. split; [done|]. cbn [st_ctx st_state st_body]. intros o' Hm Ho'.
    destruct (safe_if_run (in_play P) _ _ _ o' _ (mkWorld 0 s' []) id Hm Ho' (Hs' P)
      (cmd_get_safe ctx' P connect' output (ce_write_fails env' output) (sha256 <$> et_chunks e) data
        (single_identify P data e Hinj Hne Hmax He ltac:(apply Forall_forall; intros x Hx; by apply HP, Hw)))) as (r & w' & log' & E & Hr' & _). by exists r, w'.
  - destruct Hget as [got ->]. by exists got.
Qed.
End journey.

Lemma get_reads_store_witness :
  get_request true (store_report (mkStored (tessera_hashes big_tessera) (mkConfig 2 1) 3 DEFAULT_BLOCK_SIZE (Some [])))
    = Ok (mkStored (tessera_hashes big_tessera) (mkConfig 2 1) 3 0 None).
Proof.
  destruct (rmp_to_vec (manifest_of (tessera_hashes big_tessera) (mkConfig 2 1) 3 DEFAULT_BLOCK_SIZE)) as [|bytes] eqn:Eb.
  { destruct (manifests_serialize (manifest_of (tessera_hashes big_tessera) (mkConfig 2 1) 3 DEFAULT_BLOCK_SIZE)) as [b Hb]. congruence. }
  pose proof (get_reads_store true 2 1 sample_data
    (mkStored (tessera_hashes big_tessera) (mkConfig 2 1) 3 DEFAULT_BLOCK_SIZE (Some (sha256 bytes)))) as Hr.
  assert (length sample_data ≤ DEFAULT_BLOCK_SIZE)%nat as Hl by (unfold DEFAULT_BLOCK_SIZE; cbn [length sample_data]; lia).
  apply Nat.leb_le in Hl. rewrite Hl in Hr. apply Hr.
  - split_and!; lia.
  - discriminate.
  - vm_compute. discriminate.
  - exists big_tessera, bytes. split; [exact big_tessera_ok|]. split; [exact Eb|reflexivity].
Defined.

(** A first start: an empty database, a new identity. *)
Definition first_env : StartEnv :=
  mkStart None (Ok init_tables) no_faults ∅ None None None sample_secret (λ a, Ok a) (λ _, 0) (λ _, Err Timeout) (λ _, Ok ()).
Definition first_args : StartArgs := mkStartArgs (sample_addr 1) ["data"] [] 0.
Definition first_result : option (exit (HandlerContext * NodeState)) := start_node 1 first_env (Some "70"%string) (Some "x"%string) first_args.

Lemma start_node_outcome_witness :
  ∃ ctx s, first_result = Some (Ok (ctx, s)) ∧ cfg_write_rate_per_second (c_config ctx) = 70 ∧
    load_identity None (n_metadata s) = Ok (Some (secret_bytes (c_keypair ctx), nonce (c_pow ctx), difficulty (c_pow ctx))).
Proof.
  assert (∃ cs, first_result = Some (Ok cs)) as [[ctx s] E] by (eexists; vm_compute; reflexivity).
  exists ctx, s. split; [exact E|].
  destruct (start_node_outcome 1 first_env (Some "70"%string) (Some "x"%string) first_args (Ok (ctx, s))) as (_ & _ & Ec & Hid).
  - unfold u8_ok. cbn. lia.
  - vm_compute. discriminate.
  - reflexivity.
  - exact E.
  - split; [rewrite Ec; vm_compute; reflexivity|exact Hid].
Defined.

(** A file of three bytes, stored by one temporary node and fetched by another. *)
Definition cli_env : CliEnv := mkCli first_env None None false (Ok ["tmp"]) (λ _, Ok sample_data) (λ _, false).
Definition store_command : option (exit Started) := async_main true 1 cli_env (Store (sample_addr 1) ["file"] (Z.of_nat 2) (Z.of_nat 1) 0).
Definition get_command (a : GetArgs) : option (exit Started) := async_main true 1 cli_env (Get (sample_addr 2) a ["out"] 0).
Definition run_command (st : Started) : option (exit Output) * world := run sample_oracle (st_body st) (mkWorld 0 (st_state st) []).

Lemma store_command_prints : ∃ st a w, store_command = Some (Ok st) ∧ run_command st = (Some (Ok (Printed a)), w).
Proof.
  assert (match store_command with
          | Some (Ok st) => match (run_command st).1 with Some (Ok (Printed _)) => true | _ => false end
          | _ => false
          end = true) as Hok by (vm_compute; reflexivity).
  destruct store_command as [[st|e|]|]; try done. destruct (run_command st) as [[[[?|a|? ?]|e|]|] w] eqn:E; try done. by exists st, a, w.
Qed.

Lemma stored_file_fetched_witness :
  ∃ st a w st' r w', store_command = Some (Ok st) ∧ run_command st = (Some (Ok (Printed a)), w) ∧
    get_command a = Some (Ok st') ∧ run_command st' = (Some r, w') ∧ fetched 2 false ["out"] sample_data r.
Proof.
  destruct store_command_prints as (st & a & w & Est & Erun). exists st, a, w.
  pose proof (stored_file_fetched true 2 1 ltac:(split_and!; lia) 1 1 cli_env cli_env (λ x, x ∈ big_bytes) sample_oracle sample_data
    (sample_addr 1) ["file"] (sample_addr 2) ["out"] 0 0 st w a) as Hall.
  assert ((length sample_data <=? DEFAULT_BLOCK_SIZE)%nat = true) as Hl by (apply Nat.leb_le; unfold DEFAULT_BLOCK_SIZE; cbn [length sample_data]; lia).
  rewrite Hl in Hall. destruct (get_command a) as [r'|] eqn:Eg.
  - destruct (Hall manifests_serialize ltac:(done) ltac:(by vm_compute) big_one_to_one big_written eq_refl Est ltac:(apply sample_preserves) Erun r' Eg)
      as (st' & -> & Hrun).
    destruct (Hrun sample_oracle) as (r & w' & E & Hr); [apply sample_meets|apply sample_preserves|].
    exists st', r, w'. split_and!; [exact Est|exact Erun|done|exact E|exact Hr].
  - exfalso. unfold get_command in Eg. cbn [async_main] in Eg. destruct (get_request true a); [|done..].
    assert (is_Some (make_ephemeral_node 1 cli_env 0)) as [x Hx] by (eexists; vm_compute; reflexivity). by rewrite Hx in Eg.
Defined.
